(* ===== verification/_CoqProject ===== *)
-Q . S2P
Prelude.v
Identity.v
Priority.v
Metadata.v
Lifecycle.v
CreateQueue.v
Field.v
Records.v
Selector.v
IndexKey.v
FieldView.v
Administration.v
Commit.v
Snapshot.v
Uniqueness.v
Planner.v
PlannerFacts.v
CommitPlan.v
PlanSample.v
PlanProperties.v
UniqueFacts.v
UniquePlan.v
Claim.v
GroupEffects.v
InsertPlan.v
PackPlan.v
Engine.v
ControlPlane.v
MemoryLog.v
Ownership.v
ByteBudget.v
JsonEquality.v
Admission.v
UniqueStream.v
Density.v
Ordered.v
IndexFields.v
Eligibility.v
Projection.v
ProjectionFacts.v
ProjectionSamples.v
ProjectionSteps.v
ProjectionEdits.v
ProjectionRefines.v
ProjectionReads.v
ProjectionReadFacts.v
ProjectionLeases.v
ProjectionSide.v
RichClaim.v
RichClaimFacts.v
ProjectionStore.v
ProjectionStoreFacts.v
Query.v
QueryFacts.v
QueryClaims.v
QueryCounts.v
BoundedMutation.v
