(* ===== verification/Prelude.v ===== *)
(** * Fireweed Queue: a verification development

    Fireweed ([src/]) is a leased work queue with mutable priorities. Producers
    insert keyed work with typed fields; workers claim eligible work under
    leases and commit groups of changes (claimed updates, unclaimed updates,
    inserts, state records, administrative actions) that take effect together
    or not at all. The storage back ends (PostgreSQL, Turso, an object log,
    memory) load the records a group addresses, run one storage-independent
    planner and write its delta. The planner and the vocabulary it works on are
    the first thing this development models: the pure code of
    [crates/fireweed-core/src] and of the [queue_*] files of
    [crates/fireweed-engine/src]. Around it, nodes own queues: a control plane
    leases each queue to one node, the node fences the storage epoch before it
    serves, writes carry the epoch and the command log refuses stale ones, and a
    byte budget admits what a node buffers. These protocols are the second
    thing modelled. The third is the read model of the item API: the commands
    of the log ([fireweed-engine/src/command.rs]) are applied to an in-memory
    projection with nine indexes ([fireweed-projection/src/lib.rs]), from which
    claims are selected, leases expired and queries answered.

    ** Files

    Files are in dependency order; a definition has the name of the function
    or type it models.

    - [Prelude]: results with the [?] operator as monadic bind, loops with early
      return, ordered maps as lists sorted by key, byte and word arithmetic,
      shared lemmas.
    - [Identity], [Priority], [Metadata], [Lifecycle], [CreateQueue]:
      [fireweed-core/src/domain.rs], that is identifiers and item ids, priority sort
      keys, metadata and its JSON form, the item state machine with retry,
      idempotency and eligibility, and the validation of queue creation.
    - [Field], [Records], [Commit]: [fireweed-core/src/queue_contract.rs], that is
      typed values, predicates and buckets; schemas, limits, records and the
      claim filter; requests with canonical encoding, byte limits,
      fingerprints and the admission of commit batches.
    - [Selector], [Administration]:
      [fireweed-core/src/queue_administration.rs], that is the postfix selector
      programs with their evaluator, and administrative intents and results.
    - [IndexKey]: [fireweed-engine/src/queue_index.rs] and
      [queue_fields/index.rs], the order-preserving index keys.
    - [FieldView]: [fireweed-engine/src/queue_fields.rs] and [queue_body.rs],
      partial views of stored fields, resolved edits and index effects.
    - [Snapshot], [Uniqueness], [Planner]:
      [fireweed-engine/src/queue_planner.rs]. [Snapshot] has the loaded records
      ([RecordSnapshot]), the delta a plan writes ([CommitDelta]) and the
      application of one group; [Uniqueness] resolves field writes and checks
      the unique tuples a delta releases and claims; [Planner] composes them in
      [plan_commit_group] and has insert vectors, delta packing and read sets.
    - [Claim]: [fireweed-engine/src/queue_claim.rs], the claim transition and the
      response byte budget.
    - [PlannerFacts], [CommitPlan], [UniqueFacts]: the proof library of the
      planner. Applying a group is a sequence of record steps
      ([PlannerFacts.step]) that keeps snapshots well formed ([snapshot_ok]);
      a planned commit is described once ([CommitPlan.committed]) and the
      theorems follow from that description.
    - [PlanSample]: one concrete snapshot and group, for the instances.
    - [PlanProperties], [UniquePlan], [GroupEffects], [InsertPlan], [PackPlan]:
      the planner's theorems.
    - [Engine]: [fireweed-engine/src/error.rs], [types.rs], [epoch.rs] and
      [auth.rs], that is the engine error and its durable form, queue keys,
      command positions, write epochs and authorization.
    - [ControlPlane]: [fireweed-engine/src/control_plane.rs], the lease decisions,
      rendezvous assignment and the in-memory authority ([CpState], one atomic
      operation per method).
    - [MemoryLog]: [LogData] of [fireweed-projection/src/lib.rs], [MemoryLog] of
      [compose_impls.rs] and the replay loop of
      [async_log_replay_product.rs].
    - [Ownership]: [fireweed-engine/src/ownership.rs] with the fences of [port.rs]
      and [async_log_replay_product.rs]. [acquire_and_fence] is the whole call;
      [call_step] runs it from one await to the next, and [sys_run] interleaves
      any number of calls with other users of the authority. Storage is the
      class [EpochStore] with [EpochStoreLaws], discharged by [MemoryLog].
    - [ByteBudget]: [fireweed-engine/src/byte_admission.rs], with the futures and
      permits of its callers ([BSys]).
    - [JsonEquality]: [fireweed-core/src/queue_json.rs], the equality bytes of
      JSON attributes.
    - [Admission]: [fireweed-engine/src/queue_admission.rs], the slots and bytes
      of storage jobs; [Jobs] has the reservations and charges of a process and
      [a_run] their histories.
    - [UniqueStream]: [fireweed-engine/src/queue_unique_stream.rs] and its loop in
      [fireweed-queue-spool/src/evidence.rs], uniqueness over a stream too large
      for one snapshot; it charges [Admission] and agrees with [Uniqueness].
    - [Density]: [fireweed-engine/src/density.rs], the hot queues of a node and
      the sweep that renews their leases, over [ControlPlane].
    - [Ordered]: Rust's [Ord] as a class with its laws, ordered walks of sets,
      posting lists, and what it means that an index tracks a map of records.
    - [IndexFields]: [fireweed-engine/src/index_fields.rs] and the value and key
      helpers of [fireweed-projection/src/lib.rs], that is typed index values,
      their extraction from a document, framed keys and the echoed document.
    - [Eligibility]: the record of an item and the eligibility index with its
      compact and rich forms ([ItemRecord], [EligibilityIndex] of
      [fireweed-projection/src/lib.rs]).
    - [Projection]: [ProjectionData] with every arm of [apply_command_at], the
      validators, images and the reaper; a state and error monad threads the
      projection, and a failed command keeps what it had done, as the code does.
    - [ProjectionFacts], [ProjectionSteps], [ProjectionEdits]: the invariant
      [consistent] (every index holds exactly the rows its records imply, the
      counters count them) and what each step does to record and indexes.
    - [ProjectionSamples]: the new projection, a concrete codec and history.
    - [ProjectionRefines]: the abstract queue [spec_command] on a [QueueView] of
      records, gates, pause, side records and fences, and its refinement.
    - [ProjectionReads]: the read methods of [ProjectionData] and the defaults of
      [port.rs] they override.
    - [ProjectionReadFacts], [ProjectionLeases], [ProjectionSide]: their theorems.
    - [RichClaim], [RichClaimFacts]: the claim units, that is
      [fireweed-engine/src/claim_validation.rs], the selections of
      [fireweed-projection/src/compose_impls.rs] and the plan of
      [async_claim_planner.rs].
    - [ProjectionStore], [ProjectionStoreFacts]: [InMemoryProjection] of
      [fireweed-projection/src/compose_impls.rs], that is the projections of every
      queue, recovery from the log and the expired-lease pages with the cursor of
      [fireweed-engine/src/compose.rs].
    - [Query]: [fireweed-core/src/query.rs] and the queries over declared indexes
      of [fireweed-projection/src/lib.rs]: range scans, grouped counts, buckets,
      lifecycle counts and the selection of claims by query.
    - [QueryFacts], [QueryClaims], [QueryCounts]: their theorems.
    - [BoundedMutation]: the bounded mutation of [fireweed-projection/src/lib.rs],
      its plan and the application of the plan, with their theorems.

    ** What the theorems show

    - Planner. A rejected group changes nothing and a committed one is exactly
      the delta it reports ([plan_rejection_atomic], [receipt_lists_modified]);
      each record of a committed group is what its own operation makes of it
      ([group_effects_exact]);
      snapshots stay well formed ([plan_preserves_ok]); versions rise by one per
      change and survive deletion ([plan_versions_count]); unaddressed records
      are untouched ([plan_frame]); claimed updates commit only under the
      record's live lease ([claimed_updates_fenced]). Every loaded unique tuple has
      at most one owner, and the owner table a plan leaves tells who owns it
      in the full store after the delta, although the planner only saw partial
      views ([unique_ownership_exact]). Insert vectors are the sequence
      of their items ([insert_vector_sequential]), and a packed delta does
      what its deltas do in order ([combine_deltas_sequential]).
    - Claims. [plan_claim_exact] says when work is claimable and what the lease
      is, [claim_exclusive] that nobody else gets it before expiry,
      [claim_budget_exact] that the response size is exact.
    - Field views. Edits resolved on a partial view are the edits of the stored
      record, compose in order, keep views honest, and replay only at their
      expected version ([resolve_edits_refines], [resolved_then_sequential],
      [apply_to_view_honest], [apply_command_fenced]).
    - Keys and selection. Index keys order as their tuples and equal the codec's
      bytes ([ordered_key_order], [ordered_key_codec]); the flat selector
      evaluator is the tree semantics ([selector_evaluate_tree],
      [selector_builders]); buckets partition ([buckets_classify_exact]); predicates
      never coerce ([predicate_no_coercion]).
    - Requests. [commit_batch_admitted] characterises admission,
      [byte_limit_exact] the size limit, [fingerprint_separates] the request
      fingerprint, [histogram_counts] administrative totals.
    - Ownership. A live lease is never taken over and an assignment epoch names
      one owner for ever ([live_lease_exclusive], [epoch_names_one_owner]); an
      acquired and confirmed lease serves ([acquire_confirm_serves]); the
      assignment moves only with the owners it involves ([rendezvous_minimal]).
      Under a durable authority, in every interleaving of calls, two sessions
      that pass the write fence have one owner
      ([durable_sessions_exclusive]), and an uninterrupted call is a run of the
      step machine ([acquire_and_fence_runs]). Two theorems exhibit the
      interleavings in which the code falls short of that:
      [unguarded_fence_split_brain], [ephemeral_reaffirm_split_brain].
    - Log. Positions increase and the high-water never moves back
      ([log_positions_increase]); snapshots read back ([snapshot_roundtrip]);
      replay in pages loses commands ([replay_loses_commands]). A durable
      rejection reads back when its reason is a known text
      ([commit_rejection_roundtrip]).
    - Byte budget. Charges are exactly the permits and grants outstanding, within
      both limits ([byte_budget_exact]); no waiter is left that the grant rule
      could serve ([grant_waiters_maximal]); zero-byte permits panic
      ([zero_byte_permits_panic]).
    - Jobs. The admission counters are exactly the live reservations and charges,
      whoever drops them last ([admission_exact]). The streamed uniqueness check
      decides as the planner does and reports the owners after the plan
      ([unique_stream_exact]). Resident queues are a bounded recency list
      ([resident_lru]), and a sweep keeps exactly the queues whose lease is still
      held ([renew_sweep_exact], [renew_sweep_partition]).
    - Projection. Every valid command applies, changes the records as the
      abstract queue says and leaves every index exact ([command_refines]). So
      claim candidates are the claimable items in claim order, within the rank
      error bound ([claim_selection_exact]), a claim leases them exclusively
      ([claim_tick_exclusive]), expiry finds and returns exactly the lapsed leases
      ([expired_leases_exact], [reclaim_tick_drains]), and lease reads from the
      indexes equal the port's reads over all leases ([lease_reads_refine]) but
      for an unknown consumer ([pending_range_unknown_consumer]). Paging through
      side records ends with all of them ([side_paging_terminates]).
    - All queues. A recovered queue is installed atomically and is the projection
      that live application of the same log builds ([recovery_install_refines]);
      following the expired-lease pages ends and visits every lapsed lease once
      ([expired_sweep_complete]).
    - Queries. Following the cursors of a range scan ends and returns the rows that
      pass every filter, in order and once ([range_scan_pages_exact]); claiming by
      query selects the first of the claimable matches, and seeking the index at the
      equality prefix loses none ([query_claim_exact]). Bucket, group and
      lifecycle counts are exact ([bucket_counts_exact], [group_counts_exact],
      [metrics_by_key_exact]). A bounded mutation answers for every match
      and updates the pending, unfenced and live ones, and the projection stays
      exact while no two updates leave the same unique key
      ([bounded_mutation_refines]); when they do, the planner does not refuse the
      second and the unique index loses the first
      ([bounded_mutation_breaks_unique]). Four theorems record further departures: a second
      filter on a leading column is ignored ([repeated_filter_ignored]), a NaN
      column makes ordered claims panic ([nan_order_panics]), the other zero is
      missed ([negative_zero_claim_missed]), and a bucket without bounds takes
      everything ([unbounded_bucket_takes_all]).
    - Claim units. Groups are taken whole ([whole_group_claim_exact]), a cohort is
      complete or not taken ([whole_cohort_claim_exact]), filters select what
      passes them ([filtered_claim_exact]), and every planned claim applies
      ([claim_plan_applies]).
    - Index values. A key decodes to the values it was framed from
      ([typed_key_roundtrip]) and orders as they do ([encoded_value_order]); the
      readers of datetimes disagree on the unit ([datetime_units_disagree]).
    - JSON equality. The iterative encoder is the recursive encoding and rejects
      exactly what exceeds the limit ([json_encode_exact]); bytes are equal
      exactly for equal values ([json_equality_bytes]).
    - Domain. The state machine's histories, retry budget, eligibility,
      idempotency, queue creation, item ids, times, metadata and sort keys.
      Three theorems record where the code departs from its intent:
      [priority_sort_text_nul], [priority_sort_39_digits] and
      [metadata_entries_key_lost].

    ** Conventions

    Machine integers are [Z] with their range or wrap-around written at the
    operation; binary64 values are their 64 bits; Rust strings are byte strings;
    [BTreeMap]s are [gmap]s, walked in key order by [btree_list] where the order
    is visible. Functions are total and mostly structural; fuel appears in the
    decimal digit loops of [Identity] (20 digits hold a [u64]) and [Priority]
    (39 hold a [u128]), in the whitespace scan (the length of the string), in
    the length prefixes of [JsonEquality] (10 groups of 7 bits hold a [u64]) and
    its frame loop (the number of frames of the value), in the fence loop of
    [Ownership] (the distance to the target), in the grant loop of [ByteBudget]
    (each round grants a waiter), in the group loop of [UniqueStream] (each
    group has a row), in the replay loop of [MemoryLog] (each page
    advances), in the rank blocks of [Eligibility] (the length of the list) and
    in the page loops of [ProjectionSide], [ProjectionStoreFacts] and [QueryFacts]
    (each page advances), and the lemmas on
    them show it is enough. Panics of the code are
    [None], or [Panicked] beside engine errors, where they matter; atomic sections under one lock are one step. Code outside [src/] is a
    parameter with the laws that are used of it: postcard's canonical encoding
    ([Canonical]), SHA-256 ([Sha256], [Sha256Laws]: digests have 32 bytes),
    [axon_esf]'s declarations and datetime reader ([AxonEsf], [AxonIndex]),
    serde_json's numbers ([JsonNumber], [JsonBuild]) and its document codec
    ([EntityCodec], [EntityCodecLaws]: a document reads back) and cursor text
    ([CursorCodec], [CursorCodecLaws]: a row reads back; [QueryText],
    [QueryTextLaws]: a state without floats reads back; [JsonRange]: integers are
    [i64]s and floats finite) and the text of typed values ([TypedText]). The hash that spreads
    queues over workers is a parameter without laws ([QueueHash]).
    Instances at concrete inputs accompany the theorems with hypotheses.

    ** Not modelled, and what is next

    Storage drivers, network adapters, async orchestration, benchmarks and
    release tooling are I/O around this code and are not modelled; wakers and
    wall-clock statistics of the byte budget, and the files of the evidence spool,
    are left out. Of the pure code,
    these come next, in this order: the per-target administrative proposals
    ([fireweed-engine/src/queue_administration.rs]); the read sets as sufficient
    for planning ([required_work_fields], [required_unique_probes]); the
    frames of [queue_publication.rs] and [queue_log_record.rs] as round trips; cursors and
    storage layout; of the projection, the planner of item
    mutations ([plan_item_mutation]). *)
From stdpp Require Export base gmap strings list sorting fin_maps.
From Stdlib Require Export ZArith Lia.
From Stdlib Require Import Strings.Byte.

#[global] Open Scope Z_scope.
#[export] Set Default Goal Selector "!".

(** ** Results *)

(** Rust's [Result<A, E>]; the error type comes first so that [result E] is a
    monad for stdpp's [x ← e; k] notation (the [?] operator). *)
Inductive result (E A : Type) : Type :=
| Ok (a : A)
| Err (e : E).
Arguments Ok {E A} a.
Arguments Err {E A} e.

#[global] Instance result_ret E : MRet (result E) := λ A a, Ok a.
#[global] Instance result_bind E : MBind (result E) := λ A B f r,
  match r with Ok a => f a | Err e => Err e end.
#[global] Instance result_fmap E : FMap (result E) := λ A B f r,
  match r with Ok a => Ok (f a) | Err e => Err e end.
#[global] Instance result_eq_dec E A `{EqDecision E, EqDecision A} : EqDecision (result E A).
Proof. solve_decision. Defined.

(** [Option::ok_or]. *)
Definition ok_or {E A} (o : option A) (e : E) : result E A :=
  match o with Some a => Ok a | None => Err e end.

Definition is_ok {E A} (r : result E A) : bool :=
  match r with Ok _ => true | Err _ => false end.

(** [map_err]. *)
Definition map_err {E F A} (f : E → F) (r : result E A) : result F A :=
  match r with Ok a => Ok a | Err e => Err (f e) end.

(** A [for] loop whose body may leave with [?]: the loop state is threaded
    through the elements in order and the first error wins. *)
Fixpoint try_fold {E A S} (f : S → A → result E S) (s : S) (l : list A) : result E S :=
  match l with
  | [] => Ok s
  | a :: l => s' ← f s a; try_fold f s' l
  end.

(** A [for] loop that only checks. *)
Fixpoint try_for_each {E A} (f : A → result E unit) (l : list A) : result E unit :=
  match l with
  | [] => Ok tt
  | a :: l => _ ← f a; try_for_each f l
  end.

(** [iter().map(f).collect::<Result<Vec<_>, _>>()]. *)
Fixpoint try_collect {E A B} (f : A → result E B) (l : list A) : result E (list B) :=
  match l with
  | [] => Ok []
  | a :: l => b ← f a; bs ← try_collect f l; Ok (b :: bs)
  end.

(** ** Machine integers

    A machine integer is a [Z]; the bound is part of every operation that can
    leave it. *)

Definition u8_max : Z := 2 ^ 8 - 1.
Definition u32_max : Z := 2 ^ 32 - 1.
Definition u64_max : Z := 2 ^ 64 - 1.
Definition i32_max : Z := 2 ^ 31 - 1.
Definition i32_min : Z := - 2 ^ 31.
Definition i64_max : Z := 2 ^ 63 - 1.
Definition i64_min : Z := - 2 ^ 63.

Definition is_u32 (z : Z) : Prop := 0 ≤ z ≤ u32_max.
Definition is_u64 (z : Z) : Prop := 0 ≤ z ≤ u64_max.
Definition is_i64 (z : Z) : Prop := i64_min ≤ z ≤ i64_max.

(** [u64::checked_add], [u32::checked_add], [i64::checked_add]. *)
Definition checked_add_u64 (a b : Z) : option Z :=
  if a + b <=? u64_max then Some (a + b) else None.
Definition checked_add_u32 (a b : Z) : option Z :=
  if a + b <=? u32_max then Some (a + b) else None.
Definition checked_add_i64 (a b : Z) : option Z :=
  if (i64_min <=? a + b) && (a + b <=? i64_max) then Some (a + b) else None.

(** [saturating_add], [saturating_sub]. *)
Definition saturating_add_u64 (a b : Z) : Z := Z.min u64_max (a + b).
Definition saturating_sub_u64 (a b : Z) : Z := Z.max 0 (a - b).

(** [as u64] of an [i64]: two's complement reinterpretation. *)
Definition i64_as_u64 (z : Z) : Z := z mod 2 ^ 64.

(** [(v as u64) ^ (1 << 63)]: the sign-bit flip that maps [i64] order onto
    [u64] order. *)
Definition flip_sign (v : Z) : Z := Z.lxor (i64_as_u64 v) (Z.shiftl 1 63).

(** [!x] on an unsigned integer of [bits] bits. *)
Definition not_bits (bits x : Z) : Z := Z.lnot x mod 2 ^ bits.

(** ** Bytes *)

Definition bytes : Type := list byte.

#[global] Instance byte_eq_decision : EqDecision byte := Byte.byte_eq_dec.
#[global] Program Instance byte_countable : Countable byte :=
  inj_countable Byte.to_N Byte.of_N _.
Next Obligation. intros b. apply Byte.of_to_N. Qed.

Definition Z_of_byte (b : byte) : Z := Z.of_N (Byte.to_N b).
Definition byte_of_Z (z : Z) : byte :=
  default Byte.x00 (Byte.of_N (Z.to_N (z mod 256))).

(** [to_be_bytes] of an [8 * n]-bit unsigned integer. *)
Fixpoint to_be_bytes (n : nat) (z : Z) : bytes :=
  match n with
  | O => []
  | S k => byte_of_Z (z / 256 ^ Z.of_nat k) :: to_be_bytes k z
  end.

(** [str::as_bytes]; a Rust [String] is the byte sequence of its UTF-8 text. *)
Definition as_bytes (s : string) : bytes := String.list_byte_of_string s.

(** [Ord] on byte slices: lexicographic, a proper prefix is smaller. *)
Fixpoint bytes_cmp (a b : bytes) : comparison :=
  match a, b with
  | [], [] => Eq
  | [], _ :: _ => Lt
  | _ :: _, [] => Gt
  | x :: a, y :: b =>
      match Z_of_byte x ?= Z_of_byte y with
      | Eq => bytes_cmp a b
      | c => c
      end
  end.

(** [Ordering::then]. *)
Definition then_cmp (c d : comparison) : comparison :=
  match c with Eq => d | _ => c end.

(** The bitwise complement of every byte ([b ^= 0xff] or [!word]). *)
Definition byte_not (b : byte) : byte := byte_of_Z (Z.lxor (Z_of_byte b) 255).
Definition bytes_not (b : bytes) : bytes := byte_not <$> b.

(** ** Text *)

(** The code points [char::is_whitespace] accepts (Unicode White_Space), by
    their UTF-8 bytes: the length of the whitespace character at the head. *)
Definition whitespace_head (s : list Z) : option nat :=
  match s with
  | b1 :: rest =>
      if ((9 <=? b1) && (b1 <=? 13)) || (b1 =? 32) then Some 1%nat else
      match rest with
      | b2 :: rest =>
          if (b1 =? 0xC2) && ((b2 =? 0x85) || (b2 =? 0xA0)) then Some 2%nat else
          match rest with
          | b3 :: _ =>
              if ((b1 =? 0xE1) && (b2 =? 0x9A) && (b3 =? 0x80))
                 || ((b1 =? 0xE2) && (b2 =? 0x80) &&
                     (((0x80 <=? b3) && (b3 <=? 0x8A)) || (b3 =? 0xA8) || (b3 =? 0xA9) || (b3 =? 0xAF)))
                 || ((b1 =? 0xE2) && (b2 =? 0x81) && (b3 =? 0x9F))
                 || ((b1 =? 0xE3) && (b2 =? 0x80) && (b3 =? 0x80))
              then Some 3%nat else None
          | [] => None
          end
      | [] => None
      end
  | [] => None
  end.

Fixpoint all_whitespace (fuel : nat) (s : list Z) : bool :=
  match s, fuel with
  | [], _ => true
  | _, O => false
  | _, S fuel =>
      match whitespace_head s with
      | Some n => all_whitespace fuel (drop n s)
      | None => false
      end
  end.

(** [s.trim().is_empty()]: every character is whitespace. The fuel is the
    number of bytes, and every step drops at least one. *)
Definition blank (s : string) : bool :=
  let b := Z_of_byte <$> as_bytes s in all_whitespace (length b) b.

(** [str::starts_with] and [str::ends_with] on a one-byte suffix. *)
Definition starts_with (s prefix : string) : bool := String.prefix prefix s.
Definition ends_with_byte (s : string) (b : byte) : bool :=
  match last (as_bytes s) with Some c => bool_decide (b = c) | None => false end.

(** ** Ordered iteration over [BTreeMap]s and [BTreeSet]s *)

Definition btree_list {A} (m : gmap string A) : list (string * A) :=
  merge_sort (λ x y, String.le x.1 y.1) (map_to_list m).
Definition btree_keys {A} (m : gmap string A) : list string := (btree_list m).*1.
Definition btree_values {A} (m : gmap string A) : list A := (btree_list m).*2.
Definition btree_elems (s : gset string) : list string :=
  merge_sort String.le (elements s).

(** ** Lemmas: results *)

Create HintDb fw discriminated.

Lemma bind_Ok {E A B} (r : result E A) (f : A → result E B) b :
  (r ≫= f) = Ok b ↔ ∃ a, r = Ok a ∧ f a = Ok b.
Proof. destruct r; cbn; naive_solver. Qed.

Lemma fmap_Ok {E A B} (r : result E A) (f : A → B) b :
  f <$> r = Ok b ↔ ∃ a, r = Ok a ∧ f a = b.
Proof. destruct r; cbn; naive_solver. Qed.

Lemma ok_or_Ok {E A} (o : option A) (e : E) a : ok_or o e = Ok a ↔ o = Some a.
Proof. destruct o; cbn; naive_solver. Qed.

Lemma try_fold_cons {E A S} (f : S → A → result E S) s a l :
  try_fold f s (a :: l) = s' ← f s a; try_fold f s' l.
Proof. done. Qed.

Lemma try_fold_app {E A S} (f : S → A → result E S) s l k :
  try_fold f s (l ++ k) = s' ← try_fold f s l; try_fold f s' k.
Proof.
  revert s; induction l as [|a l IH]; intros s; cbn; [done|].
  destruct (f s a); cbn; [apply IH|done].
Qed.

(** Loop invariants for [try_fold]: a property of the state that every
    successful body preserves. *)
Lemma try_fold_inv {E A S} (P : S → Prop) (f : S → A → result E S) s l s' :
  P s →
  (∀ s a s', a ∈ l → P s → f s a = Ok s' → P s') →
  try_fold f s l = Ok s' → P s'.
Proof.
  revert s; induction l as [|a l IH]; intros s Hs Hstep; cbn.
  - by intros [= <-].
  - intros (s1 & H1 & H2)%bind_Ok.
    eapply IH; [|..|exact H2].
    + eapply Hstep; [left|done|done].
    + intros; eapply Hstep; [by right|done|done].
Qed.

(** Loop relations: a reflexive-transitive relation every body stays within. *)
Lemma try_fold_rel {E A S} (R : S → S → Prop) `{!PreOrder R}
    (f : S → A → result E S) s l s' :
  (∀ s a s', a ∈ l → f s a = Ok s' → R s s') →
  try_fold f s l = Ok s' → R s s'.
Proof.
  intros Hstep. apply (try_fold_inv (R s)); [reflexivity|].
  intros s1 a s2 Ha Hr Hf. etrans; [exact Hr|]. by eapply Hstep.
Qed.

Lemma try_for_each_Ok {E A} (f : A → result E unit) l :
  try_for_each f l = Ok tt ↔ Forall (λ a, f a = Ok tt) l.
Proof.
  induction l as [|a l IH]; cbn; [split; auto|].
  rewrite Forall_cons, <-IH. destruct (f a) as [[]|]; cbn; naive_solver.
Qed.

Lemma try_collect_Ok {E A B} (f : A → result E B) l bs :
  try_collect f l = Ok bs ↔ Forall2 (λ a b, f a = Ok b) l bs.
Proof.
  revert bs; induction l as [|a l IH]; intros bs; cbn.
  - split; [intros [= <-]; constructor|by intros ->%Forall2_nil_inv_l].
  - rewrite bind_Ok. setoid_rewrite bind_Ok. setoid_rewrite IH. split.
    + intros (b & Hb & bs' & Hbs & [= <-]). by constructor.
    + inversion_clear 1. naive_solver.
Qed.

(** Break a successful monadic computation into its successful parts. *)
Ltac res_step :=
  match goal with
  | H : Ok _ = Ok _ |- _ => injection H as H; try subst
  | H : Err _ = Err _ |- _ => injection H as H; try subst
  | H : Ok _ = Err _ |- _ => discriminate H
  | H : Err _ = Ok _ |- _ => discriminate H
  | H : (?r ≫= _) = Ok _ |- _ =>
      let a := fresh "r" in let E := fresh "E" in
      apply bind_Ok in H as (a & E & H)
  | H : ok_or _ _ = Ok _ |- _ => apply ok_or_Ok in H
  | H : _ ∧ _ |- _ => destruct H
  | H : ex _ |- _ => destruct H
  | H : (if ?b then Err _ else _) = Ok _ |- _ =>
      let E := fresh "E" in destruct b eqn:E; [discriminate H|]
  | H : (if ?b then _ else Err _) = Ok _ |- _ =>
      let E := fresh "E" in destruct b eqn:E; [|discriminate H]
  end.
Ltac res_inv := repeat res_step.

(** ** Lemmas: machine integers *)

Ltac unfold_ints :=
  unfold is_u32, is_u64, is_i64, u8_max, u32_max, u64_max, i32_max, i32_min,
    i64_max, i64_min, i64_as_u64 in *.
Ltac int_lia := unfold_ints; lia.
Ltac div_lia := unfold_ints; Z.div_mod_to_equations; lia.

Lemma checked_add_u64_Some a b c :
  checked_add_u64 a b = Some c ↔ c = a + b ∧ a + b ≤ u64_max.
Proof.
  unfold checked_add_u64. destruct (Z.leb_spec (a + b) u64_max); naive_solver lia.
Qed.

Lemma checked_add_u32_Some a b c :
  checked_add_u32 a b = Some c ↔ c = a + b ∧ a + b ≤ u32_max.
Proof.
  unfold checked_add_u32. destruct (Z.leb_spec (a + b) u32_max); naive_solver lia.
Qed.

Lemma checked_add_i64_Some a b c :
  checked_add_i64 a b = Some c ↔ c = a + b ∧ is_i64 (a + b).
Proof.
  unfold checked_add_i64, is_i64.
  destruct (Z.leb_spec i64_min (a + b)), (Z.leb_spec (a + b) i64_max); cbn; naive_solver lia.
Qed.

Lemma lxor_high x : 0 ≤ x < 2 ^ 63 → Z.lxor x (2 ^ 63) = x + 2 ^ 63.
Proof.
  intros Hx. symmetry. apply Z.add_nocarry_lxor, Z.bits_inj'. intros i Hi.
  rewrite Z.land_spec, Z.bits_0, Z.pow2_bits_eqb by lia.
  destruct (Z.eqb_spec 63 i) as [<-|]; [|by rewrite andb_false_r].
  rewrite Z.bits_above_log2; [done|lia|].
  destruct (decide (x = 0)) as [->|]; [done|]. apply Z.log2_lt_pow2; lia.
Qed.

Lemma flip_sign_eq v : is_i64 v → flip_sign v = v + 2 ^ 63.
Proof.
  intros Hv. unfold flip_sign. rewrite Z.shiftl_1_l.
  destruct (decide (0 ≤ v)).
  - assert (i64_as_u64 v = v) as -> by (apply Z.mod_small; int_lia).
    apply lxor_high. int_lia.
  - assert (i64_as_u64 v = (v + 2 ^ 63) + 2 ^ 63) as ->.
    { unfold i64_as_u64. symmetry. apply (Z.mod_unique_pos _ _ (-1)); int_lia. }
    rewrite <-(lxor_high (v + 2 ^ 63)) by int_lia.
    by rewrite Z.lxor_assoc, Z.lxor_nilpotent, Z.lxor_0_r.
Qed.

Lemma not_bits_eq bits x : 0 ≤ x < 2 ^ bits → not_bits bits x = 2 ^ bits - 1 - x.
Proof.
  intros Hx. unfold not_bits, Z.lnot.
  symmetry. apply (Z.mod_unique_pos _ _ (-1)); lia.
Qed.

(** ** Lemmas: bytes and their order *)

Lemma Z_of_byte_range b : 0 ≤ Z_of_byte b < 256.
Proof. unfold Z_of_byte. pose proof (Byte.to_N_bounded b). lia. Qed.

Lemma Z_of_byte_of_Z z : Z_of_byte (byte_of_Z z) = z mod 256.
Proof.
  unfold Z_of_byte, byte_of_Z.
  assert (0 ≤ z mod 256 < 256) by (apply Z.mod_pos_bound; lia).
  destruct (Byte.of_N (Z.to_N (z mod 256))) as [b|] eqn:E; cbn.
  - apply Byte.to_of_N in E. rewrite E. lia.
  - apply Byte.of_N_None_iff in E. lia.
Qed.

Lemma Z_of_byte_inj a b : Z_of_byte a = Z_of_byte b → a = b.
Proof.
  unfold Z_of_byte. intros H%N2Z.inj. apply (inj Some).
  by rewrite <-!Byte.of_to_N, H.
Qed.

Lemma Z_of_byte_not b : Z_of_byte (byte_not b) = 255 - Z_of_byte b.
Proof.
  unfold byte_not. rewrite Z_of_byte_of_Z. by destruct b.
Qed.

Lemma length_to_be_bytes n z : length (to_be_bytes n z) = n.
Proof. induction n; cbn; auto. Qed.

Lemma to_be_bytes_mod n m z :
  (n ≤ m)%nat → to_be_bytes n (z mod 256 ^ Z.of_nat m) = to_be_bytes n z.
Proof.
  intros Hnm. induction n as [|k IH]; cbn [to_be_bytes]; [done|].
  rewrite IH by lia. f_equal. apply Z_of_byte_inj. rewrite !Z_of_byte_of_Z.
  replace (Z.of_nat m) with (Z.of_nat k + (Z.of_nat m - Z.of_nat k)) by lia.
  rewrite Z.pow_add_r by lia.
  rewrite Z.rem_mul_r by (try apply Z.pow_nonzero; lia).
  replace (Z.of_nat m - Z.of_nat k) with (1 + (Z.of_nat m - Z.of_nat k - 1)) by lia.
  rewrite Z.pow_add_r, Z.pow_1_r by lia.
  rewrite Z.mul_comm, Z.div_add by (apply Z.pow_nonzero; lia).
  rewrite Z.div_small by (apply Z.mod_pos_bound; lia).
  rewrite Z.add_0_l. apply Z.mod_mod_divide.
  by exists (256 ^ (Z.of_nat m - Z.of_nat k - 1)); rewrite Z.mul_comm.
Qed.

Lemma as_bytes_app s t : as_bytes (String.app s t) = as_bytes s ++ as_bytes t.
Proof.
  unfold as_bytes, String.list_byte_of_string. rewrite <-map_app. f_equal.
  induction s as [|a s IH]; [done|]. exact (f_equal (cons a) IH).
Qed.

Lemma bytes_cmp_refl a : bytes_cmp a a = Eq.
Proof. induction a as [|x a IH]; cbn; [done|]. by rewrite Z.compare_refl. Qed.

Lemma bytes_cmp_Eq a b : bytes_cmp a b = Eq ↔ a = b.
Proof.
  split; [|intros ->; apply bytes_cmp_refl].
  revert b; induction a as [|x a IH]; intros [|y b]; cbn; try done.
  destruct (Z.compare_spec (Z_of_byte x) (Z_of_byte y)) as [E| |]; try done.
  intros H. f_equal; [by apply Z_of_byte_inj|by apply IH].
Qed.

Lemma bytes_cmp_antisym a b : bytes_cmp b a = CompOpp (bytes_cmp a b).
Proof.
  revert b; induction a as [|x a IH]; intros [|y b]; cbn; try done.
  rewrite (Z.compare_antisym (Z_of_byte x)).
  destruct (Z_of_byte x ?= Z_of_byte y); cbn; auto.
Qed.

Lemma bytes_cmp_Lt_trans a b c :
  bytes_cmp a b = Lt → bytes_cmp b c = Lt → bytes_cmp a c = Lt.
Proof.
  revert b c; induction a as [|x a IH]; intros [|y b] [|z c]; cbn; try done.
  destruct (Z.compare_spec (Z_of_byte x) (Z_of_byte y)),
    (Z.compare_spec (Z_of_byte y) (Z_of_byte z)),
    (Z.compare_spec (Z_of_byte x) (Z_of_byte z)); try done; try lia.
  apply IH.
Qed.

(** Equal-length blocks compare field by field. *)
Lemma bytes_cmp_app a b x y :
  length a = length b →
  bytes_cmp (a ++ x) (b ++ y) = then_cmp (bytes_cmp a b) (bytes_cmp x y).
Proof.
  revert b; induction a as [|p a IH]; intros [|q b]; cbn; try done.
  intros [= Hl]. destruct (Z_of_byte p ?= Z_of_byte q); cbn; auto.
Qed.

Lemma bytes_cmp_app_same p x y : bytes_cmp (p ++ x) (p ++ y) = bytes_cmp x y.
Proof. rewrite bytes_cmp_app by done. by rewrite bytes_cmp_refl. Qed.

(** Big-endian bytes of one width order as the integers they encode. *)
Lemma to_be_bytes_cmp n a b :
  0 ≤ a < 256 ^ Z.of_nat n → 0 ≤ b < 256 ^ Z.of_nat n →
  bytes_cmp (to_be_bytes n a) (to_be_bytes n b) = (a ?= b).
Proof.
  revert a b; induction n as [|k IH]; intros a b Ha Hb.
  { cbn in *. assert (a = b) as -> by lia. by rewrite Z.compare_refl. }
  rewrite Nat2Z.inj_succ, Z.pow_succ_r in Ha, Hb by lia.
  cbn [to_be_bytes bytes_cmp]. rewrite !Z_of_byte_of_Z.
  set (p := 256 ^ Z.of_nat k) in *.
  assert (Hp : 0 < p) by (apply Z.pow_pos_nonneg; lia).
  rewrite !(Z.mod_small (_ / p)) by
    (split; [apply Z.div_pos; lia|apply Z.div_lt_upper_bound; lia]).
  rewrite <-(to_be_bytes_mod k k a), <-(to_be_bytes_mod k k b) by lia.
  rewrite IH by (apply Z.mod_pos_bound; lia). fold p.
  pose proof (Z.div_mod a p). pose proof (Z.div_mod b p).
  pose proof (Z.mod_pos_bound a p). pose proof (Z.mod_pos_bound b p).
  destruct (Z.compare_spec (a / p) (b / p)) as [E| |]; symmetry.
  - destruct (Z.compare_spec (a mod p) (b mod p));
      [apply Z.compare_eq_iff|apply Z.compare_lt_iff|apply Z.compare_gt_iff]; nia.
  - apply Z.compare_lt_iff. nia.
  - apply Z.compare_gt_iff. nia.
Qed.

Lemma length_bytes_not a : length (bytes_not a) = length a.
Proof. apply length_fmap. Qed.

(** Complementing every byte reverses the order of strings of one length. *)
Lemma bytes_cmp_not a b :
  length a = length b → bytes_cmp (bytes_not a) (bytes_not b) = bytes_cmp b a.
Proof.
  revert b; induction a as [|x a IH]; intros [|y b]; try done.
  intros [= Hl].
  change (bytes_cmp (byte_not x :: bytes_not a) (byte_not y :: bytes_not b) =
    bytes_cmp (y :: b) (x :: a)).
  cbn [bytes_cmp]. rewrite !Z_of_byte_not, (IH _ Hl).
  replace (255 - Z_of_byte x ?= 255 - Z_of_byte y) with (Z_of_byte y ?= Z_of_byte x); [done|].
  destruct (Z.compare_spec (Z_of_byte y) (Z_of_byte x)); symmetry;
    [apply Z.compare_eq_iff|apply Z.compare_lt_iff|apply Z.compare_gt_iff]; lia.
Qed.

Lemma then_cmp_assoc a b c : then_cmp (then_cmp a b) c = then_cmp a (then_cmp b c).
Proof. by destruct a. Qed.

(** ** Lemmas: ordered iteration *)

Lemma btree_list_perm {A} (m : gmap string A) : btree_list m ≡ₚ map_to_list m.
Proof. apply merge_sort_Permutation. Qed.

Lemma elem_of_btree_list {A} (m : gmap string A) k v :
  (k, v) ∈ btree_list m ↔ m !! k = Some v.
Proof. by rewrite btree_list_perm, elem_of_map_to_list. Qed.

Lemma elem_of_btree_keys {A} (m : gmap string A) k :
  k ∈ btree_keys m ↔ is_Some (m !! k).
Proof.
  unfold btree_keys. rewrite list_elem_of_fmap. split.
  - intros ([k' v] & -> & H%elem_of_btree_list). by exists v.
  - intros [v H]. exists (k, v). by rewrite elem_of_btree_list.
Qed.

Lemma elem_of_btree_elems (s : gset string) k : k ∈ btree_elems s ↔ k ∈ s.
Proof. unfold btree_elems. by rewrite merge_sort_Permutation, elem_of_elements. Qed.

#[export] Hint Rewrite @length_to_be_bytes length_bytes_not : fw.
#[export] Hint Resolve Z_of_byte_range bytes_cmp_refl : fw.

(** ** Lemmas: ordered loops over maps *)

Lemma NoDup_btree_keys {A} (m : gmap string A) : NoDup (btree_keys m).
Proof.
  unfold btree_keys. rewrite btree_list_perm. apply NoDup_fst_map_to_list.
Qed.

(** A loop whose successful steps are pure. *)
Lemma try_fold_pure {E A S} (f : S → A → result E S) (g : S → A → S) (P : A → Prop) s l s' :
  (∀ s a s', f s a = Ok s' → s' = g s a ∧ P a) →
  try_fold f s l = Ok s' → s' = foldl g s l ∧ Forall P l.
Proof.
  intros Hf. revert s. induction l as [|a l IH]; intros s; cbn.
  - intros [= <-]. by split.
  - intros (s1 & [-> Ha]%Hf & Hl)%bind_Ok. apply IH in Hl as [-> Hl]. split; [done|by constructor].
Qed.

(** A loop over a map in key order whose step only touches its own key. *)
Lemma btree_foldl {A B} (f : gmap string B → string * A → gmap string B)
    (h : string → A → option B → option B) (E : gmap string A) m k :
  (∀ m e k, f m e !! k = if decide (k = e.1) then h e.1 e.2 (m !! k) else m !! k) →
  foldl f m (btree_list E) !! k =
    match E !! k with Some a => h k a (m !! k) | None => m !! k end.
Proof.
  intros Hf.
  assert (Hgen : ∀ l m, NoDup l.*1 → foldl f m l !! k =
    match (list_to_map l : gmap string A) !! k with Some a => h k a (m !! k) | None => m !! k end).
  { clear E m. induction l as [|[i a] l IH]; intros m Hnd; cbn; [done|].
    apply NoDup_cons in Hnd as [Hi Hnd]. rewrite IH by done. rewrite Hf. cbn [fst snd].
    destruct (decide (k = i)) as [->|Hne].
    - rewrite lookup_insert_eq, (not_elem_of_list_to_map_1 l i Hi). done.
    - by rewrite lookup_insert_ne by done. }
  rewrite Hgen by apply NoDup_btree_keys.
  rewrite (list_to_map_proper (btree_list E) (map_to_list E)); [|apply NoDup_btree_keys|apply btree_list_perm].
  by rewrite list_to_map_to_list.
Qed.

Lemma btree_foldl_insert {A} (E : gmap string A) m :
  foldl (λ m e, <[e.1 := e.2]> m) m (btree_list E) = E ∪ m.
Proof.
  apply map_eq. intros k.
  rewrite (btree_foldl _ (λ _ a _, Some a)).
  - rewrite lookup_union. by destruct (E !! k), (m !! k).
  - intros m' e k'. rewrite lookup_insert. destruct (decide (k' = e.1)) as [->|Hne].
    + by rewrite decide_True.
    + by rewrite decide_False.
Qed.

Lemma Forall_btree_list {A} (P : string → A → Prop) (m : gmap string A) :
  Forall (λ e, P e.1 e.2) (btree_list m) ↔ map_Forall P m.
Proof.
  rewrite btree_list_perm, map_Forall_to_list, !Forall_forall.
  split; intros H [k a] Hin; exact (H (k, a) Hin).
Qed.

(** ** Lemmas: string prefixes *)

Lemma starts_with_trans a b c : starts_with a b = true → starts_with b c = true → starts_with a c = true.
Proof.
  unfold starts_with. revert a b. induction c as [|x c IH]; intros [|y a] [|z b]; cbn; try done.
  destruct (Ascii.ascii_dec z y) as [->|]; [|done]. destruct (Ascii.ascii_dec x y) as [->|]; [|done].
  apply IH.
Qed.

(** A loop that refuses a name seen before leaves distinct names. *)
Lemma try_fold_fresh {E A K} `{Countable K} (step : gset K → A → result E (gset K))
    (name : A → K) (P : A → Prop) l seen seen' :
  (∀ seen x seen', step seen x = Ok seen' → P x ∧ name x ∉ seen ∧ seen' = {[name x]} ∪ seen) →
  try_fold step seen l = Ok seen' →
  Forall P l ∧ NoDup (name <$> l) ∧ (∀ x, x ∈ l → name x ∉ seen).
Proof.
  intros Hstep. revert seen. induction l as [|a l IH]; intros seen; cbn [try_fold].
  - intros _. split_and!; [done|constructor|set_solver].
  - intros (s1 & (Ha & Hn & ->)%Hstep & Hl)%bind_Ok. apply IH in Hl as (Hp & Hd & Hs).
    rewrite fmap_cons. split_and!; [by constructor| |].
    + constructor; [|done]. intros (x & Hx & Hxl)%list_elem_of_fmap.
      specialize (Hs x Hxl). set_solver.
    + intros x [->|Hx]%elem_of_cons; [done|]. specialize (Hs x Hx). set_solver.
Qed.

Lemma as_bytes_inj s t : as_bytes s = as_bytes t → s = t.
Proof.
  intros H. rewrite <-(String.string_of_list_byte_of_string s), <-(String.string_of_list_byte_of_string t).
  unfold as_bytes in H. by rewrite H.
Qed.

Lemma to_be_bytes_inj n a b :
  0 ≤ a < 256 ^ Z.of_nat n → 0 ≤ b < 256 ^ Z.of_nat n → to_be_bytes n a = to_be_bytes n b → a = b.
Proof.
  intros Ha Hb H. apply Z.compare_eq_iff. by rewrite <-(to_be_bytes_cmp n), H, bytes_cmp_refl.
Qed.

(** ** Sums over maps *)

Definition msum `{Countable K} {A} (f : A → Z) (m : gmap K A) : Z := map_fold (λ _ x n, f x + n) 0 m.

Section sums.
Context `{Countable K} {A : Type} (f : A → Z).
Implicit Types m : gmap K A.

Lemma msum_empty : msum f (∅ : gmap K A) = 0.
Proof. apply map_fold_empty. Qed.
Lemma msum_insert m k x : m !! k = None → msum f (<[k := x]> m) = f x + msum f m.
Proof. intros Hk. unfold msum. apply (map_fold_insert_L (λ _ x n, f x + n)); [intros; lia|done]. Qed.
Lemma msum_lookup m k x : m !! k = Some x → msum f m = f x + msum f (delete k m).
Proof. intros Hk. rewrite <-(msum_insert _ k) by apply lookup_delete_eq. by rewrite insert_delete_id. Qed.
Lemma msum_update m k x y : m !! k = Some y → msum f (<[k := x]> m) = msum f m - f y + f x.
Proof.
  intros Hk. rewrite (msum_lookup m k y Hk), <-insert_delete_eq, msum_insert by apply lookup_delete_eq. lia.
Qed.
Lemma msum_nonneg m : (∀ k x, m !! k = Some x → 0 ≤ f x) → 0 ≤ msum f m.
Proof.
  induction m as [|k x m Hk IH] using map_ind; intros Hm; [by rewrite msum_empty|].
  rewrite msum_insert by done. pose proof (Hm k x (lookup_insert_eq _ _ _)).
  enough (0 ≤ msum f m) by lia. apply IH. intros k' y Hy. apply (Hm k').
  rewrite lookup_insert_ne; [done|congruence].
Qed.
Lemma msum_zero m k x : (∀ k x, m !! k = Some x → 0 ≤ f x) → msum f m = 0 → m !! k = Some x → f x = 0.
Proof.
  intros Hm H0 Hk. pose proof (Hm k x Hk). rewrite (msum_lookup m k x Hk) in H0.
  enough (0 ≤ msum f (delete k m)) by lia. apply msum_nonneg. intros k' y [_ Hy]%lookup_delete_Some. eauto.
Qed.
End sums.
