(* ===== verification/Identity.v ===== *)
(** Identities and instants of [fireweed-core/src/domain.rs]: the validated
    string identifiers, the packed [ItemId] with its decimal rendering and its
    two wire forms, and [UtcTimestamp]. *)
From Stdlib Require Import Strings.Ascii.
From S2P Require Import Prelude.

(** ** Validated identifiers (the [identifier_type!] macro) *)

Module Identifier.

(** One instance of the macro: [type_name] is [stringify!($name)]. *)
Definition new (type_name value : string) : result string string :=
  if blank value then Err (type_name +:+ " must not be empty")%string else Ok value.

(** [Deserialize] goes through the validating constructor. *)
Definition deserialize (type_name value : string) : result string string :=
  new type_name value.

End Identifier.

(** ** Packed item identity *)

Module ItemId.

Record t := mk { raw : Z }.

#[export] Instance t_eq_dec : EqDecision t.
Proof. solve_decision. Defined.

Definition NODE_SHIFT : Z := 32.
Definition EPOCH_SHIFT : Z := 40.
Definition EPOCH_MASK : Z := Z.shiftl 1 24 - 1.

(** [<<] on a [u64] drops the bits shifted past the top. *)
Definition shl_u64 (x n : Z) : Z := Z.shiftl x n mod 2 ^ 64.

Definition mint (epoch node counter : Z) : t :=
  mk (Z.lor (Z.lor (shl_u64 (Z.land epoch EPOCH_MASK) EPOCH_SHIFT)
                   (shl_u64 node NODE_SHIFT))
            counter).

Definition from_u64 (raw : Z) : t := mk raw.
Definition as_u64 (id : t) : Z := raw id.
Definition epoch (id : t) : Z := Z.shiftr (raw id) EPOCH_SHIFT.
Definition node (id : t) : Z := Z.shiftr (raw id) NODE_SHIFT mod 2 ^ 8.
Definition counter (id : t) : Z := raw id mod 2 ^ 32.

(** [write!(f, "{}", self.0)]: the decimal digits of a [u64], most significant
    first and without leading zeros. Twenty digits hold every [u64]. *)
Fixpoint dec_digits (fuel : nat) (z : Z) (acc : list Z) : list Z :=
  match fuel with
  | O => acc
  | S fuel =>
      let acc := z mod 10 :: acc in
      if z / 10 =? 0 then acc else dec_digits fuel (z / 10) acc
  end.

Definition digit_char (d : Z) : ascii := ascii_of_N (Z.to_N (48 + d)).

Definition Display (id : t) : string :=
  String.string_of_list_ascii (digit_char <$> dec_digits 20 (raw id) []).

(** [char::to_digit(10)]. *)
Definition char_digit (c : ascii) : option Z :=
  let n := Z.of_N (N_of_ascii c) in
  if (48 <=? n) && (n <=? 57) then Some (n - 48) else None.

Fixpoint parse_digits (acc : Z) (s : list ascii) : option Z :=
  match s with
  | [] => Some acc
  | c :: s =>
      match char_digit c with
      | Some d => if 10 * acc + d <=? u64_max then parse_digits (10 * acc + d) s else None
      | None => None
      end
  end.

(** [str::parse::<u64>]: at least one digit after an optional leading [+],
    every character a digit, no overflow. *)
Definition parse_u64 (s : string) : option Z :=
  match String.list_ascii_of_string s with
  | [] => None
  | c :: rest =>
      if bool_decide (c = "+"%char) then
        match rest with [] => None | _ => parse_digits 0 rest end
      else parse_digits 0 (c :: rest)
  end.

Definition from_str (s : string) : result string t :=
  mk <$> ok_or (parse_u64 s) "ItemId must be a u64 decimal string"%string.

Definition new (rendered : string) : result string t := from_str rendered.

(** What a serializer receives: a string when it is human readable, a [u64]
    otherwise. *)
Inductive wire :=
| WireStr (s : string)
| WireU64 (z : Z).

Definition serialize (human_readable : bool) (id : t) : wire :=
  if human_readable then WireStr (Display id) else WireU64 (raw id).

(** The deserializer asks for the same shape; any other value is an error of
    the format. *)
Definition deserialize (human_readable : bool) (w : wire) : result string t :=
  match human_readable, w with
  | true, WireStr s => from_str s
  | false, WireU64 raw => Ok (mk raw)
  | _, _ => Err "invalid type"%string
  end.

(** Derived [Ord]: the packed value. *)
Definition cmp (a b : t) : comparison := raw a ?= raw b.

End ItemId.

(** ** Instants *)

Record UtcTimestamp := mkUtcTimestamp { seconds : Z; nanoseconds : Z }.

#[export] Instance UtcTimestamp_eq_dec : EqDecision UtcTimestamp.
Proof. solve_decision. Defined.

Definition UtcTimestamp_new (seconds nanoseconds : Z) : result string UtcTimestamp :=
  if 1000000000 <=? nanoseconds
  then Err "nanoseconds must be less than 1_000_000_000"%string
  else Ok (mkUtcTimestamp seconds nanoseconds).

Definition cmp_timestamp (a b : UtcTimestamp) : comparison :=
  then_cmp (seconds a ?= seconds b) (nanoseconds a ?= nanoseconds b).

(** The machine ranges of the two fields. *)
Definition timestamp_ok (t : UtcTimestamp) : Prop :=
  is_i64 (seconds t) ∧ is_u32 (nanoseconds t).

(** ** Theorems: item identity *)

Module ItemIdFacts.
Import ItemId.

Lemma lor_add a b : Z.land a b = 0 → Z.lor a b = a + b.
Proof. intros H. by rewrite <-Z.lxor_lor, <-Z.add_nocarry_lxor by done. Qed.

(** The packed value is the mixed-radix number of its three fields. *)
Lemma mint_raw e n c :
  0 ≤ e → 0 ≤ n < 2 ^ 8 → 0 ≤ c < 2 ^ 32 →
  raw (mint e n c) = (e mod 2 ^ 24) * 2 ^ 40 + n * 2 ^ 32 + c.
Proof.
  intros He Hn Hc. unfold mint, shl_u64, EPOCH_MASK, EPOCH_SHIFT, NODE_SHIFT; cbn [raw].
  change (Z.shiftl 1 24 - 1) with (Z.ones 24). rewrite Z.land_ones by lia.
  assert (Hm : 0 ≤ e mod 2 ^ 24 < 2 ^ 24) by (apply Z.mod_pos_bound; lia).
  revert Hm. generalize (e mod 2 ^ 24). clear e He. intros e He.
  rewrite !Z.shiftl_mul_pow2 by lia.
  rewrite (Z.mod_small (e * 2 ^ 40)), (Z.mod_small (n * 2 ^ 32)) by lia.
  assert (H1 : Z.land (e * 2 ^ 40) (n * 2 ^ 32) = 0).
  { rewrite <-!Z.shiftl_mul_pow2 by lia. apply Z.bits_inj'. intros i Hi.
    rewrite Z.land_spec, Z.bits_0, !Z.shiftl_spec by lia.
    destruct (decide (i < 40)); [by rewrite (Z.testbit_neg_r _ (i - 40)) by lia|].
    rewrite (Z.bits_above_log2 n (i - 32)); [by rewrite andb_false_r|lia|].
    destruct (decide (n = 0)) as [->|]; [cbn; lia|].
    apply Z.log2_lt_pow2; [lia|]. eapply Z.lt_le_trans; [apply Hn|].
    apply Z.pow_le_mono_r; lia. }
  rewrite (lor_add _ _ H1).
  assert (H2 : Z.land (e * 2 ^ 40 + n * 2 ^ 32) c = 0).
  { replace (e * 2 ^ 40 + n * 2 ^ 32) with
      (Z.shiftl (e * 2 ^ 8 + n) 32) by (rewrite Z.shiftl_mul_pow2; lia).
    apply Z.bits_inj'. intros i Hi. rewrite Z.land_spec, Z.bits_0, Z.shiftl_spec by lia.
    destruct (decide (i < 32)); [by rewrite (Z.testbit_neg_r _ (i - 32)) by lia|].
    rewrite (Z.bits_above_log2 c i); [by rewrite andb_false_r|lia|].
    destruct (decide (c = 0)) as [->|]; [cbn; lia|].
    apply Z.log2_lt_pow2; [lia|]. eapply Z.lt_le_trans; [apply Hc|].
    apply Z.pow_le_mono_r; lia. }
  by rewrite (lor_add _ _ H2).
Qed.

(** Packing and unpacking an item id round-trips: the node and the counter
    come back unchanged, the epoch modulo its 24 bits, and the packed value is
    a [u64]. *)
Theorem mint_unpack e n c :
  0 ≤ e → 0 ≤ n < 2 ^ 8 → 0 ≤ c < 2 ^ 32 →
  epoch (mint e n c) = e mod 2 ^ 24 ∧ node (mint e n c) = n ∧
  counter (mint e n c) = c ∧ is_u64 (as_u64 (mint e n c)).
Proof.
  intros He Hn Hc. unfold epoch, node, counter, as_u64, EPOCH_SHIFT, NODE_SHIFT.
  rewrite !mint_raw, !Z.shiftr_div_pow2 by lia.
  split_and!; div_lia.
Qed.

Lemma mint_unpack_witness :
  epoch (mint (2 ^ 24 + 7) 3 42) = 7 ∧ node (mint (2 ^ 24 + 7) 3 42) = 3 ∧
  counter (mint (2 ^ 24 + 7) 3 42) = 42 ∧ is_u64 (as_u64 (mint (2 ^ 24 + 7) 3 42)).
Proof. apply (mint_unpack (2 ^ 24 + 7) 3 42); lia. Defined.

(** Item ids compare as their [(epoch, node, counter)] triples do, so ids
    minted in one tenure increase with the counter and every id of a later
    epoch is greater than all ids of an earlier one. *)
Theorem mint_order e1 n1 c1 e2 n2 c2 :
  0 ≤ e1 < 2 ^ 24 → 0 ≤ n1 < 2 ^ 8 → 0 ≤ c1 < 2 ^ 32 →
  0 ≤ e2 < 2 ^ 24 → 0 ≤ n2 < 2 ^ 8 → 0 ≤ c2 < 2 ^ 32 →
  cmp (mint e1 n1 c1) (mint e2 n2 c2) =
    then_cmp (e1 ?= e2) (then_cmp (n1 ?= n2) (c1 ?= c2)).
Proof.
  intros. unfold cmp. rewrite !mint_raw, !(Z.mod_small e1), !(Z.mod_small e2) by lia.
  destruct (Z.compare_spec e1 e2), (Z.compare_spec n1 n2), (Z.compare_spec c1 c2); cbn;
    (apply Z.compare_eq_iff || apply Z.compare_lt_iff || apply Z.compare_gt_iff); lia.
Qed.

Lemma mint_order_witness :
  cmp (mint 8 0 0) (mint 7 255 (2 ^ 32 - 1)) = Gt.
Proof. rewrite mint_order by lia. reflexivity. Defined.

Lemma char_digit_char d : 0 ≤ d < 10 → char_digit (digit_char d) = Some d.
Proof.
  intros. unfold char_digit, digit_char. rewrite N_ascii_embedding by lia.
  rewrite Z2N.id by lia.
  destruct (Z.leb_spec 48 (48 + d)), (Z.leb_spec (48 + d) 57); cbn; f_equal; lia.
Qed.

(** Parsing consumes the printed digits of [z] and continues with [z]. *)
Lemma parse_dec_digits fuel z acc :
  (0 < fuel)%nat → 0 ≤ z < 10 ^ Z.of_nat fuel → z ≤ u64_max →
  parse_digits 0 (digit_char <$> dec_digits fuel z acc) =
  parse_digits z (digit_char <$> acc).
Proof.
  revert z acc; induction fuel as [|fuel IH]; intros z acc Hf Hz Hmax; [lia|].
  cbn [dec_digits]. pose proof (Z.mod_pos_bound z 10).
  destruct (Z.eqb_spec (z / 10) 0) as [E|E].
  - rewrite fmap_cons; cbn [parse_digits].
    rewrite char_digit_char by lia.
    assert (z mod 10 = z) as -> by (pose proof (Z.div_mod z 10); lia).
    by destruct (Z.leb_spec (10 * 0 + z) u64_max); [|lia].
  - rewrite Nat2Z.inj_succ, Z.pow_succ_r in Hz by lia.
    assert (0 < z / 10) by (pose proof (Z.div_pos z 10); lia).
    rewrite IH.
    + rewrite fmap_cons; cbn [parse_digits]. rewrite char_digit_char by lia.
      rewrite <-Z.div_mod by lia. by destruct (Z.leb_spec z u64_max); [|lia].
    + destruct fuel; [cbn in *; pose proof (Z.div_mod z 10); lia|lia].
    + split; [lia|]. apply Z.div_lt_upper_bound; lia.
    + pose proof (Z.div_mod z 10). lia.
Qed.

Lemma dec_digits_digits fuel z acc :
  0 ≤ z → Forall (λ d, 0 ≤ d < 10) acc → Forall (λ d, 0 ≤ d < 10) (dec_digits fuel z acc).
Proof.
  revert z acc; induction fuel as [|fuel IH]; intros z acc Hz Hacc; cbn; [done|].
  assert (Forall (λ d, 0 ≤ d < 10) (z mod 10 :: acc)).
  { constructor; [apply Z.mod_pos_bound; lia|done]. }
  case_match; [done|]. apply IH; [apply Z.div_pos; lia|done].
Qed.

Lemma dec_digits_nonempty fuel z acc : (0 < fuel)%nat → dec_digits fuel z acc ≠ [].
Proof.
  assert (Hgrow : ∀ fuel z acc, acc ≠ [] → dec_digits fuel z acc ≠ []).
  { clear. intros fuel; induction fuel as [|fuel IH]; intros z acc Ha; cbn; [done|].
    case_match; [done|by apply IH]. }
  destruct fuel as [|fuel]; [lia|]. intros _. cbn. case_match; [done|by apply Hgrow].
Qed.

(** Printing then parsing a [u64] is the identity. *)
Lemma parse_u64_Display id : is_u64 (raw id) → parse_u64 (Display id) = Some (raw id).
Proof.
  intros Hid. unfold parse_u64, Display.
  rewrite String.list_ascii_of_string_of_list_ascii.
  pose proof (parse_dec_digits 20 (raw id) [] ltac:(lia)) as Hp.
  pose proof (dec_digits_digits 20 (raw id) [] ltac:(int_lia) (Forall_nil_2 _)) as Hd.
  pose proof (dec_digits_nonempty 20 (raw id) [] ltac:(lia)) as Hne.
  destruct (dec_digits 20 (raw id) []) as [|d ds] eqn:E; [done|].
  rewrite fmap_cons in *. apply Forall_cons in Hd as [Hd _].
  rewrite bool_decide_eq_false_2.
  - rewrite Hp by int_lia. done.
  - intros Hplus. apply (f_equal char_digit) in Hplus.
    rewrite char_digit_char in Hplus by done. done.
Qed.

(** An item id survives both of its wire forms: the decimal string of the
    human-readable formats and the packed [u64] of the native ones. *)
Theorem ItemId_wire_roundtrip human id :
  is_u64 (raw id) → deserialize human (serialize human id) = Ok id.
Proof.
  intros Hid. destruct human; cbn [serialize deserialize]; [|by destruct id].
  unfold from_str. rewrite parse_u64_Display by done. by destruct id.
Qed.

Lemma ItemId_wire_roundtrip_witness :
  deserialize true (serialize true (from_u64 u64_max)) = Ok (from_u64 u64_max).
Proof. apply ItemId_wire_roundtrip. vm_compute; split; discriminate. Defined.

End ItemIdFacts.
