(* ===== verification/Priority.v ===== *)
(** Priority encoding of [fireweed-core/src/domain.rs] (section B-011): values
    become byte strings whose lexicographic order is the priority order. *)
From S2P Require Import Prelude Identity.

Record DecimalValue := mkDecimalValue { mantissa : Z; scale : Z }.

#[export] Instance DecimalValue_eq_dec : EqDecision DecimalValue.
Proof. solve_decision. Defined.

Inductive PriorityValue :=
| Timestamp (ts : UtcTimestamp)
| Int64 (v : Z)
| Decimal (d : DecimalValue)
| Text (s : string).

Inductive PriorityModelKind := KindTimestamp | KindInt64 | KindDecimal | KindText.
Inductive PriorityDirection := Ascending | Descending.
Inductive PriorityTieBreaker := CreatedSequence | TieClientItemKey | TieItemId.

#[export] Instance PriorityModelKind_eq_dec : EqDecision PriorityModelKind.
Proof. solve_decision. Defined.
#[export] Instance PriorityDirection_eq_dec : EqDecision PriorityDirection.
Proof. solve_decision. Defined.
#[export] Instance PriorityTieBreaker_eq_dec : EqDecision PriorityTieBreaker.
Proof. solve_decision. Defined.

Record PriorityModel := mkPriorityModel {
  kind : PriorityModelKind;
  direction : PriorityDirection;
  tie_breaker : PriorityTieBreaker;
}.

Definition timestamp_ascending : PriorityModel :=
  mkPriorityModel KindTimestamp Ascending CreatedSequence.

(** Powers of ten up to [10^38]. *)
Definition POW10 : list Z := [
  1;
  10;
  100;
  1000;
  10000;
  100000;
  1000000;
  10000000;
  100000000;
  1000000000;
  10000000000;
  100000000000;
  1000000000000;
  10000000000000;
  100000000000000;
  1000000000000000;
  10000000000000000;
  100000000000000000;
  1000000000000000000;
  10000000000000000000;
  100000000000000000000;
  1000000000000000000000;
  10000000000000000000000;
  100000000000000000000000;
  1000000000000000000000000;
  10000000000000000000000000;
  100000000000000000000000000;
  1000000000000000000000000000;
  10000000000000000000000000000;
  100000000000000000000000000000;
  1000000000000000000000000000000;
  10000000000000000000000000000000;
  100000000000000000000000000000000;
  1000000000000000000000000000000000;
  10000000000000000000000000000000000;
  100000000000000000000000000000000000;
  1000000000000000000000000000000000000;
  10000000000000000000000000000000000000;
  100000000000000000000000000000000000000].

(** The [while n > 0 { n /= 10; count += 1 }] loop; 39 iterations empty every
    [u128]. *)
Fixpoint digit_loop (fuel : nat) (n count : Z) : Z :=
  match fuel with
  | O => count
  | S fuel => if 0 <? n then digit_loop fuel (n / 10) (count + 1) else count
  end.

Definition decimal_digit_count (n : Z) : Z :=
  if n =? 0 then 1 else digit_loop 39 n 0.

(** Two's-complement wrap to [i32], the behaviour of [as i32] and of release
    arithmetic. *)
Definition wrap_i32 (z : Z) : Z := (z + 2 ^ 31) mod 2 ^ 32 - 2 ^ 31.

Definition NORMALIZED_DIGITS : Z := 38.

Definition encode_decimal_ascending (mantissa scale : Z) : bytes :=
  if mantissa =? 0 then byte_of_Z 0x80 :: replicate 20 Byte.x00
  else
    let positive := 0 <? mantissa in
    let abs_m := Z.abs mantissa in
    let digits := decimal_digit_count abs_m in
    let effective_exp := wrap_i32 (digits - 1 - wrap_i32 scale) in
    let biased_exp := (effective_exp + 2 ^ 31) mod 2 ^ 32 in
    let fractional :=
      if NORMALIZED_DIGITS <=? digits
      then abs_m / nth (Z.to_nat (digits - NORMALIZED_DIGITS)) POW10 1
      else abs_m * nth (Z.to_nat (NORMALIZED_DIGITS - digits)) POW10 1 in
    if positive
    then byte_of_Z 0xc0 :: to_be_bytes 4 biased_exp ++ to_be_bytes 16 fractional
    else byte_of_Z 0x40 :: to_be_bytes 4 (not_bits 32 biased_exp)
                        ++ to_be_bytes 16 (not_bits 128 fractional).

Definition encode_priority_ascending (value : PriorityValue) : bytes :=
  match value with
  | Timestamp ts => to_be_bytes 8 (flip_sign (seconds ts)) ++ to_be_bytes 4 (nanoseconds ts)
  | Int64 v => to_be_bytes 8 (flip_sign v)
  | Decimal d => encode_decimal_ascending (mantissa d) (scale d)
  | Text s => as_bytes s ++ [Byte.x00]
  end.

Definition priority_sort (value : PriorityValue) (model : PriorityModel) : bytes :=
  let bytes := encode_priority_ascending value in
  if bool_decide (direction model = Descending) then bytes_not bytes else bytes.

(** ** What the encoding promises *)

(** The priority order of two values of one kind. A decimal is
    [mantissa / 10^scale]; comparing crosswise keeps the order exact. *)
Definition priority_cmp (a b : PriorityValue) : option comparison :=
  match a, b with
  | Timestamp t, Timestamp u => Some (cmp_timestamp t u)
  | Int64 v, Int64 w => Some (v ?= w)
  | Decimal d, Decimal e =>
      Some (mantissa d * 10 ^ scale e ?= mantissa e * 10 ^ scale d)
  | Text s, Text t => Some (bytes_cmp (as_bytes s) (as_bytes t))
  | _, _ => None
  end.

(** The values on which the encoding is exact: machine ranges, at most 38
    significant decimal digits, a scale an [i32] holds, and under [Descending]
    no NUL in a text priority. *)
Definition priority_ok (dir : PriorityDirection) (v : PriorityValue) : Prop :=
  match v with
  | Timestamp ts => timestamp_ok ts
  | Int64 v => is_i64 v
  | Decimal d => Z.abs (mantissa d) < 10 ^ 38 ∧ 0 ≤ scale d ≤ i32_max
  | Text s => dir = Descending → Byte.x00 ∉ as_bytes s
  end.

Definition directed (dir : PriorityDirection) (c : comparison) : comparison :=
  match dir with Ascending => c | Descending => CompOpp c end.

(** ** Lemmas: decimal digits *)

Lemma POW10_nth n : (n < 39)%nat → nth n POW10 1 = 10 ^ Z.of_nat n.
Proof. intros Hn. do 39 (destruct n as [|n]; [reflexivity|]). lia. Qed.

Lemma digit_loop_spec fuel n count :
  0 < n < 10 ^ Z.of_nat fuel →
  ∃ d, digit_loop fuel n count = count + d ∧ 0 < d ≤ Z.of_nat fuel ∧ 10 ^ (d - 1) ≤ n < 10 ^ d.
Proof.
  revert n count; induction fuel as [|fuel IH]; intros n count Hn; [cbn in Hn; lia|].
  cbn [digit_loop]. destruct (Z.ltb_spec 0 n); [|lia].
  rewrite Nat2Z.inj_succ, Z.pow_succ_r in Hn by lia.
  pose proof (Z.div_mod n 10 ltac:(lia)). pose proof (Z.mod_pos_bound n 10 ltac:(lia)).
  destruct (decide (n / 10 = 0)) as [E|E].
  - exists 1. rewrite E. destruct fuel; cbn; lia.
  - destruct (IH (n / 10) (count + 1)) as (d & Hd & Hdf & Hn').
    { pose proof (Z.div_pos n 10). split; [lia|]. apply Z.div_lt_upper_bound; lia. }
    exists (d + 1). rewrite Hd. split; [lia|]. split; [lia|].
    replace (d + 1 - 1) with (Z.succ (d - 1)) by lia.
    replace (d + 1) with (Z.succ d) by lia. rewrite !Z.pow_succ_r by lia. lia.
Qed.

Lemma digit_count_spec n :
  0 < n < 10 ^ 39 →
  let d := decimal_digit_count n in 0 < d ≤ 39 ∧ 10 ^ (d - 1) ≤ n < 10 ^ d.
Proof.
  intros Hn. unfold decimal_digit_count. destruct (Z.eqb_spec n 0); [lia|].
  destruct (digit_loop_spec 39 n 0) as (d & -> & Hd & Hn'); [done|].
  by rewrite Z.add_0_l.
Qed.

(** ** Lemmas: normalized decimals

    A nonzero decimal of at most 38 digits is [F * 10^(E - 37)] with [F] in
    [[10^37, 10^38)], the pair the encoder writes. *)

Definition norm_exp (m s : Z) : Z := decimal_digit_count (Z.abs m) - 1 - s.
Definition norm_frac (m : Z) : Z :=
  Z.abs m * 10 ^ (38 - decimal_digit_count (Z.abs m)).

Section normalized.
Context (m s : Z) (Hm : m ≠ 0) (Hm38 : Z.abs m < 10 ^ 38) (Hs : 0 ≤ s ≤ i32_max).

Lemma norm_digits :
  0 < decimal_digit_count (Z.abs m) ≤ 38 ∧
  10 ^ (decimal_digit_count (Z.abs m) - 1) ≤ Z.abs m < 10 ^ decimal_digit_count (Z.abs m).
Proof using Hm Hm38.
  destruct (digit_count_spec (Z.abs m)) as [Hd Hr]; [lia|].
  split; [|done]. split; [lia|].
  destruct (Z.le_gt_cases (decimal_digit_count (Z.abs m)) 38); [done|].
  pose proof (Z.pow_le_mono_r 10 38 (decimal_digit_count (Z.abs m) - 1)). lia.
Qed.

Lemma norm_frac_range : 10 ^ 37 ≤ norm_frac m < 10 ^ 38.
Proof using Hm Hm38.
  destruct norm_digits as [Hd [Hlo Hhi]]. unfold norm_frac.
  set (d := decimal_digit_count (Z.abs m)) in *.
  replace (10 ^ 37) with (10 ^ (d - 1) * 10 ^ (38 - d)) by
    (rewrite <-Z.pow_add_r by lia; f_equal; lia).
  replace (10 ^ 38) with (10 ^ d * 10 ^ (38 - d)) by
    (rewrite <-Z.pow_add_r by lia; f_equal; lia).
  assert (0 < 10 ^ (38 - d)) by (apply Z.pow_pos_nonneg; lia). nia.
Qed.

Lemma norm_exp_range : i32_min ≤ norm_exp m s ≤ 37.
Proof using Hm Hm38 Hs. destruct norm_digits. unfold norm_exp. int_lia. Qed.

Lemma encode_decimal_norm :
  encode_decimal_ascending m s =
    if 0 <? m
    then byte_of_Z 0xc0 :: to_be_bytes 4 (norm_exp m s + 2 ^ 31) ++ to_be_bytes 16 (norm_frac m)
    else byte_of_Z 0x40 :: to_be_bytes 4 (2 ^ 32 - 1 - (norm_exp m s + 2 ^ 31))
                        ++ to_be_bytes 16 (2 ^ 128 - 1 - norm_frac m).
Proof using Hm Hm38 Hs.
  destruct norm_digits as [Hd _]. pose proof norm_exp_range as He. pose proof norm_frac_range as Hf.
  unfold encode_decimal_ascending. destruct (Z.eqb_spec m 0); [done|].
  assert (wrap_i32 s = s) as -> by (unfold wrap_i32; rewrite Z.mod_small; int_lia).
  change (decimal_digit_count (Z.abs m) - 1 - s) with (norm_exp m s).
  assert (wrap_i32 (norm_exp m s) = norm_exp m s) as ->
    by (unfold wrap_i32; rewrite Z.mod_small; int_lia).
  rewrite (Z.mod_small (norm_exp m s + 2 ^ 31)) by int_lia.
  replace (if NORMALIZED_DIGITS <=? decimal_digit_count (Z.abs m) then _ else _)
    with (norm_frac m).
  { rewrite !not_bits_eq by int_lia. done. }
  unfold NORMALIZED_DIGITS, norm_frac.
  destruct (Z.leb_spec 38 (decimal_digit_count (Z.abs m))).
  - replace (decimal_digit_count (Z.abs m)) with 38 by lia.
    rewrite Z.sub_diag, Z.mul_1_r. cbn [nth Z.to_nat POW10]. by rewrite Z.div_1_r.
  - rewrite POW10_nth by lia. by rewrite Z2Nat.id by lia.
Qed.

End normalized.

(** Values compare as their normalized exponents and fractions do. *)
Lemma norm_cmp m1 s1 m2 s2 :
  0 < m1 < 10 ^ 38 → 0 < m2 < 10 ^ 38 → 0 ≤ s1 ≤ i32_max → 0 ≤ s2 ≤ i32_max →
  then_cmp (norm_exp m1 s1 ?= norm_exp m2 s2) (norm_frac m1 ?= norm_frac m2) =
  (m1 * 10 ^ s2 ?= m2 * 10 ^ s1).
Proof.
  intros H1 H2 Hs1 Hs2.
  destruct (norm_digits m1) as [Hd1 _]; [lia..|]. destruct (norm_digits m2) as [Hd2 _]; [lia..|].
  pose proof (norm_frac_range m1 ltac:(lia) ltac:(lia)) as Hf1.
  pose proof (norm_frac_range m2 ltac:(lia) ltac:(lia)) as Hf2.
  set (d1 := decimal_digit_count (Z.abs m1)) in *.
  set (d2 := decimal_digit_count (Z.abs m2)) in *.
  set (x1 := s2 + (38 - d2)). set (x2 := s1 + (38 - d1)).
  assert (Hscale : (m1 * 10 ^ s2 ?= m2 * 10 ^ s1) =
    (norm_frac m1 * 10 ^ x1 ?= norm_frac m2 * 10 ^ x2)).
  { rewrite (Zmult_compare_compat_l (m1 * 10 ^ s2) (m2 * 10 ^ s1) (10 ^ (38 - d1) * 10 ^ (38 - d2)))
      by (apply Z.lt_gt, Z.mul_pos_pos; apply Z.pow_pos_nonneg; lia).
    unfold norm_frac. fold d1 d2. unfold x1, x2. rewrite !Z.pow_add_r by lia.
    rewrite !(Z.abs_eq m1), !(Z.abs_eq m2) by lia. f_equal; ring. }
  rewrite Hscale.
  assert (Hx : norm_exp m1 s1 - norm_exp m2 s2 = x1 - x2).
  { unfold norm_exp, x1, x2. fold d1 d2. lia. }
  assert (Hpow : ∀ x y, 0 ≤ x < y → 10 * 10 ^ x ≤ 10 ^ y).
  { intros x y Hxy. rewrite <-Z.pow_succ_r by lia. apply Z.pow_le_mono_r; lia. }
  assert (0 < 10 ^ x1) by (apply Z.pow_pos_nonneg; lia).
  assert (0 < 10 ^ x2) by (apply Z.pow_pos_nonneg; lia).
  destruct (Z.compare_spec (norm_exp m1 s1) (norm_exp m2 s2)) as [E|L|G]; cbn [then_cmp].
  - replace x2 with x1 by lia. rewrite !(Z.mul_comm _ (10 ^ x1)).
    apply Zmult_compare_compat_l. lia.
  - symmetry. apply Z.compare_lt_iff. specialize (Hpow x1 x2 ltac:(lia)). nia.
  - symmetry. apply Z.compare_gt_iff. specialize (Hpow x2 x1 ltac:(lia)). nia.
Qed.

Lemma decimal_opp m s : Z.abs (- m) = Z.abs m ∧ norm_exp (- m) s = norm_exp m s ∧
  norm_frac (- m) = norm_frac m.
Proof. unfold norm_exp, norm_frac. by rewrite Z.abs_opp. Qed.

(** The sign byte and the 20 bytes behind it. *)
Definition sign_byte (m : Z) : Byte.byte :=
  byte_of_Z (if m =? 0 then 0x80 else if 0 <? m then 0xc0 else 0x40).
Definition decimal_tail (m s : Z) : bytes :=
  if m =? 0 then replicate 20 Byte.x00
  else if 0 <? m
  then to_be_bytes 4 (norm_exp m s + 2 ^ 31) ++ to_be_bytes 16 (norm_frac m)
  else to_be_bytes 4 (2 ^ 32 - 1 - (norm_exp m s + 2 ^ 31))
       ++ to_be_bytes 16 (2 ^ 128 - 1 - norm_frac m).

Lemma encode_decimal_split m s :
  Z.abs m < 10 ^ 38 → 0 ≤ s ≤ i32_max →
  encode_decimal_ascending m s = sign_byte m :: decimal_tail m s.
Proof.
  intros Hm Hs. unfold sign_byte, decimal_tail.
  destruct (Z.eqb_spec m 0) as [->|Hne]; [reflexivity|].
  rewrite encode_decimal_norm by done. by destruct (0 <? m).
Qed.

(** Two decimals of the same nonzero sign: the tails order as the values. *)
Lemma decimal_tail_cmp_pos m1 s1 m2 s2 :
  0 < m1 < 10 ^ 38 → 0 < m2 < 10 ^ 38 → 0 ≤ s1 ≤ i32_max → 0 ≤ s2 ≤ i32_max →
  bytes_cmp (decimal_tail m1 s1) (decimal_tail m2 s2) = (m1 * 10 ^ s2 ?= m2 * 10 ^ s1).
Proof.
  intros H1 H2 Hs1 Hs2. rewrite <-norm_cmp by done. unfold decimal_tail.
  rewrite !(proj2 (Z.eqb_neq _ _)) by lia. rewrite !(proj2 (Z.ltb_lt _ _)) by lia.
  pose proof (norm_exp_range m1 s1 ltac:(lia) ltac:(lia) Hs1).
  pose proof (norm_exp_range m2 s2 ltac:(lia) ltac:(lia) Hs2).
  pose proof (norm_frac_range m1 ltac:(lia) ltac:(lia)).
  pose proof (norm_frac_range m2 ltac:(lia) ltac:(lia)).
  rewrite bytes_cmp_app by (by rewrite !length_to_be_bytes).
  rewrite !to_be_bytes_cmp by (cbn [Z.of_nat Pos.of_succ_nat Pos.succ]; int_lia).
  f_equal. rewrite !(Z.add_comm _ (2 ^ 31)). apply Z.add_compare_mono_l.
Qed.

Lemma decimal_tail_cmp_neg m1 s1 m2 s2 :
  - 10 ^ 38 < m1 < 0 → - 10 ^ 38 < m2 < 0 → 0 ≤ s1 ≤ i32_max → 0 ≤ s2 ≤ i32_max →
  bytes_cmp (decimal_tail m1 s1) (decimal_tail m2 s2) = (m1 * 10 ^ s2 ?= m2 * 10 ^ s1).
Proof.
  intros H1 H2 Hs1 Hs2.
  assert (Hflip : (m1 * 10 ^ s2 ?= m2 * 10 ^ s1) = ((- m2) * 10 ^ s1 ?= (- m1) * 10 ^ s2)).
  { by rewrite !Z.mul_opp_l, Z.compare_opp. }
  rewrite Hflip, <-norm_cmp by lia.
  destruct (decimal_opp m1 s1) as (_ & -> & ->). destruct (decimal_opp m2 s2) as (_ & -> & ->).
  unfold decimal_tail.
  rewrite !(proj2 (Z.eqb_neq _ _)) by lia. rewrite !(proj2 (Z.ltb_ge _ _)) by lia.
  pose proof (norm_exp_range m1 s1 ltac:(lia) ltac:(lia) Hs1).
  pose proof (norm_exp_range m2 s2 ltac:(lia) ltac:(lia) Hs2).
  pose proof (norm_frac_range m1 ltac:(lia) ltac:(lia)).
  pose proof (norm_frac_range m2 ltac:(lia) ltac:(lia)).
  rewrite bytes_cmp_app by (by rewrite !length_to_be_bytes).
  rewrite !to_be_bytes_cmp by (cbn [Z.of_nat Pos.of_succ_nat Pos.succ]; int_lia).
  f_equal; rewrite Z.compare_sub, (Z.compare_sub (norm_exp _ _)) || rewrite Z.compare_sub, (Z.compare_sub (norm_frac _)); f_equal; lia.
Qed.

Lemma encode_decimal_cmp m1 s1 m2 s2 :
  Z.abs m1 < 10 ^ 38 → Z.abs m2 < 10 ^ 38 → 0 ≤ s1 ≤ i32_max → 0 ≤ s2 ≤ i32_max →
  bytes_cmp (encode_decimal_ascending m1 s1) (encode_decimal_ascending m2 s2) =
  (m1 * 10 ^ s2 ?= m2 * 10 ^ s1).
Proof.
  intros H1 H2 Hs1 Hs2. rewrite !encode_decimal_split by done.
  assert (0 < 10 ^ s1) by (apply Z.pow_pos_nonneg; lia).
  assert (0 < 10 ^ s2) by (apply Z.pow_pos_nonneg; lia).
  cbn [bytes_cmp]. unfold sign_byte. rewrite !Z_of_byte_of_Z.
  destruct (Z.lt_trichotomy m1 0) as [L1|[->|G1]], (Z.lt_trichotomy m2 0) as [L2|[->|G2]];
    try rewrite !(proj2 (Z.eqb_neq m1 0)) by lia; try rewrite !(proj2 (Z.eqb_neq m2 0)) by lia;
    try rewrite !(proj2 (Z.ltb_lt 0 m1)) by lia; try rewrite !(proj2 (Z.ltb_lt 0 m2)) by lia;
    try rewrite !(proj2 (Z.ltb_ge 0 m1)) by lia; try rewrite !(proj2 (Z.ltb_ge 0 m2)) by lia;
    cbn [Z.eqb Z.modulo Z.div_eucl Z.compare Pos.compare Pos.compare_cont]; symmetry.
  all: try (apply Z.compare_lt_iff; nia).
  all: try (apply Z.compare_gt_iff; nia).
  all: symmetry.
  - apply decimal_tail_cmp_neg; lia.
  - done.
  - apply decimal_tail_cmp_pos; lia.
Qed.

(** ** Lemmas: text *)

Lemma bytes_cmp_snoc_nul a b :
  bytes_cmp (a ++ [Byte.x00]) (b ++ [Byte.x00]) = bytes_cmp a b.
Proof.
  revert b; induction a as [|x a IH]; intros [|y b]; cbn [bytes_cmp app]; try done.
  - pose proof (Z_of_byte_range y). change (Z_of_byte Byte.x00) with 0.
    destruct (Z.compare_spec 0 (Z_of_byte y)); [by destruct b|done|lia].
  - pose proof (Z_of_byte_range x). change (Z_of_byte Byte.x00) with 0.
    destruct (Z.compare_spec (Z_of_byte x) 0); [by destruct a|lia|done].
  - by rewrite IH.
Qed.

Lemma bytes_cmp_not_snoc_nul a b :
  Byte.x00 ∉ a → Byte.x00 ∉ b →
  bytes_cmp (bytes_not (a ++ [Byte.x00])) (bytes_not (b ++ [Byte.x00])) = CompOpp (bytes_cmp a b).
Proof.
  revert b; induction a as [|x a IH]; intros [|y b] Ha Hb;
    cbn [bytes_cmp bytes_not app fmap list_fmap]; try done.
  - rewrite !Z_of_byte_not.
    assert (Z_of_byte y ≠ Z_of_byte Byte.x00) by (intros E%Z_of_byte_inj; set_solver).
    pose proof (Z_of_byte_range y). change (Z_of_byte Byte.x00) with 0 in *.
    by rewrite (proj2 (Z.compare_gt_iff _ _)) by lia.
  - rewrite !Z_of_byte_not.
    assert (Z_of_byte x ≠ Z_of_byte Byte.x00) by (intros E%Z_of_byte_inj; set_solver).
    pose proof (Z_of_byte_range x). change (Z_of_byte Byte.x00) with 0 in *.
    by rewrite (proj2 (Z.compare_lt_iff _ _)) by lia.
  - rewrite !Z_of_byte_not.
    assert ((255 - Z_of_byte x ?= 255 - Z_of_byte y) = CompOpp (Z_of_byte x ?= Z_of_byte y)) as ->.
    { rewrite <-Z.compare_antisym, Z.compare_sub, (Z.compare_sub (Z_of_byte y)). f_equal; lia. }
    destruct (Z_of_byte x ?= Z_of_byte y); cbn [CompOpp]; [|done|done].
    apply IH; set_solver.
Qed.

(** ** Lemmas: fixed-width encodings *)

Lemma flip_sign_cmp n v w :
  (8 ≤ n)%nat → is_i64 v → is_i64 w →
  bytes_cmp (to_be_bytes n (flip_sign v)) (to_be_bytes n (flip_sign w)) = (v ?= w).
Proof.
  intros Hn Hv Hw. rewrite !flip_sign_eq by done.
  assert (256 ^ 8 ≤ 256 ^ Z.of_nat n) by (apply Z.pow_le_mono_r; lia).
  rewrite to_be_bytes_cmp by int_lia.
  rewrite !(Z.add_comm _ (2 ^ 63)). apply Z.add_compare_mono_l.
Qed.

(** Outside text, the encodings of one kind have one length. *)
Lemma encode_priority_length a b :
  is_Some (priority_cmp a b) → (∀ s, a ≠ Text s) →
  length (encode_priority_ascending a) = length (encode_priority_ascending b).
Proof.
  assert (Hdec : ∀ m s, length (encode_decimal_ascending m s) = 21%nat).
  { intros m s. unfold encode_decimal_ascending. destruct (m =? 0); [done|].
    destruct (0 <? m); cbn [length]; by rewrite length_app, !length_to_be_bytes. }
  intros [c Hc] Ht. destruct a, b; try done; cbn [encode_priority_ascending];
    rewrite ?length_app, ?length_to_be_bytes, ?Hdec; try done.
  by destruct (Ht s).
Qed.

Lemma encode_ascending_cmp a b c :
  priority_ok Ascending a → priority_ok Ascending b → priority_cmp a b = Some c →
  bytes_cmp (encode_priority_ascending a) (encode_priority_ascending b) = c.
Proof.
  intros Ha Hb Hc. destruct a as [t|v|[m s]|s], b as [u|w|[m' s']|s']; try done;
    injection Hc as <-; cbn [encode_priority_ascending mantissa scale].
  - destruct Ha, Hb. rewrite bytes_cmp_app by (by rewrite !length_to_be_bytes).
    rewrite flip_sign_cmp by (try done; lia). rewrite to_be_bytes_cmp by int_lia.
    unfold cmp_timestamp. by destruct (seconds t ?= seconds u).
  - apply flip_sign_cmp; [lia|done|done].
  - destruct Ha, Hb. by apply encode_decimal_cmp.
  - apply bytes_cmp_snoc_nul.
Qed.

(** ** Properties of the sort key *)

(** The sort key embeds the priority order: for two values of one kind the
    byte order of the keys is the order of the values, reversed by a
    descending model, and equal keys mean equal priorities. *)
Theorem priority_sort_order a b model c :
  priority_ok (direction model) a → priority_ok (direction model) b →
  priority_cmp a b = Some c →
  bytes_cmp (priority_sort a model) (priority_sort b model) = directed (direction model) c.
Proof.
  intros Ha Hb Hc. unfold priority_sort.
  destruct model as [k [|] tb]; cbn [direction directed] in *.
  - by apply encode_ascending_cmp.
  - rewrite bool_decide_eq_true_2 by done.
    destruct a as [t|v|d|s] eqn:Ea; [..|destruct b as [| | |s']; try done].
    4:{ injection Hc as <-. apply bytes_cmp_not_snoc_nul; [by apply Ha|by apply Hb]. }
    all: rewrite bytes_cmp_not by (by apply encode_priority_length);
      rewrite bytes_cmp_antisym; f_equal; apply encode_ascending_cmp; try done; by destruct b.
Qed.

Definition desc_decimal : PriorityModel := mkPriorityModel KindDecimal Descending CreatedSequence.

Lemma priority_sort_order_witness :
  bytes_cmp (priority_sort (Decimal (mkDecimalValue (-125) 2)) desc_decimal)
            (priority_sort (Decimal (mkDecimalValue 7 1)) desc_decimal) = Gt.
Proof.
  apply (priority_sort_order (Decimal (mkDecimalValue (-125) 2)) (Decimal (mkDecimalValue 7 1))
    desc_decimal Lt); [split; cbn; int_lia|split; cbn; int_lia|reflexivity].
Defined.

(** Text priorities under a descending model are ordered backwards as soon
    as one extends the other by a NUL: the terminator that separates a text
    from its extensions is no longer the least byte of the complement. *)
Theorem priority_sort_text_nul s t k tb :
  let model := mkPriorityModel k Descending tb in
  let longer := String.app s (String Ascii.zero t) in
  priority_cmp (Text s) (Text longer) = Some Lt ∧
  bytes_cmp (priority_sort (Text s) model) (priority_sort (Text longer) model) = Lt.
Proof.
  pose proof (as_bytes_app s (String Ascii.zero t)) as Hb.
  cbn [priority_cmp]. unfold priority_sort. cbn [direction].
  rewrite bool_decide_eq_true_2 by done. cbn [encode_priority_ascending]. rewrite Hb.
  change (as_bytes (String Ascii.zero t)) with (Byte.x00 :: as_bytes t). split.
  - f_equal. rewrite <-(app_nil_r (as_bytes s)) at 1. by rewrite bytes_cmp_app_same.
  - unfold bytes_not. rewrite <-app_assoc, !fmap_app, bytes_cmp_app_same. cbn [app fmap list_fmap].
    cbn [bytes_cmp]. rewrite Z.compare_refl. by destruct t.
Qed.

(** Mantissas of 39 digits lose their last digit in the sort key, so
    distinct decimal priorities share one key. *)
Theorem priority_sort_39_digits k r s model :
  10 ^ 37 ≤ k → 10 * k + 9 < 2 ^ 127 → 0 ≤ r < 10 →
  priority_sort (Decimal (mkDecimalValue (10 * k + r) s)) model =
  priority_sort (Decimal (mkDecimalValue (10 * k) s)) model.
Proof.
  intros Hk Hmax Hr. unfold priority_sort. cbn [encode_priority_ascending mantissa scale].
  assert (Hd : ∀ n, 10 ^ 38 ≤ n < 2 ^ 127 → decimal_digit_count (Z.abs n) = 39).
  { intros n Hn. rewrite Z.abs_eq by lia. destruct (digit_count_spec n) as [Hd Hlim]; [lia|].
    pose proof (Z.pow_le_mono_r 10 (decimal_digit_count n) 38). lia. }
  assert (Henc : encode_decimal_ascending (10 * k + r) s = encode_decimal_ascending (10 * k) s).
  { unfold encode_decimal_ascending. rewrite !Hd by lia.
    rewrite !(proj2 (Z.eqb_neq _ 0)) by lia. rewrite !(proj2 (Z.ltb_lt 0 _)) by lia.
    change (NORMALIZED_DIGITS <=? 39) with true. rewrite !Z.abs_eq by lia.
    change (nth (Z.to_nat (39 - NORMALIZED_DIGITS)) POW10 1) with 10.
    assert ((10 * k + r) / 10 = 10 * k / 10) as -> by div_lia. done. }
  by rewrite Henc.
Qed.

Lemma priority_sort_39_digits_witness :
  priority_sort (Decimal (mkDecimalValue (10 * 10 ^ 37 + 1) 0)) timestamp_ascending =
  priority_sort (Decimal (mkDecimalValue (10 * 10 ^ 37) 0)) timestamp_ascending.
Proof. apply (priority_sort_39_digits (10 ^ 37) 1 0 timestamp_ascending); vm_compute; intuition discriminate. Defined.
