(* ===== verification/Metadata.v ===== *)
(** Metadata of [fireweed-core/src/domain.rs] (lines 315-615): structured values,
    their natural JSON encoding with the legacy forms the reader still accepts,
    and the tagged native encoding. *)
From S2P Require Import Prelude Identity Priority.

(** A [serde_json::Value]. An integral [Number] holds an [i64] or a [u64]; any
    other number is an [f64], kept as its bits. A map is a [BTreeMap], its entries in
    key order. *)
Inductive Json :=
| JNull
| JBool (b : bool)
| JInt (z : Z)
| JFloat (bits : Z)
| JString (s : string)
| JArray (items : list Json)
| JObject (map : list (string * Json)).

(** [BTreeMap::insert] on a map kept as its entries in key order. *)
Fixpoint btree_insert {A} (k : string) (v : A) (m : list (string * A)) : list (string * A) :=
  match m with
  | [] => [(k, v)]
  | (k', v') :: m' =>
      match String.compare k k' with
      | Lt => (k, v) :: m
      | Eq => (k, v) :: m'
      | Gt => (k', v') :: btree_insert k v m'
      end
  end.

Fixpoint btree_get {A} (k : string) (m : list (string * A)) : option A :=
  match m with
  | [] => None
  | (k', v') :: m' => if bool_decide (k = k') then Some v' else btree_get k m'
  end.

Inductive MetadataValue :=
| Null
| Bool (b : bool)
| Integer (i : Z)
| Number (d : DecimalValue)
| MString (s : string)
| Array (items : list MetadataValue)
| Object (entries : list (string * MetadataValue)).

(** [Metadata]: its [entries]. *)
Abbreviation Metadata := (list (string * MetadataValue)).

Definition Metadata_new : Metadata := [].
Definition Metadata_insert (m : Metadata) (key : string) (value : MetadataValue) : Metadata :=
  btree_insert key value m.
Definition Metadata_get (m : Metadata) (key : string) : option MetadataValue := btree_get key m.
Definition Metadata_is_empty (m : Metadata) : bool := match m with [] => true | _ => false end.
Definition Metadata_len (m : Metadata) : nat := length m.

(** The derived [PartialEq]. *)
Fixpoint MetadataValue_eqb (a b : MetadataValue) : bool :=
  match a, b with
  | Null, Null => true
  | Bool x, Bool y => Bool.eqb x y
  | Integer x, Integer y => x =? y
  | Number x, Number y => bool_decide (x = y)
  | MString x, MString y => bool_decide (x = y)
  | Array l, Array k =>
      (fix go l k := match l, k with
       | [], [] => true
       | x :: l, y :: k => MetadataValue_eqb x y && go l k
       | _, _ => false
       end) l k
  | Object l, Object k =>
      (fix go l k := match l, k with
       | [], [] => true
       | (i, x) :: l, (j, y) :: k => bool_decide (i = j) && MetadataValue_eqb x y && go l k
       | _, _ => false
       end) l k
  | _, _ => false
  end.

Definition json_value_kind (value : Json) : string :=
  match value with
  | JNull => "null"
  | JBool _ => "bool"
  | JInt _ | JFloat _ => "number"
  | JString _ => "string"
  | JArray _ => "array"
  | JObject _ => "object"
  end.

(** ** Reading JSON *)

Section reader.
(** [serde_json::from_value::<DecimalValue>], derived code of [serde]. *)
Context (decimal_from_value : Json → result string DecimalValue).

(** The loop [for (k, v) in map { out.insert(k, from(v)?) }]. *)
Definition collect_entries (from : Json → result string MetadataValue)
    (map : list (string * Json)) : result string Metadata :=
  try_fold (λ out e, v ← from e.2; Ok (btree_insert e.1 v out)) [] map.

(** [metadata_from_json_value], over the reader of its values. A one-entry map
    has its [entries] key taken out by [map.remove] before the value's shape is
    looked at: when the value is not an object, what is left is empty. *)
Definition metadata_from_json_with (from : Json → result string MetadataValue)
    (value : Json) : result string Metadata :=
  match value with
  | JObject map =>
      match map with
      | [(k, v)] =>
          if bool_decide (k = "entries"%string) then
            match v with
            | JObject entries => collect_entries from entries
            | _ => collect_entries from []
            end
          else collect_entries from map
      | _ => collect_entries from map
      end
  | other => Err (String.app "metadata must be a JSON object, got " (json_value_kind other))
  end.

(** The number branch of [metadata_value_from_json]. *)
Definition metadata_integer (z : Z) : result string MetadataValue :=
  if z <=? i64_max then Ok (Integer z) else Err "metadata integer exceeds i64"%string.

(** The trailing [match value] of [metadata_value_from_json]. *)
Definition metadata_value_plain (from : Json → result string MetadataValue)
    (value : Json) : result string MetadataValue :=
  match value with
  | JNull => Ok Null
  | JBool b => Ok (Bool b)
  | JInt z => metadata_integer z
  | JFloat _ => Err "metadata number must be an integer or decimal object"%string
  | JString s => Ok (MString s)
  | JArray items => out ← try_collect from items; Ok (Array out)
  | JObject _ => m ← metadata_from_json_with from value; Ok (Object m)
  end.

(** The legacy externally tagged variants; [None] falls through to the natural
    reading. *)
Definition legacy_variant (from : Json → result string MetadataValue)
    (tag : string) (inner : Json) : option (result string MetadataValue) :=
  if bool_decide (tag = "Null"%string) then Some (Ok Null)
  else if bool_decide (tag = "Bool"%string) then
    Some (match inner with JBool b => Ok (Bool b) | _ => Err "legacy Bool tag requires bool"%string end)
  else if bool_decide (tag = "Integer"%string) then
    Some (match inner with
          | JInt z => if z <=? i64_max then Ok (Integer z) else Err "legacy Integer out of i64 range"%string
          | JFloat _ => Err "legacy Integer out of i64 range"%string
          | _ => Err "legacy Integer tag requires number"%string end)
  else if bool_decide (tag = "Number"%string) then
    Some (match decimal_from_value inner with
          | Ok d => Ok (Number d)
          | Err e => Err (String.app "legacy Number: " e) end)
  else if bool_decide (tag = "String"%string) then
    Some (match inner with JString s => Ok (MString s) | _ => Err "legacy String tag requires string"%string end)
  else if bool_decide (tag = "Array"%string) then
    Some (match inner with
          | JArray items => out ← try_collect from items; Ok (Array out)
          | _ => Err "legacy Array tag requires array"%string end)
  else if bool_decide (tag = "Object"%string) then
    Some (m ← metadata_from_json_with from inner; Ok (Object m))
  else None.

(** [map.len() == 2 && contains "mantissa" && contains "scale"]; keys are in
    order. *)
Definition natural_decimal (map : list (string * Json)) : bool :=
  match map with
  | [(a, _); (b, _)] =>
      (bool_decide (a = "mantissa"%string) || bool_decide (b = "mantissa"%string)) &&
      (bool_decide (a = "scale"%string) || bool_decide (b = "scale"%string))
  | _ => false
  end.

Fixpoint metadata_value_from_json (value : Json) : result string MetadataValue :=
  match value with
  | JObject map =>
      let natural :=
        if natural_decimal map then
          match decimal_from_value value with
          | Ok d => Ok (Number d)
          | Err e => Err (String.app "decimal metadata value: " e)
          end
        else metadata_value_plain metadata_value_from_json value in
      match map with
      | [(tag, inner)] =>
          match legacy_variant metadata_value_from_json tag inner with
          | Some r => r
          | None => natural
          end
      | _ => natural
      end
  | _ => metadata_value_plain metadata_value_from_json value
  end.

Definition metadata_from_json_value (value : Json) : result string Metadata :=
  metadata_from_json_with metadata_value_from_json value.

End reader.

(** ** Writing JSON and the native form *)

Section writer.
(** The [f64] a JSON reader takes an integer literal beyond [u64] for. *)
Context (f64_of_integer : Z → Z).

Definition json_integer (z : Z) : Json :=
  if (i64_min <=? z) && (z <=? u64_max) then JInt z else JFloat (f64_of_integer z).

(** The derived [Serialize] of [DecimalValue]. *)
Definition DecimalValue_to_json (d : DecimalValue) : Json :=
  JObject [("mantissa"%string, json_integer (mantissa d)); ("scale"%string, json_integer (scale d))].

(** [Serialize for MetadataValue], human-readable branch. *)
Fixpoint MetadataValue_to_json (v : MetadataValue) : Json :=
  match v with
  | Null => JNull
  | Bool b => JBool b
  | Integer i => json_integer i
  | Number d => DecimalValue_to_json d
  | MString s => JString s
  | Array items => JArray (MetadataValue_to_json <$> items)
  | Object entries => JObject ((λ e, (e.1, MetadataValue_to_json e.2)) <$> entries)
  end.

Definition Metadata_to_json (m : Metadata) : Json := MetadataValue_to_json (Object m).

End writer.

(** [MetadataValueWire]: the tagged native form. *)
Inductive MetadataValueWire :=
| WNull
| WBool (b : bool)
| WInteger (i : Z)
| WNumber (d : DecimalValue)
| WString (s : string)
| WArray (items : list MetadataValueWire)
| WObject (entries : list (string * MetadataValueWire)).

(** [Serialize for MetadataValue], native branch: the variant each value is
    written as. *)
Fixpoint to_wire (v : MetadataValue) : MetadataValueWire :=
  match v with
  | Null => WNull
  | Bool b => WBool b
  | Integer i => WInteger i
  | Number d => WNumber d
  | MString s => WString s
  | Array items => WArray (to_wire <$> items)
  | Object entries => WObject ((λ e, (e.1, to_wire e.2)) <$> entries)
  end.

(** [From<MetadataValueWire> for MetadataValue]. *)
Fixpoint from_wire (w : MetadataValueWire) : MetadataValue :=
  match w with
  | WNull => Null
  | WBool b => Bool b
  | WInteger i => Integer i
  | WNumber d => Number d
  | WString s => MString s
  | WArray items => Array (from_wire <$> items)
  | WObject entries => Object ((λ e, (e.1, from_wire e.2)) <$> entries)
  end.

(** ** Well-formed and unambiguous values *)

(** The keys of a [BTreeMap], strictly increasing. *)
Definition key_lt (a b : string) : Prop := String.compare a b = Lt.
Fixpoint keys_sorted (l : list string) : bool :=
  match l with
  | a :: ((b :: _) as l') => bool_decide (String.compare a b = Lt) && keys_sorted l'
  | _ => true
  end.

Definition reserved_tags : list string :=
  ["Null"; "Bool"; "Integer"; "Number"; "String"; "Array"; "Object"; "entries"]%string.

(** Objects the reader does not take for one of its other forms. *)
Definition plain_keys (keys : list string) : bool :=
  match keys with
  | [k] => bool_decide (k ∉ reserved_tags)
  | [a; b] => negb (bool_decide (a = "mantissa"%string) && bool_decide (b = "scale"%string))
  | _ => true
  end.

(** Values JSON carries without loss: machine ranges, sorted keys, mantissas an
    integral JSON number holds, and no object with reserved keys. *)
Fixpoint json_safe (v : MetadataValue) : bool :=
  match v with
  | Null | Bool _ | MString _ => true
  | Integer i => (i64_min <=? i) && (i <=? i64_max)
  | Number d => (i64_min <=? mantissa d) && (mantissa d <=? u64_max) &&
                (0 <=? scale d) && (scale d <=? u32_max)
  | Array items => forallb json_safe items
  | Object entries =>
      keys_sorted entries.*1 && plain_keys entries.*1 && forallb (λ e, json_safe e.2) entries
  end.

(** ** Lemmas *)

(** Induction through the nested lists. *)
Lemma MetadataValue_deep_ind (P : MetadataValue → Prop)
    (HN : P Null) (HB : ∀ b, P (Bool b)) (HI : ∀ i, P (Integer i)) (HD : ∀ d, P (Number d))
    (HS : ∀ s, P (MString s)) (HA : ∀ l, Forall P l → P (Array l))
    (HO : ∀ m, Forall (λ e : string * MetadataValue, P e.2) m → P (Object m)) :
  ∀ v, P v.
Proof.
  fix IH 1. intros [| | | | |l|m]; [done..| |].
  - apply HA. induction l; constructor; [apply IH|done].
  - apply HO. induction m; constructor; [apply IH|done].
Qed.

Lemma MetadataValue_eqb_eq a b : MetadataValue_eqb a b = true ↔ a = b.
Proof.
  revert b. induction a as [|x|x|x|x|l IH|l IH] using MetadataValue_deep_ind;
    intros [|y|y|y|y|k|k]; cbn [MetadataValue_eqb]; try done.
  - rewrite Bool.eqb_true_iff. naive_solver.
  - rewrite Z.eqb_eq. naive_solver.
  - rewrite bool_decide_eq_true. naive_solver.
  - rewrite bool_decide_eq_true. naive_solver.
  - revert k. induction IH as [|x l Hx Hl IHl]; intros [|y k]; [done..|].
    rewrite andb_true_iff, Hx, IHl. naive_solver.
  - revert k. induction IH as [|[i x] l Hx Hl IHl]; intros [|[j y] k]; [done..|].
    rewrite !andb_true_iff, Hx, IHl, bool_decide_eq_true. naive_solver.
Qed.

#[export] Instance MetadataValue_eq_dec : EqDecision MetadataValue.
Proof.
  intros a b. destruct (MetadataValue_eqb a b) eqn:E.
  - left. by apply MetadataValue_eqb_eq.
  - right. intros H%MetadataValue_eqb_eq. congruence.
Defined.

Lemma string_compare_lt_gt a b : String.compare a b = Lt → String.compare b a = Gt.
Proof. intros H. by rewrite String.compare_antisym, H. Qed.

Lemma string_compare_lt_trans a b c :
  String.compare a b = Lt → String.compare b c = Lt → String.compare a c = Lt.
Proof.
  revert b c; induction a as [|x a IH]; intros [|y b] [|z c]; cbn; try done.
  unfold Ascii.compare.
  destruct (N.compare_spec (Ascii.N_of_ascii x) (Ascii.N_of_ascii y)) as [E1|L1|G1],
    (N.compare_spec (Ascii.N_of_ascii y) (Ascii.N_of_ascii z)) as [E2|L2|G2]; try done;
    destruct (N.compare_spec (Ascii.N_of_ascii x) (Ascii.N_of_ascii z)); try done; try lia.
  apply IH.
Qed.

(** Appending a key above all others is insertion. *)
Lemma btree_insert_last {A} k (v : A) m :
  Forall (λ e, key_lt e.1 k) m → btree_insert k v m = m ++ [(k, v)].
Proof.
  induction 1 as [|[k' v'] m Hk Hm IH]; cbn; [done|].
  unfold key_lt in Hk. cbn [fst] in Hk. rewrite (string_compare_lt_gt _ _ Hk). by rewrite IH.
Qed.

Lemma keys_sorted_cons k l : keys_sorted (k :: l) = true → Forall (key_lt k) l ∧ keys_sorted l = true.
Proof.
  revert k; induction l as [|a l IH]; intros k; [done|].
  cbn [keys_sorted]. intros [Hk%bool_decide_eq_true Hl]%andb_true_iff.
  destruct (IH a Hl) as [Ha Hs]. split; [|done].
  constructor; [done|]. eapply Forall_impl; [exact Ha|]. intros b Hb.
  by eapply string_compare_lt_trans.
Qed.

(** Reading back what was written, entry by entry. *)
Lemma collect_entries_map from (enc : MetadataValue → Json) entries :
  keys_sorted entries.*1 = true →
  Forall (λ e, from (enc e.2) = Ok e.2) entries →
  collect_entries from ((λ e, (e.1, enc e.2)) <$> entries) = Ok entries.
Proof.
  intros Hs Hf. unfold collect_entries.
  enough (Hgen : ∀ acc, Forall (λ a, Forall (λ e, key_lt a.1 e.1) entries) acc →
    try_fold (λ out e, v ← from e.2; Ok (btree_insert e.1 v out)) acc
      ((λ e, (e.1, enc e.2)) <$> entries) = Ok (acc ++ entries)) by (by apply (Hgen [])).
  induction Hf as [|[k v] entries Hv Hf IH]; intros acc Hacc; cbn [fmap list_fmap try_fold fst snd] in *.
  { by rewrite app_nil_r. }
  apply keys_sorted_cons in Hs as [Hk Hs].
  rewrite Hv. cbn [mbind result_bind]. rewrite btree_insert_last.
  2:{ eapply Forall_impl; [exact Hacc|]. intros a Ha. by apply Forall_cons in Ha as [? _]. }
  rewrite IH; [by rewrite <-app_assoc|done|].
  apply Forall_app; split.
  - eapply Forall_impl; [exact Hacc|]. intros a Ha. by apply Forall_cons in Ha as [_ ?].
  - apply Forall_singleton. exact (proj1 (Forall_fmap _ _ _) Hk).
Qed.

Lemma try_collect_map {E A B} (f : A → B) (g : B → result E A) l :
  Forall (λ a, g (f a) = Ok a) l → try_collect g (f <$> l) = Ok l.
Proof. induction 1 as [|a l Ha Hl IH]; cbn; [done|]. rewrite Ha. cbn. by rewrite IH. Qed.

Lemma legacy_variant_None dec from tag inner :
  tag ∉ reserved_tags → legacy_variant dec from tag inner = None.
Proof.
  intros Ht. unfold legacy_variant, reserved_tags in *.
  repeat (rewrite bool_decide_eq_false_2 by set_solver). done.
Qed.

(** Objects with plain keys are read as objects. *)
Lemma metadata_from_json_plain from (map : list (string * Json)) :
  plain_keys map.*1 = true →
  metadata_from_json_with from (JObject map) = collect_entries from map.
Proof.
  intros Hp. destruct map as [|[k v] [|[k' v'] map]]; [done| |done].
  cbn in Hp. apply bool_decide_eq_true in Hp. cbn [metadata_from_json_with].
  rewrite bool_decide_eq_false_2 by (unfold reserved_tags in Hp; set_solver). done.
Qed.

Lemma natural_decimal_plain (map : list (string * Json)) :
  keys_sorted map.*1 = true → plain_keys map.*1 = true → natural_decimal map = false.
Proof.
  intros Hs Hp. destruct map as [|[a x] [|[b y] [|]]]; try done. cbn in *.
  apply negb_true_iff in Hp. rewrite andb_true_r in Hs. apply bool_decide_eq_true in Hs.
  repeat case_bool_decide; subst; try done.
Qed.

Lemma metadata_value_from_json_plain dec (map : list (string * Json)) :
  keys_sorted map.*1 = true → plain_keys map.*1 = true →
  metadata_value_from_json dec (JObject map) =
    m ← collect_entries (metadata_value_from_json dec) map; Ok (Object m).
Proof.
  intros Hs Hp. pose proof (metadata_from_json_plain (metadata_value_from_json dec) map Hp) as Hplain.
  pose proof (natural_decimal_plain map Hs Hp) as Hnat.
  destruct map as [|[k v] [|[k' v'] map]].
  - done.
  - change (match legacy_variant dec (metadata_value_from_json dec) k v with
      | Some r => r
      | None => metadata_value_plain (metadata_value_from_json dec) (JObject [(k, v)])
      end = m ← collect_entries (metadata_value_from_json dec) [(k, v)]; Ok (Object m)).
    cbn in Hp. apply bool_decide_eq_true in Hp. rewrite legacy_variant_None by done.
    cbn [metadata_value_plain]. by rewrite Hplain.
  - cbn [metadata_value_from_json]. rewrite Hnat. cbn [metadata_value_plain]. by rewrite Hplain.
Qed.

(** ** Properties *)

(** JSON metadata round-trips: a [json_safe] value written in its natural
    JSON form is read back unchanged, whatever its nesting. The hypothesis on the
    derived decimal reader is its behaviour on the object the writer emits. *)
Theorem metadata_json_roundtrip dec f64 v :
  (∀ m s, i64_min ≤ m ≤ u64_max → 0 ≤ s ≤ u32_max →
    dec (JObject [("mantissa"%string, JInt m); ("scale"%string, JInt s)]) = Ok (mkDecimalValue m s)) →
  json_safe v = true →
  metadata_value_from_json dec (MetadataValue_to_json f64 v) = Ok v.
Proof.
  intros Hdec. induction v as [|b|i|d|s|l IH|m IH] using MetadataValue_deep_ind;
    cbn [json_safe MetadataValue_to_json]; intros Hsafe; try done.
  - unfold json_integer. apply andb_true_iff in Hsafe as [Hlo Hhi]. apply Z.leb_le in Hlo, Hhi.
    rewrite (proj2 (Z.leb_le i64_min i)), (proj2 (Z.leb_le i u64_max)) by int_lia.
    cbn. unfold metadata_integer. by rewrite (proj2 (Z.leb_le i i64_max)).
  - rewrite !andb_true_iff, !Z.leb_le in Hsafe. unfold DecimalValue_to_json, json_integer.
    rewrite (proj2 (Z.leb_le i64_min (mantissa d))), (proj2 (Z.leb_le (mantissa d) u64_max)),
      (proj2 (Z.leb_le i64_min (scale d))), (proj2 (Z.leb_le (scale d) u64_max)) by int_lia.
    cbn. rewrite Hdec by lia. by destruct d.
  - cbn. rewrite try_collect_map; [done|].
    apply Forall_forall. intros x Hx. rewrite forallb_forall in Hsafe.
    rewrite Forall_forall in IH. apply IH; [done|]. by apply Hsafe, list_elem_of_In.
  - rewrite !andb_true_iff, forallb_forall in Hsafe. destruct Hsafe as [[Hs Hp] Hf].
    rewrite metadata_value_from_json_plain; rewrite <-?list_fmap_compose; [|done..].
    rewrite collect_entries_map; [done|done|].
    apply Forall_forall. intros x Hx. rewrite Forall_forall in IH.
    apply IH; [done|]. by apply Hf, list_elem_of_In.
Qed.

(** A decimal reader in the style of a derived [Deserialize]: the two integer
    fields by name. *)
Definition sample_decimal_reader (j : Json) : result string DecimalValue :=
  match j with
  | JObject [(_, JInt m); (_, JInt s)] => Ok (mkDecimalValue m s)
  | _ => Err "invalid type"%string
  end.

Definition sample_metadata : MetadataValue :=
  Object [("a"%string, Array [Integer (-3); Null; Number (mkDecimalValue 125 2)]);
          ("b"%string, Object [("x"%string, MString "y"%string)])].

Lemma metadata_json_roundtrip_witness :
  metadata_value_from_json sample_decimal_reader
    (MetadataValue_to_json (λ z, z) sample_metadata) = Ok sample_metadata.
Proof. apply (metadata_json_roundtrip sample_decimal_reader (λ z, z) sample_metadata); [done|reflexivity]. Defined.

(** The reader loses metadata whose only key is [entries]: whatever the
    value, if it is not an object it is dropped and the map reads back empty.
    Every map whose only key is a legacy tag name with a null value reads back
    as a different value or an error. *)
Theorem metadata_entries_key_lost dec f64 v :
  (∀ m, v ≠ Object m) → (∀ d, v ≠ Number d) →
  metadata_from_json_value dec (Metadata_to_json f64 [("entries"%string, v)]) = Ok [] ∧
  (∀ tag, tag ∈ ["Null"; "Bool"; "Integer"; "String"; "Array"; "Object"]%string →
    metadata_value_from_json dec (MetadataValue_to_json f64 (Object [(tag, Null)]))
      ≠ Ok (Object [(tag, Null)])).
Proof.
  intros Hobj Hnum. split.
  - destruct v as [|b|i|d|s|l|m]; try done.
    + cbn. unfold json_integer. by destruct (_ && _).
    + by destruct (Hnum d).
    + by destruct (Hobj m).
  - intros tag Htag. rewrite !elem_of_cons, elem_of_nil in Htag.
    destruct Htag as [->|[->|[->|[->|[->|[->|[]]]]]]]; done.
Qed.

Lemma metadata_entries_key_lost_witness :
  metadata_from_json_value sample_decimal_reader
    (Metadata_to_json (λ z, z) [("entries"%string, Integer 7)]) = Ok [].
Proof. apply (metadata_entries_key_lost sample_decimal_reader (λ z, z) (Integer 7)); done. Defined.

(** The native form carries every metadata value: reading the tagged wire
    value back gives the value written. *)
Lemma metadata_wire_roundtrip v : from_wire (to_wire v) = v.
Proof.
  induction v as [|b|i|d|s|l IH|m IH] using MetadataValue_deep_ind; cbn; try done; f_equal.
  - induction IH as [|x l Hx Hl IHl]; cbn; [done|]. by rewrite Hx, IHl.
  - induction IH as [|[k x] m Hx Hm IHm]; cbn in *; [done|]. by rewrite Hx, IHm.
Qed.
