(* ===== verification/Lifecycle.v ===== *)
(** The item lifecycle, retry, idempotency and eligibility rules of
    [fireweed-core/src/domain.rs] (section B-012). *)
From S2P Require Import Prelude Identity Priority Metadata.

(** ** The state machine *)

Inductive ItemState := Pending | Leased | Complete | Failed.

Inductive ItemEvent :=
| Claim
| FinalizeComplete
| FinalizeFail
| FinalizeRetry
| FinalizeRelease
| FinalizeRearm
| LeaseExpired.

#[export] Instance ItemState_eq_dec : EqDecision ItemState.
Proof. solve_decision. Defined.
#[export] Instance ItemEvent_eq_dec : EqDecision ItemEvent.
Proof. solve_decision. Defined.

Definition is_terminal (s : ItemState) : bool :=
  match s with Complete | Failed => true | Pending | Leased => false end.

Record TransitionError := mkTransitionError {
  te_state : ItemState;
  te_event : ItemEvent;
  te_message : string;
}.

Definition apply_transition (state : ItemState) (event : ItemEvent)
    : result TransitionError ItemState :=
  match state, event with
  | Pending, Claim => Ok Leased
  | Leased, FinalizeComplete => Ok Complete
  | Leased, FinalizeFail => Ok Failed
  | Leased, FinalizeRetry => Ok Pending
  | Leased, FinalizeRelease => Ok Pending
  | Leased, FinalizeRearm => Ok Pending
  | Leased, LeaseExpired => Ok Pending
  | Complete, _ | Failed, _ =>
      Err (mkTransitionError state event "item is terminal; no further transitions are accepted")
  | Pending, _ => Err (mkTransitionError state event "event requires a leased item")
  | Leased, Claim => Err (mkTransitionError state event "item is already leased")
  end.

Definition is_retry_exhausted (attempts_so_far max_attempts : Z) : bool :=
  max_attempts <=? attempts_so_far.

Definition failure_event (attempts_so_far max_attempts : Z) : ItemEvent :=
  if is_retry_exhausted attempts_so_far max_attempts then FinalizeFail else FinalizeRetry.

(** ** Idempotency *)

Inductive IdempotencyOutcome := Proceed | Replay | RequestIdConflict | ClientItemKeyDuplicate.

Definition check_idempotency (request_id : string) (body_hash : Z)
    (prior_request : option (string * Z)) (prior_item_key : option string)
    (client_item_key : string) : IdempotencyOutcome :=
  let duplicate :=
    match prior_item_key with
    | Some k => bool_decide (k = client_item_key)
    | None => false
    end in
  match prior_request with
  | Some (rid, prior_hash) =>
      if bool_decide (rid = request_id) then
        if prior_hash =? body_hash then Replay else RequestIdConflict
      else if duplicate then ClientItemKeyDuplicate else Proceed
  | None => if duplicate then ClientItemKeyDuplicate else Proceed
  end.

(** ** Eligibility *)

Record EligibilitySnapshot := mkEligibilitySnapshot {
  state : ItemState;
  not_before : option UtcTimestamp;
  retry_backoff_until : option UtcTimestamp;
  metadata : Metadata;
  gate_keys : list string;
}.

(** [metadata_blockers] is a [BTreeMap], its entries in key order;
    [blocked_gate_keys] a [HashSet]. *)
Record QueueEligibilityRules := mkQueueEligibilityRules {
  metadata_blockers : list (string * list MetadataValue);
  blocked_gate_keys : gset string;
}.

Inductive IneligibilityReason :=
| NotPending
| NotBeforeInFuture
| RetryBackoff
| MetadataBlocked (key : string)
| GateBlocked (gate_key : string).

(** [t.is_some_and(|t| cmp_timestamp(t, now) == Greater)]. *)
Definition in_future (t : option UtcTimestamp) (now : UtcTimestamp) : bool :=
  match t with
  | Some t => bool_decide (cmp_timestamp t now = Gt)
  | None => false
  end.

Definition metadata_blocked (m : Metadata) (blocker : string * list MetadataValue) : bool :=
  match Metadata_get m blocker.1 with
  | Some v => bool_decide (v ∈ blocker.2)
  | None => false
  end.

Definition evaluate_eligibility (snapshot : EligibilitySnapshot) (rules : QueueEligibilityRules)
    (now : UtcTimestamp) : result IneligibilityReason unit :=
  if negb (bool_decide (state snapshot = Pending)) then Err NotPending
  else if in_future (not_before snapshot) now then Err NotBeforeInFuture
  else if in_future (retry_backoff_until snapshot) now then Err RetryBackoff
  else
    _ ← try_for_each (λ blocker,
          if metadata_blocked (metadata snapshot) blocker
          then Err (MetadataBlocked blocker.1) else Ok tt) (metadata_blockers rules);
    _ ← try_for_each (λ gate_key,
          if bool_decide (gate_key ∈ blocked_gate_keys rules)
          then Err (GateBlocked gate_key) else Ok tt) (gate_keys snapshot);
    Ok tt.

(** ** What the state machine promises *)

(** A history: the events applied in order, the first illegal one wins. *)
Definition run_events (s : ItemState) (es : list ItemEvent) : result TransitionError ItemState :=
  try_fold apply_transition s es.

(** Events that give the item back. *)
Definition returns (e : ItemEvent) : bool :=
  match e with FinalizeRetry | FinalizeRelease | FinalizeRearm | LeaseExpired => true | _ => false end.

(** The legal histories from [Pending]: tenures that give the item back, then
    possibly an open tenure or a final one. *)
Inductive history : list ItemEvent → ItemState → Prop :=
| history_nil : history [] Pending
| history_open : history [Claim] Leased
| history_complete : history [Claim; FinalizeComplete] Complete
| history_fail : history [Claim; FinalizeFail] Failed
| history_tenure e es s : returns e = true → history es s → history (Claim :: e :: es) s.

(** [n] failed tenures, the attempt count starting at [a]. *)
Fixpoint failing_tenures (n : nat) (a max_attempts : Z) : list ItemEvent :=
  match n with
  | O => []
  | S n => Claim :: failure_event a max_attempts :: failing_tenures n (a + 1) max_attempts
  end.

(** ** Lemmas *)

Lemma run_events_terminal s e es : is_terminal s = true → is_ok (run_events s (e :: es)) = false.
Proof. by destruct s. Qed.

Lemma run_events_tenure e es :
  returns e = true → run_events Pending (Claim :: e :: es) = run_events Pending es.
Proof. by destruct e. Qed.

Lemma history_run es s : history es s → run_events Pending es = Ok s.
Proof. induction 1; [reflexivity..|]. by rewrite run_events_tenure. Qed.

Lemma cmp_timestamp_le_trans a b c :
  cmp_timestamp a b ≠ Gt → cmp_timestamp b c ≠ Gt → cmp_timestamp a c ≠ Gt.
Proof.
  unfold cmp_timestamp.
  destruct (Z.compare_spec (seconds a) (seconds b)), (Z.compare_spec (seconds b) (seconds c)),
    (Z.compare_spec (seconds a) (seconds c)); try done; try lia; cbn [then_cmp];
    rewrite ?Z.compare_le_iff; lia.
Qed.

Lemma in_future_mono t now later :
  cmp_timestamp now later ≠ Gt → in_future t now = false → in_future t later = false.
Proof.
  destruct t as [t|]; [|done]. cbn. rewrite !bool_decide_eq_false.
  intros Hle Ht. by eapply cmp_timestamp_le_trans.
Qed.

Lemma eligible_spec snap rules now :
  evaluate_eligibility snap rules now = Ok tt ↔
  state snap = Pending ∧ in_future (not_before snap) now = false ∧
  in_future (retry_backoff_until snap) now = false ∧
  Forall (λ b, metadata_blocked (metadata snap) b = false) (metadata_blockers rules) ∧
  Forall (λ g, g ∉ blocked_gate_keys rules) (gate_keys snap).
Proof.
  unfold evaluate_eligibility.
  destruct (decide (state snap = Pending)) as [Hp|Hp].
  2:{ rewrite bool_decide_eq_false_2 by done. naive_solver. }
  rewrite bool_decide_eq_true_2 by done. cbn [negb].
  destruct (in_future (not_before snap) now); [naive_solver|].
  destruct (in_future (retry_backoff_until snap) now); [naive_solver|].
  rewrite bind_Ok. setoid_rewrite bind_Ok.
  assert (Hb : ∀ A (f : A → bool) (e : A → IneligibilityReason) l,
    try_for_each (λ a, if f a then Err (e a) else Ok tt) l = Ok tt ↔ Forall (λ a, f a = false) l).
  { intros. rewrite try_for_each_Ok. apply Forall_proper; [|done]. intros a. by destruct (f a). }
  split.
  - intros ([] & Hm & [] & Hg & _). apply Hb in Hm, Hg. do 4 (split; [done|]).
    eapply Forall_impl; [exact Hg|]. intros g. by rewrite bool_decide_eq_false.
  - intros (_ & _ & _ & Hm & Hg). exists tt. split; [by apply Hb|]. exists tt. split; [|done].
    apply Hb. eapply Forall_impl; [exact Hg|]. intros g. by rewrite bool_decide_eq_false.
Qed.

(** ** Properties *)

(** The state machine accepts exactly the histories in which every tenure is
    opened by one claim and closed by one event of its holder, and nothing
    follows a complete or failed item. *)
Theorem lifecycle_histories es s : run_events Pending es = Ok s ↔ history es s.
Proof.
  split; [|apply history_run].
  remember (length es) as n eqn:Hn. revert es Hn.
  induction n as [n IH] using lt_wf_ind. intros es Hn.
  destruct es as [|[] [|e es]]; try (intros [= <-]; constructor); try done.
  destruct (returns e) eqn:He.
  - rewrite run_events_tenure by done. intros Hr. constructor; [done|].
    eapply (IH (length es)); [cbn in Hn; lia|done|done].
  - destruct e; try done; destruct es; try done; intros [= <-]; constructor.
Qed.

(** The retry budget: an item that keeps failing goes back to pending
    exactly while attempts remain, the attempt that finds the budget spent fails
    it, and no later event is accepted. *)
Theorem retry_budget a max n e :
  a ≤ max →
  run_events Pending (failing_tenures n a max) =
    (if Z.of_nat n <=? max - a then Ok Pending
     else if Z.of_nat n =? max - a + 1 then Ok Failed
     else run_events Failed [Claim]) ∧
  is_ok (run_events Pending (failing_tenures (Z.to_nat (max - a + 1)) a max ++ [e])) = false.
Proof.
  assert (Hrun : ∀ n a, a ≤ max → run_events Pending (failing_tenures n a max) =
    (if Z.of_nat n <=? max - a then Ok Pending
     else if Z.of_nat n =? max - a + 1 then Ok Failed
     else run_events Failed [Claim])).
  { clear. intros n; induction n as [|n IH]; intros a Ha.
    - rewrite (proj2 (Z.leb_le _ _)) by lia. done.
    - cbn [failing_tenures]. unfold failure_event, is_retry_exhausted.
      destruct (Z.leb_spec max a).
      + assert (a = max) as -> by lia. rewrite (proj2 (Z.leb_gt _ _)) by lia.
        destruct n as [|n]; [rewrite (proj2 (Z.eqb_eq _ _)) by lia; done|].
        by rewrite (proj2 (Z.eqb_neq _ _)) by lia.
      + rewrite run_events_tenure by done. rewrite IH by lia.
        destruct (Z.leb_spec (Z.of_nat n) (max - (a + 1))), (Z.leb_spec (Z.of_nat (S n)) (max - a));
          try lia; [done|].
        destruct (Z.eqb_spec (Z.of_nat n) (max - (a + 1) + 1)),
          (Z.eqb_spec (Z.of_nat (S n)) (max - a + 1)); try lia; done. }
  intros Ha. split; [by apply Hrun|].
  unfold run_events. rewrite try_fold_app. fold (run_events Pending (failing_tenures (Z.to_nat (max - a + 1)) a max)).
  rewrite Hrun by done. rewrite (proj2 (Z.leb_gt _ _)) by lia. rewrite (proj2 (Z.eqb_eq _ _)) by lia.
  by destruct e.
Qed.

Lemma retry_budget_witness :
  run_events Pending (failing_tenures 3 0 2) = Ok Failed.
Proof. apply (retry_budget 0 2 3 Claim). lia. Defined.

(** Eligibility is exactly the five conditions of the precedence list, and
    an eligible item stays eligible as time passes while the rules stand. *)
Theorem eligibility_conditions snap rules now :
  (evaluate_eligibility snap rules now = Ok tt ↔
    state snap = Pending ∧ in_future (not_before snap) now = false ∧
    in_future (retry_backoff_until snap) now = false ∧
    (∀ key blocked v, (key, blocked) ∈ metadata_blockers rules →
      Metadata_get (metadata snap) key = Some v → v ∉ blocked) ∧
    (∀ g, g ∈ gate_keys snap → g ∉ blocked_gate_keys rules)) ∧
  (∀ later, cmp_timestamp now later ≠ Gt → evaluate_eligibility snap rules now = Ok tt →
    evaluate_eligibility snap rules later = Ok tt).
Proof.
  split.
  - rewrite eligible_spec, !Forall_forall. unfold metadata_blocked. split.
    + intros (? & ? & ? & Hm & Hg). do 4 (try split; try done). intros key blocked v Hin Hv.
      specialize (Hm _ Hin). cbn in Hm. rewrite Hv in Hm. by apply bool_decide_eq_false in Hm.
    + intros (? & ? & ? & Hm & Hg). do 4 (try split; try done). intros [key blocked] Hin. cbn.
      destruct (Metadata_get (metadata snap) key) as [v|] eqn:Hv; [|done].
      apply bool_decide_eq_false. by eapply Hm.
  - intros later Hle. rewrite !eligible_spec. intros (? & ? & ? & ? & ?).
    repeat split; try done; by eapply in_future_mono.
Qed.

(** A request is replayed only against its own earlier record with the same
    body, and proceeds only when neither its request id nor its item key was
    seen. *)
Theorem idempotency_outcomes rid hash prior prior_key key :
  (check_idempotency rid hash prior prior_key key = Replay ↔ prior = Some (rid, hash)) ∧
  (check_idempotency rid hash prior prior_key key = RequestIdConflict ↔
    ∃ h, prior = Some (rid, h) ∧ h ≠ hash) ∧
  (check_idempotency rid hash prior prior_key key = Proceed ↔
    (∀ h, prior ≠ Some (rid, h)) ∧ prior_key ≠ Some key).
Proof.
  unfold check_idempotency. destruct prior as [[r h]|], prior_key as [k|]; cbn;
    repeat case_bool_decide; try destruct (Z.eqb_spec h hash); naive_solver.
Qed.
