(* ===== verification/CreateQueue.v ===== *)
(** Queue creation of [fireweed-core/src/domain.rs] (lines 303-313, 617-741 and
    815-1300): the request, the policies it carries, its validation and the stored
    definition. *)
From S2P Require Import Prelude Identity Priority Metadata.

(** The [axon_esf] types a definition stores: what this code reads of them. *)
Class AxonEsf := {
  EntitySchemaDocument : Type;
  IndexDef : Type;
  CompoundIndexDef : Type;
  IndexDef_unique : IndexDef → bool;
  CompoundIndexDef_unique : CompoundIndexDef → bool;
  CompoundIndexDef_fields : CompoundIndexDef → list string;
}.

Inductive OrderingMode := Strict | BoundedRelaxed.
#[export] Instance OrderingMode_eq_dec : EqDecision OrderingMode.
Proof. solve_decision. Defined.

Definition default_max_rank_error : Z := 0.

Inductive GateKeyPolicy := GateNone | GateDynamic.

(** [metadata_blockers] is a [BTreeMap], its entries in key order. *)
Record EligibilityPolicy := mkEligibilityPolicy {
  ep_metadata_blockers : list (string * list MetadataValue);
  ep_gate_keys : GateKeyPolicy;
  max_gate_keys_per_item : option Z;
  max_gates_per_request : option Z;
}.

Definition EligibilityPolicy_default : EligibilityPolicy :=
  mkEligibilityPolicy [] GateNone None None.

Inductive CohortOnIncomplete := ExpireCohort.

Record CohortPolicy := mkCohortPolicy {
  enabled : bool;
  completion_bound_ms : option Z;
  on_incomplete : option CohortOnIncomplete;
  max_cohort_size : option Z;
}.

Definition CohortPolicy_disabled : CohortPolicy := mkCohortPolicy false None None None.

Inductive RecurrenceMode := Oneshot | Recurring.
#[export] Instance RecurrenceMode_eq_dec : EqDecision RecurrenceMode.
Proof. solve_decision. Defined.

Record RecurrencePolicy := mkRecurrencePolicy {
  mode : RecurrenceMode;
  until : option UtcTimestamp;
}.

Definition RecurrencePolicy_default : RecurrencePolicy := mkRecurrencePolicy Oneshot None.

Record RetryPolicy := mkRetryPolicy { max_attempts : Z }.

Record QueueCreationPolicy := mkQueueCreationPolicy {
  default_max_gate_keys_per_item : Z;
  default_max_gates_per_request : Z;
}.

Definition QueueCreationPolicy_default : QueueCreationPolicy := mkQueueCreationPolicy 1 1.

Inductive CreateQueueErrorKind := InvalidRequest | QueueDefinitionConflict.
Record CreateQueueError := mkCreateQueueError {
  cqe_kind : CreateQueueErrorKind;
  cqe_message : string;
}.

Definition invalid_request (message : string) : CreateQueueError :=
  mkCreateQueueError InvalidRequest message.
Definition conflict (message : string) : CreateQueueError :=
  mkCreateQueueError QueueDefinitionConflict message.

Record IndexSpec := mkIndexSpec {
  is_name : string;
  is_fields : list string;
  is_unique : bool;
}.

Section definitions.
Context `{AxonEsf}.

Inductive IndexDeclaration :=
| Single (def : IndexDef)
| Compound (def : CompoundIndexDef).

Record QueueIndex := mkQueueIndex {
  qi_name : string;
  declaration : IndexDeclaration;
}.

Record CreateQueue := mkCreateQueue {
  tenant_id : string;
  queue_id : string;
  priority_model : PriorityModel;
  ordering_mode : OrderingMode;
  max_rank_error : Z;
  progress_bound_ms : Z;
  eligibility_policy : EligibilityPolicy;
  cohort_policy : CohortPolicy;
  recurrence : RecurrencePolicy;
  request_id_retention_ms : Z;
  client_item_key_retention_ms : Z;
  terminal_retention_ms : Z;
  max_lease_duration_ms : Z;
  retry_policy : RetryPolicy;
  max_push_batch_size : Z;
  max_claim_batch_size : Z;
  max_eligible_group_size : option Z;
  secondary_indexes : list IndexSpec;
  entity_schema : option EntitySchemaDocument;
  typed_indexes : list QueueIndex;
  emit_change_records : bool;
}.

Record QueueDefinition := mkQueueDefinition {
  qd_tenant_id : string;
  qd_queue_id : string;
  qd_priority_model : PriorityModel;
  qd_ordering_mode : OrderingMode;
  qd_max_rank_error : Z;
  qd_progress_bound_ms : Z;
  qd_eligibility_policy : EligibilityPolicy;
  qd_cohort_policy : option CohortPolicy;
  qd_recurrence : RecurrencePolicy;
  qd_request_id_retention_ms : Z;
  qd_client_item_key_retention_ms : Z;
  qd_terminal_retention_ms : Z;
  qd_max_lease_duration_ms : Z;
  qd_retry_policy : RetryPolicy;
  qd_max_push_batch_size : Z;
  qd_max_claim_batch_size : Z;
  qd_max_eligible_group_size : option Z;
  qd_secondary_indexes : list IndexSpec;
  qd_entity_schema : option EntitySchemaDocument;
  qd_typed_indexes : list QueueIndex;
  qd_emit_change_records : bool;
}.

Definition default_terminal_retention_ms : Z := 3600000.
Definition default_emit_change_records : bool := false.

Record CreateQueueResponse := mkCreateQueueResponse {
  created : bool;
  queue : QueueDefinition;
}.

(** ** Validation, in the order of the checks *)

Definition check_bounds (q : CreateQueue) : result CreateQueueError unit :=
  if progress_bound_ms q =? 0 then
    Err (invalid_request "progress_bound_ms must be greater than 0")
  else if request_id_retention_ms q =? 0 then
    Err (invalid_request "request_id_retention_ms must be greater than 0")
  else if client_item_key_retention_ms q =? 0 then
    Err (invalid_request "client_item_key_retention_ms must be greater than 0")
  else if terminal_retention_ms q =? 0 then
    Err (invalid_request "terminal_retention_ms must be greater than 0")
  else if max_lease_duration_ms q =? 0 then
    Err (invalid_request "max_lease_duration_ms must be greater than 0")
  else if max_attempts (retry_policy q) =? 0 then
    Err (invalid_request "retry_policy.max_attempts must be greater than 0")
  else if max_push_batch_size q =? 0 then
    Err (invalid_request "max_push_batch_size must be greater than 0")
  else if max_claim_batch_size q =? 0 then
    Err (invalid_request "max_claim_batch_size must be greater than 0")
  else if bool_decide (kind (priority_model q) = KindTimestamp) &&
          negb (bool_decide (tie_breaker (priority_model q) = CreatedSequence)) then
    Err (invalid_request "timestamp priority queues must use created_sequence tie breaking")
  else if negb (max_rank_error q =? 0) && negb (bool_decide (ordering_mode q = BoundedRelaxed)) then
    Err (invalid_request "max_rank_error is only meaningful when ordering_mode=bounded_relaxed")
  else Ok tt.

Definition check_cohort (q : CreateQueue) : result CreateQueueError unit :=
  let c := cohort_policy q in
  if enabled c then
    if bool_decide (mode (recurrence q) = Recurring) then
      Err (invalid_request "recurrence.mode=recurring is mutually exclusive with cohort_policy.enabled=true")
    else
      bound ← ok_or (completion_bound_ms c) (invalid_request
        "cohort_policy.completion_bound_ms is required when cohort_policy.enabled=true");
      if bound =? 0 then
        Err (invalid_request "cohort_policy.completion_bound_ms must be greater than 0")
      else if progress_bound_ms q <? bound then
        Err (conflict "cohort_policy.completion_bound_ms must be less than or equal to progress_bound_ms")
      else match on_incomplete c with
      | None =>
          Err (invalid_request "cohort_policy.on_incomplete is required when cohort_policy.enabled=true")
      | Some ExpireCohort =>
          size ← ok_or (max_cohort_size c) (invalid_request
            "cohort_policy.max_cohort_size is required when cohort_policy.enabled=true");
          if size =? 0 then
            Err (invalid_request "cohort_policy.max_cohort_size must be greater than 0")
          else if max_claim_batch_size q <? size then
            Err (conflict "cohort_policy.max_cohort_size must be less than or equal to max_claim_batch_size")
          else Ok tt
      end
  else if bool_decide (is_Some (completion_bound_ms c)) || bool_decide (is_Some (on_incomplete c))
          || bool_decide (is_Some (max_cohort_size c)) then
    Err (invalid_request "cohort_policy fields other than enabled must be omitted when cohort_policy.enabled=false")
  else Ok tt.

Definition check_recurrence (q : CreateQueue) : result CreateQueueError unit :=
  let r := recurrence q in
  if bool_decide (mode r = Oneshot) && bool_decide (is_Some (until r)) then
    Err (invalid_request "recurrence.until is valid only when recurrence.mode=recurring")
  else if bool_decide (mode r = Recurring) && bool_decide (until r = None) then
    Err (invalid_request "recurrence.until is required when recurrence.mode=recurring")
  else Ok tt.

Definition check_group_size (q : CreateQueue) : result CreateQueueError unit :=
  match max_eligible_group_size q with
  | Some size =>
      if size =? 0 then Err (invalid_request "max_eligible_group_size must be greater than 0")
      else if max_claim_batch_size q <? size then
        Err (conflict "max_eligible_group_size must be less than or equal to max_claim_batch_size")
      else Ok tt
  | None => Ok tt
  end.

(** One secondary index; the state is [seen_index_names]. *)
Definition check_secondary_index (seen : gset string) (spec : IndexSpec)
    : result CreateQueueError (gset string) :=
  if blank (is_name spec) then Err (invalid_request "secondary index name must not be empty")
  else if bool_decide (is_name spec ∈ seen) then
    Err (invalid_request "secondary index names must be unique within the queue")
  else match is_fields spec with
  | [] => Err (invalid_request "secondary index must declare at least one field")
  | _ =>
      if existsb blank (is_fields spec) then
        Err (invalid_request "secondary index field name must not be empty")
      else Ok ({[is_name spec]} ∪ seen)
  end.

Definition MAX_TYPED_INDEXES : nat := 32.

(** One typed index; the state is [seen_typed_names]. *)
Definition check_typed_index (seen : gset string) (idx : QueueIndex)
    : result CreateQueueError (gset string) :=
  if blank (qi_name idx) then Err (invalid_request "typed index name must not be empty")
  else if bool_decide (qi_name idx ∈ seen) then
    Err (invalid_request (String.app "typed index names must be unique within the queue: '"
      (String.app (qi_name idx) "' appears more than once")))
  else
    let next := Ok ({[qi_name idx]} ∪ seen) in
    match declaration idx with
    | Compound c =>
        match CompoundIndexDef_fields c with
        | [] => Err (invalid_request (String.app "typed index '" (String.app (qi_name idx)
                  "': compound index must declare at least one field")))
        | _ => next
        end
    | Single _ => next
    end.

Definition check_index_overlap (seen_index_names : gset string) (idx : QueueIndex)
    : result CreateQueueError unit :=
  if bool_decide (qi_name idx ∈ seen_index_names) then
    Err (conflict (String.app "index '" (String.app (qi_name idx)
      "' appears in both secondary_indexes (ADR-010) and typed_indexes (ADR-011); declare it in one form only")))
  else Ok tt.

Definition check_indexes (q : CreateQueue) : result CreateQueueError unit :=
  seen_index_names ← try_fold check_secondary_index ∅ (secondary_indexes q);
  if bool_decide (MAX_TYPED_INDEXES < length (typed_indexes q))%nat then
    Err (invalid_request "typed_indexes: at most 32 typed indexes are allowed per queue")
  else
    _ ← try_fold check_typed_index ∅ (typed_indexes q);
    try_for_each (check_index_overlap seen_index_names) (typed_indexes q).

(** The policy stored: dynamic gate caps filled in from the creation policy. *)
Definition resolve_eligibility (policy : QueueCreationPolicy) (p : EligibilityPolicy)
    : result CreateQueueError EligibilityPolicy :=
  match ep_gate_keys p with
  | GateNone =>
      if bool_decide (is_Some (max_gate_keys_per_item p))
         || bool_decide (is_Some (max_gates_per_request p)) then
        Err (invalid_request "gate-key caps must be omitted when eligibility_policy.gate_keys=none")
      else Ok p
  | GateDynamic =>
      let keys := default (default_max_gate_keys_per_item policy) (max_gate_keys_per_item p) in
      if keys =? 0 then
        Err (invalid_request "eligibility_policy.max_gate_keys_per_item must be greater than 0")
      else
        let gates := default (default_max_gates_per_request policy) (max_gates_per_request p) in
        if gates =? 0 then
          Err (invalid_request "eligibility_policy.max_gates_per_request must be greater than 0")
        else Ok (mkEligibilityPolicy (ep_metadata_blockers p) GateDynamic (Some keys) (Some gates))
  end.

(** The definition a valid request becomes. *)
Definition define (q : CreateQueue) (eligibility : EligibilityPolicy) : QueueDefinition := {|
  qd_tenant_id := tenant_id q;
  qd_queue_id := queue_id q;
  qd_priority_model := priority_model q;
  qd_ordering_mode := ordering_mode q;
  qd_max_rank_error := max_rank_error q;
  qd_progress_bound_ms := progress_bound_ms q;
  qd_eligibility_policy := eligibility;
  qd_cohort_policy := if enabled (cohort_policy q) then Some (cohort_policy q) else None;
  qd_recurrence := recurrence q;
  qd_request_id_retention_ms := request_id_retention_ms q;
  qd_client_item_key_retention_ms := client_item_key_retention_ms q;
  qd_terminal_retention_ms := terminal_retention_ms q;
  qd_max_lease_duration_ms := max_lease_duration_ms q;
  qd_retry_policy := retry_policy q;
  qd_max_push_batch_size := max_push_batch_size q;
  qd_max_claim_batch_size := max_claim_batch_size q;
  qd_max_eligible_group_size := max_eligible_group_size q;
  qd_secondary_indexes := secondary_indexes q;
  qd_entity_schema := entity_schema q;
  qd_typed_indexes := typed_indexes q;
  qd_emit_change_records := emit_change_records q;
|}.

Definition validate (q : CreateQueue) (policy : QueueCreationPolicy)
    : result CreateQueueError QueueDefinition :=
  _ ← check_bounds q;
  _ ← check_cohort q;
  _ ← check_recurrence q;
  _ ← check_group_size q;
  _ ← check_indexes q;
  eligibility ← resolve_eligibility policy (eligibility_policy q);
  Ok (define q eligibility).

Definition create_response (d : QueueDefinition) (created : bool) : CreateQueueResponse :=
  mkCreateQueueResponse created d.

Definition requires_cross_entry_push_validation (d : QueueDefinition) : bool :=
  existsb is_unique (qd_secondary_indexes d) ||
  existsb (λ index, match declaration index with
                    | Single def => IndexDef_unique def
                    | Compound def => CompoundIndexDef_unique def
                    end) (qd_typed_indexes d).

End definitions.

(** ** What a valid request is *)

Section specification.
Context `{AxonEsf}.

(** Every bound is set. *)
Definition bounds_set (q : CreateQueue) : Prop :=
  Forall (λ b, b ≠ 0) [progress_bound_ms q; request_id_retention_ms q;
    client_item_key_retention_ms q; terminal_retention_ms q; max_lease_duration_ms q;
    max_attempts (retry_policy q); max_push_batch_size q; max_claim_batch_size q] ∧
  (kind (priority_model q) = KindTimestamp → tie_breaker (priority_model q) = CreatedSequence) ∧
  (ordering_mode q = Strict → max_rank_error q = 0).

(** A cohort queue is one-shot, completes within the progress bound and fits
    into one claim; any other queue has no cohort settings. *)
Definition cohort_consistent (q : CreateQueue) : Prop :=
  let c := cohort_policy q in
  if enabled c then
    mode (recurrence q) = Oneshot ∧ on_incomplete c = Some ExpireCohort ∧
    (∃ b, completion_bound_ms c = Some b ∧ b ≠ 0 ∧ b ≤ progress_bound_ms q) ∧
    (∃ n, max_cohort_size c = Some n ∧ n ≠ 0 ∧ n ≤ max_claim_batch_size q)
  else c = CohortPolicy_disabled.

(** The queue ends exactly when it recurs, and a group fits into one claim. *)
Definition recurrence_consistent (q : CreateQueue) : Prop :=
  (mode (recurrence q) = Recurring ↔ is_Some (until (recurrence q))) ∧
  (∀ n, max_eligible_group_size q = Some n → n ≠ 0 ∧ n ≤ max_claim_batch_size q).

Definition secondary_index_ok (spec : IndexSpec) : Prop :=
  blank (is_name spec) = false ∧ is_fields spec ≠ [] ∧
  Forall (λ f, blank f = false) (is_fields spec).

Definition typed_index_ok (idx : QueueIndex) : Prop :=
  blank (qi_name idx) = false ∧
  ∀ c, declaration idx = Compound c → CompoundIndexDef_fields c ≠ [].

(** Index names are distinct across both forms. *)
Definition indexes_consistent (q : CreateQueue) : Prop :=
  Forall secondary_index_ok (secondary_indexes q) ∧
  Forall typed_index_ok (typed_indexes q) ∧
  NoDup ((is_name <$> secondary_indexes q) ++ (qi_name <$> typed_indexes q)) ∧
  (length (typed_indexes q) ≤ 32)%nat.

(** The gate caps of the stored policy: none without gates, positive with. *)
Definition gate_caps (policy : QueueCreationPolicy) (p e : EligibilityPolicy) : Prop :=
  ep_metadata_blockers e = ep_metadata_blockers p ∧ ep_gate_keys e = ep_gate_keys p ∧
  match ep_gate_keys p with
  | GateNone => max_gate_keys_per_item p = None ∧ max_gates_per_request p = None ∧ e = p
  | GateDynamic => ∃ k g,
      max_gate_keys_per_item e = Some k ∧ max_gates_per_request e = Some g ∧ k ≠ 0 ∧ g ≠ 0 ∧
      k = default (default_max_gate_keys_per_item policy) (max_gate_keys_per_item p) ∧
      g = default (default_max_gates_per_request policy) (max_gates_per_request p)
  end.

(** ** Lemmas: one per check *)

Lemma check_bounds_Ok q : check_bounds q = Ok tt ↔ bounds_set q.
Proof.
  unfold check_bounds, bounds_set. rewrite !Forall_cons, Forall_nil.
  repeat match goal with |- context [if ?x =? 0 then _ else _] =>
    destruct (Z.eqb_spec x 0); [naive_solver|] end.
  repeat case_bool_decide; cbn [andb negb];
    try destruct (Z.eqb_spec (max_rank_error q) 0); cbn [andb negb];
    destruct (ordering_mode q); naive_solver.
Qed.

Lemma check_cohort_Ok q : check_cohort q = Ok tt ↔ cohort_consistent q.
Proof.
  unfold check_cohort, cohort_consistent, CohortPolicy_disabled.
  destruct (cohort_policy q) as [[] b o n]; cbn [enabled completion_bound_ms on_incomplete max_cohort_size].
  - destruct (mode (recurrence q)); [|naive_solver].
    rewrite bool_decide_eq_false_2 by done.
    destruct b as [b|]; cbn [ok_or mbind result_bind]; [|naive_solver].
    destruct (Z.eqb_spec b 0); [naive_solver|].
    destruct (Z.ltb_spec (progress_bound_ms q) b); [naive_solver lia|].
    destruct o as [[]|]; [|naive_solver].
    destruct n as [n|]; cbn [ok_or mbind result_bind]; [|naive_solver].
    destruct (Z.eqb_spec n 0); [naive_solver|].
    destruct (Z.ltb_spec (max_claim_batch_size q) n); naive_solver lia.
  - destruct b, o, n; cbn; naive_solver.
Qed.

Lemma check_recurrence_Ok q :
  check_recurrence q = Ok tt ∧ check_group_size q = Ok tt ↔ recurrence_consistent q.
Proof.
  unfold check_recurrence, check_group_size, recurrence_consistent.
  assert (Hr : (if bool_decide (mode (recurrence q) = Oneshot) && bool_decide (is_Some (until (recurrence q)))
       then Err (invalid_request "recurrence.until is valid only when recurrence.mode=recurring")
       else if bool_decide (mode (recurrence q) = Recurring) && bool_decide (until (recurrence q) = None)
       then Err (invalid_request "recurrence.until is required when recurrence.mode=recurring")
       else Ok tt) = Ok tt ↔ (mode (recurrence q) = Recurring ↔ is_Some (until (recurrence q)))).
  { destruct (recurrence q) as [[] [u|]]; cbn; unfold is_Some; naive_solver. }
  rewrite Hr. destruct (max_eligible_group_size q) as [n|]; [|naive_solver].
  destruct (Z.eqb_spec n 0); [naive_solver|].
  destruct (Z.ltb_spec (max_claim_batch_size q) n); naive_solver lia.
Qed.

Lemma existsb_blank l : existsb blank l = false ↔ Forall (λ f, blank f = false) l.
Proof. induction l as [|a l IH]; cbn; [naive_solver|]. rewrite orb_false_iff, Forall_cons, IH. done. Qed.

(** A loop that inserts every element's name into a set of seen names and fails
    on a name seen before succeeds exactly on distinct unseen names. *)
Lemma try_fold_distinct {E A} (step : gset string → A → result E (gset string))
    (name : A → string) (ok : A → Prop) :
  (∀ seen x seen', step seen x = Ok seen' ↔ ok x ∧ name x ∉ seen ∧ seen' = {[name x]} ∪ seen) →
  ∀ l seen seen', try_fold step seen l = Ok seen' ↔
    Forall ok l ∧ NoDup (name <$> l) ∧ (∀ x, x ∈ l → name x ∉ seen) ∧
    seen' = list_to_set (name <$> l) ∪ seen.
Proof.
  intros Hstep l; induction l as [|a l IH]; intros seen seen'.
  - cbn. rewrite Forall_nil, (left_id_L ∅ (∪)).
    split; [intros [= <-]|by intros (_ & _ & _ & ->)]. split_and!; [done|constructor|set_solver|done].
  - rewrite try_fold_cons, bind_Ok, fmap_cons, NoDup_cons, Forall_cons. setoid_rewrite Hstep.
    setoid_rewrite IH. cbn [list_to_set]. split.
    + intros (s & (Ha & Hn & ->) & Hl & Hd & Hs & ->).
      split_and!; [done..| |done|set_solver|set_solver].
      intros (x & Hx & Hxl)%list_elem_of_fmap. specialize (Hs x Hxl). set_solver.
    + intros ((Ha & Hl) & (Hna & Hd) & Hs & ->). eexists. split; [split_and!; [done|set_solver|done]|].
      split_and!; [done|done| |set_solver].
      intros x Hx. apply not_elem_of_union. split; [|set_solver].
      apply not_elem_of_singleton. intros Heq. apply Hna. rewrite <-Heq. set_solver.
Qed.

Lemma check_secondary_index_Ok seen spec seen' :
  check_secondary_index seen spec = Ok seen' ↔
  secondary_index_ok spec ∧ is_name spec ∉ seen ∧ seen' = {[is_name spec]} ∪ seen.
Proof.
  unfold check_secondary_index, secondary_index_ok. rewrite <-existsb_blank.
  destruct (blank (is_name spec)); [naive_solver|]. case_bool_decide; [naive_solver|].
  destruct (is_fields spec) as [|f fs]; [naive_solver|].
  destruct (existsb blank (f :: fs)); naive_solver.
Qed.

Lemma check_typed_index_Ok seen idx seen' :
  check_typed_index seen idx = Ok seen' ↔
  typed_index_ok idx ∧ qi_name idx ∉ seen ∧ seen' = {[qi_name idx]} ∪ seen.
Proof.
  unfold check_typed_index, typed_index_ok.
  destruct (blank (qi_name idx)); [naive_solver|]. case_bool_decide; [naive_solver|].
  destruct (declaration idx) as [d|c]; [naive_solver|].
  destruct (CompoundIndexDef_fields c) eqn:Hc.
  - split; [done|]. intros ((_ & Hall) & _). by destruct (Hall c).
  - split; [|by intros (_ & _ & ->)]. intros [= <-]. split_and!; [done| |done|done].
    intros c' [= <-]. by rewrite Hc.
Qed.

Lemma check_indexes_Ok q : check_indexes q = Ok tt ↔ indexes_consistent q.
Proof.
  unfold check_indexes, indexes_consistent, MAX_TYPED_INDEXES.
  rewrite bind_Ok. setoid_rewrite (try_fold_distinct _ is_name _ check_secondary_index_Ok).
  assert (Hoverlap : ∀ seen, try_for_each (check_index_overlap seen) (typed_indexes q) = Ok tt ↔
    ∀ x, x ∈ typed_indexes q → qi_name x ∉ seen).
  { intros seen. rewrite try_for_each_Ok, Forall_forall. unfold check_index_overlap.
    split; intros Hall x Hx; specialize (Hall x Hx); revert Hall; case_bool_decide; done. }
  rewrite NoDup_app. split.
  - intros (seen & (Hs & Hd & _ & ->) & Hrest). case_bool_decide; [done|].
    apply bind_Ok in Hrest as (seen2 & Ht & Ho).
    apply (try_fold_distinct _ qi_name _ check_typed_index_Ok) in Ht as (Ht & Hdt & _).
    rewrite Hoverlap in Ho. split_and!; [done..| |done|lia].
    intros n Hn (x & -> & Hx)%list_elem_of_fmap. apply (Ho x Hx). set_solver.
  - intros (Hs & Ht & (Hd & Hno & Hdt) & Hlen). eexists. split; [split_and!; [done..|set_solver|done]|].
    rewrite bool_decide_eq_false_2 by lia. apply bind_Ok. eexists. split.
    { apply (try_fold_distinct _ qi_name _ check_typed_index_Ok). split_and!; [done..|set_solver|done]. }
    apply Hoverlap. intros x Hx. rewrite (right_id_L ∅ (∪)), elem_of_list_to_set.
    intros Hin. apply (Hno _ Hin). set_solver.
Qed.

Lemma resolve_eligibility_Ok policy p e : resolve_eligibility policy p = Ok e ↔ gate_caps policy p e.
Proof.
  unfold resolve_eligibility, gate_caps. destruct p as [b [] k g], e as [b' g' k' r'];
    cbn [ep_gate_keys ep_metadata_blockers max_gate_keys_per_item max_gates_per_request].
  - destruct k, g; cbn; naive_solver.
  - destruct (Z.eqb_spec (default (default_max_gate_keys_per_item policy) k) 0); [naive_solver|].
    destruct (Z.eqb_spec (default (default_max_gates_per_request policy) g) 0); naive_solver.
Qed.

(** ** Properties *)

(** Queue creation accepts exactly the consistent requests, and stores the
    request unchanged except for the resolved gate caps and the cohort policy,
    which is stored only when enabled. *)
Theorem create_queue_validate q policy d :
  validate q policy = Ok d ↔
  bounds_set q ∧ cohort_consistent q ∧ recurrence_consistent q ∧ indexes_consistent q ∧
  ∃ e, gate_caps policy (eligibility_policy q) e ∧ d = define q e.
Proof.
  unfold validate. rewrite <-check_bounds_Ok, <-check_cohort_Ok, <-check_recurrence_Ok, <-check_indexes_Ok.
  setoid_rewrite <-resolve_eligibility_Ok.
  destruct (check_bounds q) as [[]|]; cbn [mbind result_bind]; [|naive_solver].
  destruct (check_cohort q) as [[]|]; cbn [mbind result_bind]; [|naive_solver].
  destruct (check_recurrence q) as [[]|]; cbn [mbind result_bind]; [|naive_solver].
  destruct (check_group_size q) as [[]|]; cbn [mbind result_bind]; [|naive_solver].
  destruct (check_indexes q) as [[]|]; cbn [mbind result_bind]; [|naive_solver].
  destruct (resolve_eligibility policy (eligibility_policy q)); cbn [mbind result_bind]; naive_solver.
Qed.

End specification.
