(* ===== verification/Field.v ===== *)
(** Typed field values of [fireweed-core/src/queue_contract.rs]: values and their
    comparison, predicates, collection definitions, filters and numeric buckets. *)
From S2P Require Import Prelude Identity.

(** ** Errors *)

Inductive QueueError :=
| QInvalid (message : string)
| QTooLarge
| QueueNotFound
| DefinitionConflict
| QRequestConflict
| QRequestExpired
| ClaimExpired
| Busy
| OutcomeUnknown (message : string).

#[export] Instance QueueError_eq_dec : EqDecision QueueError.
Proof. solve_decision. Defined.

Abbreviation QueueResult A := (result QueueError A).

Definition invalid (message : string) : QueueError := QInvalid message.

Definition name (value : string) : QueueResult unit :=
  if blank value then Err (invalid "invalid identifier") else Ok tt.

(** ** Binary64 values

    An [f64] is its 64 bits. The value of a finite one is an integer multiple of
    [2^-1074], kept as that integer. *)

Definition f64_exponent (b : Z) : Z := (b mod 2 ^ 63) / 2 ^ 52.
Definition f64_fraction (b : Z) : Z := b mod 2 ^ 52.
Definition f64_negative (b : Z) : bool := 2 ^ 63 <=? b.
Definition f64_is_finite (b : Z) : bool := negb (f64_exponent b =? 2047).
Definition f64_is_nan (b : Z) : bool := (f64_exponent b =? 2047) && negb (f64_fraction b =? 0).

Definition f64_magnitude (b : Z) : Z :=
  if f64_exponent b =? 0 then f64_fraction b
  else (2 ^ 52 + f64_fraction b) * 2 ^ (f64_exponent b - 1).
Definition f64_value (b : Z) : Z :=
  if f64_negative b then - f64_magnitude b else f64_magnitude b.

(** [==] on [f64]: no NaN equals anything; the zeros are equal; the infinities
    compare by their (out of range) magnitude. *)
Definition f64_eqb (a b : Z) : bool :=
  negb (f64_is_nan a) && negb (f64_is_nan b) && (f64_value a =? f64_value b).

(** ** Field values *)

Inductive FieldValue :=
| FInteger (i : Z)
| FFloat (bits : Z)
| FBoolean (b : bool)
| FText (s : string)
| FBytes (b : bytes).

Inductive FieldType := TInteger | TFloat | TBoolean | TText | TBytes.

#[export] Instance FieldValue_eq_dec : EqDecision FieldValue.
Proof. solve_decision. Defined.
#[export] Instance FieldType_eq_dec : EqDecision FieldType.
Proof. solve_decision. Defined.

Definition field_type (v : FieldValue) : FieldType :=
  match v with
  | FInteger _ => TInteger
  | FFloat _ => TFloat
  | FBoolean _ => TBoolean
  | FText _ => TText
  | FBytes _ => TBytes
  end.

Abbreviation Fields := (gmap string FieldValue).

(** The derived [PartialEq] of [FieldValue] and of [Fields]. *)
Definition field_eqb (a b : FieldValue) : bool :=
  match a, b with
  | FInteger x, FInteger y => x =? y
  | FFloat x, FFloat y => f64_eqb x y
  | FBoolean x, FBoolean y => Bool.eqb x y
  | FText x, FText y => bool_decide (x = y)
  | FBytes x, FBytes y => bool_decide (x = y)
  | _, _ => false
  end.

Definition fields_eqb (a b : Fields) : bool :=
  bool_decide (size a = size b) &&
  forallb (λ e, match b !! e.1 with Some v => field_eqb e.2 v | None => false end) (map_to_list a).

(** [bool::cmp]: [false] is smaller. *)
Definition bool_cmp (a b : bool) : comparison :=
  match a, b with false, true => Lt | true, false => Gt | _, _ => Eq end.

Definition compare_fields (a b : FieldValue) : option comparison :=
  match a, b with
  | FInteger a, FInteger b => Some (a ?= b)
  | FFloat a, FFloat b =>
      if f64_is_finite a && f64_is_finite b then Some (f64_value a ?= f64_value b) else None
  | FBoolean a, FBoolean b => Some (bool_cmp a b)
  | FText a, FText b => Some (bytes_cmp (as_bytes a) (as_bytes b))
  | FBytes a, FBytes b => Some (bytes_cmp a b)
  | _, _ => None
  end.

Definition compare_optional_fields (a b : option FieldValue) : option comparison :=
  match a, b with
  | None, None => Some Eq
  | None, Some _ => Some Lt
  | Some _, None => Some Gt
  | Some a, Some b => compare_fields a b
  end.

(** ** Predicates *)

Inductive Bound := Included (v : FieldValue) | Excluded (v : FieldValue).

Definition bound_value (b : Bound) : FieldValue :=
  match b with Included v | Excluded v => v end.

Inductive Predicate :=
| PEqual (v : FieldValue)
| PIn (vs : list FieldValue)
| PRange (lower upper : option Bound).

Definition is_order (o : option comparison) (c : comparison) : bool := bool_decide (o = Some c).

Definition above (value : FieldValue) (b : Bound) : bool :=
  match b with
  | Included n => is_order (compare_fields value n) Eq || is_order (compare_fields value n) Gt
  | Excluded n => is_order (compare_fields value n) Gt
  end.
Definition below (value : FieldValue) (b : Bound) : bool :=
  match b with
  | Included n => is_order (compare_fields value n) Eq || is_order (compare_fields value n) Lt
  | Excluded n => is_order (compare_fields value n) Lt
  end.

(** [Option::is_none_or]. *)
Definition is_none_or {A} (o : option A) (f : A → bool) : bool :=
  match o with Some a => f a | None => true end.

Definition predicate_matches (p : Predicate) (value : option FieldValue) : bool :=
  match value with
  | None => false
  | Some value =>
      match p with
      | PEqual expected => is_order (compare_fields value expected) Eq
      | PIn values => existsb (λ expected, is_order (compare_fields value expected) Eq) values
      | PRange lower upper => is_none_or lower (above value) && is_none_or upper (below value)
      end
  end.

(** ** Collection definitions *)

Record CollectionDefinition := mkCollectionDefinition {
  cd_fields : gmap string FieldType;
  cd_indexes : gmap string (list string);
  cd_unique_indexes : gset string;
  cd_additional_field_prefixes : gset string;
}.

(** The free function [field]. *)
Definition check_field (value : FieldValue) (expected : FieldType) : QueueResult unit :=
  if negb (bool_decide (field_type value = expected)) then Err (invalid "field type mismatch")
  else match value with
  | FFloat n => if negb (f64_is_finite n) then Err (invalid "float must be finite") else Ok tt
  | _ => Ok tt
  end.

Definition admits_field (d : CollectionDefinition) (key : string) : bool :=
  bool_decide (is_Some (cd_fields d !! key)) ||
  existsb (starts_with key) (btree_elems (cd_additional_field_prefixes d)).

Definition validate_value (d : CollectionDefinition) (key : string) (value : FieldValue)
    : QueueResult unit :=
  _ ← name key;
  match cd_fields d !! key with
  | Some expected => check_field value expected
  | None =>
      if admits_field d key then check_field value (field_type value)
      else Err (invalid "undeclared field")
  end.

(** The free function [fields]. *)
Definition check_fields (values : Fields) (d : CollectionDefinition) : QueueResult unit :=
  try_for_each (λ e, validate_value d e.1 e.2) (btree_list values).

Definition validate_field_predicate (d : CollectionDefinition) (key : string) (p : Predicate)
    : QueueResult unit :=
  _ ← name key;
  if negb (admits_field d key) then Err (invalid "undeclared filter field")
  else match p with
  | PEqual value => validate_value d key value
  | PIn values =>
      match values with
      | [] => Err (invalid "empty membership predicate")
      | _ => try_for_each (validate_value d key) values
      end
  | PRange lower upper =>
      match lower, upper with
      | None, None => Err (invalid "empty range")
      | _, _ =>
          _ ← try_for_each (λ b, validate_value d key (bound_value b))
                (option_list lower ++ option_list upper);
          match lower, upper with
          | Some l, Some u =>
              match compare_fields (bound_value l) (bound_value u) with
              | None | Some Gt => Err (invalid "inverted range")
              | _ => Ok tt
              end
          | _, _ => Ok tt
          end
      end
  end.

Definition validate_predicate := validate_field_predicate.

(** ** Filters *)

Inductive Lifecycle := Pending | Leased | Completed | Failed.
#[export] Instance Lifecycle_eq_dec : EqDecision Lifecycle.
Proof. solve_decision. Defined.

Record Filter := mkFilter {
  f_fields : gmap string Predicate;
  f_keys : option (gset string);
  f_lifecycle : option Lifecycle;
}.

Definition filter_validate (f : Filter) (d : CollectionDefinition) : QueueResult unit :=
  _ ← match f_keys f with
      | Some keys => try_for_each name (btree_elems keys)
      | None => Ok tt
      end;
  try_for_each (λ e, validate_predicate d e.1 e.2) (btree_list (f_fields f)).

(** ** Numeric buckets *)

Record NumericBucket := mkNumericBucket {
  label : string;
  lower_inclusive : FieldValue;
  upper_exclusive : FieldValue;
}.

Record NumericBucketDimension := mkNumericBucketDimension {
  nb_field : string;
  buckets : list NumericBucket;
  missing_label : string;
}.

Definition numeric_type (t : FieldType) : bool :=
  match t with TInteger | TFloat => true | _ => false end.

(** The first loop of [NumericBucketDimension::validate]; the state is [kind]. *)
Definition check_bucket (d : CollectionDefinition) (field : string)
    (kind : option FieldType) (bucket : NumericBucket) : QueueResult (option FieldType) :=
  _ ← name (label bucket);
  let ty := field_type (lower_inclusive bucket) in
  if negb (numeric_type ty) || negb (is_none_or kind (λ k, bool_decide (k = ty))) then
    Err (invalid "numeric bucket type mismatch")
  else
    _ ← validate_value d field (lower_inclusive bucket);
    _ ← validate_value d field (upper_exclusive bucket);
    if negb (is_order (compare_fields (lower_inclusive bucket) (upper_exclusive bucket)) Lt) then
      Err (invalid "invalid numeric bucket interval")
    else Ok (Some ty).

Definition overlapping (a b : NumericBucket) : bool :=
  is_order (compare_fields (lower_inclusive a) (upper_exclusive b)) Lt &&
  is_order (compare_fields (lower_inclusive b) (upper_exclusive a)) Lt.

(** The second loop: every bucket against the ones before it. *)
Fixpoint check_overlap (before : list NumericBucket) (rest : list NumericBucket)
    : QueueResult unit :=
  match rest with
  | [] => Ok tt
  | a :: rest =>
      if existsb (overlapping a) before then Err (invalid "overlapping numeric buckets")
      else check_overlap (before ++ [a]) rest
  end.

Definition buckets_validate (dim : NumericBucketDimension) (d : CollectionDefinition)
    : QueueResult unit :=
  _ ← name (nb_field dim);
  _ ← name (missing_label dim);
  if negb (admits_field d (nb_field dim)) || bool_decide (50 < length (buckets dim))%nat then
    Err (invalid "invalid numeric bucket dimension")
  else
    kind ← try_fold (check_bucket d (nb_field dim)) (cd_fields d !! nb_field dim) (buckets dim);
    _ ← check_overlap [] (buckets dim);
    if negb (is_none_or kind numeric_type) then Err (invalid "non-numeric bucket field") else Ok tt.

(** [Iterator::position]. *)
Fixpoint position {A} (f : A → bool) (l : list A) : option nat :=
  match l with
  | [] => None
  | a :: l => if f a then Some O else S <$> position f l
  end.

Definition in_bucket (value : FieldValue) (bucket : NumericBucket) : bool :=
  match compare_fields value (lower_inclusive bucket) with
  | Some Lt | None => false
  | Some _ => is_order (compare_fields value (upper_exclusive bucket)) Lt
  end.

Definition classify (dim : NumericBucketDimension) (value : option FieldValue) : option nat :=
  match value with
  | None => Some (length (buckets dim))
  | Some value => position (in_bucket value) (buckets dim)
  end.

(** ** Lemmas: comparison is a total order on each type *)

Lemma bool_cmp_antisym a b : bool_cmp b a = CompOpp (bool_cmp a b).
Proof. by destruct a, b. Qed.

Lemma compare_fields_antisym a b : compare_fields b a = CompOpp <$> compare_fields a b.
Proof.
  destruct a as [x|x|x|x|x], b as [y|y|y|y|y]; cbn; try done.
  - by rewrite Z.compare_antisym.
  - rewrite (andb_comm (f64_is_finite y)). destruct (_ && _); cbn; [|done].
    by rewrite Z.compare_antisym.
  - by rewrite bool_cmp_antisym.
  - by rewrite bytes_cmp_antisym.
  - by rewrite bytes_cmp_antisym.
Qed.

Lemma bytes_cmp_Eq_l a b c : bytes_cmp a b = Eq → bytes_cmp b c = bytes_cmp a c.
Proof. by intros ->%bytes_cmp_Eq. Qed.

Lemma compare_fields_lt_le_trans a b c o :
  compare_fields a b = Some Lt → compare_fields b c = Some o → o ≠ Gt → compare_fields a c = Some Lt.
Proof.
  destruct a as [x|x|x|x|x], b as [y|y|y|y|y], c as [z|z|z|z|z]; cbn; try done.
  - intros [= H1] [= <-] H2. rewrite Z.compare_lt_iff in H1. rewrite Z.compare_le_iff in H2.
    f_equal. apply Z.compare_lt_iff. lia.
  - destruct (f64_is_finite x), (f64_is_finite y), (f64_is_finite z); cbn; try done.
    intros [= H1] [= <-] H2. rewrite Z.compare_lt_iff in H1. rewrite Z.compare_le_iff in H2.
    f_equal. apply Z.compare_lt_iff. lia.
  - intros [= ?] [= <-]; destruct x, y, z; done.
  - intros [= Hxy] [= <-] Hz. f_equal. destruct (bytes_cmp (as_bytes y) (as_bytes z)) eqn:E; [| |done].
    + by apply bytes_cmp_Eq in E as <-.
    + by eapply bytes_cmp_Lt_trans.
  - intros [= Hxy] [= <-] Hz. f_equal. destruct (bytes_cmp y z) eqn:E; [| |done].
    + by apply bytes_cmp_Eq in E as <-.
    + by eapply bytes_cmp_Lt_trans.
Qed.

Lemma compare_fields_flip a b o :
  compare_fields a b = Some o → compare_fields b a = Some (CompOpp o).
Proof. intros H. by rewrite compare_fields_antisym, H. Qed.

Lemma compare_fields_le_lt_trans a b c o :
  compare_fields a b = Some o → o ≠ Gt → compare_fields b c = Some Lt → compare_fields a c = Some Lt.
Proof.
  intros Hab Ho Hbc.
  apply compare_fields_flip in Hab. destruct o; [| |done].
  - destruct a as [x|x|x|x|x], b as [y|y|y|y|y], c as [z|z|z|z|z]; cbn in *; try done.
    + injection Hab as Hab%Z.compare_eq_iff. by rewrite <-Hab.
    + destruct (f64_is_finite x), (f64_is_finite y), (f64_is_finite z); cbn in *; try done.
      injection Hab as Hab%Z.compare_eq_iff. by rewrite <-Hab.
    + destruct x, y, z; done.
    + injection Hab as E%bytes_cmp_Eq. by rewrite <-E.
    + injection Hab as E%bytes_cmp_Eq. by rewrite <-E.
  - apply compare_fields_flip in Hab. eapply compare_fields_lt_le_trans; [exact Hab|exact Hbc|done].
Qed.

Lemma is_order_true o c : is_order o c = true ↔ o = Some c.
Proof. apply bool_decide_eq_true. Qed.

Lemma in_bucket_spec v b :
  in_bucket v b = true ↔
  (∃ o, compare_fields v (lower_inclusive b) = Some o ∧ o ≠ Lt) ∧
  compare_fields v (upper_exclusive b) = Some Lt.
Proof.
  unfold in_bucket. destruct (compare_fields v (lower_inclusive b)) as [[]|];
    rewrite ?is_order_true; naive_solver.
Qed.

(** A value lies in two intervals only if they overlap. *)
Lemma in_bucket_overlapping v a b :
  in_bucket v a = true → in_bucket v b = true → overlapping a b = true.
Proof.
  rewrite !in_bucket_spec. intros [(o & Ho & Hne) Hu] [(o' & Ho' & Hne') Hu'].
  apply compare_fields_flip in Ho, Ho'. unfold overlapping. apply andb_true_iff.
  rewrite !is_order_true. split.
  - eapply (compare_fields_le_lt_trans _ v); [exact Ho|by destruct o|exact Hu'].
  - eapply (compare_fields_le_lt_trans _ v); [exact Ho'|by destruct o'|exact Hu].
Qed.

Lemma overlapping_comm a b : overlapping a b = overlapping b a.
Proof. apply andb_comm. Qed.

Lemma check_overlap_Ok before rest :
  check_overlap before rest = Ok tt →
  (∀ a b, a ∈ before → b ∈ rest → overlapping a b = false) ∧
  (∀ i j a b, rest !! i = Some a → rest !! j = Some b → i ≠ j → overlapping a b = false).
Proof.
  revert before; induction rest as [|x rest IH]; intros before H.
  { split; [set_solver|done]. }
  cbn in H. destruct (existsb (overlapping x) before) eqn:Hx; [done|].
  apply IH in H as [Hb Hr].
  assert (Hxb : ∀ a, a ∈ before → overlapping a x = false).
  { intros a Ha. rewrite overlapping_comm. destruct (overlapping x a) eqn:E; [|done].
    rewrite <-Hx. symmetry. apply existsb_exists. exists a. split; [by apply list_elem_of_In|done]. }
  assert (Hxr : ∀ b, b ∈ rest → overlapping x b = false) by (intros; apply Hb; set_solver).
  split.
  - intros a b Ha [->|Hbr]%elem_of_cons; [by apply Hxb|]. apply Hb; set_solver.
  - intros [|i] [|j] a b Hi Hj Hne; cbn in *; simplify_eq.
    + apply Hxr. by eapply list_elem_of_lookup_2.
    + rewrite overlapping_comm. apply Hxr. by eapply list_elem_of_lookup_2.
    + eapply Hr; [exact Hi|exact Hj|congruence].
Qed.

Lemma position_unique {A} (f : A → bool) l i a :
  l !! i = Some a → (f a = true → ∀ j b, l !! j = Some b → f b = true → j = i) →
  position f l = Some i ↔ f a = true.
Proof.
  revert i; induction l as [|x l IH]; intros [|i] Hi Huniq; cbn in *; try done; simplify_eq.
  - destruct (f a) eqn:E; [done|]. destruct (position f l); naive_solver.
  - destruct (f x) eqn:E.
    + split; [done|]. intros Ha. by specialize (Huniq Ha O x eq_refl E).
    + rewrite <-(IH i Hi). 2:{ intros Ha j b Hj Hb. specialize (Huniq Ha (S j) b Hj Hb). congruence. }
      destruct (position f l); naive_solver.
Qed.

Lemma validate_value_type d key v t :
  validate_value d key v = Ok tt → cd_fields d !! key = Some t → field_type v = t.
Proof.
  unfold validate_value, check_field. intros H Ht. res_inv. rewrite Ht in H.
  by case_bool_decide.
Qed.

Lemma compare_fields_type a b o : compare_fields a b = Some o → field_type a = field_type b.
Proof. by destruct a, b. Qed.

(** ** Properties *)

(** Validated buckets are disjoint: a present value is counted in bucket
    [i] exactly when it lies in interval [i], so it is never counted twice and
    the order of the buckets does not matter. *)
Theorem buckets_classify_exact dim d v i b :
  buckets_validate dim d = Ok tt → buckets dim !! i = Some b →
  classify dim (Some v) = Some i ↔ in_bucket v b = true.
Proof.
  intros Hval Hi. unfold buckets_validate in Hval. res_inv.
  match goal with H : check_overlap _ _ = Ok ?u |- _ =>
    destruct u; apply check_overlap_Ok in H as [_ Hdisj] end.
  apply position_unique; [done|]. intros Hb j b' Hj Hb'.
  destruct (decide (j = i)) as [|Hne]; [done|].
  pose proof (in_bucket_overlapping v b' b Hb' Hb) as Ho.
  by rewrite (Hdisj j i b' b Hj Hi Hne) in Ho.
Qed.

Definition sample_definition : CollectionDefinition :=
  mkCollectionDefinition {[ "age"%string := TInteger ]} {[ "by_age"%string := ["age"%string] ]} ∅
    {[ "x/"%string ]}.
Definition sample_bucket (lo hi : Z) : NumericBucket :=
  mkNumericBucket "b" (FInteger lo) (FInteger hi).
Definition sample_buckets : NumericBucketDimension :=
  mkNumericBucketDimension "age" [sample_bucket 10 20; sample_bucket 0 10] "none".

Lemma buckets_classify_exact_witness :
  classify sample_buckets (Some (FInteger 5)) = Some 1%nat.
Proof.
  apply (buckets_classify_exact sample_buckets sample_definition (FInteger 5) 1 (sample_bucket 0 10));
    vm_compute; reflexivity.
Defined.

(** No coercion: a predicate admitted for a declared field matches only
    present values of the declared type. *)
Theorem predicate_no_coercion d key p t v :
  validate_field_predicate d key p = Ok tt → cd_fields d !! key = Some t →
  predicate_matches p v = true → ∃ x, v = Some x ∧ field_type x = t.
Proof.
  intros Hval Ht. destruct v as [x|]; [|done]. intros Hm. exists x. split; [done|].
  unfold validate_field_predicate in Hval. res_inv.
  assert (Hone : ∀ y o, validate_value d key y = Ok tt → compare_fields x y = Some o → field_type x = t).
  { intros y o Hy Hc. rewrite (compare_fields_type _ _ _ Hc). by eapply validate_value_type. }
  destruct p as [y|ys|l u]; cbn [predicate_matches] in Hm.
  - apply is_order_true in Hm. by eapply Hone.
  - destruct ys as [|y0 ys]; [done|]. apply existsb_exists in Hm as (y & Hy & Ho).
    apply is_order_true in Ho. apply try_for_each_Ok in Hval. rewrite Forall_forall in Hval.
    eapply Hone; [apply Hval, list_elem_of_In, Hy|exact Ho].
  - apply andb_true_iff in Hm as [Hl Hu].
    assert (Hb : ∀ b, validate_value d key (bound_value b) = Ok tt →
      above x b = true ∨ below x b = true → field_type x = t).
    { intros [y|y] Hy; cbn; rewrite ?orb_true_iff, !is_order_true; naive_solver. }
    destruct l as [l|], u as [u|]; [| | |done]; cbn [option_list app] in Hval; res_inv;
      match goal with H : try_for_each _ _ = Ok ?u |- _ =>
        destruct u; apply try_for_each_Ok in H; inversion_clear H end; by eauto.
Qed.

Lemma predicate_no_coercion_witness :
  ∃ x, Some (FInteger 7) = Some x ∧ field_type x = TInteger.
Proof.
  apply (predicate_no_coercion sample_definition "age" (PRange (Some (Included (FInteger 3))) None)
    TInteger (Some (FInteger 7))); vm_compute; reflexivity.
Defined.
