(* ===== verification/Records.v ===== *)
(** The record vocabulary of [fireweed-core/src/queue_contract.rs]: addresses,
    schemas, limits, work and state records, patches, updates and their schema
    checks, and the lease predicates of [queue_administration.rs]. *)
From S2P Require Import Prelude Identity Field.

Record QueueAddress := mkQueueAddress { tenant : string; queue : string }.
#[export] Instance QueueAddress_eq_dec : EqDecision QueueAddress.
Proof. solve_decision. Defined.

Definition QueueAddress_validate (a : QueueAddress) : QueueResult unit :=
  _ ← name (tenant a); name (queue a).

Record QueueSchema := mkQueueSchema {
  schema_work : CollectionDefinition;
  schema_state : gmap string CollectionDefinition;
  progress_bound_nanos : Z;
  max_attempts : Z;
}.

(** [work], then the state collections in name order. *)
Definition schema_collections (s : QueueSchema) : list (string * CollectionDefinition) :=
  ("work"%string, schema_work s) :: btree_list (schema_state s).

(** One declared index: its width and its columns, distinct and declared. *)
Definition check_index (d : CollectionDefinition) (e : string * list string) : QueueResult unit :=
  let '(index, columns) := e in
  _ ← name index;
  if starts_with index "$" then Err (invalid "reserved index name")
  else if bool_decide (columns = []) || bool_decide (8 < length columns)%nat then
    Err (invalid "invalid index width")
  else
    _ ← try_fold (λ seen column,
          if negb (bool_decide (is_Some (cd_fields d !! column))) || bool_decide (column ∈ seen)
          then Err (invalid "index needs distinct declared fields")
          else Ok ({[column]} ∪ seen)) (∅ : gset string) columns;
    Ok tt.

(** The body of the loop of [QueueSchema::validate]. *)
Definition check_collection (e : string * CollectionDefinition) : QueueResult unit :=
  let '(collection, d) := e in
  _ ← name collection;
  if existsb (λ key, negb (bool_decide (is_Some (cd_indexes d !! key)))) (btree_elems (cd_unique_indexes d))
  then Err (invalid "unique index must be declared")
  else
    _ ← try_for_each (λ prefix,
          _ ← name prefix;
          if negb (ends_with_byte prefix Byte.x2f)
          then Err (invalid "additional field namespace must end in slash") else Ok tt)
          (btree_elems (cd_additional_field_prefixes d));
    _ ← try_for_each name (btree_keys (cd_fields d));
    try_for_each (check_index d) (btree_list (cd_indexes d)).

Definition QueueSchema_validate (s : QueueSchema) : QueueResult unit :=
  if (progress_bound_nanos s =? 0) || (max_attempts s =? 0) then
    Err (invalid "progress bound must be positive")
  else try_for_each check_collection (schema_collections s).

Record QueueLimits := mkQueueLimits {
  max_records : Z;
  max_groups : Z;
  max_group_bytes : Z;
  max_request_bytes : Z;
  max_response_bytes : Z;
  max_body_bytes : Z;
  max_state_bytes : Z;
}.

Definition QueueLimits_default : QueueLimits := {|
  max_records := 4096;
  max_groups := 64;
  max_group_bytes := Z.shiftl 128 20;
  max_request_bytes := Z.shiftl 256 20;
  max_response_bytes := Z.shiftl 128 20;
  max_body_bytes := Z.shiftl 1 20;
  max_state_bytes := Z.shiftl 64 20;
|}.

Definition QueueLimits_validate (l : QueueLimits) : QueueResult unit :=
  if (max_records l =? 0) || (max_groups l =? 0) || (max_body_bytes l =? 0)
     || (max_state_bytes l =? 0) || (max_response_bytes l =? 0)
     || (max_request_bytes l <? max_group_bytes l)
     || (max_group_bytes l <? max_body_bytes l)
     || (max_group_bytes l <? max_state_bytes l)
  then Err (invalid "inconsistent admission limits") else Ok tt.

(** ** Times *)

Definition timestamp_nanos (value : UtcTimestamp) : QueueResult Z :=
  if 1000000000 <=? nanoseconds value then Err (invalid "invalid nanosecond component")
  else
    let exact := seconds value * 1000000000 + nanoseconds value in
    if (i64_min <=? exact) && (exact <=? i64_max) then Ok exact
    else Err (invalid "timestamp outside signed nanosecond storage interval").

Definition timestamp_from_nanos (value : Z) : UtcTimestamp :=
  mkUtcTimestamp (value / 1000000000) (value mod 1000000000).

(** ** Work and state *)

Record NewWork := mkNewWork {
  nw_key : string;
  nw_priority : Z;
  nw_available_at : Z;
  nw_fields : Fields;
  nw_body : bytes;
}.

Record LeaseCredential := mkLeaseCredential { token : bytes }.

Record WorkRecord := mkWorkRecord {
  work : NewWork;
  version : Z;
  insertion_sequence : Z;
  lifecycle : Lifecycle;
  eligible_since : Z;
  attempts : Z;
  lease_expires_at : option Z;
}.

Record ClaimedWork := mkClaimedWork { cw_record : WorkRecord; cw_lease : LeaseCredential }.

Inductive StateExpect := Absent | Version (v : Z).

Record StateRecord := mkStateRecord {
  sr_collection : string;
  sr_key : string;
  sr_version : Z;
  sr_fields : Fields;
  sr_value : bytes;
}.

Inductive StateChange :=
| Put (fields : Fields) (value : bytes)
| SDelete
| SCheck.

Record StateUpdate := mkStateUpdate {
  su_collection : string;
  su_key : string;
  su_expect : StateExpect;
  su_change : StateChange;
}.

Record WorkPatch := mkWorkPatch {
  p_priority : option Z;
  p_available_at : option Z;
  p_fields : gmap string (option FieldValue);
  p_body : option bytes;
}.

Definition WorkPatch_default : WorkPatch := mkWorkPatch None None ∅ None.

(** [*patch == WorkPatch::default()]. *)
Definition WorkPatch_is_default (p : WorkPatch) : bool :=
  bool_decide (p_priority p = None) && bool_decide (p_available_at p = None) &&
  bool_decide (p_fields p = ∅) && bool_decide (p_body p = None).

Inductive Disposition :=
| Complete
| Fail
| Release
| RetryAt (at_ : Z)
| Retain (renew_nanos : option Z)
| Delete
| Check.
#[export] Instance Disposition_eq_dec : EqDecision Disposition.
Proof. solve_decision. Defined.

Record ClaimedUpdate := mkClaimedUpdate {
  cu_key : string;
  cu_lease : LeaseCredential;
  cu_expected_version : Z;
  cu_patch : WorkPatch;
  cu_disposition : Disposition;
}.

Inductive AdministrativeLifecycle := AKeep | APending | ACompleted | AFailed.
Inductive AdministrativeLeaseGuard := RejectActive | RequireActive | InvalidateActive.
#[export] Instance AdministrativeLifecycle_eq_dec : EqDecision AdministrativeLifecycle.
Proof. solve_decision. Defined.
#[export] Instance AdministrativeLeaseGuard_eq_dec : EqDecision AdministrativeLeaseGuard.
Proof. solve_decision. Defined.

Inductive UnclaimedChange :=
| Patch (p : WorkPatch)
| Administrative (p : WorkPatch) (l : AdministrativeLifecycle) (g : AdministrativeLeaseGuard)
| Replace (w : NewWork)
| UDelete.

Record UnclaimedUpdate := mkUnclaimedUpdate {
  uu_key : string;
  uu_expect : StateExpect;
  uu_change : UnclaimedChange;
}.

Inductive Rejection :=
| StaleLease
| VersionConflict
| AlreadyExists
| NotFound
| RLeased
| RInvalid (message : string)
| UniqueConflict
| Terminal
| TooLarge.
#[export] Instance Rejection_eq_dec : EqDecision Rejection.
Proof. solve_decision. Defined.

(** [rv_collection]: [None] is work, [Some] is state. *)
Record RecordVersion := mkRecordVersion {
  rv_collection : option string;
  rv_key : string;
  rv_version : Z;
}.
#[export] Instance RecordVersion_eq_dec : EqDecision RecordVersion.
Proof. solve_decision. Defined.

(** ** Leases *)

Definition lease_active (record : WorkRecord) (evaluated_at : Z) : bool :=
  bool_decide (lifecycle record = Leased) &&
  match lease_expires_at record with
  | Some expiry => evaluated_at <? expiry
  | None => false
  end.

Definition effective_lifecycle (record : WorkRecord) (evaluated_at : Z) : Lifecycle :=
  if bool_decide (lifecycle record = Leased) && negb (lease_active record evaluated_at)
  then Pending else lifecycle record.

(** ** Schema checks of records, patches and expectations *)

Definition byte_len (b : bytes) : Z := Z.of_nat (length b).

(** The free function [work]. *)
Definition check_work (item : NewWork) (schema : QueueSchema) (limits : QueueLimits) : QueueResult unit :=
  _ ← name (nw_key item);
  _ ← check_fields (nw_fields item) (schema_work schema);
  if max_body_bytes limits <? byte_len (nw_body item) then Err QTooLarge else Ok tt.

(** The free function [patch]. *)
Definition check_patch (value : WorkPatch) (schema : QueueSchema) (limits : QueueLimits)
    : QueueResult unit :=
  _ ← try_for_each (λ e,
        _ ← name e.1;
        if negb (admits_field (schema_work schema) e.1) then Err (invalid "undeclared patch field")
        else match e.2 with
        | Some v => validate_value (schema_work schema) e.1 v
        | None => Ok tt
        end) (btree_list (p_fields value));
  if negb (is_none_or (p_body value) (λ b, byte_len b <=? max_body_bytes limits))
  then Err QTooLarge else Ok tt.

Definition expect (value : StateExpect) : QueueResult unit :=
  match value with
  | Version v => if v =? 0 then Err (invalid "record versions start at one") else Ok tt
  | Absent => Ok tt
  end.

Definition lease_duration (value : Z) : QueueResult unit :=
  if negb ((1000000 <=? value) && (value <=? 3600000000000))
  then Err (invalid "lease outside 1ms to 1h") else Ok tt.

(** ** Claim requests *)

Inductive ClaimOrder := PriorityAscending | PriorityDescending | ScheduledAscending.
#[export] Instance ClaimOrder_eq_dec : EqDecision ClaimOrder.
Proof. solve_decision. Defined.

Record ClaimRequest := mkClaimRequest {
  cr_queue : QueueAddress;
  cr_request_id : string;
  cr_filter : Filter;
  cr_order : ClaimOrder;
  cr_eligible_at : Z;
  cr_lease_nanos : Z;
  cr_max_records : Z;
  cr_max_bytes : Z;
  cr_fields : option (gset string);
  cr_include_body : bool;
}.

Definition matches_claim (record : WorkRecord) (request : ClaimRequest) : bool :=
  bool_decide (lifecycle record = Pending) &&
  (nw_available_at (work record) <=? cr_eligible_at request) &&
  is_none_or (f_keys (cr_filter request)) (λ keys, bool_decide (nw_key (work record) ∈ keys)) &&
  forallb (λ e, predicate_matches e.2 (nw_fields (work record) !! e.1))
    (btree_list (f_fields (cr_filter request))).

(** ** Lemmas *)

Lemma timestamp_nanos_Ok t n :
  timestamp_nanos t = Ok n ↔
  nanoseconds t < 1000000000 ∧ n = seconds t * 1000000000 + nanoseconds t ∧ is_i64 n.
Proof.
  unfold timestamp_nanos. destruct (Z.leb_spec 1000000000 (nanoseconds t)).
  { split; [done|]. lia. }
  unfold is_i64.
  destruct (Z.leb_spec i64_min (seconds t * 1000000000 + nanoseconds t)),
    (Z.leb_spec (seconds t * 1000000000 + nanoseconds t) i64_max); cbn; naive_solver lia.
Qed.

Lemma lease_active_leased r t : lease_active r t = true → lifecycle r = Leased.
Proof. unfold lease_active. intros [H _]%andb_true_iff. by apply bool_decide_eq_true in H. Qed.

Lemma lease_duration_Ok n : lease_duration n = Ok tt ↔ 1000000 ≤ n ≤ 3600000000000.
Proof.
  unfold lease_duration.
  destruct (Z.leb_spec 1000000 n), (Z.leb_spec n 3600000000000); cbn; naive_solver lia.
Qed.

(** ** Properties *)

(** Storage times are exact: every signed nanosecond count is the image of
    exactly one timestamp, the conversion preserves the order of timestamps, and
    the only failures are an invalid nanosecond component or a time outside the
    interval. *)
Theorem timestamp_nanos_exact n t u m :
  is_i64 n → timestamp_ok t → timestamp_ok u →
  timestamp_nanos (timestamp_from_nanos n) = Ok n ∧
  (timestamp_nanos t = Ok n ↔ t = timestamp_from_nanos n) ∧
  (timestamp_nanos t = Ok n → timestamp_nanos u = Ok m → cmp_timestamp t u = (n ?= m)).
Proof.
  intros Hn [Hts Htn] [Hus Hun]. split_and!.
  - apply timestamp_nanos_Ok. cbn. split_and!; [div_lia|div_lia|done].
  - rewrite timestamp_nanos_Ok. destruct t as [s ns]; cbn in *. split.
    + intros (Hlt & -> & _). unfold timestamp_from_nanos. f_equal; div_lia.
    + intros [= -> ->]. split_and!; [div_lia|div_lia|done].
  - rewrite !timestamp_nanos_Ok. intros (? & -> & _) (? & -> & _).
    unfold cmp_timestamp, is_u32 in *.
    destruct (Z.compare_spec (seconds t) (seconds u)) as [->|L|G]; cbn [then_cmp].
    + symmetry. apply Z.add_compare_mono_l.
    + symmetry. apply Z.compare_lt_iff. lia.
    + symmetry. apply Z.compare_gt_iff. lia.
Qed.

Lemma timestamp_nanos_exact_witness :
  timestamp_nanos (timestamp_from_nanos (-1)) = Ok (-1).
Proof.
  apply (timestamp_nanos_exact (-1) (mkUtcTimestamp 0 0) (mkUtcTimestamp 1 0) 0);
    [|split; cbn|split; cbn]; int_lia.
Defined.
