(* ===== verification/Selector.v ===== *)
(** Work selectors of [fireweed-core/src/queue_administration.rs]: flat postfix
    programs, the stack evaluator, and the tree semantics it implements. *)
From S2P Require Import Prelude Identity Field Records.

Definition MAX_SELECTOR_DEPTH : nat := 64.

Inductive Comparison := CEqual | Before | BeforeOrEqual | After | AfterOrEqual.

(** [Comparison::matches] at the integer types it is used with. *)
Definition comparison_matches (c : Comparison) (actual expected : Z) : bool :=
  match c, actual ?= expected with
  | CEqual, Eq => true
  | Before, Lt => true
  | BeforeOrEqual, (Lt | Eq) => true
  | After, Gt => true
  | AfterOrEqual, (Gt | Eq) => true
  | _, _ => false
  end.

Inductive SelectorNode :=
| All (arity : Z)
| Any (arity : Z)
| Not
| SField (name : string) (predicate : Predicate)
| Present (name : string) (present : bool)
| Keys (keys : gset string)
| StoredLifecycleIn (states : list Lifecycle)
| EffectiveLifecycleIn (states : list Lifecycle)
| Attempts (comparison : Comparison) (value : Z)
| AvailableAt (comparison : Comparison) (value : Z)
| LeaseActive (expected : bool).

(** [WorkSelector]: its [nodes]. *)
Abbreviation WorkSelector := (list SelectorNode).

Definition selector_leaf (node : SelectorNode) : WorkSelector := [node].
Definition selector_fold (children : list WorkSelector) (all : bool) : WorkSelector :=
  let arity := Z.of_nat (length children) in
  concat children ++ [if all then All arity else Any arity].
Definition selector_all (children : list WorkSelector) : WorkSelector := selector_fold children true.
Definition selector_any (children : list WorkSelector) : WorkSelector := selector_fold children false.
Definition selector_negate (child : WorkSelector) : WorkSelector := child ++ [Not].

(** ** The evaluator *)

Definition node_arity (node : SelectorNode) : Z :=
  match node with All n | Any n => n | Not => 1 | _ => 0 end.

(** One step of the scalar admission loop over [operands : usize]. *)
Definition admit_node (operands : Z) (node : SelectorNode) : QueueResult Z :=
  if operands <? node_arity node then Err (invalid "invalid selector operand arity")
  else ok_or (checked_add_u64 (operands - node_arity node) 1)
         (invalid "invalid selector operand arity").

Record Frame := mkFrame {
  remaining : Z;
  fr_all : bool;
  fr_negate : bool;
  fr_value : bool;
}.

Definition operator_frame (node : SelectorNode) : option Frame :=
  match node with
  | All n => Some (mkFrame n true false true)
  | Any n => Some (mkFrame n false false false)
  | Not => Some (mkFrame 1 true true true)
  | _ => None
  end.

(** The inner loop: hand a finished operand to the innermost frame, close the
    frames it completes. The occupied part of the frame array is a list, the
    innermost frame first; with no frame left the operand is the result. *)
Fixpoint settle (frames : list Frame) (result value : bool) : list Frame * bool :=
  match frames with
  | [] => ([], value)
  | frame :: frames =>
      let folded := if fr_all frame then fr_value frame && value else fr_value frame || value in
      let left := remaining frame - 1 in
      if negb (left =? 0) then
        (mkFrame left (fr_all frame) (fr_negate frame) folded :: frames, result)
      else settle frames result (if fr_negate frame then negb folded else folded)
  end.

(** One iteration of the loop over the reversed program. *)
Definition eval_node (leaf : SelectorNode → bool) (s : list Frame * bool) (node : SelectorNode)
    : QueueResult (list Frame * bool) :=
  let '(frames, result) := s in
  if bool_decide (MAX_SELECTOR_DEPTH ≤ length frames)%nat then
    Err (invalid "selector nesting exceeds common limit")
  else match operator_frame node with
  | Some frame =>
      if negb (remaining frame =? 0) then Ok (frame :: frames, result)
      else Ok (settle frames result (fr_value frame))
  | None => Ok (settle frames result (leaf node))
  end.

Definition evaluate (leaf : SelectorNode → bool) (nodes : WorkSelector) : QueueResult bool :=
  operands ← try_fold admit_node 0 nodes;
  if negb (operands =? 1) then Err (invalid "selector must have exactly one root")
  else
    s ← try_fold (eval_node leaf) ([], false) (rev nodes);
    if negb (bool_decide (s.1 = [])) then Err (invalid "incomplete selector tree") else Ok s.2.

(** ** Validation and matching *)

Definition validate_node (d : CollectionDefinition) (node : SelectorNode) : QueueResult unit :=
  match node with
  | SField name predicate => validate_field_predicate d name predicate
  | Present field _ =>
      _ ← name field;
      if negb (admits_field d field) then Err (invalid "undeclared selector field") else Ok tt
  | Keys keys => try_for_each name (btree_elems keys)
  | _ => Ok tt
  end.

Definition selector_validate (s : WorkSelector) (d : CollectionDefinition) : QueueResult unit :=
  _ ← evaluate (λ _, false) s;
  try_for_each (validate_node d) s.

Definition leaf_matches (record : WorkRecord) (evaluated_at : Z) (node : SelectorNode) : bool :=
  match node with
  | SField name predicate => predicate_matches predicate (nw_fields (work record) !! name)
  | Present name present =>
      Bool.eqb (bool_decide (is_Some (nw_fields (work record) !! name))) present
  | Keys keys => bool_decide (nw_key (work record) ∈ keys)
  | StoredLifecycleIn states => bool_decide (lifecycle record ∈ states)
  | EffectiveLifecycleIn states => bool_decide (effective_lifecycle record evaluated_at ∈ states)
  | Attempts comparison value => comparison_matches comparison (attempts record) value
  | AvailableAt comparison value =>
      comparison_matches comparison (nw_available_at (work record)) value
  | LeaseActive expected => Bool.eqb (lease_active record evaluated_at) expected
  | All _ | Any _ | Not => false
  end.

Definition selector_matches (s : WorkSelector) (record : WorkRecord) (evaluated_at : Z) : bool :=
  match evaluate (leaf_matches record evaluated_at) s with Ok b => b | Err _ => false end.

(** ** Tree semantics *)

Inductive selector_tree :=
| TLeaf (node : SelectorNode)
| TAll (children : list selector_tree)
| TAny (children : list selector_tree)
| TNot (child : selector_tree).

Definition is_operator (node : SelectorNode) : bool :=
  match node with All _ | Any _ | Not => true | _ => false end.

(** Leaves hold no operators. *)
Fixpoint tree_ok (t : selector_tree) : bool :=
  match t with
  | TLeaf node => negb (is_operator node)
  | TAll cs | TAny cs => forallb tree_ok cs
  | TNot c => tree_ok c
  end.

Fixpoint postfix (t : selector_tree) : WorkSelector :=
  match t with
  | TLeaf node => [node]
  | TAll cs => concat (map postfix cs) ++ [All (Z.of_nat (length cs))]
  | TAny cs => concat (map postfix cs) ++ [Any (Z.of_nat (length cs))]
  | TNot c => postfix c ++ [Not]
  end.

Fixpoint denote (leaf : SelectorNode → bool) (t : selector_tree) : bool :=
  match t with
  | TLeaf node => leaf node
  | TAll cs => forallb (denote leaf) cs
  | TAny cs => existsb (denote leaf) cs
  | TNot c => negb (denote leaf c)
  end.

Fixpoint height (t : selector_tree) : nat :=
  match t with
  | TLeaf _ => 1
  | TAll cs | TAny cs => S (max_list (map height cs))
  | TNot c => S (height c)
  end.

(** ** Lemmas *)

(** Induction through the lists of children. *)
Lemma selector_tree_deep_ind (P : selector_tree → Prop)
    (HL : ∀ n, P (TLeaf n)) (HA : ∀ cs, Forall P cs → P (TAll cs))
    (HO : ∀ cs, Forall P cs → P (TAny cs)) (HN : ∀ c, P c → P (TNot c)) :
  ∀ t, P t.
Proof.
  fix IH 1. intros [n|cs|cs|c].
  - apply HL.
  - apply HA. induction cs; constructor; [apply IH|done].
  - apply HO. induction cs; constructor; [apply IH|done].
  - apply HN, IH.
Qed.

Lemma rev_concat_postfix cs :
  rev (concat (map postfix cs)) = concat (map (λ t, rev (postfix t)) (rev cs)).
Proof.
  induction cs as [|c cs IH]; cbn; [done|].
  rewrite rev_app_distr, map_app, concat_app, IH. cbn. by rewrite app_nil_r.
Qed.

Lemma forallb_rev {A} (f : A → bool) l : forallb f (rev l) = forallb f l.
Proof.
  induction l as [|a l IH]; cbn; [done|].
  rewrite forallb_app, IH. cbn. by rewrite andb_true_r, andb_comm.
Qed.

Lemma existsb_rev {A} (f : A → bool) l : existsb f (rev l) = existsb f l.
Proof.
  induction l as [|a l IH]; cbn; [done|].
  rewrite existsb_app, IH. cbn. by rewrite orb_false_r, orb_comm.
Qed.

(** What a frame makes of its operands. *)
Definition frame_fold (f : Frame) (vs : list bool) : bool :=
  if fr_all f then fr_value f && forallb id vs else fr_value f || existsb id vs.
Definition frame_close (f : Frame) (vs : list bool) : bool :=
  if fr_negate f then negb (frame_fold f vs) else frame_fold f vs.

(** Room for a tree below [n] open frames. *)
Definition fits (n : nat) (t : selector_tree) : bool := bool_decide (n + height t ≤ MAX_SELECTOR_DEPTH)%nat.

Section run.
Context (leaf : SelectorNode → bool).

Definition run := try_fold (eval_node leaf).

Lemma run_app s l k : run s (l ++ k) = s' ← run s l; run s' k.
Proof. apply try_fold_app. Qed.

(** The contract of a subtree: it hands its value to the innermost frame. *)
Definition runs_tree (t : selector_tree) : Prop :=
  ∀ fs res, run (fs, res) (rev (postfix t)) =
    if fits (length fs) t then Ok (settle fs res (denote leaf t))
    else Err (invalid "selector nesting exceeds common limit").

Lemma run_children f fs res ts :
  Forall runs_tree ts → ts ≠ [] → remaining f = Z.of_nat (length ts) →
  run (f :: fs, res) (concat (map (λ t, rev (postfix t)) ts)) =
    if forallb (fits (S (length fs))) ts
    then Ok (settle fs res (frame_close f (map (denote leaf) ts)))
    else Err (invalid "selector nesting exceeds common limit").
Proof.
  intros Hts. revert f. induction Hts as [|t ts Ht Hts IH]; intros f Hne Hrem; [done|].
  cbn [map concat forallb]. rewrite run_app, Ht. cbn [length].
  destruct (fits (S (length fs)) t); cbn [andb]; [|done]. cbn [mbind result_bind].
  destruct ts as [|t' ts].
  - cbn [map concat forallb settle]. rewrite Hrem. cbn [length Z.of_nat Z.sub Z.eqb negb].
    unfold run. cbn [try_fold]. unfold frame_close, frame_fold. cbn [map forallb existsb].
    by rewrite andb_true_r, orb_false_r.
  - cbn [settle]. rewrite Hrem.
    rewrite (proj2 (Z.eqb_neq _ 0)) by (cbn [length]; lia). cbn [negb].
    rewrite IH; [|done|cbn; lia].
    destruct (forallb (fits (S (length fs))) (t' :: ts)); [|done].
    do 2 f_equal. unfold frame_close, frame_fold. cbn [fr_negate fr_all fr_value map forallb existsb].
    destruct (fr_all f); rewrite ?andb_assoc, ?orb_assoc; done.
Qed.

(** An operator over its children. *)
Lemma run_operator node f cs fs res t :
  operator_frame node = Some f → remaining f = Z.of_nat (length cs) → Forall runs_tree cs →
  (length fs + S (max_list (map height cs)) = length fs + height t)%nat →
  denote leaf t = frame_close f (map (denote leaf) (rev cs)) →
  (cs = [] → fr_value f = denote leaf t) →
  run (fs, res) (node :: concat (map (λ t, rev (postfix t)) (rev cs))) =
    if fits (length fs) t then Ok (settle fs res (denote leaf t))
    else Err (invalid "selector nesting exceeds common limit").
Proof.
  intros Hop Hrem Hcs Hheight Hden Hnil. unfold run. rewrite try_fold_cons. cbn [eval_node].
  unfold fits. rewrite <-Hheight, Hop.
  case_bool_decide as Hdepth; cbn [mbind result_bind].
  { rewrite bool_decide_eq_false_2; [done|]. lia. }
  destruct cs as [|c cs'] eqn:Ecs.
  { rewrite Hrem. cbn [length Z.of_nat Z.eqb negb mbind result_bind rev map concat try_fold].
    rewrite bool_decide_eq_true_2 by (cbn; lia). by rewrite Hnil. }
  rewrite <-Ecs in *. rewrite (proj2 (Z.eqb_neq (remaining f) 0)) by (rewrite Hrem, Ecs; cbn; lia).
  cbn [negb mbind result_bind]. fold run. rewrite run_children.
  2:{ by apply Forall_rev. } 2:{ rewrite Ecs. cbn. by destruct (rev cs'). } 2:{ by rewrite length_rev. }
  rewrite forallb_rev, <-Hden.
  replace (forallb (fits (S (length fs))) cs)
    with (bool_decide (length fs + S (max_list (map height cs)) ≤ MAX_SELECTOR_DEPTH)%nat); [done|].
  clear -Hdepth. apply eq_true_iff_eq. rewrite bool_decide_eq_true, forallb_forall.
  unfold fits. setoid_rewrite bool_decide_eq_true. induction cs as [|c cs IH]; cbn.
  - split; [done|]. intros _. lia.
  - split.
    + intros H x [<-|Hx]; [lia|]. apply IH; [lia|done].
    + intros H. pose proof (H c (or_introl eq_refl)).
      destruct IH as [_ IH]. specialize (IH ltac:(intros; apply H; by right)). lia.
Qed.

Lemma forallb_id_map {A} (g : A → bool) l : forallb id (map g l) = forallb g l.
Proof. induction l as [|a l IH]; cbn; [done|]. by rewrite IH. Qed.
Lemma existsb_id_map {A} (g : A → bool) l : existsb id (map g l) = existsb g l.
Proof. induction l as [|a l IH]; cbn; [done|]. by rewrite IH. Qed.

Lemma run_tree t : tree_ok t = true → runs_tree t.
Proof.
  induction t as [n|cs IH|cs IH|c IH] using selector_tree_deep_ind; cbn [tree_ok]; intros Hok fs res.
  - unfold run, fits. cbn [postfix rev app try_fold eval_node height denote].
    assert (Hop : operator_frame n = None) by (by destruct n). rewrite Hop.
    case_bool_decide as Hd; cbn [mbind result_bind].
    + by rewrite bool_decide_eq_false_2 by lia.
    + by rewrite bool_decide_eq_true_2 by lia.
  - cbn [postfix]. rewrite rev_app_distr, rev_concat_postfix. cbn [rev app].
    eapply run_operator; [done|done| |done|..].
    + rewrite forallb_forall in Hok. apply Forall_forall. intros x Hx.
      rewrite Forall_forall in IH. apply IH; [done|]. by apply Hok, list_elem_of_In.
    + unfold frame_close, frame_fold. cbn [fr_negate fr_all fr_value denote].
      by rewrite forallb_id_map, forallb_rev.
    + by intros ->.
  - cbn [postfix]. rewrite rev_app_distr, rev_concat_postfix. cbn [rev app].
    eapply run_operator; [done|done| |done|..].
    + rewrite forallb_forall in Hok. apply Forall_forall. intros x Hx.
      rewrite Forall_forall in IH. apply IH; [done|]. by apply Hok, list_elem_of_In.
    + unfold frame_close, frame_fold. cbn [fr_negate fr_all fr_value denote].
      by rewrite existsb_id_map, existsb_rev.
    + by intros ->.
  - cbn [postfix]. rewrite rev_app_distr. cbn [rev app].
    replace (rev (postfix c)) with (concat (map (λ t, rev (postfix t)) (rev [c]))) by
      (cbn; apply app_nil_r).
    eapply run_operator; [done|done| | | |done].
    + constructor; [by apply IH|constructor].
    + cbn. lia.
    + unfold frame_close, frame_fold. cbn. by rewrite andb_true_r.
Qed.

End run.

(** Admission adds one operand per tree. *)
Lemma admit_forest ts k :
  Forall (λ t, ∀ k, 0 ≤ k → k + Z.of_nat (length (postfix t)) ≤ u64_max →
    try_fold admit_node k (postfix t) = Ok (k + 1)) ts →
  0 ≤ k → k + Z.of_nat (length (concat (map postfix ts))) ≤ u64_max →
  try_fold admit_node k (concat (map postfix ts)) = Ok (k + Z.of_nat (length ts)) ∧
  (length ts ≤ length (concat (map postfix ts)))%nat.
Proof.
  intros Hts. revert k. induction Hts as [|t ts Ht Hts IH]; intros k Hk Hlen; cbn [map concat] in *.
  { cbn. by rewrite Z.add_0_r. }
  rewrite length_app in *. rewrite try_fold_app, Ht by lia. cbn [mbind result_bind].
  assert (Hpos : (1 ≤ length (postfix t))%nat) by (destruct t; cbn; rewrite ?length_app; cbn; lia).
  destruct (IH (k + 1)) as [-> Hl]; [lia|lia|]. cbn [length]. split; [f_equal; lia|lia].
Qed.

Lemma admit_operator k n node :
  node_arity node = n → 0 ≤ k → k + 1 ≤ u64_max → admit_node (k + n) node = Ok (k + 1).
Proof.
  intros <- Hk Hmax. unfold admit_node. rewrite (proj2 (Z.ltb_ge _ _)) by lia.
  replace (k + node_arity node - node_arity node) with k by lia.
  unfold checked_add_u64. by rewrite (proj2 (Z.leb_le _ _)).
Qed.

Lemma admit_tree t k :
  tree_ok t = true → 0 ≤ k → k + Z.of_nat (length (postfix t)) ≤ u64_max →
  try_fold admit_node k (postfix t) = Ok (k + 1).
Proof.
  revert k. induction t as [n|cs IH|cs IH|c IH] using selector_tree_deep_ind;
    cbn [tree_ok postfix]; intros k Hok Hk Hlen.
  - cbn [try_fold]. assert (node_arity n = 0) as Ha by (by destruct n).
    cbn in Hlen. pose proof (admit_operator k 0 n Ha Hk ltac:(lia)) as E.
    rewrite Z.add_0_r in E. by rewrite E.
  - rewrite length_app in Hlen. cbn [length] in Hlen. rewrite try_fold_app.
    destruct (admit_forest cs k) as [-> _]; [|lia|lia|].
    { rewrite forallb_forall in Hok. rewrite Forall_forall in IH. apply Forall_forall.
      intros x Hx j. apply IH; [done|]. by apply Hok, list_elem_of_In. }
    cbn [mbind result_bind try_fold]. rewrite admit_operator by (done || lia). done.
  - rewrite length_app in Hlen. cbn [length] in Hlen. rewrite try_fold_app.
    destruct (admit_forest cs k) as [-> _]; [|lia|lia|].
    { rewrite forallb_forall in Hok. rewrite Forall_forall in IH. apply Forall_forall.
      intros x Hx j. apply IH; [done|]. by apply Hok, list_elem_of_In. }
    cbn [mbind result_bind try_fold]. rewrite admit_operator by (done || lia). done.
  - rewrite length_app in Hlen. cbn [length] in Hlen. rewrite try_fold_app, IH by (done || lia).
    cbn [mbind result_bind try_fold]. rewrite admit_operator by (done || lia). done.
Qed.

(** An admitted program is a forest of as many trees as operands. *)
Lemma admit_trees nodes n :
  Forall (λ x, 0 ≤ node_arity x) nodes → try_fold admit_node 0 nodes = Ok n →
  ∃ ts, nodes = concat (map postfix ts) ∧ forallb tree_ok ts = true ∧ n = Z.of_nat (length ts).
Proof.
  revert n. induction nodes as [|x nodes IH] using rev_ind; intros n Ha H.
  { injection H as <-. by exists []. }
  apply Forall_app in Ha as [Ha Hx]. rewrite Forall_singleton in Hx.
  rewrite try_fold_app in H. apply bind_Ok in H as (k & Hk & H).
  destruct (IH k Ha Hk) as (ts & -> & Hok & ->). cbn [try_fold] in H.
  apply bind_Ok in H as (n' & H & [= ->]). unfold admit_node in H.
  destruct (Z.ltb_spec (Z.of_nat (length ts)) (node_arity x)); [done|].
  apply ok_or_Ok, checked_add_u64_Some in H as [-> _].
  set (m := (length ts - Z.to_nat (node_arity x))%nat).
  rewrite <-(take_drop m ts) in Hok |- *. rewrite forallb_app in Hok.
  apply andb_true_iff in Hok as [Hok1 Hok2].
  assert (Hlt : length (take m ts) = m) by (rewrite length_take; lia).
  assert (Hld : Z.of_nat (length (drop m ts)) = node_arity x) by (rewrite length_drop; unfold m; lia).
  assert (Hn : ∃ t, tree_ok t = true ∧ postfix t = concat (map postfix (drop m ts)) ++ [x]).
  { destruct (is_operator x) eqn:Hop.
    - destruct x; try done; cbn [node_arity] in Hld.
      + exists (TAll (drop m ts)). cbn. by rewrite Hld.
      + exists (TAny (drop m ts)). cbn. by rewrite Hld.
      + destruct (drop m ts) as [|c [|]]; cbn in Hld; try lia.
        exists (TNot c). cbn in *. by rewrite app_nil_r, andb_true_r in *.
    - exists (TLeaf x). cbn. rewrite Hop. split; [done|].
      assert (node_arity x = 0) as Hz by (by destruct x). rewrite Hz in Hld.
      destruct (drop m ts); [done|cbn in Hld; lia]. }
  destruct Hn as (t & Ht & Hp). exists (take m ts ++ [t]). split_and!.
  - rewrite !map_app, !concat_app. cbn. by rewrite Hp, app_nil_r, app_assoc.
  - rewrite forallb_app, Hok1. cbn. by rewrite Ht.
  - rewrite !length_app, Hlt. cbn. lia.
Qed.

(** The program of an admissible tree evaluates to the tree's value, or fails on
    its depth. *)
Lemma evaluate_postfix leaf t :
  tree_ok t = true → Z.of_nat (length (postfix t)) ≤ u64_max →
  evaluate leaf (postfix t) =
    if bool_decide (height t ≤ MAX_SELECTOR_DEPTH)%nat then Ok (denote leaf t)
    else Err (invalid "selector nesting exceeds common limit").
Proof.
  intros Hok Hlen. unfold evaluate. rewrite admit_tree by (done || lia). cbn [mbind result_bind].
  change (negb (0 + 1 =? 1)) with false. cbn [negb].
  pose proof (run_tree leaf t Hok [] false) as Hrun. unfold run, fits in Hrun. cbn [length] in Hrun.
  rewrite Hrun. by destruct (bool_decide _).
Qed.

(** ** Properties *)

(** The flat evaluator implements the tree semantics: a program evaluates
    to [b] exactly when it is the postfix form of a tree of height at most 64
    whose boolean value is [b]; every other program is refused. *)
Theorem selector_evaluate_tree leaf nodes b :
  Forall (λ x, 0 ≤ node_arity x) nodes → Z.of_nat (length nodes) ≤ u64_max →
  evaluate leaf nodes = Ok b ↔
  ∃ t, tree_ok t = true ∧ nodes = postfix t ∧ (height t ≤ 64)%nat ∧ denote leaf t = b.
Proof.
  intros Ha Hlen. split.
  - intros H. pose proof H as Heval. unfold evaluate in H. apply bind_Ok in H as (n & Hn & H).
    destruct (Z.eqb_spec n 1) as [->|]; [|done]. clear H.
    destruct (admit_trees nodes 1 Ha Hn) as ([|t [|]] & -> & Hok & Hl); cbn in Hl; try lia.
    cbn [map concat forallb] in *. rewrite app_nil_r in *. rewrite andb_true_r in Hok. exists t.
    rewrite evaluate_postfix in Heval by done. case_bool_decide; [|done].
    split_and!; [done|done|done|]. by injection Heval.
  - intros (t & Hok & -> & Hh & <-). rewrite evaluate_postfix by done.
    by rewrite bool_decide_eq_true_2.
Qed.

Definition sample_selector : WorkSelector :=
  [Keys {[ "k"%string ]}; LeaseActive true; Not; All 2].

Lemma selector_evaluate_tree_witness :
  ∃ t, tree_ok t = true ∧ sample_selector = postfix t ∧ (height t ≤ 64)%nat ∧
    denote (λ n, match n with Keys _ => true | _ => false end) t = true.
Proof.
  apply (selector_evaluate_tree (λ n, match n with Keys _ => true | _ => false end) sample_selector true).
  - repeat constructor; vm_compute; discriminate.
  - vm_compute. discriminate.
  - reflexivity.
Defined.

(** Selectors built with [all], [any] and [negate] mean what they say: when
    the parts evaluate, so does the whole as long as it stays within the depth
    limit, and its value is the conjunction, disjunction or negation of theirs.
    A selector of shallow parts is never refused. *)
Theorem selector_builders leaf (ts : list selector_tree) t :
  forallb tree_ok (t :: ts) = true →
  Z.of_nat (length (selector_all (map postfix ts))) ≤ u64_max →
  Z.of_nat (length (selector_negate (postfix t))) ≤ u64_max →
  Forall (λ t, (height t < 64)%nat) (t :: ts) →
  evaluate leaf (selector_all (map postfix ts)) = Ok (forallb (denote leaf) ts) ∧
  evaluate leaf (selector_any (map postfix ts)) = Ok (existsb (denote leaf) ts) ∧
  evaluate leaf (selector_negate (postfix t)) = Ok (negb (denote leaf t)).
Proof.
  cbn [forallb]. rewrite andb_true_iff. intros [Ht Hts] Hl1 Hl2 Hh.
  apply Forall_cons in Hh as [Hht Hhts].
  assert (Hmax : (S (max_list (map height ts)) ≤ MAX_SELECTOR_DEPTH)%nat).
  { unfold MAX_SELECTOR_DEPTH. clear -Hhts. induction Hhts; cbn; lia. }
  assert (Hfold : ∀ all, selector_fold (map postfix ts) all = postfix (if all then TAll ts else TAny ts)).
  { intros []; unfold selector_fold; cbn; by rewrite length_map. }
  unfold selector_all, selector_any in *. rewrite !Hfold in *.
  change (selector_negate (postfix t)) with (postfix (TNot t)) in *.
  assert (Hlen : length (postfix (TAny ts)) = length (postfix (TAll ts))).
  { cbn [postfix]. by rewrite !length_app. }
  split_and!; (rewrite evaluate_postfix; [|done|rewrite ?Hlen; done]);
    rewrite bool_decide_eq_true_2; done.
Qed.

Lemma selector_builders_witness :
  evaluate (λ _, true) (selector_negate (postfix (TLeaf (LeaseActive true)))) = Ok false.
Proof.
  apply (selector_builders (λ _, true) [] (TLeaf (LeaseActive true)));
    [reflexivity|vm_compute; discriminate|vm_compute; discriminate|repeat constructor; cbn; lia].
Defined.
