(* ===== verification/IndexKey.v ===== *)
(** Ordered index keys of [fireweed-engine/src/queue_index.rs] and the tuple
    policy of [queue_fields/index.rs]: byte strings whose lexicographic order is
    the column-wise order of the tuples. *)
From S2P Require Import Prelude Identity Field.

(** ** The encoder *)

Fixpoint escaped_prefix (b : bytes) : bytes :=
  match b with
  | [] => []
  | x :: b => if bool_decide (x = Byte.x00) then Byte.x00 :: Byte.xff :: escaped_prefix b
              else x :: escaped_prefix b
  end.

Definition escaped (b : bytes) : bytes := escaped_prefix b ++ [Byte.x00; Byte.x00].

Definition scalar_type_prefix (t : FieldType) : bytes :=
  [Byte.x01; Byte.x01;
   match t with
   | TInteger => Byte.x00
   | TFloat => Byte.x01
   | TBoolean => Byte.x02
   | TText => Byte.x03
   | TBytes => Byte.x04
   end].

(** [IndexSink]: the output, when there is one, and the length so far. *)
Record IndexSink := mkIndexSink { sink_bytes : option bytes; sink_len : Z }.

Definition sink_extend (out : IndexSink) (len : Z) (b : bytes) : IndexSink :=
  mkIndexSink ((λ o, o ++ b) <$> sink_bytes out) len.

Definition sink_raw (out : IndexSink) (b : bytes) : QueueResult IndexSink :=
  len ← ok_or (checked_add_u64 (sink_len out) (Z.of_nat (length b))) QTooLarge;
  Ok (sink_extend out len b).

Definition sink_byte (out : IndexSink) (b : Byte.byte) : QueueResult IndexSink := sink_raw out [b].

Definition zero_count (b : bytes) : Z := 
  Z.of_nat (length (List.filter (λ x, bool_decide (x = Byte.x00)) b)).

Definition sink_literal (out : IndexSink) (b : bytes) : QueueResult IndexSink :=
  length ← ok_or (n ← checked_add_u64 (Z.of_nat (length b)) (zero_count b); checked_add_u64 n 2) QTooLarge;
  len ← ok_or (checked_add_u64 (sink_len out) length) QTooLarge;
  Ok (sink_extend out len (escaped b)).

(** The bits a finite float is ordered by: [-0.0] is [0.0], negative numbers are
    complemented, the sign bit of the others is set. *)
Definition float_bits (n : Z) : Z := if f64_value n =? 0 then 0 else n.
Definition float_ordered (bits : Z) : Z :=
  if Z.shiftr bits 63 =? 1 then not_bits 64 bits else Z.lxor bits (Z.shiftl 1 63).

(** One present value after its presence byte. *)
Definition write_value (out : IndexSink) (value : FieldValue) : QueueResult IndexSink :=
  match value with
  | FInteger n => out ← sink_byte out Byte.x00; sink_raw out (to_be_bytes 8 (flip_sign n))
  | FFloat n =>
      if negb (f64_is_finite n) then Err (QInvalid "noncanonical index float")
      else out ← sink_byte out Byte.x01; sink_raw out (to_be_bytes 8 (float_ordered (float_bits n)))
  | FBoolean b => out ← sink_byte out Byte.x02; sink_byte out (if b then Byte.x01 else Byte.x00)
  | FText s => out ← sink_byte out Byte.x03; sink_literal out (as_bytes s)
  | FBytes b => out ← sink_byte out Byte.x04; sink_literal out b
  end.

Definition write_column (out : IndexSink) (value : option FieldValue) : QueueResult IndexSink :=
  match value with
  | None => sink_byte out Byte.x00
  | Some value => out ← sink_byte out Byte.x01; write_value out value
  end.

Definition write_values (values : list (option FieldValue)) (output : option bytes)
    : QueueResult IndexSink :=
  out ← sink_byte (mkIndexSink output 0) Byte.x01;
  try_fold write_column out values.

(** [encode_values]: a counting pass, then a writing pass. *)
Definition encode_values (values : list (option FieldValue)) : QueueResult bytes :=
  _ ← write_values values None;
  out ← write_values values (Some []);
  Ok (default [] (sink_bytes out)).

Definition ordered_key (values : list (option FieldValue)) : QueueResult bytes := encode_values values.

Definition ordered_key_ref_len (values : list (option FieldValue)) : QueueResult Z :=
  out ← write_values values None; Ok (sink_len out).

Record EncodedIndexTuple := mkEncodedIndexTuple { sort : bytes; complete : bool }.

Definition index_is_affected (columns : list string) (all : bool) (explicitly_changed : string → bool)
    : bool := all || existsb explicitly_changed columns.

Definition encode_index_tuple (values : list (option FieldValue)) : QueueResult EncodedIndexTuple :=
  sort ← encode_values values;
  Ok (mkEncodedIndexTuple sort (forallb (λ v, bool_decide (is_Some v)) values)).

(** ** What a key is *)

Definition value_bytes (value : FieldValue) : bytes :=
  match value with
  | FInteger n => Byte.x00 :: to_be_bytes 8 (flip_sign n)
  | FFloat n => Byte.x01 :: to_be_bytes 8 (float_ordered (float_bits n))
  | FBoolean b => [Byte.x02; if b then Byte.x01 else Byte.x00]
  | FText s => Byte.x03 :: escaped (as_bytes s)
  | FBytes b => Byte.x04 :: escaped b
  end.
Definition column_bytes (value : option FieldValue) : bytes :=
  match value with None => [Byte.x00] | Some value => Byte.x01 :: value_bytes value end.
Definition key_bytes (values : list (option FieldValue)) : bytes :=
  Byte.x01 :: concat (map column_bytes values).

(** Values an index column holds: in their machine range, floats finite. *)
Definition indexable (value : FieldValue) : Prop :=
  match value with
  | FInteger n => is_i64 n
  | FFloat n => is_u64 n ∧ f64_is_finite n = true
  | _ => True
  end.

(** Column-wise order of tuples; [None] when two present values of one column
    cannot be compared. *)
Fixpoint compare_tuples (a b : list (option FieldValue)) : option comparison :=
  match a, b with
  | [], [] => Some Eq
  | x :: a, y :: b =>
      c ← compare_optional_fields x y; d ← compare_tuples a b; Some (then_cmp c d)
  | _, _ => None
  end.

(** ** Lemmas: the writer appends the key *)

(** The sink after writing [b]. *)
Definition wrote (out : IndexSink) (b : bytes) : IndexSink :=
  sink_extend out (sink_len out + Z.of_nat (length b)) b.

Lemma wrote_app out a b : wrote (wrote out a) b = wrote out (a ++ b).
Proof.
  unfold wrote, sink_extend. destruct out as [[o|] n]; cbn; rewrite length_app; f_equal;
    rewrite <-?app_assoc; lia || done.
Qed.

Definition writes (f : IndexSink → QueueResult IndexSink) (b : bytes) : Prop :=
  ∀ out, is_u64 (sink_len out) →
    f out = if sink_len out + Z.of_nat (length b) <=? u64_max then Ok (wrote out b) else Err QTooLarge.

Lemma writes_raw b : writes (λ out, sink_raw out b) b.
Proof. intros out _. unfold sink_raw, checked_add_u64. by destruct (_ <=? _). Qed.

Lemma writes_bind f g a b :
  writes f a → writes g b → writes (λ out, out ← f out; g out) (a ++ b).
Proof.
  intros Hf Hg out Hout. rewrite Hf, length_app by done.
  destruct (Z.leb_spec (sink_len out + Z.of_nat (length a)) u64_max); cbn [mbind result_bind].
  - rewrite Hg by (cbn; unfold is_u64 in *; lia). cbn [wrote sink_len sink_extend].
    rewrite wrote_app, Nat2Z.inj_add, Z.add_assoc. done.
  - by rewrite (proj2 (Z.leb_gt _ _)) by lia.
Qed.

Lemma length_escaped b : Z.of_nat (length (escaped b)) = Z.of_nat (length b) + zero_count b + 2.
Proof.
  unfold escaped, zero_count. rewrite length_app. cbn [length].
  induction b as [|x b IH]; cbn [escaped_prefix]; [cbn; lia|].
  cbn [List.filter]. destruct (decide (x = Byte.x00)) as [->|].
  - rewrite bool_decide_eq_true_2 by done. cbn [length]. lia.
  - rewrite bool_decide_eq_false_2 by done. cbn [length]. lia.
Qed.

Lemma writes_literal b : writes (λ out, sink_literal out b) (escaped b).
Proof.
  intros out [Hout _]. unfold sink_literal, wrote. rewrite !length_escaped.
  assert (0 ≤ zero_count b) by (unfold zero_count; lia).
  unfold checked_add_u64. cbn [mbind option_bind].
  destruct (Z.leb_spec (Z.of_nat (length b) + zero_count b) u64_max); cbn [mbind option_bind ok_or result_bind].
  2:{ by rewrite (proj2 (Z.leb_gt _ _)) by lia. }
  destruct (Z.leb_spec (Z.of_nat (length b) + zero_count b + 2) u64_max); cbn [ok_or mbind result_bind].
  2:{ by rewrite (proj2 (Z.leb_gt _ _)) by lia. }
  by destruct (_ <=? _).
Qed.

(** A tuple whose floats are finite is written as its key; any other is refused
    unless the key is too long to count. *)
Definition floats_finite (values : list (option FieldValue)) : bool :=
  forallb (λ v, match v with Some (FFloat n) => f64_is_finite n | _ => true end) values.

Lemma writes_column v :
  floats_finite [v] = true → writes (λ out, write_column out v) (column_bytes v).
Proof.
  intros Hf. destruct v as [v|]; [|apply writes_raw].
  change (column_bytes (Some v)) with ([Byte.x01] ++ value_bytes v).
  apply writes_bind; [apply writes_raw|].
  destruct v as [n|n|b|s|b]; cbn [write_value value_bytes].
  - apply (writes_bind _ _ [_]); apply writes_raw.
  - cbn in Hf. rewrite andb_true_r in Hf. rewrite Hf. cbn [negb].
    apply (writes_bind _ _ [_]); apply writes_raw.
  - apply (writes_bind _ _ [_] [_]); apply writes_raw.
  - apply (writes_bind _ _ [_]); [apply writes_raw|apply writes_literal].
  - apply (writes_bind _ _ [_]); [apply writes_raw|apply writes_literal].
Qed.

Lemma writes_columns values :
  floats_finite values = true →
  writes (λ out, try_fold write_column out values) (concat (map column_bytes values)).
Proof.
  induction values as [|v values IH]; intros Hf.
  - intros [[o|] n] [_ Hout]; cbn in *; rewrite Z.add_0_r, (proj2 (Z.leb_le _ _)) by done;
      unfold wrote, sink_extend; cbn; by rewrite Z.add_0_r, ?app_nil_r.
  - cbn [floats_finite forallb] in Hf. apply andb_true_iff in Hf as [Hv Hf].
    apply (writes_bind (λ out, write_column out v)); [|by apply IH].
    apply writes_column. cbn. by rewrite Hv.
Qed.

Lemma writes_values values :
  floats_finite values = true → ∀ o,
  write_values values o =
    if Z.of_nat (length (key_bytes values)) <=? u64_max then
      Ok (mkIndexSink ((λ o, o ++ key_bytes values) <$> o) (Z.of_nat (length (key_bytes values))))
    else Err QTooLarge.
Proof.
  intros Hf o. unfold write_values, key_bytes.
  pose proof (writes_bind _ _ _ _ (writes_raw [Byte.x01]) (writes_columns values Hf)
    (mkIndexSink o 0)) as Hw. cbn [sink_len] in Hw. unfold sink_byte. rewrite Hw by int_lia.
  by rewrite Z.add_0_l.
Qed.

Lemma write_columns_nonfinite values out :
  floats_finite values = false → is_ok (try_fold write_column out values) = false.
Proof.
  revert out; induction values as [|v values IH]; intros out Hf; [done|].
  cbn [floats_finite forallb] in Hf. rewrite try_fold_cons.
  destruct (write_column out v) as [out'|] eqn:Hc; [|done]. cbn [mbind result_bind].
  apply andb_false_iff in Hf as [Hv|Hf]; [|by apply IH].
  destruct v as [[]|]; try done. unfold write_column in Hc. apply bind_Ok in Hc as (out2 & _ & Hc).
  unfold write_value in Hc. by rewrite Hv in Hc.
Qed.

(** The key, its length, and when there is one. *)
Lemma ordered_key_Ok values k :
  ordered_key values = Ok k ↔
  floats_finite values = true ∧ Z.of_nat (length (key_bytes values)) ≤ u64_max ∧ k = key_bytes values.
Proof.
  unfold ordered_key, encode_values. destruct (floats_finite values) eqn:Hf.
  - rewrite !writes_values by done.
    destruct (Z.leb_spec (Z.of_nat (length (key_bytes values))) u64_max); cbn; naive_solver lia.
  - split; [|naive_solver]. intros H. res_inv.
    match goal with H : write_values values None = _ |- _ => rename H into Hw end.
    unfold write_values in Hw. res_inv.
    match goal with H : try_fold write_column ?o values = _ |- _ =>
      pose proof (write_columns_nonfinite values o Hf) as Hn; rewrite H in Hn; done end.
Qed.

Lemma ordered_key_len_Ok values n :
  ordered_key_ref_len values = Ok n ↔
  ∃ k, ordered_key values = Ok k ∧ n = Z.of_nat (length k).
Proof.
  setoid_rewrite ordered_key_Ok. unfold ordered_key_ref_len. destruct (floats_finite values) eqn:Hf.
  - rewrite writes_values by done.
    destruct (Z.leb_spec (Z.of_nat (length (key_bytes values))) u64_max); cbn; naive_solver lia.
  - split; [|naive_solver]. unfold write_values. intros H. res_inv.
    match goal with H : try_fold write_column ?o values = _ |- _ =>
      pose proof (write_columns_nonfinite values o Hf) as Hn; rewrite H in Hn; done end.
Qed.

(** ** Lemmas: escaped bytes *)

Lemma byte_pos x : x ≠ Byte.x00 → 0 < Z_of_byte x.
Proof.
  intros Hx. pose proof (Z_of_byte_range x).
  assert (Z_of_byte x ≠ Z_of_byte Byte.x00) by (by intros ?%Z_of_byte_inj).
  change (Z_of_byte Byte.x00) with 0 in *. lia.
Qed.

Lemma escaped_cmp a b x y :
  bytes_cmp (escaped a ++ x) (escaped b ++ y) = then_cmp (bytes_cmp a b) (bytes_cmp x y).
Proof.
  unfold escaped. revert b. induction a as [|p a IH]; intros [|q b]; cbn [escaped_prefix].
  - by rewrite bytes_cmp_app_same.
  - destruct (decide (q = Byte.x00)) as [->|Hq]; [done|]. rewrite bool_decide_eq_false_2 by done.
    apply byte_pos in Hq. cbn [app bytes_cmp]. change (Z_of_byte Byte.x00) with 0.
    by rewrite (proj2 (Z.compare_lt_iff _ _)).
  - destruct (decide (p = Byte.x00)) as [->|Hp]; [done|]. rewrite bool_decide_eq_false_2 by done.
    apply byte_pos in Hp. cbn [app bytes_cmp]. change (Z_of_byte Byte.x00) with 0.
    by rewrite (proj2 (Z.compare_gt_iff _ _)).
  - destruct (decide (p = Byte.x00)) as [->|Hp], (decide (q = Byte.x00)) as [->|Hq];
      rewrite ?(bool_decide_eq_true_2 (Byte.x00 = Byte.x00)) by done;
      rewrite ?(bool_decide_eq_false_2 (p = Byte.x00)), ?(bool_decide_eq_false_2 (q = Byte.x00)) by done;
      cbn [app bytes_cmp]; change (Z_of_byte Byte.x00) with 0.
    + cbn [Z.compare]. rewrite Z.compare_refl. apply IH.
    + apply byte_pos in Hq. by rewrite (proj2 (Z.compare_lt_iff _ _)).
    + apply byte_pos in Hp. by rewrite (proj2 (Z.compare_gt_iff _ _)).
    + destruct (Z_of_byte p ?= Z_of_byte q); [apply IH|done|done].
Qed.

(** ** Lemmas: floats *)

(** Magnitudes of finite floats grow with the 63 low bits. *)
Lemma f64_magnitude_lt a b :
  0 ≤ a mod 2 ^ 63 < b mod 2 ^ 63 → f64_magnitude a < f64_magnitude b.
Proof.
  intros Hab. unfold f64_magnitude, f64_exponent, f64_fraction.
  assert (Hlow : ∀ x, x mod 2 ^ 52 = (x mod 2 ^ 63) mod 2 ^ 52).
  { intros x. symmetry. apply Z.mod_mod_divide. by exists (2 ^ 11). }
  rewrite (Hlow a), (Hlow b). clear Hlow.
  set (m := a mod 2 ^ 63) in *. set (n := b mod 2 ^ 63) in *. clearbody m n.
  pose proof (Z.div_mod m (2 ^ 52) ltac:(lia)) as Hm. pose proof (Z.mod_pos_bound m (2 ^ 52) ltac:(lia)).
  pose proof (Z.div_mod n (2 ^ 52) ltac:(lia)) as Hn. pose proof (Z.mod_pos_bound n (2 ^ 52) ltac:(lia)).
  pose proof (Z.div_pos m (2 ^ 52) ltac:(lia) ltac:(lia)).
  set (e := m / 2 ^ 52) in *. set (f := m mod 2 ^ 52) in *.
  set (e' := n / 2 ^ 52) in *. set (f' := n mod 2 ^ 52) in *. clearbody e f e' f'.
  assert (He : e < e' ∨ e = e' ∧ f < f') by nia.
  destruct (Z.eqb_spec e 0) as [->|], (Z.eqb_spec e' 0) as [->|]; [lia| |lia|].
  - assert (1 ≤ 2 ^ (e' - 1)) by (apply (Z.pow_le_mono_r 2 0); lia). nia.
  - destruct He as [Hlt|[-> Hf]].
    + assert (Hp : 2 ^ e ≤ 2 ^ (e' - 1)) by (apply Z.pow_le_mono_r; lia).
      replace e with (Z.succ (e - 1)) in Hp by lia. rewrite Z.pow_succ_r in Hp by lia.
      assert (0 < 2 ^ (e - 1)) by (apply Z.pow_pos_nonneg; lia). nia.
    + assert (0 < 2 ^ (e' - 1)) by (apply Z.pow_pos_nonneg; lia). nia.
Qed.

Lemma f64_magnitude_cmp a b :
  (f64_magnitude a ?= f64_magnitude b) = (a mod 2 ^ 63 ?= b mod 2 ^ 63).
Proof.
  pose proof (Z.mod_pos_bound a (2 ^ 63) ltac:(lia)). pose proof (Z.mod_pos_bound b (2 ^ 63) ltac:(lia)).
  destruct (Z.compare_spec (a mod 2 ^ 63) (b mod 2 ^ 63)) as [E|L|G].
  - apply Z.compare_eq_iff. unfold f64_magnitude, f64_exponent, f64_fraction. rewrite E.
    replace (a mod 2 ^ 52) with ((a mod 2 ^ 63) mod 2 ^ 52)
      by (apply Z.mod_mod_divide; by exists (2 ^ 11)).
    rewrite E. replace ((b mod 2 ^ 63) mod 2 ^ 52) with (b mod 2 ^ 52)
      by (symmetry; apply Z.mod_mod_divide; by exists (2 ^ 11)). done.
  - apply Z.compare_lt_iff, f64_magnitude_lt. lia.
  - apply Z.compare_gt_iff, f64_magnitude_lt. lia.
Qed.

Lemma f64_magnitude_nonneg b : 0 ≤ f64_magnitude b.
Proof.
  unfold f64_magnitude, f64_fraction. pose proof (Z.mod_pos_bound b (2 ^ 52) ltac:(lia)).
  destruct (f64_exponent b =? 0); [lia|].
  pose proof (Z.pow_nonneg 2 (f64_exponent b - 1) ltac:(lia)). nia.
Qed.

Lemma f64_magnitude_zero b : f64_magnitude b = 0 ↔ b mod 2 ^ 63 = 0.
Proof.
  rewrite <-!Z.compare_eq_iff. change 0 with (f64_magnitude 0) at 1.
  by rewrite f64_magnitude_cmp.
Qed.

(** The ordered word, by the sign of the value. *)
Lemma float_ordered_eq n :
  is_u64 n →
  float_ordered (float_bits n) =
    if f64_value n <? 0 then 2 ^ 63 - 1 - n mod 2 ^ 63 else 2 ^ 63 + n mod 2 ^ 63.
Proof.
  intros Hn. pose proof (f64_magnitude_nonneg n). pose proof (f64_magnitude_zero n).
  pose proof (Z.mod_pos_bound n (2 ^ 63) ltac:(lia)).
  unfold float_bits, f64_value, f64_negative in *.
  destruct (Z.leb_spec (2 ^ 63) n) as [Hneg|Hpos].
  - assert (Hmod : n mod 2 ^ 63 = n - 2 ^ 63) by (symmetry; apply (Z.mod_unique_pos _ _ 1); int_lia).
    destruct (Z.eqb_spec (- f64_magnitude n) 0).
    + rewrite (proj2 (Z.ltb_ge _ _)) by lia. assert (n mod 2 ^ 63 = 0) as -> by (apply H0; lia). done.
    + rewrite (proj2 (Z.ltb_lt _ _)) by lia. unfold float_ordered.
      rewrite Z.shiftr_div_pow2 by lia.
      assert (n / 2 ^ 63 = 1) as -> by (symmetry; apply (Z.div_unique_pos _ _ _ (n - 2 ^ 63)); int_lia).
      cbn [Z.eqb Pos.eqb]. rewrite not_bits_eq by int_lia. rewrite Hmod. lia.
  - rewrite (Z.mod_small n) in * by int_lia. rewrite (proj2 (Z.ltb_ge (f64_magnitude n) 0)) by lia.
    destruct (Z.eqb_spec (f64_magnitude n) 0).
    + assert (n = 0) as -> by (apply H0; lia). done.
    + unfold float_ordered. rewrite Z.shiftr_div_pow2, Z.div_small by int_lia. cbn [Z.eqb].
      rewrite Z.shiftl_1_l, lxor_high by int_lia. lia.
Qed.

Lemma float_ordered_cmp a b :
  is_u64 a → is_u64 b →
  (float_ordered (float_bits a) ?= float_ordered (float_bits b)) = (f64_value a ?= f64_value b).
Proof.
  intros Ha Hb. rewrite !float_ordered_eq by done.
  pose proof (f64_magnitude_cmp a b) as Hc. pose proof (f64_magnitude_nonneg a).
  pose proof (f64_magnitude_nonneg b).
  pose proof (Z.mod_pos_bound a (2 ^ 63) ltac:(lia)). pose proof (Z.mod_pos_bound b (2 ^ 63) ltac:(lia)).
  pose proof (f64_magnitude_zero a). pose proof (f64_magnitude_zero b).
  unfold f64_value. destruct (f64_negative a), (f64_negative b);
    repeat match goal with |- context [?x <? 0] => destruct (Z.ltb_spec x 0) end; try lia;
    destruct (Z.compare_spec (f64_magnitude a) (f64_magnitude b)), (Z.compare_spec (a mod 2 ^ 63) (b mod 2 ^ 63)); try done.
  all: repeat match goal with |- context [?x ?= ?y] => destruct (Z.compare_spec x y) end;
    try done; lia.
Qed.

(** ** Lemmas: columns and tuples *)

Lemma value_bytes_cmp a b c x y :
  indexable a → indexable b → compare_fields a b = Some c →
  bytes_cmp (value_bytes a ++ x) (value_bytes b ++ y) = then_cmp c (bytes_cmp x y).
Proof.
  intros Ha Hb Hc. destruct a as [m|m|p|s|s], b as [n|n|q|t|t]; try done; cbn in Ha, Hb.
  - injection Hc as <-. unfold value_bytes. cbn [app bytes_cmp]. rewrite Z.compare_refl.
    rewrite bytes_cmp_app by (by rewrite !length_to_be_bytes).
    rewrite !flip_sign_eq, to_be_bytes_cmp by (done || int_lia).
    by rewrite !(Z.add_comm _ (2 ^ 63)), Z.add_compare_mono_l.
  - destruct Ha as [Ha Hfa], Hb as [Hb Hfb]. cbn in Hc. rewrite Hfa, Hfb in Hc.
    injection Hc as <-. unfold value_bytes. cbn [app bytes_cmp]. rewrite Z.compare_refl.
    rewrite bytes_cmp_app by (by rewrite !length_to_be_bytes).
    pose proof (Z.mod_pos_bound m (2 ^ 63) ltac:(lia)). pose proof (Z.mod_pos_bound n (2 ^ 63) ltac:(lia)).
    rewrite <-float_ordered_cmp by done. rewrite to_be_bytes_cmp; [done|..];
      rewrite float_ordered_eq by done; destruct (_ <? _); int_lia.
  - injection Hc as <-. by destruct p, q.
  - injection Hc as <-. unfold value_bytes. cbn [app bytes_cmp]. rewrite Z.compare_refl. apply escaped_cmp.
  - injection Hc as <-. unfold value_bytes. cbn [app bytes_cmp]. rewrite Z.compare_refl. apply escaped_cmp.
Qed.

Definition column_ok (v : option FieldValue) : Prop := ∀ x, v = Some x → indexable x.

Lemma columns_cmp a b c :
  Forall column_ok a → Forall column_ok b → compare_tuples a b = Some c →
  bytes_cmp (concat (map column_bytes a)) (concat (map column_bytes b)) = c.
Proof.
  intros Ha. revert b c. induction Ha as [|x a Hx Ha IH]; intros [|y b] c Hb Hc; try done.
  { by injection Hc as <-. }
  apply Forall_cons in Hb as [Hy Hb]. cbn [compare_tuples] in Hc.
  apply bind_Some in Hc as (d & Hd & Hc). apply bind_Some in Hc as (e & He & [= <-]).
  specialize (IH b e Hb He). cbn [map concat].
  destruct x as [x|], y as [y|]; cbn [compare_optional_fields] in Hd; cbn [column_bytes app bytes_cmp].
  - rewrite Z.compare_refl, (value_bytes_cmp x y d); [by rewrite IH|by apply Hx|by apply Hy|done].
  - by injection Hd as <-.
  - by injection Hd as <-.
  - injection Hd as <-. by rewrite Z.compare_refl.
Qed.

Lemma indexable_finite values : Forall column_ok values → floats_finite values = true.
Proof.
  induction 1 as [|v values Hv Hl IH]; [done|]. cbn [floats_finite forallb].
  fold (floats_finite values). rewrite IH, andb_true_r.
  destruct v as [[]|]; try done. by destruct (Hv _ eq_refl).
Qed.

(** ** Properties *)

(** Index keys are order-preserving: for two tuples whose columns are
    comparable, the byte order of the keys is the column-wise order of the
    tuples, missing values first. *)
Theorem ordered_key_order a b ka kb c :
  Forall column_ok a → Forall column_ok b →
  ordered_key a = Ok ka → ordered_key b = Ok kb → compare_tuples a b = Some c →
  bytes_cmp ka kb = c.
Proof.
  intros Ha Hb (_ & _ & ->)%ordered_key_Ok (_ & _ & ->)%ordered_key_Ok Hc.
  unfold key_bytes. cbn [bytes_cmp]. rewrite Z.compare_refl. by apply columns_cmp.
Qed.

(** A tuple with a missing column, a negative float and an escaped byte. *)
Definition sample_tuple (f : Z) : list (option FieldValue) :=
  [None; Some (FFloat f); Some (FBytes [Byte.x00; Byte.x41])].

Lemma ordered_key_order_witness :
  bytes_cmp (key_bytes (sample_tuple 0xBFF0000000000000)) (key_bytes (sample_tuple 0x8000000000000000)) = Lt.
Proof.
  apply (ordered_key_order (sample_tuple 0xBFF0000000000000) (sample_tuple 0x8000000000000000) _ _ Lt);
    [| |reflexivity|reflexivity|reflexivity];
    repeat constructor; intros x [= <-]; cbn; repeat split; done.
Defined.

(** The key is the codec's bytes, its length is what the counting pass
    announced, and encoding fails only on a float that is not finite or a key
    longer than a machine word counts. Keys of one column type per column are
    equal only for equal tuples. *)
Theorem ordered_key_codec values k :
  (ordered_key values = Ok k ↔
    floats_finite values = true ∧ Z.of_nat (length (key_bytes values)) ≤ u64_max ∧ k = key_bytes values) ∧
  (ordered_key values = Ok k → ordered_key_ref_len values = Ok (Z.of_nat (length k))) ∧
  (∀ other c, ordered_key values = Ok k → ordered_key other = Ok k →
    Forall column_ok values → Forall column_ok other → compare_tuples values other = Some c → c = Eq).
Proof.
  split_and!.
  - apply ordered_key_Ok.
  - intros H. apply ordered_key_len_Ok. eauto.
  - intros other c (_ & _ & H)%ordered_key_Ok (_ & _ & H')%ordered_key_Ok Hv Ho Hc.
    pose proof (columns_cmp _ _ _ Hv Ho Hc) as Hcmp. rewrite H in H'. injection H' as H'.
    rewrite H', bytes_cmp_refl in Hcmp. done.
Qed.
