(* ===== verification/FieldView.v ===== *)
(** Selective field authority and resolved edits of
    [fireweed-engine/src/queue_fields.rs] and the body intent of [queue_body.rs]. *)
From S2P Require Import Prelude Identity Field IndexKey.

Definition unknown (message : string) : QueueError := OutcomeUnknown message.

(** [Option<&FieldValue> == Option<&FieldValue>]. *)
Definition option_field_eqb (a b : option FieldValue) : bool :=
  match a, b with
  | Some a, Some b => field_eqb a b
  | None, None => true
  | _, _ => false
  end.

Abbreviation FieldEdits := (gmap string (option FieldValue)).

Inductive FieldCoverage :=
| CompleteCoverage
| SelectedCoverage (names prefixes : gset string).

#[export] Instance FieldCoverage_eq_dec : EqDecision FieldCoverage.
Proof. solve_decision. Defined.

Record CheckedFields := mkCheckedFields { cf_fields : Fields; cf_coverage : FieldCoverage }.

Definition checked_new (fields : Fields) (coverage : FieldCoverage) : QueueResult CheckedFields :=
  match coverage with
  | SelectedCoverage _ prefixes =>
      if existsb blank (btree_elems prefixes) then Err (unknown "empty field-coverage prefix")
      else Ok (mkCheckedFields fields coverage)
  | CompleteCoverage => Ok (mkCheckedFields fields coverage)
  end.

(** Whether the coverage certifies the absence of a name. *)
Definition covers (c : FieldCoverage) (name : string) : bool :=
  match c with
  | CompleteCoverage => true
  | SelectedCoverage names prefixes =>
      bool_decide (name ∈ names) || existsb (starts_with name) (btree_elems prefixes)
  end.

Definition checked_get (view : CheckedFields) (name : string) : QueueResult (option FieldValue) :=
  match cf_fields view !! name with
  | Some value => Ok (Some value)
  | None =>
      if covers (cf_coverage view) name then Ok None
      else Err (unknown "field absence outside loaded authority")
  end.

Definition covers_prefix (c : FieldCoverage) (prefix : string) : bool :=
  match c with
  | CompleteCoverage => true
  | SelectedCoverage _ prefixes => existsb (starts_with prefix) (btree_elems prefixes)
  end.

Definition checked_prefix (view : CheckedFields) (prefix : string) : QueueResult (list (string * FieldValue)) :=
  if blank prefix then Err (unknown "empty field-enumeration prefix")
  else if negb (covers_prefix (cf_coverage view) prefix) then
    Err (unknown "prefix enumeration outside loaded authority")
  else Ok (List.filter (λ e, starts_with e.1 prefix) (btree_list (cf_fields view))).

(** ** Resolved edits *)

Inductive ResolvedFields :=
| FPreserve
| FReplace (fields : Fields)
| FEdit (edits : FieldEdits).

(** One edit: insert a value or remove the name. *)
Definition apply_edit (fields : Fields) (e : string * option FieldValue) : Fields :=
  match e.2 with
  | Some value => <[e.1 := value]> fields
  | None => delete e.1 fields
  end.

Definition apply_field_edits (fields : Fields) (edits : list (string * option FieldValue)) : Fields :=
  foldl apply_edit fields edits.

Definition resolved_apply (change : ResolvedFields) (fields : Fields) : Fields :=
  match change with
  | FPreserve => fields
  | FReplace replacement => replacement
  | FEdit edits => apply_field_edits fields (btree_list edits)
  end.

(** [old.extend(next)] on the edits keeps the later edit of a name. *)
Definition resolved_then (old next : ResolvedFields) : ResolvedFields :=
  match old, next with
  | old, FPreserve => old
  | _, FReplace fields => FReplace fields
  | FPreserve, next => next
  | FReplace fields, FEdit edits => FReplace (resolved_apply (FEdit edits) fields)
  | FEdit old, FEdit next => FEdit (next ∪ old)
  end.

Definition resolved_after (change : ResolvedFields) (before : CheckedFields) (name : string)
    : QueueResult (option FieldValue) :=
  match change with
  | FPreserve => checked_get before name
  | FReplace fields => Ok (fields !! name)
  | FEdit edits =>
      match edits !! name with
      | Some value => Ok value
      | None => checked_get before name
      end
  end.

(** The loop over [remove_prefixes] in [resolve_edits]. *)
Definition freeze_prefix (before : CheckedFields) (d : CollectionDefinition)
    (edits : FieldEdits) (prefix : string) : QueueResult FieldEdits :=
  if blank prefix || negb (existsb (starts_with prefix) (btree_elems (cd_additional_field_prefixes d))) then
    Err (QInvalid "prefix removal outside provisioned namespace")
  else
    entries ← checked_prefix before prefix;
    Ok (foldl (λ edits e, <[e.1 := None]> edits) edits entries).

(** The loop over [explicit]. *)
Definition admit_edit (before : CheckedFields) (d : CollectionDefinition)
    (edits : FieldEdits) (e : string * option FieldValue) : QueueResult FieldEdits :=
  if blank e.1 || negb (admits_field d e.1) then Err (QInvalid "undeclared field edit")
  else
    _ ← match e.2 with Some value => validate_value d e.1 value | None => Ok tt end;
    _ ← checked_get before e.1;
    Ok (<[e.1 := e.2]> edits).

(** The last loop: only actual differences survive. *)
Definition keep_difference (before : CheckedFields) (actual : FieldEdits)
    (e : string * option FieldValue) : QueueResult FieldEdits :=
  old ← checked_get before e.1;
  Ok (if negb (option_field_eqb old e.2) then <[e.1 := e.2]> actual else actual).

Definition resolve_edits (before : CheckedFields) (explicit : FieldEdits)
    (remove_prefixes : gset string) (d : CollectionDefinition) : QueueResult ResolvedFields :=
  edits ← try_fold (freeze_prefix before d) ∅ (btree_elems remove_prefixes);
  edits ← try_fold (admit_edit before d) edits (btree_list explicit);
  actual ← try_fold (keep_difference before) ∅ (btree_list edits);
  Ok (if bool_decide (actual = ∅) then FPreserve else FEdit actual).

(** ** Index effects *)

Record IndexEffect := mkIndexEffect {
  ie_index : string;
  ie_unique : bool;
  before_unique : bool;
  after_unique : bool;
  ie_before : option bytes;
  ie_after : option bytes;
}.

Definition is_replace (change : ResolvedFields) : bool :=
  match change with FReplace _ => true | _ => false end.
Definition edits_name (change : ResolvedFields) (name : string) : bool :=
  match change with FEdit edits => bool_decide (is_Some (edits !! name)) | _ => false end.

Definition affected_index_fields (change : ResolvedFields) (d : CollectionDefinition) : gset string :=
  list_to_set (concat (List.filter
    (λ columns, index_is_affected columns (is_replace change) (edits_name change))
    (btree_values (cd_indexes d)))).

(** The body of the loop of [resolve_index_effects] for an affected index. *)
Definition index_effect (before : CheckedFields) (change : ResolvedFields) (d : CollectionDefinition)
    (index : string) (columns : list string) : QueueResult (list IndexEffect) :=
  old ← try_collect (checked_get before) columns;
  new ← try_collect (resolved_after change before) columns;
  _ ← try_for_each (λ e : string * option FieldValue,
        match e.2 with
        | Some value =>
            map_err (λ _, unknown "invalid resolved index field authority") (validate_value d e.1 value)
        | None => Ok tt
        end) (zip columns old ++ zip columns new);
  let unique := bool_decide (index ∈ cd_unique_indexes d) in
  old ← encode_index_tuple old;
  new ← encode_index_tuple new;
  Ok (if bool_decide (sort old = sort new) then []
      else [mkIndexEffect index unique (unique && complete old) (unique && complete new)
              (Some (sort old)) (Some (sort new))]).

Definition resolve_index_effects (before : CheckedFields) (change : ResolvedFields)
    (d : CollectionDefinition) : QueueResult (list IndexEffect) :=
  try_fold (λ effects e,
    if negb (index_is_affected e.2 (is_replace change) (edits_name change)) then Ok effects
    else more ← index_effect before change d e.1 e.2; Ok (effects ++ more))
    [] (btree_list (cd_indexes d)).

(** ** Commands against a stored record *)

Record FieldRecord := mkFieldRecord { fr_version : Z; fr_fields : Fields }.

Record ResolvedFieldCommand := mkResolvedFieldCommand {
  predecessor : option Z;
  prior_highwater : Z;
  rc_version : Z;
  rc_change : ResolvedFields;
}.

Definition apply_command (current : option FieldRecord) (highwater : Z) (command : ResolvedFieldCommand)
    : QueueResult (FieldRecord * Z) :=
  if negb (prior_highwater command =? highwater)
     || bool_decide (predecessor command = Some 0)
     || negb (is_none_or current (λ r, negb (fr_version r =? 0)))
     || (rc_version command <=? highwater)
     || negb (bool_decide (fr_version <$> current = predecessor command))
     || negb (is_none_or current (λ r, fr_version r =? highwater))
  then Err (unknown "resolved field predecessor/highwater mismatch")
  else
    fields ← match current with
             | Some current => Ok (fr_fields current)
             | None =>
                 if negb (is_replace (rc_change command))
                 then Err (unknown "partial field command cannot insert a record") else Ok ∅
             end;
    Ok (mkFieldRecord (rc_version command) (resolved_apply (rc_change command) fields),
        rc_version command).

Definition apply_to_view (fields : Fields) (coverage : FieldCoverage) (change : ResolvedFields)
    : Fields * FieldCoverage :=
  let coverage :=
    match change with
    | FReplace _ => CompleteCoverage
    | FEdit edits =>
        match coverage with
        | SelectedCoverage names prefixes => SelectedCoverage (names ∪ dom edits) prefixes
        | CompleteCoverage => CompleteCoverage
        end
    | FPreserve => coverage
    end in
  (resolved_apply change fields, coverage).

(** ** Bodies *)

Inductive ResolvedBody := BPreserve | BReplace (body : bytes).

Definition body_then (before after : ResolvedBody) : ResolvedBody :=
  match after with BPreserve => before | replacement => replacement end.

Definition body_apply_to_view (change : ResolvedBody) (body : bytes) (loaded : bool) : bytes * bool :=
  match change with BReplace value => (value, true) | BPreserve => (body, loaded) end.

(** ** What a view promises *)

(** A view of the stored fields [full]: what it holds is stored, and what its
    coverage certifies it holds. *)
Definition view_of (full : Fields) (view : CheckedFields) : Prop :=
  (∀ k v, cf_fields view !! k = Some v → full !! k = Some v) ∧
  (∀ k, covers (cf_coverage view) k = true → cf_fields view !! k = full !! k).

(** The names a set of removed prefixes covers. *)
Definition removed (prefixes : gset string) (k : string) : bool :=
  existsb (starts_with k) (btree_elems prefixes).

(** The fields an edit asks for: explicit edits win over removals. *)
Definition edited (full : Fields) (explicit : FieldEdits) (prefixes : gset string) (k : string)
    : option FieldValue :=
  match explicit !! k with
  | Some v => v
  | None => if removed prefixes k then None else full !! k
  end.

(** ** Lemmas *)

Lemma apply_edit_lookup m e k :
  apply_edit m e !! k = if decide (k = e.1) then e.2 else m !! k.
Proof.
  destruct e as [i [v|]]; unfold apply_edit; cbn [fst snd]; destruct (decide (k = i)) as [->|Hne].
  - apply lookup_insert_eq.
  - by apply lookup_insert_ne.
  - apply lookup_delete_eq.
  - by apply lookup_delete_ne.
Qed.

Lemma apply_edits_lookup m (E : FieldEdits) k :
  apply_field_edits m (btree_list E) !! k = match E !! k with Some v => v | None => m !! k end.
Proof. apply (btree_foldl _ (λ _ v _, v)). intros. apply apply_edit_lookup. Qed.

Lemma checked_new_Ok fields coverage view :
  checked_new fields coverage = Ok view → view = mkCheckedFields fields coverage.
Proof. unfold checked_new. destruct coverage; [|destruct (existsb _ _)]; naive_solver. Qed.

Lemma checked_get_Ok full view k o :
  view_of full view → checked_get view k = Ok o → o = full !! k.
Proof.
  intros [Hv Hc]. unfold checked_get. destruct (cf_fields view !! k) as [v|] eqn:E.
  - intros [= <-]. symmetry. by apply Hv.
  - destruct (covers (cf_coverage view) k) eqn:Ec; [|done]. intros [= <-].
    by rewrite <-(Hc k Ec), E.
Qed.

Lemma view_of_complete full : view_of full (mkCheckedFields full CompleteCoverage).
Proof. done. Qed.

Lemma existsb_elems (s : gset string) f : existsb f (btree_elems s) = true ↔ ∃ x, x ∈ s ∧ f x = true.
Proof.
  rewrite existsb_exists. setoid_rewrite <-list_elem_of_In. by setoid_rewrite elem_of_btree_elems.
Qed.

(** A certified prefix enumerates all stored names below it. *)
Lemma covers_prefix_covers c prefix k :
  covers_prefix c prefix = true → starts_with k prefix = true → covers c k = true.
Proof.
  destruct c as [|names prefixes]; [done|]. cbn. rewrite existsb_elems.
  intros (p & Hp & Hpp) Hk. apply orb_true_iff. right. apply existsb_elems.
  exists p. split; [done|]. by eapply starts_with_trans.
Qed.

Lemma checked_prefix_Ok full view prefix l k :
  view_of full view → checked_prefix view prefix = Ok l →
  k ∈ l.*1 ↔ starts_with k prefix = true ∧ is_Some (full !! k).
Proof.
  intros [Hv Hc]. unfold checked_prefix. destruct (blank prefix); [done|].
  destruct (covers_prefix (cf_coverage view) prefix) eqn:Hp; [|done]. intros [= <-].
  rewrite list_elem_of_fmap. split.
  - intros ([k' v] & -> & [Hin Hs]%list_elem_of_In%filter_In). cbn in *. split; [done|].
    apply list_elem_of_In, elem_of_btree_list, Hv in Hin. eauto.
  - intros [Hs [v Hk]]. exists (k, v). split; [done|]. apply list_elem_of_In, filter_In.
    split; [|done]. apply list_elem_of_In, elem_of_btree_list.
    rewrite Hc; [done|]. by eapply covers_prefix_covers.
Qed.

Lemma foldl_clear_lookup (l : list (string * FieldValue)) (m : FieldEdits) k :
  foldl (λ m e, <[e.1 := None]> m) m l !! k = if decide (k ∈ l.*1) then Some None else m !! k.
Proof.
  revert m. induction l as [|[i v] l IH]; intros m; cbn [foldl fmap list_fmap fst].
  - by rewrite decide_False by set_solver.
  - rewrite IH. destruct (decide (k ∈ l.*1)).
    + by rewrite decide_True by set_solver.
    + destruct (decide (k = i)) as [->|Hne].
      * rewrite decide_True by set_solver. apply lookup_insert_eq.
      * rewrite decide_False by set_solver. by rewrite lookup_insert_ne.
Qed.

(** The removal loop freezes every stored name under a removed prefix. *)
Lemma freeze_prefixes_Ok full view d l m m' k :
  view_of full view → try_fold (freeze_prefix view d) m l = Ok m' →
  m' !! k = if existsb (starts_with k) l && bool_decide (is_Some (full !! k)) then Some None else m !! k.
Proof.
  intros Hview. revert m. induction l as [|p l IH]; intros m; cbn [try_fold existsb].
  { by intros [= <-]. }
  intros (m1 & Hm1 & Hl)%bind_Ok. apply IH in Hl as ->. unfold freeze_prefix in Hm1.
  destruct (_ || _); [done|]. apply bind_Ok in Hm1 as (entries & He & [= <-]).
  pose proof (checked_prefix_Ok full view p entries k Hview He) as Hin.
  rewrite foldl_clear_lookup. destruct (existsb (starts_with k) l); cbn [orb].
  - rewrite orb_true_r. case_bool_decide; cbn; [done|].
    rewrite decide_False by tauto. done.
  - rewrite orb_false_r. destruct (decide (k ∈ entries.*1)) as [[-> Hs]%Hin|Hn].
    + by rewrite bool_decide_eq_true_2.
    + destruct (starts_with k p); [|done]. rewrite bool_decide_eq_false_2 by tauto. done.
Qed.

Lemma admit_edits_Ok view d explicit m m' :
  try_fold (admit_edit view d) m (btree_list explicit) = Ok m' → m' = explicit ∪ m.
Proof.
  intros H. eapply try_fold_pure with (g := λ m e, <[e.1 := e.2]> m) (P := λ _, True) in H as [-> _].
  - apply btree_foldl_insert.
  - intros s e s' Hs. unfold admit_edit in Hs. destruct (_ || _); [done|]. res_inv. done.
Qed.

Lemma keep_differences_Ok full view (edits : FieldEdits) m' k :
  view_of full view → try_fold (keep_difference view) ∅ (btree_list edits) = Ok m' →
  m' !! k = v ← edits !! k; if option_field_eqb (full !! k) v then None else Some v.
Proof.
  intros Hview H.
  eapply try_fold_pure with (P := λ _, True)
    (g := λ m e, if negb (option_field_eqb (full !! e.1) e.2) then <[e.1 := e.2]> m else m) in H as [-> _].
  - rewrite (btree_foldl _ (λ k v o, if option_field_eqb (full !! k) v then o else Some v)).
    + rewrite lookup_empty. by destruct (edits !! k).
    + intros m [i v] j. cbn. destruct (option_field_eqb (full !! i) v); cbn.
      * by destruct (decide (j = i)).
      * destruct (decide (j = i)) as [->|]; [apply lookup_insert_eq|by apply lookup_insert_ne].
  - intros s e s' Hs. unfold keep_difference in Hs. apply bind_Ok in Hs as (o & Ho & [= <-]).
    by rewrite (checked_get_Ok _ _ _ _ Hview Ho).
Qed.

Lemma resolved_then_apply a b full :
  resolved_apply (resolved_then a b) full = resolved_apply b (resolved_apply a full).
Proof.
  destruct a as [|r|e], b as [|r'|e']; try done. cbn [resolved_then resolved_apply].
  apply map_eq. intros k. rewrite !apply_edits_lookup, lookup_union.
  by destruct (e' !! k), (e !! k).
Qed.

Lemma resolve_edits_Ok full view explicit prefixes d r :
  view_of full view → resolve_edits view explicit prefixes d = Ok r →
  ∃ actual : FieldEdits, (r = if bool_decide (actual = ∅) then FPreserve else FEdit actual) ∧
  ∀ k, actual !! k =
    v ← match explicit !! k with
        | Some v => Some v
        | None => if removed prefixes k && bool_decide (is_Some (full !! k)) then Some None else None
        end;
    if option_field_eqb (full !! k) v then None else Some v.
Proof.
  intros Hview H. unfold resolve_edits in H.
  apply bind_Ok in H as (e0 & H0 & H). apply bind_Ok in H as (e1 & H1 & H).
  apply bind_Ok in H as (actual & H2 & [= <-]). exists actual. split; [done|]. intros k.
  rewrite (keep_differences_Ok _ _ _ _ _ Hview H2), (admit_edits_Ok _ _ _ _ _ H1), lookup_union.
  rewrite (freeze_prefixes_Ok full view d _ _ _ k Hview H0). unfold removed.
  rewrite lookup_empty. by destruct (explicit !! k), (_ && _).
Qed.

(** The change a resolution freezes, name by name. *)
Lemma resolve_edits_lookup full view explicit prefixes d r k :
  view_of full view → resolve_edits view explicit prefixes d = Ok r →
  resolved_apply r full !! k = edited full explicit prefixes k ∨
  (resolved_apply r full !! k = full !! k ∧
   option_field_eqb (full !! k) (edited full explicit prefixes k) = true).
Proof.
  intros Hview Hr. destruct (resolve_edits_Ok _ _ _ _ _ _ Hview Hr) as (actual & -> & Hk).
  assert (Happ : resolved_apply (if bool_decide (actual = ∅) then FPreserve else FEdit actual) full !! k =
    match actual !! k with Some v => v | None => full !! k end).
  { case_bool_decide as E; [rewrite E, lookup_empty; done|]. apply apply_edits_lookup. }
  rewrite Happ, Hk. unfold edited. destruct (explicit !! k) as [v|]; cbn.
  { destruct (option_field_eqb (full !! k) v) eqn:Ev; [by right|by left]. }
  destruct (removed prefixes k); cbn; [|by left].
  destruct (full !! k) as [x|] eqn:Ef; cbn; by left.
Qed.

(** ** Properties *)

(** Edits resolved on a partial view are edits of the stored record: the
    frozen change, applied to the complete fields the view was taken from,
    gives every name the value the request asks for (explicit edits first, then
    prefix removals, everything else untouched), except that a value comparing
    equal to the stored one keeps the stored one; and it names only fields that
    really change. *)
Theorem resolve_edits_refines full view explicit prefixes d r :
  view_of full view → resolve_edits view explicit prefixes d = Ok r →
  (∀ k, resolved_apply r full !! k = edited full explicit prefixes k ∨
    (resolved_apply r full !! k = full !! k ∧
     option_field_eqb (full !! k) (edited full explicit prefixes k) = true)) ∧
  (∀ k, edits_name r k = true → option_field_eqb (full !! k) (resolved_apply r full !! k) = false) ∧
  is_replace r = false.
Proof.
  intros Hview Hr. split; [intros k; by eapply resolve_edits_lookup|].
  destruct (resolve_edits_Ok _ _ _ _ _ _ Hview Hr) as (actual & -> & Hk).
  case_bool_decide as E; [done|]. split; [|done]. intros k Hn. cbn in Hn.
  apply bool_decide_eq_true in Hn as [v Hv]. cbn [resolved_apply]. rewrite apply_edits_lookup, Hv.
  rewrite Hk in Hv. apply bind_Some in Hv as (w & _ & Hw).
  destruct (option_field_eqb (full !! k) w) eqn:Ew; [done|]. by injection Hw as <-.
Qed.

Definition sample_full : Fields := {[ "age"%string := FInteger 3; "x/a"%string := FBoolean true ]}.
Definition sample_view : CheckedFields :=
  mkCheckedFields {[ "x/a"%string := FBoolean true ]} (SelectedCoverage ∅ {[ "x/"%string ]}).

Lemma sample_view_of : view_of sample_full sample_view.
Proof.
  split.
  - intros k v Hk. cbn [cf_fields sample_view] in Hk. apply lookup_singleton_Some in Hk as [<- <-]. reflexivity.
  - intros k Hk. destruct (decide (k = "age"%string)) as [->|Hne]; [discriminate Hk|].
    unfold sample_full. by rewrite lookup_insert_ne.
Qed.

Lemma resolve_edits_refines_witness :
  (∀ k, edits_name (FEdit {[ "x/a"%string := None ]}) k = true →
    option_field_eqb (sample_full !! k)
      (resolved_apply (FEdit {[ "x/a"%string := None ]}) sample_full !! k) = false) ∧
  is_replace (FEdit {[ "x/a"%string := None ]}) = false.
Proof.
  apply (resolve_edits_refines sample_full sample_view ∅ {[ "x/"%string ]} sample_definition
    (FEdit {[ "x/a"%string := None ]}) sample_view_of). vm_compute. reflexivity.
Defined.

(** Coalescing is sequential execution: applying the composition of two
    resolved changes is applying them in order, on any stored fields. *)
Theorem resolved_then_sequential a b full :
  resolved_apply (resolved_then a b) full = resolved_apply b (resolved_apply a full).
Proof. apply resolved_then_apply. Qed.

(** A change applied to a view and to the stored fields leaves a view. *)
Lemma apply_to_view_of full fields coverage change fields' coverage' :
  view_of full (mkCheckedFields fields coverage) →
  apply_to_view fields coverage change = (fields', coverage') →
  view_of (resolved_apply change full) (mkCheckedFields fields' coverage').
Proof.
  intros [Hv Hc] [= <- <-]. destruct change as [|r|e]; cbn [resolved_apply].
  - done.
  - done.
  - split; cbn [cf_fields cf_coverage] in *.
    + intros k v. rewrite !apply_edits_lookup. destruct (e !! k); [done|]. apply Hv.
    + intros k Hk. rewrite !apply_edits_lookup. destruct (e !! k) eqn:Ek; [done|]. apply Hc.
      destruct coverage as [|names prefixes]; [done|]. cbn in *.
      apply orb_true_iff in Hk as [Hk|Hk]; [|by rewrite Hk, orb_true_r].
      apply bool_decide_eq_true, elem_of_union in Hk as [Hk|[v Hk]%elem_of_dom].
      * by rewrite bool_decide_eq_true_2.
      * by rewrite Hk in Ek.
Qed.

(** Views stay honest: applying a change to a view and to the stored fields
    leaves a view of the stored fields, so an unloaded field never becomes known
    absent. *)
Theorem apply_to_view_honest full fields coverage change fields' coverage' :
  view_of full (mkCheckedFields fields coverage) →
  apply_to_view fields coverage change = (fields', coverage') →
  view_of (resolved_apply change full) (mkCheckedFields fields' coverage').
Proof. apply apply_to_view_of. Qed.

Lemma apply_to_view_honest_witness :
  view_of (resolved_apply (FEdit {[ "age"%string := None ]}) sample_full)
    (mkCheckedFields {[ "x/a"%string := FBoolean true ]} (SelectedCoverage {[ "age"%string ]} {[ "x/"%string ]})).
Proof.
  apply (apply_to_view_honest sample_full {[ "x/a"%string := FBoolean true ]}
    (SelectedCoverage ∅ {[ "x/"%string ]}) (FEdit {[ "age"%string := None ]})); [apply sample_view_of|].
  vm_compute. reflexivity.
Defined.

(** Replayed field commands are fenced: a command is accepted only at the
    high-water mark it was planned at and on the record version it read, it
    moves the version strictly forward to the new high-water mark, and a missing
    record is only ever created by a full replacement. *)
Theorem apply_command_fenced current highwater command record highwater' :
  apply_command current highwater command = Ok (record, highwater') →
  prior_highwater command = highwater ∧ highwater < highwater' ∧
  fr_version record = highwater' ∧ fr_version <$> current = predecessor command ∧
  match current with
  | Some r => fr_version r = highwater ∧ fr_fields record = resolved_apply (rc_change command) (fr_fields r)
  | None => rc_change command = FReplace (fr_fields record)
  end.
Proof.
  unfold apply_command. intros H.
  destruct (_ || _) eqn:Hg; [done|]. rewrite !orb_false_iff in Hg.
  destruct Hg as (((((Hp & _) & _) & Hv) & Hpre) & Hh).
  apply negb_false_iff, Z.eqb_eq in Hp. apply Z.leb_gt in Hv.
  apply negb_false_iff, bool_decide_eq_true in Hpre. apply negb_false_iff in Hh.
  apply bind_Ok in H as (f & Hf & [= <- <-]). cbn.
  split_and!; [done|done|done|done|].
  destruct current as [r|]; cbn in *.
  - apply Z.eqb_eq in Hh. injection Hf as <-. done.
  - destruct (rc_change command); cbn in *; done.
Qed.

Lemma apply_command_fenced_witness :
  4 < 5 ∧ {[ "age"%string := FInteger 9 ]} =
    resolved_apply (FEdit {[ "age"%string := Some (FInteger 9) ]}) {[ "age"%string := FInteger 7 ]}.
Proof.
  destruct (apply_command_fenced (Some (mkFieldRecord 4 {[ "age"%string := FInteger 7 ]})) 4
    (mkResolvedFieldCommand (Some 4) 4 5 (FEdit {[ "age"%string := Some (FInteger 9) ]}))
    (mkFieldRecord 5 {[ "age"%string := FInteger 9 ]}) 5) as (_ & Hv & _ & _ & _ & Hf); [reflexivity|].
  exact (conj Hv Hf).
Defined.
