(* ===== verification/Administration.v ===== *)
(** Administrative proposals of [fireweed-core/src/queue_administration.rs]:
    actions, intents, their validation, clause selection, outcomes and the
    histogram of a result. *)
From S2P Require Import Prelude Identity Field Records Selector.

Inductive AdministrativeAction :=
| AUpdate (patch : WorkPatch) (lifecycle : AdministrativeLifecycle)
    (lease_guard : AdministrativeLeaseGuard) (remove_field_prefixes : gset string)
| ADelete (lease_guard : AdministrativeLeaseGuard).

Definition action_validate (a : AdministrativeAction) (schema : QueueSchema) (limits : QueueLimits)
    : QueueResult unit :=
  match a with
  | AUpdate value _ _ remove_field_prefixes =>
      _ ← check_patch value schema limits;
      try_for_each (λ prefix,
        _ ← name prefix;
        if negb (existsb (starts_with prefix)
                   (btree_elems (cd_additional_field_prefixes (schema_work schema))))
        then Err (invalid "prefix removal outside provisioned additional namespace") else Ok tt)
        (btree_elems remove_field_prefixes)
  | ADelete _ => Ok tt
  end.

Record AdministrativeEntry := mkAdministrativeEntry {
  ae_key : string;
  ae_expected_version : option Z;
  ae_precondition : WorkSelector;
  ae_action : AdministrativeAction;
}.

Record AdministrativeClause := mkAdministrativeClause {
  ac_id : string;
  ac_selector : WorkSelector;
  ac_precondition : WorkSelector;
  ac_action : AdministrativeAction;
}.

Inductive AdministrativeOperation :=
| Addressed (entries : list AdministrativeEntry)
| SelectFirst (clauses : list AdministrativeClause).

Record AdministrativeIntent := mkAdministrativeIntent {
  evaluated_at : Z;
  operation : AdministrativeOperation;
  before_fields : option (gset string);
}.

Definition check_before_fields (i : AdministrativeIntent) (schema : QueueSchema) : QueueResult unit :=
  match before_fields i with
  | Some names =>
      try_for_each (λ field,
        _ ← name field;
        if negb (admits_field (schema_work schema) field)
        then Err (invalid "undeclared before field") else Ok tt) (btree_elems names)
  | None => Ok tt
  end.

Definition intent_validate (i : AdministrativeIntent) (schema : QueueSchema) (limits : QueueLimits)
    : QueueResult unit :=
  _ ← QueueSchema_validate schema;
  _ ← QueueLimits_validate limits;
  _ ← check_before_fields i schema;
  match operation i with
  | Addressed entries =>
      if max_records limits <? Z.of_nat (length entries) then
        Err (invalid "too many addressed administrative entries")
      else try_for_each (λ e,
        _ ← name (ae_key e);
        _ ← selector_validate (ae_precondition e) (schema_work schema);
        action_validate (ae_action e) schema limits) entries
  | SelectFirst clauses =>
      if bool_decide (is_Some (before_fields i)) then
        Err (invalid "broad administration returns aggregates")
      else try_for_each (λ c,
        _ ← name (ac_id c);
        _ ← selector_validate (ac_selector c) (schema_work schema);
        _ ← selector_validate (ac_precondition c) (schema_work schema);
        action_validate (ac_action c) schema limits) clauses
  end.

Definition first_clause (i : AdministrativeIntent) (record : WorkRecord) : option nat :=
  match operation i with
  | SelectFirst clauses =>
      position (λ c, selector_matches (ac_selector c) record (evaluated_at i)) clauses
  | Addressed _ => None
  end.

Record AdministrativeBefore := mkAdministrativeBefore {
  ab_version : Z;
  ab_lifecycle : Lifecycle;
  ab_available_at : Z;
  ab_eligible_since : Z;
  ab_attempts : Z;
  ab_lease_expires_at : option Z;
  ab_fields : Fields;
}.

Inductive AdministrativeOutcome :=
| OChanged (version : Z)
| ODeleted (version : Z)
| ONoChange
| ONotFound
| OConflict (actual_version : Z)
| OLeased
| OLeaseRequired
| OPreconditionFailed
| OTerminal
| OInvalid
| OUniqueConflict.

Inductive AdministrativeOutcomeKind :=
| KChanged
| KDeleted
| KNoChange
| KNotFound
| KConflict
| KLeased
| KLeaseRequired
| KPreconditionFailed
| KTerminal
| KInvalid
| KUniqueConflict.

#[export] Instance AdministrativeOutcomeKind_eq_dec : EqDecision AdministrativeOutcomeKind.
Proof. solve_decision. Defined.

(** The kinds in their declaration order, the order of the derived [Ord]. *)
Definition kinds : list AdministrativeOutcomeKind :=
  [KChanged; KDeleted; KNoChange; KNotFound; KConflict; KLeased; KLeaseRequired;
   KPreconditionFailed; KTerminal; KInvalid; KUniqueConflict].

#[export] Program Instance AdministrativeOutcomeKind_countable : Countable AdministrativeOutcomeKind :=
  inj_countable (λ k, default O (fst <$> list_find (k =.) kinds)) (kinds !!.) _.
Next Obligation. by intros []. Qed.

Definition outcome_kind (o : AdministrativeOutcome) : AdministrativeOutcomeKind :=
  match o with
  | OChanged _ => KChanged
  | ODeleted _ => KDeleted
  | ONoChange => KNoChange
  | ONotFound => KNotFound
  | OConflict _ => KConflict
  | OLeased => KLeased
  | OLeaseRequired => KLeaseRequired
  | OPreconditionFailed => KPreconditionFailed
  | OTerminal => KTerminal
  | OInvalid => KInvalid
  | OUniqueConflict => KUniqueConflict
  end.

Record AdministrativeHistogram := mkAdministrativeHistogram {
  matched : Z;
  outcomes : gmap AdministrativeOutcomeKind Z;
}.

Definition AdministrativeHistogram_default : AdministrativeHistogram := mkAdministrativeHistogram 0 ∅.

Definition histogram_record (h : AdministrativeHistogram) (outcome : AdministrativeOutcome)
    : QueueResult AdministrativeHistogram :=
  let kind := outcome_kind outcome in
  count ← ok_or (checked_add_u64 (default 0 (outcomes h !! kind)) 1)
            (OutcomeUnknown "administrative count exhausted");
  matched ← ok_or (checked_add_u64 (matched h) 1) (OutcomeUnknown "administrative count exhausted");
  Ok (mkAdministrativeHistogram matched (<[kind := count]> (outcomes h))).

Record AdministrativeItemResult := mkAdministrativeItemResult {
  air_key : string;
  air_outcome : AdministrativeOutcome;
  air_before : option AdministrativeBefore;
}.

Record AdministrativeClauseResult := mkAdministrativeClauseResult {
  acr_id : string;
  acr_histogram : AdministrativeHistogram;
}.

Record AdministrativeResult := mkAdministrativeResult {
  ar_histogram : AdministrativeHistogram;
  ar_items : list AdministrativeItemResult;
  ar_clauses : list AdministrativeClauseResult;
}.

(** ** Lemmas *)

(** How many outcomes of a list are of a kind. *)
Definition count_kind (k : AdministrativeOutcomeKind) (os : list AdministrativeOutcome) : Z :=
  Z.of_nat (length (List.filter (λ o, bool_decide (outcome_kind o = k)) os)).

Lemma count_kind_cons k o os :
  count_kind k (o :: os) = (if bool_decide (outcome_kind o = k) then 1 else 0) + count_kind k os.
Proof. unfold count_kind. cbn. case_bool_decide; cbn [length]; lia. Qed.

Lemma count_kind_le k os : 0 ≤ count_kind k os ≤ Z.of_nat (length os).
Proof.
  induction os as [|o os IH]; [done|]. rewrite count_kind_cons. cbn [length]. case_bool_decide; lia.
Qed.

Lemma histogram_fold os h :
  (∀ k, 0 ≤ default 0 (outcomes h !! k) ≤ matched h) →
  matched h + Z.of_nat (length os) ≤ u64_max →
  ∃ h', try_fold histogram_record h os = Ok h' ∧
    matched h' = matched h + Z.of_nat (length os) ∧
    ∀ k, default 0 (outcomes h' !! k) = default 0 (outcomes h !! k) + count_kind k os.
Proof.
  revert h. induction os as [|o os IH]; intros h Hle Hmax.
  { exists h. split; [done|]. split; [cbn; lia|]. intros k. unfold count_kind. cbn. lia. }
  cbn [length] in Hmax. rewrite try_fold_cons. pose proof (Hle (outcome_kind o)) as Hk.
  set (h1 := mkAdministrativeHistogram (matched h + 1)
    (<[outcome_kind o := default 0 (outcomes h !! outcome_kind o) + 1]> (outcomes h))).
  assert (histogram_record h o = Ok h1) as ->.
  { unfold histogram_record, checked_add_u64. rewrite !(proj2 (Z.leb_le _ _)) by lia. done. }
  cbn [mbind result_bind].
  assert (H1 : ∀ k, default 0 (outcomes h1 !! k) =
    default 0 (outcomes h !! k) + (if bool_decide (outcome_kind o = k) then 1 else 0)).
  { intros k. unfold h1. cbn. case_bool_decide as E.
    - subst k. rewrite lookup_insert_eq. done.
    - rewrite lookup_insert_ne by done. lia. }
  destruct (IH h1) as (h' & Hf & Hm & Hc).
  - intros k. rewrite H1. specialize (Hle k). unfold h1. cbn. case_bool_decide; lia.
  - unfold h1. cbn. lia.
  - exists h'. split; [done|]. split; [rewrite Hm; unfold h1; cbn; lia|].
    intros k. rewrite Hc, H1, count_kind_cons. lia.
Qed.

(** ** Properties *)

(** The histogram counts every position once: recording a list of outcomes
    succeeds while the counters can hold them, [matched] is the number of
    positions and each kind's count is the number of outcomes of that kind. *)
Theorem histogram_counts os :
  Z.of_nat (length os) ≤ u64_max →
  ∃ h, try_fold histogram_record AdministrativeHistogram_default os = Ok h ∧
    matched h = Z.of_nat (length os) ∧
    ∀ k, default 0 (outcomes h !! k) = count_kind k os.
Proof.
  intros Hmax. destruct (histogram_fold os AdministrativeHistogram_default) as (h & Hf & Hm & Hc).
  - intros k. cbn. by rewrite lookup_empty.
  - done.
  - exists h. split; [done|]. split; [done|]. intros k. rewrite Hc. cbn. rewrite lookup_empty. cbn. lia.
Qed.

Lemma histogram_counts_witness :
  ∃ h, try_fold histogram_record AdministrativeHistogram_default [OLeased; OChanged 3; OLeased] = Ok h ∧
    matched h = 3 ∧ ∀ k, default 0 (outcomes h !! k) = count_kind k [OLeased; OChanged 3; OLeased].
Proof. apply (histogram_counts [OLeased; OChanged 3; OLeased]). vm_compute. discriminate. Defined.
