(* ===== verification/Commit.v ===== *)
(** Requests of [fireweed-core/src/queue_contract.rs]: commit groups and the other
    request types, canonical size accounting, fingerprints, preflight and schema
    validation. *)
From S2P Require Import Prelude Identity Field Records Selector Administration.

(** ** Commit groups, receipts and outcomes *)

Record AdministrativeCommit := mkAdministrativeCommit {
  acm_intent : AdministrativeIntent;
  acm_max_result_bytes : Z;
}.

Record CommitGroup := mkCommitGroup {
  request_id : string;
  claimed_updates : list ClaimedUpdate;
  state_updates : list StateUpdate;
  work_inserts : list NewWork;
  work_updates : list UnclaimedUpdate;
  administration : option AdministrativeCommit;
}.

Record CommitBatch := mkCommitBatch { cb_queue : QueueAddress; cb_groups : list CommitGroup }.

Record PreviewRequest := mkPreviewRequest { pr_queue : QueueAddress; pr_group : CommitGroup }.

Inductive GroupOutcome :=
| RequestConflict
| RequestExpired
| Committed (versions : list RecordVersion)
| Rejected (reason : Rejection)
| AdministrativeCommitted (versions : list RecordVersion) (result : AdministrativeResult).

Inductive PreviewOutcome :=
| PCommitted (versions : list RecordVersion)
| PAdministrativeCommitted (versions : list RecordVersion) (result : AdministrativeResult)
| PRejected (reason : Rejection).

Definition preview_of (outcome : GroupOutcome) : QueueResult PreviewOutcome :=
  match outcome with
  | Committed versions => Ok (PCommitted versions)
  | AdministrativeCommitted versions administration => Ok (PAdministrativeCommitted versions administration)
  | Rejected reason => Ok (PRejected reason)
  | RequestConflict | RequestExpired =>
      Err (OutcomeUnknown "preview returned execution receipt status")
  end.

Record CommitReceipt := mkCommitReceipt { rc_request_id : string; rc_outcome : GroupOutcome }.

Inductive InsertMode := InsertOnly | Upsert.
#[export] Instance InsertMode_eq_dec : EqDecision InsertMode.
Proof. solve_decision. Defined.

Record InsertRequest := mkInsertRequest {
  ir_queue : QueueAddress;
  ir_request_id : string;
  ir_mode : InsertMode;
  ir_items : list NewWork;
}.

Inductive InsertOutcome :=
| Inserted (key : string) (version : Z)
| Replaced (key : string) (version : Z)
| InsertRejected (key : string) (reason : Rejection).

Record StatsRequest := mkStatsRequest {
  st_buckets : option NumericBucketDimension;
  st_queue : QueueAddress;
  st_filter : Filter;
  st_group_by : list string;
  st_eligible_at : Z;
}.

Inductive RecordSource := SourceWork | SourceState (collection : string).

Record StateReadRequest := mkStateReadRequest {
  srr_queue : QueueAddress;
  srr_collection : string;
  srr_keys : list string;
  srr_max_bytes : Z;
}.

Record QueryRequest := mkQueryRequest {
  qr_queue : QueueAddress;
  qr_source : RecordSource;
  qr_index : string;
  qr_filter : Filter;
  qr_descending : bool;
  qr_cursor : option bytes;
  qr_max_records : Z;
  qr_max_bytes : Z;
}.

Record ProvisionRequest := mkProvisionRequest { pv_queue : QueueAddress; pv_schema : QueueSchema }.

Record ReceiptReadRequest := mkReceiptReadRequest {
  rr_queue : QueueAddress;
  rr_request_ids : list string;
  rr_max_bytes : Z;
}.

(** The records a successful receipt lists, in order. *)
Definition is_check (c : StateChange) : bool := match c with SCheck => true | _ => false end.

Definition modified_records (g : CommitGroup) : list (option string * string) :=
  ((λ u, (None, cu_key u)) <$>
     List.filter (λ u, negb (bool_decide (cu_disposition u = Check))) (claimed_updates g)) ++
  ((λ u, (Some (su_collection u), su_key u)) <$>
     List.filter (λ u, negb (is_check (su_change u))) (state_updates g)) ++
  ((λ u, (None, uu_key u)) <$> work_updates g) ++
  ((λ u, (None, nw_key u)) <$> work_inserts g).

(** ** Canonical sizes and fingerprints *)

(** The byte chunks [postcard] hands to a writer for a value. *)
Class Canonical (T : Type) := canonical : T → list bytes.

Definition canonical_bytes `{Canonical T} (v : T) : bytes := concat (canonical v).

(** [CanonicalWriter]; the hash is the bytes it has absorbed. *)
Record CanonicalWriter := mkCanonicalWriter {
  cw_hash : option bytes;
  cw_bytes : Z;
  cw_limit : Z;
}.

Definition writer_write (w : CanonicalWriter) (b : bytes) : result unit CanonicalWriter :=
  match checked_add_u64 (cw_bytes w) (byte_len b) with
  | Some next =>
      if next <=? cw_limit w
      then Ok (mkCanonicalWriter ((λ h, h ++ b) <$> cw_hash w) next (cw_limit w))
      else Err tt
  | None => Err tt
  end.

(** [postcard::to_io]. *)
Definition to_io `{Canonical T} (v : T) (w : CanonicalWriter) : result unit CanonicalWriter :=
  try_fold writer_write w (canonical v).

Definition to_le_bytes (n : nat) (z : Z) : bytes := rev (to_be_bytes n z).

(** What [fingerprint_format] has hashed before the value. *)
Definition fingerprint_prefix (format : bytes) (domain : string) : bytes :=
  format ++ to_le_bytes 8 (byte_len (as_bytes domain)) ++ as_bytes domain.

Definition fingerprint_format (sha256 : bytes → bytes) `{Canonical T}
    (format : bytes) (domain : string) (v : T) : QueueResult bytes :=
  w ← map_err (λ _, invalid "canonical encoding failed")
        (to_io v (mkCanonicalWriter (Some (fingerprint_prefix format domain)) 0 u64_max));
  Ok (sha256 (default [] (cw_hash w))).

Definition FORMAT_V3 : bytes := as_bytes "fireweed-api007-v3" ++ [Byte.x00].
Definition FORMAT_V4 : bytes := as_bytes "fireweed-api007-v4" ++ [Byte.x00].

Definition fingerprint (sha256 : bytes → bytes) `{Canonical T} (domain : string) (v : T) : QueueResult bytes :=
  fingerprint_format sha256 FORMAT_V3 domain v.

Definition encoded_len `{Canonical T} (v : T) : QueueResult Z :=
  w ← map_err (λ _, invalid "canonical encoding failed") (to_io v (mkCanonicalWriter None 0 u64_max));
  Ok (cw_bytes w).

Definition byte_limit `{Canonical T} (v : T) (max : Z) : QueueResult unit :=
  _ ← map_err (λ _, QTooLarge) (to_io v (mkCanonicalWriter None 0 max));
  Ok tt.

(** The frozen accounting projections of a group: five fields, and the
    administration value as a sixth when there is one. *)
Record CommitFingerprintV3 := mkCommitFingerprintV3 {
  v3_request_id : string;
  v3_claimed_updates : list ClaimedUpdate;
  v3_state_updates : list StateUpdate;
  v3_work_inserts : list NewWork;
  v3_work_updates : list UnclaimedUpdate;
}.
Record CommitFingerprintV4 := mkCommitFingerprintV4 {
  v4_group : CommitFingerprintV3;
  v4_intent : AdministrativeIntent;
  v4_max_result_bytes : Z;
}.

Definition v3_of (g : CommitGroup) : CommitFingerprintV3 :=
  mkCommitFingerprintV3 (request_id g) (claimed_updates g) (state_updates g) (work_inserts g) (work_updates g).

Inductive CommitAccountingGroup :=
| AccountV3 (v : CommitFingerprintV3)
| AccountV4 (v : CommitFingerprintV4).

Definition accounting (g : CommitGroup) : CommitAccountingGroup :=
  match administration g with
  | None => AccountV3 (v3_of g)
  | Some admin =>
      AccountV4 (mkCommitFingerprintV4 (v3_of g) (acm_intent admin) (acm_max_result_bytes admin))
  end.

(** The identity of a group: ordinary groups in format 3, administrative ones in
    format 4, each with its queue. *)
Definition administrative_fingerprint (sha256 : bytes → bytes) `{!Canonical (QueueAddress * CommitFingerprintV4)}
    (g : CommitGroup) (queue : QueueAddress) (intent : AdministrativeIntent) (max_result_bytes : Z)
    : QueueResult bytes :=
  fingerprint_format sha256 FORMAT_V4 "commit" (queue, mkCommitFingerprintV4 (v3_of g) intent max_result_bytes).
Definition group_fingerprint (sha256 : bytes → bytes) `{!Canonical (QueueAddress * CommitFingerprintV3)}
    `{!Canonical (QueueAddress * CommitFingerprintV4)} (g : CommitGroup) (queue : QueueAddress)
    : QueueResult bytes :=
  match administration g with
  | None => fingerprint sha256 "commit" (queue, v3_of g)
  | Some admin =>
      administrative_fingerprint sha256 g queue (acm_intent admin) (acm_max_result_bytes admin)
  end.
Definition claim_fingerprint (sha256 : bytes → bytes) `{!Canonical ClaimRequest} (r : ClaimRequest)
    : QueueResult bytes := fingerprint sha256 "claim" r.

Record BorrowedCommitEnvelope := mkBorrowedCommitEnvelope {
  be_queue : QueueAddress;
  be_groups : list CommitAccountingGroup;
}.

Definition commit_envelope (queue : QueueAddress) (groups : list CommitGroup) : BorrowedCommitEnvelope :=
  mkBorrowedCommitEnvelope queue (accounting <$> groups).

(** ** Validation *)

(** [if !set.insert(x) { return Err(..) }]. *)
Definition insert_new `{Countable A} (message : string) (seen : gset A) (a : A) : QueueResult (gset A) :=
  if bool_decide (a ∈ seen) then Err (invalid message) else Ok ({[a]} ∪ seen).

Section requests.
Context `{!Canonical ClaimRequest, !Canonical QueryRequest, !Canonical StateReadRequest,
  !Canonical StatsRequest, !Canonical InsertRequest, !Canonical ProvisionRequest,
  !Canonical ReceiptReadRequest, !Canonical CommitAccountingGroup,
  !Canonical BorrowedCommitEnvelope, !Canonical CommitReceipt, !Canonical InsertOutcome}.

Definition envelope `{Canonical T} (queue : QueueAddress) (request : T) (limits : QueueLimits)
    : QueueResult unit :=
  _ ← QueueAddress_validate queue;
  _ ← QueueLimits_validate limits;
  byte_limit request (max_request_bytes limits).

Definition response_limits (records : option Z) (b : Z) (limits : QueueLimits) : QueueResult unit :=
  if negb (is_none_or records (λ count, negb ((count =? 0) || (max_records limits <? count))))
     || (b =? 0) || (max_response_bytes limits <? b)
  then Err (invalid "invalid response limits") else Ok tt.

Definition claim_preflight (r : ClaimRequest) (limits : QueueLimits) : QueueResult unit :=
  _ ← envelope (cr_queue r) r limits;
  _ ← name (cr_request_id r);
  _ ← lease_duration (cr_lease_nanos r);
  response_limits (Some (cr_max_records r)) (cr_max_bytes r) limits.

Definition claim_validate (r : ClaimRequest) (schema : QueueSchema) (limits : QueueLimits) : QueueResult unit :=
  _ ← claim_preflight r limits;
  _ ← name (cr_request_id r);
  _ ← QueueLimits_validate limits;
  _ ← filter_validate (cr_filter r) (schema_work schema);
  _ ← lease_duration (cr_lease_nanos r);
  if negb (is_none_or (f_lifecycle (cr_filter r)) (λ s, bool_decide (s = Pending))) then
    Err (invalid "claims select pending work only")
  else if (cr_max_records r =? 0) || (max_records limits <? cr_max_records r)
          || (cr_max_bytes r =? 0) || (max_response_bytes limits <? cr_max_bytes r) then
    Err (invalid "invalid claim limits")
  else if negb (is_none_or (cr_fields r) (λ selected,
             forallb (admits_field (schema_work schema)) (btree_elems selected))) then
    Err (invalid "undeclared return field")
  else byte_limit r (max_request_bytes limits).

Definition query_preflight (r : QueryRequest) (limits : QueueLimits) : QueueResult unit :=
  _ ← envelope (qr_queue r) r limits;
  response_limits (Some (qr_max_records r)) (qr_max_bytes r) limits.

Definition query_validate (r : QueryRequest) (schema : QueueSchema) (limits : QueueLimits) : QueueResult unit :=
  _ ← query_preflight r limits;
  _ ← QueueLimits_validate limits;
  d ← match qr_source r with
      | SourceWork => Ok (schema_work schema)
      | SourceState collection =>
          if bool_decide (is_Some (f_lifecycle (qr_filter r))) then Err (invalid "state has no work lifecycle")
          else ok_or (schema_state schema !! collection) (invalid "undeclared state collection")
      end;
  if negb (bool_decide (qr_index r = "$key"%string)) && negb (bool_decide (is_Some (cd_indexes d !! qr_index r)))
  then Err (invalid "undeclared query index")
  else
    _ ← filter_validate (qr_filter r) d;
    if (qr_max_records r =? 0) || (max_records limits <? qr_max_records r)
       || (qr_max_bytes r =? 0) || (max_response_bytes limits <? qr_max_bytes r)
    then Err (invalid "invalid query limits")
    else byte_limit r (max_request_bytes limits).

Definition state_read_preflight (r : StateReadRequest) (limits : QueueLimits) : QueueResult unit :=
  _ ← envelope (srr_queue r) r limits;
  _ ← name (srr_collection r);
  _ ← response_limits None (srr_max_bytes r) limits;
  if max_records limits <? Z.of_nat (length (srr_keys r)) then Err (invalid "invalid state read limits")
  else try_for_each name (srr_keys r).

Definition state_read_validate (r : StateReadRequest) (schema : QueueSchema) (limits : QueueLimits)
    : QueueResult unit :=
  _ ← state_read_preflight r limits;
  _ ← QueueLimits_validate limits;
  if negb (bool_decide (is_Some (schema_state schema !! srr_collection r))) then
    Err (invalid "undeclared state collection")
  else if (max_records limits <? Z.of_nat (length (srr_keys r)))
          || (srr_max_bytes r =? 0) || (max_response_bytes limits <? srr_max_bytes r) then
    Err (invalid "invalid state read limits")
  else
    _ ← try_for_each name (srr_keys r);
    byte_limit r (max_request_bytes limits).

Definition stats_preflight (r : StatsRequest) (limits : QueueLimits) : QueueResult unit :=
  _ ← envelope (st_queue r) r limits;
  if negb (is_none_or (st_buckets r) (λ d, bool_decide (length (buckets d) ≤ 50)%nat))
  then Err (invalid "too many numeric buckets") else Ok tt.

Definition stats_validate (r : StatsRequest) (schema : QueueSchema) (limits : QueueLimits) : QueueResult unit :=
  _ ← stats_preflight r limits;
  _ ← QueueLimits_validate limits;
  _ ← filter_validate (st_filter r) (schema_work schema);
  _ ← match st_buckets r with
      | Some dimension => buckets_validate dimension (schema_work schema)
      | None => Ok tt
      end;
  _ ← try_fold (λ seen key,
        if negb (admits_field (schema_work schema) key) then Err (invalid "invalid stats grouping")
        else insert_new "invalid stats grouping" seen key) (∅ : gset string) (st_group_by r);
  byte_limit r (max_request_bytes limits).

Definition provision_validate (r : ProvisionRequest) (limits : QueueLimits) : QueueResult unit :=
  _ ← QueueAddress_validate (pv_queue r);
  _ ← QueueSchema_validate (pv_schema r);
  _ ← QueueLimits_validate limits;
  if (max_groups limits <? Z.of_nat (size (schema_state (pv_schema r))))
     || existsb (λ d, (max_records limits <? Z.of_nat (size (cd_fields d)))
                      || (max_groups limits <? Z.of_nat (size (cd_indexes d))))
          (schema_work (pv_schema r) :: btree_values (schema_state (pv_schema r)))
  then Err (invalid "schema count limit exceeded")
  else byte_limit r (max_request_bytes limits).

Definition receipt_read_validate (r : ReceiptReadRequest) (limits : QueueLimits) : QueueResult unit :=
  _ ← QueueAddress_validate (rr_queue r);
  _ ← QueueLimits_validate limits;
  if (max_records limits <? Z.of_nat (length (rr_request_ids r)))
     || (rr_max_bytes r =? 0) || (max_response_bytes limits <? rr_max_bytes r)
  then Err (invalid "invalid receipt read limits")
  else
    _ ← try_for_each name (rr_request_ids r);
    byte_limit r (max_request_bytes limits).

(** ** Inserts *)

Definition insert_preflight (r : InsertRequest) (limits : QueueLimits) : QueueResult unit :=
  _ ← envelope (ir_queue r) r limits;
  _ ← name (ir_request_id r);
  if bool_decide (ir_items r = []) || (max_records limits <? Z.of_nat (length (ir_items r)))
  then Err (invalid "invalid insert count")
  else
    _ ← try_fold (λ seen item,
          _ ← name (nw_key item);
          seen ← insert_new "duplicate insert key" seen (nw_key item);
          if max_body_bytes limits <? byte_len (nw_body item) then Err QTooLarge else Ok seen)
          (∅ : gset string) (ir_items r);
    Ok tt.

(** ["x".repeat(n)]. *)
Fixpoint repeat_x (n : nat) : string :=
  match n with O => EmptyString | S n => String (Ascii.ascii_of_nat 120) (repeat_x n) end.

(** Add the larger of two encodings to the response size and check the limit. *)
Definition reserve_response `{Canonical T} (limits : QueueLimits) (total : Z) (success rejected : T)
    : QueueResult Z :=
  a ← encoded_len success;
  b ← encoded_len rejected;
  total ← ok_or (checked_add_u64 total (Z.max a b)) QTooLarge;
  if max_response_bytes limits <? total then Err QTooLarge else Ok total.

Definition insert_validate (r : InsertRequest) (schema : QueueSchema) (limits : QueueLimits) : QueueResult unit :=
  _ ← insert_preflight r limits;
  _ ← name (ir_request_id r);
  _ ← QueueLimits_validate limits;
  if bool_decide (ir_items r = []) || (max_records limits <? Z.of_nat (length (ir_items r)))
  then Err (invalid "invalid insert count")
  else
    _ ← try_fold (λ seen item,
          seen ← insert_new "duplicate insert key" seen (nw_key item);
          _ ← check_work item schema limits;
          Ok seen) (∅ : gset string) (ir_items r);
    _ ← try_fold (λ total item,
          reserve_response limits total (Replaced (nw_key item) u64_max)
            (InsertRejected (nw_key item) (RInvalid (repeat_x 256)))) 10 (ir_items r);
    byte_limit r (max_request_bytes limits).

(** ** Commit groups *)

(** The four lists of a group. *)
Definition record_count (g : CommitGroup) : Z :=
  Z.of_nat (length (claimed_updates g)) + Z.of_nat (length (state_updates g)) +
  Z.of_nat (length (work_inserts g)) + Z.of_nat (length (work_updates g)).

(** The count of a group's records, an overflow being too large. *)
Definition check_count (g : CommitGroup) (limits : QueueLimits) : QueueResult unit :=
  if u64_max <? record_count g then Err QTooLarge
  else if ((record_count g =? 0) && bool_decide (administration g = None))
          || (max_records limits <? record_count g)
  then Err (invalid "invalid group record count") else Ok tt.

Definition check_result_bytes (g : CommitGroup) (limits : QueueLimits) : QueueResult unit :=
  match administration g with
  | Some admin =>
      if (acm_max_result_bytes admin =? 0) || (max_response_bytes limits <? acm_max_result_bytes admin)
      then Err QTooLarge else Ok tt
  | None => Ok tt
  end.

(** Record identities: [None] is work, [Some] a state collection. *)
Definition claimed_ids (g : CommitGroup) : list (option string * string) :=
  (λ u, (None, cu_key u)) <$> claimed_updates g.
Definition update_ids (g : CommitGroup) : list (option string * string) :=
  (λ u, (None, uu_key u)) <$> work_updates g.
Definition insert_ids (g : CommitGroup) : list (option string * string) :=
  (λ u, (None, nw_key u)) <$> work_inserts g.
Definition state_ids (g : CommitGroup) : list (option string * string) :=
  (λ u, (Some (su_collection u), su_key u)) <$> state_updates g.

Definition preflight_group (limits : QueueLimits) (ids : gset string) (g : CommitGroup)
    : QueueResult (gset string) :=
  _ ← name (request_id g);
  ids ← insert_new "duplicate group identity" ids (request_id g);
  _ ← check_count g limits;
  _ ← check_result_bytes g limits;
  _ ← try_for_each (λ u,
        if bool_decide (cu_disposition u = Check) && negb (WorkPatch_is_default (cu_patch u))
        then Err (invalid "claim check requires an empty patch") else Ok tt) (claimed_updates g);
  _ ← try_fold (insert_new "duplicate record in group") (∅ : gset (option string * string))
        (claimed_ids g ++ update_ids g ++ insert_ids g ++ state_ids g);
  _ ← byte_limit (accounting g) (max_group_bytes limits);
  Ok ids.

Definition preflight_commit_groups (queue : QueueAddress) (groups : list CommitGroup) (limits : QueueLimits)
    : QueueResult unit :=
  _ ← envelope queue (commit_envelope queue groups) limits;
  if bool_decide (groups = []) || (max_groups limits <? Z.of_nat (length groups))
  then Err (invalid "invalid commit group count")
  else
    _ ← try_fold (preflight_group limits) (∅ : gset string) groups;
    Ok tt.

(** The loops of [validate_commit_groups] over the parts of one group; the state
    is the set of record identities seen. *)
Abbreviation seen_ids := (gset (option string * string)).

Definition check_claimed (schema : QueueSchema) (limits : QueueLimits) (seen : seen_ids)
    (u : ClaimedUpdate) : QueueResult seen_ids :=
  _ ← name (cu_key u);
  seen ← insert_new "duplicate record in group" seen (None, cu_key u);
  if bool_decide (token (cu_lease u) = []) || (cu_expected_version u =? 0) then
    Err (invalid "invalid claim credential")
  else
    _ ← match cu_disposition u with
        | Retain (Some n) => lease_duration n
        | RetryAt time =>
            if negb (is_none_or (p_available_at (cu_patch u)) (λ patched, patched =? time))
            then Err (invalid "conflicting retry times") else Ok tt
        | _ => Ok tt
        end;
    _ ← check_patch (cu_patch u) schema limits;
    Ok seen.

Definition check_insert (schema : QueueSchema) (limits : QueueLimits) (seen : seen_ids)
    (item : NewWork) : QueueResult seen_ids :=
  seen ← insert_new "duplicate record in group" seen (None, nw_key item);
  _ ← check_work item schema limits;
  Ok seen.

Definition check_update (schema : QueueSchema) (limits : QueueLimits) (seen : seen_ids)
    (u : UnclaimedUpdate) : QueueResult seen_ids :=
  _ ← name (uu_key u);
  seen ← insert_new "duplicate record in group" seen (None, uu_key u);
  _ ← expect (uu_expect u);
  _ ← match uu_expect u with
      | Absent => Err (invalid "unclaimed update requires existing version; creation uses work_inserts")
      | Version _ => Ok tt
      end;
  _ ← match uu_change u with
      | Patch value | Administrative value _ _ => check_patch value schema limits
      | Replace value =>
          if negb (bool_decide (nw_key value = uu_key u)) then Err (invalid "replacement key mismatch")
          else check_work value schema limits
      | UDelete => Ok tt
      end;
  Ok seen.

Definition check_state (schema : QueueSchema) (limits : QueueLimits) (seen : seen_ids)
    (u : StateUpdate) : QueueResult seen_ids :=
  _ ← name (su_key u);
  _ ← expect (su_expect u);
  definition ← ok_or (schema_state schema !! su_collection u) (invalid "undeclared state collection");
  seen ← insert_new "duplicate record in group" seen (Some (su_collection u), su_key u);
  _ ← match su_change u with
      | Put values value =>
          _ ← check_fields values definition;
          if max_state_bytes limits <? byte_len value then Err QTooLarge else Ok tt
      | _ => Ok tt
      end;
  Ok seen.

Definition check_group (schema : QueueSchema) (limits : QueueLimits) (identities : gset string)
    (g : CommitGroup) : QueueResult (gset string) :=
  _ ← name (request_id g);
  identities ← insert_new "duplicate group identity" identities (request_id g);
  _ ← check_count g limits;
  _ ← match administration g with
      | Some admin => intent_validate (acm_intent admin) schema limits
      | None => Ok tt
      end;
  keys ← try_fold (check_claimed schema limits) (∅ : seen_ids) (claimed_updates g);
  keys ← try_fold (check_insert schema limits) keys (work_inserts g);
  keys ← try_fold (check_update schema limits) keys (work_updates g);
  _ ← try_fold (check_state schema limits) keys (state_updates g);
  _ ← check_result_bytes g limits;
  _ ← byte_limit (accounting g) (max_group_bytes limits);
  Ok identities.

(** The response reserved for one group. *)
Definition reserve_group (limits : QueueLimits) (total : Z) (g : CommitGroup) : QueueResult Z :=
  match administration g with
  | Some admin =>
      total ← ok_or (checked_add_u64 total (acm_max_result_bytes admin)) QTooLarge;
      if max_response_bytes limits <? total then Err QTooLarge else Ok total
  | None =>
      reserve_response limits total
        (mkCommitReceipt (request_id g)
          (Committed ((λ e, mkRecordVersion e.1 e.2 u64_max) <$> modified_records g)))
        (mkCommitReceipt (request_id g) (Rejected (RInvalid (repeat_x 256))))
  end.

Definition validate_commit_groups (queue : QueueAddress) (groups : list CommitGroup)
    (schema : QueueSchema) (limits : QueueLimits) : QueueResult unit :=
  _ ← preflight_commit_groups queue groups limits;
  _ ← QueueSchema_validate schema;
  _ ← QueueLimits_validate limits;
  if bool_decide (groups = []) || (max_groups limits <? Z.of_nat (length groups))
  then Err (invalid "invalid commit group count")
  else
    _ ← try_fold (check_group schema limits) (∅ : gset string) groups;
    _ ← try_fold (reserve_group limits) 10 groups;
    byte_limit (commit_envelope queue groups) (max_request_bytes limits).

Definition batch_validate (b : CommitBatch) (schema : QueueSchema) (limits : QueueLimits) : QueueResult unit :=
  validate_commit_groups (cb_queue b) (cb_groups b) schema limits.
Definition preview_validate (r : PreviewRequest) (schema : QueueSchema) (limits : QueueLimits) : QueueResult unit :=
  validate_commit_groups (pr_queue r) [pr_group r] schema limits.

End requests.

(** ** Lemmas *)

Lemma writer_write_spec w b :
  cw_limit w ≤ u64_max →
  writer_write w b =
    let total := cw_bytes w + byte_len b in
    if total <=? cw_limit w
    then Ok (mkCanonicalWriter ((λ h, h ++ b) <$> cw_hash w) total (cw_limit w)) else Err tt.
Proof.
  intros Hlim. unfold writer_write, checked_add_u64. cbn zeta.
  destruct (Z.leb_spec (cw_bytes w + byte_len b) u64_max); [done|].
  by rewrite (proj2 (Z.leb_gt _ (cw_limit w))) by lia.
Qed.

(** A writer takes a value exactly when its limit holds all of it, however the
    bytes are chunked. *)
Lemma to_io_spec `{Canonical T} (v : T) w :
  0 ≤ cw_bytes w ≤ cw_limit w → cw_limit w ≤ u64_max →
  to_io v w =
    let total := cw_bytes w + byte_len (canonical_bytes v) in
    if total <=? cw_limit w
    then Ok (mkCanonicalWriter ((λ h, h ++ canonical_bytes v) <$> cw_hash w) total (cw_limit w))
    else Err tt.
Proof.
  unfold to_io, canonical_bytes. generalize (canonical v) as chunks. intros chunks.
  revert w. induction chunks as [|b chunks IH]; intros [h n lim] Hn Hlim; cbn in Hn, Hlim.
  - cbn. rewrite Z.add_0_r, (proj2 (Z.leb_le _ _)) by lia.
    destruct h; cbn; by rewrite ?app_nil_r.
  - rewrite try_fold_cons, writer_write_spec by (cbn; lia). cbn [cw_bytes cw_limit cw_hash concat].
    unfold byte_len in *. rewrite length_app, Nat2Z.inj_add, Z.add_assoc.
    destruct (Z.leb_spec (n + Z.of_nat (length b)) lim); cbn [mbind result_bind].
    2:{ by rewrite (proj2 (Z.leb_gt _ lim)) by lia. }
    rewrite IH by (cbn; lia). cbn [cw_bytes cw_limit cw_hash].
    destruct (_ <=? lim); [|done]. do 2 f_equal.
    destruct h; cbn; by rewrite ?app_assoc.
Qed.

Lemma byte_limit_Ok `{Canonical T} (v : T) max :
  0 ≤ max ≤ u64_max →
  byte_limit v max = if byte_len (canonical_bytes v) <=? max then Ok tt else Err QTooLarge.
Proof.
  intros Hmax. unfold byte_limit. rewrite to_io_spec by (cbn; lia). cbn [cw_bytes cw_limit].
  rewrite Z.add_0_l. by destruct (_ <=? _).
Qed.

Lemma fingerprint_format_Ok sha256 `{Canonical T} format domain (v : T) h :
  fingerprint_format sha256 format domain v = Ok h →
  h = sha256 (fingerprint_prefix format domain ++ canonical_bytes v).
Proof.
  unfold fingerprint_format. rewrite to_io_spec by (cbn; int_lia). cbn [cw_bytes cw_limit cw_hash].
  destruct (_ <=? _); [|done]. by intros [= <-].
Qed.

Lemma byte_len_nonneg b : 0 ≤ byte_len b.
Proof. unfold byte_len. lia. Qed.

(** The hashed bytes determine the format, the domain and the value's bytes. *)
Lemma fingerprint_prefix_inj f f' d d' p p' :
  length f = length f' → byte_len (as_bytes d) ≤ u64_max → byte_len (as_bytes d') ≤ u64_max →
  fingerprint_prefix f d ++ p = fingerprint_prefix f' d' ++ p' → f = f' ∧ d = d' ∧ p = p'.
Proof.
  intros Hf Hd Hd' H. unfold fingerprint_prefix, to_le_bytes in H. rewrite <-!app_assoc in H.
  apply app_inj_1 in H as [-> H]; [|done].
  apply app_inj_1 in H as [Hl H]; [|by rewrite !length_rev, !length_to_be_bytes].
  apply (f_equal (@rev _)) in Hl. rewrite !rev_involutive in Hl.
  pose proof (byte_len_nonneg (as_bytes d)). pose proof (byte_len_nonneg (as_bytes d')).
  apply to_be_bytes_inj in Hl; [|cbn; int_lia|cbn; int_lia].
  apply app_inj_1 in H as [Hs ->]; [|unfold byte_len in Hl; lia].
  split; [done|]. split; [by apply as_bytes_inj|done].
Qed.

Lemma insert_new_Ok `{Countable A} message (seen seen' : gset A) a :
  insert_new message seen a = Ok seen' → a ∉ seen ∧ seen' = {[a]} ∪ seen.
Proof. unfold insert_new. case_bool_decide; [done|]. by intros [= <-]. Qed.

Section admission.
Context `{!Canonical CommitAccountingGroup, !Canonical BorrowedCommitEnvelope, !Canonical CommitReceipt}.

(** What the planner relies on in a group. *)
Definition claimed_ok (u : ClaimedUpdate) : Prop :=
  token (cu_lease u) ≠ [] ∧ cu_expected_version u ≠ 0 ∧
  (∀ n, cu_disposition u = Retain (Some n) → 1000000 ≤ n ≤ 3600000000000) ∧
  (∀ t t', cu_disposition u = RetryAt t → p_available_at (cu_patch u) = Some t' → t' = t).
Definition update_ok (u : UnclaimedUpdate) : Prop :=
  (∃ v, uu_expect u = Version v ∧ v ≠ 0) ∧ ∀ w, uu_change u = Replace w → nw_key w = uu_key u.
Definition state_ok (schema : QueueSchema) (u : StateUpdate) : Prop :=
  is_Some (schema_state schema !! su_collection u) ∧ su_expect u ≠ Version 0.

Definition group_admitted (schema : QueueSchema) (limits : QueueLimits) (g : CommitGroup) : Prop :=
  NoDup (claimed_ids g ++ update_ids g ++ insert_ids g ++ state_ids g) ∧
  Forall claimed_ok (claimed_updates g) ∧
  Forall (λ u, cu_disposition u = Check → WorkPatch_is_default (cu_patch u) = true) (claimed_updates g) ∧
  Forall update_ok (work_updates g) ∧ Forall (state_ok schema) (state_updates g) ∧
  (record_count g = 0 → is_Some (administration g)) ∧ record_count g ≤ max_records limits.

Lemma check_claimed_Ok schema limits seen u seen' :
  check_claimed schema limits seen u = Ok seen' →
  claimed_ok u ∧ (None, cu_key u) ∉ seen ∧ seen' = {[(None, cu_key u)]} ∪ seen.
Proof.
  unfold check_claimed. intros H. apply bind_Ok in H as (_ & _ & H).
  apply bind_Ok in H as (s & [Hn ->]%insert_new_Ok & H).
  destruct (_ || _) eqn:Hc; [done|]. apply orb_false_iff in Hc as [Ht Hv].
  apply bool_decide_eq_false in Ht. apply Z.eqb_neq in Hv.
  apply bind_Ok in H as ([] & Hd & H). apply bind_Ok in H as (_ & _ & [= <-]).
  split; [|done]. unfold claimed_ok. split_and!; [done|done|..].
  - intros n E. rewrite E in Hd. by apply lease_duration_Ok.
  - intros t t' E Ea. rewrite E, Ea in Hd. cbn in Hd. destruct (Z.eqb_spec t' t); done.
Qed.

Lemma check_update_Ok schema limits seen u seen' :
  check_update schema limits seen u = Ok seen' →
  update_ok u ∧ (None, uu_key u) ∉ seen ∧ seen' = {[(None, uu_key u)]} ∪ seen.
Proof.
  unfold check_update. intros H. apply bind_Ok in H as (_ & _ & H).
  apply bind_Ok in H as (s & [Hn ->]%insert_new_Ok & H).
  apply bind_Ok in H as ([] & He & H). apply bind_Ok in H as ([] & Hv & H).
  apply bind_Ok in H as ([] & Hc & [= <-]). split; [|done]. split.
  - destruct (uu_expect u) as [|v]; [done|]. exists v. split; [done|]. cbn in He.
    by destruct (Z.eqb_spec v 0).
  - intros w E. rewrite E in Hc. by case_bool_decide.
Qed.

Lemma check_state_Ok schema limits seen u seen' :
  check_state schema limits seen u = Ok seen' →
  state_ok schema u ∧ (Some (su_collection u), su_key u) ∉ seen ∧
  seen' = {[(Some (su_collection u), su_key u)]} ∪ seen.
Proof.
  unfold check_state. intros H. apply bind_Ok in H as (_ & _ & H). apply bind_Ok in H as ([] & He & H).
  apply bind_Ok in H as (d & Hd%ok_or_Ok & H). apply bind_Ok in H as (s & [Hn ->]%insert_new_Ok & H).
  apply bind_Ok in H as (_ & _ & [= <-]). split; [|done]. split; [by exists d|].
  intros E. by rewrite E in He.
Qed.

Lemma check_count_Ok g limits :
  check_count g limits = Ok tt →
  (record_count g = 0 → is_Some (administration g)) ∧ record_count g ≤ max_records limits.
Proof.
  unfold check_count. destruct (u64_max <? record_count g); [done|].
  destruct (_ || _) eqn:Hc; [done|]. intros _. apply orb_false_iff in Hc as [Hz Hm].
  apply Z.ltb_ge in Hm. split; [|done]. intros E. rewrite E in Hz. cbn in Hz.
  apply bool_decide_eq_false in Hz. by destruct (administration g).
Qed.

(** One group of an accepted batch: the facts of its preflight ... *)
Lemma preflight_group_Ok limits ids g ids' :
  preflight_group limits ids g = Ok ids' →
  (NoDup (claimed_ids g ++ update_ids g ++ insert_ids g ++ state_ids g) ∧
   Forall (λ u, cu_disposition u = Check → WorkPatch_is_default (cu_patch u) = true) (claimed_updates g)) ∧
  request_id g ∉ ids ∧ ids' = {[request_id g]} ∪ ids.
Proof.
  unfold preflight_group. intros H. apply bind_Ok in H as (_ & _ & H).
  apply bind_Ok in H as (ids1 & [Hn ->]%insert_new_Ok & H).
  apply bind_Ok in H as (_ & _ & H). apply bind_Ok in H as (_ & _ & H).
  apply bind_Ok in H as ([] & Hp & H). apply bind_Ok in H as (keys & Hk & H).
  apply bind_Ok in H as (_ & _ & [= <-]). split; [|done]. split.
  - apply (try_fold_fresh _ id (λ _, True)) in Hk as (_ & Hd & _).
    + by rewrite list_fmap_id in Hd.
    + intros s x s' Hs. by apply insert_new_Ok in Hs.
  - apply try_for_each_Ok in Hp. eapply Forall_impl; [exact Hp|]. cbn. intros u Hu E.
    rewrite bool_decide_eq_true_2 in Hu by done. by destruct (WorkPatch_is_default (cu_patch u)).
Qed.

(** ... and of its schema validation. *)
Lemma check_group_Ok schema limits ids g ids' :
  check_group schema limits ids g = Ok ids' →
  (Forall claimed_ok (claimed_updates g) ∧ Forall update_ok (work_updates g) ∧
   Forall (state_ok schema) (state_updates g) ∧
   (record_count g = 0 → is_Some (administration g)) ∧ record_count g ≤ max_records limits) ∧
  request_id g ∉ ids ∧ ids' = {[request_id g]} ∪ ids.
Proof.
  unfold check_group. intros H. apply bind_Ok in H as (_ & _ & H).
  apply bind_Ok in H as (ids1 & [Hn ->]%insert_new_Ok & H).
  apply bind_Ok in H as ([] & Hcount%check_count_Ok & H). apply bind_Ok in H as (_ & _ & H).
  apply bind_Ok in H as (k1 & H1 & H). apply bind_Ok in H as (k2 & _ & H).
  apply bind_Ok in H as (k3 & H3 & H). apply bind_Ok in H as (k4 & H4 & H).
  apply bind_Ok in H as (_ & _ & H). apply bind_Ok in H as (_ & _ & [= <-]). split; [|done].
  apply (try_fold_fresh _ (λ u, (None, cu_key u)) claimed_ok) in H1 as (H1 & _ & _);
    [|exact (check_claimed_Ok schema limits)].
  apply (try_fold_fresh _ (λ u, (None, uu_key u)) update_ok) in H3 as (H3 & _ & _);
    [|exact (check_update_Ok schema limits)].
  apply (try_fold_fresh _ (λ u, (Some (su_collection u), su_key u)) (state_ok schema)) in H4 as (H4 & _ & _);
    [|exact (check_state_Ok schema limits)].
  by destruct Hcount.
Qed.

(** ** Properties *)

(** An admitted batch is what the planner assumes: request identities are
    distinct, no group addresses a record twice in any of its four lists, claims
    carry a token and a positive version, checks carry no patch, renewals and
    retries are well formed, unclaimed updates name an existing version and
    replacements their own key, state updates a declared collection, and the
    request fits the byte limit. *)
Theorem commit_batch_admitted queue groups schema limits :
  0 ≤ max_request_bytes limits ≤ u64_max →
  validate_commit_groups queue groups schema limits = Ok tt →
  groups ≠ [] ∧ NoDup (request_id <$> groups) ∧
  Forall (group_admitted schema limits) groups ∧
  byte_len (canonical_bytes (commit_envelope queue groups)) ≤ max_request_bytes limits.
Proof.
  intros Hmax H. unfold validate_commit_groups in H. apply bind_Ok in H as ([] & Hpre & H).
  apply bind_Ok in H as (_ & _ & H). apply bind_Ok in H as (_ & _ & H).
  destruct (_ || _) eqn:Hc; [done|]. apply orb_false_iff in Hc as [Hne%bool_decide_eq_false _].
  apply bind_Ok in H as (ids & Hg & H). apply bind_Ok in H as (_ & _ & H).
  rewrite byte_limit_Ok in H by done. destruct (Z.leb_spec (byte_len (canonical_bytes (commit_envelope queue groups)))
    (max_request_bytes limits)) as [Hlen|]; [|done].
  unfold preflight_commit_groups in Hpre. apply bind_Ok in Hpre as (_ & _ & Hpre).
  destruct (_ || _); [done|]. apply bind_Ok in Hpre as (ids' & Hp & _).
  destruct (try_fold_fresh _ request_id _ _ _ _ (preflight_group_Ok limits) Hp) as (Hp' & Hd & _).
  destruct (try_fold_fresh _ request_id _ _ _ _ (check_group_Ok schema limits) Hg) as (Hg' & _ & _).
  split_and!; [done|done| |done].
  rewrite Forall_forall in Hp', Hg'. apply Forall_forall. intros g Hin.
  destruct (Hp' g Hin), (Hg' g Hin) as (? & ? & ? & ?). by unfold group_admitted.
Qed.

End admission.

Definition sample_schema : QueueSchema := mkQueueSchema sample_definition ∅ 1 3.
Definition sample_work (key : string) : NewWork :=
  mkNewWork key 5 0 {[ "age"%string := FInteger 7 ]} [Byte.x2a].
Definition sample_group : CommitGroup :=
  mkCommitGroup "r1" [] [] [sample_work "a"; sample_work "b"] [] None.

Lemma commit_batch_admitted_witness :
  [sample_group] ≠ [] ∧ NoDup (request_id <$> [sample_group]) ∧
  Forall (group_admitted sample_schema QueueLimits_default) [sample_group] ∧
  byte_len (@canonical_bytes _ (λ _ : BorrowedCommitEnvelope, [[Byte.x01]; [Byte.x02]])
    (commit_envelope (mkQueueAddress "t" "q") [sample_group])) ≤ 268435456.
Proof.
  apply (@commit_batch_admitted (λ _, [[Byte.x01]]) (λ _, [[Byte.x01]; [Byte.x02]]) (λ _, [[Byte.x01]])
    (mkQueueAddress "t" "q") [sample_group] sample_schema QueueLimits_default).
  - vm_compute. intuition discriminate.
  - vm_compute. reflexivity.
Defined.

(** Byte limits are exact and independent of how the encoder chunks its
    output: a value passes exactly when its canonical encoding is no longer than
    the limit. *)
Theorem byte_limit_exact `{Canonical T} (v : T) max :
  0 ≤ max ≤ u64_max → byte_limit v max = Ok tt ↔ byte_len (canonical_bytes v) ≤ max.
Proof.
  intros Hmax. rewrite byte_limit_Ok by done.
  destruct (Z.leb_spec (byte_len (canonical_bytes v)) max); split; (done || lia).
Qed.

Lemma byte_limit_exact_witness :
  @byte_limit nat (λ n, replicate n [Byte.x00]) 3%nat 3 = Ok tt.
Proof. apply (@byte_limit_exact nat (λ n, replicate n [Byte.x00]) 3%nat 3); vm_compute; intuition discriminate. Defined.

(** Fingerprints separate formats, domains and values: the bytes hashed for
    two requests are equal exactly when format, domain and canonical bytes are
    all equal, so two requests that differ in one of them and share a
    fingerprint are themselves a collision of the hash function. *)
Theorem fingerprint_separates sha256 `{Canonical T, Canonical U} f f' d d' (v : T) (w : U) h h' :
  f ∈ [FORMAT_V3; FORMAT_V4] → f' ∈ [FORMAT_V3; FORMAT_V4] →
  byte_len (as_bytes d) ≤ u64_max → byte_len (as_bytes d') ≤ u64_max →
  fingerprint_format sha256 f d v = Ok h → fingerprint_format sha256 f' d' w = Ok h' →
  let x := fingerprint_prefix f d ++ canonical_bytes v in
  let y := fingerprint_prefix f' d' ++ canonical_bytes w in
  h = sha256 x ∧ h' = sha256 y ∧ (x = y ↔ f = f' ∧ d = d' ∧ canonical_bytes v = canonical_bytes w).
Proof.
  intros Hf Hf' Hd Hd' Hv%fingerprint_format_Ok Hw%fingerprint_format_Ok.
  assert (Hlen : length f = length f') by set_solver. split_and!; [done..|].
  split; [|by intros (-> & -> & ->)]. intros E. by apply fingerprint_prefix_inj in E.
Qed.

Lemma fingerprint_separates_witness :
  fingerprint_prefix FORMAT_V3 "claim" ++ [Byte.x00] = fingerprint_prefix FORMAT_V4 "claim" ++ [Byte.x00; Byte.x00]
  ↔ False.
Proof.
  split; [|done]. intros E. apply (@fingerprint_separates id nat (λ n, [replicate n Byte.x00]) nat (λ n, [replicate n Byte.x00])
    FORMAT_V3 FORMAT_V4 "claim" "claim" 1%nat 2%nat
    (fingerprint_prefix FORMAT_V3 "claim" ++ [Byte.x00])
    (fingerprint_prefix FORMAT_V4 "claim" ++ [Byte.x00; Byte.x00])) in E as [E _].
  - discriminate E.
  - set_solver.
  - set_solver.
  - vm_compute. discriminate.
  - vm_compute. discriminate.
  - vm_compute. reflexivity.
  - vm_compute. reflexivity.
Defined.
