(* ===== verification/Snapshot.v ===== *)
(** Planner state of [fireweed-engine/src/queue_planner.rs]: loaded snapshots,
    deltas, lease hashes, versions, patches, and the application of a commit group
    to a speculative snapshot. *)
From S2P Require Import Prelude Identity Field Records Selector Administration Commit IndexKey.
From S2P Require Import FieldView.

(** SHA-256, from the [sha2] crate. *)
Class Sha256 := sha256 : bytes → bytes.
(** Its digests have 32 bytes. *)
Class Sha256Laws `{Sha256} := sha256_length b : length (sha256 b) = 32%nat.

(** ** Identities, snapshots and deltas *)

(** [RecordIdentity]: the collection ([None] is work) and the key. *)
Abbreviation RecordIdentity := (option string * string)%type.

(** [UniqueIdentity]: collection, index and full sort key. *)
Abbreviation UniqueIdentity := (option string * string * bytes)%type.

Record StoredWork := mkStoredWork {
  record : WorkRecord;
  stored_lease_hash : option bytes;
  field_coverage : FieldCoverage;
  body_loaded : bool;
}.

Record RecordSnapshot := mkRecordSnapshot {
  s_work : gmap string StoredWork;
  s_state : gmap (string * string) StateRecord;
  s_versions : gmap RecordIdentity Z;
  s_next_sequence : Z;
  unique_probes_loaded : gset UniqueIdentity;
  unique_owners : gmap UniqueIdentity RecordIdentity;
}.

Definition RecordSnapshot_default : RecordSnapshot := mkRecordSnapshot ∅ ∅ ∅ 0 ∅ ∅.

Definition set_work (f : gmap string StoredWork → gmap string StoredWork) (s : RecordSnapshot) : RecordSnapshot :=
  mkRecordSnapshot (f (s_work s)) (s_state s) (s_versions s) (s_next_sequence s)
    (unique_probes_loaded s) (unique_owners s).
Definition set_state (f : gmap (string * string) StateRecord → gmap (string * string) StateRecord)
    (s : RecordSnapshot) : RecordSnapshot :=
  mkRecordSnapshot (s_work s) (f (s_state s)) (s_versions s) (s_next_sequence s)
    (unique_probes_loaded s) (unique_owners s).
Definition set_versions (f : gmap RecordIdentity Z → gmap RecordIdentity Z) (s : RecordSnapshot) : RecordSnapshot :=
  mkRecordSnapshot (s_work s) (s_state s) (f (s_versions s)) (s_next_sequence s)
    (unique_probes_loaded s) (unique_owners s).
Definition set_sequence (n : Z) (s : RecordSnapshot) : RecordSnapshot :=
  mkRecordSnapshot (s_work s) (s_state s) (s_versions s) n (unique_probes_loaded s) (unique_owners s).

Record CommitDelta := mkCommitDelta {
  d_work : list StoredWork;
  d_work_fields : gmap string ResolvedFields;
  d_work_bodies : gmap string ResolvedBody;
  d_deleted_work : list string;
  d_state : list StateRecord;
  d_deleted_state : list (string * string);
  d_versions : list RecordVersion;
  d_next_sequence : Z;
  d_receipt : CommitReceipt;
}.

Definition empty_delta (next_sequence : Z) (receipt : CommitReceipt) : CommitDelta :=
  mkCommitDelta [] ∅ ∅ [] [] [] [] next_sequence receipt.

Definition push_work (w : StoredWork) (d : CommitDelta) : CommitDelta :=
  mkCommitDelta (d_work d ++ [w]) (d_work_fields d) (d_work_bodies d) (d_deleted_work d) (d_state d)
    (d_deleted_state d) (d_versions d) (d_next_sequence d) (d_receipt d).
Definition push_deleted_work (key : string) (d : CommitDelta) : CommitDelta :=
  mkCommitDelta (d_work d) (d_work_fields d) (d_work_bodies d) (d_deleted_work d ++ [key]) (d_state d)
    (d_deleted_state d) (d_versions d) (d_next_sequence d) (d_receipt d).
Definition push_state (r : StateRecord) (d : CommitDelta) : CommitDelta :=
  mkCommitDelta (d_work d) (d_work_fields d) (d_work_bodies d) (d_deleted_work d) (d_state d ++ [r])
    (d_deleted_state d) (d_versions d) (d_next_sequence d) (d_receipt d).
Definition push_deleted_state (id : string * string) (d : CommitDelta) : CommitDelta :=
  mkCommitDelta (d_work d) (d_work_fields d) (d_work_bodies d) (d_deleted_work d) (d_state d)
    (d_deleted_state d ++ [id]) (d_versions d) (d_next_sequence d) (d_receipt d).
Definition push_version (v : RecordVersion) (d : CommitDelta) : CommitDelta :=
  mkCommitDelta (d_work d) (d_work_fields d) (d_work_bodies d) (d_deleted_work d) (d_state d)
    (d_deleted_state d) (d_versions d ++ [v]) (d_next_sequence d) (d_receipt d).
Definition set_field_writes (key : string) (f : ResolvedFields) (b : ResolvedBody) (d : CommitDelta)
    : CommitDelta :=
  mkCommitDelta (d_work d) (<[key := f]> (d_work_fields d)) (<[key := b]> (d_work_bodies d))
    (d_deleted_work d) (d_state d) (d_deleted_state d) (d_versions d) (d_next_sequence d) (d_receipt d).

(** ** Leases, versions, patches *)

(** The speculative snapshot and the delta, threaded through the four loops. *)
Abbreviation plan_state := (RecordSnapshot * CommitDelta)%type.

Section operations.
Context `{Sha256}.

Definition lease_hash (t : bytes) : bytes := sha256 t.

(** The constant-time comparison: no byte pair differs. *)
Definition token_equal (a b : bytes) : bool :=
  foldl (λ difference p, Z.lor difference (Z.lxor (Z_of_byte p.1) (Z_of_byte p.2))) 0 (zip a b) =? 0.

Definition next_version (s : RecordSnapshot) (id : RecordIdentity) : result Rejection (Z * RecordSnapshot) :=
  n ← ok_or (checked_add_u64 (default 0 (s_versions s !! id)) 1) (RInvalid "record version exhausted");
  Ok (n, set_versions <[id := n]> s).

Definition expect_state (present : option Z) (expected : StateExpect) : result Rejection unit :=
  match present, expected with
  | None, Absent => Ok tt
  | Some _, Absent => Err AlreadyExists
  | None, Version _ => Err NotFound
  | Some actual, Version expected => if actual =? expected then Ok tt else Err VersionConflict
  end.

Definition set_record (f : WorkRecord → WorkRecord) (w : StoredWork) : StoredWork :=
  mkStoredWork (f (record w)) (stored_lease_hash w) (field_coverage w) (body_loaded w).

Definition set_version (v : Z) (r : WorkRecord) : WorkRecord :=
  mkWorkRecord (work r) v (insertion_sequence r) (lifecycle r) (eligible_since r) (attempts r) (lease_expires_at r).
Definition set_lifecycle (l : Lifecycle) (r : WorkRecord) : WorkRecord :=
  mkWorkRecord (work r) (version r) (insertion_sequence r) l (eligible_since r) (attempts r) (lease_expires_at r).
Definition set_expiry (e : option Z) (r : WorkRecord) : WorkRecord :=
  mkWorkRecord (work r) (version r) (insertion_sequence r) (lifecycle r) (eligible_since r) (attempts r) e.
Definition set_eligible_since (t : Z) (r : WorkRecord) : WorkRecord :=
  mkWorkRecord (work r) (version r) (insertion_sequence r) (lifecycle r) t (attempts r) (lease_expires_at r).
Definition set_available_at (t : Z) (r : WorkRecord) : WorkRecord :=
  mkWorkRecord (mkNewWork (nw_key (work r)) (nw_priority (work r)) t (nw_fields (work r)) (nw_body (work r)))
    (version r) (insertion_sequence r) (lifecycle r) (eligible_since r) (attempts r) (lease_expires_at r).

(** The lease is dropped: no expiry, no hash. *)
Definition drop_lease (w : StoredWork) : StoredWork :=
  mkStoredWork (set_expiry None (record w)) None (field_coverage w) (body_loaded w).

Definition patch_work (w : StoredWork) (patch : WorkPatch) : StoredWork :=
  let r := record w in
  let old := work r in
  let body := default (nw_body old) (p_body patch) in
  let new := mkNewWork (nw_key old) (default (nw_priority old) (p_priority patch))
    (default (nw_available_at old) (p_available_at patch))
    (apply_field_edits (nw_fields old) (btree_list (p_fields patch))) body in
  mkStoredWork
    (mkWorkRecord new (version r) (insertion_sequence r) (lifecycle r) (eligible_since r) (attempts r)
      (lease_expires_at r))
    (stored_lease_hash w)
    (match field_coverage w with
     | SelectedCoverage names prefixes => SelectedCoverage (names ∪ dom (p_fields patch)) prefixes
     | CompleteCoverage => CompleteCoverage
     end)
    (match p_body patch with Some _ => true | None => body_loaded w end).

Definition checked_expiry (now duration : Z) : result Rejection Z :=
  if i64_max <? duration then Err (RInvalid "lease duration overflow")
  else ok_or (checked_add_i64 now duration) (RInvalid "lease expiry overflow").

(** The derived [PartialEq] of [NewWork] and [WorkRecord]. *)
Definition new_work_eqb (a b : NewWork) : bool :=
  bool_decide (nw_key a = nw_key b) && (nw_priority a =? nw_priority b) &&
  (nw_available_at a =? nw_available_at b) && fields_eqb (nw_fields a) (nw_fields b) &&
  bool_decide (nw_body a = nw_body b).
Definition work_record_eqb (a b : WorkRecord) : bool :=
  new_work_eqb (work a) (work b) && (version a =? version b) &&
  (insertion_sequence a =? insertion_sequence b) && bool_decide (lifecycle a = lifecycle b) &&
  (eligible_since a =? eligible_since b) && (attempts a =? attempts b) &&
  bool_decide (lease_expires_at a = lease_expires_at b).

Definition terminal (l : Lifecycle) : bool :=
  match l with Completed | Failed => true | Pending | Leased => false end.

(** The lifecycle an administrative update leaves. *)
Definition desired_lifecycle (current : Lifecycle) (l : AdministrativeLifecycle)
    (g : AdministrativeLeaseGuard) : Lifecycle :=
  match l with
  | AKeep =>
      if bool_decide (current = Leased) && bool_decide (g = InvalidateActive) then Pending else current
  | APending => Pending
  | ACompleted => Completed
  | AFailed => Failed
  end.

Definition apply_administrative_update (stored : StoredWork) (patch : WorkPatch)
    (l : AdministrativeLifecycle) (g : AdministrativeLeaseGuard) (now : Z)
    : result Rejection (bool * StoredWork) :=
  let before := stored in
  let active := lease_active (record stored) now in
  if bool_decide (g = RejectActive) && active then Err RLeased
  else if bool_decide (g = RequireActive) && negb active then Err StaleLease
  else if terminal (lifecycle (record stored)) &&
          (bool_decide (l = ACompleted) || bool_decide (l = AFailed)) then Err Terminal
  else
    let desired := desired_lifecycle (lifecycle (record stored)) l g in
    if active && negb (bool_decide (desired = Leased)) && bool_decide (g = RejectActive) then Err RLeased
    else
      let stored := set_record (set_lifecycle desired) (patch_work stored patch) in
      let stored :=
        if negb (bool_decide (desired = Leased)) || bool_decide (g = InvalidateActive)
        then drop_lease stored else stored in
      let stored :=
        if bool_decide (desired = Pending) &&
           (negb (bool_decide (lifecycle (record before) = Pending)) ||
            negb (nw_available_at (work (record before)) =? nw_available_at (work (record stored))))
        then set_record (set_eligible_since (Z.max now (nw_available_at (work (record stored))))) stored
        else stored in
      Ok (negb (work_record_eqb (record stored) (record before)) ||
          negb (bool_decide (stored_lease_hash stored = stored_lease_hash before)), stored).

(** ** Applying a group *)

(** The guard of a claimed update: a live lease held with the right token. *)
Definition lease_held (stored : StoredWork) (lease : LeaseCredential) (now : Z) : bool :=
  bool_decide (lifecycle (record stored) = Leased) &&
  match lease_expires_at (record stored) with Some expiry => now <? expiry | None => false end &&
  match stored_lease_hash stored with Some hash => token_equal hash (lease_hash (token lease)) | None => false end.

(** The record a disposition leaves, for every disposition but deletion and
    check. *)
Definition dispose (disposition : Disposition) (now : Z) (schema : QueueSchema) (w : StoredWork)
    : result Rejection StoredWork :=
  match disposition with
  | Complete => Ok (set_record (set_lifecycle Completed) w)
  | Fail => Ok (set_record (set_lifecycle Failed) w)
  | Release => Ok (set_record (set_lifecycle Pending) w)
  | RetryAt time =>
      if max_attempts schema <=? attempts (record w)
      then Ok (set_record (set_lifecycle Failed) w)
      else Ok (set_record (λ r, set_eligible_since time (set_available_at time (set_lifecycle Pending r))) w)
  | Retain (Some duration) => e ← checked_expiry now duration; Ok (set_record (set_expiry (Some e)) w)
  | Retain None | Check | Delete => Ok w
  end.

Definition apply_claimed (now : Z) (schema : QueueSchema) (st : plan_state) (u : ClaimedUpdate)
    : result Rejection plan_state :=
  let '(s, d) := st in
  stored ← ok_or (s_work s !! cu_key u) NotFound;
  if negb (lease_held stored (cu_lease u) now) then Err StaleLease
  else if negb (version (record stored) =? cu_expected_version u) then Err VersionConflict
  else if bool_decide (cu_disposition u = Check) then Ok (s, d)
  else
    '(v, s) ← next_version s (None, cu_key u);
    let stored := set_record (set_version v) (patch_work stored (cu_patch u)) in
    if bool_decide (cu_disposition u = Delete) then
      Ok (set_work (delete (cu_key u)) s,
          push_version (mkRecordVersion None (cu_key u) v) (push_deleted_work (cu_key u) d))
    else
      stored ← dispose (cu_disposition u) now schema stored;
      let stored := if negb (bool_decide (lifecycle (record stored) = Leased)) then drop_lease stored else stored in
      Ok (set_work <[cu_key u := stored]> s,
          push_work stored (push_version (mkRecordVersion None (cu_key u) v) d)).

Definition apply_state (st : plan_state) (u : StateUpdate) : result Rejection plan_state :=
  let '(s, d) := st in
  let id := (su_collection u, su_key u) in
  _ ← expect_state (sr_version <$> s_state s !! id) (su_expect u);
  if is_check (su_change u) then Ok (s, d)
  else
    '(v, s) ← next_version s (Some (su_collection u), su_key u);
    let d' := push_version (mkRecordVersion (Some (su_collection u)) (su_key u) v) in
    match su_change u with
    | Put fields value =>
        let r := mkStateRecord (su_collection u) (su_key u) v fields value in
        Ok (set_state <[id := r]> s, d' (push_state r d))
    | SDelete => Ok (set_state (delete id) s, d' (push_deleted_state id d))
    | SCheck => Ok (s, d' d)
    end.

Definition is_administrative (c : UnclaimedChange) : bool :=
  match c with Administrative _ _ _ => true | _ => false end.

(** Fresh pending work, as an insert or a replacement stores it. *)
Definition fresh_work (w : NewWork) (v sequence now : Z) : StoredWork :=
  mkStoredWork (mkWorkRecord w v sequence Pending (Z.max now (nw_available_at w)) 0 None)
    None CompleteCoverage true.

Definition next_insertion (s : RecordSnapshot) : result Rejection (Z * RecordSnapshot) :=
  sequence ← ok_or (checked_add_u64 (s_next_sequence s) 1) (RInvalid "sequence exhausted");
  Ok (sequence, set_sequence sequence s).

(** The stored work an unclaimed update writes, [None] for a deletion, with its
    version. *)
Definition change_work (now : Z) (u : UnclaimedUpdate) (stored : StoredWork) (v : Z) (s : RecordSnapshot)
    : result Rejection (option StoredWork * Z * RecordSnapshot) :=
  match uu_change u with
  | Patch patch =>
      let stored := if bool_decide (lifecycle (record stored) = Leased)
        then drop_lease (set_record (set_lifecycle Pending) stored) else stored in
      Ok (Some (set_record (set_version v) (patch_work stored patch)), v, s)
  | Administrative patch l g =>
      '(changed, stored) ← apply_administrative_update stored patch l g now;
      '(v, s) ← (if (changed : bool) then next_version s (None, uu_key u) else Ok (v, s));
      Ok (Some (set_record (set_version v) stored), v, s)
  | Replace w =>
      match lifecycle (record stored) with
      | Completed | Failed => Err Terminal
      | Leased => Err RLeased
      | Pending =>
          if negb (bool_decide (nw_key w = uu_key u)) then Err (RInvalid "replacement key mismatch")
          else
            '(sequence, s) ← next_insertion s;
            Ok (Some (fresh_work w v sequence now), v, s)
      end
  | UDelete => Ok (None, v, s)
  end.

Definition apply_update (now : Z) (st : plan_state) (u : UnclaimedUpdate) : result Rejection plan_state :=
  let '(s, d) := st in
  stored ← ok_or (s_work s !! uu_key u) NotFound;
  _ ← expect_state (Some (version (record stored))) (uu_expect u);
  if negb (is_administrative (uu_change u)) && lease_active (record stored) now then Err RLeased
  else
    '(v, s) ← (if is_administrative (uu_change u) then Ok (version (record stored), s)
               else next_version s (None, uu_key u));
    '(written, v, s) ← change_work now u stored v s;
    let d := push_version (mkRecordVersion None (uu_key u) v) d in
    match written with
    | Some stored => Ok (set_work <[uu_key u := stored]> s, push_work stored d)
    | None => Ok (set_work (delete (uu_key u)) s, push_deleted_work (uu_key u) d)
    end.

Definition apply_insert (now : Z) (st : plan_state) (w : NewWork) : result Rejection plan_state :=
  let '(s, d) := st in
  if bool_decide (is_Some (s_work s !! nw_key w)) then Err AlreadyExists
  else
    '(v, s) ← next_version s (None, nw_key w);
    '(sequence, s) ← next_insertion s;
    let stored := fresh_work w v sequence now in
    Ok (set_work <[nw_key w := stored]> s,
        push_version (mkRecordVersion None (nw_key w) v) (push_work stored d)).

(** The end of [apply_group]: the sequence and the receipt. *)
Definition seal_delta (st : plan_state) : plan_state :=
  let '(s, d) := st in
  (s, mkCommitDelta (d_work d) (d_work_fields d) (d_work_bodies d) (d_deleted_work d) (d_state d)
        (d_deleted_state d) (d_versions d) (s_next_sequence s)
        (mkCommitReceipt (rc_request_id (d_receipt d)) (Committed (d_versions d)))).

Definition apply_group (g : CommitGroup) (s : RecordSnapshot) (now : Z) (schema : QueueSchema)
    : result Rejection plan_state :=
  let d := empty_delta (s_next_sequence s) (mkCommitReceipt (request_id g) (Committed [])) in
  st ← try_fold (apply_claimed now schema) (s, d) (claimed_updates g);
  st ← try_fold apply_state st (state_updates g);
  st ← try_fold (apply_update now) st (work_updates g);
  st ← try_fold (apply_insert now) st (work_inserts g);
  Ok (seal_delta st).

(** ** Loaded snapshots *)

Definition addressed_work (g : CommitGroup) : list string :=
  (cu_key <$> claimed_updates g) ++ (uu_key <$> work_updates g) ++ (nw_key <$> work_inserts g).
Definition addressed_state (g : CommitGroup) : list (string * string) :=
  (λ u, (su_collection u, su_key u)) <$> state_updates g.

(** [if let Some(x) = source.get(k) { out.insert(k, x) }]. *)
Definition copy_entry `{Countable K} {A} (source : gmap K A) (out : gmap K A) (k : K) : gmap K A :=
  match source !! k with Some a => <[k := a]> out | None => out end.

Definition addressed_snapshot (g : CommitGroup) (source : RecordSnapshot) : RecordSnapshot :=
  mkRecordSnapshot
    (foldl (copy_entry (s_work source)) ∅ (addressed_work g))
    (foldl (copy_entry (s_state source)) ∅ (addressed_state g))
    (foldl (copy_entry (s_versions source)) ∅
      ((pair None <$> addressed_work g) ++ ((λ id, (Some id.1, id.2)) <$> addressed_state g)))
    (s_next_sequence source) ∅ ∅.

Definition validate_raw_work_lease (stored : StoredWork) : QueueResult unit :=
  let leased := bool_decide (lifecycle (record stored) = Leased) in
  if negb (Bool.eqb leased (bool_decide (is_Some (lease_expires_at (record stored)))))
     || negb (Bool.eqb leased (bool_decide (is_Some (stored_lease_hash stored))))
  then Err (unknown "inconsistent raw work lease authority") else Ok tt.

Definition check_loaded_work (s : RecordSnapshot) (e : string * StoredWork) : QueueResult unit :=
  let '(key, stored) := e in
  _ ← validate_raw_work_lease stored;
  _ ← checked_new (nw_fields (work (record stored))) (field_coverage stored);
  if negb (bool_decide (nw_key (work (record stored)) = key))
     || (version (record stored) =? 0)
     || negb (bool_decide (s_versions s !! (None, key) = Some (version (record stored))))
     || (insertion_sequence (record stored) =? 0)
     || (s_next_sequence s <? insertion_sequence (record stored))
  then Err (unknown "inconsistent loaded work version/sequence authority") else Ok tt.

Definition check_loaded_state (s : RecordSnapshot) (e : (string * string) * StateRecord) : QueueResult unit :=
  let '((collection, key), stored) := e in
  if negb (bool_decide (sr_collection stored = collection))
     || negb (bool_decide (sr_key stored = key))
     || (sr_version stored =? 0)
     || negb (bool_decide (s_versions s !! (Some collection, key) = Some (sr_version stored)))
  then Err (unknown "inconsistent loaded state version authority") else Ok tt.

(** The state loop checks each entry alone and fails with one message, so the
    order of its entries does not show. *)
Definition validate_snapshot (s : RecordSnapshot) : QueueResult unit :=
  _ ← try_for_each (check_loaded_work s) (btree_list (s_work s));
  try_for_each (check_loaded_state s) (map_to_list (s_state s)).

Definition check_patch_view (candidate : RecordSnapshot) (key : string) (patch : WorkPatch) : QueueResult unit :=
  match s_work candidate !! key with
  | Some old =>
      view ← checked_new (nw_fields (work (record old))) (field_coverage old);
      try_for_each (λ name, _ ← checked_get view name; Ok tt) (btree_keys (p_fields patch))
  | None => Ok tt
  end.

Definition validate_group_snapshot (candidate : RecordSnapshot) (g : CommitGroup) : QueueResult unit :=
  _ ← validate_snapshot candidate;
  _ ← try_for_each (λ u, check_patch_view candidate (cu_key u) (cu_patch u)) (claimed_updates g);
  try_for_each (λ u,
    _ ← match uu_change u with
        | Patch patch | Administrative patch _ _ => check_patch_view candidate (uu_key u) patch
        | _ => Ok tt
        end;
    match uu_change u with
    | Administrative patch _ _ =>
        if bool_decide (is_Some (p_body patch)) &&
           match s_work candidate !! uu_key u with Some w => negb (body_loaded w) | None => false end
        then Err (unknown "administrative body authority not loaded") else Ok tt
    | _ => Ok tt
    end) (work_updates g).

End operations.
