(* ===== verification/Uniqueness.v ===== *)
(** Resolved writes and unique ownership: the write resolution and unique-effect
    half of [fireweed-engine/src/queue_planner.rs] and [UniqueFieldEffects] of
    [queue_fields.rs]. *)
From S2P Require Import Prelude Identity Field Records Selector Administration Commit IndexKey.
From S2P Require Import FieldView Snapshot.

(** ** Ordered iteration over sets of unique identities *)

(** The derived [Ord]: collection ([None] first), index, sort key. *)
Definition option_cmp (a b : option string) : comparison :=
  match a, b with
  | None, None => Eq
  | None, Some _ => Lt
  | Some _, None => Gt
  | Some a, Some b => String.compare a b
  end.
Definition uid_cmp (a b : UniqueIdentity) : comparison :=
  then_cmp (option_cmp a.1.1 b.1.1) (then_cmp (String.compare a.1.2 b.1.2) (bytes_cmp a.2 b.2)).
Definition uid_le (a b : UniqueIdentity) : Prop := uid_cmp a b ≠ Gt.
#[export] Instance uid_le_dec : RelDecision uid_le.
Proof. intros a b. unfold uid_le. apply _. Defined.
Definition uid_sorted (s : gset UniqueIdentity) : list UniqueIdentity := merge_sort uid_le (elements s).

(** ** Effects on unique ownership *)

Record UniqueFieldEffects := mkUniqueFieldEffects {
  releases : gmap UniqueIdentity RecordIdentity;
  claims : list (UniqueIdentity * RecordIdentity);
}.

Definition UniqueFieldEffects_default : UniqueFieldEffects := mkUniqueFieldEffects ∅ [].

(** Record that [owner] gives up [tuple]. *)
Definition release_tuple (owner : RecordIdentity) (e : UniqueFieldEffects) (tuple : UniqueIdentity)
    : QueueResult UniqueFieldEffects :=
  if negb (is_none_or (releases e !! tuple) (λ prior, bool_decide (prior = owner))) then
    Err (unknown "contradictory released tuple ownership")
  else Ok (mkUniqueFieldEffects (<[tuple := owner]> (releases e)) (claims e)).

(** Record that [owner] wants [tuple]. *)
Definition claim_tuple (owner : RecordIdentity) (e : UniqueFieldEffects) (tuple : UniqueIdentity)
    : UniqueFieldEffects :=
  mkUniqueFieldEffects (releases e) (claims e ++ [(tuple, owner)]).

(** One iteration of [UniqueFieldEffects::extend]. *)
Definition extend_effect (owner : RecordIdentity) (e : UniqueFieldEffects) (effect : IndexEffect)
    : QueueResult UniqueFieldEffects :=
  if (before_unique effect && (negb (ie_unique effect) || bool_decide (ie_before effect = None)))
     || (after_unique effect && (negb (ie_unique effect) || bool_decide (ie_after effect = None)))
  then Err (unknown "invalid unique index effect eligibility")
  else if negb (ie_unique effect)
          || (bool_decide (ie_before effect = ie_after effect) &&
              Bool.eqb (before_unique effect) (after_unique effect))
  then Ok e
  else
    let identity key := (owner.1, ie_index effect, key) in
    e ← match ie_before effect with
        | Some before => if before_unique effect then release_tuple owner e (identity before) else Ok e
        | None => Ok e
        end;
    Ok (match ie_after effect with
        | Some after => if after_unique effect then claim_tuple owner e (identity after) else e
        | None => e
        end).

Definition effects_extend (owner : RecordIdentity) (e : UniqueFieldEffects) (effects : list IndexEffect)
    : QueueResult UniqueFieldEffects := try_fold (extend_effect owner) e effects.

(** The second loop of [validate]; [seen] holds the tuples claimed so far. *)
Fixpoint check_claims (e : UniqueFieldEffects) (initial : RecordSnapshot)
    (seen : gmap UniqueIdentity RecordIdentity) (l : list (UniqueIdentity * RecordIdentity))
    : QueueResult (result Rejection unit) :=
  match l with
  | [] => Ok (Ok tt)
  | (tuple, owner) :: l =>
      if negb (bool_decide (tuple ∈ unique_probes_loaded initial)) then
        Err (unknown "new unique tuple authority not loaded")
      else if negb (is_none_or (seen !! tuple) (λ old, bool_decide (old = owner))) then
        Ok (Err UniqueConflict)
      else
        let blocked :=
          match unique_owners initial !! tuple with
          | Some old => negb (bool_decide (old = owner)) && negb (bool_decide (releases e !! tuple = Some old))
          | None => false
          end in
        if blocked then Ok (Err UniqueConflict)
        else check_claims e initial (<[tuple := owner]> seen) l
  end.

Definition effects_validate (e : UniqueFieldEffects) (initial : RecordSnapshot)
    : QueueResult (result Rejection unit) :=
  _ ← try_for_each (λ r,
        if negb (bool_decide (r.1 ∈ unique_probes_loaded initial))
           || negb (bool_decide (unique_owners initial !! r.1 = Some r.2))
        then Err (unknown "released unique tuple lacks initial owner authority") else Ok tt)
        (map_to_list (releases e));
  check_claims e initial ∅ (claims e).

(** ** Unique tuples of a record *)

Definition record_unique_keys (collection : option string) (fields : Fields) (d : CollectionDefinition)
    : QueueResult (list UniqueIdentity) :=
  try_fold (λ keys index,
    columns ← ok_or (cd_indexes d !! index) (unknown "invalid unique schema");
    let values := (λ key, fields !! key) <$> columns in
    if existsb (λ v, bool_decide (v = None)) values then Ok keys
    else
      k ← ordered_key values;
      Ok (keys ++ [(collection, index, k)])) [] (btree_elems (cd_unique_indexes d)).

Definition checked_unique_keys (collection : option string) (view : CheckedFields) (d : CollectionDefinition)
    : QueueResult (list UniqueIdentity) :=
  try_fold (λ keys index,
    columns ← ok_or (cd_indexes d !! index) (unknown "missing unique index");
    values ← try_collect (checked_get view) columns;
    if existsb (λ v, bool_decide (v = None)) values then Ok keys
    else
      k ← ordered_key values;
      Ok (keys ++ [(collection, index, k)])) [] (btree_elems (cd_unique_indexes d)).

(** ** Resolving the writes of a group *)

(** [collect()] of pairs into a map: a later pair wins. *)
Definition collect_map `{Countable K} {A} (l : list (K * A)) : gmap K A :=
  foldl (λ m e, <[e.1 := e.2]> m) ∅ l.

Definition replacement_keys (g : CommitGroup) : gset string :=
  list_to_set (uu_key <$> List.filter
    (λ u, match uu_change u with Replace _ => true | _ => false end) (work_updates g)).

(** The explicit body of each update and whether it is administrative. *)
Definition body_intents (g : CommitGroup) : gmap string (option bytes * bool) :=
  collect_map (
    ((λ u, (cu_key u, (p_body (cu_patch u), false))) <$> claimed_updates g) ++
    ((λ u, (uu_key u,
       match uu_change u with
       | Patch p => (p_body p, false)
       | Administrative p _ _ => (p_body p, true)
       | _ => (None, false)
       end)) <$> work_updates g)).

(** The field edits between a loaded row and a planned row. *)
Definition row_edits (view : CheckedFields) (old new : Fields) : QueueResult FieldEdits :=
  try_fold (λ edits name,
    old_value ← checked_get view name;
    let new_value := new !! name in
    Ok (if negb (option_field_eqb old_value new_value) then <[name := new_value]> edits else edits))
    (∅ : FieldEdits) (btree_keys old ++ btree_keys new).

Definition is_body_replace (b : ResolvedBody) : bool :=
  match b with BReplace _ => true | BPreserve => false end.

(** One row of [resolve_group_writes]. *)
Definition resolve_row (g : CommitGroup) (before : RecordSnapshot) (schema : QueueSchema)
    (delta : CommitDelta) (row : StoredWork) : QueueResult CommitDelta :=
  let key := nw_key (work (record row)) in
  let intent := default (None, false) (body_intents g !! key) in
  match s_work before !! key with
  | Some old =>
      if bool_decide (key ∈ replacement_keys g) then
        Ok (set_field_writes key (FReplace (nw_fields (work (record row))))
              (BReplace (nw_body (work (record row)))) delta)
      else
        view ← checked_new (nw_fields (work (record old))) (field_coverage old);
        edits ← row_edits view (nw_fields (work (record old))) (nw_fields (work (record row)));
        change ← resolve_edits view edits ∅ (schema_work schema);
        let body :=
          match intent.1 with
          | Some body =>
              if intent.2 && body_loaded old && bool_decide (nw_body (work (record old)) = body)
              then BPreserve else BReplace body
          | None => BPreserve
          end in
        Ok (set_field_writes key change body delta)
  | None =>
      Ok (set_field_writes key (FReplace (nw_fields (work (record row))))
            (BReplace (nw_body (work (record row)))) delta)
  end.

(** A row against its commands. *)
Definition check_resolved_row (delta : CommitDelta) (row : StoredWork) : QueueResult unit :=
  let key := nw_key (work (record row)) in
  let fields := nw_fields (work (record row)) in
  if match d_work_bodies delta !! key with
     | Some (BReplace body) => negb (body_loaded row) || negb (bool_decide (body = nw_body (work (record row))))
     | _ => false
     end
  then Err (unknown "resolved body command/view mismatch")
  else match d_work_fields delta !! key with
  | Some (FReplace replacement) =>
      if negb (fields_eqb replacement fields) then Err (unknown "resolved replacement/view mismatch") else Ok tt
  | Some (FEdit edits) =>
      if existsb (λ e, negb (option_field_eqb (fields !! e.1) e.2)) (btree_list edits)
      then Err (unknown "resolved field edit/view mismatch") else Ok tt
  | _ => Ok tt
  end.

Definition row_keys (delta : CommitDelta) : list string :=
  (λ row, nw_key (work (record row))) <$> d_work delta.

Definition validate_resolved_writes (delta : CommitDelta) : QueueResult unit :=
  let n := length (d_work delta) in
  let keys := row_keys delta in
  if negb (bool_decide (size (d_work_bodies delta) = n))
     || existsb (λ k, bool_decide (d_work_bodies delta !! k = None)) keys
     || negb (bool_decide (size (list_to_set keys : gset string) = n))
     || negb (bool_decide (size (d_work_fields delta) = n))
     || existsb (λ k, bool_decide (d_work_fields delta !! k = None)) keys
  then Err (unknown "inconsistent resolved work field commands")
  else try_for_each (check_resolved_row delta) (d_work delta).

Definition resolve_group_writes (g : CommitGroup) (before : RecordSnapshot) (delta : CommitDelta)
    (schema : QueueSchema) : QueueResult CommitDelta :=
  delta ← try_fold (resolve_row g before schema) delta (d_work delta);
  _ ← validate_resolved_writes delta;
  Ok delta.

(** ** Commands against the loaded row *)

Definition view_error : QueueError := unknown "resolved command/view mismatch".

Definition body_view_ok (old : option StoredWork) (row : StoredWork) (change : ResolvedBody) : bool :=
  match change with
  | BReplace body => body_loaded row && bool_decide (body = nw_body (work (record row)))
  | BPreserve =>
      match old with
      | Some old =>
          Bool.eqb (body_loaded old) (body_loaded row) &&
          bool_decide (nw_body (work (record old)) = nw_body (work (record row)))
      | None => false
      end
  end.

(** One edit against the loaded and the planned fields; the state is the expected
    number of fields. *)
Definition check_edit (view : CheckedFields) (fields : Fields) (expected_len : Z)
    (e : string * option FieldValue) : QueueResult Z :=
  previous ← checked_get view e.1;
  expected_len ← (if bool_decide (previous = None) && bool_decide (is_Some e.2)
                  then ok_or (checked_add_u64 expected_len 1) view_error else Ok expected_len);
  expected_len ← (if bool_decide (is_Some previous) && bool_decide (e.2 = None)
                  then (if expected_len <? 1 then Err view_error else Ok (expected_len - 1))
                  else Ok expected_len);
  if negb (option_field_eqb (fields !! e.1) e.2) then Err view_error else Ok expected_len.

Definition validate_work_write_view (old : option StoredWork) (row : StoredWork)
    (fields_change : ResolvedFields) (body_change : ResolvedBody) : QueueResult unit :=
  if negb (body_view_ok old row body_change) then Err view_error
  else
    let fields := nw_fields (work (record row)) in
    match fields_change, old with
    | FReplace replacement, _ => if fields_eqb replacement fields then Ok tt else Err view_error
    | FPreserve, Some old =>
        if fields_eqb (nw_fields (work (record old))) fields then Ok tt else Err view_error
    | FEdit edits, Some old =>
        let old_fields := nw_fields (work (record old)) in
        view ← checked_new old_fields (field_coverage old);
        expected_len ← try_fold (check_edit view fields) (Z.of_nat (size old_fields)) (btree_list edits);
        if negb (expected_len =? Z.of_nat (size fields))
           || existsb (λ e, bool_decide (edits !! e.1 = None) &&
                            negb (option_field_eqb (fields !! e.1) (Some e.2))) (btree_list old_fields)
        then Err view_error else Ok tt
    | _, None => Err view_error
    end.

(** ** Effects of a delta *)

(** Tuples given up and taken by a record whose tuples go from [old] to [new]. *)
Definition difference_effects (owner : RecordIdentity) (e : UniqueFieldEffects)
    (old new : list UniqueIdentity) : QueueResult UniqueFieldEffects :=
  let old : gset UniqueIdentity := list_to_set old in
  let new : gset UniqueIdentity := list_to_set new in
  e ← try_fold (release_tuple owner) e (uid_sorted (old ∖ new));
  Ok (foldl (claim_tuple owner) e (uid_sorted (new ∖ old))).

Definition work_rows (delta : CommitDelta) : gmap string StoredWork :=
  collect_map ((λ row, (nw_key (work (record row)), row)) <$> d_work delta).
Definition state_rows (delta : CommitDelta) : gmap (string * string) StateRecord :=
  collect_map ((λ row, ((sr_collection row, sr_key row), row)) <$> d_state delta).

(** The work branch of the loop of [unique_effects]. *)
Definition work_effects (delta : CommitDelta) (original : RecordSnapshot) (schema : QueueSchema)
    (e : UniqueFieldEffects) (key : string) : QueueResult UniqueFieldEffects :=
  let owner := (None, key) in
  let old := s_work original !! key in
  let new := work_rows delta !! key in
  let change := default FPreserve (d_work_fields delta !! key) in
  let body := default BPreserve (d_work_bodies delta !! key) in
  _ ← match new with
      | Some row => validate_work_write_view old row change body
      | None => Ok tt
      end;
  match old, new with
  | Some old, Some new =>
      view ← checked_new (nw_fields (work (record old))) (field_coverage old);
      if is_replace change then
        before ← checked_unique_keys None view (schema_work schema);
        after ← record_unique_keys None (nw_fields (work (record new))) (schema_work schema);
        difference_effects owner e before after
      else
        index_effects ← resolve_index_effects view change (schema_work schema);
        effects_extend owner e index_effects
  | Some old, None =>
      view ← checked_new (nw_fields (work (record old))) (field_coverage old);
      before ← checked_unique_keys None view (schema_work schema);
      try_fold (release_tuple owner) e before
  | None, Some new =>
      if negb (is_replace change) || negb (is_body_replace body) then
        Err (unknown "partial field command cannot insert")
      else
        after ← record_unique_keys None (nw_fields (work (record new))) (schema_work schema);
        Ok (foldl (claim_tuple owner) e after)
  | None, None => Ok e
  end.

(** The state branch. *)
Definition state_effects (delta : CommitDelta) (original : RecordSnapshot) (schema : QueueSchema)
    (e : UniqueFieldEffects) (collection key : string) : QueueResult UniqueFieldEffects :=
  let owner := (Some collection, key) in
  d ← ok_or (schema_state schema !! collection) (unknown "missing state schema");
  let tuples (row : option StateRecord) :=
    match row with
    | Some row => record_unique_keys (Some collection) (sr_fields row) d
    | None => Ok []
    end in
  before ← tuples (s_state original !! (collection, key));
  after ← tuples (state_rows delta !! (collection, key));
  difference_effects owner e before after.

Definition unique_effects (delta : CommitDelta) (original : RecordSnapshot) (schema : QueueSchema)
    : QueueResult UniqueFieldEffects :=
  _ ← validate_resolved_writes delta;
  try_fold (λ e v,
    match rv_collection v with
    | None => work_effects delta original schema e (rv_key v)
    | Some collection => state_effects delta original schema e collection (rv_key v)
    end) UniqueFieldEffects_default (d_versions delta).

Definition validate_uniques (delta : CommitDelta) (original : RecordSnapshot) (schema : QueueSchema)
    : QueueResult (result Rejection (list (UniqueIdentity * RecordIdentity))) :=
  effects ← unique_effects delta original schema;
  verdict ← effects_validate effects original;
  Ok (match verdict with Ok _ => Ok (claims effects) | Err reason => Err reason end).
