(* ===== verification/Planner.v ===== *)
(** The commit planner of [fireweed-engine/src/queue_planner.rs]: merging a delta,
    planning one group, vectors of inserts, packing of deltas, and the read sets a
    store loads beforehand. *)
From S2P Require Import Prelude Identity Field Records Selector Administration Commit IndexKey.
From S2P Require Import FieldView Snapshot Uniqueness.

Section planner.
Context `{Sha256}.

(** ** Merging a delta *)

(** The row a snapshot holds after a row of the delta: field and body knowledge
    of the old row with the resolved commands applied, everything else new. *)
Definition merge_row (s : RecordSnapshot) (delta : CommitDelta) (row : StoredWork) : StoredWork :=
  let key := nw_key (work (record row)) in
  let '(fields, coverage, body, loaded) :=
    match s_work s !! key with
    | Some old =>
        (nw_fields (work (record old)), field_coverage old, nw_body (work (record old)), body_loaded old)
    | None =>
        (∅, SelectedCoverage ∅ ∅, nw_body (work (record row)), body_loaded row)
    end in
  let '(fields, coverage) :=
    apply_to_view fields coverage (default FPreserve (d_work_fields delta !! key)) in
  let '(body, loaded) := body_apply_to_view (default BPreserve (d_work_bodies delta !! key)) body loaded in
  let r := record row in
  mkStoredWork
    (mkWorkRecord
      (mkNewWork (nw_key (work r)) (nw_priority (work r)) (nw_available_at (work r)) fields body)
      (version r) (insertion_sequence r) (lifecycle r) (eligible_since r) (attempts r) (lease_expires_at r))
    (stored_lease_hash row) coverage loaded.

Definition version_id (v : RecordVersion) : RecordIdentity := (rv_collection v, rv_key v).

Definition merge_delta (s : RecordSnapshot) (delta : CommitDelta)
    (additions : list (UniqueIdentity * RecordIdentity)) (schema : QueueSchema)
    : QueueResult RecordSnapshot :=
  effects ← unique_effects delta s schema;
  let merged := merge_row s delta <$> d_work delta in
  let owners := foldl (λ m k, delete k m) (unique_owners s) ((map_to_list (releases effects)).*1) in
  let owners := foldl (λ m e, <[e.1 := e.2]> m) owners additions in
  let works := foldl (λ m k, delete k m) (s_work s) (d_deleted_work delta) in
  let states := foldl (λ m k, delete k m) (s_state s) (d_deleted_state delta) in
  let works := foldl (λ m row, <[nw_key (work (record row)) := row]> m) works merged in
  let states := foldl (λ m row, <[(sr_collection row, sr_key row) := row]> m) states (d_state delta) in
  let versions := foldl (λ m v, <[version_id v := rv_version v]> m) (s_versions s) (d_versions delta) in
  Ok (mkRecordSnapshot works states versions (d_next_sequence delta) (unique_probes_loaded s) owners).

(** ** Planning a group *)

(** A rejected group: nothing but its receipt. *)
Definition rejected (g : CommitGroup) (s : RecordSnapshot) (reason : Rejection) : CommitDelta :=
  empty_delta (s_next_sequence s) (mkCommitReceipt (request_id g) (Rejected reason)).

(** The snapshot is mutated in place by the code; here the result carries it. *)
Definition plan_commit_group (g : CommitGroup) (s : RecordSnapshot) (now : Z) (schema : QueueSchema)
    : QueueResult (RecordSnapshot * CommitDelta) :=
  let candidate := addressed_snapshot g s in
  _ ← validate_group_snapshot candidate g;
  match apply_group g candidate now schema with
  | Ok (_, delta) =>
      delta ← resolve_group_writes g s delta schema;
      verdict ← validate_uniques delta s schema;
      match verdict with
      | Ok additions =>
          s' ← merge_delta s delta additions schema;
          Ok (s', delta)
      | Err reason => Ok (s, rejected g s reason)
      end
  | Err reason => Ok (s, rejected g s reason)
  end.

(** ** Vectors of inserts *)

(** The one-item group of an insert request. *)
Definition insert_group (mode : InsertMode) (s : RecordSnapshot) (item : NewWork) : CommitGroup :=
  match s_work s !! nw_key item with
  | Some old =>
      if bool_decide (mode = Upsert) then
        mkCommitGroup "" [] [] []
          [mkUnclaimedUpdate (nw_key item) (Version (version (record old))) (Replace item)] None
      else mkCommitGroup "" [] [] [item] [] None
  | None => mkCommitGroup "" [] [] [item] [] None
  end.

Definition insert_outcome (replaced : bool) (item : NewWork) (delta : CommitDelta) : QueueResult InsertOutcome :=
  match rc_outcome (d_receipt delta) with
  | Committed versions =>
      v ← ok_or (head versions) (OutcomeUnknown "missing insert version");
      Ok (if replaced then Replaced (nw_key item) (rv_version v) else Inserted (nw_key item) (rv_version v))
  | Rejected reason => Ok (InsertRejected (nw_key item) reason)
  | _ => Err (OutcomeUnknown "invalid planned insert outcome")
  end.

(** The loop over the items; the clock is asked once per item. *)
Fixpoint plan_items (mode : InsertMode) (schema : QueueSchema) (now : nat → QueueResult Z) (i : nat)
    (items : list NewWork) (s : RecordSnapshot)
    : QueueResult (RecordSnapshot * list CommitDelta * list InsertOutcome) :=
  match items with
  | [] => Ok (s, [], [])
  | item :: items =>
      let replaced := bool_decide (is_Some (s_work s !! nw_key item)) in
      t ← now i;
      '(s, delta) ← plan_commit_group (insert_group mode s item) s t schema;
      outcome ← insert_outcome replaced item delta;
      '(s, deltas, outcomes) ← plan_items mode schema now (S i) items s;
      Ok (s, delta :: deltas, outcome :: outcomes)
  end.

Definition plan_insert_vector (request : InsertRequest) (s : RecordSnapshot) (schema : QueueSchema)
    (now : nat → QueueResult Z) : QueueResult (RecordSnapshot * list CommitDelta * list InsertOutcome) :=
  plan_items (ir_mode request) schema now 0 (ir_items request) s.

(** ** Packing deltas *)

Record packing := mkPacking {
  pk_commands : gmap string ResolvedFields;
  pk_bodies : gmap string ResolvedBody;
  pk_work : gmap string (option StoredWork);
  pk_states : gmap (string * string) (option StateRecord);
  pk_versions : gmap RecordIdentity RecordVersion;
  pk_next : Z;
}.

(** One row of a delta. *)
Definition pack_row (delta : CommitDelta) (p : packing) (row : StoredWork) : QueueResult packing :=
  let key := nw_key (work (record row)) in
  let after := default FPreserve (d_work_fields delta !! key) in
  let body := default BPreserve (d_work_bodies delta !! key) in
  if match pk_work p !! key with Some None => true | _ => false end && (negb (is_replace after) || negb (is_body_replace body)) then
    Err (unknown "partial field command follows packed deletion")
  else
    Ok (mkPacking
      (<[key := resolved_then (default FPreserve (pk_commands p !! key)) after]> (pk_commands p))
      (<[key := body_then (default BPreserve (pk_bodies p !! key)) body]> (pk_bodies p))
      (<[key := Some row]> (pk_work p)) (pk_states p) (pk_versions p) (pk_next p)).

Definition pack_deletion (p : packing) (key : string) : packing :=
  mkPacking (delete key (pk_commands p)) (delete key (pk_bodies p)) (<[key := None]> (pk_work p))
    (pk_states p) (pk_versions p) (pk_next p).

(** The body of the loop over the deltas. *)
Definition pack_delta (p : packing) (delta : CommitDelta) : QueueResult packing :=
  _ ← validate_resolved_writes delta;
  p ← try_fold (pack_row delta) p (d_work delta);
  let p := foldl pack_deletion p (d_deleted_work delta) in
  let states := foldl (λ m row, <[(sr_collection row, sr_key row) := Some row]> m) (pk_states p) (d_state delta) in
  let states := foldl (λ m k, <[k := None]> m) states (d_deleted_state delta) in
  let versions := foldl (λ m v, <[version_id v := v]> m) (pk_versions p) (d_versions delta) in
  Ok (mkPacking (pk_commands p) (pk_bodies p) (pk_work p) states versions (d_next_sequence delta)).

(** Key orders of the packed maps. *)
Definition state_key_le (a b : string * string) : Prop :=
  then_cmp (String.compare a.1 b.1) (String.compare a.2 b.2) ≠ Gt.
Definition record_id_le (a b : RecordIdentity) : Prop :=
  then_cmp (option_cmp a.1 b.1) (String.compare a.2 b.2) ≠ Gt.
#[export] Instance state_key_le_dec : RelDecision state_key_le.
Proof. intros a b. unfold state_key_le. apply _. Defined.
#[export] Instance record_id_le_dec : RelDecision record_id_le.
Proof. intros a b. unfold record_id_le. apply _. Defined.

Definition sorted_states {A} (m : gmap (string * string) A) : list ((string * string) * A) :=
  merge_sort (λ x y, state_key_le x.1 y.1) (map_to_list m).
Definition sorted_versions (m : gmap RecordIdentity RecordVersion) : list RecordVersion :=
  (merge_sort (λ x y, record_id_le x.1 y.1) (map_to_list m)).*2.

Definition packed (p : packing) : CommitDelta :=
  mkCommitDelta
    (omap snd (btree_list (pk_work p))) (pk_commands p) (pk_bodies p)
    (omap (λ e, match e.2 with None => Some e.1 | Some _ => None end) (btree_list (pk_work p)))
    (omap snd (sorted_states (pk_states p)))
    (omap (λ e, match e.2 with None => Some e.1 | Some _ => None end) (sorted_states (pk_states p)))
    (sorted_versions (pk_versions p)) (pk_next p)
    (mkCommitReceipt "internal-packed-delta" (Committed [])).

Definition combine_deltas (deltas : list CommitDelta) (initial : Z) : QueueResult CommitDelta :=
  p ← try_fold pack_delta (mkPacking ∅ ∅ ∅ ∅ ∅ initial) deltas;
  _ ← validate_resolved_writes (packed p);
  Ok (packed p).

(** The union of the read sets of several groups. *)
Definition load_envelope (groups : list CommitGroup) : CommitGroup :=
  mkCommitGroup "internal-read-set"
    (concat (claimed_updates <$> groups)) (concat (state_updates <$> groups))
    (concat (work_inserts <$> groups)) (concat (work_updates <$> groups)) None.

(** ** Read sets *)

(** [WorkFieldDependencies]. *)
Record WorkFieldDependencies := mkWorkFieldDependencies {
  wd_definition : CollectionDefinition;
  unique_columns : list string;
}.

Definition dependencies_new (schema : QueueSchema) : QueueResult WorkFieldDependencies :=
  columns ← try_fold (λ acc name,
      columns ← ok_or (cd_indexes (schema_work schema) !! name) (unknown "missing unique index read authority");
      Ok (acc ++ columns)) [] (btree_elems (cd_unique_indexes (schema_work schema)));
  Ok (mkWorkFieldDependencies (schema_work schema) columns).

Definition depends_unique (w : WorkFieldDependencies) (names : gset string) : gset string :=
  names ∪ list_to_set (unique_columns w).

Definition depends_patch (w : WorkFieldDependencies) (names : gset string) (patch : WorkPatch) : gset string :=
  foldl (λ names columns,
    if existsb (λ name, bool_decide (is_Some (p_fields patch !! name))) columns
    then names ∪ list_to_set columns else names)
    (names ∪ dom (p_fields patch)) (btree_values (cd_indexes (wd_definition w))).

Definition depends_claimed (w : WorkFieldDependencies) (names : gset string) (u : ClaimedUpdate) : gset string :=
  let names := if bool_decide (cu_disposition u = Delete) then depends_unique w names else names in
  depends_patch w names (cu_patch u).

Definition depends_unclaimed (w : WorkFieldDependencies) (names : gset string) (u : UnclaimedUpdate) : gset string :=
  match uu_change u with
  | Patch patch | Administrative patch _ _ => depends_patch w names patch
  | Replace _ | UDelete => depends_unique w names
  end.

Definition required_work_fields (g : CommitGroup) (schema : QueueSchema) : QueueResult (gset string) :=
  w ← dependencies_new schema;
  let names := foldl (depends_claimed w) ∅ (claimed_updates g) in
  let names := foldl (depends_unclaimed w) names (work_updates g) in
  Ok (match work_inserts g with [] => names | _ => depends_unique w names end).

Definition required_work_fields_by_key (g : CommitGroup) (schema : QueueSchema)
    : QueueResult (gmap string (gset string)) :=
  w ← dependencies_new schema;
  let entry key (f : gset string → gset string) (m : gmap string (gset string)) :=
    <[key := f (default ∅ (m !! key))]> m in
  let m := foldl (λ m u, entry (cu_key u) (λ names, depends_claimed w names u) m) ∅ (claimed_updates g) in
  let m := foldl (λ m u, entry (uu_key u) (λ names, depends_unclaimed w names u) m) m (work_updates g) in
  Ok (foldl (λ m i, entry (nw_key i) (depends_unique w) m) m (work_inserts g)).

(** The tuples of a loaded row. *)
Definition loaded_tuples (old : StoredWork) (schema : QueueSchema) : QueueResult (list UniqueIdentity) :=
  view ← checked_new (nw_fields (work (record old))) (field_coverage old);
  checked_unique_keys None view (schema_work schema).

Definition insert_unique_probes (items : list NewWork) (s : RecordSnapshot) (schema : QueueSchema)
    : QueueResult (gset UniqueIdentity) :=
  try_fold (λ keys item,
    new ← record_unique_keys None (nw_fields item) (schema_work schema);
    let keys := keys ∪ list_to_set new in
    match s_work s !! nw_key item with
    | Some old => more ← loaded_tuples old schema; Ok (keys ∪ list_to_set more)
    | None => Ok keys
    end) (∅ : gset UniqueIdentity) items.

(** The nested function [patched] of [prospective_unique_probes]. *)
Definition patched_probes (probes : gset UniqueIdentity) (old : StoredWork) (edits : FieldEdits)
    (d : CollectionDefinition) : QueueResult (gset UniqueIdentity) :=
  view ← checked_new (nw_fields (work (record old))) (field_coverage old);
  try_fold (λ probes index,
    columns ← ok_or (cd_indexes d !! index) (unknown "missing prospective unique index");
    if negb (existsb (λ name, bool_decide (is_Some (edits !! name))) columns) then Ok probes
    else
      before ← try_collect (checked_get view) columns;
      after ← try_collect (λ name, match edits !! name with
                                   | Some value => Ok value
                                   | None => checked_get view name
                                   end) columns;
      try_fold (λ probes values,
        if existsb (λ v, bool_decide (v = None)) values then Ok probes
        else k ← ordered_key values; Ok ({[(None, index, k)]} ∪ probes)) probes [before; after])
    probes (btree_elems (cd_unique_indexes d)).

Definition claimed_probes (s : RecordSnapshot) (schema : QueueSchema) (probes : gset UniqueIdentity)
    (u : ClaimedUpdate) : QueueResult (gset UniqueIdentity) :=
  if bool_decide (cu_disposition u = Check) then Ok probes
  else match s_work s !! cu_key u with
  | Some old =>
      if bool_decide (cu_disposition u = Delete) then
        more ← loaded_tuples old schema; Ok (probes ∪ list_to_set more)
      else patched_probes probes old (p_fields (cu_patch u)) (schema_work schema)
  | None => Ok probes
  end.

Definition update_probes (s : RecordSnapshot) (schema : QueueSchema) (probes : gset UniqueIdentity)
    (u : UnclaimedUpdate) : QueueResult (gset UniqueIdentity) :=
  match s_work s !! uu_key u with
  | None => Ok probes
  | Some old =>
      match uu_change u with
      | Patch patch | Administrative patch _ _ => patched_probes probes old (p_fields patch) (schema_work schema)
      | Replace w =>
          more ← loaded_tuples old schema;
          new ← record_unique_keys None (nw_fields w) (schema_work schema);
          Ok (probes ∪ list_to_set more ∪ list_to_set new)
      | UDelete => more ← loaded_tuples old schema; Ok (probes ∪ list_to_set more)
      end
  end.

Definition state_probes (s : RecordSnapshot) (schema : QueueSchema) (probes : gset UniqueIdentity)
    (u : StateUpdate) : QueueResult (gset UniqueIdentity) :=
  if is_check (su_change u) then Ok probes
  else
    d ← ok_or (schema_state schema !! su_collection u) (unknown "missing prospective state collection");
    probes ← match s_state s !! (su_collection u, su_key u) with
             | Some old =>
                 more ← record_unique_keys (Some (su_collection u)) (sr_fields old) d;
                 Ok (probes ∪ list_to_set more)
             | None => Ok probes
             end;
    match su_change u with
    | Put fields _ =>
        more ← record_unique_keys (Some (su_collection u)) fields d; Ok (probes ∪ list_to_set more)
    | _ => Ok probes
    end.

Definition prospective_unique_probes (g : CommitGroup) (s : RecordSnapshot) (schema : QueueSchema)
    : QueueResult (gset UniqueIdentity) :=
  probes ← try_fold (claimed_probes s schema) ∅ (claimed_updates g);
  probes ← try_fold (update_probes s schema) probes (work_updates g);
  probes ← try_fold (λ probes w,
      probes ← match s_work s !! nw_key w with
               | Some old => more ← loaded_tuples old schema; Ok (probes ∪ list_to_set more)
               | None => Ok probes
               end;
      new ← record_unique_keys None (nw_fields w) (schema_work schema);
      Ok (probes ∪ list_to_set new)) probes (work_inserts g);
  try_fold (state_probes s schema) probes (state_updates g).

Definition required_unique_probes (g : CommitGroup) (s : RecordSnapshot) (now : Z) (schema : QueueSchema)
    : QueueResult (gset UniqueIdentity) :=
  let candidate := addressed_snapshot g s in
  _ ← validate_group_snapshot candidate g;
  match apply_group g candidate now schema with
  | Err _ => Ok ∅
  | Ok (_, delta) =>
      delta ← resolve_group_writes g s delta schema;
      effects ← unique_effects delta s schema;
      Ok (dom (releases effects) ∪ list_to_set (claims effects).*1)
  end.

End planner.
