(* ===== verification/PlannerFacts.v ===== *)
(** The planner's invariants: applying a group is a sequence of record steps, a
    planned commit keeps the snapshot well formed, moves versions and sequences
    forward, touches only addressed records and honours leases. *)
From S2P Require Import Prelude Identity Field Records Selector Administration Commit IndexKey.
From S2P Require Import FieldView Snapshot Uniqueness Planner.

(** ** Well-formed snapshots *)

(** A lease is an expiry together with a token hash, exactly on leased work. *)
Definition lease_ok (w : StoredWork) : Prop :=
  (lifecycle (record w) = Leased ↔ is_Some (lease_expires_at (record w))) ∧
  (lifecycle (record w) = Leased ↔ is_Some (stored_lease_hash w)).

Definition coverage_ok (w : StoredWork) : Prop :=
  is_ok (checked_new (nw_fields (work (record w))) (field_coverage w)) = true.

Definition highwater (s : RecordSnapshot) (id : RecordIdentity) : Z := default 0 (s_versions s !! id).

Record work_ok (s : RecordSnapshot) (key : string) (w : StoredWork) : Prop := mkWorkOk {
  wo_key : nw_key (work (record w)) = key;
  wo_version : s_versions s !! (None, key) = Some (version (record w));
  wo_sequence : 0 < insertion_sequence (record w) ≤ s_next_sequence s;
  wo_lease : lease_ok w;
  wo_coverage : coverage_ok w;
}.

Record state_row_ok (s : RecordSnapshot) (id : string * string) (r : StateRecord) : Prop := mkStateOk {
  so_id : (sr_collection r, sr_key r) = id;
  so_version : s_versions s !! (Some id.1, id.2) = Some (sr_version r);
}.

(** Keys, versions, sequences and leases agree; insertion sequences are
    distinct; counters are in range. *)
Record snapshot_ok (s : RecordSnapshot) : Prop := mkSnapshotOk {
  ok_work : map_Forall (work_ok s) (s_work s);
  ok_state : map_Forall (state_row_ok s) (s_state s);
  ok_versions : map_Forall (λ _ v, 0 < v ≤ u64_max) (s_versions s);
  ok_sequence : is_u64 (s_next_sequence s);
  ok_distinct : ∀ k1 k2 w1 w2, s_work s !! k1 = Some w1 → s_work s !! k2 = Some w2 → k1 ≠ k2 →
    insertion_sequence (record w1) ≠ insertion_sequence (record w2);
}.

(** ** Steps *)

(** The version written: the next one, or the current one unchanged. *)
Definition version_step (s : RecordSnapshot) (id : RecordIdentity) (v : Z) : Prop :=
  (v = highwater s id + 1 ∧ v ≤ u64_max) ∨ s_versions s !! id = Some v.

Definition version_next (s : RecordSnapshot) (id : RecordIdentity) (v : Z) : Prop :=
  v = highwater s id + 1 ∧ v ≤ u64_max.

(** What a row says apart from its fields and body. *)
Definition row_meta (w : StoredWork) :=
  let r := record w in
  (nw_key (work r), nw_priority (work r), nw_available_at (work r), version r, insertion_sequence r,
   lifecycle r, eligible_since r, attempts r, lease_expires_at r, stored_lease_hash w).

(** The insertion sequence of written work: kept, or freshly drawn. *)
Definition sequence_step (s : RecordSnapshot) (key : string) (n q : Z) : Prop :=
  (n = s_next_sequence s ∧ ∃ old, s_work s !! key = Some old ∧ insertion_sequence (record old) = q) ∨
  (n = s_next_sequence s + 1 ∧ q = n ∧ n ≤ u64_max).

Definition put_work (key : string) (w : StoredWork) (v n : Z) (s : RecordSnapshot) : RecordSnapshot :=
  mkRecordSnapshot (<[key := w]> (s_work s)) (s_state s) (<[(None, key) := v]> (s_versions s)) n
    (unique_probes_loaded s) (unique_owners s).
Definition drop_work (key : string) (v : Z) (s : RecordSnapshot) : RecordSnapshot :=
  mkRecordSnapshot (delete key (s_work s)) (s_state s) (<[(None, key) := v]> (s_versions s))
    (s_next_sequence s) (unique_probes_loaded s) (unique_owners s).
Definition put_state (id : string * string) (r : StateRecord) (v : Z) (s : RecordSnapshot) : RecordSnapshot :=
  mkRecordSnapshot (s_work s) (<[id := r]> (s_state s)) (<[(Some id.1, id.2) := v]> (s_versions s))
    (s_next_sequence s) (unique_probes_loaded s) (unique_owners s).
Definition drop_state (id : string * string) (v : Z) (s : RecordSnapshot) : RecordSnapshot :=
  mkRecordSnapshot (s_work s) (delete id (s_state s)) (<[(Some id.1, id.2) := v]> (s_versions s))
    (s_next_sequence s) (unique_probes_loaded s) (unique_owners s).

(** One update of one record. *)
Inductive step : plan_state → RecordIdentity → plan_state → Prop :=
| step_check st id : step st id st
| step_work s d key w v n :
    nw_key (work (record w)) = key → version (record w) = v → lease_ok w → coverage_ok w →
    version_step s (None, key) v → sequence_step s key n (insertion_sequence (record w)) →
    (s_versions s !! (None, key) = Some v → ∃ old, s_work s !! key = Some old ∧ row_meta old = row_meta w) →
    step (s, d) (None, key)
      (put_work key w v n s, push_work w (push_version (mkRecordVersion None key v) d))
| step_drop s d key v :
    version_next s (None, key) v → is_Some (s_work s !! key) →
    step (s, d) (None, key)
      (drop_work key v s, push_deleted_work key (push_version (mkRecordVersion None key v) d))
| step_state s d id r v :
    (sr_collection r, sr_key r) = id → sr_version r = v → version_next s (Some id.1, id.2) v →
    step (s, d) (Some id.1, id.2)
      (put_state id r v s, push_state r (push_version (mkRecordVersion (Some id.1) id.2 v) d))
| step_drop_state s d id v :
    version_next s (Some id.1, id.2) v →
    step (s, d) (Some id.1, id.2)
      (drop_state id v s, push_deleted_state id (push_version (mkRecordVersion (Some id.1) id.2 v) d)).

Inductive steps : plan_state → list RecordIdentity → plan_state → Prop :=
| steps_nil st : steps st [] st
| steps_cons st id st' ids st'' : step st id st' → steps st' ids st'' → steps st (id :: ids) st''.

Lemma steps_app st ids st' ids' st'' :
  steps st ids st' → steps st' ids' st'' → steps st (ids ++ ids') st''.
Proof. induction 1; [done|]. intros. econstructor; eauto. Qed.

(** ** Steps preserve well-formedness *)

Lemma version_next_step s id v : version_next s id v → version_step s id v.
Proof. by left. Qed.

Lemma version_step_range s id v : snapshot_ok s → version_step s id v → 0 < v ≤ u64_max.
Proof.
  intros Hs [[-> Hv]|Hv]; [|by eapply (ok_versions s Hs)].
  unfold highwater in *. destruct (s_versions s !! id) as [u|] eqn:E; cbn in *; [|lia].
  pose proof (ok_versions s Hs _ _ E). cbn in *. lia.
Qed.

Lemma versions_insert_ok s id v :
  snapshot_ok s → version_step s id v → map_Forall (λ _ v, 0 < v ≤ u64_max) (<[id := v]> (s_versions s)).
Proof.
  intros Hs Hv. apply map_Forall_insert_2; [by eapply version_step_range|apply Hs].
Qed.

(** A row of another key stays well formed. *)
Lemma work_ok_frame s s' key w :
  work_ok s key w → s_versions s' !! (None, key) = s_versions s !! (None, key) →
  s_next_sequence s ≤ s_next_sequence s' → work_ok s' key w.
Proof. intros [] Hv Hn. constructor; try done; [congruence|lia]. Qed.

Lemma state_row_ok_frame s s' id r :
  state_row_ok s id r → s_versions s' !! (Some id.1, id.2) = s_versions s !! (Some id.1, id.2) →
  state_row_ok s' id r.
Proof. intros [] Hv. constructor; [done|congruence]. Qed.

Lemma step_put_ok s key w v n :
  snapshot_ok s → nw_key (work (record w)) = key → version (record w) = v → lease_ok w → coverage_ok w →
  version_step s (None, key) v → sequence_step s key n (insertion_sequence (record w)) →
  snapshot_ok (put_work key w v n s).
Proof.
  intros Hs Hk Hver Hl Hc Hv Hq.
  assert (Hn : s_next_sequence s ≤ n ∧ is_u64 n ∧ 0 < insertion_sequence (record w) ≤ n).
  { pose proof (ok_sequence s Hs). destruct Hq as [(-> & old & Hold & <-)|(-> & -> & Hmax)].
    - pose proof (wo_sequence _ _ _ (ok_work s Hs _ _ Hold)). split; [lia|]. split; [done|lia].
    - unfold is_u64 in *. lia. }
  assert (Hfresh : ∀ k' w', k' ≠ key → s_work s !! k' = Some w' →
    insertion_sequence (record w') ≠ insertion_sequence (record w)).
  { intros k' w' Hne Hw'. destruct Hq as [(_ & old & Hold & <-)|(-> & Hqn & _)].
    - by eapply (ok_distinct s Hs).
    - pose proof (wo_sequence _ _ _ (ok_work s Hs _ _ Hw')). lia. }
  split; cbn.
  - intros k' w' Hw'. apply lookup_insert_Some in Hw' as [[<- <-]|[Hne Hw']].
    + constructor; try done; cbn; [by rewrite lookup_insert_eq, Hver|lia].
    + eapply work_ok_frame; [by apply (ok_work s Hs)|cbn; rewrite lookup_insert_ne by congruence; done|cbn; lia].
  - intros id r Hr. eapply state_row_ok_frame; [by apply (ok_state s Hs)|].
    cbn. by rewrite lookup_insert_ne.
  - by apply versions_insert_ok.
  - apply Hn.
  - intros k1 k2 w1 w2 H1 H2 Hne. apply lookup_insert_Some in H1 as [[<- <-]|[Hn1 H1]];
      apply lookup_insert_Some in H2 as [[<- <-]|[Hn2 H2]]; [done|..].
    + intros E. symmetry in E. revert E. by apply (Hfresh k2).
    + by apply (Hfresh k1).
    + by eapply (ok_distinct s Hs).
Qed.

Lemma step_drop_ok s key v :
  snapshot_ok s → version_step s (None, key) v → snapshot_ok (drop_work key v s).
Proof.
  intros Hs Hv. split; cbn.
  - intros k' w' [Hne Hw']%lookup_delete_Some.
    eapply work_ok_frame; [by apply (ok_work s Hs)|cbn; rewrite lookup_insert_ne by congruence; done|done].
  - intros id r Hr. eapply state_row_ok_frame; [by apply (ok_state s Hs)|]. cbn. by rewrite lookup_insert_ne.
  - by apply versions_insert_ok.
  - apply Hs.
  - intros k1 k2 w1 w2 [_ H1]%lookup_delete_Some [_ H2]%lookup_delete_Some. by apply (ok_distinct s Hs).
Qed.

Lemma step_put_state_ok s id r v :
  snapshot_ok s → (sr_collection r, sr_key r) = id → sr_version r = v →
  version_step s (Some id.1, id.2) v → snapshot_ok (put_state id r v s).
Proof.
  intros Hs Hid Hver Hv. split; cbn.
  - intros k' w' Hw'. eapply work_ok_frame; [by apply (ok_work s Hs)| |done]. cbn. by rewrite lookup_insert_ne.
  - intros id' r' Hr'. apply lookup_insert_Some in Hr' as [[<- <-]|[Hne Hr']].
    + constructor; [done|]. cbn. by rewrite lookup_insert_eq, Hver.
    + eapply state_row_ok_frame; [by apply (ok_state s Hs)|]. cbn. rewrite lookup_insert_ne; [done|].
      intros [= E1 E2]. apply Hne. destruct id, id'; cbn in *; congruence.
  - by apply versions_insert_ok.
  - apply Hs.
  - apply Hs.
Qed.

Lemma step_drop_state_ok s id v :
  snapshot_ok s → version_step s (Some id.1, id.2) v → snapshot_ok (drop_state id v s).
Proof.
  intros Hs Hv. split; cbn.
  - intros k' w' Hw'. eapply work_ok_frame; [by apply (ok_work s Hs)| |done]. cbn. by rewrite lookup_insert_ne.
  - intros id' r' [Hne Hr']%lookup_delete_Some.
    eapply state_row_ok_frame; [by apply (ok_state s Hs)|]. cbn. rewrite lookup_insert_ne; [done|].
    intros [= E1 E2]. apply Hne. destruct id, id'; cbn in *; congruence.
  - by apply versions_insert_ok.
  - apply Hs.
  - apply Hs.
Qed.

Lemma step_preserves_ok st id st' : step st id st' → snapshot_ok st.1 → snapshot_ok st'.1.
Proof.
  destruct 1; cbn; intros Hs; [done|..].
  - by apply step_put_ok.
  - apply step_drop_ok; [done|by apply version_next_step].
  - apply step_put_state_ok; try done. by apply version_next_step.
  - apply step_drop_state_ok; [done|by apply version_next_step].
Qed.

Lemma steps_preserve_ok st ids st' : steps st ids st' → snapshot_ok st.1 → snapshot_ok st'.1.
Proof. induction 1; [done|]. eauto using step_preserves_ok. Qed.

(** ** Every update is a step *)

Section refinement.
Context `{Sha256}.

(** The constant-time comparison decides equality of equally long hashes. *)
Lemma token_equal_spec a b : length a = length b → token_equal a b = true ↔ a = b.
Proof.
  assert (Hgen : ∀ l acc, 0 ≤ acc →
    foldl (λ difference (p : Byte.byte * Byte.byte), Z.lor difference (Z.lxor (Z_of_byte p.1) (Z_of_byte p.2))) acc l = 0 ↔
    acc = 0 ∧ Forall (λ p, p.1 = p.2) l).
  { induction l as [|[x y] l IH]; intros acc Hacc; cbn; [naive_solver|].
    pose proof (Z_of_byte_range x). pose proof (Z_of_byte_range y).
    assert (0 ≤ Z.lxor (Z_of_byte x) (Z_of_byte y)) by (apply Z.lxor_nonneg; lia).
    rewrite IH by (apply Z.lor_nonneg; lia). rewrite Z.lor_eq_0_iff, Z.lxor_eq_0_iff, Forall_cons. cbn.
    split; [intros [[-> E] Hl]|intros [-> [-> Hl]]]; split_and!; auto using Z_of_byte_inj. }
  intros Hlen. unfold token_equal. rewrite Z.eqb_eq, Hgen by done. split; [|intros ->].
  - intros [_ Hl]. revert b Hlen Hl. induction a as [|x a IH]; intros [|y b] Hlen Hl; try done.
    cbn in Hl. apply Forall_cons in Hl as [E Hl]. cbn in E. subst. f_equal. apply IH; [cbn in Hlen; lia|done].
  - split; [done|]. clear. induction b; cbn; constructor; auto.
Qed.

Lemma next_version_Ok s id v s' :
  next_version s id = Ok (v, s') → s' = set_versions <[id := v]> s ∧ version_next s id v.
Proof.
  unfold next_version. intros (n & Hn%ok_or_Ok & [= <- <-])%bind_Ok.
  apply checked_add_u64_Some in Hn as [-> Hn]. done.
Qed.

(** A next version is not the current one. *)
Lemma version_next_fresh s id v (P : Prop) : version_next s id v → s_versions s !! id = Some v → P.
Proof. intros [Hv _] E. unfold highwater in Hv. rewrite E in Hv. cbn in Hv. lia. Qed.

Lemma next_insertion_Ok s q s' :
  next_insertion s = Ok (q, s') →
  q = s_next_sequence s + 1 ∧ s' = set_sequence q s ∧ q ≤ u64_max.
Proof.
  unfold next_insertion. intros (n & Hn%ok_or_Ok & [= <- <-])%bind_Ok.
  apply checked_add_u64_Some in Hn as [-> Hn]. done.
Qed.

(** The parts of a row a patch leaves alone. *)
Lemma patch_work_meta w p :
  let r := record (patch_work w p) in
  nw_key (work r) = nw_key (work (record w)) ∧ version r = version (record w) ∧
  insertion_sequence r = insertion_sequence (record w) ∧ lifecycle r = lifecycle (record w) ∧
  attempts r = attempts (record w) ∧ lease_expires_at r = lease_expires_at (record w) ∧
  stored_lease_hash (patch_work w p) = stored_lease_hash w.
Proof. done. Qed.

Lemma patch_work_coverage w p : coverage_ok w → coverage_ok (patch_work w p).
Proof.
  unfold coverage_ok, checked_new. cbn. destruct (field_coverage w); cbn; [done|].
  by destruct (existsb blank (btree_elems prefixes)).
Qed.

Lemma coverage_ok_fields w w' :
  field_coverage w' = field_coverage w → coverage_ok w → coverage_ok w'.
Proof.
  unfold coverage_ok, checked_new. intros ->. destruct (field_coverage w); [done|].
  by destruct (existsb blank (btree_elems prefixes)).
Qed.

Lemma drop_lease_ok w : lifecycle (record w) ≠ Leased → lease_ok (drop_lease w).
Proof. intros Hl. unfold lease_ok. cbn. split; split; (done || by intros []). Qed.

Lemma lease_held_spec w l now :
  lease_held w l now = true →
  lifecycle (record w) = Leased ∧ (∃ e, lease_expires_at (record w) = Some e ∧ now < e) ∧
  ∃ h, stored_lease_hash w = Some h ∧ token_equal h (lease_hash (token l)) = true.
Proof.
  unfold lease_held. rewrite !andb_true_iff, bool_decide_eq_true. intros [[Hl He] Hh].
  split; [done|]. split.
  - destruct (lease_expires_at (record w)) as [e|]; [|done]. exists e. split; [done|]. by apply Z.ltb_lt.
  - destruct (stored_lease_hash w) as [h|]; [|done]. by exists h.
Qed.

(** The row a disposition leaves keeps its identity, its sequence and its
    attempts; it stays leased only when retained. *)
Lemma dispose_Ok disposition now schema w w' :
  dispose disposition now schema w = Ok w' →
  let r := record w in let r' := record w' in
  nw_key (work r') = nw_key (work r) ∧ version r' = version r ∧
  insertion_sequence r' = insertion_sequence r ∧ attempts r' = attempts r ∧
  field_coverage w' = field_coverage w ∧ stored_lease_hash w' = stored_lease_hash w ∧
  (lifecycle r' = Leased → lifecycle r = Leased ∧ (is_Some (lease_expires_at r) → is_Some (lease_expires_at r'))).
Proof.
  unfold dispose. destruct disposition as [| | |t|[n|]| |]; cbn; intros Hd.
  all: try (injection Hd as <-; cbn; naive_solver).
  - destruct (_ <=? _); injection Hd as <-; cbn; naive_solver.
  - apply bind_Ok in Hd as (e & _ & [= <-]). cbn. naive_solver.
Qed.

(** [step_work] with the written state as an equation. *)
Lemma step_work_eq s d key w v n st' :
  nw_key (work (record w)) = key → version (record w) = v → lease_ok w → coverage_ok w →
  version_next s (None, key) v → sequence_step s key n (insertion_sequence (record w)) →
  st' = (put_work key w v n s, push_work w (push_version (mkRecordVersion None key v) d)) →
  step (s, d) (None, key) st'.
Proof. intros ????? Hq ->. apply step_work; try done; [by apply version_next_step|by apply version_next_fresh]. Qed.

Lemma apply_claimed_step now schema s d u st' :
  snapshot_ok s → apply_claimed now schema (s, d) u = Ok st' → step (s, d) (None, cu_key u) st'.
Proof.
  intros Hs Ha. unfold apply_claimed in Ha. apply bind_Ok in Ha as (w & Hw%ok_or_Ok & Ha).
  destruct (lease_held w (cu_lease u) now) eqn:Hh; [|done]. cbn [negb] in Ha.
  apply lease_held_spec in Hh as (Hleased & (e & He & _) & (h & Hhash & _)).
  destruct (version (record w) =? cu_expected_version u); [|done]. cbn [negb] in Ha.
  case_bool_decide; [injection Ha as <-; constructor|].
  apply bind_Ok in Ha as ([v s1] & [-> Hv]%next_version_Ok & Ha).
  pose proof (ok_work s Hs _ _ Hw) as Hrow.
  case_bool_decide as Hdel; [injection Ha as <-; exact (step_drop s d _ v Hv (ex_intro _ w Hw))|].
  apply bind_Ok in Ha as (w1 & Hd & [= <-]).
  apply dispose_Ok in Hd as (Hk & Hver & Hseq & _ & Hcov & Hhash' & Hl).
  assert (Hc1 : coverage_ok w1).
  { eapply coverage_ok_fields; [exact Hcov|]. apply (patch_work_coverage w (cu_patch u)), (wo_coverage _ _ _ Hrow). }
  cbn in Hk, Hver, Hseq, Hhash', Hl. rewrite (wo_key _ _ _ Hrow) in Hk.
  assert (Hq : sequence_step s (cu_key u) (s_next_sequence s) (insertion_sequence (record w1))).
  { left. split; [done|]. exists w. by rewrite Hseq. }
  case_bool_decide as Hl1; cbn [negb];
    (eapply step_work_eq; [..|reflexivity]; [done|done| |done|done|done]).
  - destruct (Hl Hl1) as [_ He']. rewrite He in He'. unfold lease_ok. rewrite Hhash', Hhash. naive_solver.
  - by apply drop_lease_ok.
Qed.

Lemma apply_state_step s d u st' :
  apply_state (s, d) u = Ok st' → step (s, d) (Some (su_collection u), su_key u) st'.
Proof.
  unfold apply_state. intros ([] & He & Ha)%bind_Ok.
  destruct (su_change u) as [fields value| |] eqn:Hc; cbn [is_check] in Ha; [| |injection Ha as <-; constructor].
  all: apply bind_Ok in Ha as ([v s1] & [-> Hv]%next_version_Ok & [= <-]).
  - exact (step_state s d (su_collection u, su_key u) (mkStateRecord _ _ v fields value) v eq_refl eq_refl Hv).
  - exact (step_drop_state s d (su_collection u, su_key u) v Hv).
Qed.

Lemma unchanged_meta w w' :
  work_record_eqb (record w') (record w) = true → stored_lease_hash w' = stored_lease_hash w →
  row_meta w = row_meta w'.
Proof.
  unfold work_record_eqb, new_work_eqb, row_meta. rewrite !andb_true_iff, !bool_decide_eq_true, !Z.eqb_eq.
  intros. destruct_and!. congruence.
Qed.

(** The row an administrative update leaves has its old key, sequence and
    coverage state, and a lease exactly when it is leased. *)
Lemma administrative_Ok w p l g now changed w' :
  lease_ok w → coverage_ok w → apply_administrative_update w p l g now = Ok (changed, w') →
  nw_key (work (record w')) = nw_key (work (record w)) ∧
  version (record w') = version (record w) ∧
  insertion_sequence (record w') = insertion_sequence (record w) ∧ lease_ok w' ∧ coverage_ok w' ∧
  (changed = false → row_meta w = row_meta w').
Proof.
  intros Hl Hc. unfold apply_administrative_update.
  repeat (case_match; [done|]). intros [= <- <-].
  set (w1 := set_record _ (patch_work w p)). set (w2 := if _ : bool then drop_lease w1 else w1).
  assert (Hw2 : nw_key (work (record w2)) = nw_key (work (record w)) ∧
    version (record w2) = version (record w) ∧
    insertion_sequence (record w2) = insertion_sequence (record w) ∧ lease_ok w2 ∧ coverage_ok w2).
  { assert (Hc1 : coverage_ok w1) by by apply (patch_work_coverage w p).
    unfold w2. case_match eqn:Hdrop; cbn; split_and!; try done.
    - apply orb_true_iff in Hdrop as [Hn|Hg].
      + apply drop_lease_ok. cbn. by apply negb_true_iff, bool_decide_eq_false in Hn.
      + apply drop_lease_ok. cbn. apply bool_decide_eq_true in Hg as ->.
        by destruct l, (lifecycle (record w)).
    - apply orb_false_iff in Hdrop as [Hd Hg]. apply negb_false_iff, bool_decide_eq_true in Hd.
      assert (Hcur : lifecycle (record w) = Leased).
      { unfold desired_lifecycle in Hd. destruct l; try done. by case_match. }
      unfold lease_ok. cbn. rewrite Hd. rewrite <- Hcur at 1 3. exact Hl. }
  assert (Hmeta : ∀ w3, negb (work_record_eqb (record w3) (record w)) ||
    negb (bool_decide (stored_lease_hash w3 = stored_lease_hash w)) = false → row_meta w = row_meta w3).
  { intros w3 [E1 E2]%orb_false_iff. apply unchanged_meta; [by apply negb_false_iff|].
    by apply negb_false_iff, bool_decide_eq_true in E2. }
  destruct Hw2 as (?&?&?&?&?). case_match; split_and!; auto.
Qed.

Lemma change_work_patch_ok w p v :
  lease_ok w → coverage_ok w →
  let w1 := if bool_decide (lifecycle (record w) = Leased)
    then drop_lease (set_record (set_lifecycle Pending) w) else w in
  let w2 := set_record (set_version v) (patch_work w1 p) in
  nw_key (work (record w2)) = nw_key (work (record w)) ∧
  insertion_sequence (record w2) = insertion_sequence (record w) ∧ lease_ok w2 ∧ coverage_ok w2.
Proof.
  intros Hl Hc w1 w2.
  assert (Hl1 : lease_ok w1) by (unfold w1; case_bool_decide; [by apply drop_lease_ok|done]).
  assert (Hc1 : coverage_ok w1) by (unfold w1; by case_bool_decide).
  split_and!; [| |done|by apply (patch_work_coverage w1 p)]; unfold w2, w1; by case_bool_decide.
Qed.

Lemma fresh_work_ok w v q now : lease_ok (fresh_work w v q now) ∧ coverage_ok (fresh_work w v q now).
Proof. split; [|done]. split; split; (done || by intros []). Qed.

Lemma apply_update_step now s d u st' :
  snapshot_ok s → apply_update now (s, d) u = Ok st' → step (s, d) (None, uu_key u) st'.
Proof.
  intros Hs. unfold apply_update. intros (w & Hw%ok_or_Ok & ([] & _ & Ha)%bind_Ok)%bind_Ok.
  pose proof (ok_work s Hs _ _ Hw) as Hrow. pose proof (wo_lease _ _ _ Hrow) as Hl.
  pose proof (wo_coverage _ _ _ Hrow) as Hc.
  assert (Hq : sequence_step s (uu_key u) (s_next_sequence s) (insertion_sequence (record w))).
  { left. split; [done|]. by exists w. }
  case_match; [done|]. apply bind_Ok in Ha as ([v s1] & Hv & Ha).
  apply bind_Ok in Ha as ([[written v'] s2] & Hch & Ha). unfold change_work in Hch.
  destruct (uu_change u) as [p|p l g|w0|]; cbn [is_administrative] in Hv.
  - apply next_version_Ok in Hv as [-> Hv]. injection Hch as <- <- <-. injection Ha as <-.
    destruct (change_work_patch_ok w p v Hl Hc) as (Hk & Hseq & Hl2 & Hc2).
    eapply step_work_eq; [..|reflexivity]; [|done|done|done|done|by rewrite Hseq].
    by rewrite Hk, (wo_key _ _ _ Hrow).
  - injection Hv as <- <-. apply bind_Ok in Hch as ([changed w1] & Hadm & Hch).
    apply bind_Ok in Hch as ([v1 s1] & Hv1 & [= <- <- <-]). injection Ha as <-.
    apply administrative_Ok in Hadm as (Hk & Hver & Hseq & Hl2 & Hc2 & Hm); [|done..].
    rewrite (wo_key _ _ _ Hrow) in Hk. destruct changed.
    + apply next_version_Ok in Hv1 as [-> Hv].
      eapply step_work_eq; [..|reflexivity]; [done|done|done|done|done|by cbn; rewrite Hseq].
    + injection Hv1 as <- <-. rewrite <-Hver.
      assert (E : s_versions s !! (None, uu_key u) = Some (version (record w1))) by (rewrite Hver; apply Hrow).
      set (w2 := set_record _ w1).
      assert (Hput : set_work <[uu_key u := w2]> s = put_work (uu_key u) w2 (version (record w1)) (s_next_sequence s) s).
      { unfold set_work, put_work. by rewrite (insert_id (s_versions s)). }
      rewrite Hput. apply step_work; try done.
      * by right.
      * cbn. by rewrite Hseq.
      * intros _. exists w. split; [done|]. rewrite (Hm eq_refl). by destruct w1 as [[]].
  - apply next_version_Ok in Hv as [-> Hv].
    destruct (lifecycle (record w)); try done. case_bool_decide as Hk; [|done]. cbn [negb] in Hch.
    apply bind_Ok in Hch as ([q s3] & (-> & -> & Hmax)%next_insertion_Ok & [= <- <- <-]).
    injection Ha as <-. cbn [s_next_sequence set_versions] in *.
    destruct (fresh_work_ok w0 v (s_next_sequence s + 1) now) as [Hl2 Hc2].
    eapply step_work_eq; [..|reflexivity]; [done|done|done|done|done|by right].
  - apply next_version_Ok in Hv as [-> Hv]. injection Hch as <- <- <-. injection Ha as <-.
    exact (step_drop s d _ v Hv (ex_intro _ w Hw)).
Qed.

Lemma apply_insert_step now s d w st' :
  apply_insert now (s, d) w = Ok st' → step (s, d) (None, nw_key w) st'.
Proof.
  unfold apply_insert. case_bool_decide; [done|].
  intros ([v s1] & [-> Hv]%next_version_Ok & ([q s2] & (-> & -> & Hmax)%next_insertion_Ok & [= <-])%bind_Ok)%bind_Ok.
  cbn [s_next_sequence set_versions] in *.
  destruct (fresh_work_ok w v (s_next_sequence s + 1) now) as [Hl2 Hc2].
  eapply step_work_eq; [..|reflexivity]; [done|done|done|done|done|by right].
Qed.

(** A fold of updates that are steps is a sequence of steps. *)
Lemma try_fold_steps {A} (f : plan_state → A → result Rejection plan_state) (id : A → RecordIdentity) l :
  (∀ st x st', snapshot_ok st.1 → f st x = Ok st' → step st (id x) st') →
  ∀ st st', snapshot_ok st.1 → try_fold f st l = Ok st' → steps st (id <$> l) st'.
Proof.
  intros Hf. induction l as [|x l IH]; intros st st' Hs Ha; cbn in Ha.
  - injection Ha as <-. constructor.
  - apply bind_Ok in Ha as (st1 & H1 & Ha). pose proof (Hf _ _ _ Hs H1) as Hstep.
    econstructor; [exact Hstep|]. apply IH; [|done]. by eapply step_preserves_ok.
Qed.

Definition group_ids (g : CommitGroup) : list RecordIdentity :=
  ((λ u, (None, cu_key u)) <$> claimed_updates g) ++
  ((λ u, (Some (su_collection u), su_key u)) <$> state_updates g) ++
  ((λ u, (None, uu_key u)) <$> work_updates g) ++
  ((λ w, (None, nw_key w)) <$> work_inserts g).

(** Applying a group takes one step per update, in the order of the four
    loops, and seals the delta. *)
Lemma apply_group_steps g s now schema st' :
  snapshot_ok s → apply_group g s now schema = Ok st' →
  ∃ st, steps (s, empty_delta (s_next_sequence s) (mkCommitReceipt (request_id g) (Committed [])))
          (group_ids g) st ∧ st' = seal_delta st.
Proof.
  intros Hs. unfold apply_group.
  intros (st1 & H1 & (st2 & H2 & (st3 & H3 & (st4 & H4 & [= <-])%bind_Ok)%bind_Ok)%bind_Ok)%bind_Ok.
  eapply (try_fold_steps _ (λ u, (None, cu_key u))) in H1; [|by intros [] ??; apply apply_claimed_step|done].
  pose proof (steps_preserve_ok _ _ _ H1 Hs) as Hs1.
  eapply (try_fold_steps _ (λ u, (Some (su_collection u), su_key u))) in H2;
    [|by intros [] ???; apply apply_state_step|done].
  pose proof (steps_preserve_ok _ _ _ H2 Hs1) as Hs2.
  eapply (try_fold_steps _ (λ u, (None, uu_key u))) in H3; [|by intros [] ??; apply apply_update_step|done].
  pose proof (steps_preserve_ok _ _ _ H3 Hs2) as Hs3.
  eapply (try_fold_steps _ (λ w, (None, nw_key w))) in H4; [|by intros [] ???; apply apply_insert_step|done].
  exists st4. split; [|done]. eauto using steps_app.
Qed.

End refinement.
