(* ===== verification/CommitPlan.v ===== *)
(** A planned commit as a whole: the steps taken on the addressed part of a
    snapshot are steps of the snapshot, the delta replays them, and the merged
    snapshot is the one they reach. *)
From S2P Require Import Prelude Identity Field Records Selector Administration Commit IndexKey.
From S2P Require Import FieldView Snapshot Uniqueness Planner PlannerFacts.

(** ** Steps of a part are steps of the whole *)

(** Two snapshots that agree on some records and on the sequence. *)
Record agree (ids : list RecordIdentity) (c s : RecordSnapshot) : Prop := mkAgree {
  ag_work : ∀ k, (None, k) ∈ ids → s_work c !! k = s_work s !! k;
  ag_state : ∀ id, (Some id.1, id.2) ∈ ids → s_state c !! id = s_state s !! id;
  ag_versions : ∀ id, id ∈ ids → s_versions c !! id = s_versions s !! id;
  ag_sequence : s_next_sequence c = s_next_sequence s;
}.

Lemma agree_version_next ids c s id v :
  agree ids c s → id ∈ ids → version_next c id v → version_next s id v.
Proof. intros Ha Hid. unfold version_next, highwater. by rewrite (ag_versions _ _ _ Ha id Hid). Qed.

Lemma agree_version_step ids c s id v :
  agree ids c s → id ∈ ids → version_step c id v → version_step s id v.
Proof.
  intros Ha Hid [Hv|Hv]; [left; by eapply agree_version_next|right].
  by rewrite <-(ag_versions _ _ _ Ha id Hid).
Qed.

Lemma agree_sequence_step ids c s k n q :
  agree ids c s → (None, k) ∈ ids → sequence_step c k n q → sequence_step s k n q.
Proof.
  intros Ha Hid. unfold sequence_step.
  by rewrite (ag_work _ _ _ Ha k Hid), (ag_sequence _ _ _ Ha).
Qed.

(** Lookups after an insertion or a deletion in both maps. *)
Lemma lookup_insert_both `{Countable K} {A} (m m' : gmap K A) k a k' :
  m !! k' = m' !! k' → <[k := a]> m !! k' = <[k := a]> m' !! k'.
Proof. intros E. rewrite !lookup_insert. by case_decide. Qed.
Lemma lookup_delete_both `{Countable K} {A} (m m' : gmap K A) k k' :
  m !! k' = m' !! k' → delete k m !! k' = delete k m' !! k'.
Proof. intros E. rewrite !lookup_delete. by case_decide. Qed.

Lemma step_lift ids c s d id c' d' :
  agree ids c s → id ∈ ids → step (c, d) id (c', d') →
  ∃ s', step (s, d) id (s', d') ∧ agree ids c' s'.
Proof.
  intros Ha Hid Hstep. pose proof Ha as [Hw Hst Hv Hn].
  inversion Hstep as [| ? ? k w v n Hk Hwv Hl Hc Hver Hseq Hsame | ? ? k v Hver Hsome
    | ? ? id' r v Hid' Hrv Hver | ? ? id' v Hver]; subst.
  - exists s. split; [constructor|done].
  - exists (put_work (nw_key (work (record w))) w (version (record w)) n s). split.
    + apply step_work; try done; [by eapply agree_version_step|by eapply agree_sequence_step|].
      by rewrite <-(Hv _ Hid), <-(Hw _ Hid).
    + split; cbn; auto using lookup_insert_both.
  - exists (drop_work k v s). split.
    + apply step_drop; [by eapply agree_version_next|by rewrite <-(Hw _ Hid)].
    + split; cbn; auto using lookup_insert_both, lookup_delete_both.
  - exists (put_state (sr_collection r, sr_key r) r (sr_version r) s). split.
    + apply (step_state s d (sr_collection r, sr_key r)); [done..|by eapply agree_version_next].
    + split; cbn; auto using lookup_insert_both.
  - exists (drop_state id' v s). split.
    + apply step_drop_state. by eapply agree_version_next.
    + split; cbn; auto using lookup_insert_both, lookup_delete_both.
Qed.

Lemma steps_lift ids c d l c' d' :
  steps (c, d) l (c', d') → Forall (λ id, id ∈ ids) l → ∀ s, agree ids c s →
  ∃ s', steps (s, d) l (s', d') ∧ agree ids c' s'.
Proof.
  remember (c, d) as st eqn:E. remember (c', d') as st' eqn:E'. intros Hsteps.
  revert c d E. induction Hsteps as [st|st id [c1 d1] l st'' H1 Hsteps IH]; intros c d E Hl s Ha.
  - subst. injection E as -> ->. exists s. split; [constructor|done].
  - subst. apply Forall_cons in Hl as [Hid Hl].
    destruct (step_lift _ _ _ _ _ _ _ Ha Hid H1) as (s1 & Hs1 & Ha1).
    destruct (IH eq_refl c1 d1 eq_refl Hl s1 Ha1) as (s' & Hs' & Ha').
    exists s'. split; [|done]. by econstructor.
Qed.

(** ** What steps leave alone *)

Lemma step_frame st id st' :
  step st id st' →
  (∀ id', id' ≠ id → s_versions st'.1 !! id' = s_versions st.1 !! id') ∧
  (∀ k, (None, k) ≠ id → s_work st'.1 !! k = s_work st.1 !! k) ∧
  (∀ i, (Some i.1, i.2) ≠ id → s_state st'.1 !! i = s_state st.1 !! i) ∧
  s_next_sequence st.1 ≤ s_next_sequence st'.1 ∧
  unique_probes_loaded st'.1 = unique_probes_loaded st.1 ∧ unique_owners st'.1 = unique_owners st.1.
Proof.
  assert (Hpair : ∀ i j : string * string, (Some i.1, i.2) ≠ (Some j.1, j.2) → j ≠ i).
  { intros [] [] Hne E. by injection E as -> ->. }
  destruct 1 as [| s d k w v n _ _ _ _ _ Hseq _ | | |]; cbn; split_and!; try done; intros.
  all: rewrite ?lookup_insert_ne, ?lookup_delete_ne by (congruence || by apply Hpair); try done.
  destruct Hseq as [[-> _]|[-> _]]; lia.
Qed.

Lemma steps_frame st l st' :
  steps st l st' →
  (∀ id, id ∉ l → s_versions st'.1 !! id = s_versions st.1 !! id) ∧
  (∀ k, (None, k) ∉ l → s_work st'.1 !! k = s_work st.1 !! k) ∧
  (∀ i, (Some i.1, i.2) ∉ l → s_state st'.1 !! i = s_state st.1 !! i) ∧
  s_next_sequence st.1 ≤ s_next_sequence st'.1 ∧
  unique_probes_loaded st'.1 = unique_probes_loaded st.1 ∧ unique_owners st'.1 = unique_owners st.1.
Proof.
  induction 1 as [|st id st' l st'' H1 H2 (IHv & IHw & IHs & IHn & IHp & IHo)]; [done|].
  apply step_frame in H1 as (Hv & Hw & Hs & Hn & Hp & Ho). split_and!.
  1-3: intros i [Hne Hi]%not_elem_of_cons. 1: rewrite IHv; auto. 1: rewrite IHw; auto. 1: rewrite IHs; auto.
  - lia.
  - congruence.
  - congruence.
Qed.

(** ** Versions count changes *)

(** The record of an identity is what it was, fields and body of work apart. *)
Definition same_record (s s' : RecordSnapshot) (id : RecordIdentity) : Prop :=
  match id.1 with
  | None => row_meta <$> s_work s' !! id.2 = row_meta <$> s_work s !! id.2
  | Some c => s_state s' !! (c, id.2) = s_state s !! (c, id.2)
  end.

Definition advanced (s s' : RecordSnapshot) (id : RecordIdentity) : Prop :=
  (s_versions s' !! id = s_versions s !! id ∧ same_record s s' id) ∨
  s_versions s' !! id = Some (highwater s id + 1).

Lemma same_record_refl s id : same_record s s id.
Proof. unfold same_record. by destruct id.1. Qed.

Lemma step_advance st id st' : step st id st' → advanced st.1 st'.1 id.
Proof.
  destruct 1 as [| s d k w v n Hk Hwv Hl Hc Hver Hseq Hsame | s d k v Hver Hsome
    | s d id r v Hid Hrv Hver | s d id v Hver].
  - left. auto using same_record_refl.
  - unfold advanced, same_record. cbn. rewrite !lookup_insert_eq. destruct Hver as [[-> _]|Hver]; [by right|left].
    rewrite Hver. split; [done|]. destruct (Hsame Hver) as (old & -> & E). cbn. by rewrite E.
  - right. cbn. rewrite lookup_insert_eq. by destruct Hver as [-> _].
  - right. cbn. rewrite lookup_insert_eq. by destruct Hver as [-> _].
  - right. cbn. rewrite lookup_insert_eq. by destruct Hver as [-> _].
Qed.

(** Outside the stepped records nothing changes. *)
Lemma steps_same st l st' id :
  steps st l st' → id ∉ l →
  s_versions st'.1 !! id = s_versions st.1 !! id ∧ same_record st.1 st'.1 id.
Proof.
  intros (Hv & Hw & Hs & _)%steps_frame Hid. split; [by apply Hv|].
  destruct id as [[c|] k]; cbn; [by apply (Hs (c, k))|by rewrite Hw].
Qed.

Lemma steps_advance st l st' id : steps st l st' → NoDup l → advanced st.1 st'.1 id.
Proof.
  induction 1 as [|st i st' l st'' H1 H2 IH]; [left; auto using same_record_refl|]. intros [Hi Hl]%NoDup_cons.
  destruct (decide (id = i)) as [->|Hne].
  - destruct (steps_same _ _ _ i H2 Hi) as [Ev Es]. unfold advanced. rewrite Ev.
    destruct (step_advance _ _ _ H1) as [[Ev1 Es1]|Ev1]; [left|by right]. split; [done|].
    unfold same_record in *. destruct i as [[c|] k]; cbn in *; congruence.
  - destruct (step_frame _ _ _ H1) as (Hv & Hw & Hs & _). specialize (IH Hl).
    unfold advanced, same_record, highwater in *. rewrite <-(Hv id Hne).
    destruct IH as [[Ev Es]|Ev]; [left|by right]. split; [done|].
    destruct id as [[c|] k]; cbn in *; [rewrite Es; by apply (Hs (c, k))|by rewrite Es, Hw].
Qed.

(** ** The delta replays the steps *)

Definition put_row (m : gmap string StoredWork) (row : StoredWork) : gmap string StoredWork :=
  <[nw_key (work (record row)) := row]> m.
Definition put_state_row (m : gmap (string * string) StateRecord) (row : StateRecord)
    : gmap (string * string) StateRecord := <[(sr_collection row, sr_key row) := row]> m.
Definition put_version (m : gmap RecordIdentity Z) (v : RecordVersion) : gmap RecordIdentity Z :=
  <[version_id v := rv_version v]> m.
Definition drop_all `{Countable K} {A} (m : gmap K A) (l : list K) : gmap K A :=
  foldl (λ m k, delete k m) m l.

(** The delta [d], collected while stepping over [past], turns [s] into [s']. *)
Record replays (s : RecordSnapshot) (past : list RecordIdentity) (s' : RecordSnapshot) (d : CommitDelta)
    : Prop := mkReplays {
  rp_work : s_work s' = foldl put_row (drop_all (s_work s) (d_deleted_work d)) (d_work d);
  rp_state : s_state s' = foldl put_state_row (drop_all (s_state s) (d_deleted_state d)) (d_state d);
  rp_versions : s_versions s' = foldl put_version (s_versions s) (d_versions d);
  rp_rows : ∀ row, row ∈ d_work d → (None, nw_key (work (record row))) ∈ past;
  rp_state_rows : ∀ row, row ∈ d_state d → (Some (sr_collection row), sr_key row) ∈ past;
}.

Lemma drop_all_snoc `{Countable K} {A} (m : gmap K A) l k :
  drop_all m (l ++ [k]) = delete k (drop_all m l).
Proof. unfold drop_all. by rewrite foldl_app. Qed.

Lemma delete_foldl_insert `{Countable K} {A B} (f : B → K) (g : B → A) l (m : gmap K A) k :
  (∀ x, x ∈ l → f x ≠ k) →
  delete k (foldl (λ m x, <[f x := g x]> m) m l) = foldl (λ m x, <[f x := g x]> m) (delete k m) l.
Proof.
  revert m. induction l as [|x l IH]; intros m Hl; cbn; [done|].
  rewrite IH by (intros; apply Hl; by right). f_equal. apply delete_insert_ne.
  apply not_eq_sym, Hl. by left.
Qed.

Lemma step_replays s past st id st' :
  replays s past st.1 st.2 → id ∉ past → step st id st' → replays s (id :: past) st'.1 st'.2.
Proof.
  intros [Hw Hs Hv Hr Hsr] Hid Hstep.
  assert (Hr' : ∀ row, row ∈ d_work st.2 → (None, nw_key (work (record row))) ∈ id :: past)
    by (intros; right; auto).
  assert (Hsr' : ∀ row, row ∈ d_state st.2 → (Some (sr_collection row), sr_key row) ∈ id :: past)
    by (intros; right; auto).
  destruct Hstep as [| s0 d k w v n Hk Hwv Hl Hc Hver Hseq Hsame | s0 d k v Hver Hsome
    | s0 d i r v Hi Hrv Hver | s0 d i v Hver]; [by split|..]; cbn in *;
    split; cbn; try done; rewrite ?foldl_app, ?drop_all_snoc; cbn; try by rewrite ?Hw, ?Hs, ?Hv.
  - by rewrite Hw, <-Hk.
  - intros row [Hrow|<-%list_elem_of_singleton]%elem_of_app; [auto|]. rewrite Hk. by left.
  - rewrite Hw. apply (delete_foldl_insert (λ row, nw_key (work (record row))) id).
    intros row Hrow E. apply Hid. rewrite <-E. auto.
  - by rewrite Hs, <-Hi.
  - intros row [Hrow|<-%list_elem_of_singleton]%elem_of_app; [auto|]. subst i. by left.
  - rewrite Hs. apply (delete_foldl_insert (λ row, (sr_collection row, sr_key row)) id).
    intros row Hrow E. apply Hid. rewrite <-E. by apply Hsr.
Qed.

Lemma steps_replay s past st l st' :
  steps st l st' → replays s past st.1 st.2 → NoDup l → (∀ id, id ∈ l → id ∉ past) →
  replays s (rev l ++ past) st'.1 st'.2.
Proof.
  intros Hsteps. revert past. induction Hsteps as [|st id st' l st'' H1 H2 IH]; intros past Hp Hl Hd; [done|].
  apply NoDup_cons in Hl as [Hid Hl]. cbn. rewrite <-app_assoc. apply (IH (id :: past)); [|done|].
  - apply step_replays with st; [done| |done]. apply Hd. by left.
  - intros i Hi [->|Hi']%elem_of_cons; [done|]. apply (Hd i); [by right|done].
Qed.

(** ** The addressed part *)

Lemma foldl_copy_lookup `{Countable K} {A} (src : gmap K A) l (m : gmap K A) k :
  (∀ k, m !! k = None ∨ m !! k = src !! k) →
  foldl (copy_entry src) m l !! k = if decide (k ∈ l) then src !! k else m !! k.
Proof.
  revert m. induction l as [|x l IH]; intros m Hm; cbn; [by rewrite decide_False by apply not_elem_of_nil|].
  assert (Hx : ∀ j, copy_entry src m x !! j = if decide (j = x) then src !! x else m !! j).
  { intros j. unfold copy_entry. destruct (src !! x) as [a|] eqn:E.
    - rewrite lookup_insert. destruct (decide (x = j)), (decide (j = x)); congruence.
    - destruct (decide (j = x)) as [Hj|Hj]; [subst; destruct (Hm x) as [->| ->]; congruence|done]. }
  rewrite IH.
  - rewrite Hx. destruct (decide (k ∈ x :: l)) as [Hk|Hk]; rewrite elem_of_cons in Hk;
      destruct (decide (k ∈ l)), (decide (k = x)); subst; try done; naive_solver.
  - intros j. rewrite Hx. destruct (decide (j = x)); subst; auto.
Qed.

Lemma copy_lookup `{Countable K} {A} (src : gmap K A) l k :
  foldl (copy_entry src) ∅ l !! k = if decide (k ∈ l) then src !! k else None.
Proof. rewrite foldl_copy_lookup; [by rewrite lookup_empty|]. intros. left. apply lookup_empty. Qed.

Lemma group_ids_work g k : (None, k) ∈ group_ids g ↔ k ∈ addressed_work g.
Proof.
  unfold group_ids, addressed_work. rewrite !elem_of_app, !list_elem_of_fmap. naive_solver.
Qed.
Lemma group_ids_state g i : (Some i.1, i.2) ∈ group_ids g ↔ i ∈ addressed_state g.
Proof.
  unfold group_ids, addressed_state. rewrite !elem_of_app, !list_elem_of_fmap.
  destruct i. cbn. naive_solver.
Qed.

Lemma addressed_versions g id :
  id ∈ (pair None <$> addressed_work g) ++ ((λ i, (Some i.1, i.2)) <$> addressed_state g) ↔ id ∈ group_ids g.
Proof.
  rewrite elem_of_app, !list_elem_of_fmap. split.
  - intros [(k & -> & Hk)|(i & -> & Hi)]; [by apply group_ids_work|by apply group_ids_state].
  - destruct id as [[c|] k]; intros Hid.
    + right. exists (c, k). split; [done|]. by apply group_ids_state.
    + left. exists k. split; [done|]. by apply group_ids_work.
Qed.

Lemma addressed_agree g s : agree (group_ids g) (addressed_snapshot g s) s.
Proof.
  split; cbn; [| | |done]; intros i Hi; rewrite copy_lookup, decide_True; try done.
  - by apply group_ids_work.
  - by apply group_ids_state.
  - by apply addressed_versions.
Qed.

Lemma addressed_ok g s : snapshot_ok s → snapshot_ok (addressed_snapshot g s).
Proof.
  intros Hs. split; cbn.
  - intros k w. rewrite copy_lookup. case_decide as Hk; [|done]. intros Hw.
    eapply work_ok_frame; [by apply (ok_work s Hs)| |done].
    apply (ag_versions _ _ _ (addressed_agree g s)). by apply group_ids_work.
  - intros i r. rewrite copy_lookup. case_decide as Hi; [|done]. intros Hr.
    eapply state_row_ok_frame; [by apply (ok_state s Hs)|].
    apply (ag_versions _ _ _ (addressed_agree g s)). by apply group_ids_state.
  - intros i v. rewrite copy_lookup. case_decide; [|done]. apply (ok_versions s Hs).
  - apply Hs.
  - intros k1 k2 w1 w2. rewrite !copy_lookup. do 2 (case_decide; [|done]). apply (ok_distinct s Hs).
Qed.

(** ** The merged snapshot *)

Record merged (s : RecordSnapshot) (d : CommitDelta) (s2 s' : RecordSnapshot) : Prop := mkMerged {
  mg_work : ∀ k,
    (k ∉ row_keys d ∧ s_work s' !! k = s_work s2 !! k) ∨
    ∃ row, row ∈ d_work d ∧ nw_key (work (record row)) = k ∧ s_work s2 !! k = Some row ∧
      s_work s' !! k = Some (merge_row s d row);
  mg_state : s_state s' = s_state s2;
  mg_versions : s_versions s' = s_versions s2;
  mg_sequence : s_next_sequence s' = s_next_sequence s2;
  mg_probes : unique_probes_loaded s' = unique_probes_loaded s;
}.

Lemma merge_row_meta s d row : row_meta (merge_row s d row) = row_meta row.
Proof. unfold merge_row. by repeat case_match. Qed.

Lemma merged_same_record s0 s d s2 s' id : merged s d s2 s' → same_record s0 s2 id → same_record s0 s' id.
Proof.
  intros [Hw Hst _ _ _]. unfold same_record. destruct id as [[c|] k]; cbn; [by rewrite Hst|].
  destruct (Hw k) as [[_ ->]|(row & _ & _ & E2 & ->)]; [done|]. rewrite E2. cbn. by rewrite merge_row_meta.
Qed.

Lemma merge_row_key s d row : nw_key (work (record (merge_row s d row))) = nw_key (work (record row)).
Proof. unfold merge_row. by repeat case_match. Qed.

Lemma foldl_put_merged (f : StoredWork → StoredWork) rows (m : gmap string StoredWork) k :
  (∀ row, nw_key (work (record (f row))) = nw_key (work (record row))) →
  (k ∉ ((λ row, nw_key (work (record row))) <$> rows) ∧
     foldl put_row m (f <$> rows) !! k = foldl put_row m rows !! k) ∨
  ∃ row, row ∈ rows ∧ nw_key (work (record row)) = k ∧
    foldl put_row m rows !! k = Some row ∧ foldl put_row m (f <$> rows) !! k = Some (f row).
Proof.
  intros Hf. induction rows as [|row rows IH] using rev_ind; [left; split; [apply not_elem_of_nil|done]|].
  rewrite !fmap_app, !foldl_app. cbn. unfold put_row at 1 3 5 7. rewrite Hf.
  destruct (decide (nw_key (work (record row)) = k)) as [Hk|Hk].
  - right. exists row. rewrite Hk, !lookup_insert_eq. split_and!; try done.
    apply elem_of_app. right. by left.
  - rewrite !lookup_insert_ne by done. destruct IH as [[Hn E]|(r & Hr & Hrest)].
    + left. split; [|done]. intros [?|E'%list_elem_of_singleton]%elem_of_app; congruence.
    + right. exists r. split; [|done]. apply elem_of_app. by left.
Qed.

Lemma merge_delta_Ok s d additions schema s' s2 past :
  merge_delta s d additions schema = Ok s' → replays s past s2 d → d_next_sequence d = s_next_sequence s2 →
  merged s d s2 s'.
Proof.
  unfold merge_delta. intros (e & _ & [= <-])%bind_Ok [Hw Hs Hv _ _] Hn. split; cbn; try done.
  intros k. rewrite Hw. by apply (foldl_put_merged (merge_row s d)), merge_row_key.
Qed.

Lemma apply_to_view_coverage fields fields' c change :
  is_ok (checked_new fields c) = true →
  is_ok (checked_new fields' (apply_to_view fields c change).2) = true.
Proof.
  unfold checked_new. destruct change, c; cbn; try done; by destruct (existsb blank (btree_elems prefixes)).
Qed.

Lemma merge_row_coverage s d row : snapshot_ok s → coverage_ok (merge_row s d row).
Proof.
  intros Hs. unfold merge_row. destruct (s_work s !! nw_key (work (record row))) as [old|] eqn:Hold.
  - pose proof (wo_coverage _ _ _ (ok_work s Hs _ _ Hold)) as Hc.
    pose proof (apply_to_view_coverage _ (apply_to_view (nw_fields (work (record old))) (field_coverage old)
      (default FPreserve (d_work_fields d !! nw_key (work (record row))))).1 _
      (default FPreserve (d_work_fields d !! nw_key (work (record row)))) Hc) as Hc'.
    by repeat case_match.
  - destruct (d_work_fields d !! nw_key (work (record row))) as [[| |]|]; cbn; by repeat case_match.
Qed.

Lemma merged_ok s d s2 s' : snapshot_ok s → snapshot_ok s2 → merged s d s2 s' → snapshot_ok s'.
Proof.
  intros Hs H2 [Hw Hst Hv Hn _].
  assert (Hlook : ∀ k w, s_work s' !! k = Some w →
    ∃ w2, s_work s2 !! k = Some w2 ∧ row_meta w = row_meta w2 ∧ (coverage_ok w2 → coverage_ok w)).
  { intros k w Hk. destruct (Hw k) as [[_ E]|(row & _ & _ & E2 & E)]; [exists w; by rewrite <-E|].
    exists row. rewrite E in Hk. injection Hk as <-. split; [done|]. split; [apply merge_row_meta|].
    intros _. by apply merge_row_coverage. }
  split.
  - intros k w (w2 & H2w & Hm & Hc)%Hlook. destruct (ok_work s2 H2 _ _ H2w) as [Hk Hver Hseq Hl Hcov].
    unfold row_meta in Hm. injection Hm as E1 _ _ E2 E3 E4 _ _ E5 E6.
    split; rewrite ?Hn, ?Hv, ?E1, ?E2, ?E3; auto. unfold lease_ok. by rewrite E4, E5, E6.
  - intros i r. rewrite Hst. intros Hr. eapply state_row_ok_frame; [by apply (ok_state s2 H2)|by rewrite Hv].
  - rewrite Hv. apply H2.
  - rewrite Hn. apply H2.
  - intros k1 k2 w1 w2 (v1 & Hv1 & Hm1 & _)%Hlook (v2 & Hv2 & Hm2 & _)%Hlook Hne.
    pose proof (ok_distinct s2 H2 _ _ _ _ Hv1 Hv2 Hne) as Hd.
    unfold row_meta in Hm1, Hm2. congruence.
Qed.

(** ** Planning *)

Definition with_commands (f : gmap string ResolvedFields) (b : gmap string ResolvedBody) (d : CommitDelta)
    : CommitDelta :=
  mkCommitDelta (d_work d) f b (d_deleted_work d) (d_state d) (d_deleted_state d) (d_versions d)
    (d_next_sequence d) (d_receipt d).

Lemma resolve_group_writes_Ok g s d schema d' :
  resolve_group_writes g s d schema = Ok d' → ∃ f b, d' = with_commands f b d.
Proof.
  unfold resolve_group_writes. intros (d1 & H1 & ([] & _ & [= <-])%bind_Ok)%bind_Ok.
  revert H1. generalize (d_work d) as rows. intros rows H1.
  assert (Hgen : ∀ rows d0 f b, d0 = with_commands f b d →
    try_fold (resolve_row g s schema) d0 rows = Ok d1 → ∃ f b, d1 = with_commands f b d).
  { clear. induction rows as [|row rows IH]; intros d0 f b -> Hf; cbn in Hf; [injection Hf as <-; eauto|].
    apply bind_Ok in Hf as (d2 & H2 & Hf). apply (IH d2 (d_work_fields d2) (d_work_bodies d2)); [|done].
    unfold resolve_row in H2. case_match; [case_match|]; try by injection H2 as <-.
    repeat (apply bind_Ok in H2 as (? & _ & H2)). by injection H2 as <-. }
  apply (Hgen rows d (d_work_fields d) (d_work_bodies d)); [by destruct d|done].
Qed.

Definition start (g : CommitGroup) (s : RecordSnapshot) : CommitDelta :=
  empty_delta (s_next_sequence s) (mkCommitReceipt (request_id g) (Committed [])).

Section plan.
Context `{Sha256}.

(** A committed plan: the steps of the group on the whole snapshot, the delta
    that replays them, its resolved commands and its effects on ownership. *)
Record committed (g : CommitGroup) (schema : QueueSchema) (s s2 s' : RecordSnapshot) (d : CommitDelta)
    : Prop := mkCommitted {
  cm_steps : ∃ d0 f b, steps (s, start g s) (group_ids g) (s2, d0) ∧
    d = with_commands f b (seal_delta (s2, d0)).2;
  cm_replays : replays s (rev (group_ids g)) s2 d;
  cm_merged : merged s d s2 s';
  cm_resolved : ∃ d1, d_work d1 = d_work d ∧ resolve_group_writes g s d1 schema = Ok d;
  cm_effects : ∃ e, unique_effects d s schema = Ok e ∧ effects_validate e s = Ok (Ok tt) ∧
    unique_owners s' = foldl (λ m p, <[p.1 := p.2]> m)
      (drop_all (unique_owners s) (map_to_list (releases e)).*1) (claims e);
}.

Lemma cm_rows g schema s s2 s' d row :
  committed g schema s s2 s' d → row ∈ d_work d → (None, nw_key (work (record row))) ∈ group_ids g.
Proof.
  intros [_ Hr _ _ _] Hrow. apply list_elem_of_In, in_rev, list_elem_of_In. by apply (rp_rows _ _ _ _ Hr).
Qed.

Lemma plan_commit_inv g s now schema s' d :
  snapshot_ok s → NoDup (group_ids g) → plan_commit_group g s now schema = Ok (s', d) →
  (∃ reason, s' = s ∧ d = rejected g s reason) ∨
  ∃ s2 c, committed g schema s s2 s' d ∧ apply_group g (addressed_snapshot g s) now schema = Ok c ∧
    agree (group_ids g) c.1 s2.
Proof.
  intros Hs Hg. unfold plan_commit_group. intros ([] & _ & Hp)%bind_Ok.
  destruct (apply_group g (addressed_snapshot g s) now schema) as [[c' d1]|reason] eqn:Ha;
    [|injection Hp as <- <-; eauto].
  apply bind_Ok in Hp as (d2 & Hres & Hp).
  pose proof Hres as (f & b & Hd)%resolve_group_writes_Ok.
  apply bind_Ok in Hp as ([additions|reason] & Hu & Hp); [|injection Hp as <- <-; eauto].
  apply bind_Ok in Hp as (s1 & Hm & [= <- <-]).
  apply apply_group_steps in Ha as ([c2 d0] & Hsteps & [= -> ->]); [|by apply addressed_ok].
  destruct (steps_lift (group_ids g) _ _ _ _ _ Hsteps) with (s := s) as (s2 & Hs2 & Hag);
    [by apply Forall_forall|apply addressed_agree|].
  right. exists s2, (seal_delta (c2, d0)). split; [|by cbn].
  assert (Hd' : d2 = with_commands f b (seal_delta (s2, d0)).2).
  { rewrite Hd. cbn. by rewrite (ag_sequence _ _ _ Hag). }
  pose proof (steps_replay s [] _ _ _ Hs2) as Hr. rewrite app_nil_r in Hr.
  assert (Hrep : replays s (rev (group_ids g)) s2 d2).
  { destruct Hr as []; [|done|intros; apply not_elem_of_nil|].
    - split; cbn; try done; intros ? []%not_elem_of_nil.
    - rewrite Hd'. by split. }
  split; [by exists d0, f, b|done|..].
  - eapply merge_delta_Ok; [exact Hm|exact Hrep|by rewrite Hd'].
  - eexists. split; [|exact Hres]. by rewrite Hd.
  - unfold validate_uniques in Hu. apply bind_Ok in Hu as (e & He & Hu).
    apply bind_Ok in Hu as ([[]|] & Hv & [= <-]). exists e. split_and!; [done..|].
    unfold merge_delta in Hm. rewrite He in Hm. by injection Hm as <-.
Qed.

Lemma plan_commit_cases g s now schema s' d :
  snapshot_ok s → NoDup (group_ids g) → plan_commit_group g s now schema = Ok (s', d) →
  (∃ reason, s' = s ∧ d = rejected g s reason) ∨
  ∃ s2, committed g schema s s2 s' d.
Proof.
  intros Hs Hg Hp. destruct (plan_commit_inv _ _ _ _ _ _ Hs Hg Hp) as [?|(s2 & c & Hcm & _)]; eauto.
Qed.

Lemma plan_ok g s now schema s' d :
  snapshot_ok s → NoDup (group_ids g) → plan_commit_group g s now schema = Ok (s', d) → snapshot_ok s'.
Proof.
  intros Hs Hg Hp. destruct (plan_commit_cases _ _ _ _ _ _ Hs Hg Hp) as [(reason & -> & _)|(s2 & [(d0 & f & b & Hsteps & _) _ Hm _ _])]; [done|].
  eapply merged_ok; [done| |exact Hm]. by apply (steps_preserve_ok _ _ _ Hsteps).
Qed.
End plan.
