(* ===== verification/PlanSample.v ===== *)
(** A small snapshot and a commit group planned on it, for concrete instances of
    the planner's theorems. *)
From S2P Require Import Prelude Identity Field Records Selector Administration Commit IndexKey.
From S2P Require Import FieldView Snapshot Uniqueness Planner PlannerFacts.

(** ** A snapshot and a group *)

Definition toy_sha : Sha256 := λ b, take 32 (b ++ replicate 32 Byte.x00).
#[export] Instance toy_sha_laws : @Sha256Laws toy_sha.
Proof. intros b. unfold sha256, toy_sha. rewrite length_take, length_app, length_replicate. lia. Qed.

Definition plan_definition : CollectionDefinition :=
  mkCollectionDefinition {[ "age"%string := TInteger ]} {[ "by_age"%string := ["age"%string] ]}
    {[ "by_age"%string ]} ∅.
Definition plan_schema : QueueSchema := mkQueueSchema plan_definition {[ "notes"%string := plan_definition ]} 1 3.
Definition age (n : Z) : Fields := {[ "age"%string := FInteger n ]}.
Definition age_tuple (n : Z) : UniqueIdentity :=
  (None, "by_age"%string, match ordered_key [Some (FInteger n)] with Ok k => k | Err _ => [] end).

(** Pending work "a", and work "b" leased until 100 under the token 2a. *)
Definition plan_snapshot : RecordSnapshot :=
  mkRecordSnapshot
    {[ "a"%string := mkStoredWork (mkWorkRecord (mkNewWork "a" 5 0 (age 7) []) 3 1 Pending 0 0 None) None CompleteCoverage true;
       "b"%string := mkStoredWork (mkWorkRecord (mkNewWork "b" 5 0 (age 8) []) 2 2 Leased 0 1 (Some 100))
         (Some (@sha256 toy_sha [Byte.x2a])) CompleteCoverage true ]}
    {[ ("notes"%string, "n"%string) := mkStateRecord "notes" "n" 4 (age 1) [] ]}
    {[ (None, "a"%string) := 3; (None, "b"%string) := 2; (Some "notes"%string, "n"%string) := 4 ]}
    2 {[ age_tuple 8; age_tuple 9 ]}
    {[ age_tuple 7 := (None, "a"%string); age_tuple 8 := (None, "b"%string) ]}.

Definition plan_patch : WorkPatch := mkWorkPatch None None {[ "age"%string := Some (FInteger 9) ]} None.
(** "b" is completed and its tuple goes to the new work "c"; the note is only
    checked. *)
Definition plan_claim : ClaimedUpdate := mkClaimedUpdate "b" (mkLeaseCredential [Byte.x2a]) 2 plan_patch Complete.
Definition plan_group : CommitGroup :=
  mkCommitGroup "r1" [plan_claim] [mkStateUpdate "notes" "n" (Version 4) SCheck]
    [mkNewWork "c" 1 50 (age 8) []] [] None.

(** The planned result, and the hypotheses of the theorems at it. *)
Definition plan_result : QueueResult (RecordSnapshot * CommitDelta) :=
  Eval vm_compute in @plan_commit_group toy_sha plan_group plan_snapshot 10 plan_schema.
Definition plan_after : RecordSnapshot := match plan_result with Ok (s, _) => s | Err _ => RecordSnapshot_default end.
Definition plan_delta : CommitDelta :=
  match plan_result with Ok (_, d) => d | Err _ => empty_delta 0 (mkCommitReceipt "" (Committed [])) end.

Lemma plan_committed :
  @plan_commit_group toy_sha plan_group plan_snapshot 10 plan_schema = Ok (plan_after, plan_delta).
Proof. vm_compute. reflexivity. Qed.

Lemma plan_ids_distinct : NoDup (group_ids plan_group).
Proof. apply (bool_decide_unpack _). vm_compute. exact I. Qed.

Lemma plan_snapshot_ok : snapshot_ok plan_snapshot.
Proof.
  split.
  - apply map_Forall_insert_2; [|apply map_Forall_singleton].
    + split; try done. split; split; (done || by intros []).
    + split; try done; split; split; intros; (done || by eexists).
  - apply map_Forall_singleton. by split.
  - repeat apply map_Forall_insert_2; [done..|]. apply map_Forall_empty.
  - done.
  - intros k1 k2 w1 w2. cbn. rewrite !lookup_insert_Some, !lookup_singleton_Some. naive_solver.
Qed.
