(* ===== verification/PlanProperties.v ===== *)
(** What a planned commit guarantees: atomic rejection, well-formed snapshots,
    versions that count changes, untouched records, lease fences and receipts. *)
From S2P Require Import Prelude Identity Field Records Selector Administration Commit IndexKey.
From S2P Require Import FieldView Snapshot Uniqueness Planner PlannerFacts CommitPlan PlanSample.

Section properties.
Context `{Sha256}.

(** The records an update reports, with the receipt kept. *)
Definition emits (st : plan_state) (ids : list RecordIdentity) (st' : plan_state) : Prop :=
  d_receipt st'.2 = d_receipt st.2 ∧ version_id <$> d_versions st'.2 = (version_id <$> d_versions st.2) ++ ids.

Lemma emits_nil st : emits st [] st.
Proof. split; [done|]. by rewrite app_nil_r. Qed.

Lemma emits_trans st ids st' ids' st'' : emits st ids st' → emits st' ids' st'' → emits st (ids ++ ids') st''.
Proof. intros [E1 V1] [E2 V2]. split; [congruence|]. by rewrite V2, V1, app_assoc. Qed.

Lemma emits_push s d s' d' v :
  d_receipt d' = d_receipt d → d_versions d' = d_versions d ++ [v] → emits (s, d) [version_id v] (s', d').
Proof. intros Er Ev. split; [done|]. cbn. by rewrite Ev, fmap_app. Qed.

Lemma apply_claimed_emits now schema st u st' :
  apply_claimed now schema st u = Ok st' →
  emits st (if bool_decide (cu_disposition u = Check) then [] else [(None, cu_key u)]) st'.
Proof.
  destruct st as [s d]. unfold apply_claimed. intros (w & _ & Ha)%bind_Ok.
  do 2 (case_match; [done|]). case_bool_decide; [injection Ha as <-; apply emits_nil|].
  apply bind_Ok in Ha as ([v s1] & _ & Ha). case_bool_decide.
  - injection Ha as <-. by apply (emits_push _ _ _ _ (mkRecordVersion None (cu_key u) v)).
  - apply bind_Ok in Ha as (w1 & _ & [= <-]). by apply (emits_push _ _ _ _ (mkRecordVersion None (cu_key u) v)).
Qed.

Lemma apply_state_emits st u st' :
  apply_state st u = Ok st' →
  emits st (if is_check (su_change u) then [] else [(Some (su_collection u), su_key u)]) st'.
Proof.
  destruct st as [s d]. unfold apply_state. intros ([] & _ & Ha)%bind_Ok.
  destruct (su_change u); cbn [is_check] in *; [| |injection Ha as <-; apply emits_nil].
  all: apply bind_Ok in Ha as ([v s1] & _ & [= <-]);
    by apply (emits_push _ _ _ _ (mkRecordVersion (Some (su_collection u)) (su_key u) v)).
Qed.

Lemma apply_update_emits now st u st' : apply_update now st u = Ok st' → emits st [(None, uu_key u)] st'.
Proof.
  destruct st as [s d]. unfold apply_update. intros (w & _ & ([] & _ & Ha)%bind_Ok)%bind_Ok.
  case_match; [done|]. apply bind_Ok in Ha as ([v s1] & _ & Ha).
  apply bind_Ok in Ha as ([[[w1|] v1] s2] & _ & [= <-]);
    by apply (emits_push _ _ _ _ (mkRecordVersion None (uu_key u) v1)).
Qed.

Lemma apply_insert_emits now st w st' : apply_insert now st w = Ok st' → emits st [(None, nw_key w)] st'.
Proof.
  destruct st as [s d]. unfold apply_insert. case_match; [done|].
  intros ([v s1] & _ & ([q s2] & _ & [= <-])%bind_Ok)%bind_Ok.
  by apply (emits_push _ _ _ _ (mkRecordVersion None (nw_key w) v)).
Qed.

Lemma try_fold_emits {A} (f : plan_state → A → result Rejection plan_state) (ids : A → list RecordIdentity) l :
  (∀ st x st', f st x = Ok st' → emits st (ids x) st') →
  ∀ st st', try_fold f st l = Ok st' → emits st (concat (ids <$> l)) st'.
Proof.
  intros Hf. induction l as [|x l IH]; intros st st' Ha; cbn in Ha.
  - injection Ha as <-. apply emits_nil.
  - apply bind_Ok in Ha as (st1 & H1 & Ha). cbn. eauto using emits_trans.
Qed.

(** Singletons and filters as concatenations. *)
Lemma concat_singletons {A B} (f : A → B) l : concat ((λ x, [f x]) <$> l) = f <$> l.
Proof. induction l as [|x l IH]; cbn; [done|by rewrite IH]. Qed.
Lemma concat_filtered {A B} (p : A → bool) (f : A → B) l :
  concat ((λ x, if p x then [] else [f x]) <$> l) = f <$> List.filter (λ x, negb (p x)) l.
Proof. induction l as [|x l IH]; cbn; [done|]. destruct (p x); cbn; by rewrite IH. Qed.

Lemma apply_group_emits g s now schema s' d :
  apply_group g s now schema = Ok (s', d) →
  rc_request_id (d_receipt d) = request_id g ∧ rc_outcome (d_receipt d) = Committed (d_versions d) ∧
  version_id <$> d_versions d = modified_records g ∧ d_next_sequence d = s_next_sequence s'.
Proof.
  unfold apply_group.
  intros (st1 & H1 & (st2 & H2 & (st3 & H3 & ([s4 d4] & H4 & [= <- <-])%bind_Ok)%bind_Ok)%bind_Ok)%bind_Ok.
  apply (try_fold_emits _ _ _ (apply_claimed_emits now schema)) in H1. rewrite concat_filtered in H1.
  apply (try_fold_emits _ _ _ apply_state_emits) in H2. rewrite concat_filtered in H2.
  apply (try_fold_emits _ _ _ (apply_update_emits now)) in H3. rewrite concat_singletons in H3.
  apply (try_fold_emits _ _ _ (apply_insert_emits now)) in H4. rewrite concat_singletons in H4.
  destruct (emits_trans _ _ _ _ _ H1 (emits_trans _ _ _ _ _ H2 (emits_trans _ _ _ _ _ H3 H4))) as [Hr Hv].
  cbn in *. by rewrite Hr.
Qed.


(** C17. Planning keeps snapshots well formed: keys, versions, insertion
    sequences, leases and coverage of every row still agree, sequences stay
    distinct and counters in range. *)
Theorem plan_preserves_ok g s now schema s' d :
  snapshot_ok s → NoDup (group_ids g) → plan_commit_group g s now schema = Ok (s', d) → snapshot_ok s'.
Proof. apply plan_ok. Qed.


(** Planning touches only what the group addresses: every other work row,
    state row and version is unchanged, and the insertion sequence only grows. *)
Theorem plan_frame g s now schema s' d :
  snapshot_ok s → NoDup (group_ids g) → plan_commit_group g s now schema = Ok (s', d) →
  (∀ k, k ∉ addressed_work g → s_work s' !! k = s_work s !! k) ∧
  (∀ i, i ∉ addressed_state g → s_state s' !! i = s_state s !! i) ∧
  (∀ id, id ∉ group_ids g → s_versions s' !! id = s_versions s !! id) ∧
  s_next_sequence s ≤ s_next_sequence s'.
Proof.
  intros Hs Hg Hp. destruct (plan_commit_cases _ _ _ _ _ _ Hs Hg Hp) as [(reason & -> & _)|(s2 & Hcm)]; [done|].
  pose proof Hcm as [(d0 & f & b & Hsteps & _) _ [Mw Mst Mv Mn _] _ _].
  destruct (steps_frame _ _ _ Hsteps) as (Hv & Hw & Hst & Hn & _).
  split_and!.
  - intros k Hk. rewrite <-group_ids_work in Hk. destruct (Mw k) as [[_ ->]|(row & Hrow & <- & _)]; [by apply Hw|].
    destruct Hk. by eapply cm_rows.
  - intros i Hi. rewrite Mst. apply Hst. by rewrite group_ids_state.
  - intros id Hid. rewrite Mv. by apply Hv.
  - by rewrite Mn.
Qed.

(** A claimed update is applied only under its own live lease. *)
Lemma apply_claimed_fence now schema s d u st' :
  apply_claimed now schema (s, d) u = Ok st' →
  ∃ w, s_work s !! cu_key u = Some w ∧ lease_held w (cu_lease u) now = true ∧
    version (record w) = cu_expected_version u.
Proof.
  unfold apply_claimed. intros (w & Hw%ok_or_Ok & Ha)%bind_Ok. exists w. split; [done|].
  destruct (lease_held w (cu_lease u) now); [|done]. cbn [negb] in Ha.
  by destruct (Z.eqb_spec (version (record w)) (cu_expected_version u)).
Qed.

(** Every claimed update of an applied group met its record as the snapshot
    holds it. *)
Lemma claimed_fences g s now schema st' u :
  snapshot_ok s → NoDup (group_ids g) → apply_group g s now schema = Ok st' → u ∈ claimed_updates g →
  ∃ w, s_work s !! cu_key u = Some w ∧ lease_held w (cu_lease u) now = true ∧
    version (record w) = cu_expected_version u.
Proof.
  intros Hs Hg (st1 & H1 & _)%bind_Ok (l1 & l2 & Hl)%list_elem_of_split.
  unfold group_ids in Hg. rewrite Hl in Hg, H1. apply NoDup_app in Hg as [Hg _].
  rewrite fmap_app in Hg. apply NoDup_app in Hg as (_ & Hu & _).
  rewrite try_fold_app in H1. apply bind_Ok in H1 as ([s1 d1] & H1 & H2).
  cbn in H2. apply bind_Ok in H2 as (st2 & (w & Hw & Hh & Hv)%apply_claimed_fence & _).
  exists w. split; [|done].
  eapply (try_fold_steps _ (λ u, (None, cu_key u))) in H1; [|by intros [] ??; apply apply_claimed_step|done].
  destruct (steps_frame _ _ _ H1) as (_ & Hframe & _). rewrite <-Hw. symmetry. apply Hframe.
  intros Hin. apply (Hu _ Hin). by left.
Qed.


Lemma NoDup_modified g : NoDup (group_ids g) → NoDup (modified_records g).
Proof.
  assert (Hsub : ∀ {A B} (f : A → B) p l, f <$> List.filter p l `sublist_of` f <$> l).
  { intros A B f p l. induction l as [|x l IH]; cbn; [done|]. by destruct (p x); constructor. }
  intros Hg. eapply sublist_NoDup; [exact Hg|]. unfold modified_records, group_ids.
  by repeat apply sublist_app; [apply Hsub..| |].
Qed.

Lemma foldl_put_version (l : list RecordVersion) (m : gmap RecordIdentity Z) v :
  NoDup (version_id <$> l) → v ∈ l → foldl put_version m l !! version_id v = Some (rv_version v).
Proof.
  induction l as [|x l IH] using rev_ind; intros Hl Hv; [by apply elem_of_nil in Hv|].
  rewrite foldl_app. cbn. rewrite fmap_app in Hl. apply NoDup_app in Hl as (Hl & Hx & _).
  unfold put_version at 1. apply elem_of_app in Hv as [Hv| ->%list_elem_of_singleton]; [|by rewrite lookup_insert_eq].
  rewrite lookup_insert_ne; [by apply IH|]. intros E.
  apply (Hx (version_id v)); [by apply list_elem_of_fmap_2|]. rewrite <-E. by left.
Qed.

(** A committed receipt lists exactly the modified records of the group, in
    the order claims, state, updates, inserts, each with the version the
    snapshot now holds for it. *)
Theorem receipt_lists_modified g s now schema s' d versions :
  snapshot_ok s → NoDup (group_ids g) → plan_commit_group g s now schema = Ok (s', d) →
  rc_outcome (d_receipt d) = Committed versions →
  version_id <$> versions = modified_records g ∧
  ∀ v, v ∈ versions → s_versions s' !! version_id v = Some (rv_version v).
Proof.
  intros Hs Hg Hp Hc. unfold plan_commit_group in Hp. apply bind_Ok in Hp as ([] & _ & Hp).
  destruct (apply_group g (addressed_snapshot g s) now schema) as [[c d1]|reason] eqn:Ha;
    [|by injection Hp as <- <-].
  apply bind_Ok in Hp as (d2 & (f & b & ->)%resolve_group_writes_Ok & Hp).
  apply bind_Ok in Hp as ([additions|reason] & _ & Hp); [|by injection Hp as <- <-].
  apply bind_Ok in Hp as (s1 & Hm & [= <- <-]).
  apply apply_group_emits in Ha as (_ & Ho & Hv & _). cbn in Hc. rewrite Ho in Hc. injection Hc as <-.
  split; [done|]. unfold merge_delta in Hm. apply bind_Ok in Hm as (e & _ & [= <-]).
  intros v Hin. cbn. apply foldl_put_version; [|done]. rewrite Hv. by apply NoDup_modified.
Qed.

End properties.


Lemma plan_preserves_ok_witness : snapshot_ok plan_after.
Proof.
  apply (@plan_preserves_ok toy_sha plan_group plan_snapshot 10 plan_schema _ plan_delta);
    [exact plan_snapshot_ok|exact plan_ids_distinct|exact plan_committed].
Defined.


Lemma plan_frame_witness : s_next_sequence plan_snapshot ≤ s_next_sequence plan_after.
Proof.
  apply (@plan_frame toy_sha plan_group plan_snapshot 10 plan_schema _ plan_delta);
    [exact plan_snapshot_ok|exact plan_ids_distinct|exact plan_committed].
Defined.


Lemma receipt_lists_modified_witness :
  version_id <$> d_versions plan_delta = [(None, "b"%string); (None, "c"%string)].
Proof.
  apply (@receipt_lists_modified toy_sha plan_group plan_snapshot 10 plan_schema plan_after plan_delta);
    [exact plan_snapshot_ok|exact plan_ids_distinct|exact plan_committed|reflexivity].
Defined.
