(* ===== verification/UniqueFacts.v ===== *)
(** Unique ownership: the tuples a stored record holds, and the releases and
    claims an update of it makes. *)
From S2P Require Import Prelude Identity Field Records Selector Administration Commit IndexKey.
From S2P Require Import FieldView Snapshot Uniqueness.

(** ** Tuples of a record *)

Definition column_values (f : Fields) (columns : list string) : list (option FieldValue) :=
  (λ name, f !! name) <$> columns.

(** The stored fields [f] hold the unique tuple [t]. *)
Definition holds (d : CollectionDefinition) (collection : option string) (f : Fields) (t : UniqueIdentity) : Prop :=
  t.1.1 = collection ∧ t.1.2 ∈ cd_unique_indexes d ∧
  ∃ columns, cd_indexes d !! t.1.2 = Some columns ∧ Forall is_Some (column_values f columns) ∧
    ordered_key (column_values f columns) = Ok t.2.

(** A fold each step of which adds the elements [P x]. *)
Lemma try_fold_elems {E A T} (f : list T → A → result E (list T)) (P : A → T → Prop) l s s' :
  (∀ s x s', f s x = Ok s' → ∀ t, t ∈ s' ↔ t ∈ s ∨ P x t) →
  try_fold f s l = Ok s' → ∀ t, t ∈ s' ↔ t ∈ s ∨ ∃ x, x ∈ l ∧ P x t.
Proof.
  intros Hf. revert s. induction l as [|x l IH]; intros s Hl t; cbn in Hl.
  - injection Hl as <-. split; [by left|]. intros [?|(x & []%not_elem_of_nil & _)]. done.
  - apply bind_Ok in Hl as (s1 & H1 & Hl). rewrite (IH _ Hl t), (Hf _ _ _ H1 t).
    setoid_rewrite elem_of_cons. naive_solver.
Qed.

Lemma existsb_none_Forall (values : list (option FieldValue)) :
  existsb (λ v, bool_decide (v = None)) values = false ↔ Forall is_Some values.
Proof.
  induction values as [|v values IH]; cbn; [by split|].
  rewrite orb_false_iff, bool_decide_eq_false, IH, Forall_cons. by rewrite <-not_eq_None_Some.
Qed.

(** The tuple of one index of a record. *)
Definition index_holds (d : CollectionDefinition) (collection : option string) (f : Fields) (index : string)
    (t : UniqueIdentity) : Prop :=
  t.1.1 = collection ∧ t.1.2 = index ∧
  ∃ columns, cd_indexes d !! index = Some columns ∧ Forall is_Some (column_values f columns) ∧
    ordered_key (column_values f columns) = Ok t.2.

Lemma holds_index d c f t : holds d c f t ↔ ∃ i, i ∈ btree_elems (cd_unique_indexes d) ∧ index_holds d c f i t.
Proof.
  unfold holds, index_holds. setoid_rewrite elem_of_btree_elems. split.
  - intros (H1 & H2 & H3). exists t.1.2. split_and!; auto.
  - intros (i & Hi & H1 & <- & H3). auto.
Qed.

(** One index of the tuple loops: the values are those of the stored fields. *)
Lemma index_step d c f index (keys keys' : list UniqueIdentity) columns values :
  cd_indexes d !! index = Some columns → values = column_values f columns →
  (if existsb (λ v, bool_decide (v = None)) values then Ok keys
   else k ← ordered_key values; Ok (keys ++ [(c, index, k)])) = Ok keys' →
  ∀ t, t ∈ keys' ↔ t ∈ keys ∨ index_holds d c f index t.
Proof.
  intros Hc -> H t. unfold index_holds. destruct (existsb _ _) eqn:He.
  - injection H as <-. split; [by left|]. intros [?|(_ & _ & cols & Hc' & Hall & _)]; [done|].
    rewrite Hc in Hc'. injection Hc' as <-. apply existsb_none_Forall in Hall. congruence.
  - apply bind_Ok in H as (k & Hk & [= <-]). apply existsb_none_Forall in He.
    rewrite elem_of_app, list_elem_of_singleton. split.
    + intros [?| ->]; [by left|right]. cbn. split_and!; try done. by exists columns.
    + intros [?|(E1 & E2 & cols & Hc' & _ & Hk')]; [by left|right].
      rewrite Hc in Hc'. injection Hc' as <-. rewrite Hk in Hk'. injection Hk' as E3.
      destruct t as [[t1 t2] t3]. cbn in *. congruence.
Qed.

Lemma record_unique_keys_Ok c f d l :
  record_unique_keys c f d = Ok l → ∀ t, t ∈ l ↔ holds d c f t.
Proof.
  unfold record_unique_keys. intros Hl t. eapply try_fold_elems in Hl.
  - rewrite holds_index, Hl, elem_of_nil. naive_solver.
  - intros s x s' (columns & Hc%ok_or_Ok & Hx)%bind_Ok. by eapply index_step.
Qed.

(** Collecting covered values reads the stored fields. *)
Lemma checked_values full view columns values :
  view_of full view → try_collect (checked_get view) columns = Ok values → values = column_values full columns.
Proof.
  intros Hv Hc%try_collect_Ok. unfold column_values.
  induction Hc as [|name v columns values Hn Hc IH]; cbn; [done|].
  f_equal; [by eapply checked_get_Ok|done].
Qed.

Lemma checked_unique_keys_Ok c full view d l :
  view_of full view → checked_unique_keys c view d = Ok l → ∀ t, t ∈ l ↔ holds d c full t.
Proof.
  unfold checked_unique_keys. intros Hv Hl t. eapply try_fold_elems in Hl.
  - rewrite holds_index, Hl, elem_of_nil. naive_solver.
  - intros s x s' (columns & Hc%ok_or_Ok & (values & Hx%(checked_values full) & Hk)%bind_Ok)%bind_Ok; [|done].
    by eapply index_step.
Qed.

(** ** Releases and claims *)

(** [owner] releases the tuples [R] and claims the tuples [C]. *)
Definition adds (owner : RecordIdentity) (e e' : UniqueFieldEffects) (R C : UniqueIdentity → Prop) : Prop :=
  (∀ t o, releases e' !! t = Some o ↔ releases e !! t = Some o ∨ (o = owner ∧ R t)) ∧
  (∀ p, p ∈ claims e' ↔ p ∈ claims e ∨ (p.2 = owner ∧ C p.1)).

Lemma adds_iff owner e e' R C R' C' :
  adds owner e e' R C → (∀ t, R t ↔ R' t) → (∀ t, C t ↔ C' t) → adds owner e e' R' C'.
Proof. intros [HR HC] ER EC. split; intros; [by rewrite HR, ER|by rewrite HC, EC]. Qed.

Lemma adds_nil owner e : adds owner e e (λ _, False) (λ _, False).
Proof. split; intros; naive_solver. Qed.

Lemma adds_trans owner e e1 e2 R1 R2 C1 C2 :
  adds owner e e1 R1 C1 → adds owner e1 e2 R2 C2 →
  adds owner e e2 (λ t, R1 t ∨ R2 t) (λ t, C1 t ∨ C2 t).
Proof. intros [HR1 HC1] [HR2 HC2]. split; intros; [rewrite HR2, HR1|rewrite HC2, HC1]; naive_solver. Qed.

Lemma release_tuple_adds owner e t e' :
  release_tuple owner e t = Ok e' → adds owner e e' (λ t', t' = t) (λ _, False).
Proof.
  unfold release_tuple. destruct (is_none_or _ _) eqn:Hp; [|done]. cbn [negb]. intros [= <-].
  split; cbn; [|naive_solver]. intros t' o. rewrite lookup_insert_Some. split.
  - intros [[<- <-]|[Hne Ho]]; auto.
  - intros [Ho|[-> ->]]; [|by left]. destruct (decide (t = t')) as [<-|Hne]; [|by right]. left.
    rewrite Ho in Hp. cbn in Hp. by apply bool_decide_eq_true in Hp as ->.
Qed.

Lemma claim_tuple_adds owner e t : adds owner e (claim_tuple owner e t) (λ _, False) (λ t', t' = t).
Proof.
  split; cbn; [naive_solver|]. intros [t' o]. rewrite elem_of_app, list_elem_of_singleton. cbn. naive_solver.
Qed.

Lemma release_all_adds owner l e e' :
  try_fold (release_tuple owner) e l = Ok e' → adds owner e e' (λ t, t ∈ l) (λ _, False).
Proof.
  revert e. induction l as [|t l IH]; intros e Hl; cbn in Hl.
  - injection Hl as <-. eapply adds_iff; [apply adds_nil|intros; by rewrite elem_of_nil|done].
  - apply bind_Ok in Hl as (e1 & H1 & Hl).
    eapply adds_iff; [eapply adds_trans; [by eapply release_tuple_adds|by apply IH]|cbn..].
    + intros. by rewrite elem_of_cons.
    + naive_solver.
Qed.

Lemma claim_all_adds owner l e : adds owner e (foldl (claim_tuple owner) e l) (λ _, False) (λ t, t ∈ l).
Proof.
  revert e. induction l as [|t l IH]; intros e; cbn.
  - eapply adds_iff; [apply adds_nil|done|intros; by rewrite elem_of_nil].
  - eapply adds_iff; [eapply adds_trans; [apply claim_tuple_adds|apply IH]|cbn..].
    + naive_solver.
    + intros. by rewrite elem_of_cons.
Qed.

Lemma elem_of_uid_sorted t s : t ∈ uid_sorted s ↔ t ∈ s.
Proof. unfold uid_sorted. by rewrite merge_sort_Permutation, elem_of_elements. Qed.

(** A record whose tuples go from [Old] to [New] gives up the one and takes the
    other difference. *)
Definition moves (owner : RecordIdentity) (e e' : UniqueFieldEffects) (Old New : UniqueIdentity → Prop) : Prop :=
  adds owner e e' (λ t, Old t ∧ ¬ New t) (λ t, New t ∧ ¬ Old t).

Lemma difference_moves owner e e' old new :
  difference_effects owner e old new = Ok e' → moves owner e e' (λ t, t ∈ old) (λ t, t ∈ new).
Proof.
  unfold difference_effects. intros (e1 & Hr%release_all_adds & [= <-])%bind_Ok.
  eapply adds_iff; [eapply adds_trans; [exact Hr|apply claim_all_adds]|cbn..]; intros t;
    rewrite elem_of_uid_sorted, elem_of_difference, !elem_of_list_to_set; naive_solver.
Qed.

(** ** Keys tell complete tuples apart *)

Lemma escaped_tail a b x y : escaped a ++ x = escaped b ++ y → x = y.
Proof.
  intros E. pose proof (escaped_cmp a b x y) as Hc. rewrite E, bytes_cmp_refl in Hc.
  destruct (bytes_cmp a b); try done. by apply bytes_cmp_Eq.
Qed.

Lemma value_bytes_tail v w x y : value_bytes v ++ x = value_bytes w ++ y → x = y.
Proof.
  destruct v, w; cbn [value_bytes app]; intros [= E]; try done; try by eapply escaped_tail.
  all: by apply app_inj_1 in E as [_ E]; [|by rewrite !length_to_be_bytes].
Qed.

Lemma columns_complete a b :
  length a = length b → concat (map column_bytes a) = concat (map column_bytes b) →
  Forall is_Some a ↔ Forall is_Some b.
Proof.
  revert b. induction a as [|v a IH]; intros [|w b] Hl E; try done. cbn in E, Hl.
  destruct v as [v|], w as [w|]; cbn [column_bytes app] in E; try done.
  - injection E as E. apply value_bytes_tail in E. rewrite !Forall_cons, (IH b) by (lia || done).
    naive_solver.
  - rewrite !Forall_cons. split; intros [[] _]; done.
Qed.

Lemma ordered_key_complete f f' columns k :
  ordered_key (column_values f columns) = Ok k → ordered_key (column_values f' columns) = Ok k →
  Forall is_Some (column_values f columns) ↔ Forall is_Some (column_values f' columns).
Proof.
  rewrite !ordered_key_Ok. intros (_ & _ & ->) (_ & _ & [= E]).
  apply columns_complete; [unfold column_values; by rewrite !length_fmap|done].
Qed.

(** ** Index effects *)

Section index_effects.
Context (d : CollectionDefinition) (owner : RecordIdentity) (full : Fields) (view : CheckedFields)
  (change : ResolvedFields).
Hypothesis Hview : view_of full view.

Abbreviation full' := (resolved_apply change full).

Lemma resolved_after_Ok name v : resolved_after change view name = Ok v → v = full' !! name.
Proof.
  destruct change as [|f|edits]; cbn [resolved_after resolved_apply].
  - by apply checked_get_Ok.
  - by intros [= <-].
  - rewrite apply_edits_lookup. destruct (edits !! name); [by intros [= <-]|by apply checked_get_Ok].
Qed.

Lemma unaffected_values columns :
  index_is_affected columns (is_replace change) (edits_name change) = false →
  column_values full' columns = column_values full columns.
Proof.
  unfold index_is_affected, column_values. rewrite orb_false_iff. intros [Hr He].
  induction columns as [|name columns IH]; cbn in *; [done|]. apply orb_false_iff in He as [Hn He].
  f_equal; [|by apply IH]. destruct change as [|f|edits]; cbn in *; [done..|].
  rewrite apply_edits_lookup. by destruct (edits !! name).
Qed.

(** The unique tuple of one index, before and after the change. *)
Definition unique_at (f : Fields) (index : string) (t : UniqueIdentity) : Prop :=
  index ∈ cd_unique_indexes d ∧ index_holds d owner.1 f index t.

Lemma unique_at_iff f index columns k t :
  cd_indexes d !! index = Some columns → ordered_key (column_values f columns) = Ok k →
  unique_at f index t ↔
    index ∈ cd_unique_indexes d ∧ Forall is_Some (column_values f columns) ∧ t = (owner.1, index, k).
Proof.
  intros Hc Hk. unfold unique_at, index_holds. split.
  - intros (Hu & E1 & E2 & cols & Hc' & Hall & Hk'). rewrite Hc in Hc'. injection Hc' as <-.
    rewrite Hk in Hk'. injection Hk' as E3. split_and!; try done.
    destruct t as [[t1 t2] t3]. cbn in *. congruence.
  - intros (Hu & Hall & ->). cbn. split_and!; try done. by exists columns.
Qed.

Lemma forallb_some (values : list (option FieldValue)) :
  forallb (λ v, bool_decide (is_Some v)) values = bool_decide (Forall is_Some values).
Proof.
  apply eq_bool_prop_intro. rewrite !Is_true_true, bool_decide_eq_true, forallb_forall, Forall_forall.
  setoid_rewrite bool_decide_eq_true. by setoid_rewrite list_elem_of_In.
Qed.

Lemma index_effect_Ok index columns effects :
  index_effect view change d index columns = Ok effects →
  ∃ kb ka, ordered_key (column_values full columns) = Ok kb ∧ ordered_key (column_values full' columns) = Ok ka ∧
    let u := bool_decide (index ∈ cd_unique_indexes d) in
    effects = if bool_decide (kb = ka) then []
      else [mkIndexEffect index u (u && bool_decide (Forall is_Some (column_values full columns)))
              (u && bool_decide (Forall is_Some (column_values full' columns))) (Some kb) (Some ka)].
Proof.
  unfold index_effect. intros (old & Hold%(checked_values full) & H)%bind_Ok; [|done]. subst old.
  apply bind_Ok in H as (new & Hnew & H). apply try_collect_Ok in Hnew.
  assert (new = column_values full' columns) as ->.
  { clear H. unfold column_values. induction Hnew as [|name v cols vs Hn Hc IH]; cbn; [done|].
    f_equal; [by apply resolved_after_Ok|done]. }
  apply bind_Ok in H as ([] & _ & H). unfold encode_index_tuple in H.
  apply bind_Ok in H as (o & (kb & Hkb & [= <-])%bind_Ok & H).
  apply bind_Ok in H as (n & (ka & Hka & [= <-])%bind_Ok & [= <-]).
  exists kb, ka. split_and!; try done. cbn. by rewrite !forallb_some.
Qed.

Lemma index_moves index columns effects e e' :
  cd_indexes d !! index = Some columns → index_effect view change d index columns = Ok effects →
  effects_extend owner e effects = Ok e' → moves owner e e' (unique_at full index) (unique_at full' index).
Proof.
  intros Hc (kb & ka & Hkb & Hka & ->)%index_effect_Ok. unfold moves.
  case_bool_decide as Hk.
  { subst ka. intros [= <-]. eapply adds_iff; [apply adds_nil|..]; intros t;
      rewrite !(unique_at_iff _ _ _ _ _ Hc), (ordered_key_complete full full') by done; naive_solver. }
  unfold effects_extend. cbn [try_fold]. intros (e1 & He & [= <-])%bind_Ok.
  unfold extend_effect in He. cbn [ie_unique ie_before ie_after before_unique after_unique ie_index] in He.
  case_match eqn:Hinv; [done|]. clear Hinv. case_bool_decide as Hu; cbn [andb negb orb] in He.
  2:{ injection He as <-. eapply adds_iff; [apply adds_nil|..]; intros t; unfold unique_at; naive_solver. }
  rewrite bool_decide_eq_false_2 in He by congruence. cbn [andb] in He.
  apply bind_Ok in He as (e2 & Hr & [= <-]).
  eapply adds_iff with (R := λ t, Forall is_Some (column_values full columns) ∧ t = (owner.1, index, kb))
    (C := λ t, Forall is_Some (column_values full' columns) ∧ t = (owner.1, index, ka)).
  - eapply adds_iff; [eapply (adds_trans _ e e2 _ (λ t, Forall is_Some (column_values full columns) ∧ t = (owner.1, index, kb))
      (λ _, False) (λ _, False) (λ t, Forall is_Some (column_values full' columns) ∧ t = (owner.1, index, ka)))|..].
    + case_bool_decide; [apply release_tuple_adds in Hr|injection Hr as <-];
        (eapply adds_iff; [exact Hr || apply adds_nil|naive_solver..]).
    + clear Hr. case_bool_decide; (eapply adds_iff; [apply claim_tuple_adds || apply adds_nil|naive_solver..]).
    + naive_solver.
    + naive_solver.
  - intros t. rewrite (unique_at_iff _ _ _ _ _ Hc Hkb), (unique_at_iff _ _ _ _ _ Hc Hka). naive_solver.
  - intros t. rewrite (unique_at_iff _ _ _ _ _ Hc Hkb), (unique_at_iff _ _ _ _ _ Hc Hka). naive_solver.
Qed.

Lemma unaffected_unique_at index columns t :
  cd_indexes d !! index = Some columns →
  index_is_affected columns (is_replace change) (edits_name change) = false →
  unique_at full' index t ↔ unique_at full index t.
Proof.
  intros Hc Ha%unaffected_values. unfold unique_at, index_holds. rewrite Hc.
  split; intros (Hu & E1 & E2 & cols & [= <-] & Hk); split_and!; try done; exists columns;
    [by rewrite Ha in Hk|by rewrite Ha].
Qed.

(** The effects collected over a list of indexes. *)
Lemma index_effects_fold l acc effects :
  (∀ x, x ∈ l → cd_indexes d !! x.1 = Some x.2) →
  try_fold (λ effects x,
    if negb (index_is_affected x.2 (is_replace change) (edits_name change)) then Ok effects
    else more ← index_effect view change d x.1 x.2; Ok (effects ++ more)) acc l = Ok effects →
  ∃ more, effects = acc ++ more ∧ ∀ e e', effects_extend owner e more = Ok e' →
    adds owner e e'
      (λ t, ∃ x, x ∈ l ∧ unique_at full x.1 t ∧ ¬ unique_at full' x.1 t)
      (λ t, ∃ x, x ∈ l ∧ unique_at full' x.1 t ∧ ¬ unique_at full x.1 t).
Proof.
  revert acc effects. induction l as [|x l IH]; intros acc effects Hl Hf; cbn in Hf.
  { injection Hf as <-. exists []. rewrite app_nil_r. split; [done|]. intros e e' [= <-].
    eapply adds_iff; [apply adds_nil|..]; intros t; setoid_rewrite elem_of_nil; naive_solver. }
  apply bind_Ok in Hf as (acc1 & H1 & Hf).
  assert (Hx : ∃ m1, acc1 = acc ++ m1 ∧ ∀ e e', effects_extend owner e m1 = Ok e' →
    moves owner e e' (unique_at full x.1) (unique_at full' x.1)).
  { pose proof (Hl x (list_elem_of_here _ _)) as Hx. destruct (index_is_affected _ _ _) eqn:Ha; cbn [negb] in H1.
    - apply bind_Ok in H1 as (m1 & H1 & [= <-]). exists m1. split; [done|]. intros e e'. by eapply index_moves.
    - injection H1 as <-. exists []. rewrite app_nil_r. split; [done|]. intros e e' [= <-].
      eapply adds_iff; [apply adds_nil|..]; intros t; rewrite (unaffected_unique_at _ _ t Hx Ha); naive_solver. }
  destruct Hx as (m1 & -> & Hm1). destruct (IH (acc ++ m1) effects) as (m2 & -> & Hm2); [|done|].
  { intros y Hy. apply Hl. by right. }
  exists (m1 ++ m2). rewrite app_assoc. split; [done|]. intros e e' He. unfold effects_extend in He.
  rewrite try_fold_app in He. apply bind_Ok in He as (e1 & He1 & He2).
  eapply adds_iff; [eapply adds_trans; [by apply Hm1|by apply Hm2]|cbn..]; intros t;
    setoid_rewrite elem_of_cons; naive_solver.
Qed.
End index_effects.

Lemma holds_unique_at d owner f t :
  holds d owner.1 f t ↔ ∃ x, x ∈ btree_list (cd_indexes d) ∧ unique_at d owner f x.1 t.
Proof.
  unfold holds, unique_at, index_holds. split.
  - intros (E1 & Hu & cols & Hc & Hall & Hk). exists (t.1.2, cols). cbn.
    split; [by apply elem_of_btree_list|]. split_and!; try done. by exists cols.
  - intros ([i cols] & _ & Hu & E1 & E2 & Hc). cbn in *. subst i. done.
Qed.

Lemma unique_at_index d owner f i t : unique_at d owner f i t → t.1.2 = i.
Proof. by intros (_ & _ & E & _). Qed.

(** The effects of a resolved command on a loaded record are the difference of
    the tuples it holds. *)
Lemma index_effects_move d owner full view change effects e e' :
  view_of full view → resolve_index_effects view change d = Ok effects →
  effects_extend owner e effects = Ok e' →
  moves owner e e' (holds d owner.1 full) (holds d owner.1 (resolved_apply change full)).
Proof.
  intros Hv Hr He.
  destruct (index_effects_fold d owner full view change Hv (btree_list (cd_indexes d)) [] effects)
    as (more & -> & Hm); [|done|].
  { intros [i cols] Hx. by apply elem_of_btree_list. }
  eapply adds_iff; [by apply Hm|..]; intros t; rewrite !holds_unique_at; split.
  1,3: intros (x & Hx & H1 & H2); split; [by exists x|]; intros (y & Hy & H3);
    apply H2; by rewrite <-(unique_at_index _ _ _ _ _ H1), (unique_at_index _ _ _ _ _ H3).
  all: intros [(x & Hx & H1) H2]; exists x; split_and!; [done..|]; intros H3; apply H2; by exists x.
Qed.
