(* ===== verification/UniquePlan.v ===== *)
(** Unique ownership over a planned commit: the ownership table of a snapshot
    keeps telling which stored record holds which unique tuple. *)
From S2P Require Import Prelude Identity Field Records Selector Administration Commit IndexKey.
From S2P Require Import FieldView Snapshot Uniqueness Planner PlannerFacts CommitPlan UniqueFacts.
From S2P Require Import PlanSample.

(** ** The store behind a snapshot *)

(** The full stored fields of every record; a snapshot holds views of them. *)
Abbreviation store := (gmap RecordIdentity Fields).

Definition definition_of (schema : QueueSchema) (id : RecordIdentity) : option CollectionDefinition :=
  match id.1 with None => Some (schema_work schema) | Some c => schema_state schema !! c end.

(** The stored record [id] holds the unique tuple [t]. *)
Definition owns (schema : QueueSchema) (full : store) (id : RecordIdentity) (t : UniqueIdentity) : Prop :=
  ∃ f d, full !! id = Some f ∧ definition_of schema id = Some d ∧ holds d id.1 f t.

(** The snapshot was loaded from the store: its rows are views of stored records,
    and an addressed record it lacks is not stored. *)
Record loaded (g : CommitGroup) (full : store) (s : RecordSnapshot) : Prop := mkLoaded {
  ld_work : ∀ k w, s_work s !! k = Some w →
    ∃ f, full !! (None, k) = Some f ∧ view_of f (mkCheckedFields (nw_fields (work (record w))) (field_coverage w));
  ld_no_work : ∀ k, k ∈ addressed_work g → s_work s !! k = None → full !! (None, k) = None;
  ld_state : ∀ c k r, s_state s !! (c, k) = Some r → full !! (Some c, k) = Some (sr_fields r);
  ld_no_state : ∀ c k, (c, k) ∈ addressed_state g → s_state s !! (c, k) = None → full !! (Some c, k) = None;
}.

(** The ownership table agrees with the store on the probed tuples. *)
Definition owners_track (schema : QueueSchema) (full : store) (s : RecordSnapshot) : Prop :=
  ∀ t id, t ∈ unique_probes_loaded s → unique_owners s !! t = Some id ↔ owns schema full id t.

(** Applying a delta to the store: deletions, then the resolved commands of the
    written work and the written state. *)
Definition store_writes (full : store) (d : CommitDelta) : list (RecordIdentity * Fields) :=
  ((λ row, ((None, nw_key (work (record row))),
            resolved_apply (default FPreserve (d_work_fields d !! nw_key (work (record row))))
              (default ∅ (full !! (None, nw_key (work (record row))))))) <$> d_work d) ++
  ((λ row, ((Some (sr_collection row), sr_key row), sr_fields row)) <$> d_state d).
Definition store_deletes (d : CommitDelta) : list RecordIdentity :=
  ((λ k, (None, k)) <$> d_deleted_work d) ++ ((λ i, (Some i.1, i.2)) <$> d_deleted_state d).
Definition store_after (full : store) (d : CommitDelta) : store :=
  foldl (λ m e, <[e.1 := e.2]> m) (drop_all full (store_deletes d)) (store_writes full d).

(** ** Lists of writes *)

Lemma drop_all_lookup `{Countable K} {A} (m : gmap K A) l k :
  drop_all m l !! k = if decide (k ∈ l) then None else m !! k.
Proof.
  unfold drop_all. revert m. induction l as [|x l IH]; intros m; cbn; [by rewrite decide_False by apply not_elem_of_nil|].
  rewrite IH, lookup_delete. destruct (decide (k ∈ x :: l)) as [Hk|Hk]; rewrite elem_of_cons in Hk;
    destruct (decide (k ∈ l)), (decide (x = k)); subst; try done; naive_solver.
Qed.

(** Insertions that agree on their keys. *)
Lemma foldl_insert_lookup `{Countable K} {A} (l : list (K * A)) (m : gmap K A) k a :
  (∀ a a', (k, a) ∈ l → (k, a') ∈ l → a = a') →
  foldl (λ m e, <[e.1 := e.2]> m) m l !! k = Some a ↔ (k, a) ∈ l ∨ (k ∉ l.*1 ∧ m !! k = Some a).
Proof.
  induction l as [|[i b] l IH] using rev_ind; intros Hl; cbn.
  { split; [intros; right; split; [apply not_elem_of_nil|done]|intros [[]%not_elem_of_nil|[_ ?]]; done]. }
  rewrite foldl_app, fmap_app. cbn. rewrite lookup_insert_Some, IH.
  2:{ intros a1 a2 H1 H2. apply Hl; apply elem_of_app; by left. }
  setoid_rewrite elem_of_app. setoid_rewrite list_elem_of_singleton. split.
  - intros [[-> ->]|[Hne [Hin|[Hn Hm]]]]; naive_solver.
  - intros [[Hin|[= -> ->]]|[Hn Hm]]; [|by left|right; naive_solver].
    destruct (decide (i = k)) as [->|Hne]; [|by auto]. left. split; [done|].
    apply Hl; apply elem_of_app; [right; by left|by left].
Qed.

Lemma elem_of_keys {K A} (l : list (K * A)) k : k ∈ l.*1 ↔ ∃ a, (k, a) ∈ l.
Proof. rewrite list_elem_of_fmap. split; [intros ([] & -> & ?); eauto|intros [a Ha]; by exists (k, a)]. Qed.

Lemma NoDup_keys_unique {K A} (l : list (K * A)) k a a' : NoDup l.*1 → (k, a) ∈ l → (k, a') ∈ l → a = a'.
Proof.
  intros Hl H1 H2. apply list_elem_of_lookup in H1 as [i Hi], H2 as [j Hj].
  assert (i = j) as <-; [|congruence]. eapply NoDup_lookup; [exact Hl|..]; by rewrite list_lookup_fmap, ?Hi, ?Hj.
Qed.

Lemma collect_map_lookup `{Countable K} {A} (l : list (K * A)) k a :
  NoDup l.*1 → collect_map l !! k = Some a ↔ (k, a) ∈ l.
Proof.
  intros Hl. unfold collect_map. rewrite foldl_insert_lookup by (intros; by eapply NoDup_keys_unique).
  rewrite lookup_empty. naive_solver.
Qed.

(** ** What a delta lists *)

Definition version_ids (d : CommitDelta) : list RecordIdentity := version_id <$> d_versions d.
Definition state_keys (d : CommitDelta) : list (string * string) :=
  (λ row, (sr_collection row, sr_key row)) <$> d_state d.

(** Each reported record is written or deleted, never both, and once. *)
Record listed (d : CommitDelta) : Prop := mkListed {
  li_work : ∀ k, (None, k) ∈ version_ids d ↔ k ∈ row_keys d ∨ k ∈ d_deleted_work d;
  li_state : ∀ i, (Some i.1, i.2) ∈ version_ids d ↔ i ∈ state_keys d ∨ i ∈ d_deleted_state d;
  li_work_once : NoDup (row_keys d ++ d_deleted_work d);
  li_state_once : NoDup (state_keys d ++ d_deleted_state d);
  li_once : NoDup (version_ids d);
}.

Lemma NoDup_snoc_l {A} (l k : list A) x : NoDup (l ++ k) → x ∉ l ++ k → NoDup ((l ++ [x]) ++ k).
Proof.
  intros Hl Hx. rewrite <-app_assoc. cbn. rewrite <-Permutation_middle. by apply NoDup_cons.
Qed.
Lemma NoDup_snoc_r {A} (l k : list A) x : NoDup (l ++ k) → x ∉ l ++ k → NoDup (l ++ k ++ [x]).
Proof.
  intros Hl Hx. rewrite app_assoc, <-Permutation_cons_append. by apply NoDup_cons.
Qed.

Lemma listed_empty n r : listed (empty_delta n r).
Proof. split; cbn; intros; rewrite ?elem_of_nil; try constructor; naive_solver. Qed.

Lemma version_ids_push v d : version_ids (push_version v d) = version_ids d ++ [version_id v].
Proof. unfold version_ids. cbn. by rewrite fmap_app. Qed.

(** The lists of a delta extended by one record. *)
Ltac listed_elem H :=
  unfold version_ids, state_keys, row_keys in *; cbn in *;
  rewrite ?fmap_app, !elem_of_app, H; cbn; rewrite ?list_elem_of_singleton; unfold version_id; cbn; clear; intuition congruence.
Ltac listed_once :=
  unfold version_ids, state_keys, row_keys in *; cbn in *; rewrite ?fmap_app; cbn;
  first [done | by apply NoDup_snoc_l | by apply NoDup_snoc_r
        | rewrite <-Permutation_cons_append; by apply NoDup_cons].

Lemma listed_put_work d w v :
  listed d → (None, nw_key (work (record w))) ∉ version_ids d →
  listed (push_work w (push_version (mkRecordVersion None (nw_key (work (record w))) v) d)).
Proof.
  intros [Hw Hs Hw1 Hs1 Hv] Hid. pose proof Hid as Hk. rewrite Hw, <-elem_of_app in Hk.
  split; [intros k; listed_elem Hw|intros [c k]; listed_elem (Hs (c, k))|listed_once..].
Qed.

Lemma listed_drop_work d key v :
  listed d → (None, key) ∉ version_ids d →
  listed (push_deleted_work key (push_version (mkRecordVersion None key v) d)).
Proof.
  intros [Hw Hs Hw1 Hs1 Hv] Hid. pose proof Hid as Hk. rewrite Hw, <-elem_of_app in Hk.
  split; [intros k; listed_elem Hw|intros [c k]; listed_elem (Hs (c, k))|listed_once..].
Qed.

Lemma listed_put_state d r v :
  listed d → (Some (sr_collection r), sr_key r) ∉ version_ids d →
  listed (push_state r (push_version (mkRecordVersion (Some (sr_collection r)) (sr_key r) v) d)).
Proof.
  intros [Hw Hs Hw1 Hs1 Hv] Hid. pose proof Hid as Hk.
  rewrite (Hs (sr_collection r, sr_key r)), <-elem_of_app in Hk. 
  split; [intros k; listed_elem Hw|intros [c k]; listed_elem (Hs (c, k))|listed_once..].
Qed.

Lemma listed_drop_state d i v :
  listed d → (Some i.1, i.2) ∉ version_ids d →
  listed (push_deleted_state i (push_version (mkRecordVersion (Some i.1) i.2 v) d)).
Proof.
  intros [Hw Hs Hw1 Hs1 Hv] Hid. pose proof Hid as Hk. rewrite Hs, <-elem_of_app in Hk. destruct i.
  split; [intros k; listed_elem Hw|intros [c k]; listed_elem (Hs (c, k))|listed_once..].
Qed.

Lemma steps_listed (past : list RecordIdentity) st l st' :
  steps st l st' → listed st.2 → (∀ id, id ∈ version_ids st.2 → id ∈ past) → NoDup l →
  (∀ id, id ∈ l → id ∉ past) → listed st'.2 ∧ ∀ id, id ∈ version_ids st'.2 → id ∈ past ∨ id ∈ l.
Proof.
  intros Hsteps. revert past. induction Hsteps as [|st id st' l st'' H1 H2 IH]; intros past Hd Hp Hl Hnew.
  { split; [done|]. auto. }
  apply NoDup_cons in Hl as [Hid Hl].
  assert (Hn : id ∉ version_ids st.2) by (intros ?%Hp; apply (Hnew id); [by left|done]).
  destruct (IH (id :: past)) as [Hd' Hp']; [| |done| |].
  - destruct H1 as [| s d k w v n <- | | s d i r v <- |]; cbn in *; [done|..].
    + by apply listed_put_work.
    + by apply listed_drop_work.
    + by apply listed_put_state.
    + by apply listed_drop_state.
  - intros i Hi. rewrite elem_of_cons. destruct H1 as [| s d k w v n <- | | s d i' r v <- |]; cbn in *; [auto|..];
      unfold version_ids in *; cbn in Hi; rewrite fmap_app, elem_of_app in Hi;
      destruct Hi as [Hi| ->%list_elem_of_singleton]; auto.
  - intros i Hi [->|Hi']%elem_of_cons; [done|]. apply (Hnew i); [by right|done].
  - split; [done|]. intros i Hi%Hp'. rewrite !elem_of_cons in *. naive_solver.
Qed.

(** ** The store after a delta *)

Lemma store_writes_keys full d :
  (store_writes full d).*1 = ((λ k, (None, k)) <$> row_keys d) ++ ((λ i, (Some i.1, i.2)) <$> state_keys d).
Proof. unfold store_writes, row_keys, state_keys. by rewrite fmap_app, <-!list_fmap_compose. Qed.

Lemma store_writes_once full d : listed d → NoDup (store_writes full d).*1.
Proof.
  intros [_ _ Hw Hs _]. rewrite store_writes_keys. apply NoDup_app in Hw as [Hw _], Hs as [Hs _].
  apply NoDup_app. split_and!.
  - apply NoDup_fmap_2; [|done]. by intros ?? [= ->].
  - intros id (k & -> & _)%list_elem_of_fmap (i & E & _)%list_elem_of_fmap. done.
  - apply NoDup_fmap_2; [|done]. by intros [] [] [= -> ->].
Qed.

Lemma store_after_lookup full d id f :
  listed d → store_after full d !! id = Some f ↔
    (id, f) ∈ store_writes full d ∨
    (id ∉ (store_writes full d).*1 ∧ id ∉ store_deletes d ∧ full !! id = Some f).
Proof.
  intros Hd. unfold store_after. rewrite foldl_insert_lookup
    by (intros; by eapply NoDup_keys_unique; [by apply store_writes_once|..]).
  rewrite drop_all_lookup. destruct (decide (id ∈ store_deletes d)); naive_solver.
Qed.

Lemma store_after_write full d id f :
  listed d → (id, f) ∈ store_writes full d → store_after full d !! id = Some f.
Proof. intros Hd Hf. apply store_after_lookup; auto. Qed.

Lemma store_after_row full d row :
  listed d → row ∈ d_work d → let key := nw_key (work (record row)) in
  store_after full d !! (None, key) =
    Some (resolved_apply (default FPreserve (d_work_fields d !! key)) (default ∅ (full !! (None, key)))).
Proof.
  intros Hd Hrow key. apply store_after_write; [done|]. unfold store_writes. apply elem_of_app. left.
  apply list_elem_of_fmap. by exists row.
Qed.

Lemma store_after_state full d row :
  listed d → row ∈ d_state d → store_after full d !! (Some (sr_collection row), sr_key row) = Some (sr_fields row).
Proof.
  intros Hd Hrow. apply store_after_write; [done|]. unfold store_writes. apply elem_of_app. right.
  apply list_elem_of_fmap. by exists row.
Qed.

Lemma written_listed full d id :
  listed d → id ∈ (store_writes full d).*1 ∨ id ∈ store_deletes d ↔ id ∈ version_ids d.
Proof.
  intros Hd. rewrite store_writes_keys. unfold store_deletes. rewrite !elem_of_app, !list_elem_of_fmap.
  destruct id as [[c|] k].
  - rewrite (li_state d Hd (c, k)). split.
    + intros [[(?&[=]&_)|([] & [= -> ->] & Hi)]|[(?&[=]&_)|([] & [= -> ->] & Hi)]]; auto.
    + intros [Hi|Hi]; [left; right|right; right]; by exists (c, k).
  - rewrite (li_work d Hd). split.
    + intros [[(? & [= ->] & Hi)|(?&[=]&_)]|[(? & [= ->] & Hi)|(?&[=]&_)]]; auto.
    + intros [Hi|Hi]; [left; left|right; left]; by exists k.
Qed.

Lemma store_after_other full d id :
  listed d → id ∉ version_ids d → store_after full d !! id = full !! id.
Proof.
  intros Hd Hid. rewrite <-(written_listed full) in Hid by done. apply option_eq. intros f.
  rewrite store_after_lookup by done. split; [intros [Hin|?]; [|naive_solver]|naive_solver].
  destruct Hid. left. apply elem_of_keys. by exists f.
Qed.

(** A reported record without a row is gone. *)
Lemma store_after_gone full d id :
  listed d → id ∈ version_ids d → id ∉ (store_writes full d).*1 → store_after full d !! id = None.
Proof.
  intros Hd Hid Hn. apply eq_None_not_Some. intros [f Hf]. apply store_after_lookup in Hf as [Hin|(_ & Hdel & _)]; [| |done].
  - apply Hn, elem_of_keys. by exists f.
  - apply (written_listed full) in Hid as [?|?]; done.
Qed.

Lemma work_rows_lookup d k row :
  listed d → work_rows d !! k = Some row ↔ row ∈ d_work d ∧ nw_key (work (record row)) = k.
Proof.
  intros [_ _ Hw _ _]. apply NoDup_app in Hw as [Hw _]. unfold work_rows. rewrite collect_map_lookup.
  - rewrite list_elem_of_fmap. naive_solver.
  - by rewrite <-list_fmap_compose.
Qed.

Lemma state_rows_lookup d i row :
  listed d → state_rows d !! i = Some row ↔ row ∈ d_state d ∧ (sr_collection row, sr_key row) = i.
Proof.
  intros [_ _ _ Hs _]. apply NoDup_app in Hs as [Hs _]. unfold state_rows. rewrite collect_map_lookup.
  - rewrite list_elem_of_fmap. naive_solver.
  - by rewrite <-list_fmap_compose.
Qed.

(** ** Effects of a delta *)

(** A command that replaces the fields of a row replaces them by the row's. *)
Definition replaces_ok (d : CommitDelta) : Prop :=
  ∀ row f, row ∈ d_work d → d_work_fields d !! nw_key (work (record row)) = Some (FReplace f) →
    f = nw_fields (work (record row)).

Lemma moves_iff owner e e' Old New Old' New' :
  moves owner e e' Old New → (∀ t, Old t ↔ Old' t) → (∀ t, New t ↔ New' t) → moves owner e e' Old' New'.
Proof. intros Hm HO HN. eapply adds_iff; [exact Hm|..]; intros t; cbn; by rewrite HO, HN. Qed.

Section effects.
Context (schema : QueueSchema) (full : store) (g : CommitGroup) (s : RecordSnapshot) (d : CommitDelta).
Hypotheses (Hload : loaded g full s) (Hd : listed d) (Hrep : replaces_ok d).

Abbreviation after := (store_after full d).

Lemma owns_work k f t :
  full !! (None, k) = Some f → owns schema full (None, k) t ↔ holds (schema_work schema) None f t.
Proof. intros E. unfold owns. rewrite E. cbn. naive_solver. Qed.

Lemma owns_some (m : store) id f def t :
  m !! id = Some f → definition_of schema id = Some def → owns schema m id t ↔ holds def id.1 f t.
Proof. intros E Hdef. unfold owns. rewrite E, Hdef. naive_solver. Qed.

Lemma owns_none (m : store) id t : m !! id = None → owns schema m id t ↔ False.
Proof. intros E. unfold owns. rewrite E. naive_solver. Qed.

(** A row's new fields, when its command replaces. *)
Lemma after_replaced row :
  row ∈ d_work d → is_replace (default FPreserve (d_work_fields d !! nw_key (work (record row)))) = true →
  after !! (None, nw_key (work (record row))) = Some (nw_fields (work (record row))).
Proof.
  intros Hrow Hr. rewrite (store_after_row full d row Hd Hrow).
  destruct (d_work_fields d !! _) as [[|f|]|] eqn:Hc; try done. cbn. by rewrite (Hrep row f Hrow Hc).
Qed.

Lemma row_gone k :
  (None, k) ∈ version_ids d → work_rows d !! k = None → after !! (None, k) = None.
Proof.
  intros Hid Hn. apply store_after_gone; [done..|]. rewrite store_writes_keys, elem_of_app, !list_elem_of_fmap.
  intros [(k' & [= <-] & (row & -> & Hrow)%list_elem_of_fmap)|(? & [=] & _)].
  assert (work_rows d !! nw_key (work (record row)) = Some row) by (apply work_rows_lookup; done). congruence.
Qed.

Lemma work_effects_move e e' k :
  (None, k) ∈ version_ids d → (None, k) ∈ group_ids g → work_effects d s schema e k = Ok e' →
  moves (None, k) e e' (owns schema full (None, k)) (owns schema after (None, k)).
Proof.
  intros Hid Hg H. unfold work_effects in H. apply bind_Ok in H as ([] & _ & H).
  set (def := schema_work schema) in *.
  destruct (s_work s !! k) as [old|] eqn:Hold; destruct (work_rows d !! k) as [row|] eqn:Hrow.
  - destruct (ld_work _ _ _ Hload _ _ Hold) as (f & Hf & Hv).
    apply work_rows_lookup in Hrow as [Hrow <-]; [|done].
    apply bind_Ok in H as (view & ->%checked_new_Ok & H). case_match eqn:Hr.
    + apply bind_Ok in H as (old_keys & Hb & H). apply bind_Ok in H as (new_keys & Ha & H).
      eapply moves_iff; [by eapply difference_moves|..]; intros t; cbn.
      * rewrite (owns_some _ _ _ def t Hf eq_refl). by eapply checked_unique_keys_Ok.
      * rewrite (owns_some _ _ _ def t (after_replaced _ Hrow Hr) eq_refl). by eapply record_unique_keys_Ok.
    + apply bind_Ok in H as (effects & He & H).
      eapply moves_iff; [by eapply (index_effects_move def (None, _) f)|..]; intros t.
      * by rewrite (owns_some _ _ _ def t Hf eq_refl).
      * rewrite (owns_some _ _ _ def t (store_after_row full d row Hd Hrow) eq_refl). by rewrite Hf.
  - destruct (ld_work _ _ _ Hload _ _ Hold) as (f & Hf & Hv).
    apply bind_Ok in H as (view & ->%checked_new_Ok & H). apply bind_Ok in H as (old_keys & Hb & H).
    eapply moves_iff with (Old := λ t, t ∈ old_keys) (New := λ _, False).
    + eapply adds_iff; [by apply release_all_adds|cbn; naive_solver..].
    + intros t. rewrite (owns_some _ _ _ def t Hf eq_refl). by eapply checked_unique_keys_Ok.
    + intros t. by rewrite owns_none by by apply row_gone.
  - apply work_rows_lookup in Hrow as [Hrow <-]; [|done].
    rewrite group_ids_work in Hg. pose proof (ld_no_work _ _ _ Hload _ Hg Hold) as Hf.
    destruct (is_replace _) eqn:Hr; [|done]. cbn [negb orb] in H. case_match; [done|].
    apply bind_Ok in H as (new_keys & Ha & [= <-]).
    eapply moves_iff with (Old := λ _, False) (New := λ t, t ∈ new_keys).
    + eapply adds_iff; [apply claim_all_adds|cbn; naive_solver..].
    + intros t. by rewrite owns_none.
    + intros t. rewrite (owns_some _ _ _ def t (after_replaced _ Hrow Hr) eq_refl). by eapply record_unique_keys_Ok.
  - injection H as <-. rewrite group_ids_work in Hg. pose proof (ld_no_work _ _ _ Hload _ Hg Hold) as Hf.
    eapply moves_iff with (Old := λ _, False) (New := λ _, False).
    + eapply adds_iff; [apply adds_nil|naive_solver..].
    + intros t. by rewrite owns_none.
    + intros t. by rewrite owns_none by by apply row_gone.
Qed.

(** The tuples of a possibly absent state row. *)
Lemma state_tuples (m : store) c k def (row : option StateRecord) l t :
  schema_state schema !! c = Some def → m !! (Some c, k) = sr_fields <$> row →
  match row with Some row => record_unique_keys (Some c) (sr_fields row) def | None => Ok [] end = Ok l →
  t ∈ l ↔ owns schema m (Some c, k) t.
Proof.
  intros Hdef Hm Hl. destruct row as [row|].
  - rewrite (owns_some m (Some c, k) (sr_fields row) def) by done. by apply record_unique_keys_Ok.
  - injection Hl as <-. rewrite owns_none by done. by rewrite elem_of_nil.
Qed.

Lemma after_state c k :
  (Some c, k) ∈ version_ids d → after !! (Some c, k) = sr_fields <$> state_rows d !! (c, k).
Proof.
  intros Hid. destruct (state_rows d !! (c, k)) as [row|] eqn:Hrow.
  - apply state_rows_lookup in Hrow as [Hrow [= <- <-]]; [|done]. by apply store_after_state.
  - apply store_after_gone; [done..|]. rewrite store_writes_keys, elem_of_app, !list_elem_of_fmap.
    intros [(? & [=] & _)|([] & [= <- <-] & (row & [= -> ->] & Hin)%list_elem_of_fmap)].
    assert (state_rows d !! (sr_collection row, sr_key row) = Some row) by (by apply state_rows_lookup). congruence.
Qed.

Lemma loaded_state c k :
  (Some c, k) ∈ group_ids g → full !! (Some c, k) = sr_fields <$> s_state s !! (c, k).
Proof.
  intros Hg. destruct (s_state s !! (c, k)) as [row|] eqn:Hrow; [by apply (ld_state _ _ _ Hload)|].
  apply (ld_no_state _ _ _ Hload); [|done]. by apply group_ids_state.
Qed.

Lemma state_effects_move e e' c k :
  (Some c, k) ∈ version_ids d → (Some c, k) ∈ group_ids g → state_effects d s schema e c k = Ok e' →
  moves (Some c, k) e e' (owns schema full (Some c, k)) (owns schema after (Some c, k)).
Proof.
  intros Hid Hg H. unfold state_effects in H. apply bind_Ok in H as (def & Hdef%ok_or_Ok & H).
  apply bind_Ok in H as (old & Ho & H). apply bind_Ok in H as (new & Hn & H).
  eapply moves_iff; [by eapply difference_moves|..]; intros t; cbn.
  - by eapply state_tuples; [|apply loaded_state|].
  - by eapply state_tuples; [|apply after_state|].
Qed.

Lemma collect_cons {A} (P : A → Prop) (X Y : Prop) x v :
  (X ∨ (x = v ∧ P v)) ∨ (Y ∧ P x) ↔ X ∨ ((x = v ∨ Y) ∧ P x).
Proof. split; [intros [[?|[-> ?]]|[??]]|intros [?|[[->|?] ?]]]; auto. Qed.

(** All effects of the delta: what is released and what is claimed. *)
Lemma unique_effects_move e :
  (∀ id, id ∈ version_ids d → id ∈ group_ids g) → unique_effects d s schema = Ok e →
  (∀ t o, releases e !! t = Some o ↔ o ∈ version_ids d ∧ owns schema full o t ∧ ¬ owns schema after o t) ∧
  (∀ p, p ∈ claims e ↔ p.2 ∈ version_ids d ∧ owns schema after p.2 p.1 ∧ ¬ owns schema full p.2 p.1).
Proof.
  intros Hg. unfold unique_effects. intros ([] & _ & H)%bind_Ok.
  assert (Hgen : ∀ l e0 e, (∀ v, v ∈ l → version_id v ∈ version_ids d) →
    try_fold (λ e v, match rv_collection v with
      | None => work_effects d s schema e (rv_key v)
      | Some collection => state_effects d s schema e collection (rv_key v) end) e0 l = Ok e →
    (∀ t o, releases e !! t = Some o ↔ releases e0 !! t = Some o ∨
      (o ∈ version_id <$> l ∧ owns schema full o t ∧ ¬ owns schema after o t)) ∧
    (∀ p, p ∈ claims e ↔ p ∈ claims e0 ∨
      (p.2 ∈ version_id <$> l ∧ owns schema after p.2 p.1 ∧ ¬ owns schema full p.2 p.1))).
  { clear H e. induction l as [|v l IH]; intros e0 e Hl H; cbn in H.
    - injection H as <-. split; intros; cbn; rewrite elem_of_nil; naive_solver.
    - apply bind_Ok in H as (e1 & H1 & H). destruct (IH e1 e) as [HR HC]; [intros; apply Hl; by right|done|].
      assert (Hm : moves (version_id v) e0 e1 (owns schema full (version_id v)) (owns schema after (version_id v))).
      { pose proof (Hl v (list_elem_of_here _ _)) as Hv. unfold version_id in *. destruct (rv_collection v);
          [apply state_effects_move|apply work_effects_move]; auto. }
      destruct Hm as [HR1 HC1]. split; intros; cbn; rewrite elem_of_cons; [rewrite HR, HR1|rewrite HC, HC1].
      + apply (collect_cons (λ o, owns schema full o t ∧ ¬ owns schema after o t)).
      + apply (collect_cons (λ o, owns schema after o p.1 ∧ ¬ owns schema full o p.1)). }
  destruct (Hgen _ _ _ (λ v Hv, list_elem_of_fmap_2 version_id _ _ Hv) H) as [HR HC].
  split; intros; [rewrite HR|rewrite HC]; cbn; [rewrite lookup_empty|rewrite elem_of_nil]; unfold version_ids;
    clear; naive_solver.
Qed.

End effects.

(** ** Validation *)

Lemma check_claims_Ok e s seen l :
  check_claims e s seen l = Ok (Ok tt) →
  ∀ t o, (t, o) ∈ l → t ∈ unique_probes_loaded s ∧ (∀ o', seen !! t = Some o' → o' = o) ∧
    (∀ o', (t, o') ∈ l → o' = o) ∧
    (∀ o', unique_owners s !! t = Some o' → o' = o ∨ releases e !! t = Some o').
Proof.
  revert seen. induction l as [|[t0 o0] l IH]; intros seen H t o Hin; [by apply elem_of_nil in Hin|].
  cbn in H. destruct (bool_decide (t0 ∈ unique_probes_loaded s)) eqn:Hp; [|done]. cbn in H.
  apply bool_decide_eq_true in Hp.
  destruct (is_none_or (seen !! t0) _) eqn:Hs; [|done]. cbn in H.
  assert (Hseen : ∀ o', seen !! t0 = Some o' → o' = o0).
  { intros o' E. rewrite E in Hs. cbn in Hs. by apply bool_decide_eq_true in Hs. }
  case_match eqn:Hb; [done|].
  assert (Hown : ∀ o', unique_owners s !! t0 = Some o' → o' = o0 ∨ releases e !! t0 = Some o').
  { intros o' E. rewrite E in Hb. apply andb_false_iff in Hb as [Hb|Hb]; apply negb_false_iff, bool_decide_eq_true in Hb; auto. }
  specialize (IH _ H). apply elem_of_cons in Hin as [[= -> ->]|Hin].
  - split_and!; try done. intros o' [[= ->]|Hin]%elem_of_cons; [done|].
    destruct (IH t0 o' Hin) as (_ & Hs' & _). symmetry. apply Hs'. by rewrite lookup_insert_eq.
  - destruct (IH t o Hin) as (H1 & H2 & H3 & H4). destruct (decide (t = t0)) as [->|Hne].
    + assert (o0 = o) as -> by (apply H2; by rewrite lookup_insert_eq). split_and!; try done.
      intros o' [[= ->]|Hin']%elem_of_cons; auto.
    + split_and!; try done.
      * intros o' E. apply H2. by rewrite lookup_insert_ne by done.
      * intros o' [[= -> ->]|Hin']%elem_of_cons; [done|auto].
Qed.

Lemma effects_validate_Ok e s :
  effects_validate e s = Ok (Ok tt) →
  (∀ t o, releases e !! t = Some o → unique_owners s !! t = Some o) ∧ check_claims e s ∅ (claims e) = Ok (Ok tt).
Proof.
  unfold effects_validate. intros ([] & Hr & Hc)%bind_Ok. split; [|done]. intros t o Ht.
  apply try_for_each_Ok in Hr. rewrite Forall_forall in Hr.
  specialize (Hr (t, o)). rewrite elem_of_map_to_list in Hr. specialize (Hr Ht). cbn in Hr.
  destruct (bool_decide (t ∈ unique_probes_loaded s)); [|done]. cbn in Hr.
  destruct (bool_decide (unique_owners s !! t = Some o)) eqn:E; [|done]. by apply bool_decide_eq_true in E.
Qed.

(** The ownership table after releases and claims. *)
Definition owners_after (e : UniqueFieldEffects) (owners : gmap UniqueIdentity RecordIdentity)
    : gmap UniqueIdentity RecordIdentity :=
  foldl (λ m p, <[p.1 := p.2]> m) (drop_all owners (map_to_list (releases e)).*1) (claims e).

Lemma owners_after_lookup e s t o :
  check_claims e s ∅ (claims e) = Ok (Ok tt) →
  owners_after e (unique_owners s) !! t = Some o ↔
    (t, o) ∈ claims e ∨ (t ∉ (claims e).*1 ∧ releases e !! t = None ∧ unique_owners s !! t = Some o).
Proof.
  intros Hc. unfold owners_after. rewrite foldl_insert_lookup, drop_all_lookup.
  2:{ intros o1 o2 H1 H2. by destruct (check_claims_Ok _ _ _ _ Hc _ _ H2) as (_ & _ & E & _); apply E. }
  assert (Hk : t ∈ (map_to_list (releases e)).*1 ↔ is_Some (releases e !! t)).
  { rewrite elem_of_keys. unfold is_Some. by setoid_rewrite elem_of_map_to_list. }
  destruct (decide (t ∈ (map_to_list (releases e)).*1)) as [Hin|Hin]; rewrite Hk in Hin.
  - destruct Hin as [? E]. rewrite E. naive_solver.
  - apply eq_None_not_Some in Hin. rewrite Hin. naive_solver.
Qed.

Lemma holds_dec def c f t : holds def c f t ∨ ¬ holds def c f t.
Proof.
  unfold holds. destruct (decide (t.1.1 = c)); [|right; by intros [? _]].
  destruct (decide (t.1.2 ∈ cd_unique_indexes def)); [|right; by intros (_ & ? & _)].
  destruct (cd_indexes def !! t.1.2) as [columns|]; [|right; by intros (_ & _ & ? & [=] & _)].
  destruct (decide (Forall is_Some (column_values f columns)));
    [|right; by intros (_ & _ & ? & [= <-] & ? & _)].
  destruct (ordered_key (column_values f columns)) as [k|] eqn:E;
    [|right; intros (_ & _ & ? & [= <-] & _ & ?); congruence].
  destruct (decide (k = t.2)) as [->|]; [left; by split_and!; try exists columns|].
  right; intros (_ & _ & ? & [= <-] & _ & ?); congruence.
Qed.

Lemma owns_dec schema full id t : owns schema full id t ∨ ¬ owns schema full id t.
Proof.
  unfold owns. destruct (full !! id) as [f|]; [|right; by intros (? & ? & [=] & _)].
  destruct (definition_of schema id) as [def|]; [|right; by intros (? & ? & _ & [=] & _)].
  destruct (holds_dec def id.1 f t); [left; by exists f, def|right; by intros (? & ? & [= <-] & [= <-] & ?)].
Qed.

(** Validated effects that are the difference of two stores carry the table from
    the one to the other. *)
Lemma owners_after_track schema full full' s e (ids : list RecordIdentity) t o :
  owners_track schema full s → effects_validate e s = Ok (Ok tt) →
  (∀ t o, releases e !! t = Some o ↔ o ∈ ids ∧ owns schema full o t ∧ ¬ owns schema full' o t) →
  (∀ p, p ∈ claims e ↔ p.2 ∈ ids ∧ owns schema full' p.2 p.1 ∧ ¬ owns schema full p.2 p.1) →
  (∀ id, id ∉ ids → full' !! id = full !! id) → t ∈ unique_probes_loaded s →
  owners_after e (unique_owners s) !! t = Some o ↔ owns schema full' o t.
Proof.
  intros Htrack [Hrel Hchk]%effects_validate_Ok HR HC Hother Ht.
  rewrite (owners_after_lookup _ _ _ _ Hchk). split.
  - intros [Hc|(Hn & Hr & Ho)]; [by apply HC in Hc as (_ & ? & _)|].
    apply (Htrack t o Ht) in Ho. destruct (decide (o ∈ ids)) as [Hid|Hid].
    + destruct (owns_dec schema full' o t) as [?|Hno]; [done|].
      assert (releases e !! t = Some o) by (by apply HR). congruence.
    + unfold owns in *. by rewrite Hother.
  - intros Hnew. destruct (owns_dec schema full o t) as [Hold|Hold].
    + right. pose proof (proj2 (Htrack t o Ht) Hold) as Ho.
      assert (Hr : releases e !! t = None).
      { apply eq_None_not_Some. intros [o' Hr]. pose proof (Hrel _ _ Hr) as Ho'. rewrite Ho in Ho'. injection Ho' as <-.
        by apply HR in Hr as (_ & _ & []). }
      split_and!; try done. intros [o' Hc]%elem_of_keys.
      destruct (check_claims_Ok _ _ _ _ Hchk _ _ Hc) as (_ & _ & _ & Hown).
      destruct (Hown o Ho) as [->|?]; [|congruence]. by apply HC in Hc as (_ & _ & []).
    + left. apply HC. split_and!; try done. destruct (decide (o ∈ ids)) as [|Hid]; [done|].
      destruct Hold. unfold owns in *. by rewrite <-Hother.
Qed.

(** ** Planned commits *)

Lemma resolve_edits_partial view explicit prefixes def r :
  resolve_edits view explicit prefixes def = Ok r → is_replace r = false.
Proof.
  unfold resolve_edits. intros (? & _ & (? & _ & (? & _ & [= <-])%bind_Ok)%bind_Ok)%bind_Ok. by case_bool_decide.
Qed.

(** One resolved row: its command, and the others untouched. *)
Lemma resolve_row_fields g s schema d row d' :
  resolve_row g s schema d row = Ok d' →
  let key := nw_key (work (record row)) in
  (∀ k, k ≠ key → d_work_fields d' !! k = d_work_fields d !! k) ∧
  ∀ f, d_work_fields d' !! key = Some (FReplace f) → f = nw_fields (work (record row)).
Proof.
  unfold resolve_row. intros H.
  assert (Hset : ∀ c b, (is_replace c = false ∨ c = FReplace (nw_fields (work (record row)))) →
    let d' := set_field_writes (nw_key (work (record row))) c b d in
    (∀ k, k ≠ nw_key (work (record row)) → d_work_fields d' !! k = d_work_fields d !! k) ∧
    ∀ f, d_work_fields d' !! nw_key (work (record row)) = Some (FReplace f) → f = nw_fields (work (record row))).
  { intros c b Hc. cbn. split; [intros; by rewrite lookup_insert_ne|]. intros f. rewrite lookup_insert_eq.
    intros [= ->]. destruct Hc as [?|[= ->]]; done. }
  case_match; [case_match|]; [injection H as <-; apply Hset; by right| |injection H as <-; apply Hset; by right].
  apply bind_Ok in H as (view & _ & H). apply bind_Ok in H as (edits & _ & H).
  apply bind_Ok in H as (change & Hc%resolve_edits_partial & [= <-]). apply Hset. by left.
Qed.

Lemma resolve_rows_fields g s schema rows d d' :
  NoDup ((λ row, nw_key (work (record row))) <$> rows) → try_fold (resolve_row g s schema) d rows = Ok d' →
  (∀ k, k ∉ ((λ row, nw_key (work (record row))) <$> rows) → d_work_fields d' !! k = d_work_fields d !! k) ∧
  ∀ row f, row ∈ rows → d_work_fields d' !! nw_key (work (record row)) = Some (FReplace f) →
    f = nw_fields (work (record row)).
Proof.
  revert d. induction rows as [|row rows IH]; intros d Hn H; cbn in Hn, H.
  { injection H as <-. split; [done|]. by intros ?? ?%elem_of_nil. }
  apply NoDup_cons in Hn as [Hrow Hn]. apply bind_Ok in H as (d1 & [Ho Hf]%resolve_row_fields & H).
  destruct (IH _ Hn H) as [Ho' Hf']. split.
  - intros k [Hne Hk]%not_elem_of_cons. by rewrite Ho', Ho.
  - intros r f [->|Hr]%elem_of_cons; [|by apply Hf']. rewrite Ho' by done. apply Hf.
Qed.

Section commit.
Context `{Sha256}.

Lemma committed_listed g schema s s2 s' d :
  NoDup (group_ids g) → committed g schema s s2 s' d →
  listed d ∧ (∀ id, id ∈ version_ids d → id ∈ group_ids g) ∧ replaces_ok d.
Proof.
  intros Hg [(d0 & f & b & Hsteps & Hd) _ _ (d1 & Hrows & Hres) _].
  destruct (steps_listed [] _ _ _ Hsteps) as [Hl Hid]; [apply listed_empty|by intros ? ?%elem_of_nil|done|
    intros; apply not_elem_of_nil|].
  assert (Hld : listed d) by (rewrite Hd; destruct Hl; by split).
  split_and!; [done| |].
  - intros id Hin. rewrite Hd in Hin. destruct (Hid id Hin) as [[]%not_elem_of_nil|?]; done.
  - unfold resolve_group_writes in Hres. apply bind_Ok in Hres as (d2 & Hfold & ([] & _ & [= <-])%bind_Ok).
    apply resolve_rows_fields in Hfold as [_ Hf].
    + intros row f' Hrow. rewrite <-Hrows in Hrow. by apply Hf.
    + rewrite Hrows. pose proof (li_work_once _ Hld) as Hn. by apply NoDup_app in Hn as [? _].
Qed.

(** What the planned snapshot holds. *)
Lemma planned_lookup {R} `{Countable K} (key : R → K) (rows : list R) (m : gmap K R) (deleted : list K) k r :
  NoDup (key <$> rows) →
  foldl (λ m row, <[key row := row]> m) (drop_all m deleted) rows !! k = Some r ↔
    (r ∈ rows ∧ key r = k) ∨ (k ∉ key <$> rows ∧ k ∉ deleted ∧ m !! k = Some r).
Proof.
  intros Hn. replace (foldl (λ m row, <[key row := row]> m) (drop_all m deleted) rows)
    with (foldl (λ m e, <[e.1 := e.2]> m) (drop_all m deleted) ((λ row, (key row, row)) <$> rows)).
  2:{ generalize (drop_all m deleted). clear. induction rows; intros m; cbn; auto. }
  assert (Hk : ((λ row, (key row, row)) <$> rows).*1 = key <$> rows) by (by rewrite <-list_fmap_compose).
  rewrite foldl_insert_lookup, Hk by (intros; eapply NoDup_keys_unique; [by rewrite Hk|done..]).
  rewrite drop_all_lookup, list_elem_of_fmap. destruct (decide (k ∈ deleted)); naive_solver.
Qed.

Section commit_loaded.
Context (g : CommitGroup) (schema : QueueSchema) (s s2 s' : RecordSnapshot) (d : CommitDelta) (full : store).
Hypotheses (Hc : committed g schema s s2 s' d) (Hd : listed d) (Hload : loaded g full s).

Lemma planned_work k w :
  s_work s2 !! k = Some w ↔ (w ∈ d_work d ∧ nw_key (work (record w)) = k) ∨
    (k ∉ row_keys d ∧ k ∉ d_deleted_work d ∧ s_work s !! k = Some w).
Proof.
  rewrite (rp_work _ _ _ _ (cm_replays _ _ _ _ _ _ Hc)).
  apply (planned_lookup (λ row, nw_key (work (record row)))).
  pose proof (li_work_once _ Hd) as Hn. by apply NoDup_app in Hn as [? _].
Qed.

Lemma planned_state i r :
  s_state s2 !! i = Some r ↔ (r ∈ d_state d ∧ (sr_collection r, sr_key r) = i) ∨
    (i ∉ state_keys d ∧ i ∉ d_deleted_state d ∧ s_state s !! i = Some r).
Proof.
  rewrite (rp_state _ _ _ _ (cm_replays _ _ _ _ _ _ Hc)).
  apply (planned_lookup (λ row, (sr_collection row, sr_key row))).
  pose proof (li_state_once _ Hd) as Hn. by apply NoDup_app in Hn as [? _].
Qed.

(** A merged row is a view of the fields its command stores. *)
Lemma merge_row_view row :
  row ∈ d_work d →
  ∃ f, store_after full d !! (None, nw_key (work (record row))) = Some f ∧
    view_of f (mkCheckedFields (nw_fields (work (record (merge_row s d row)))) (field_coverage (merge_row s d row))).
Proof.
  intros Hrow. rewrite (store_after_row full d row Hd Hrow). eexists. split; [done|].
  set (key := nw_key (work (record row))). set (change := default FPreserve (d_work_fields d !! key)).
  pose proof (cm_rows _ _ _ _ _ _ _ Hc Hrow) as Hg. rewrite group_ids_work in Hg.
  unfold merge_row. fold key. destruct (s_work s !! key) as [old|] eqn:Hold.
  - destruct (ld_work _ _ _ Hload _ _ Hold) as (f & -> & Hv). cbn [default].
    fold change. destruct (apply_to_view _ _ change) as [fields coverage] eqn:E.
    apply (apply_to_view_of _ _ _ _ _ _ Hv) in E. by destruct (body_apply_to_view _ _ _).
  - rewrite (ld_no_work _ _ _ Hload key Hg Hold). cbn [default].
    assert (Hv : view_of ∅ (mkCheckedFields ∅ (SelectedCoverage ∅ ∅))) by (split; intros ? ?; by rewrite ?lookup_empty).
    fold change. destruct (apply_to_view _ _ change) as [fields coverage] eqn:E.
    apply (apply_to_view_of _ _ _ _ _ _ Hv) in E. by destruct (body_apply_to_view _ _ _).
Qed.

Lemma committed_loaded : loaded g (store_after full d) s'.
Proof.
  pose proof (cm_merged _ _ _ _ _ _ Hc) as [Mw Mst _ _ _]. split.
  - intros k w Hw. destruct (Mw k) as [[Hk E]|(row & Hrow & <- & _ & E)].
    + rewrite E in Hw. apply planned_work in Hw as [[Hrow <-]|(_ & Hdel & Hw)].
      { destruct Hk. by apply (list_elem_of_fmap_2 (λ row, nw_key (work (record row)))). }
      rewrite store_after_other; [by apply (ld_work _ _ _ Hload)|done|].
      rewrite (li_work _ Hd). by intros [?|?].
    + rewrite E in Hw. injection Hw as <-. by apply merge_row_view.
  - intros k Hk Hw. destruct (Mw k) as [[Hrow E]|(row & _ & _ & _ & E)]; [|congruence].
    rewrite E in Hw. destruct (decide ((None, k) ∈ version_ids d)) as [Hid|Hid].
    + apply row_gone; [done..|]. apply eq_None_not_Some. intros [row [Hin <-]%work_rows_lookup]; [|done].
      destruct Hrow. by apply (list_elem_of_fmap_2 (λ row, nw_key (work (record row)))).
    + rewrite store_after_other by done. apply (ld_no_work _ _ _ Hload); [done|].
      rewrite (li_work _ Hd) in Hid. apply eq_None_not_Some. intros [w Hs].
      assert (s_work s2 !! k = Some w) by (apply planned_work; right; split_and!; [done|tauto|done]). congruence.
  - intros c k r. rewrite Mst. intros [[Hin [= <- <-]]|(Hk & Hdel & Hs)]%planned_state; [by apply store_after_state|].
    rewrite store_after_other; [by apply (ld_state _ _ _ Hload)|done|].
    rewrite (li_state _ Hd (c, k)). by intros [?|?].
  - intros c k Hk. rewrite Mst. intros Hs. destruct (decide ((Some c, k) ∈ version_ids d)) as [Hid|Hid].
    + rewrite after_state by done. apply fmap_None, eq_None_not_Some. intros [r Hr].
      apply state_rows_lookup in Hr as [Hin E]; [|done].
      assert (s_state s2 !! (c, k) = Some r) by (apply planned_state; left; auto). congruence.
    + rewrite store_after_other by done. apply (ld_no_state _ _ _ Hload); [done|].
      rewrite (li_state _ Hd (c, k)) in Hid. apply eq_None_not_Some. intros [r Hr].
      assert (s_state s2 !! (c, k) = Some r) by (apply planned_state; right; split_and!; [tauto|tauto|done]). congruence.
Qed.
End commit_loaded.

(** C1. Unique ownership is exact. When a snapshot's ownership table says which
    stored record holds each probed unique tuple, the table of the planned
    snapshot says it of the store with the delta applied, rows stay honest views
    of their stored records, and so no probed tuple is held by two records. *)
Theorem unique_ownership_exact g s now schema s' d full :
  snapshot_ok s → NoDup (group_ids g) → loaded g full s → owners_track schema full s →
  plan_commit_group g s now schema = Ok (s', d) →
  loaded g (store_after full d) s' ∧ owners_track schema (store_after full d) s' ∧
  ∀ t id id', t ∈ unique_probes_loaded s' →
    owns schema (store_after full d) id t → owns schema (store_after full d) id' t → id = id'.
Proof.
  intros Hs Hg Hload Htrack Hp.
  assert (Hmain : loaded g (store_after full d) s' ∧ owners_track schema (store_after full d) s').
  { destruct (plan_commit_cases _ _ _ _ _ _ Hs Hg Hp) as [(reason & -> & ->)|(s2 & Hcm)]; [done|].
    destruct (committed_listed _ _ _ _ _ _ Hg Hcm) as (Hl & Hids & Hrep).
    split; [by eapply committed_loaded|].
    pose proof Hcm as [_ _ [_ _ _ _ Hprobes] _ (e & He & Hval & Hown)].
    destruct (unique_effects_move schema full g s d Hload Hl Hrep e Hids He) as [HR HC].
    intros t id Ht. rewrite Hprobes in Ht. rewrite Hown.
    apply (owners_after_track schema full _ s e (version_ids d)); try done.
    intros i Hi. by apply store_after_other. }
  destruct Hmain as [Hld Htr]. split_and!; [done..|].
  intros t id id' Ht H1%(Htr _ _ Ht) H2%(Htr _ _ Ht). congruence.
Qed.
End commit.

(** The store behind [plan_snapshot]. *)
Definition plan_store : store :=
  {[ (None, "a"%string) := age 7; (None, "b"%string) := age 8; (Some "notes"%string, "n"%string) := age 1 ]}.

Lemma plan_store_lookup id f :
  plan_store !! id = Some f ↔
    (id = (None, "a"%string) ∧ f = age 7) ∨ (id = (None, "b"%string) ∧ f = age 8) ∨
    (id = (Some "notes"%string, "n"%string) ∧ f = age 1).
Proof. unfold plan_store. rewrite !lookup_insert_Some, lookup_singleton_Some. naive_solver. Qed.

Lemma plan_loaded : loaded plan_group plan_store plan_snapshot.
Proof.
  split.
  - intros k w. cbn. rewrite lookup_insert_Some, lookup_singleton_Some.
    intros [[<- <-]|[_ [<- <-]]]; eexists; (split; [reflexivity|apply view_of_complete]).
  - intros k Hk. apply list_elem_of_In in Hk. cbn in Hk. destruct Hk as [<-|[<-|[]]]; vm_compute; congruence.
  - intros c k r. cbn. rewrite lookup_singleton_Some. intros [[= <- <-] <-]. reflexivity.
  - intros c k Hk. apply list_elem_of_In in Hk. cbn in Hk. destruct Hk as [[= <- <-]|[]]; vm_compute; congruence.
Qed.

Lemma holds_age c n k t :
  ordered_key [Some (FInteger n)] = Ok k → holds plan_definition c (age n) t ↔ t = (c, "by_age"%string, k).
Proof.
  intros Hk. unfold holds. cbn [plan_definition cd_unique_indexes cd_indexes].
  assert (Hv : column_values (age n) ["age"%string] = [Some (FInteger n)]) by reflexivity. split.
  - intros (E1 & E2%elem_of_singleton & cols & Hc & _ & Hk'). apply lookup_singleton_Some in Hc as [_ <-].
    rewrite Hv, Hk in Hk'. injection Hk' as E3. destruct t as [[]]. cbn in *. congruence.
  - intros ->. cbn. split_and!; [done|set_solver|]. exists ["age"%string]. rewrite Hv. by repeat constructor.
Qed.

Lemma plan_owns id t :
  owns plan_schema plan_store id t ↔
    (id = (None, "a"%string) ∧ t = age_tuple 7) ∨ (id = (None, "b"%string) ∧ t = age_tuple 8) ∨
    (id = (Some "notes"%string, "n"%string) ∧ t = (Some "notes"%string, "by_age"%string, (age_tuple 1).2)).
Proof.
  unfold owns. setoid_rewrite plan_store_lookup. split.
  - intros (f & def & Hf & Hdef & Hh).
    destruct Hf as [[-> ->]|[[-> ->]|[-> ->]]]; injection Hdef as <-; eapply holds_age in Hh as ->; eauto.
  - intros [[-> ->]|[[-> ->]|[-> ->]]]; eexists _, _;
      (split; [by auto|split; [reflexivity|refine (proj2 (holds_age _ _ _ _ _) _); reflexivity]]).
Qed.

Lemma plan_owners_track : owners_track plan_schema plan_store plan_snapshot.
Proof.
  intros t id. cbn [unique_probes_loaded plan_snapshot unique_owners].
  rewrite elem_of_union, !elem_of_singleton, plan_owns. intros [->| ->].
  - change (_ !! age_tuple 8) with (Some (None : option string, "b"%string)). split; [intros [= <-]; auto|].
    intros [[_ E]|[[-> _]|[_ E]]]; done.
  - change (_ !! age_tuple 9) with (@None RecordIdentity). split; [done|].
    intros [[_ E]|[[_ E]|[_ E]]]; done.
Qed.

Lemma unique_ownership_exact_witness :
  unique_owners plan_after !! age_tuple 8 = Some (None, "c"%string) ∧
  owners_track plan_schema (store_after plan_store plan_delta) plan_after.
Proof.
  split; [reflexivity|].
  apply (@unique_ownership_exact toy_sha plan_group plan_snapshot 10 plan_schema plan_after plan_delta plan_store);
    [exact plan_snapshot_ok|exact plan_ids_distinct|exact plan_loaded|exact plan_owners_track|exact plan_committed].
Defined.
