(* ===== verification/Claim.v ===== *)
(** The claim transition of [fireweed-engine/src/queue_claim.rs]: leasing selected
    work, lease ownership on replay, and the byte budget of a claim response. *)
From S2P Require Import Prelude Identity Field Records Selector Administration Commit IndexKey.
From S2P Require Import FieldView Snapshot PlannerFacts PlanSample.

(** ** Data *)

Record ClaimContext := mkClaimContext {
  ctx_now : Z;
  eligible_at : Z;
  expires_at : Z;
  insertion_head : Z;
}.

Record ClaimTransition := mkClaimTransition { ct_work : StoredWork; ct_lease : LeaseCredential }.

Definition into_claimed (t : ClaimTransition) : ClaimedWork := mkClaimedWork (record (ct_work t)) (ct_lease t).

(** [queue_group_state_authority::WorkMetadata]. *)
Record WorkMetadata := mkWorkMetadata {
  wm_version : Z;
  wm_priority : Z;
  wm_available_at : Z;
  wm_insertion_sequence : Z;
  wm_lifecycle : Lifecycle;
  wm_eligible_since : Z;
  wm_attempts : Z;
  wm_lease_expires_at : option Z;
  wm_lease_hash : option bytes;
}.

Definition authority (message : string) : QueueError := OutcomeUnknown ("claim authority: " ++ message).

(** ** The response budget *)

Record ClaimResponseBudget := mkClaimResponseBudget {
  max_bytes : Z;
  element_bytes : Z;
  records : Z;
}.

Section budget.
(** [postcard] on counts and claimed work. *)
Context `{!Canonical Z, !Canonical ClaimedWork}.

Definition budget_new (max : Z) : QueueResult ClaimResponseBudget :=
  n ← encoded_len 0;
  if max <? n then Err QTooLarge else Ok (mkClaimResponseBudget max 0 0).

(** The budget is mutated in place by the code; here the result carries it. *)
Definition try_include (b : ClaimResponseBudget) (r : ClaimedWork) : QueueResult (bool * ClaimResponseBudget) :=
  count ← ok_or (checked_add_u64 (records b) 1) QTooLarge;
  n ← encoded_len r;
  elements ← ok_or (checked_add_u64 (element_bytes b) n) QTooLarge;
  framing ← encoded_len count;
  total ← ok_or (checked_add_u64 elements framing) QTooLarge;
  if max_bytes b <? total then Ok (false, b)
  else Ok (true, mkClaimResponseBudget (max_bytes b) elements count).

Definition encoded_bytes (b : ClaimResponseBudget) : QueueResult Z :=
  n ← encoded_len (records b);
  ok_or (checked_add_u64 (element_bytes b) n) QTooLarge.

End budget.

(** ** Ownership and transition *)

Record ClaimOwnership := mkClaimOwnership {
  co_lifecycle : Lifecycle;
  co_expires_at : option Z;
  co_token_hash : option bytes;
}.

Definition validate_metadata (o : ClaimOwnership) : QueueResult unit :=
  let leased := bool_decide (co_lifecycle o = Leased) in
  if negb (Bool.eqb leased (bool_decide (is_Some (co_expires_at o))))
     || negb (Bool.eqb leased (bool_decide (is_Some (co_token_hash o))))
  then Err (authority "inconsistent raw replay lease") else Ok tt.

Definition checked_lease_hash (raw : option bytes) : QueueResult (option bytes) :=
  match raw with
  | None => Ok None
  | Some b =>
      if bool_decide (length b = 32%nat) then Ok (Some b)
      else Err (authority "invalid stored lease hash length")
  end.

Definition claim_expiry (now duration : Z) : QueueResult Z :=
  if i64_max <? duration then Err (invalid "lease duration overflow")
  else if duration <=? 0 then Err (invalid "lease duration must be positive")
  else ok_or (checked_add_i64 now duration) (invalid "lease expiry overflow").

Section claim.
Context `{Sha256}.

Definition ownership_validate (o : ClaimOwnership) (t : bytes) (now : Z) : QueueResult unit :=
  _ ← validate_metadata o;
  let leased := bool_decide (co_lifecycle o = Leased) in
  if negb leased || is_none_or (co_expires_at o) (λ expiry, expiry <=? now)
     || negb (bool_decide (co_token_hash o = Some (lease_hash t)))
  then Err ClaimExpired else Ok tt.

Definition plan_claim_metadata (r : WorkMetadata) (t : bytes) (ctx : ClaimContext) : QueueResult WorkMetadata :=
  _ ← validate_metadata (mkClaimOwnership (wm_lifecycle r) (wm_lease_expires_at r) (wm_lease_hash r));
  if (wm_version r =? 0) || (wm_insertion_sequence r =? 0) || (insertion_head ctx <? wm_insertion_sequence r)
  then Err (authority "invalid predecessor version or insertion sequence")
  else
    let pending := bool_decide (wm_lifecycle r = Pending) ||
      (bool_decide (wm_lifecycle r = Leased) &&
       match wm_lease_expires_at r with Some expiry => expiry <=? ctx_now ctx | None => false end) in
    if negb pending || (eligible_at ctx <? wm_available_at r)
    then Err (authority "native selection returned ineligible work")
    else if bool_decide (t = []) || (expires_at ctx <=? ctx_now ctx) then Err (invalid "invalid claim lease")
    else if bool_decide (wm_lease_hash r = Some (lease_hash t)) then Err (authority "reused predecessor lease token")
    else
      v ← ok_or (checked_add_u64 (wm_version r) 1) (authority "version exhausted");
      n ← ok_or (checked_add_u32 (wm_attempts r) 1) (authority "attempts exhausted");
      Ok (mkWorkMetadata v (wm_priority r) (wm_available_at r) (wm_insertion_sequence r) Leased
            (wm_eligible_since r) n (Some (expires_at ctx)) (Some (lease_hash t))).

Definition metadata_of (w : StoredWork) : WorkMetadata :=
  let r := record w in
  mkWorkMetadata (version r) (nw_priority (work r)) (nw_available_at (work r)) (insertion_sequence r)
    (lifecycle r) (eligible_since r) (attempts r) (lease_expires_at r) (stored_lease_hash w).

Definition plan_claim (w : StoredWork) (t : bytes) (ctx : ClaimContext) : QueueResult ClaimTransition :=
  _ ← validate_raw_work_lease w;
  _ ← checked_new (nw_fields (work (record w))) (field_coverage w);
  next ← plan_claim_metadata (metadata_of w) t ctx;
  let r := record w in
  Ok (mkClaimTransition
    (mkStoredWork
      (mkWorkRecord (work r) (wm_version next) (insertion_sequence r) (wm_lifecycle next) (eligible_since r)
        (wm_attempts next) (wm_lease_expires_at next))
      (wm_lease_hash next) (field_coverage w) (body_loaded w))
    (mkLeaseCredential t)).

(** ** What a claim does *)

(** Work a claim may lease: well formed, pending or with an expired lease, due,
    and not under the token it already has. *)
Record claimable (w : StoredWork) (t : bytes) (ctx : ClaimContext) : Prop := mkClaimable {
  cl_lease : lease_ok w;
  cl_coverage : coverage_ok w;
  cl_version : version (record w) ≠ 0 ∧ version (record w) < u64_max;
  cl_sequence : insertion_sequence (record w) ≠ 0 ∧ insertion_sequence (record w) ≤ insertion_head ctx;
  cl_free : lifecycle (record w) = Pending ∨
    (∃ expiry, lease_expires_at (record w) = Some expiry ∧ expiry ≤ ctx_now ctx);
  cl_due : nw_available_at (work (record w)) ≤ eligible_at ctx;
  cl_token : t ≠ [] ∧ stored_lease_hash w ≠ Some (lease_hash t);
  cl_expiry : ctx_now ctx < expires_at ctx;
  cl_attempts : attempts (record w) < u32_max;
}.

(** The work under its new lease; payload and order are untouched. *)
Definition leased_work (w : StoredWork) (t : bytes) (ctx : ClaimContext) : StoredWork :=
  let r := record w in
  mkStoredWork
    (mkWorkRecord (work r) (version r + 1) (insertion_sequence r) Leased (eligible_since r) (attempts r + 1)
      (Some (expires_at ctx)))
    (Some (lease_hash t)) (field_coverage w) (body_loaded w).

(** The three-way agreement both lease checks test. *)
Lemma lease_agreement (l : Lifecycle) (e : option Z) (h : option bytes) :
  (negb (Bool.eqb (bool_decide (l = Leased)) (bool_decide (is_Some e)))
   || negb (Bool.eqb (bool_decide (l = Leased)) (bool_decide (is_Some h)))) = false ↔
  (l = Leased ↔ is_Some e) ∧ (l = Leased ↔ is_Some h).
Proof.
  rewrite orb_false_iff, !negb_false_iff, !Bool.eqb_true_iff.
  repeat case_bool_decide; naive_solver.
Qed.

Lemma raw_lease_Ok w : validate_raw_work_lease w = Ok tt ↔ lease_ok w.
Proof. unfold validate_raw_work_lease, lease_ok. rewrite <-lease_agreement. by destruct (_ || _). Qed.

Lemma metadata_lease_Ok w :
  validate_metadata (mkClaimOwnership (lifecycle (record w)) (lease_expires_at (record w)) (stored_lease_hash w))
    = Ok tt ↔ lease_ok w.
Proof. unfold validate_metadata, lease_ok. rewrite <-lease_agreement. cbn. by destruct (_ || _). Qed.

(** Free work, as the code tests it and as the invariant states it. *)
Lemma free_work w now :
  lease_ok w →
  bool_decide (lifecycle (record w) = Pending) ||
    (bool_decide (lifecycle (record w) = Leased) &&
     match lease_expires_at (record w) with Some expiry => expiry <=? now | None => false end) = true ↔
  lifecycle (record w) = Pending ∨ ∃ expiry, lease_expires_at (record w) = Some expiry ∧ expiry ≤ now.
Proof.
  intros [He _]. rewrite orb_true_iff, andb_true_iff, !bool_decide_eq_true. f_equiv.
  destruct (lease_expires_at (record w)) as [e|]; [|naive_solver]. rewrite Z.leb_le.
  split; [naive_solver|]. intros (e' & [= <-] & Hle). split; [|done]. apply He. by eexists.
Qed.

Lemma plan_claim_iff w t ctx transition :
  plan_claim w t ctx = Ok transition ↔
  claimable w t ctx ∧ transition = mkClaimTransition (leased_work w t ctx) (mkLeaseCredential t).
Proof.
  split.
  - unfold plan_claim. intros ([] & Hl%raw_lease_Ok & (view & Hc & (next & Hn & [= <-])%bind_Ok)%bind_Ok)%bind_Ok.
    unfold plan_claim_metadata in Hn. apply bind_Ok in Hn as ([] & _ & Hn). cbn in Hn.
    destruct ((_ || _) || _) eqn:E1 in Hn; [done|]. rewrite !orb_false_iff, !Z.eqb_neq, Z.ltb_ge in E1.
    destruct (negb _ || _) eqn:E2 in Hn; [done|]. rewrite orb_false_iff, negb_false_iff, Z.ltb_ge in E2.
    rewrite (free_work _ _ Hl) in E2.
    destruct (bool_decide (t = []) || _) eqn:E3 in Hn; [done|]. rewrite orb_false_iff, bool_decide_eq_false, Z.leb_gt in E3.
    case_bool_decide as E4; [done|].
    apply bind_Ok in Hn as (v & [-> Hv1]%ok_or_Ok%checked_add_u64_Some & Hn).
    apply bind_Ok in Hn as (n & [-> Ha1]%ok_or_Ok%checked_add_u32_Some & [= <-]).
    split; [|done]. destruct_and!. constructor; try done; [|lia..]. unfold coverage_ok. by rewrite Hc.
  - intros [[Hl Hc [Hv0 Hv1] [Hs0 Hs1] Hf Hd [Ht0 Ht1] He Ha1] ->]. unfold plan_claim.
    rewrite (proj2 (raw_lease_Ok w) Hl). cbn [mbind result_bind].
    unfold coverage_ok in Hc. destruct (checked_new _ _); [|done]. cbn [mbind result_bind].
    unfold plan_claim_metadata. cbn [metadata_of wm_lifecycle wm_lease_expires_at wm_lease_hash].
    rewrite (proj2 (metadata_lease_Ok w) Hl). cbn.
    rewrite (proj2 (Z.eqb_neq _ _) Hv0), (proj2 (Z.eqb_neq _ _) Hs0), (proj2 (Z.ltb_ge _ _) Hs1). cbn.
    rewrite (proj2 (free_work _ _ Hl) Hf), (proj2 (Z.ltb_ge _ _) Hd). cbn.
    rewrite bool_decide_eq_false_2, (proj2 (Z.leb_gt _ _) He) by done. cbn.
    rewrite bool_decide_eq_false_2 by done. cbn.
    unfold checked_add_u64, checked_add_u32. rewrite (proj2 (Z.leb_le (version (record w) + 1) _)) by lia.
    cbn. by rewrite (proj2 (Z.leb_le (attempts (record w) + 1) _)) by lia.
Qed.

(** C20. The claim transition: it succeeds exactly on claimable work, and then
    only moves the version and the attempts up by one and puts the work under the
    new lease. *)
Theorem plan_claim_exact w t ctx transition :
  plan_claim w t ctx = Ok transition ↔
  claimable w t ctx ∧ transition = mkClaimTransition (leased_work w t ctx) (mkLeaseCredential t).
Proof. apply plan_claim_iff. Qed.

(** Claiming as a relation, for use in the theorems on leases. *)
Lemma plan_claim_Ok w t ctx transition :
  plan_claim w t ctx = Ok transition → claimable w t ctx ∧ ct_work transition = leased_work w t ctx.
Proof. intros [? ->]%plan_claim_iff. done. Qed.

Lemma leased_work_ok w t ctx : lease_ok (leased_work w t ctx).
Proof. split; split; done. Qed.

Lemma token_equal_refl b : token_equal b b = true.
Proof. by apply token_equal_spec. Qed.

(** Leases exclude. Until it expires the new lease is held by its token and
    by no other: a token of another digest fails, in particular the token of the
    lease taken over, and nobody else can claim the work. From its expiry on the
    lease is void. *)
Theorem claim_exclusive `{!Sha256Laws} w t ctx transition :
  plan_claim w t ctx = Ok transition →
  let w' := ct_work transition in
  (∀ now, lease_held w' (mkLeaseCredential t) now = true ↔ now < expires_at ctx) ∧
  (∀ other now, lease_hash other ≠ lease_hash t → lease_held w' (mkLeaseCredential other) now = false) ∧
  (∀ old now, stored_lease_hash w = Some (lease_hash old) → lease_held w' (mkLeaseCredential old) now = false) ∧
  (∀ other ctx', ctx_now ctx' < expires_at ctx → is_ok (plan_claim w' other ctx') = false).
Proof.
  intros [Hc Hw]%plan_claim_Ok w'. unfold w'. rewrite Hw. clear w' Hw.
  assert (Hother : ∀ other now, lease_hash other ≠ lease_hash t →
    lease_held (leased_work w t ctx) (mkLeaseCredential other) now = false).
  { intros other now Hne. apply not_true_iff_false. unfold lease_held. cbn. rewrite andb_true_iff.
    intros [_ Heq]. apply token_equal_spec in Heq; [congruence|]. unfold lease_hash. by rewrite !sha256_length. }
  split_and!; [|done|..].
  - intros now. unfold lease_held. cbn [record lifecycle leased_work lease_expires_at stored_lease_hash token].
    rewrite bool_decide_eq_true_2, token_equal_refl, andb_true_r by done. apply Z.ltb_lt.
  - intros old now Hold. apply Hother. intros E. destruct (cl_token _ _ _ Hc) as [_ []]. by rewrite Hold, E.
  - intros other ctx' Hnow. destruct (plan_claim _ other ctx') as [tr|] eqn:E; [|done].
    apply plan_claim_Ok in E as [[_ _ _ _ Hfree _ _ _ _] _]. cbn in Hfree. naive_solver lia.
Qed.
End claim.

(** ** The response budget is exact *)

Section budget_facts.
Context `{!Canonical Z, !Canonical ClaimedWork, !Canonical (list ClaimedWork)}.
(** [postcard] writes a sequence as its length followed by its elements. *)
Hypothesis canonical_seq : ∀ l : list ClaimedWork,
  canonical_bytes l = canonical_bytes (Z.of_nat (length l)) ++ concat (canonical_bytes <$> l).

(** The records included so far, in order. *)
Inductive budgeted (max : Z) : list ClaimedWork → ClaimResponseBudget → Prop :=
| budgeted_new b : budget_new max = Ok b → budgeted max [] b
| budgeted_included l b r b' :
    budgeted max l b → try_include b r = Ok (true, b') → budgeted max (l ++ [r]) b'
| budgeted_refused l b r b' :
    budgeted max l b → try_include b r = Ok (false, b') → budgeted max l b'.

Lemma encoded_len_Ok `{Canonical T} (v : T) n :
  encoded_len v = Ok n ↔ n = byte_len (canonical_bytes v) ∧ n ≤ u64_max.
Proof.
  unfold encoded_len. rewrite to_io_spec by (cbn; int_lia). cbn [cw_bytes cw_limit]. rewrite Z.add_0_l.
  destruct (Z.leb_spec (byte_len (canonical_bytes v)) u64_max); cbn; naive_solver lia.
Qed.

Lemma byte_len_app a b : byte_len (a ++ b) = byte_len a + byte_len b.
Proof. unfold byte_len. rewrite length_app. lia. Qed.

(** Total size of a response of [n] elements of [bytes] bytes. *)
Lemma response_size (l : list ClaimedWork) :
  byte_len (canonical_bytes l) =
    byte_len (concat (canonical_bytes <$> l)) + byte_len (canonical_bytes (Z.of_nat (length l))).
Proof. rewrite canonical_seq, byte_len_app. lia. Qed.

Lemma try_include_Ok b l r included b' :
  element_bytes b = byte_len (concat (canonical_bytes <$> l)) → records b = Z.of_nat (length l) →
  try_include b r = Ok (included, b') →
  included = (byte_len (canonical_bytes (l ++ [r])) <=? max_bytes b) ∧
  byte_len (canonical_bytes (l ++ [r])) ≤ u64_max ∧
  b' = (if included : bool then
    mkClaimResponseBudget (max_bytes b) (byte_len (concat (canonical_bytes <$> (l ++ [r]))))
      (Z.of_nat (length (l ++ [r]))) else b).
Proof.
  intros He Hr. unfold try_include. rewrite He, Hr.
  intros (count & [-> _]%ok_or_Ok%checked_add_u64_Some & H)%bind_Ok.
  apply bind_Ok in H as (n & [-> _]%encoded_len_Ok & H).
  apply bind_Ok in H as (elements & [-> _]%ok_or_Ok%checked_add_u64_Some & H).
  apply bind_Ok in H as (framing & [-> _]%encoded_len_Ok & H).
  apply bind_Ok in H as (total & [-> Ht]%ok_or_Ok%checked_add_u64_Some & H).
  assert (Hlen : Z.of_nat (length l) + 1 = Z.of_nat (length (l ++ [r]))) by (rewrite length_app; cbn; lia).
  assert (Hel : byte_len (concat (canonical_bytes <$> l)) + byte_len (canonical_bytes r) =
    byte_len (concat (canonical_bytes <$> (l ++ [r])))).
  { rewrite fmap_app, concat_app, byte_len_app. cbn. by rewrite app_nil_r. }
  rewrite Hlen, Hel, <-response_size in *.
  destruct (Z.ltb_spec (max_bytes b) (byte_len (canonical_bytes (l ++ [r])))); injection H as <- <-.
  - by rewrite (proj2 (Z.leb_gt _ _)).
  - by rewrite (proj2 (Z.leb_le _ _)).
Qed.

Lemma budgeted_inv max l b :
  0 ≤ max ≤ u64_max → budgeted max l b →
  max_bytes b = max ∧ element_bytes b = byte_len (concat (canonical_bytes <$> l)) ∧
  records b = Z.of_nat (length l) ∧ byte_len (canonical_bytes l) ≤ max.
Proof.
  intros Hmax. induction 1 as [b Hn|l b r b' Hb (Hm & He & Hr & Hle) Hi|l b r b' Hb (Hm & He & Hr & Hle) Hi].
  - unfold budget_new in Hn. apply bind_Ok in Hn as (n & [-> _]%encoded_len_Ok & Hn).
    destruct (Z.ltb_spec max (byte_len (canonical_bytes 0))); [done|]. injection Hn as <-. cbn.
    rewrite response_size. cbn. by split_and!.
  - destruct (try_include_Ok _ _ _ _ _ He Hr Hi) as (E & _ & ->). cbn. split_and!; try done.
    symmetry in E. rewrite Hm in E. by apply Z.leb_le in E.
  - destruct (try_include_Ok _ _ _ _ _ He Hr Hi) as (_ & _ & ->). done.
Qed.

(** The response budget is exact: at every point the accounted size is the
    size of the encoded response of the records included, never above the limit,
    and a record is refused, leaving the budget as it was, exactly when its
    response would exceed it. *)
Theorem claim_budget_exact max l b :
  0 ≤ max ≤ u64_max → budgeted max l b →
  encoded_bytes b = Ok (byte_len (canonical_bytes l)) ∧ byte_len (canonical_bytes l) ≤ max ∧
  ∀ r included b', try_include b r = Ok (included, b') →
    (included = true ↔ byte_len (canonical_bytes (l ++ [r])) ≤ max) ∧ (included = false → b' = b).
Proof.
  intros Hmax Hb. destruct (budgeted_inv _ _ _ Hmax Hb) as (Hm & He & Hr & Hle). split_and!; [|done|].
  - unfold encoded_bytes. rewrite Hr, He. rewrite response_size in *.
    pose proof (byte_len_nonneg (concat (canonical_bytes <$> l))).
    rewrite (proj2 (encoded_len_Ok (Z.of_nat (length l)) _)) by (split; [done|lia]). cbn.
    unfold checked_add_u64. by rewrite (proj2 (Z.leb_le _ _)) by lia.
  - intros r included b' Hi. destruct (try_include_Ok _ _ _ _ _ He Hr Hi) as (E & _ & ->).
    rewrite Hm in E. split; [by rewrite E, Z.leb_le|]. by intros ->.
Qed.
End budget_facts.

(** ** Instances *)

Definition claim_context : ClaimContext := mkClaimContext 10 7 20 2.
Definition free_sample : StoredWork :=
  mkStoredWork (mkWorkRecord (mkNewWork "a" 5 0 (age 7) []) 3 1 Pending 0 0 None) None CompleteCoverage true.

Lemma claim_exclusive_witness :
  is_ok (@plan_claim toy_sha (@leased_work toy_sha free_sample [Byte.x2a] claim_context) [Byte.x2b]
    (mkClaimContext 15 7 30 2)) = false.
Proof.
  apply (@claim_exclusive toy_sha toy_sha_laws free_sample [Byte.x2a] claim_context
    (mkClaimTransition (@leased_work toy_sha free_sample [Byte.x2a] claim_context) (mkLeaseCredential [Byte.x2a])));
    vm_compute; reflexivity.
Defined.

(** One byte per record, and a byte for the count. *)
Definition toy_records (l : list ClaimedWork) : bytes := Byte.x00 :: concat ((λ _, [Byte.x01]) <$> l).

Lemma claim_budget_exact_witness :
  @encoded_bytes (λ _, [[Byte.x00]]) (mkClaimResponseBudget 9 0 0) = Ok 1.
Proof.
  apply (@claim_budget_exact (λ _, [[Byte.x00]]) (λ _, [[Byte.x01]]) (λ l, [toy_records l])) with (max := 9) (l := []).
  - intros l. unfold canonical_bytes, canonical. cbn. by rewrite app_nil_r.
  - done.
  - by apply budgeted_new.
Defined.
