(* ===== verification/GroupEffects.v ===== *)
(** What each operation of a committed group does to its record: dispositions
    of claimed work, state changes, unclaimed and administrative updates, and
    inserts, whatever else the group contains. *)
From S2P Require Import Prelude Identity Field Records Selector Administration Commit IndexKey.
From S2P Require Import FieldView Snapshot Uniqueness Planner PlannerFacts CommitPlan PlanSample.

(** ** Effects on one record *)

(** A patched row at version [v] with the given lifecycle, eligibility time and
    lease, apart from its fields and body. *)
Definition patched_row (w : StoredWork) (p : WorkPatch) (v : Z) (l : Lifecycle) (since : Z)
    (expiry : option Z) (hash : option bytes) :=
  let r := record w in
  (nw_key (work r), default (nw_priority (work r)) (p_priority p),
   default (nw_available_at (work r)) (p_available_at p), v, insertion_sequence r,
   l, since, attempts r, expiry, hash).

(** A fresh pending row. *)
Definition fresh_row (w : NewWork) (v q now : Z) :=
  (nw_key w, nw_priority w, nw_available_at w, v, q, Pending, Z.max now (nw_available_at w), 0,
   @None Z, @None bytes).

(** The row a claimed update leaves of [w], by disposition. *)
Definition claimed_row (now : Z) (schema : QueueSchema) (u : ClaimedUpdate) (w : StoredWork) :=
  let r := record w in
  let p := cu_patch u in
  let freed l := Some (patched_row w p (version r + 1) l (eligible_since r) None None) in
  let kept expiry := Some (patched_row w p (version r + 1) Leased (eligible_since r) expiry (stored_lease_hash w)) in
  match cu_disposition u with
  | Check => Some (row_meta w)
  | Delete => None
  | Complete => freed Completed
  | Fail => freed Failed
  | Release => freed Pending
  | RetryAt time =>
      if max_attempts schema <=? attempts r then freed Failed
      else Some (patched_row w (mkWorkPatch (p_priority p) (Some time) ∅ None) (version r + 1) Pending time None None)
  | Retain None => kept (lease_expires_at r)
  | Retain (Some duration) => kept (Some (now + duration))
  end.

(** The state record a change leaves at version [v]. *)
Definition changed_state (u : StateUpdate) (v : Z) (old : option StateRecord) : option StateRecord :=
  match su_change u with
  | Put fields value => Some (mkStateRecord (su_collection u) (su_key u) v fields value)
  | SDelete => None
  | SCheck => old
  end.

(** The lifecycle, the eligibility time and the lease an administrative update
    leaves: an invalidated lease returns the work to the queue, and work that
    comes back is eligible from now on. *)
Definition administered_row (now : Z) (w : StoredWork) (p : WorkPatch) (l : AdministrativeLifecycle)
    (g : AdministrativeLeaseGuard) (v : Z) :=
  let r := record w in
  let available := default (nw_available_at (work r)) (p_available_at p) in
  let target :=
    match l, lifecycle r, g with
    | ACompleted, _, _ => Completed
    | AFailed, _, _ => Failed
    | APending, _, _ | AKeep, Leased, InvalidateActive => Pending
    | AKeep, current, _ => current
    end in
  let since :=
    match target, lifecycle r with
    | Pending, Pending => if nw_available_at (work r) =? available then eligible_since r else Z.max now available
    | Pending, _ => Z.max now available
    | _, _ => eligible_since r
    end in
  match target with
  | Leased => patched_row w p v target since (lease_expires_at r) (stored_lease_hash w)
  | _ => patched_row w p v target since None None
  end.

(** The row an unclaimed update leaves of [w], between the sequences [n] and
    [n']. *)
Definition updated_row (now n n' : Z) (u : UnclaimedUpdate) (w : StoredWork) row : Prop :=
  let r := record w in
  match uu_change u with
  | Patch p =>
      lease_active r now = false ∧
      row = Some (patched_row w p (version r + 1) (match lifecycle r with Leased => Pending | l => l end)
        (eligible_since r) None None)
  | UDelete => lease_active r now = false ∧ row = None
  | Replace new =>
      lifecycle r = Pending ∧ nw_key new = uu_key u ∧
      ∃ q, n < q ≤ n' ∧ row = Some (fresh_row new (version r + 1) q now)
  | Administrative p l g =>
      (g = RejectActive → lease_active r now = false) ∧ (g = RequireActive → lease_active r now = true) ∧
      (l = ACompleted ∨ l = AFailed → lifecycle r = Pending ∨ lifecycle r = Leased) ∧
      ∃ v, row = Some (administered_row now w p l g v) ∧ (v = version r + 1 ∨ row = Some (row_meta w))
  end.

(** ** One operation *)

Section operations.
Context `{Sha256}.

Lemma next_of_row s key w v : work_ok s key w → version_next s (None, key) v → v = version (record w) + 1.
Proof. intros Hw [-> _]. unfold highwater. by rewrite (wo_version _ _ _ Hw). Qed.

Lemma claimed_effect now schema s d u st' :
  snapshot_ok s → apply_claimed now schema (s, d) u = Ok st' →
  ∃ w, s_work s !! cu_key u = Some w ∧ row_meta <$> s_work st'.1 !! cu_key u = claimed_row now schema u w.
Proof.
  intros Hs. unfold apply_claimed. intros (w & Hw%ok_or_Ok & Ha)%bind_Ok. exists w. split; [done|].
  pose proof (ok_work s Hs _ _ Hw) as Hok.
  destruct (lease_held w (cu_lease u) now) eqn:Hh; [|done]. cbn [negb] in Ha.
  apply lease_held_spec in Hh as (Hl & _).
  destruct (version (record w) =? cu_expected_version u); [|done]. cbn [negb] in Ha.
  unfold claimed_row. case_bool_decide as Hcheck.
  { rewrite Hcheck. injection Ha as <-. cbn. by rewrite Hw. }
  apply bind_Ok in Ha as ([v s1] & [-> Hv]%next_version_Ok & Ha). apply (next_of_row _ _ _ _ Hok) in Hv as ->.
  case_bool_decide as Hdel.
  { rewrite Hdel. injection Ha as <-. cbn. by rewrite lookup_delete_eq. }
  apply bind_Ok in Ha as (w' & Hd & [= <-]). cbn. rewrite lookup_insert_eq. cbn.
  destruct (cu_disposition u) as [| | |time|[duration|]| |]; cbn in Hd; try done; [..| |].
  all: try (injection Hd as <-; cbn; rewrite ?Hl, ?(bool_decide_eq_true_2 (Leased = Leased)) by done;
    unfold row_meta, patched_row; cbn; rewrite ?Hl; done).
  - case_match; injection Hd as <-; done.
  - apply bind_Ok in Hd as (e & He & [= <-]). cbn. rewrite Hl. cbn.
    unfold checked_expiry in He. case_match; [done|]. apply ok_or_Ok, checked_add_i64_Some in He as [-> _].
    rewrite bool_decide_eq_true_2 by done. unfold row_meta, patched_row. cbn. by rewrite Hl.
Qed.

Lemma state_effect s d u st' :
  apply_state (s, d) u = Ok st' →
  let id := (su_collection u, su_key u) in
  expect_state (sr_version <$> s_state s !! id) (su_expect u) = Ok tt ∧
  s_state st'.1 !! id = changed_state u (highwater s (Some (su_collection u), su_key u) + 1) (s_state s !! id).
Proof.
  unfold apply_state, changed_state. intros ([] & He & Ha)%bind_Ok. split; [done|].
  destruct (su_change u) as [fields value| |]; cbn [is_check] in Ha; [| |by injection Ha as <-].
  all: apply bind_Ok in Ha as ([v s1] & [-> [-> _]]%next_version_Ok & [= <-]); cbn.
  - by rewrite lookup_insert_eq.
  - by rewrite lookup_delete_eq.
Qed.

Lemma insert_effect now s d w st' :
  apply_insert now (s, d) w = Ok st' →
  s_work s !! nw_key w = None ∧ ∃ q, s_next_sequence s < q ≤ s_next_sequence st'.1 ∧
    row_meta <$> s_work st'.1 !! nw_key w = Some (fresh_row w (highwater s (None, nw_key w) + 1) q now).
Proof.
  unfold apply_insert. case_bool_decide as Hn; [done|].
  intros ([v s1] & [-> [-> _]]%next_version_Ok & ([q s2] & (-> & -> & _)%next_insertion_Ok & [= <-])%bind_Ok)%bind_Ok.
  split; [by apply eq_None_not_Some|]. eexists. cbn. split; [|by rewrite lookup_insert_eq]. cbn. lia.
Qed.

Lemma administered_effect now w p l g changed w' :
  apply_administrative_update w p l g now = Ok (changed, w') →
  (g = RejectActive → lease_active (record w) now = false) ∧
  (g = RequireActive → lease_active (record w) now = true) ∧
  (l = ACompleted ∨ l = AFailed → lifecycle (record w) = Pending ∨ lifecycle (record w) = Leased) ∧
  ∀ v, row_meta (set_record (set_version v) w') = administered_row now w p l g v.
Proof.
  unfold apply_administrative_update, administered_row, patched_row, row_meta.
  generalize (lease_active (record w) now) as active.
  destruct w as [[new ver seq lc since att expiry] hash cov body]. cbn.
  intros active. destruct lc, l, g, active; cbn; try done; intros [= <- <-]; cbn;
    (split_and!; [intuition (done || discriminate)..|]); intros v; cbn; try done;
    by destruct (nw_available_at new =? default (nw_available_at new) (p_available_at p)).
Qed.

Lemma update_effect now s d u st' :
  snapshot_ok s → apply_update now (s, d) u = Ok st' →
  ∃ w, s_work s !! uu_key u = Some w ∧ expect_state (Some (version (record w))) (uu_expect u) = Ok tt ∧
    updated_row now (s_next_sequence s) (s_next_sequence st'.1) u w (row_meta <$> s_work st'.1 !! uu_key u).
Proof.
  intros Hs. unfold apply_update. intros (w & Hw%ok_or_Ok & ([] & He & Ha)%bind_Ok)%bind_Ok.
  pose proof (ok_work s Hs _ _ Hw) as Hok. pose proof (wo_lease _ _ _ Hok) as [Hl1 Hl2].
  exists w. split_and!; [done..|]. unfold updated_row.
  case_match eqn:Hact; [done|]. apply bind_Ok in Ha as ([v s1] & Hv & Ha).
  apply bind_Ok in Ha as ([[written v'] s2] & Hch & Ha). unfold change_work in Hch.
  destruct (uu_change u) as [p|p l g|w0|]; cbn [is_administrative negb andb] in Hv, Hact.
  - apply next_version_Ok in Hv as [-> Hv%(next_of_row _ _ _ _ Hok)]. subst v.
    injection Hch as <- <- <-. injection Ha as <-. split; [done|]. cbn. rewrite lookup_insert_eq. cbn. f_equal.
    assert (Hnone : lifecycle (record w) ≠ Leased → lease_expires_at (record w) = None ∧ stored_lease_hash w = None).
    { intros Hn. split; apply eq_None_not_Some; tauto. }
    case_bool_decide as Hlc; unfold row_meta, patched_row; cbn; [by rewrite Hlc|].
    destruct (Hnone Hlc) as [-> ->]. by destruct (lifecycle (record w)).
  - injection Hv as <- <-. apply bind_Ok in Hch as ([changed w1] & Hadm & Hch).
    apply bind_Ok in Hch as ([v1 s1] & Hv1 & [= <- <- <-]). injection Ha as <-.
    pose proof (administered_effect _ _ _ _ _ _ _ Hadm) as (H1 & H2 & H3 & H4). split_and!; [done..|].
    exists v1. cbn. rewrite lookup_insert_eq. cbn. rewrite H4. split; [done|]. destruct changed.
    + left. apply next_version_Ok in Hv1 as [_ Hv]. by apply (next_of_row _ _ _ _ Hok).
    + right. injection Hv1 as <- <-. rewrite <-H4.
      apply administrative_Ok in Hadm as (_ & Hver & _ & _ & _ & Hm); [|done|apply Hok].
      rewrite (Hm eq_refl), <-Hver. by destruct w1 as [[]].
  - apply next_version_Ok in Hv as [-> Hv%(next_of_row _ _ _ _ Hok)]. subst v.
    destruct (lifecycle (record w)); try done. case_bool_decide as Hk; [|done]. cbn [negb] in Hch.
    apply bind_Ok in Hch as ([q s3] & (-> & -> & Hmax)%next_insertion_Ok & [= <- <- <-]).
    injection Ha as <-. split_and!; [done..|]. eexists. cbn. split; [|by rewrite lookup_insert_eq]. cbn. lia.
  - injection Hch as <- <- <-. injection Ha as <-. split; [done|]. cbn. by rewrite lookup_delete_eq.
Qed.

(** ** Operations of a group *)

Inductive operation :=
| OClaimed (u : ClaimedUpdate)
| OState (u : StateUpdate)
| OUpdate (u : UnclaimedUpdate)
| OInsert (w : NewWork).

Definition op_id (o : operation) : RecordIdentity :=
  match o with
  | OClaimed u => (None, cu_key u)
  | OState u => (Some (su_collection u), su_key u)
  | OUpdate u => (None, uu_key u)
  | OInsert w => (None, nw_key w)
  end.

Definition apply_op (now : Z) (schema : QueueSchema) (st : plan_state) (o : operation)
    : result Rejection plan_state :=
  match o with
  | OClaimed u => apply_claimed now schema st u
  | OState u => apply_state st u
  | OUpdate u => apply_update now st u
  | OInsert w => apply_insert now st w
  end.

Definition operations (g : CommitGroup) : list operation :=
  (OClaimed <$> claimed_updates g) ++ (OState <$> state_updates g) ++
  (OUpdate <$> work_updates g) ++ (OInsert <$> work_inserts g).

Lemma op_ids g : op_id <$> operations g = group_ids g.
Proof. unfold operations, group_ids. by rewrite !fmap_app, <-!list_fmap_compose. Qed.

Lemma try_fold_fmap {E A B S} (h : A → B) (f : S → B → result E S) (l : list A) (st : S) :
  try_fold f st (h <$> l) = try_fold (λ st a, f st (h a)) st l.
Proof. revert st. induction l as [|a l IH]; intros st; cbn; [done|]. destruct (f st (h a)); cbn; auto. Qed.

Lemma apply_group_ops g s now schema st' :
  apply_group g s now schema = Ok st' →
  ∃ st, try_fold (apply_op now schema)
      (s, empty_delta (s_next_sequence s) (mkCommitReceipt (request_id g) (Committed []))) (operations g) = Ok st ∧
    st' = seal_delta st.
Proof.
  unfold apply_group, operations. intros (st1 & H1 & (st2 & H2 & (st3 & H3 & (st4 & H4 & [= <-])%bind_Ok)%bind_Ok)%bind_Ok)%bind_Ok.
  rewrite <-(try_fold_fmap OClaimed (apply_op now schema)) in H1.
  rewrite <-(try_fold_fmap OState (apply_op now schema)) in H2.
  rewrite <-(try_fold_fmap OUpdate (apply_op now schema)) in H3.
  rewrite <-(try_fold_fmap OInsert (apply_op now schema)) in H4.
  exists st4. split; [|done]. rewrite try_fold_app, H1. cbn [mbind result_bind].
  rewrite try_fold_app, H2. cbn [mbind result_bind]. rewrite try_fold_app, H3. exact H4.
Qed.

Lemma apply_op_step now schema st o st' :
  snapshot_ok st.1 → apply_op now schema st o = Ok st' → step st (op_id o) st'.
Proof.
  destruct st as [s d], o as [u|u|u|w]; cbn; intros Hs Ha.
  - by apply (apply_claimed_step now schema).
  - by apply apply_state_step.
  - by apply (apply_update_step now).
  - by apply (apply_insert_step now).
Qed.

(** Two snapshots that hold the same record. *)
Definition same_at (s s' : RecordSnapshot) (id : RecordIdentity) : Prop :=
  s_versions s' !! id = s_versions s !! id ∧
  match id.1 with
  | None => s_work s' !! id.2 = s_work s !! id.2
  | Some c => s_state s' !! (c, id.2) = s_state s !! (c, id.2)
  end.

Lemma steps_same_at st l st' id : steps st l st' → id ∉ l → same_at st.1 st'.1 id.
Proof.
  intros (Hv & Hw & Hst & _)%steps_frame Hid. split; [by apply Hv|].
  destruct id as [[c|] k]; cbn; [by apply (Hst (c, k))|by apply Hw].
Qed.

(** An operation of a group meets its record as the group found it, and leaves
    it as the group leaves it. *)
Lemma operation_alone now schema l o st st' :
  snapshot_ok st.1 → NoDup (op_id <$> l) → try_fold (apply_op now schema) st l = Ok st' → o ∈ l →
  ∃ s1 d1 st2, snapshot_ok s1 ∧ apply_op now schema (s1, d1) o = Ok st2 ∧
    same_at st.1 s1 (op_id o) ∧ same_at st2.1 st'.1 (op_id o) ∧
    s_next_sequence st.1 ≤ s_next_sequence s1 ∧ s_next_sequence st2.1 ≤ s_next_sequence st'.1.
Proof.
  intros Hs Hn Hf (l1 & l2 & ->)%list_elem_of_split.
  rewrite fmap_app in Hn. cbn in Hn. apply NoDup_app in Hn as (_ & Hd & [Ho _]%NoDup_cons).
  rewrite try_fold_app in Hf. apply bind_Ok in Hf as ([s1 d1] & H1 & Hf). cbn in Hf.
  apply bind_Ok in Hf as (st2 & H2 & H3).
  eapply (try_fold_steps _ op_id) in H1; [|apply apply_op_step|done].
  pose proof (steps_preserve_ok _ _ _ H1 Hs) as Hs1. cbn in Hs1.
  pose proof (apply_op_step now schema (s1, d1) _ _ Hs1 H2) as Hstep.
  eapply (try_fold_steps _ op_id) in H3; [|apply apply_op_step|by apply (step_preserves_ok _ _ _ Hstep)].
  exists s1, d1, st2. split_and!; [done|done| | | |].
  - apply (steps_same_at _ _ _ _ H1). intros Hin. apply (Hd _ Hin). by left.
  - by apply (steps_same_at _ _ _ _ H3).
  - by destruct (steps_frame _ _ _ H1) as (_ & _ & _ & ? & _).
  - by destruct (steps_frame _ _ _ H3) as (_ & _ & _ & ? & _).
Qed.

Lemma same_at_trans s1 s2 s3 id : same_at s1 s2 id → same_at s2 s3 id → same_at s1 s3 id.
Proof. intros [Hv H1] [Hv' H2]. split; [congruence|]. destruct id as [[c|] k]; cbn in *; congruence. Qed.

Lemma agree_same_at ids c s id : agree ids c s → id ∈ ids → same_at c s id.
Proof.
  intros [Hw Hst Hv _] Hid. split; [by rewrite Hv|].
  destruct id as [[c'|] k]; cbn; [by rewrite (Hst (c', k))|by rewrite Hw].
Qed.

Lemma same_at_sym s s' id : same_at s s' id → same_at s' s id.
Proof. intros [Hv H1]. split; [done|]. by destruct id as [[c|] k]. Qed.

(** Merging changes no more than the fields of a row. *)
Lemma merged_result s d s2 s' st id : merged s d s2 s' → same_at st s2 id → same_record st s' id.
Proof.
  intros Hm [_ Hat]. eapply merged_same_record; [exact Hm|]. unfold same_record.
  destruct id as [[c|] k]; cbn in *; by rewrite Hat.
Qed.

Lemma planned_operation g s now schema s' d versions o :
  snapshot_ok s → NoDup (group_ids g) → plan_commit_group g s now schema = Ok (s', d) →
  rc_outcome (d_receipt d) = Committed versions → o ∈ operations g →
  ∃ s1 d1 st2, snapshot_ok s1 ∧ apply_op now schema (s1, d1) o = Ok st2 ∧
    same_at s s1 (op_id o) ∧ same_record st2.1 s' (op_id o) ∧
    s_next_sequence s ≤ s_next_sequence s1 ∧ s_next_sequence st2.1 ≤ s_next_sequence s'.
Proof.
  intros Hs Hg Hp Hc Ho.
  destruct (plan_commit_inv _ _ _ _ _ _ Hs Hg Hp) as [(reason & _ & ->)|(s2 & c & Hcm & Ha & Hag)]; [done|].
  pose proof (cm_merged _ _ _ _ _ _ Hcm) as Hm. apply apply_group_ops in Ha as (st & Hf & ->).
  assert (Hid : op_id o ∈ group_ids g) by (rewrite <-op_ids; by apply list_elem_of_fmap_2).
  rewrite <-op_ids in Hg.
  eapply operation_alone in Hf as (s1 & d1 & st2 & Hs1 & Hop & Hpre & Hpost & Hn1 & Hn2);
    [|by apply (addressed_ok g)|done|done].
  exists s1, d1, st2. split_and!; [done|done| | | |].
  - eapply same_at_trans; [|exact Hpre]. apply same_at_sym. by apply (agree_same_at _ _ _ _ (addressed_agree g s)).
  - eapply merged_result; [exact Hm|]. eapply same_at_trans; [exact Hpost|].
    destruct st. by apply (agree_same_at _ _ _ _ Hag).
  - by rewrite (ag_sequence _ _ _ (addressed_agree g s)) in Hn1.
  - rewrite (mg_sequence _ _ _ _ Hm), <-(ag_sequence _ _ _ Hag). by destruct st.
Qed.

End operations.

