(* ===== verification/InsertPlan.v ===== *)
(** Vectors of inserts: each item is planned on the snapshot the items before it
    leave, and its outcome says exactly what happened to it. *)
From S2P Require Import Prelude Identity Field Records Selector Administration Commit IndexKey.
From S2P Require Import FieldView Snapshot Uniqueness Planner PlannerFacts CommitPlan PlanSample.

Section inserts.
Context `{Sha256}.

(** The item is stored as fresh pending work, whole, with the next version and
    the next sequence; no other work changes. *)
Definition stored_fresh (s : RecordSnapshot) (item : NewWork) (v : Z) (s' : RecordSnapshot) : Prop :=
  ∃ now, s_work s' = <[nw_key item := fresh_work item v (s_next_sequence s + 1) now]> (s_work s) ∧
    v = highwater s (None, nw_key item) + 1 ∧
    s_versions s' = <[(None, nw_key item) := v]> (s_versions s) ∧
    s_next_sequence s' = s_next_sequence s + 1 ∧ s_state s' = s_state s.

(** What an outcome says of the snapshot before and after the item. *)
Definition insert_step (mode : InsertMode) (s : RecordSnapshot) (item : NewWork) (o : InsertOutcome)
    (s' : RecordSnapshot) : Prop :=
  match o with
  | Inserted key v => key = nw_key item ∧ s_work s !! key = None ∧ stored_fresh s item v s'
  | Replaced key v =>
      key = nw_key item ∧ mode = Upsert ∧
      (∃ old, s_work s !! key = Some old ∧ lifecycle (record old) = Pending) ∧ stored_fresh s item v s'
  | InsertRejected key reason => key = nw_key item ∧ s' = s
  end.

Inductive insert_chain (mode : InsertMode)
    : RecordSnapshot → list NewWork → list InsertOutcome → RecordSnapshot → Prop :=
| chain_nil s : insert_chain mode s [] [] s
| chain_cons s item o s1 items outcomes s' :
    insert_step mode s item o s1 → insert_chain mode s1 items outcomes s' →
    insert_chain mode s (item :: items) (o :: outcomes) s'.

(** The delta of one freshly stored item. *)
Definition fresh_delta (item : NewWork) (v q now : Z) : CommitDelta :=
  let versions := [mkRecordVersion None (nw_key item) v] in
  mkCommitDelta [fresh_work item v q now] ∅ ∅ [] [] [] versions q (mkCommitReceipt "" (Committed versions)).

Lemma resolve_fresh g s schema item v q now d :
  s_work s !! nw_key item = None ∨ nw_key item ∈ replacement_keys g →
  resolve_group_writes g s (fresh_delta item v q now) schema = Ok d →
  d = set_field_writes (nw_key item) (FReplace (nw_fields item)) (BReplace (nw_body item))
        (fresh_delta item v q now).
Proof.
  intros Hk. unfold resolve_group_writes. intros (d1 & H1 & ([] & _ & [= <-])%bind_Ok)%bind_Ok.
  cbn in H1. apply bind_Ok in H1 as (d2 & Hr & [= <-]). unfold resolve_row in Hr. cbn in Hr.
  destruct (s_work s !! nw_key item); [|by injection Hr as <-].
  destruct Hk as [?|Hk]; [done|]. rewrite bool_decide_eq_true_2 in Hr by done. by injection Hr as <-.
Qed.

(** Merging it stores the item itself. *)
Lemma merge_fresh s schema item v q now additions s' :
  merge_delta s (set_field_writes (nw_key item) (FReplace (nw_fields item)) (BReplace (nw_body item))
    (fresh_delta item v q now)) additions schema = Ok s' →
  s_work s' = <[nw_key item := fresh_work item v q now]> (s_work s) ∧
  s_versions s' = <[(None, nw_key item) := v]> (s_versions s) ∧ s_next_sequence s' = q ∧ s_state s' = s_state s.
Proof.
  unfold merge_delta. intros (e & _ & [= <-])%bind_Ok. cbn. split_and!; [|done..].
  unfold merge_row. cbn. rewrite !lookup_insert_eq. cbn.
  destruct item. by destruct (s_work s !! _).
Qed.

Lemma insert_applies item s now schema c' d :
  let g := mkCommitGroup "" [] [] [item] [] None in
  apply_group g (addressed_snapshot g s) now schema = Ok (c', d) →
  s_work s !! nw_key item = None ∧
  d = fresh_delta item (highwater s (None, nw_key item) + 1) (s_next_sequence s + 1) now.
Proof.
  intros g. assert (Hin : (None, nw_key item) ∈ group_ids g) by by left.
  pose proof (addressed_agree g s) as Hag. set (c := addressed_snapshot g s) in *. clearbody c.
  destruct Hag as [Hw _ Hv Hn]. unfold apply_group. cbn.
  intros ([s4 d4] & (st1 & Ha & [= ->])%bind_Ok & [= <- <-])%bind_Ok.
  unfold apply_insert in Ha. case_bool_decide as Hs; [done|].
  rewrite (Hw _ Hin) in Hs. apply eq_None_not_Some in Hs.
  apply bind_Ok in Ha as ([v s1] & [-> [-> _]]%next_version_Ok & Ha).
  apply bind_Ok in Ha as ([q s2] & (-> & -> & _)%next_insertion_Ok & [= <- <-]).
  split; [done|]. unfold highwater. cbn. by rewrite (Hv _ Hin), Hn.
Qed.

Lemma replace_applies item e s now schema c' d :
  let g := mkCommitGroup "" [] [] [] [mkUnclaimedUpdate (nw_key item) e (Replace item)] None in
  apply_group g (addressed_snapshot g s) now schema = Ok (c', d) →
  (∃ old, s_work s !! nw_key item = Some old ∧ lifecycle (record old) = Pending) ∧
  d = fresh_delta item (highwater s (None, nw_key item) + 1) (s_next_sequence s + 1) now.
Proof.
  intros g. assert (Hin : (None, nw_key item) ∈ group_ids g) by by left.
  pose proof (addressed_agree g s) as Hag. set (c := addressed_snapshot g s) in *. clearbody c.
  destruct Hag as [Hw _ Hv Hn]. unfold apply_group. cbn.
  intros ([s4 d4] & (st1 & Ha & [= ->])%bind_Ok & [= <- <-])%bind_Ok.
  unfold apply_update in Ha. apply bind_Ok in Ha as (old & Hold%ok_or_Ok & Ha). cbn [uu_key uu_change] in *.
  rewrite (Hw _ Hin) in Hold. apply bind_Ok in Ha as ([] & _ & Ha). case_match; [done|]. cbn [is_administrative] in Ha.
  apply bind_Ok in Ha as ([v s1] & [-> [-> _]]%next_version_Ok & Ha).
  apply bind_Ok in Ha as ([[w v'] s2] & Hc & Ha). unfold change_work in Hc. cbn [uu_key uu_change] in Hc.
  destruct (lifecycle (record old)) eqn:Hl; try done. rewrite bool_decide_eq_true_2 in Hc by done.
  cbn [negb] in Hc. apply bind_Ok in Hc as ([q s3] & (-> & -> & _)%next_insertion_Ok & [= <- <- <-]).
  injection Ha as <- <-. split; [by exists old|]. unfold highwater. cbn. by rewrite (Hv _ Hin), Hn.
Qed.

(** The group of one item, applied. *)
Lemma insert_group_applies mode s item now schema c' d :
  let g := insert_group mode s item in
  apply_group g (addressed_snapshot g s) now schema = Ok (c', d) →
  (s_work s !! nw_key item = None ∨
    (mode = Upsert ∧ nw_key item ∈ replacement_keys g ∧
     ∃ old, s_work s !! nw_key item = Some old ∧ lifecycle (record old) = Pending)) ∧
  d = fresh_delta item (highwater s (None, nw_key item) + 1) (s_next_sequence s + 1) now.
Proof.
  intros g. unfold g, insert_group. destruct (s_work s !! nw_key item) as [old|] eqn:Hs.
  - destruct (decide (mode = Upsert)) as [Hm|Hm];
      [rewrite bool_decide_eq_true_2 by done|rewrite bool_decide_eq_false_2 by done]; intros Ha.
    + apply replace_applies in Ha as [Hold Hd]. rewrite Hs in Hold. split; [|done]. right.
      split_and!; [done|unfold replacement_keys; apply elem_of_list_to_set; by left|done].
    + apply insert_applies in Ha as [? _]. congruence.
  - intros Ha. apply insert_applies in Ha as [_ Hd]. auto.
Qed.

(** One item. *)
Lemma plan_insert_step mode schema s item now s' d o :
  plan_commit_group (insert_group mode s item) s now schema = Ok (s', d) →
  insert_outcome (bool_decide (is_Some (s_work s !! nw_key item))) item d = Ok o →
  insert_step mode s item o s'.
Proof.
  unfold plan_commit_group. intros ([] & _ & Hp)%bind_Ok Ho.
  destruct (apply_group _ _ now schema) as [[c' d1]|reason] eqn:Ha;
    [|by injection Hp as <- <-; injection Ho as <-].
  apply bind_Ok in Hp as (d2 & Hres & Hp).
  apply bind_Ok in Hp as ([additions|reason] & _ & Hp); [|by injection Hp as <- <-; injection Ho as <-].
  apply bind_Ok in Hp as (s1 & Hm & [= <- <-]).
  apply insert_group_applies in Ha as [Hcase ->]. apply resolve_fresh in Hres; [|naive_solver]. subst d2.
  apply merge_fresh in Hm as (Ew & Ev & En & Es).
  assert (Hf : stored_fresh s item (highwater s (None, nw_key item) + 1) s1) by by exists now.
  cbn in Ho. destruct Hcase as [Hs|(Hmode & _ & old & Hs & Hl)]; rewrite Hs in Ho.
  - rewrite bool_decide_eq_false_2 in Ho by (by intros []). by injection Ho as <-.
  - rewrite bool_decide_eq_true_2 in Ho by done. injection Ho as <-. split_and!; eauto.
Qed.

Lemma plan_items_chain mode schema now items i s s' deltas outcomes :
  plan_items mode schema now i items s = Ok (s', deltas, outcomes) → insert_chain mode s items outcomes s'.
Proof.
  revert i s deltas outcomes. induction items as [|item items IH]; intros i s deltas outcomes; cbn.
  { intros [= <- <- <-]. constructor. }
  intros (t & _ & ([s1 d] & Hp & (o & Ho & ([[s2 ds] os] & Hi & [= <- <- <-])%bind_Ok)%bind_Ok)%bind_Ok)%bind_Ok.
  econstructor; [by eapply plan_insert_step|by eapply IH].
Qed.

(** An insert vector is the sequence of its items: one outcome per item in
    order, an inserted or replaced item is stored whole as fresh pending work
    under the reported version, only upserts replace and only pending work, and a
    rejected item changes nothing. *)
Theorem insert_vector_sequential request s schema now s' deltas outcomes :
  plan_insert_vector request s schema now = Ok (s', deltas, outcomes) →
  insert_chain (ir_mode request) s (ir_items request) outcomes s'.
Proof. apply plan_items_chain. Qed.

End inserts.

(** A fresh item, and the replacement of pending work. *)
Definition insert_sample : InsertRequest :=
  mkInsertRequest (mkQueueAddress "t" "q") "r" Upsert [mkNewWork "c" 1 0 (age 9) []; mkNewWork "a" 1 0 (age 7) []].

Lemma insert_vector_sequential_witness :
  ∃ s', insert_chain Upsert plan_snapshot (ir_items insert_sample)
    [Inserted "c" 1; Replaced "a" 4] s'.
Proof.
  eexists. eapply (@insert_vector_sequential toy_sha insert_sample plan_snapshot plan_schema (λ _, Ok 10)).
  vm_compute. reflexivity.
Defined.
