(* ===== verification/PackPlan.v ===== *)
(** Packing of deltas: one packed delta does to rows, versions and stored fields
    what its deltas do one after the other. *)
From S2P Require Import Prelude Identity Field Records Selector Administration Commit IndexKey.
From S2P Require Import FieldView Snapshot Uniqueness Planner PlannerFacts CommitPlan PlanSample.
From S2P Require Import UniqueFacts UniquePlan.

(** ** Deltas as updates *)

Definition apply_rows (m : gmap string StoredWork) (d : CommitDelta) : gmap string StoredWork :=
  foldl put_row (drop_all m (d_deleted_work d)) (d_work d).
Definition apply_states (m : gmap (string * string) StateRecord) (d : CommitDelta)
    : gmap (string * string) StateRecord :=
  foldl put_state_row (drop_all m (d_deleted_state d)) (d_state d).
Definition apply_versions (m : gmap RecordIdentity Z) (d : CommitDelta) : gmap RecordIdentity Z :=
  foldl put_version m (d_versions d).

(** ** Maps of pending writes *)

(** [Some r] writes, [None] deletes. *)
Definition overlay `{Countable K} {R} (w : gmap K (option R)) (m : gmap K R) (k : K) : option R :=
  match w !! k with Some o => o | None => m !! k end.

(** The writes and the deletions of a map of pending writes. *)
Definition pending_writes {K R} (l : list (K * option R)) : list R := omap snd l.
Definition pending_deletes {K R} (l : list (K * option R)) : list K :=
  omap (λ e, match e.2 with None => Some e.1 | Some _ => None end) l.

Section overlay.
Context `{Countable K} {R : Type} (key : R → K).

Lemma elem_of_pending_writes (l : list (K * option R)) r :
  r ∈ pending_writes l ↔ ∃ k, (k, Some r) ∈ l.
Proof.
  unfold pending_writes. rewrite list_elem_of_omap. split.
  - intros ([k o] & Hin & E). cbn in E. subst. by exists k.
  - intros [k Hin]. by exists (k, Some r).
Qed.

Lemma elem_of_pending_deletes (l : list (K * option R)) k :
  k ∈ pending_deletes l ↔ (k, None) ∈ l.
Proof.
  unfold pending_deletes. rewrite list_elem_of_omap. split.
  - intros ([k' [r|]] & Hin & E); [done|]. by injection E as ->.
  - intros Hin. by exists (k, None).
Qed.

(** A list of pending writes stores each row under its own key. *)
Definition keyed (l : list (K * option R)) : Prop := ∀ k r, (k, Some r) ∈ l → key r = k.

Lemma NoDup_pending_writes l : keyed l → NoDup l.*1 → NoDup (key <$> pending_writes l).
Proof.
  intros Hk. induction l as [|[k [r|]] l IH]; cbn; intros Hn; [constructor| |].
  - apply NoDup_cons in Hn as [Hin Hn]. apply NoDup_cons. split; [|apply IH; [intros ??; eauto using list_elem_of_further|done]].
    intros (r' & E & [k' Hr']%elem_of_pending_writes)%list_elem_of_fmap. apply Hin.
    rewrite (Hk k r (list_elem_of_here _ _)) in E. rewrite E.
    rewrite (Hk k' r' (list_elem_of_further _ _ _ Hr')). apply elem_of_keys. by exists (Some r').
  - apply NoDup_cons in Hn as [Hin Hn]. apply IH; [intros ??; eauto using list_elem_of_further|done].
Qed.

(** Applying the pending writes of a map is its overlay. *)
Lemma overlay_lookup (w : gmap K (option R)) l (m : gmap K R) k :
  l ≡ₚ map_to_list w → keyed l →
  foldl (λ m row, <[key row := row]> m) (drop_all m (pending_deletes l)) (pending_writes l) !! k = overlay w m k.
Proof.
  intros Hl Hk.
  assert (Hin : ∀ k o, (k, o) ∈ l ↔ w !! k = Some o) by (intros; by rewrite Hl, elem_of_map_to_list).
  assert (Hn : NoDup l.*1) by (rewrite Hl; apply NoDup_fst_map_to_list).
  apply option_eq. intros r. rewrite planned_lookup by by apply NoDup_pending_writes.
  rewrite elem_of_pending_writes, elem_of_pending_deletes, list_elem_of_fmap.
  setoid_rewrite elem_of_pending_writes. setoid_rewrite Hin. unfold overlay. split.
  - intros [[[k' Hw] E]|(Hnw & Hnd & Hm)].
    + pose proof (Hk k' r) as Hk'. rewrite Hin in Hk'. rewrite <-E, (Hk' Hw), Hw. done.
    + destruct (w !! k) as [[r'|]|] eqn:Ew; [|done|done]. destruct Hnw. exists r'. split; [|by exists k].
      symmetry. apply (Hk k). by apply Hin.
  - destruct (w !! k) as [o|] eqn:Ew.
    + intros ->. left. split; [by exists k|]. apply (Hk k). by apply Hin.
    + intros Hm. right. split_and!; [|done|done]. intros (r' & -> & [k' Hw]).
      rewrite (Hk k' r') in Ew by by apply Hin. congruence.
Qed.

(** The records of a map of pending writes. *)
Lemma pending_keys (w : gmap K (option R)) l k :
  l ≡ₚ map_to_list w → keyed l →
  k ∈ key <$> pending_writes l ∨ k ∈ pending_deletes l ↔ is_Some (w !! k).
Proof.
  intros Hl Hk. rewrite elem_of_pending_deletes, list_elem_of_fmap. setoid_rewrite elem_of_pending_writes.
  assert (Hin : ∀ k o, (k, o) ∈ l ↔ w !! k = Some o) by (intros; by rewrite Hl, elem_of_map_to_list).
  split.
  - intros [(r & -> & k' & Hr)|Hd]; [|by exists None; apply Hin].
    rewrite (Hk k' r Hr). exists (Some r). by apply Hin.
  - intros [[r|] Hr]; apply Hin in Hr; [left|by right]. exists r. split; [by rewrite (Hk k r Hr)|by exists k].
Qed.

Lemma pending_once (w : gmap K (option R)) l :
  l ≡ₚ map_to_list w → keyed l → NoDup ((key <$> pending_writes l) ++ pending_deletes l).
Proof.
  intros Hl Hk. assert (Hn : NoDup l.*1) by (rewrite Hl; apply NoDup_fst_map_to_list).
  apply NoDup_app. split_and!; [by apply NoDup_pending_writes| |].
  - intros k (r & -> & [k' Hr]%elem_of_pending_writes)%list_elem_of_fmap Hd%elem_of_pending_deletes.
    rewrite (Hk k' r Hr) in Hd. by pose proof (NoDup_keys_unique l k' _ _ Hn Hr Hd).
  - clear Hl Hk.
    induction l as [|[k [r|]] l IH]; cbn in *; [constructor| |]; apply NoDup_cons in Hn as [Hin Hn].
    + by apply IH.
    + apply NoDup_cons. split; [|by apply IH].
      intros Hd%elem_of_pending_deletes. apply Hin, elem_of_keys. by exists None.
Qed.

(** Further writes and deletions on top. *)
Definition push_writes (w : gmap K (option R)) (rows : list R) (dels : list K) : gmap K (option R) :=
  foldl (λ w k, <[k := None]> w) (foldl (λ w row, <[key row := Some row]> w) w rows) dels.

Lemma push_deletes_lookup (w : gmap K (option R)) dels k :
  foldl (λ w k, <[k := None]> w) w dels !! k = if decide (k ∈ dels) then Some None else w !! k.
Proof.
  revert w. induction dels as [|x dels IH]; intros w; cbn; [by rewrite decide_False by apply not_elem_of_nil|].
  rewrite IH, lookup_insert. destruct (decide (k ∈ x :: dels)) as [Hk|Hk]; rewrite elem_of_cons in Hk;
    destruct (decide (k ∈ dels)), (decide (x = k)); subst; try done; naive_solver.
Qed.

Lemma push_rows_lookup (w : gmap K (option R)) rows k o :
  NoDup (key <$> rows) →
  foldl (λ w row, <[key row := Some row]> w) w rows !! k = Some o ↔
    (∃ row, row ∈ rows ∧ key row = k ∧ o = Some row) ∨ (k ∉ key <$> rows ∧ w !! k = Some o).
Proof.
  intros Hn. replace (foldl (λ w row, <[key row := Some row]> w) w rows)
    with (foldl (λ m e, <[e.1 := e.2]> m) w ((λ row, (key row, Some row)) <$> rows)).
  2:{ clear. revert w. induction rows; intros w; cbn; auto. }
  assert (Hk : ((λ row, (key row, Some row)) <$> rows).*1 = key <$> rows) by (by rewrite <-list_fmap_compose).
  rewrite foldl_insert_lookup, Hk by (intros; eapply NoDup_keys_unique; [by rewrite Hk|done..]).
  rewrite list_elem_of_fmap. f_equiv. split; [intros (row & [= -> ->] & ?); eauto|].
  intros (row & ? & <- & ->). eauto.
Qed.

Lemma overlay_push (w : gmap K (option R)) rows dels (m m' : gmap K R) k :
  NoDup ((key <$> rows) ++ dels) → (∀ k, m' !! k = overlay w m k) →
  foldl (λ m row, <[key row := row]> m) (drop_all m' dels) rows !! k = overlay (push_writes w rows dels) m k.
Proof.
  intros (Hn & Hdis & _)%NoDup_app Hm. apply option_eq. intros r. rewrite planned_lookup, Hm by done.
  unfold overlay at 2, push_writes. rewrite push_deletes_lookup. destruct (decide (k ∈ dels)) as [Hd|Hd].
  { split; [|done]. intros [[Hr <-]|(_ & ? & _)]; [|done]. destruct (Hdis (key r)); [|done].
    by apply list_elem_of_fmap_2. }
  destruct (foldl (λ w row, <[key row := Some row]> w) w rows !! k) as [o|] eqn:Ew.
  - apply push_rows_lookup in Ew as [(row & Hrow & <- & ->)|[Hk Ew]]; [| |done].
    + split; [|intros [= ->]; auto]. intros [[Hr E]|(Hk & _)].
      * f_equal. apply list_elem_of_lookup in Hrow as [i Hi], Hr as [j Hj].
        assert (i = j) as <-; [|congruence].
        eapply NoDup_lookup; [exact Hn|rewrite list_lookup_fmap, Hi; done|by rewrite list_lookup_fmap, Hj; cbn; rewrite E].
      * destruct Hk. by apply list_elem_of_fmap_2.
    + unfold overlay. rewrite Ew. split; [|intros ->; auto]. intros [[Hr <-]|(_ & _ & ?)]; [|done].
      destruct Hk. by apply list_elem_of_fmap_2.
  - assert (Hnone : k ∉ key <$> rows ∧ w !! k = None).
    { split.
      - intros (row & -> & Hrow)%list_elem_of_fmap.
        assert (foldl (λ w row, <[key row := Some row]> w) w rows !! key row = Some (Some row)); [|congruence].
        apply push_rows_lookup; [done|]. left. by exists row.
      - destruct (w !! k) as [o|] eqn:E; [|done].
        destruct (decide (k ∈ key <$> rows)) as [(row & -> & Hrow)%list_elem_of_fmap|Hk].
        + assert (foldl (λ w row, <[key row := Some row]> w) w rows !! key row = Some (Some row)); [|congruence].
          apply push_rows_lookup; [done|]. left. by exists row.
        + assert (foldl (λ w row, <[key row := Some row]> w) w rows !! k = Some o); [|congruence].
          apply push_rows_lookup; [done|]. by right. }
    destruct Hnone as [Hk E]. unfold overlay. rewrite E. split; [|auto].
    intros [[Hr <-]|(_ & _ & ?)]; [|done]. destruct Hk. by apply list_elem_of_fmap_2.
Qed.

(** The three cases of a push. *)
Lemma push_written w rows dels row :
  NoDup ((key <$> rows) ++ dels) → row ∈ rows → push_writes w rows dels !! key row = Some (Some row).
Proof.
  intros (Hn & Hdis & _)%NoDup_app Hrow. unfold push_writes.
  rewrite push_deletes_lookup, decide_False by (apply Hdis; by apply list_elem_of_fmap_2).
  apply push_rows_lookup; [done|]. left. by exists row.
Qed.

Lemma push_deleted w rows dels k : k ∈ dels → push_writes w rows dels !! k = Some None.
Proof. intros Hk. unfold push_writes. by rewrite push_deletes_lookup, decide_True. Qed.

Lemma push_other w rows dels k :
  k ∉ key <$> rows → k ∉ dels → push_writes w rows dels !! k = w !! k.
Proof.
  intros Hk Hd. unfold push_writes. rewrite push_deletes_lookup, decide_False by done. clear Hd.
  revert w. induction rows as [|row rows IH]; intros w; cbn in *; [done|].
  apply not_elem_of_cons in Hk as [Hne Hk]. rewrite IH by done. by apply lookup_insert_ne.
Qed.

(** A push holds its rows and deletions, and its rows sit under their keys. *)
Lemma push_is_Some w rows dels k :
  NoDup ((key <$> rows) ++ dels) →
  is_Some (push_writes w rows dels !! k) ↔ (k ∈ key <$> rows ∨ k ∈ dels) ∨ is_Some (w !! k).
Proof.
  intros Hn. destruct (decide (k ∈ dels)) as [Hd|Hd]; [rewrite push_deleted by done; naive_solver|].
  destruct (decide (k ∈ key <$> rows)) as [(row & -> & Hrow)%list_elem_of_fmap|Hk].
  - rewrite push_written by done. split; [|by eauto]. intros _. left. left. by apply list_elem_of_fmap_2.
  - rewrite push_other by done. naive_solver.
Qed.

Lemma push_keyed w rows dels k row :
  NoDup ((key <$> rows) ++ dels) → (∀ k row, w !! k = Some (Some row) → key row = k) →
  push_writes w rows dels !! k = Some (Some row) → key row = k.
Proof.
  intros Hn Hw. destruct (decide (k ∈ dels)) as [Hd|Hd]; [by rewrite push_deleted|].
  destruct (decide (k ∈ key <$> rows)) as [(r & -> & Hrow)%list_elem_of_fmap|Hk].
  - rewrite push_written by done. by intros [= ->].
  - rewrite push_other by done. apply Hw.
Qed.
End overlay.

(** ** Packing one delta *)

Definition row_key (row : StoredWork) : string := nw_key (work (record row)).
Definition state_key (row : StateRecord) : string * string := (sr_collection row, sr_key row).
Definition command (d : CommitDelta) (key : string) : ResolvedFields := default FPreserve (d_work_fields d !! key).

(** The fields a packing stores. *)
Definition packed_fields (p : packing) (full : store) (id : RecordIdentity) : option Fields :=
  match id.1 with
  | None =>
      match pk_work p !! id.2 with
      | Some (Some _) =>
          Some (resolved_apply (default FPreserve (pk_commands p !! id.2)) (default ∅ (full !! id)))
      | Some None => None
      | None => full !! id
      end
  | Some c =>
      match pk_states p !! (c, id.2) with Some o => sr_fields <$> o | None => full !! id end
  end.

(** Commands exist only for written rows, and rows sit under their keys. *)
Record packing_ok (p : packing) : Prop := mkPackingOk {
  po_work : ∀ k row, pk_work p !! k = Some (Some row) → row_key row = k;
  po_states : ∀ i row, pk_states p !! i = Some (Some row) → state_key row = i;
  po_commands : ∀ k, is_Some (pk_commands p !! k) → ∃ row, pk_work p !! k = Some (Some row);
  po_versions : ∀ id v, pk_versions p !! id = Some v → version_id v = id;
  po_work_versions : ∀ k, is_Some (pk_versions p !! (None, k)) ↔ is_Some (pk_work p !! k);
  po_state_versions : ∀ i, is_Some (pk_versions p !! (Some i.1, i.2)) ↔ is_Some (pk_states p !! i);
}.

Lemma pack_rows_Ok d rows p p' :
  NoDup (row_key <$> rows) → try_fold (pack_row d) p rows = Ok p' →
  pk_work p' = foldl (λ w row, <[row_key row := Some row]> w) (pk_work p) rows ∧
  pk_states p' = pk_states p ∧ pk_versions p' = pk_versions p ∧ pk_next p' = pk_next p ∧
  (∀ k, k ∉ row_key <$> rows → pk_commands p' !! k = pk_commands p !! k) ∧
  ∀ row, row ∈ rows →
    pk_commands p' !! row_key row =
      Some (resolved_then (default FPreserve (pk_commands p !! row_key row)) (command d (row_key row))) ∧
    (pk_work p !! row_key row = Some None → is_replace (command d (row_key row)) = true).
Proof.
  revert p. induction rows as [|row rows IH]; intros p Hn Hf; cbn in Hn, Hf.
  { injection Hf as <-. split_and!; try done. by intros ? ?%elem_of_nil. }
  apply NoDup_cons in Hn as [Hrow Hn]. apply bind_Ok in Hf as (p1 & H1 & Hf).
  destruct (IH p1 Hn Hf) as (Ew & Es & Ev & En & Ho & Hr). unfold pack_row in H1.
  fold (row_key row) (command d (row_key row)) in H1. case_match eqn:Hg; [done|]. injection H1 as <-. cbn in *.
  split_and!; try done.
  - intros k [Hne Hk]%not_elem_of_cons. rewrite Ho by done. by rewrite lookup_insert_ne.
  - intros r [->|Hin]%elem_of_cons.
    + rewrite Ho, lookup_insert_eq by done. split; [done|]. intros E. rewrite E in Hg. cbn in Hg.
      apply orb_false_iff in Hg as [Hg _]. by apply negb_false_iff in Hg.
    + assert (row_key r ≠ row_key row) by (intros E; apply Hrow; rewrite <-E; by apply list_elem_of_fmap_2).
      destruct (Hr r Hin) as [E1 E2]. rewrite lookup_insert_ne in E1 by done. split; [done|]. intros E. apply E2. by rewrite lookup_insert_ne.
Qed.

Lemma pack_deletions_Ok l p :
  let p' := foldl pack_deletion p l in
  pk_work p' = foldl (λ w k, <[k := None]> w) (pk_work p) l ∧
  pk_states p' = pk_states p ∧ pk_versions p' = pk_versions p ∧
  ∀ k, pk_commands p' !! k = if decide (k ∈ l) then None else pk_commands p !! k.
Proof.
  revert p. induction l as [|x l IH]; intros p; cbn.
  { by split_and!. }
  destruct (IH (pack_deletion p x)) as (Ew & Es & Ev & Hc). split_and!; try done.
  intros k. rewrite Hc. cbn. rewrite lookup_delete.
  destruct (decide (k ∈ x :: l)) as [Hk|Hk]; rewrite elem_of_cons in Hk;
    destruct (decide (k ∈ l)), (decide (x = k)); subst; try done; naive_solver.
Qed.

(** What packing a delta does. *)
Lemma pack_delta_Ok p d p' :
  listed d → pack_delta p d = Ok p' →
  pk_work p' = push_writes row_key (pk_work p) (d_work d) (d_deleted_work d) ∧
  pk_states p' = push_writes state_key (pk_states p) (d_state d) (d_deleted_state d) ∧
  pk_versions p' = foldl (λ m v, <[version_id v := v]> m) (pk_versions p) (d_versions d) ∧
  pk_next p' = d_next_sequence d ∧
  (∀ k, k ∉ row_keys d → pk_commands p' !! k = if decide (k ∈ d_deleted_work d) then None else pk_commands p !! k) ∧
  ∀ row, row ∈ d_work d →
    pk_commands p' !! row_key row =
      Some (resolved_then (default FPreserve (pk_commands p !! row_key row)) (command d (row_key row))) ∧
    (pk_work p !! row_key row = Some None → is_replace (command d (row_key row)) = true).
Proof.
  intros [_ _ Hw _ _]. pose proof Hw as (Hn & Hdis & _)%NoDup_app.
  unfold pack_delta. intros ([] & _ & (p1 & H1 & [= <-])%bind_Ok)%bind_Ok. cbn.
  destruct (pack_rows_Ok _ _ _ _ Hn H1) as (Ew & Es & Ev & En & Ho & Hr).
  destruct (pack_deletions_Ok (d_deleted_work d) p1) as (Dw & Ds & Dv & Dc).
  rewrite Dw, Ds, Dv, Ew, Es, Ev. split_and!; try done.
  - intros k Hk. rewrite Dc, Ho by done. done.
  - intros row Hrow. rewrite Dc, decide_False; [by apply Hr|]. apply Hdis.
    by apply (list_elem_of_fmap_2 row_key).
Qed.

Lemma push_versions_lookup (m : gmap RecordIdentity RecordVersion) l id v :
  NoDup (version_id <$> l) →
  foldl (λ m v, <[version_id v := v]> m) m l !! id = Some v ↔
    (v ∈ l ∧ version_id v = id) ∨ (id ∉ version_id <$> l ∧ m !! id = Some v).
Proof.
  intros Hn. rewrite (planned_lookup version_id l m [] id v Hn). cbn.
  split; intros [?|?]; auto; right; [naive_solver|]. split_and!; try naive_solver. apply not_elem_of_nil.
Qed.

Lemma put_versions_lookup (m : gmap RecordIdentity Z) (l : list RecordVersion) id z :
  NoDup (version_id <$> l) →
  foldl put_version m l !! id = Some z ↔
    (∃ v, v ∈ l ∧ version_id v = id ∧ rv_version v = z) ∨ (id ∉ version_id <$> l ∧ m !! id = Some z).
Proof.
  intros Hn. replace (foldl put_version m l)
    with (foldl (λ m e, <[e.1 := e.2]> m) m ((λ v, (version_id v, rv_version v)) <$> l)).
  2:{ clear. revert m. induction l; intros m; cbn; auto. }
  assert (Hk : ((λ v, (version_id v, rv_version v)) <$> l).*1 = version_id <$> l) by (by rewrite <-list_fmap_compose).
  rewrite foldl_insert_lookup, Hk by (intros; eapply NoDup_keys_unique; [by rewrite Hk|done..]).
  rewrite list_elem_of_fmap. f_equiv. split; [intros (v & [= -> ->] & ?); eauto|].
  intros (v & ? & <- & <-). eauto.
Qed.

Lemma pushed_version_ids (m : gmap RecordIdentity RecordVersion) l id :
  NoDup (version_id <$> l) →
  is_Some (foldl (λ m v, <[version_id v := v]> m) m l !! id) ↔ id ∈ version_id <$> l ∨ is_Some (m !! id).
Proof.
  intros Hn. unfold is_Some. setoid_rewrite push_versions_lookup; [|done..]. split.
  - intros [v [[Hv <-]|[_ Hm]]]; [left; by apply list_elem_of_fmap_2|right; by exists v].
  - intros Hid. destruct (decide (id ∈ version_id <$> l)) as [(v & -> & Hv)%list_elem_of_fmap|Hn'].
    + exists v. by left.
    + destruct Hid as [?|[v Hv]]; [done|]. exists v. by right.
Qed.

Lemma pack_delta_ok p d p' : packing_ok p → listed d → pack_delta p d = Ok p' → packing_ok p'.
Proof.
  intros Hp Hd (Ew & Es & Ev & _ & Hc & Hr)%pack_delta_Ok; [|done].
  pose proof Hd as [Lw Ls Hwn Hsn Hvn]. split.
  - intros k row. rewrite Ew. apply push_keyed; [done|]. apply (po_work p Hp).
  - intros i row. rewrite Es. apply push_keyed; [done|]. apply (po_states p Hp).
  - intros k Hk. rewrite Ew. destruct (decide (k ∈ row_keys d)) as [(row & -> & Hrow)%list_elem_of_fmap|Hn].
    + exists row. by apply (push_written row_key).
    + rewrite Hc in Hk by done. destruct (decide (k ∈ d_deleted_work d)) as [|Hdel]; [by destruct Hk|].
      rewrite push_other by done. by apply (po_commands p Hp).
  - intros id v. rewrite Ev, push_versions_lookup by done. intros [[_ ?]|[_ ?]]; [done|by apply (po_versions p Hp)].
  - intros k. rewrite Ev, Ew, pushed_version_ids, push_is_Some, (po_work_versions p Hp) by done.
    fold (version_ids d). by rewrite Lw.
  - intros i. rewrite Ev, Es, pushed_version_ids, push_is_Some, (po_state_versions p Hp) by done.
    fold (version_ids d). by rewrite Ls.
Qed.

(** The fields a packed delta stores, from the ones of the packing before. *)
Lemma deleted_gone (m : store) d id :
  listed d → id ∈ store_deletes d → store_after m d !! id = None.
Proof.
  intros Hd Hid. apply eq_None_not_Some. intros [f Hf].
  apply store_after_lookup in Hf as [Hin|(_ & ? & _)]; [|done|done].
  assert (Hk : id ∈ (store_writes m d).*1) by (apply elem_of_keys; by exists f).
  destruct Hd as [_ _ Hw Hs _]. rewrite store_writes_keys in Hk. unfold store_deletes in Hid.
  apply elem_of_app in Hk as [(k & -> & Hk)%list_elem_of_fmap|([c k] & -> & Hk)%list_elem_of_fmap];
    apply elem_of_app in Hid as [(k' & E & Hk')%list_elem_of_fmap|([c' k'] & E & Hk')%list_elem_of_fmap]; try done;
    cbn in E; injection E as ->; subst.
  - apply NoDup_app in Hw as (_ & Hw & _). by apply (Hw k').
  - apply NoDup_app in Hs as (_ & Hs & _). by apply (Hs (c', k')).
Qed.

Lemma pack_delta_state (p p' : packing) (d : CommitDelta) (full m : store) (c k : string) :
  listed d → pack_delta p d = Ok p' → (∀ id, m !! id = packed_fields p full id) →
  store_after m d !! (Some c, k) = packed_fields p' full (Some c, k).
Proof.
  intros Hd (_ & Es & _)%pack_delta_Ok Hm; [|done]. pose proof Hd as [_ Ls _ Hsn _].
  unfold packed_fields. cbn. rewrite Es.
  destruct (decide ((c, k) ∈ d_deleted_state d)) as [Hdel|Hdel].
  { rewrite push_deleted by done. apply deleted_gone; [done|]. unfold store_deletes. apply elem_of_app. right.
    by apply (list_elem_of_fmap_2 (λ i : string * string, (Some i.1, i.2)) _ (c, k)). }
  destruct (decide ((c, k) ∈ state_keys d)) as [(row & E & Hrow)%list_elem_of_fmap|Hn].
  - injection E as -> ->. rewrite store_after_state by done.
    change (sr_collection row, sr_key row) with (state_key row).
    by rewrite (push_written state_key) by done.
  - rewrite push_other by done. rewrite store_after_other, Hm; [done|done|].
    rewrite (Ls (c, k)). tauto.
Qed.

Lemma pack_delta_work (p p' : packing) (d : CommitDelta) (full m : store) (k : string) :
  packing_ok p → listed d → pack_delta p d = Ok p' → (∀ id, m !! id = packed_fields p full id) →
  store_after m d !! (None, k) = packed_fields p' full (None, k).
Proof.
  intros Hp Hd (Ew & _ & _ & _ & Hc & Hr)%pack_delta_Ok Hm; [|done].
  pose proof Hd as [Lw _ Hwn _ _]. unfold packed_fields. cbn. rewrite Ew.
  destruct (decide (k ∈ d_deleted_work d)) as [Hdel|Hdel].
  { rewrite push_deleted by done. apply deleted_gone; [done|]. unfold store_deletes. apply elem_of_app. left.
    by apply list_elem_of_fmap_2. }
  destruct (decide (k ∈ row_keys d)) as [(row & -> & Hrow)%list_elem_of_fmap|Hn].
  - rewrite (store_after_row m d row Hd Hrow), Hm. change (nw_key (work (record row))) with (row_key row).
    rewrite (push_written row_key) by done. destruct (Hr row Hrow) as [-> Hrep]. cbn [default].
    fold (command d (row_key row)). unfold packed_fields. cbn. f_equal. rewrite resolved_then_apply.
    assert (Hnone : (∀ w, pk_work p !! row_key row ≠ Some (Some w)) → pk_commands p !! row_key row = None).
    { intros Hw. apply eq_None_not_Some. intros [w Hw']%(po_commands p Hp). by apply (Hw w). }
    destruct (pk_work p !! row_key row) as [[w|]|]; [done| |].
    + rewrite Hnone by done. specialize (Hrep eq_refl). by destruct (command d (row_key row)).
    + by rewrite Hnone.
  - rewrite push_other by done. rewrite store_after_other, Hm; [|done|rewrite Lw; tauto].
    unfold packed_fields. cbn. rewrite Hc by done. by rewrite decide_False.
Qed.

(** ** Packing a sequence of deltas *)

Lemma sorted_states_perm {A} (m : gmap (string * string) A) : sorted_states m ≡ₚ map_to_list m.
Proof. apply merge_sort_Permutation. Qed.

Lemma elem_of_sorted_versions (m : gmap RecordIdentity RecordVersion) v :
  v ∈ sorted_versions m ↔ ∃ id, m !! id = Some v.
Proof.
  unfold sorted_versions. rewrite merge_sort_Permutation, list_elem_of_fmap. setoid_rewrite <-elem_of_map_to_list.
  split; [intros ([id v'] & -> & ?); by exists id|intros [id ?]; by exists (id, v)].
Qed.

Section packed.
Context (p : packing) (Hp : packing_ok p).

Lemma work_keyed : keyed row_key (btree_list (pk_work p)).
Proof. intros k row Hin. apply (po_work p Hp). by apply elem_of_btree_list. Qed.

Lemma states_keyed : keyed state_key (sorted_states (pk_states p)).
Proof.
  intros i row Hin. apply (po_states p Hp). rewrite sorted_states_perm in Hin. by apply elem_of_map_to_list.
Qed.

Lemma packed_version_ids id : id ∈ version_ids (packed p) ↔ is_Some (pk_versions p !! id).
Proof.
  unfold version_ids. cbn. rewrite list_elem_of_fmap. setoid_rewrite elem_of_sorted_versions. split.
  - intros (v & -> & id' & Hv). rewrite (po_versions p Hp id' v Hv). by exists v.
  - intros [v Hv]. exists v. rewrite (po_versions p Hp id v Hv). split; [done|by exists id].
Qed.

Lemma packed_versions_once : NoDup (version_ids (packed p)).
Proof.
  unfold version_ids. cbn. unfold sorted_versions. rewrite merge_sort_Permutation.
  rewrite <-list_fmap_compose.
  assert (E : version_id ∘ snd <$> map_to_list (pk_versions p) = (map_to_list (pk_versions p)).*1).
  { apply list_fmap_ext. intros i [id v] Hi%list_elem_of_lookup_2. cbn.
    apply (po_versions p Hp). by apply elem_of_map_to_list. }
  rewrite E. apply NoDup_fst_map_to_list.
Qed.

Lemma listed_packed : listed (packed p).
Proof.
  split.
  - intros k. rewrite packed_version_ids, (po_work_versions p Hp). symmetry.
    apply (pending_keys row_key); [apply btree_list_perm|apply work_keyed].
  - intros i. rewrite packed_version_ids, (po_state_versions p Hp). symmetry.
    apply (pending_keys state_key); [apply sorted_states_perm|apply states_keyed].
  - apply (pending_once row_key (pk_work p)); [apply btree_list_perm|apply work_keyed].
  - apply (pending_once state_key (pk_states p)); [apply sorted_states_perm|apply states_keyed].
  - apply packed_versions_once.
Qed.

Lemma packed_rows m k : apply_rows m (packed p) !! k = overlay (pk_work p) m k.
Proof. apply (overlay_lookup row_key); [apply btree_list_perm|apply work_keyed]. Qed.

Lemma packed_states m i : apply_states m (packed p) !! i = overlay (pk_states p) m i.
Proof. apply (overlay_lookup state_key); [apply sorted_states_perm|apply states_keyed]. Qed.

Lemma packed_versions_lookup (m : gmap RecordIdentity Z) id :
  apply_versions m (packed p) !! id =
    match pk_versions p !! id with Some v => Some (rv_version v) | None => m !! id end.
Proof.
  apply option_eq. intros z. unfold apply_versions. rewrite put_versions_lookup by apply packed_versions_once.
  fold (version_ids (packed p)). rewrite packed_version_ids. setoid_rewrite elem_of_sorted_versions.
  destruct (pk_versions p !! id) as [v|] eqn:E.
  - split.
    + intros [(v' & [id' Hv'] & Ev & <-)|[[] _]]; [|by exists v]. rewrite (po_versions p Hp id' v' Hv') in Ev. congruence.
    + intros [= <-]. left. exists v. split; [by exists id|]. split; [by apply (po_versions p Hp)|done].
  - split; [|intros ?; right; split; [by intros [? ?]|done]]. intros [(v & [id' Hv] & <- & _)|[_ ?]]; [|done].
    rewrite <-(po_versions p Hp id' v Hv) in Hv. congruence.
Qed.

Lemma packed_store (full : store) id : store_after full (packed p) !! id = packed_fields p full id.
Proof.
  pose proof listed_packed as Hl. unfold packed_fields. destruct id as [[c|] k]; cbn [fst snd].
  - destruct (pk_states p !! (c, k)) as [[row|]|] eqn:E; cbn [fmap option_fmap option_map].
    + pose proof (po_states p Hp _ _ E) as Hk. injection Hk as <- <-.
      apply store_after_state; [done|]. cbn. apply elem_of_pending_writes. exists (state_key row).
      rewrite sorted_states_perm. by apply elem_of_map_to_list.
    + apply deleted_gone; [done|]. unfold store_deletes. apply elem_of_app. right.
      apply (list_elem_of_fmap_2 (λ i : string * string, (Some i.1, i.2)) _ (c, k)). cbn.
      apply elem_of_pending_deletes. rewrite sorted_states_perm. by apply elem_of_map_to_list.
    + apply store_after_other; [done|]. rewrite packed_version_ids, (po_state_versions p Hp (c, k)), E.
      by intros [? ?].
  - destruct (pk_work p !! k) as [[row|]|] eqn:E; cbn [fmap option_fmap option_map].
    + pose proof (po_work p Hp _ _ E) as <-.
      apply (store_after_row full (packed p) row); [done|]. cbn. apply elem_of_pending_writes.
      exists (row_key row). by apply elem_of_btree_list.
    + apply deleted_gone; [done|]. unfold store_deletes. apply elem_of_app. left.
      apply list_elem_of_fmap_2. cbn. apply elem_of_pending_deletes. by apply elem_of_btree_list.
    + apply store_after_other; [done|]. rewrite packed_version_ids, (po_work_versions p Hp), E.
      by intros [? ?].
Qed.
End packed.

(** The deltas packed so far, next to the deltas applied one by one. *)
Record packs (p : packing) (initial : Z) (deltas : list CommitDelta) : Prop := mkPacks {
  ps_ok : packing_ok p;
  ps_rows : ∀ m k, foldl apply_rows m deltas !! k = overlay (pk_work p) m k;
  ps_states : ∀ m i, foldl apply_states m deltas !! i = overlay (pk_states p) m i;
  ps_versions : ∀ m id,
    foldl apply_versions m deltas !! id =
      match pk_versions p !! id with Some v => Some (rv_version v) | None => m !! id end;
  ps_store : ∀ full id, foldl store_after full deltas !! id = packed_fields p full id;
  ps_next : pk_next p = foldl (λ _ d, d_next_sequence d) initial deltas;
}.

Lemma packs_nil initial : packs (mkPacking ∅ ∅ ∅ ∅ ∅ initial) initial [].
Proof.
  split; cbn; try done.
  - split; cbn; intros *; rewrite ?lookup_empty; done.
  - intros full [[c|] k]; unfold packed_fields; cbn; by rewrite lookup_empty.
Qed.

Lemma packs_versions (pv : gmap RecordIdentity RecordVersion) (m m' : gmap RecordIdentity Z) d id :
  NoDup (version_ids d) →
  (∀ id, m' !! id = match pv !! id with Some v => Some (rv_version v) | None => m !! id end) →
  apply_versions m' d !! id =
    match foldl (λ m v, <[version_id v := v]> m) pv (d_versions d) !! id with
    | Some v => Some (rv_version v) | None => m !! id end.
Proof.
  unfold version_ids. intros Hn Hm. apply option_eq. intros z. unfold apply_versions. rewrite put_versions_lookup by done.
  destruct (decide (id ∈ version_id <$> d_versions d)) as [(v & -> & Hv)%list_elem_of_fmap|Hid].
  - rewrite (proj2 (push_versions_lookup pv (d_versions d) (version_id v) v Hn)) by auto. split.
    + intros [(v' & Hv' & E & <-)|[[] _]]; [|by apply list_elem_of_fmap_2]. do 2 f_equal.
      apply list_elem_of_lookup in Hv as [i Hi], Hv' as [j Hj].
      assert (i = j) as <-; [|congruence].
      eapply NoDup_lookup; [exact Hn|rewrite list_lookup_fmap, Hi; done|by rewrite list_lookup_fmap, Hj; cbn; rewrite E].
    + intros [= <-]. left. by exists v.
  - assert (E : foldl (λ m v, <[version_id v := v]> m) pv (d_versions d) !! id = pv !! id).
    { apply option_eq. intros v. rewrite push_versions_lookup by done. split; [|auto].
      intros [[Hv <-]|[_ ?]]; [|done]. destruct Hid. by apply list_elem_of_fmap_2. }
    rewrite E, Hm. split; [|auto]. intros [(v & Hv & <- & _)|[_ ?]]; [|done]. destruct Hid. by apply list_elem_of_fmap_2.
Qed.

Lemma packs_snoc p p' initial deltas d :
  packs p initial deltas → listed d → pack_delta p d = Ok p' → packs p' initial (deltas ++ [d]).
Proof.
  intros [Hp Hw Hs Hv Hf _] Hd Hpack. pose proof Hpack as (Ew & Es & Ev & En & _)%pack_delta_Ok; [|done].
  pose proof Hd as [_ _ Hwn Hsn Hvn]. split.
  - by apply (pack_delta_ok p d p').
  - intros m k. rewrite foldl_app, Ew. apply (overlay_push row_key); auto.
  - intros m i. rewrite foldl_app, Es. apply (overlay_push state_key); auto.
  - intros m id. rewrite foldl_app, Ev. apply packs_versions; auto.
  - intros full [[c|] k]; rewrite foldl_app; cbn [foldl].
    + apply (pack_delta_state p); auto.
    + apply (pack_delta_work p); auto.
  - by rewrite foldl_app, En.
Qed.

Lemma pack_all initial deltas : ∀ p done_ p',
  packs p initial done_ → Forall listed deltas → try_fold pack_delta p deltas = Ok p' →
  packs p' initial (done_ ++ deltas).
Proof.
  induction deltas as [|d deltas IH]; intros p done_ p' Hp Hl Hf; cbn in Hf.
  { injection Hf as <-. by rewrite app_nil_r. }
  apply Forall_cons in Hl as [Hd Hl]. apply bind_Ok in Hf as (p1 & H1 & Hf).
  rewrite (cons_middle d), app_assoc. apply (IH p1); [|done|done]. by apply (packs_snoc p).
Qed.

(** C19. Packing is sequential composition.  When a sequence of deltas, each
    listing its records once, packs into one delta, applying the packed delta
    gives the work rows, the state rows, the record versions, the stored
    fields and the next insertion sequence that applying the deltas one after
    the other gives, from any starting content; the packed delta lists its
    records once as well. *)
Theorem combine_deltas_sequential deltas initial D :
  Forall listed deltas → combine_deltas deltas initial = Ok D →
  listed D ∧
  (∀ m, apply_rows m D = foldl apply_rows m deltas) ∧
  (∀ m, apply_states m D = foldl apply_states m deltas) ∧
  (∀ m, apply_versions m D = foldl apply_versions m deltas) ∧
  (∀ full, store_after full D = foldl store_after full deltas) ∧
  d_next_sequence D = foldl (λ _ d, d_next_sequence d) initial deltas.
Proof.
  intros Hl (p & Hf & ([] & _ & [= <-])%bind_Ok)%bind_Ok.
  apply (pack_all initial deltas _ []) in Hf as [Hp Hw Hs Hv Hst Hn]; [|apply packs_nil|done].
  cbn [app] in *. split_and!; [by apply listed_packed| | | | |done].
  - intros m. apply map_eq. intros k. by rewrite packed_rows, Hw.
  - intros m. apply map_eq. intros i. by rewrite packed_states, Hs.
  - intros m. apply map_eq. intros id. rewrite Hv. by apply packed_versions_lookup.
  - intros full. apply map_eq. intros id. by rewrite packed_store, Hst.
Qed.

(** The planner's deltas list their records once. *)
Lemma plan_listed `{Sha256} g s now schema s' d :
  snapshot_ok s → NoDup (group_ids g) → plan_commit_group g s now schema = Ok (s', d) → listed d.
Proof.
  intros Hs Hg Hp. destruct (plan_commit_cases _ _ _ _ _ _ Hs Hg Hp) as [(reason & _ & ->)|(s2 & Hcm)].
  - apply listed_empty.
  - by destruct (committed_listed _ _ _ _ _ _ Hg Hcm) as [? _].
Qed.

(** A second group after the sample one: the new work "c" is deleted, and "a"
    changes its priority. *)
Definition next_group : CommitGroup :=
  mkCommitGroup "r2" [] [] []
    [mkUnclaimedUpdate "c" (Version 1) UDelete;
     mkUnclaimedUpdate "a" (Version 3) (Patch (mkWorkPatch (Some 2) None ∅ None))] None.
Definition next_result : QueueResult (RecordSnapshot * CommitDelta) :=
  Eval vm_compute in @plan_commit_group toy_sha next_group plan_after 10 plan_schema.
Definition next_after : RecordSnapshot := match next_result with Ok (s, _) => s | Err _ => plan_after end.
Definition next_delta : CommitDelta := match next_result with Ok (_, d) => d | Err _ => plan_delta end.
Definition sample_packed : CommitDelta :=
  Eval vm_compute in match combine_deltas [plan_delta; next_delta] 2 with Ok d => d | Err _ => plan_delta end.

Lemma next_planned :
  @plan_commit_group toy_sha next_group plan_after 10 plan_schema = Ok (next_after, next_delta).
Proof. vm_compute. reflexivity. Qed.

Lemma next_ids_distinct : NoDup (group_ids next_group).
Proof. apply (bool_decide_unpack _). vm_compute. exact I. Qed.

Lemma plan_after_ok : snapshot_ok plan_after.
Proof. exact (@plan_ok toy_sha _ _ _ _ _ _ plan_snapshot_ok plan_ids_distinct plan_committed). Qed.

Lemma combine_deltas_sequential_witness :
  (∀ full, store_after full sample_packed = store_after (store_after full plan_delta) next_delta) ∧
  row_keys sample_packed = ["a"; "b"] ∧ d_deleted_work sample_packed = ["c"].
Proof.
  split; [|by vm_compute].
  apply (combine_deltas_sequential [plan_delta; next_delta] 2 sample_packed).
  - apply Forall_cons. split; [|apply Forall_singleton].
    + exact (@plan_listed toy_sha _ _ _ _ _ _ plan_snapshot_ok plan_ids_distinct plan_committed).
    + exact (@plan_listed toy_sha _ _ _ _ _ _ plan_after_ok next_ids_distinct next_planned).
  - vm_compute. reflexivity.
Defined.
