(* ===== verification/Engine.v ===== *)
(** Shared vocabulary of [fireweed-engine/src]: the error model ([error.rs]) with
    its durable projection, queue keys and log positions ([types.rs]), the
    assignment-epoch fence ([epoch.rs]) and authorization ([auth.rs]). *)
From S2P Require Import Prelude Identity.

#[local] Open Scope string_scope.

(** ** Errors *)

Inductive DurableIntegrityStage :=
| Manifest | Header | Bounds | RecordCrc32c | FrameCrc32c | StageSha256 | Payload | Position.
#[export] Instance DurableIntegrityStage_eq_dec : EqDecision DurableIntegrityStage.
Proof. solve_decision. Defined.

Definition stage_token (s : DurableIntegrityStage) : string :=
  match s with
  | Manifest => "manifest"
  | Header => "header"
  | Bounds => "bounds"
  | RecordCrc32c => "record_crc32c"
  | FrameCrc32c => "frame_crc32c"
  | StageSha256 => "sha256"
  | Payload => "payload"
  | Position => "position"
  end.

Definition stage_parse (token : string) : option DurableIntegrityStage :=
  if String.eqb token "manifest" then Some Manifest
  else if String.eqb token "header" then Some Header
  else if String.eqb token "bounds" then Some Bounds
  else if String.eqb token "record_crc32c" then Some RecordCrc32c
  else if String.eqb token "frame_crc32c" then Some FrameCrc32c
  else if String.eqb token "sha256" then Some StageSha256
  else if String.eqb token "payload" then Some Payload
  else if String.eqb token "position" then Some Position
  else None.

Inductive EngineError :=
| NotFound
| QueueDefinitionConflict
| Invalid (why : string)
| Terminal
| StaleLease
| Superseded
| Unavailable
| Conflict
| BatchTooLarge
| RequestIdConflict
| Paused (drain_intake : bool)
| RequestExpired
| EpochFenced
| Forbidden (why : string)
| EntitySchemaViolation (msg : string)
| RequestTooLarge (requested limit : Z)
| Backpressure (resource : string)
| Storage (msg : string)
| DurableDataCorrupt (stage : DurableIntegrityStage) (manifest_index : Z) (locator : string)
| ChangeRecordsRequireDurableLog.
#[export] Instance EngineError_eq_dec : EqDecision EngineError.
Proof. solve_decision. Defined.

Abbreviation EngineResult := (result EngineError).

Definition resp_token (e : EngineError) : option string :=
  match e with
  | Invalid _ => Some "-ERR fireweed invalid"
  | Terminal => Some "-ERR fireweed terminal"
  | StaleLease => Some "-ERR fireweed stale_lease"
  | Superseded => Some "-ERR fireweed superseded"
  | Unavailable => Some "-ERR fireweed unavailable"
  | Conflict => Some "-ERR fireweed conflict"
  | BatchTooLarge => Some "-ERR fireweed batch_too_large"
  | RequestIdConflict => Some "-ERR fireweed request_id_conflict"
  | Paused _ => Some "-ERR fireweed paused"
  | RequestExpired => Some "-ERR fireweed request_expired"
  | EpochFenced => Some "-ERR fireweed epoch_stale"
  | EntitySchemaViolation _ => Some "-ERR fireweed entity_schema_violation"
  | RequestTooLarge _ _ => Some "-ERR fireweed invalid"
  | Backpressure _ => Some "-ERR fireweed unavailable"
  | QueueDefinitionConflict => Some "-ERR fireweed queue_conflict"
  | ChangeRecordsRequireDurableLog => Some "-ERR fireweed change_records_require_durable_log"
  | NotFound | Forbidden _ | Storage _ | DurableDataCorrupt _ _ _ => None
  end.

(** The durable projection of a commit rejection. *)
Inductive CommitRejection :=
| RejNotFound
| RejQueueDefinitionConflict
| RejInvalid (why : string)
| RejTerminal
| RejStaleLease
| RejSuperseded
| RejUnavailable
| RejConflict
| RejBatchTooLarge
| RejRequestIdConflict
| RejPaused (drain_intake : bool)
| RejRequestExpired
| RejEpochFenced
| RejForbidden (why : string)
| RejEntitySchemaViolation (msg : string)
| RejRequestTooLarge (requested limit : Z)
| RejBackpressure (resource : string)
| RejStorage (msg : string)
| RejDurableDataCorrupt (stage : DurableIntegrityStage) (manifest_index : Z) (locator : string)
| RejChangeRecordsRequireDurableLog.

Definition from_error (e : EngineError) : CommitRejection :=
  match e with
  | NotFound => RejNotFound
  | QueueDefinitionConflict => RejQueueDefinitionConflict
  | Invalid why => RejInvalid why
  | Terminal => RejTerminal
  | StaleLease => RejStaleLease
  | Superseded => RejSuperseded
  | Unavailable => RejUnavailable
  | Conflict => RejConflict
  | BatchTooLarge => RejBatchTooLarge
  | RequestIdConflict => RejRequestIdConflict
  | Paused drain_intake => RejPaused drain_intake
  | RequestExpired => RejRequestExpired
  | EpochFenced => RejEpochFenced
  | Forbidden why => RejForbidden why
  | EntitySchemaViolation msg => RejEntitySchemaViolation msg
  | RequestTooLarge requested limit => RejRequestTooLarge requested limit
  | Backpressure resource => RejBackpressure resource
  | Storage msg => RejStorage msg
  | DurableDataCorrupt stage index locator => RejDurableDataCorrupt stage index locator
  | ChangeRecordsRequireDurableLog => RejChangeRecordsRequireDurableLog
  end.

(** The reasons the inverse knows by name. *)
Definition known_invalid : list string := ["item is not leased"; "instance fence is not monotonic"].
Definition known_resources : list string :=
  ["buffered bytes"; "buffered bytes closed"; "queue buffered bytes"; "keyed queue waiters";
   "keyed queue per-key waiters"; "claim coordinator waiters"; "claim queue turn";
   "claim driver read slots"; "shared driver read slots"; "committed outcome read slots";
   "mutation sequencer capacity"; "mutation sequencer wait"; "selection fence waiters";
   "committed driver read pool"; "committed outcome read pool"; "projection coverage"].

(** A match of a string against literals that returns the literal. *)
Definition literal_of (known : list string) (otherwise text : string) : string :=
  if bool_decide (text ∈ known) then text else otherwise.

Definition into_error (r : CommitRejection) : EngineError :=
  match r with
  | RejNotFound => NotFound
  | RejQueueDefinitionConflict => QueueDefinitionConflict
  | RejInvalid why => Invalid (literal_of known_invalid "invalid" why)
  | RejTerminal => Terminal
  | RejStaleLease => StaleLease
  | RejSuperseded => Superseded
  | RejUnavailable => Unavailable
  | RejConflict => Conflict
  | RejBatchTooLarge => BatchTooLarge
  | RejRequestIdConflict => RequestIdConflict
  | RejPaused drain_intake => Paused drain_intake
  | RejRequestExpired => RequestExpired
  | RejEpochFenced => EpochFenced
  | RejForbidden _ => Forbidden "forbidden"
  | RejEntitySchemaViolation msg => EntitySchemaViolation msg
  | RejRequestTooLarge requested limit => RequestTooLarge requested limit
  | RejBackpressure resource => Backpressure (literal_of known_resources "bounded resource" resource)
  | RejStorage msg => Storage msg
  | RejDurableDataCorrupt stage index locator => DurableDataCorrupt stage index locator
  | RejChangeRecordsRequireDurableLog => ChangeRecordsRequireDurableLog
  end.

#[local] Close Scope string_scope.

(** ** Queue keys and log positions *)

Record QueueKey := mkQueueKey { tenant_id : string; queue_id : string }.
#[export] Instance QueueKey_eq_dec : EqDecision QueueKey.
Proof. solve_decision. Defined.
#[export] Instance QueueKey_countable : Countable QueueKey.
Proof.
  refine (inj_countable' (λ k, (tenant_id k, queue_id k)) (λ p, mkQueueKey p.1 p.2) _). by intros [].
Defined.

Definition queue_key_cmp (a b : QueueKey) : comparison :=
  then_cmp (String.compare (tenant_id a) (tenant_id b)) (String.compare (queue_id a) (queue_id b)).

Record CommandPosition := mkCommandPosition {
  cp_queue : QueueKey;
  backend_epoch : Z;
  cp_sequence : Z;
}.

Definition precedes (a b : CommandPosition) : bool :=
  match then_cmp (backend_epoch a ?= backend_epoch b) (cp_sequence a ?= cp_sequence b) with
  | Lt => true
  | _ => false
  end.

(** ** The assignment-epoch fence *)

Definition MIN_ASSIGNMENT_EPOCH : Z := 1.

Definition epoch_mismatch (current : Z) (expected : option Z) : bool :=
  match expected with Some e => negb (e =? current) | None => false end.

Definition resolve_bounded_epoch (current : Z) (expected : option Z) : EngineResult Z :=
  if epoch_mismatch current expected then Err EpochFenced
  else if current <? MIN_ASSIGNMENT_EPOCH then
    Err (Invalid "assignment epoch 0 is not valid for data-plane writes; acquire a positive epoch first"%string)
  else Ok current.

Definition resolve_epoch_fence (current : Z) (expected : option Z) : EngineResult Z :=
  if epoch_mismatch current expected then Err EpochFenced else Ok current.

Definition resolve_write_epoch (current : Z) (expected : option Z) : EngineResult Z :=
  match expected with
  | Some _ => resolve_bounded_epoch current expected
  | None => resolve_epoch_fence current None
  end.

(** The sync adapters, over the result of the bounded read. *)
Definition resolve_bounded_epoch_sync (expected : option Z) (read_current : EngineResult Z) : EngineResult Z :=
  current ← read_current; resolve_bounded_epoch current expected.
Definition resolve_write_epoch_sync (expected : option Z) (read_current : EngineResult Z) : EngineResult Z :=
  current ← read_current; resolve_write_epoch current expected.

(** ** Authorization *)

Record AuthContext := mkAuthContext { principal_id : string; tenants : gset string }.

Definition authorize_tenant (c : AuthContext) (tenant : string) : EngineResult unit :=
  if bool_decide (tenant ∈ tenants c) then Ok tt
  else Err (Forbidden "principal is not authorized for the requested tenant"%string).

Definition authorize_operator (c : AuthContext) : EngineResult unit :=
  if starts_with (principal_id c) "operator-"%string then Ok tt
  else Err (Forbidden "principal lacks operator privileges"%string).

(** ** Facts *)

Lemma stage_roundtrip s : stage_parse (stage_token s) = Some s.
Proof. by destruct s. Qed.

Lemma stage_parse_Some token s : stage_parse token = Some s → stage_token s = token.
Proof.
  unfold stage_parse. repeat (case_match eqn:E; [intros [= <-]; symmetry; by apply String.eqb_eq|clear E]). done.
Qed.

(** A stamped write passes exactly at the current, positive epoch. *)
Lemma write_epoch_Some current e r :
  resolve_write_epoch current (Some e) = Ok r ↔ e = current ∧ 1 ≤ current ∧ r = current.
Proof.
  unfold resolve_write_epoch, resolve_bounded_epoch, epoch_mismatch, MIN_ASSIGNMENT_EPOCH.
  destruct (Z.eqb_spec e current); cbn; [|naive_solver].
  destruct (Z.ltb_spec current 1); naive_solver lia.
Qed.

Lemma write_epoch_stale current e :
  e ≠ current → resolve_write_epoch current (Some e) = Err EpochFenced.
Proof.
  intros Hne. unfold resolve_write_epoch, resolve_bounded_epoch, epoch_mismatch.
  by destruct (Z.eqb_spec e current).
Qed.

(** The errors the durable projection keeps as they are. *)
Definition durable_error (e : EngineError) : Prop :=
  match e with
  | Invalid why => why ∈ known_invalid ∨ why = "invalid"%string
  | Forbidden why => why = "forbidden"%string
  | Backpressure resource => resource ∈ known_resources ∨ resource = "bounded resource"%string
  | _ => True
  end.

Lemma literal_of_spec known otherwise text :
  literal_of known otherwise text = text ↔ text ∈ known ∨ text = otherwise.
Proof. unfold literal_of. case_bool_decide; naive_solver. Qed.

(** Durable rejections. A rejection written to the log and read back is the
    same error exactly when its reason is one of the texts the reader knows;
    any other reason is replaced by a fixed one, and a second round trip never
    changes anything more. In particular the reasons of a typed-index
    validation, which a commit entry can be rejected with, do not survive. *)
Theorem commit_rejection_roundtrip e :
  (into_error (from_error e) = e ↔ durable_error e) ∧
  (let e' := into_error (from_error e) in into_error (from_error e') = e' ∧ resp_token e' = resp_token e) ∧
  into_error (from_error (Invalid "typed index value is not valid for declared type"%string)) = Invalid "invalid"%string.
Proof.
  split; [|split; [split|done]].
  - destruct e; cbn; try done.
    + rewrite <-literal_of_spec. split; [by intros [= ->]|by intros ->].
    + split; [by intros [= <-]|by intros ->].
    + rewrite <-literal_of_spec. split; [by intros [= ->]|by intros ->].
  - destruct e; cbn; try done; f_equal; apply literal_of_spec; unfold literal_of; case_bool_decide; auto.
  - by destruct e.
Qed.
