(* ===== verification/ControlPlane.v ===== *)
(** The queue-ownership control plane of [fireweed-engine/src/control_plane.rs]:
    lease decisions, the rendezvous assignment, and the in-memory authority with
    its operations. *)
From S2P Require Import Prelude Identity Metadata Lifecycle Engine.

(** ** Time *)

Definition ts_ltb (a b : UtcTimestamp) : bool := match cmp_timestamp a b with Lt => true | _ => false end.
Definition ts_max (a b : UtcTimestamp) : UtcTimestamp := if ts_ltb b a then a else b.

Definition wrap_i64 (z : Z) : Z := (z + 2 ^ 63) mod 2 ^ 64 - 2 ^ 63.
Definition saturating_add_i64 (a b : Z) : Z := Z.max i64_min (Z.min i64_max (a + b)).

(** Seconds are subtracted as [i64], the total is cast to [u64]. *)
Definition elapsed_ms (a b : UtcTimestamp) : Z :=
  if negb (ts_ltb a b) then 0
  else
    let secs := wrap_i64 (seconds b - seconds a) in
    let nanos := nanoseconds b - nanoseconds a in
    Z.max 0 (secs * 1000 + nanos / 1000000) mod 2 ^ 64.

Definition add_millis (t : UtcTimestamp) (ms : Z) : UtcTimestamp :=
  let secs := saturating_add_i64 (seconds t) (ms / 1000) in
  let nanos := nanoseconds t + (ms mod 1000) * 1000000 in
  if 1000000000 <=? nanos then mkUtcTimestamp (saturating_add_i64 secs 1) (nanos - 1000000000)
  else mkUtcTimestamp secs nanos.

(** ** Leases and decisions *)

Inductive LeaseState := Unassigned | PendingFence | Assigned | Draining.
#[export] Instance LeaseState_eq_dec : EqDecision LeaseState.
Proof. solve_decision. Defined.

Abbreviation OwnerId := string.

Record QueueLease := mkQueueLease {
  ql_state : LeaseState;
  active_owner_id : option OwnerId;
  target_owner_id : option OwnerId;
  assignment_epoch : Z;
  ql_expires_at : option UtcTimestamp;
}.
#[export] Instance QueueLease_eq_dec : EqDecision QueueLease.
Proof. solve_decision. Defined.

Definition unassigned : QueueLease := mkQueueLease Unassigned None None 0 None.

Definition is_live (l : QueueLease) (now : UtcTimestamp) : bool :=
  match ql_state l with PendingFence | Assigned | Draining => true | Unassigned => false end &&
  match ql_expires_at l with Some exp => ts_ltb now exp | None => false end.

Definition owner_heartbeat_live (heartbeat_at now : UtcTimestamp) (ttl_ms : Z) : bool :=
  elapsed_ms heartbeat_at now <? ttl_ms.

Inductive AcquireOutcome :=
| Acquired (lease : QueueLease)
| AcquireRejected (lease : QueueLease).

(** [epoch + 1] on [u64]. *)
Definition next_epoch (e : Z) : Z := (e + 1) mod 2 ^ 64.

Definition owned_by (l : QueueLease) (owner : OwnerId) : bool := bool_decide (active_owner_id l = Some owner).

Definition lease_decide_acquire (current : QueueLease) (owner : OwnerId) (now : UtcTimestamp) (lease_ttl_ms : Z)
    : AcquireOutcome :=
  if is_live current now && (negb (owned_by current owner) || bool_decide (ql_state current = PendingFence))
  then AcquireRejected current
  else
    let same_owner := owned_by current owner && negb (bool_decide (ql_state current = PendingFence)) in
    let epoch := if same_owner then assignment_epoch current else next_epoch (assignment_epoch current) in
    Acquired (mkQueueLease (if same_owner then Assigned else PendingFence) (Some owner) (Some owner) epoch
      (Some (add_millis now lease_ttl_ms))).

Definition lease_decide_confirm_fence (current : QueueLease) (owner : OwnerId) (expected_epoch : Z)
    (now : UtcTimestamp) : EngineResult QueueLease :=
  if negb (owned_by current owner) || negb (assignment_epoch current =? expected_epoch) ||
     negb (is_live current now) ||
     negb (match ql_state current with PendingFence | Assigned => true | _ => false end)
  then Err EpochFenced
  else Ok (mkQueueLease Assigned (active_owner_id current) (target_owner_id current) (assignment_epoch current)
    (ql_expires_at current)).

Definition lease_decide_renew (current : QueueLease) (owner : OwnerId) (expected_epoch : Z)
    (now : UtcTimestamp) (lease_ttl_ms : Z) : EngineResult QueueLease :=
  if negb (owned_by current owner) || negb (assignment_epoch current =? expected_epoch) ||
     negb (match ql_state current with Assigned | Draining => true | _ => false end) ||
     negb (is_live current now)
  then Err EpochFenced
  else
    let requested := add_millis now lease_ttl_ms in
    Ok (mkQueueLease (ql_state current) (active_owner_id current) (target_owner_id current)
      (assignment_epoch current)
      (Some (match ql_expires_at current with Some expiry => ts_max expiry requested | None => requested end))).

Definition lease_decide_begin_drain (current : QueueLease) (expected_epoch : Z) (target_owner : OwnerId)
    (now : UtcTimestamp) : EngineResult QueueLease :=
  if negb (assignment_epoch current =? expected_epoch) || negb (is_live current now) then Err EpochFenced
  else if negb (bool_decide (ql_state current = Assigned)) then Err Conflict
  else if owned_by current target_owner then Err (Invalid "drain target is the active owner")
  else Ok (mkQueueLease Draining (active_owner_id current) (Some target_owner) (assignment_epoch current)
    (ql_expires_at current)).

Definition lease_decide_release (current : QueueLease) (owner : OwnerId) (expected_epoch : Z)
    : EngineResult QueueLease :=
  if negb (owned_by current owner) || negb (assignment_epoch current =? expected_epoch) ||
     negb (match ql_state current with PendingFence | Assigned | Draining => true | Unassigned => false end)
  then Err EpochFenced
  else Ok (mkQueueLease Unassigned None None (assignment_epoch current) None).

Record OwnerResolution := mkOwnerResolution {
  target_owner : option OwnerId;
  active_owner : option OwnerId;
  or_epoch : option Z;
  or_expires_at : option UtcTimestamp;
  or_state : LeaseState;
}.

Definition lease_resolution (current : QueueLease) (target : option OwnerId) (now : UtcTimestamp) : OwnerResolution :=
  let '(state, active, expires) :=
    if is_live current now then (ql_state current, active_owner_id current, ql_expires_at current)
    else (Unassigned, None, None) in
  mkOwnerResolution target active
    (if 0 <? assignment_epoch current then Some (assignment_epoch current) else None) expires state.

(** ** Rendezvous assignment *)

Definition FNV_OFFSET : Z := 0xcbf29ce484222325.
Definition FNV_PRIME : Z := 0x100000001b3.

Definition fnv_mix (hash : Z) (b : bytes) : Z :=
  let hash := foldl (λ h b, Z.lxor h (Z_of_byte b) * FNV_PRIME mod 2 ^ 64) hash b in
  Z.lxor hash 255 * FNV_PRIME mod 2 ^ 64.

Definition rendezvous_weight (queue : QueueKey) (owner : OwnerId) : Z :=
  fnv_mix (fnv_mix (fnv_mix FNV_OFFSET (as_bytes (tenant_id queue))) (as_bytes (queue_id queue))) (as_bytes owner).

(** [Iterator::max_by]: the last of the greatest elements. *)
Definition max_by {A} (cmp : A → A → comparison) (l : list A) : option A :=
  match l with
  | [] => None
  | a :: l => Some (foldl (λ x y, match cmp x y with Gt => x | _ => y end) a l)
  end.

Definition weight_cmp (a b : Z * OwnerId) : comparison :=
  then_cmp (a.1 ?= b.1) (String.compare a.2 b.2).

Definition resolve_target (queue : QueueKey) (live : list OwnerId) : option OwnerId :=
  snd <$> max_by weight_cmp ((λ o, (rendezvous_weight queue o, o)) <$> live).

(** ** The in-memory authority *)

Record ControlPlaneConfig := mkControlPlaneConfig { heartbeat_ttl_ms : Z; lease_ttl_ms : Z }.
Definition ControlPlaneConfig_default : ControlPlaneConfig := mkControlPlaneConfig 5000 15000.

Record CpState := mkCpState {
  owners : gmap OwnerId UtcTimestamp;
  endpoints : gmap OwnerId string;
  leases : gmap QueueKey QueueLease;
}.
Definition CpState_default : CpState := mkCpState ∅ ∅ ∅.

Record LeaseRenewal := mkLeaseRenewal {
  lr_queue : QueueKey;
  lr_owner : OwnerId;
  lr_expected_epoch : Z;
}.

Inductive LeaseRenewalOutcome :=
| Renewed (lease : QueueLease)
| Fenced
| Missing
| RenewalError (e : EngineError).

Record OwnerEndpointAdvertisement := mkAdvertisement {
  ad_owner : OwnerId;
  ad_endpoint : string;
  ad_expires_at : UtcTimestamp;
}.

Section authority.
Context (config : ControlPlaneConfig).

Definition is_owner_live (owners : gmap OwnerId UtcTimestamp) (owner : OwnerId) (now : UtcTimestamp) : bool :=
  match owners !! owner with
  | Some hb => owner_heartbeat_live hb now (heartbeat_ttl_ms config)
  | None => false
  end.

(** The owners in the order of the map's iteration, which is not specified. *)
Definition live_owners (owners : gmap OwnerId UtcTimestamp) (now : UtcTimestamp) : list OwnerId :=
  (List.filter (λ e : OwnerId * UtcTimestamp, owner_heartbeat_live e.2 now (heartbeat_ttl_ms config))
    (map_to_list owners)).*1.

Definition lease (s : CpState) (queue : QueueKey) : QueueLease := default unassigned (leases s !! queue).
Definition set_lease (queue : QueueKey) (l : QueueLease) (s : CpState) : CpState :=
  mkCpState (owners s) (endpoints s) (<[queue := l]> (leases s)).

Definition register_owner (s : CpState) (owner : OwnerId) (now : UtcTimestamp) : CpState :=
  mkCpState (<[owner := now]> (owners s)) (endpoints s) (leases s).
Definition heartbeat (s : CpState) (owner : OwnerId) (now : UtcTimestamp) : CpState :=
  mkCpState (<[owner := now]> (owners s)) (endpoints s) (leases s).
Definition advertise_owner_endpoint (s : CpState) (owner : OwnerId) (endpoint : string) (now : UtcTimestamp) : CpState :=
  mkCpState (<[owner := now]> (owners s)) (<[owner := endpoint]> (endpoints s)) (leases s).

Definition live_owner_endpoints (s : CpState) (now : UtcTimestamp) : list OwnerEndpointAdvertisement :=
  omap (λ e : OwnerId * string,
    match owners s !! e.1 with
    | Some hb =>
        if owner_heartbeat_live hb now (heartbeat_ttl_ms config)
        then Some (mkAdvertisement e.1 e.2 (add_millis hb (heartbeat_ttl_ms config))) else None
    | None => None
    end) (map_to_list (endpoints s)).

Definition resolve_queue_owner (s : CpState) (queue : QueueKey) (now : UtcTimestamp) : OwnerResolution :=
  lease_resolution (lease s queue) (resolve_target queue (live_owners (owners s) now)) now.
Definition resolve_queue_owners (s : CpState) (queues : list QueueKey) (now : UtcTimestamp) : list OwnerResolution :=
  let live := live_owners (owners s) now in
  (λ queue, lease_resolution (lease s queue) (resolve_target queue live) now) <$> queues.

Definition acquire_queue_lease (s : CpState) (queue : QueueKey) (owner : OwnerId) (now : UtcTimestamp)
    : EngineResult AcquireOutcome * CpState :=
  if negb (is_owner_live (owners s) owner now)
  then (Err (Forbidden "owner is not live (register + heartbeat first)"), s)
  else
    let outcome := lease_decide_acquire (lease s queue) owner now (lease_ttl_ms config) in
    match outcome with
    | Acquired acquired => (Ok outcome, set_lease queue acquired s)
    | AcquireRejected _ => (Ok outcome, s)
    end.

(** Store the decided record, or fail and leave the authority as it is. *)
Definition persist (s : CpState) (queue : QueueKey) (decision : EngineResult QueueLease)
    : EngineResult QueueLease * CpState :=
  match decision with
  | Ok next => (Ok next, set_lease queue next s)
  | Err e => (Err e, s)
  end.

Definition confirm_queue_lease_fence (s : CpState) (queue : QueueKey) (owner : OwnerId) (expected_epoch : Z)
    (now : UtcTimestamp) : EngineResult QueueLease * CpState :=
  persist s queue (lease_decide_confirm_fence (lease s queue) owner expected_epoch now).
Definition renew_queue_lease (s : CpState) (queue : QueueKey) (owner : OwnerId) (expected_epoch : Z)
    (now : UtcTimestamp) : EngineResult QueueLease * CpState :=
  persist s queue (lease_decide_renew (lease s queue) owner expected_epoch now (lease_ttl_ms config)).
Definition begin_drain (s : CpState) (queue : QueueKey) (expected_epoch : Z) (target : OwnerId)
    (now : UtcTimestamp) : EngineResult QueueLease * CpState :=
  persist s queue (lease_decide_begin_drain (lease s queue) expected_epoch target now).
Definition release_queue_lease (s : CpState) (queue : QueueKey) (owner : OwnerId) (expected_epoch : Z)
    : EngineResult unit * CpState :=
  match lease_decide_release (lease s queue) owner expected_epoch with
  | Ok next => (Ok tt, set_lease queue next s)
  | Err e => (Err e, s)
  end.

Definition renew_one (now : UtcTimestamp) (s : CpState) (r : LeaseRenewal) : LeaseRenewalOutcome * CpState :=
  match leases s !! lr_queue r with
  | None => (Missing, s)
  | Some current =>
      match lease_decide_renew current (lr_owner r) (lr_expected_epoch r) now (lease_ttl_ms config) with
      | Ok renewed => (Renewed renewed, set_lease (lr_queue r) renewed s)
      | Err EpochFenced => (Fenced, s)
      | Err e => (RenewalError e, s)
      end
  end.

Definition renew_push (now : UtcTimestamp) (acc : list LeaseRenewalOutcome * CpState) (r : LeaseRenewal)
    : list LeaseRenewalOutcome * CpState :=
  let '(outcome, s) := renew_one now acc.2 r in (acc.1 ++ [outcome], s).
Definition renew_queue_leases (s : CpState) (renewals : list LeaseRenewal) (now : UtcTimestamp)
    : list LeaseRenewalOutcome * CpState :=
  foldl (renew_push now) ([], s) renewals.

End authority.

(** ** Runs of the authority *)

Inductive cp_op :=
| OpRegister (owner : OwnerId)
| OpHeartbeat (owner : OwnerId)
| OpAdvertise (owner : OwnerId) (endpoint : string)
| OpAcquire (queue : QueueKey) (owner : OwnerId)
| OpConfirm (queue : QueueKey) (owner : OwnerId) (epoch : Z)
| OpRenew (queue : QueueKey) (owner : OwnerId) (epoch : Z)
| OpRenewAll (renewals : list LeaseRenewal)
| OpDrain (queue : QueueKey) (epoch : Z) (target : OwnerId)
| OpRelease (queue : QueueKey) (owner : OwnerId) (epoch : Z).

(** One operation at the caller's clock; clocks of different callers need not
    agree. *)
Definition cp_exec (config : ControlPlaneConfig) (s : CpState) (step : UtcTimestamp * cp_op) : CpState :=
  let '(now, op) := step in
  match op with
  | OpRegister owner => register_owner s owner now
  | OpHeartbeat owner => heartbeat s owner now
  | OpAdvertise owner endpoint => advertise_owner_endpoint s owner endpoint now
  | OpAcquire queue owner => (acquire_queue_lease config s queue owner now).2
  | OpConfirm queue owner epoch => (confirm_queue_lease_fence s queue owner epoch now).2
  | OpRenew queue owner epoch => (renew_queue_lease config s queue owner epoch now).2
  | OpRenewAll renewals => (renew_queue_leases config s renewals now).2
  | OpDrain queue epoch target => (begin_drain s queue epoch target now).2
  | OpRelease queue owner epoch => (release_queue_lease s queue owner epoch).2
  end.
Definition cp_run (config : ControlPlaneConfig) (s : CpState) (steps : list (UtcTimestamp * cp_op)) : CpState :=
  foldl (cp_exec config) s steps.

(** What one record may become: a new grant one epoch up, or the same epoch with
    the same owner or none. *)
Inductive lease_step (now : UtcTimestamp) (l l' : QueueLease) : Prop :=
| step_grant owner :
    is_live l now = false → active_owner_id l' = Some owner → ql_state l' = PendingFence →
    assignment_epoch l' = next_epoch (assignment_epoch l) → lease_step now l l'
| step_keep :
    assignment_epoch l' = assignment_epoch l → active_owner_id l' = active_owner_id l → lease_step now l l'
| step_release :
    assignment_epoch l' = assignment_epoch l → active_owner_id l' = None → lease_step now l l'.

Lemma owned_by_spec l o : owned_by l o = true ↔ active_owner_id l = Some o.
Proof. apply bool_decide_eq_true. Qed.

Lemma acquire_step l owner now ttl l' :
  lease_decide_acquire l owner now ttl = Acquired l' → lease_step now l l'.
Proof.
  unfold lease_decide_acquire. case_match eqn:Hrej; [done|]. intros [= <-].
  destruct (owned_by l owner) eqn:Ho; [|destruct (is_live l now) eqn:Hl; [done|]].
  - apply owned_by_spec in Ho. case_bool_decide as Hp; cbn in *.
    + eapply step_grant; cbn; try done. by rewrite andb_true_r in Hrej.
    + by apply step_keep.
  - by eapply step_grant.
Qed.

Lemma confirm_step l owner e now l' :
  lease_decide_confirm_fence l owner e now = Ok l' → lease_step now l l'.
Proof. unfold lease_decide_confirm_fence. case_match; [done|]. intros [= <-]. by apply step_keep. Qed.
Lemma renew_step l owner e now ttl l' :
  lease_decide_renew l owner e now ttl = Ok l' → lease_step now l l'.
Proof. unfold lease_decide_renew. case_match; [done|]. intros [= <-]. by apply step_keep. Qed.
Lemma drain_step l e target now l' :
  lease_decide_begin_drain l e target now = Ok l' → lease_step now l l'.
Proof. unfold lease_decide_begin_drain. repeat (case_match; [done|]). intros [= <-]. by apply step_keep. Qed.
Lemma release_step l owner e now l' :
  lease_decide_release l owner e = Ok l' → lease_step now l l'.
Proof. unfold lease_decide_release. case_match; [done|]. intros [= <-]. by apply step_release. Qed.

(** The order records move in: the epoch grows, or stays with its owner. *)
Definition lease_le (l l' : QueueLease) : Prop :=
  assignment_epoch l < assignment_epoch l' ∨
  (assignment_epoch l = assignment_epoch l' ∧ (active_owner_id l' = active_owner_id l ∨ active_owner_id l' = None)).

#[export] Instance lease_le_preorder : PreOrder lease_le.
Proof.
  split.
  - intros l. right. auto.
  - intros l1 l2 l3 [H12|[E12 O12]] [H23|[E23 O23]]; [left; lia..|]. right. split; [lia|].
    destruct O23 as [->| ->]; auto.
Qed.

Lemma lease_step_le now l l' :
  0 ≤ assignment_epoch l < u64_max → lease_step now l l' →
  lease_le l l' ∧ assignment_epoch l ≤ assignment_epoch l' ≤ assignment_epoch l + 1.
Proof.
  intros He [o _ _ _ E|E O|E O].
  - unfold next_epoch in E. rewrite Z.mod_small in E by int_lia. unfold lease_le. split; lia.
  - unfold lease_le. split; [auto|lia].
  - unfold lease_le. split; [auto|lia].
Qed.

Lemma lease_set queue l s q : lease (set_lease queue l s) q = if decide (q = queue) then l else lease s q.
Proof.
  unfold lease, set_lease. cbn. case_decide as E; [subst; by rewrite lookup_insert_eq|by rewrite lookup_insert_ne].
Qed.

(** Every operation takes each queue's record one step, except a batch of
    renewals, which takes several that keep it. *)
Lemma persist_step s queue d q now :
  (∀ l', d = Ok l' → lease_step now (lease s queue) l') →
  lease_step now (lease s q) (lease (persist s queue d).2 q).
Proof.
  intros Hd. unfold persist. destruct d as [l'|e]; cbn; [|by apply step_keep].
  rewrite lease_set. case_decide; [subst; by apply Hd|by apply step_keep].
Qed.

Lemma renew_one_keeps config now s r q :
  let l := lease s q in let l' := lease (renew_one config now s r).2 q in
  assignment_epoch l' = assignment_epoch l ∧ active_owner_id l' = active_owner_id l.
Proof.
  unfold renew_one. destruct (leases s !! lr_queue r) as [current|] eqn:E; [|done].
  destruct (lease_decide_renew _ _ _ _ _) as [l'|e] eqn:Hr; [|by destruct e].
  cbn. rewrite lease_set. case_decide as Hq; [|done]. subst. unfold lease. rewrite E. cbn.
  unfold lease_decide_renew in Hr. case_match; [done|]. by injection Hr as <-.
Qed.

Lemma renew_fold_keeps config now rs acc q :
  let l := lease acc.2 q in let l' := lease (foldl (renew_push config now) acc rs).2 q in
  assignment_epoch l' = assignment_epoch l ∧ active_owner_id l' = active_owner_id l.
Proof.
  cbn zeta. revert acc. induction rs as [|r rs IH]; intros acc; cbn [foldl]; [done|].
  destruct (IH (renew_push config now acc r)) as [-> ->]. unfold renew_push.
  pose proof (renew_one_keeps config now acc.2 r q) as [E1 E2]. by destruct (renew_one config now acc.2 r).
Qed.

Lemma exec_step config s now op q :
  lease_step now (lease s q) (lease (cp_exec config s (now, op)) q).
Proof.
  destruct op as [o|o|o e|queue o|queue o e|queue o e|rs|queue e t|queue o e]; cbn; try by apply step_keep.
  - unfold acquire_queue_lease. case_match; [by apply step_keep|].
    destruct (lease_decide_acquire _ _ _ _) as [l'|l'] eqn:E; cbn; [|by apply step_keep].
    rewrite lease_set. case_decide; [subst; by eapply acquire_step|by apply step_keep].
  - apply persist_step. intros l'. apply confirm_step.
  - apply persist_step. intros l'. apply renew_step.
  - pose proof (renew_fold_keeps config now rs ([], s) q) as [??]. by apply step_keep.
  - apply persist_step. intros l'. apply drain_step.
  - unfold release_queue_lease. destruct (lease_decide_release _ _ _) as [l'|] eqn:E; cbn; [|by apply step_keep].
    rewrite lease_set. case_decide; [subst; by eapply release_step|by apply step_keep].
Qed.

(** *** Epochs along a run *)

Lemma run_le config steps s q :
  0 ≤ assignment_epoch (lease s q) → assignment_epoch (lease s q) + Z.of_nat (length steps) ≤ u64_max →
  lease_le (lease s q) (lease (cp_run config s steps) q) ∧
  assignment_epoch (lease s q) ≤ assignment_epoch (lease (cp_run config s steps) q)
    ≤ assignment_epoch (lease s q) + Z.of_nat (length steps).
Proof.
  revert s. induction steps as [|[now op] steps IH]; intros s H0 Hmax; cbn [cp_run foldl length] in *.
  { split; [done|lia]. }
  destruct (lease_step_le now (lease s q) (lease (cp_exec config s (now, op)) q)) as [Hle Hb];
    [lia|apply exec_step|].
  destruct (IH (cp_exec config s (now, op))) as [Hle' Hb']; [lia..|].
  unfold cp_run in *. split; [by etrans|lia].
Qed.

Lemma lease_default q : lease CpState_default q = unassigned.
Proof. unfold lease. cbn [leases CpState_default]. by rewrite lookup_empty. Qed.

(** An owned record has been granted. *)
Lemma run_granted config steps q :
  Z.of_nat (length steps) ≤ u64_max →
  active_owner_id (lease (cp_run config CpState_default steps) q) ≠ None →
  1 ≤ assignment_epoch (lease (cp_run config CpState_default steps) q).
Proof.
  induction steps as [|[now op] steps IH] using rev_ind; intros Hmax; [done|].
  rewrite length_app in Hmax. cbn in Hmax. unfold cp_run in *. rewrite foldl_app. cbn [foldl].
  pose proof (run_le config steps CpState_default q) as Hb. rewrite lease_default in Hb.
  destruct Hb as [_ Hb]; [done|cbn [assignment_epoch unassigned]; lia|]. unfold cp_run in Hb.
  cbn [assignment_epoch unassigned] in Hb.
  destruct (exec_step config (foldl (cp_exec config) CpState_default steps) now op q) as [o _ _ _ E|E O|E O].
  - intros _. rewrite E. unfold next_epoch. rewrite Z.mod_small; int_lia.
  - rewrite E, O. intros Ho. apply IH; [lia|done].
  - by rewrite O.
Qed.

(** ** Time order *)

Lemma ts_ltb_spec a b :
  ts_ltb a b = true ↔ seconds a < seconds b ∨ (seconds a = seconds b ∧ nanoseconds a < nanoseconds b).
Proof.
  unfold ts_ltb, cmp_timestamp.
  destruct (Z.compare_spec (seconds a) (seconds b)) as [E|L|G]; cbn [then_cmp];
    [destruct (Z.compare_spec (nanoseconds a) (nanoseconds b))|..]; naive_solver lia.
Qed.
Lemma ts_ltb_false a b :
  ts_ltb a b = false ↔ seconds b < seconds a ∨ (seconds a = seconds b ∧ nanoseconds b ≤ nanoseconds a).
Proof. rewrite <-not_true_iff_false, ts_ltb_spec. lia. Qed.
Ltac ts_lia := rewrite ?ts_ltb_spec, ?ts_ltb_false in *; lia.

Lemma ts_max_le_l a b : ts_ltb (ts_max a b) a = false.
Proof. unfold ts_max. destruct (ts_ltb b a) eqn:E; ts_lia. Qed.

(** *** A live lease is exclusive *)

(** [owner] holds the record at [epoch], at least until [until]. *)
Definition holds (l : QueueLease) (owner : OwnerId) (epoch : Z) (until : UtcTimestamp) : bool :=
  owned_by l owner && (assignment_epoch l =? epoch) && negb (bool_decide (ql_state l = Unassigned)) &&
  match ql_expires_at l with Some expiry => negb (ts_ltb expiry until) | None => false end.

(** A step at a clock before [until] that is not the holder giving the queue up:
    no release, and no new acquisition with an earlier deadline. *)
Definition respects (config : ControlPlaneConfig) (queue : QueueKey) (owner : OwnerId) (epoch : Z)
    (until : UtcTimestamp) (step : UtcTimestamp * cp_op) : bool :=
  ts_ltb step.1 until &&
  match step.2 with
  | OpRelease q o e => negb (bool_decide (q = queue) && bool_decide (o = owner) && (e =? epoch))
  | OpAcquire q o =>
      negb (bool_decide (q = queue) && bool_decide (o = owner)) ||
      negb (ts_ltb (add_millis step.1 (lease_ttl_ms config)) until)
  | _ => true
  end.

Lemma holds_spec l owner epoch until :
  holds l owner epoch until = true ↔
  active_owner_id l = Some owner ∧ assignment_epoch l = epoch ∧ ql_state l ≠ Unassigned ∧
  ∃ expiry, ql_expires_at l = Some expiry ∧ ts_ltb expiry until = false.
Proof.
  unfold holds. rewrite !andb_true_iff, owned_by_spec, Z.eqb_eq, negb_true_iff, bool_decide_eq_false.
  destruct (ql_expires_at l); rewrite ?negb_true_iff; naive_solver.
Qed.

Lemma holds_live l owner epoch until now :
  holds l owner epoch until = true → ts_ltb now until = true → is_live l now = true.
Proof.
  rewrite holds_spec. intros (_ & _ & Hst & x & Hx & Hle) Hn. unfold is_live. rewrite Hx.
  destruct (ql_state l); cbn; try done; ts_lia.
Qed.

(** The record of a decision that keeps owner, epoch and deadline, or extends it. *)
Lemma holds_keep l l' owner epoch until :
  holds l owner epoch until = true → active_owner_id l' = active_owner_id l →
  assignment_epoch l' = assignment_epoch l → ql_state l' ≠ Unassigned →
  (∀ x, ql_expires_at l = Some x → ∃ y, ql_expires_at l' = Some y ∧ ts_ltb y x = false) →
  holds l' owner epoch until = true.
Proof.
  rewrite !holds_spec. intros (? & ? & ? & x & Hx & Hle) -> -> ? Hexp. destruct (Hexp x Hx) as (y & Hy & Hyx).
  split_and!; try done. exists y. split; [done|]. ts_lia.
Qed.

Lemma confirm_holds l l' o e now owner epoch until :
  lease_decide_confirm_fence l o e now = Ok l' → holds l owner epoch until = true → holds l' owner epoch until = true.
Proof.
  unfold lease_decide_confirm_fence. case_match; [done|]. intros [= <-] Hh. eapply holds_keep; try done.
  cbn. intros x ->. exists x. split; [done|ts_lia].
Qed.
Lemma renew_holds l l' o e now ttl owner epoch until :
  lease_decide_renew l o e now ttl = Ok l' → holds l owner epoch until = true → holds l' owner epoch until = true.
Proof.
  unfold lease_decide_renew. case_match; [done|]. intros [= <-] Hh. eapply holds_keep; try done.
  - by apply holds_spec in Hh as (_ & _ & ? & _).
  - cbn. intros x ->. eexists. split; [done|]. apply ts_max_le_l.
Qed.
Lemma drain_holds l l' e target now owner epoch until :
  lease_decide_begin_drain l e target now = Ok l' → holds l owner epoch until = true →
  holds l' owner epoch until = true.
Proof.
  unfold lease_decide_begin_drain. repeat (case_match; [done|]). intros [= <-] Hh. eapply holds_keep; try done.
  cbn. intros x ->. exists x. split; [done|ts_lia].
Qed.
Lemma acquire_holds l l' o now ttl owner epoch until :
  lease_decide_acquire l o now ttl = Acquired l' → holds l owner epoch until = true → ts_ltb now until = true →
  (o = owner → ts_ltb (add_millis now ttl) until = false) → holds l' owner epoch until = true.
Proof.
  unfold lease_decide_acquire. intros Hacq H Hn Hdl. rewrite (holds_live _ _ _ _ _ H Hn) in Hacq.
  apply holds_spec in H as (Ho & He & Hs & _).
  destruct (owned_by l o) eqn:Hoo; cbn in Hacq; [|done]. apply owned_by_spec in Hoo. simplify_eq.
  case_bool_decide; cbn in *; [done|]. simplify_eq. apply holds_spec. cbn. split_and!; eauto.
Qed.
Lemma release_not_held l l' o e owner epoch until :
  lease_decide_release l o e = Ok l' → holds l owner epoch until = true → o = owner ∧ e = epoch.
Proof.
  unfold lease_decide_release. case_match eqn:E; [done|]. intros _.
  rewrite !orb_false_iff, !negb_false_iff, owned_by_spec, Z.eqb_eq in E. rewrite holds_spec.
  destruct E as [[E1 E2] _]. intros (E3 & E4 & _). split; congruence.
Qed.

Section exclusive.
Context (config : ControlPlaneConfig) (queue : QueueKey) (owner : OwnerId) (epoch : Z) (until : UtcTimestamp).
Abbreviation held s := (holds (lease s queue) owner epoch until = true).

Lemma set_lease_held s q l' :
  held s → (q = queue → holds (lease s queue) owner epoch until = true → holds l' owner epoch until = true) →
  held (set_lease q l' s).
Proof. intros H Hl. rewrite lease_set. case_decide; [subst; auto|done]. Qed.

Lemma persist_held s q d :
  held s → (∀ l', d = Ok l' → q = queue → held s → holds l' owner epoch until = true) → held (persist s q d).2.
Proof. intros H Hd. destruct d as [l'|e]; cbn; [|done]. apply set_lease_held; eauto. Qed.

Lemma renew_all_held now rs s : held s → held (renew_queue_leases config s rs now).2.
Proof.
  unfold renew_queue_leases. intros H. assert (held (@nil LeaseRenewalOutcome, s).2) as Hacc by done. clear H.
  revert Hacc. generalize (@nil LeaseRenewalOutcome, s) as acc.
  induction rs as [|r rs IH]; intros acc Hacc; cbn [foldl]; [done|]. apply IH. clear IH.
  unfold renew_push, renew_one. destruct (leases acc.2 !! lr_queue r) as [current|] eqn:E; [|done].
  destruct (lease_decide_renew _ _ _ _ _) as [l'|e] eqn:Hr; [|by destruct e].
  cbn. apply set_lease_held; [done|]. intros <- Hh. unfold lease in Hh. rewrite E in Hh.
  by eapply renew_holds.
Qed.

Lemma exec_held s step : held s → respects config queue owner epoch until step = true → held (cp_exec config s step).
Proof.
  destruct step as [now op]. unfold respects. rewrite andb_true_iff. intros H [Hn Hop]. cbn [fst snd] in *.
  destruct op as [o|o|o e|q o|q o e|q o e|rs|q e t|q o e]; cbn; try done.
  - unfold acquire_queue_lease. case_match; [done|].
    destruct (lease_decide_acquire _ _ _ _) as [l'|l'] eqn:E; cbn; [|done]. apply set_lease_held; [done|].
    intros -> _. eapply acquire_holds; [done..|]. intros ->. rewrite !bool_decide_true in Hop by done. cbn in Hop.
    by apply negb_true_iff.
  - apply persist_held; [done|]. intros l' E -> _. by eapply confirm_holds.
  - apply persist_held; [done|]. intros l' E -> _. by eapply renew_holds.
  - by apply renew_all_held.
  - apply persist_held; [done|]. intros l' E -> _. by eapply drain_holds.
  - unfold release_queue_lease. destruct (lease_decide_release _ _ _) as [l'|] eqn:E; cbn; [|done].
    apply set_lease_held; [done|]. intros -> _. destruct (release_not_held _ _ _ _ _ _ _ E H) as [-> ->].
    by rewrite !bool_decide_true, Z.eqb_refl in Hop by done.
Qed.

Lemma run_held s steps :
  held s → forallb (respects config queue owner epoch until) steps = true → held (cp_run config s steps).
Proof.
  revert s. induction steps as [|step steps IH]; intros s H; cbn [forallb cp_run foldl]; [done|].
  rewrite andb_true_iff. intros [H1 H2]. apply IH; [by apply exec_held|done].
Qed.
End exclusive.

(** ** The rendezvous choice *)

Lemma weight_cmp_antisym a b : weight_cmp b a = CompOpp (weight_cmp a b).
Proof.
  unfold weight_cmp. rewrite (Z.compare_antisym a.1 b.1), (String.compare_antisym b.2 a.2).
  by destruct (a.1 ?= b.1), (String.compare a.2 b.2).
Qed.
Lemma weight_cmp_refl a : weight_cmp a a = Eq.
Proof. pose proof (weight_cmp_antisym a a) as E. by destruct (weight_cmp a a). Qed.
Lemma weight_cmp_Eq a b : weight_cmp a b = Eq → a = b.
Proof.
  unfold weight_cmp. destruct a as [w o], b as [w' o']. cbn.
  destruct (Z.compare_spec w w'); cbn; try done. intros E%String.compare_eq_iff. by subst.
Qed.
Lemma weight_cmp_le_trans a b c : weight_cmp a b ≠ Gt → weight_cmp b c ≠ Gt → weight_cmp a c ≠ Gt.
Proof.
  intros H1 H2. destruct (weight_cmp a b) eqn:E1; [by apply weight_cmp_Eq in E1 as ->| |done].
  destruct (weight_cmp b c) eqn:E2; [by apply weight_cmp_Eq in E2 as <-; rewrite E1| |done]. clear H1 H2.
  revert E1 E2. unfold weight_cmp. destruct a as [w1 o1], b as [w2 o2], c as [w3 o3]. cbn.
  destruct (Z.compare_spec w1 w2), (Z.compare_spec w2 w3), (Z.compare_spec w1 w3); cbn; try done; try lia.
  intros E1 E2. by rewrite (string_compare_lt_trans _ _ _ E1 E2).
Qed.

Lemma max_by_spec l m :
  max_by weight_cmp l = Some m → m ∈ l ∧ ∀ x, x ∈ l → weight_cmp x m ≠ Gt.
Proof.
  destruct l as [|a l]; [done|]. cbn. intros [= <-]. revert a.
  induction l as [|b l IH]; intros a; cbn [foldl].
  { split; [by apply list_elem_of_singleton|]. intros x ->%list_elem_of_singleton. by rewrite weight_cmp_refl. }
  set (c := match weight_cmp a b with Gt => a | _ => b end). destruct (IH c) as [Hin Hmax].
  assert (weight_cmp a c ≠ Gt ∧ weight_cmp b c ≠ Gt ∧ (c = a ∨ c = b)) as (Ha & Hb & Hc).
  { subst c. pose proof (weight_cmp_antisym a b) as Hanti.
    destruct (weight_cmp a b) eqn:E; cbn in *; rewrite ?weight_cmp_refl, ?E, ?Hanti; auto. }
  rewrite elem_of_cons in Hin. split.
  { rewrite !elem_of_cons. destruct Hin as [->|?], Hc as [->| ->]; auto. }
  intros x [->|[->|Hx]%elem_of_cons]%elem_of_cons.
  - eapply weight_cmp_le_trans; [done|]. apply Hmax. rewrite elem_of_cons. auto.
  - eapply weight_cmp_le_trans; [done|]. apply Hmax. rewrite elem_of_cons. auto.
  - apply Hmax. rewrite elem_of_cons. auto.
Qed.

Abbreviation weighted queue o := (rendezvous_weight queue o, o).

Lemma resolve_target_Some queue live o :
  resolve_target queue live = Some o ↔
  o ∈ live ∧ ∀ o', o' ∈ live → weight_cmp (weighted queue o') (weighted queue o) ≠ Gt.
Proof.
  unfold resolve_target. destruct (max_by weight_cmp _) as [m|] eqn:E; cbn.
  - apply max_by_spec in E as [Hin Hmax]. apply list_elem_of_fmap in Hin as (o1 & -> & H1). cbn. split.
    + intros [= <-]. split; [done|]. intros o' H'. apply Hmax, list_elem_of_fmap. eauto.
    + intros [Ho Hle]. f_equal. pose proof (Hle o1 H1) as G1.
      assert (weight_cmp (weighted queue o) (weighted queue o1) ≠ Gt) as G2 by (apply Hmax, list_elem_of_fmap; eauto).
      rewrite weight_cmp_antisym in G2. destruct (weight_cmp (weighted queue o1) _) eqn:E; try done.
      by apply weight_cmp_Eq in E as [= ].
  - split; [done|]. intros [Ho _]. destruct live; [by apply elem_of_nil in Ho|done].
Qed.

Lemma resolve_target_None queue live : resolve_target queue live = None ↔ live = [].
Proof. unfold resolve_target. by destruct live. Qed.

Lemma resolve_target_same queue live live' :
  (∀ o, o ∈ live ↔ o ∈ live') → resolve_target queue live = resolve_target queue live'.
Proof.
  intros H. apply option_eq. intros o. rewrite !resolve_target_Some, H. setoid_rewrite H. done.
Qed.

(** ** Properties *)

(** The rendezvous target of a queue is the live owner of the greatest weight
    (ties by the greater id), none exactly when no owner is live. It depends only
    on which owners are live, not on the order the map yields them. An owner that
    joins takes the queue or leaves its target unchanged, and an owner that leaves
    moves no queue but its own. *)
Theorem rendezvous_minimal queue live :
  (∀ o, resolve_target queue live = Some o ↔
        o ∈ live ∧ ∀ o', o' ∈ live → weight_cmp (weighted queue o') (weighted queue o) ≠ Gt) ∧
  (resolve_target queue live = None ↔ live = []) ∧
  (∀ live', (∀ o, o ∈ live ↔ o ∈ live') → resolve_target queue live' = resolve_target queue live) ∧
  (∀ n, resolve_target queue (n :: live) = Some n ∨ resolve_target queue (n :: live) = resolve_target queue live) ∧
  (∀ x, resolve_target queue live ≠ Some x →
        resolve_target queue (filter (λ o, o ≠ x) live) = resolve_target queue live).
Proof.
  split_and!.
  - intros o. apply resolve_target_Some.
  - apply resolve_target_None.
  - intros live' H. symmetry. by apply resolve_target_same.
  - intros n. destruct (resolve_target queue (n :: live)) as [o|] eqn:E; [|by apply resolve_target_None in E].
    apply resolve_target_Some in E as [[->|Hin]%elem_of_cons Hmax]; [by left|]. right. symmetry.
    apply resolve_target_Some. split; [done|]. intros o' Ho'. apply Hmax. rewrite elem_of_cons. auto.
  - intros x Hx. destruct (resolve_target queue live) as [o|] eqn:E.
    + apply resolve_target_Some in E as [Hin Hmax]. apply resolve_target_Some.
      rewrite list_elem_of_filter. split; [split; [congruence|done]|].
      intros o' [_ Ho']%list_elem_of_filter. by apply Hmax.
    + by apply resolve_target_None in E as ->.
Qed.

(** C25. Along any run of the authority, with the callers' clocks in any order, the
    epoch of a queue never goes back, an owned queue has an epoch of at least one,
    and two records of the same queue with the same epoch never name two owners. The
    runs are bounded by the range of the epoch, which is incremented as a [u64]. *)
Theorem epoch_names_one_owner config steps later q :
  Z.of_nat (length steps + length later) ≤ u64_max →
  let l := lease (cp_run config CpState_default steps) q in
  let l' := lease (cp_run config CpState_default (steps ++ later)) q in
  assignment_epoch l ≤ assignment_epoch l' ∧
  (active_owner_id l ≠ None → 1 ≤ assignment_epoch l) ∧
  (∀ o o', active_owner_id l = Some o → active_owner_id l' = Some o' →
           assignment_epoch l = assignment_epoch l' → o = o').
Proof.
  intros Hmax l l'. rewrite Nat2Z.inj_add in Hmax.
  pose proof (run_le config steps CpState_default q) as Hb. rewrite lease_default in Hb.
  destruct Hb as [_ Hb]; [done|cbn [assignment_epoch unassigned]; lia|]. cbn [assignment_epoch unassigned] in Hb.
  destruct (run_le config later (cp_run config CpState_default steps) q) as [Hle Hb']; [lia..|].
  assert (cp_run config CpState_default (steps ++ later) = cp_run config (cp_run config CpState_default steps) later)
    as Happ by apply foldl_app.
  subst l l'. rewrite Happ. split_and!; [lia|apply run_granted; lia|].
  intros o o' Ho Ho' He. destruct Hle as [?|[_ Hle]]; [lia|]. destruct Hle; congruence.
Qed.

(** C21. A held lease is exclusive until its deadline: whatever other callers do at
    clocks before the deadline, in any order, the holder stays the resolved active
    owner at the same epoch, and every acquisition by another owner is rejected.
    Only the holder's own release, or its own acquisition with an earlier deadline,
    are excluded. *)
Theorem live_lease_exclusive config s q owner epoch until steps now :
  holds (lease s q) owner epoch until = true →
  forallb (respects config q owner epoch until) steps = true →
  ts_ltb now until = true →
  let s' := cp_run config s steps in
  active_owner (resolve_queue_owner config s' q now) = Some owner ∧
  assignment_epoch (lease s' q) = epoch ∧
  (∀ o, o ≠ owner → is_owner_live config (owners s') o now = true →
        acquire_queue_lease config s' q o now = (Ok (AcquireRejected (lease s' q)), s')).
Proof.
  intros Hh Hsteps Hnow s'. assert (holds (lease s' q) owner epoch until = true) as Hh' by by apply run_held.
  pose proof (holds_live _ _ _ _ _ Hh' Hnow) as Hlive. apply holds_spec in Hh' as (Ho & He & _ & _).
  split_and!; [|done|].
  - unfold resolve_queue_owner, lease_resolution. by rewrite Hlive.
  - intros o Hne Hol. unfold acquire_queue_lease. rewrite Hol. cbn [negb].
    unfold lease_decide_acquire. rewrite Hlive.
    destruct (owned_by (lease s' q) o) eqn:E; [|done]. apply owned_by_spec in E. congruence.
Qed.

Lemma acquire_granted config s q owner now :
  is_owner_live config (owners s) owner now = true → is_live (lease s q) now = false →
  ∃ l, acquire_queue_lease config s q owner now = (Ok (Acquired l), set_lease q l s) ∧
       holds l owner (assignment_epoch l) (add_millis now (lease_ttl_ms config)) = true.
Proof.
  intros Ho Hl. unfold acquire_queue_lease, lease_decide_acquire. rewrite Ho, Hl. cbn.
  eexists. split; [done|]. apply holds_spec. cbn. split_and!; try done.
  - by case_match.
  - eexists. split; [done|]. ts_lia.
Qed.

Lemma confirm_held s q owner epoch until now :
  holds (lease s q) owner epoch until = true → ts_ltb now until = true →
  let l := lease (confirm_queue_lease_fence s q owner epoch now).2 q in
  holds l owner epoch until = true ∧ (ql_state l = Assigned ∨ ql_state l = Draining).
Proof.
  intros Hh Hn l. subst l. unfold confirm_queue_lease_fence.
  destruct (lease_decide_confirm_fence (lease s q) owner epoch now) as [l'|e] eqn:E; cbn [persist snd].
  - rewrite lease_set, decide_True by done. split; [by eapply confirm_holds|].
    unfold lease_decide_confirm_fence in E. case_match; [done|]. injection E as <-. by left.
  - split; [done|]. unfold lease_decide_confirm_fence in E. rewrite (holds_live _ _ _ _ _ Hh Hn) in E.
    apply holds_spec in Hh as (Ho & He & Hs & _). rewrite (proj2 (owned_by_spec _ _) Ho), He, Z.eqb_refl in E.
    cbn in E. destruct (ql_state (lease s q)); auto; done.
Qed.

(** A queue without a live lease is served again: a live owner's acquisition is
    granted, and whatever other callers do before the new deadline, the owner's
    fence confirmation at any clock before that deadline leaves it the resolved
    active owner at the granted epoch, serving (assigned, or draining when a drain
    has begun). *)
Theorem acquire_confirm_serves config s q owner now :
  is_owner_live config (owners s) owner now = true → is_live (lease s q) now = false →
  ∃ l s1, acquire_queue_lease config s q owner now = (Ok (Acquired l), s1) ∧
  let until := add_millis now (lease_ttl_ms config) in
  ∀ steps now',
    forallb (respects config q owner (assignment_epoch l) until) steps = true → ts_ltb now' until = true →
    let s2 := (confirm_queue_lease_fence (cp_run config s1 steps) q owner (assignment_epoch l) now').2 in
    let resolved := resolve_queue_owner config s2 q now' in
    active_owner resolved = Some owner ∧ assignment_epoch (lease s2 q) = assignment_epoch l ∧
    (or_state resolved = Assigned ∨ or_state resolved = Draining).
Proof.
  intros Ho Hl. destruct (acquire_granted config s q owner now Ho Hl) as (l & Hacq & Hh).
  exists l, (set_lease q l s). split; [done|]. cbn zeta. set (deadline := add_millis _ _). intros steps now' Hsteps Hn. set (s2 := (confirm_queue_lease_fence _ _ _ _ _).2).
  assert (holds (lease (cp_run config (set_lease q l s) steps) q) owner (assignment_epoch l) deadline = true) as Hr.
  { apply run_held; [|done]. by rewrite lease_set, decide_True. }
  destruct (confirm_held _ _ _ _ _ now' Hr Hn) as [Hh' Hst]. fold s2 in Hh', Hst.
  unfold resolve_queue_owner, lease_resolution. rewrite (holds_live _ _ _ _ _ Hh' Hn). cbn.
  apply holds_spec in Hh' as (? & ? & _). done.
Qed.

(** A renewal never brings a deadline forward, but the owner's own acquisition
    sets it from the clock of the call alone: one that arrives with an older clock
    shortens a lease that a renewal had extended. *)
Theorem renew_extends_acquire_shortens :
  (∀ l owner e now ttl l' x,
     lease_decide_renew l owner e now ttl = Ok l' → ql_expires_at l = Some x →
     ∃ y, ql_expires_at l' = Some y ∧ ts_ltb y x = false ∧ ts_ltb y (add_millis now ttl) = false) ∧
  (∃ l owner now ttl l' x y,
     is_live l now = true ∧ lease_decide_acquire l owner now ttl = Acquired l' ∧
     ql_expires_at l = Some x ∧ ql_expires_at l' = Some y ∧ ts_ltb y x = true).
Proof.
  split.
  - intros l owner e now ttl l' x. unfold lease_decide_renew. case_match; [done|]. intros [= <-] Hx. cbn.
    rewrite Hx. eexists. split; [done|]. unfold ts_max. destruct (ts_ltb (add_millis now ttl) x) eqn:E; split; ts_lia.
  - set (l := mkQueueLease Assigned (Some "a"%string) (Some "a"%string) 1 (Some (mkUtcTimestamp 25 0))).
    exists l, "a"%string, (mkUtcTimestamp 5 0), 15000. do 3 eexists. by split_and!.
Qed.

(** ** Samples *)

Definition sample_queue : QueueKey := mkQueueKey "t" "q".
Definition sample_owners : CpState := register_owner (register_owner CpState_default "a" (mkUtcTimestamp 10 0)) "b"
  (mkUtcTimestamp 10 0).
Definition sample_grant : list (UtcTimestamp * cp_op) :=
  [(mkUtcTimestamp 10 0, OpRegister "a"); (mkUtcTimestamp 10 0, OpRegister "b");
   (mkUtcTimestamp 10 0, OpAcquire sample_queue "a")].
(** Another owner tries to take, release and drain the queue while it is held. *)
Definition sample_intruder : list (UtcTimestamp * cp_op) :=
  [(mkUtcTimestamp 12 0, OpConfirm sample_queue "a" 1); (mkUtcTimestamp 9 0, OpAcquire sample_queue "b");
   (mkUtcTimestamp 13 0, OpRelease sample_queue "b" 1); (mkUtcTimestamp 13 0, OpDrain sample_queue 1 "b");
   (mkUtcTimestamp 14 0, OpAcquire sample_queue "b")].

Lemma epoch_names_one_owner_witness :
  active_owner_id (lease (cp_run ControlPlaneConfig_default CpState_default sample_grant) sample_queue) = Some "a"%string ∧
  assignment_epoch (lease (cp_run ControlPlaneConfig_default CpState_default sample_grant) sample_queue) ≤
  assignment_epoch (lease (cp_run ControlPlaneConfig_default CpState_default (sample_grant ++ sample_intruder))
    sample_queue).
Proof.
  split; [vm_compute; reflexivity|].
  exact (proj1 (epoch_names_one_owner ControlPlaneConfig_default sample_grant sample_intruder sample_queue
    (ltac:(vm_compute; discriminate)))).
Defined.

Lemma live_lease_exclusive_witness :
  holds (lease (cp_run ControlPlaneConfig_default CpState_default sample_grant) sample_queue) "a" 1 (mkUtcTimestamp 25 0)
    = true ∧
  active_owner (resolve_queue_owner ControlPlaneConfig_default
    (cp_run ControlPlaneConfig_default (cp_run ControlPlaneConfig_default CpState_default sample_grant) sample_intruder)
    sample_queue (mkUtcTimestamp 24 0)) = Some "a"%string.
Proof.
  split; [vm_compute; reflexivity|].
  exact (proj1 (live_lease_exclusive ControlPlaneConfig_default
    (cp_run ControlPlaneConfig_default CpState_default sample_grant) sample_queue "a" 1 (mkUtcTimestamp 25 0)
    sample_intruder (mkUtcTimestamp 24 0) (ltac:(vm_compute; reflexivity)) (ltac:(vm_compute; reflexivity))
    (ltac:(vm_compute; reflexivity)))).
Defined.

Lemma acquire_confirm_serves_witness :
  is_live (lease sample_owners sample_queue) (mkUtcTimestamp 10 0) = false ∧
  ∃ l s1, acquire_queue_lease ControlPlaneConfig_default sample_owners sample_queue "a" (mkUtcTimestamp 10 0) =
    (Ok (Acquired l), s1).
Proof.
  split; [vm_compute; reflexivity|].
  destruct (acquire_confirm_serves ControlPlaneConfig_default sample_owners sample_queue "a" (mkUtcTimestamp 10 0))
    as (l & s1 & H & _); [vm_compute; reflexivity..|]. by exists l, s1.
Defined.
