(* ===== verification/MemoryLog.v ===== *)
(** The in-process command log of [fireweed-projection] ([LogData] of [lib.rs]
    and [MemoryLog] of [compose_impls.rs]): epoch-fenced appends, paged reads, the
    persisted high-water and snapshots, with the replay loop of
    [fireweed-engine/src/async_log_replay_product.rs]. Command envelopes and
    snapshots are opaque to it. *)
From S2P Require Import Prelude Identity Engine.

#[export] Instance CommandPosition_eq_dec : EqDecision CommandPosition.
Proof. solve_decision. Defined.

Record SnapshotRef := mkSnapshotRef {
  sr_queue : QueueKey;
  sr_position : CommandPosition;
  ref_id : string;
}.

Section log.
Context {Cmd Snap : Type}.

Record LogData := mkLogData {
  ld_epoch : Z;
  entries : list (Z * Cmd);
  ld_high_water : option CommandPosition;
  entry_base_seq : Z;
  snapshots : list (SnapshotRef * Snap);
}.
Definition LogData_default : LogData := mkLogData 0 [] None 0 [].

Record CommandPage := mkCommandPage {
  page_entries : list (CommandPosition * Cmd);
  page_next : option CommandPosition;
}.

(** ** Operations of one shard *)

Definition seq_at (log : LogData) (i : nat) : Z := saturating_add_u64 (entry_base_seq log) (Z.of_nat i).

Definition push_entry (shard : QueueKey) (acc : LogData * list CommandPosition) (cmd : Cmd)
    : LogData * list CommandPosition :=
  let '(log, positions) := acc in
  let pos := mkCommandPosition shard (ld_epoch log) (seq_at log (length (entries log))) in
  (mkLogData (ld_epoch log) (entries log ++ [(ld_epoch log, cmd)]) (Some pos) (entry_base_seq log) (snapshots log),
   positions ++ [pos]).

Definition append (log : LogData) (shard : QueueKey) (commands : list Cmd) (expected_epoch : Z)
    : EngineResult (list CommandPosition) * LogData :=
  if negb (expected_epoch =? ld_epoch log) then (Err EpochFenced, log)
  else let '(log, positions) := foldl (push_entry shard) (log, []) commands in (Ok positions, log).

Definition advance_epoch (log : LogData) : Z * LogData :=
  let e := (ld_epoch log + 1) mod 2 ^ 64 in
  (e, mkLogData e (entries log) (ld_high_water log) (entry_base_seq log) (snapshots log)).

Definition entry_position (log : LogData) (shard : QueueKey) (i : nat) (e : Z * Cmd) : CommandPosition :=
  mkCommandPosition shard e.1 (seq_at log i).

(** Absolute sequence to an index into the entry buffer. *)
Definition start_index (log : LogData) (from : option CommandPosition) : nat :=
  match from with
  | Some p => Z.to_nat (saturating_sub_u64 (saturating_add_u64 (cp_sequence p) 1) (entry_base_seq log))
  | None => 0%nat
  end.

(** The entries with their positions, [iter().enumerate()]. *)
Definition positioned (log : LogData) (shard : QueueKey) : list (CommandPosition * Cmd) :=
  imap (λ i e, (entry_position log shard i e, e.2)) (entries log).

Definition read_from (log : LogData) (shard : QueueKey) (from : option CommandPosition) (limit : nat) : CommandPage :=
  let start := start_index log from in
  let page := take limit (drop start (positioned log shard)) in
  let idx := (start + length page)%nat in
  mkCommandPage page
    (if (idx <? length (entries log))%nat
     then (λ e, entry_position log shard idx e) <$> entries log !! idx
     else None).

Definition set_high_water (log : LogData) (position : CommandPosition) : EngineResult unit * LogData :=
  let regression :=
    match ld_high_water log with
    | Some cur => negb (precedes cur position) && negb (bool_decide (cur = position))
    | None => false
    end in
  if regression then (Err (Invalid "high-water regression"%string), log)
  else
    let '(epoch, base) :=
      match entries log with
      | [] => (if ld_epoch log <? backend_epoch position then backend_epoch position else ld_epoch log,
               saturating_add_u64 (cp_sequence position) 1)
      | _ => (ld_epoch log, entry_base_seq log)
      end in
    (Ok tt, mkLogData epoch (entries log) (Some position) base (snapshots log)).

Definition snap_id (n : nat) : string := String.append "snap-" (ItemId.Display (ItemId.mk (Z.of_nat n))).

Definition write_snapshot (log : LogData) (shard : QueueKey) (position : CommandPosition) (snapshot : Snap)
    : SnapshotRef * LogData :=
  let r := mkSnapshotRef shard position (snap_id (length (snapshots log))) in
  (r, mkLogData (ld_epoch log) (entries log) (ld_high_water log) (entry_base_seq log) (snapshots log ++ [(r, snapshot)])).

Definition latest_snapshot (log : LogData) : option SnapshotRef := fst <$> last (snapshots log).

Definition snapshot_at_or_before (log : LogData) (position : CommandPosition) : option SnapshotRef :=
  fst <$> List.find (λ r : SnapshotRef * Snap,
    precedes (sr_position r.1) position || bool_decide (sr_position r.1 = position)) (rev (snapshots log)).

Definition read_snapshot (log : LogData) (snapshot_ref : SnapshotRef) : EngineResult Snap :=
  match List.find (λ r : SnapshotRef * Snap, String.eqb (ref_id r.1) (ref_id snapshot_ref)) (snapshots log) with
  | Some (_, s) => Ok s
  | None => Err NotFound
  end.

(** ** The shard map *)

Definition MemoryLog := gmap QueueKey LogData.

Definition ensure_shard (logs : MemoryLog) (shard : QueueKey) : MemoryLog :=
  match logs !! shard with Some _ => logs | None => <[shard := LogData_default]> logs end.
Definition log_current_epoch (logs : MemoryLog) (shard : QueueKey) : EngineResult Z :=
  ok_or (ld_epoch <$> logs !! shard) NotFound.
Definition log_acquire_epoch (logs : MemoryLog) (shard : QueueKey) : EngineResult Z * MemoryLog :=
  match logs !! shard with
  | Some log => let '(e, log) := advance_epoch log in (Ok e, <[shard := log]> logs)
  | None => (Err NotFound, logs)
  end.
Definition log_append (logs : MemoryLog) (shard : QueueKey) (commands : list Cmd) (expected_epoch : Z)
    : EngineResult (list CommandPosition) * MemoryLog :=
  match logs !! shard with
  | Some log => let '(r, log) := append log shard commands expected_epoch in (r, <[shard := log]> logs)
  | None => (Err NotFound, logs)
  end.
Definition log_read_from (logs : MemoryLog) (shard : QueueKey) (from : option CommandPosition) (limit : nat)
    : EngineResult CommandPage :=
  log ← ok_or (logs !! shard) NotFound; Ok (read_from log shard from limit).

(** ** Replay *)

(** The paged replay of [read_as_of]: follow [page.next] until the page is empty,
    there is no continuation, or an entry lies after [position]. *)
Definition replays (position : CommandPosition) (e : CommandPosition * Cmd) : bool :=
  bool_decide (e.1 = position) || precedes e.1 position.

Fixpoint take_replayed (position : CommandPosition) (page : list (CommandPosition * Cmd))
    : list (CommandPosition * Cmd) * bool :=
  match page with
  | [] => ([], false)
  | e :: page =>
      if replays position e then let '(l, reached) := take_replayed position page in (e :: l, reached)
      else ([], true)
  end.

Fixpoint replay (fuel : nat) (log : LogData) (shard : QueueKey) (position : CommandPosition)
    (from : option CommandPosition) (limit : nat) : list (CommandPosition * Cmd) :=
  match fuel with
  | O => []
  | S fuel =>
      let page := read_from log shard from limit in
      match page_entries page with
      | [] => []
      | es =>
          let '(applied, reached) := take_replayed position es in
          match page_next page with
          | Some next => if reached then applied else applied ++ replay fuel log shard position (Some next) limit
          | None => applied
          end
      end
  end.

End log.
Arguments LogData : clear implicits.
Arguments CommandPage : clear implicits.
Arguments MemoryLog : clear implicits.

(** ** Facts *)

Section facts.
Context {Cmd Snap : Type}.
Implicit Types (log : LogData Cmd Snap) (shard : QueueKey).

(** Sequence numbers stay below the end of [u64]. *)
Definition in_range log : Prop :=
  0 ≤ entry_base_seq log ∧ entry_base_seq log + Z.of_nat (length (entries log)) ≤ u64_max.

Lemma seq_at_eq log i :
  in_range log → (i ≤ length (entries log))%nat → seq_at log i = entry_base_seq log + Z.of_nat i.
Proof. unfold in_range, seq_at, saturating_add_u64. lia. Qed.

Lemma length_positioned log shard : length (positioned log shard) = length (entries log).
Proof. apply length_imap. Qed.

Lemma positioned_lookup log shard i :
  positioned log shard !! i = (λ e, (entry_position log shard i e, e.2)) <$> entries log !! i.
Proof. apply list_lookup_imap. Qed.

(** Resuming from the position of entry [i] starts at entry [i + 1]. *)
Lemma start_index_next log i p :
  in_range log → (i < length (entries log))%nat → cp_sequence p = seq_at log i → start_index log (Some p) = S i.
Proof.
  intros Hr Hi Hp. cbn. rewrite Hp, seq_at_eq by (done || lia).
  unfold in_range, saturating_sub_u64, saturating_add_u64 in *. lia.
Qed.

Lemma push_entry_fold log shard cmds acc :
  foldl (push_entry shard) (log, acc) cmds =
  let ps := imap (λ i _, mkCommandPosition shard (ld_epoch log) (seq_at log (length (entries log) + i))) cmds in
  (mkLogData (ld_epoch log) (entries log ++ ((λ c, (ld_epoch log, c)) <$> cmds))
     (match last ps with Some p => Some p | None => ld_high_water log end) (entry_base_seq log) (snapshots log),
   acc ++ ps).
Proof.
  revert log acc. induction cmds as [|c cmds IH]; intros log acc; cbn [foldl].
  { cbn. rewrite !app_nil_r. by destruct log. }
  unfold push_entry at 2. rewrite IH. cbn [ld_epoch entries ld_high_water entry_base_seq snapshots]. cbn zeta.
  rewrite imap_cons. cbn [fmap list_fmap]. rewrite Nat.add_0_r, length_app. cbn [length].
  rewrite <-!app_assoc. cbn [app].
  assert (∀ i, seq_at (mkLogData (ld_epoch log) (entries log ++ [(ld_epoch log, c)])
    (Some (mkCommandPosition shard (ld_epoch log) (seq_at log (length (entries log)))))
    (entry_base_seq log) (snapshots log)) i = seq_at log i) as Hseq by done.
  rewrite (imap_ext _ ((λ i (_ : Cmd), mkCommandPosition shard (ld_epoch log) (seq_at log (length (entries log) + i))) ∘ S)).
  - cbn. f_equal. f_equal. destruct (last (imap _ cmds)) eqn:E.
    + rewrite last_cons. by rewrite E.
    + rewrite last_cons. by rewrite E.
  - intros i x _. cbn. rewrite Hseq. f_equal. f_equal. lia.
Qed.

(** Appending leaves the earlier positions alone. *)
Lemma positioned_app log log' shard l :
  entries log' = entries log ++ l → entry_base_seq log' = entry_base_seq log →
  positioned log' shard = positioned log shard ++
    imap (λ i e, (entry_position log shard (length (entries log) + i) e, e.2)) l.
Proof.
  intros He Hb. unfold positioned. rewrite He, imap_app. f_equal.
  - apply imap_ext. intros i x _. unfold entry_position, seq_at. by rewrite Hb.
  - apply imap_ext. intros i x _. cbn. unfold entry_position, seq_at. by rewrite Hb.
Qed.

Lemma zip_imap {A B} (f : nat → A → B) l : zip (imap f l) l = imap (λ i x, (f i x, x)) l.
Proof. revert f. induction l as [|x l IH]; intros f; cbn; [done|]. f_equal. apply IH. Qed.

(** What following [page_next] reads: one entry is lost at every page end. *)
Fixpoint skipping {A} (fuel limit : nat) (l : list A) : list A :=
  match fuel with
  | O => []
  | S fuel => take limit l ++ skipping fuel limit (drop (S limit) l)
  end.

Lemma skipping_nil {A} fuel limit : skipping fuel limit (@nil A) = [].
Proof. induction fuel; cbn; [done|]. by rewrite take_nil. Qed.

Lemma skipping_length {A} fuel limit (l : list A) :
  (limit < length l)%nat → (length (skipping fuel limit l) < length l)%nat.
Proof.
  revert l. induction fuel as [|fuel IH]; intros l Hl; cbn [skipping]; [cbn; lia|].
  rewrite length_app, length_take.
  destruct (decide (limit < length (drop (S limit) l))%nat) as [H|H].
  - specialize (IH _ H). rewrite length_drop in IH. lia.
  - assert (length (skipping fuel limit (drop (S limit) l)) ≤ length (drop (S limit) l))%nat as Hle.
    { destruct fuel; cbn [skipping]; [cbn; lia|]. rewrite length_app, length_take, (drop_ge (drop _ _)) by lia.
      rewrite skipping_nil. cbn. lia. }
    rewrite length_drop in Hle. lia.
Qed.

Lemma skipping_exact {A} fuel limit (l : list A) :
  (length l ≤ fuel)%nat → (0 < limit)%nat → skipping (S fuel) limit l = l ↔ (length l ≤ limit)%nat.
Proof.
  intros Hf Hlim. split.
  - intros E. destruct (decide (limit < length l)%nat) as [H|H]; [|lia].
    apply (skipping_length (S fuel)) in H. rewrite E in H. lia.
  - intros H. cbn [skipping]. by rewrite take_ge, drop_ge, skipping_nil, app_nil_r by lia.
Qed.

Lemma take_replayed_all position page :
  Forall (λ e, replays (Cmd:=Cmd) position e = true) page → take_replayed position page = (page, false).
Proof. induction 1 as [|e page He _ IH]; cbn; [done|]. by rewrite He, IH. Qed.

Lemma replay_skipping log shard position from limit fuel :
  in_range log → (0 < limit)%nat →
  Forall (λ e, replays position e = true) (positioned log shard) →
  replay fuel log shard position from limit = skipping fuel limit (drop (start_index log from) (positioned log shard)).
Proof.
  intros Hr Hlim Hall. revert from. induction fuel as [|fuel IH]; intros from; cbn [replay skipping]; [done|].
  unfold read_from. cbn [page_entries page_next]. set (start := start_index log from).
  set (page := take limit (drop start (positioned log shard))).
  destruct page as [|e0 page'] eqn:Hpage.
  { assert (drop start (positioned log shard) = []) as ->.
    { apply (f_equal length) in Hpage. subst page. rewrite length_take in Hpage. cbn in Hpage.
      apply nil_length_inv. lia. }
    by rewrite drop_nil, skipping_nil. }
  rewrite <-Hpage. rewrite take_replayed_all by (subst page; by apply Forall_take, Forall_drop).
  rewrite drop_drop. assert (length page = limit `min` (length (entries log) - start))%nat as Hlen.
  { subst page. by rewrite length_take, length_drop, length_positioned. }
  destruct (Nat.ltb_spec (start + length page) (length (entries log))) as [Hlt|Hge].
  - assert (length page = limit) as Hpl by lia. rewrite Hpl in Hlt |- *.
    destruct (lookup_lt_is_Some_2 _ _ Hlt) as [e He]. rewrite He. cbn [fmap option_fmap option_map]. f_equal.
    rewrite IH. do 2 f_equal. rewrite (start_index_next log (start + limit)); [lia|done..].
  - rewrite (drop_ge (positioned log shard)), skipping_nil, app_nil_r; [done|]. rewrite length_positioned. lia.
Qed.
End facts.

(** ** Histories of a shard's log *)

Section history.
Context {Cmd Snap : Type}.
Implicit Types (log : LogData Cmd Snap) (shard : QueueKey).

Inductive log_op :=
| LAppend (commands : list Cmd) (expected_epoch : Z)
| LAdvance
| LSetHighWater (position : CommandPosition)
| LSnapshot (position : CommandPosition) (snapshot : Snap).

Definition log_exec shard log (op : log_op) : LogData Cmd Snap :=
  match op with
  | LAppend commands e => (append log shard commands e).2
  | LAdvance => (advance_epoch log).2
  | LSetHighWater position => (set_high_water log position).2
  | LSnapshot position snapshot => (write_snapshot log shard position snapshot).2
  end.
Definition log_run shard log (ops : list log_op) : LogData Cmd Snap := foldl (log_exec shard) log ops.

(** No counter leaves its width in the step. *)
Definition op_fits log (op : log_op) : bool :=
  match op with
  | LAppend commands _ =>
      entry_base_seq log + Z.of_nat (length (entries log)) + Z.of_nat (length commands) <=? u64_max
  | LAdvance => ld_epoch log <? u64_max
  | LSetHighWater position =>
      (0 <=? cp_sequence position) && (cp_sequence position <? u64_max) && (0 <=? backend_epoch position)
  | LSnapshot _ _ => true
  end.
Fixpoint run_fits shard log (ops : list log_op) : bool :=
  match ops with
  | [] => true
  | op :: ops => op_fits log op && run_fits shard (log_exec shard log op) ops
  end.

(** Epochs never decrease along the entries and none is above the current one. *)
Definition log_ok log : Prop :=
  in_range log ∧ 0 ≤ ld_epoch log ∧ StronglySorted Z.le ((entries log).*1 ++ [ld_epoch log]).

Lemma sorted_snoc l (a b : Z) : StronglySorted Z.le (l ++ [a]) → a ≤ b → StronglySorted Z.le (l ++ [b]).
Proof.
  rewrite !StronglySorted_app. intros (Hl & Hs & _) Hab. split_and!; [|done|by repeat constructor].
  intros x y Hx ->%list_elem_of_singleton. etrans; [|exact Hab]. apply Hl; [done|by apply list_elem_of_singleton].
Qed.

Lemma sorted_epochs l (cmds : list Cmd) (e : Z) :
  StronglySorted Z.le (l ++ [e]) → StronglySorted Z.le (l ++ ((λ c, (e, c)) <$> cmds).*1 ++ [e]).
Proof.
  intros H. induction cmds as [|c cmds IH]; cbn; [done|].
  rewrite StronglySorted_app in IH |- *. destruct IH as (H1 & H2 & H3). split_and!; [|done|].
  - intros x y Hx [->|Hy]%elem_of_cons; [|by apply H1].
    apply StronglySorted_app in H as (Hle & _). apply Hle; [done|by apply list_elem_of_singleton].
  - constructor; [done|]. rewrite Forall_app, Forall_singleton. split; [|lia].
    apply Forall_forall. intros y. rewrite <-list_fmap_compose, list_elem_of_fmap. cbn. intros (? & -> & _). lia.
Qed.

Lemma log_exec_ok shard log op : log_ok log → op_fits log op = true → log_ok (log_exec shard log op).
Proof.
  intros (Hr & He & Hs) Hf. unfold in_range in Hr. destruct op as [cmds e| |p|p snap]; cbn [log_exec op_fits] in *.
  - apply Z.leb_le in Hf. unfold append. case_match; [done|]. rewrite push_entry_fold. cbn.
    split_and!; [..|done|]; unfold in_range; cbn; rewrite ?length_app, ?length_fmap; [lia..|].
    rewrite fmap_app, <-app_assoc. by apply sorted_epochs.
  - apply Z.ltb_lt in Hf. unfold advance_epoch. cbn. rewrite Z.mod_small by int_lia.
    split_and!; [done..|cbn; lia|]. cbn. eapply sorted_snoc; [done|lia].
  - rewrite !andb_true_iff, !Z.leb_le, Z.ltb_lt in Hf. unfold set_high_water.
    destruct (match ld_high_water log with Some _ => _ | None => _ end); [done|].
    destruct (entries log) as [|x l] eqn:E.
    + cbn. split_and!; [split; cbn; unfold saturating_add_u64; lia| |]; cbn.
      * destruct (Z.ltb_spec (ld_epoch log) (backend_epoch p)); lia.
      * by repeat constructor.
    + cbn. split_and!; [split; cbn; cbn in Hr; lia|done|done].
  - done.
Qed.

Lemma log_run_ok shard log ops : log_ok log → run_fits shard log ops = true → log_ok (log_run shard log ops).
Proof.
  revert log. induction ops as [|op ops IH]; intros log H; cbn [run_fits log_run foldl]; [done|].
  rewrite andb_true_iff. intros [H1 H2]. apply IH; [by apply log_exec_ok|done].
Qed.

Lemma default_ok : log_ok LogData_default.
Proof. split_and!; [split; cbn; int_lia|cbn; lia|by repeat constructor]. Qed.

Lemma precedes_spec p q :
  precedes p q = true ↔
  backend_epoch p < backend_epoch q ∨ (backend_epoch p = backend_epoch q ∧ cp_sequence p < cp_sequence q).
Proof.
  unfold precedes. destruct (Z.compare_spec (backend_epoch p) (backend_epoch q)); cbn [then_cmp];
    [destruct (Z.compare_spec (cp_sequence p) (cp_sequence q))|..]; naive_solver lia.
Qed.

Lemma epochs_sorted log i j x y :
  log_ok log → entries log !! i = Some x → entries log !! j = Some y → (i < j)%nat → x.1 ≤ y.1.
Proof.
  intros (_ & _ & Hs) Hi Hj Hij. apply StronglySorted_app in Hs as (_ & Hs & _).
  assert ((entries log).*1 = take j (entries log).*1 ++ drop j (entries log).*1) as E by by rewrite take_drop.
  rewrite E in Hs. eapply (StronglySorted_app_1_elem_of _ _ _ _ _ Hs).
  - apply list_elem_of_lookup. exists i. rewrite lookup_take_lt by done. by rewrite list_lookup_fmap, Hi.
  - apply list_elem_of_lookup. exists 0%nat. rewrite lookup_drop, Nat.add_0_r. by rewrite list_lookup_fmap, Hj.
Qed.
End history.
Arguments log_op : clear implicits.

(** ** Snapshots *)

Lemma string_append_inj_l (p a b : string) : String.append p a = String.append p b → a = b.
Proof. induction p as [|c p IH]; cbn; [done|]. intros [= H]. auto. Qed.

Lemma snap_id_inj n m : Z.of_nat n ≤ u64_max → Z.of_nat m ≤ u64_max → snap_id n = snap_id m → n = m.
Proof.
  intros Hn Hm E. apply string_append_inj_l in E. apply (f_equal ItemId.parse_u64) in E.
  rewrite !ItemIdFacts.parse_u64_Display in E by (cbn; unfold is_u64; lia). cbn in E. injection E. lia.
Qed.

Section snapshot_facts.
Context {Cmd Snap : Type}.
Implicit Types (log : LogData Cmd Snap) (shard : QueueKey).

(** Every reference is named after its index. *)
Definition snapshots_named log : Prop :=
  Z.of_nat (length (snapshots log)) ≤ u64_max ∧
  ∀ i r, snapshots log !! i = Some r → ref_id r.1 = snap_id i.

Lemma find_named (l : list (SnapshotRef * Snap)) k i r :
  (∀ j x, l !! j = Some x → ref_id x.1 = snap_id (k + j)) → Z.of_nat (k + length l) ≤ u64_max →
  l !! i = Some r → List.find (λ x : SnapshotRef * Snap, String.eqb (ref_id x.1) (ref_id r.1)) l = Some r.
Proof.
  revert k i. induction l as [|x l IH]; intros k i Hn Hlen Hi; [done|]. cbn [length] in Hlen.
  assert (i < length (x :: l))%nat as Hil by (eapply lookup_lt_Some; exact Hi). cbn [length] in Hil.
  destruct i as [|i]; cbn in Hi |- *.
  { injection Hi as ->. by rewrite String.eqb_refl. }
  destruct (String.eqb_spec (ref_id x.1) (ref_id r.1)) as [E|_].
  - rewrite (Hn 0%nat x eq_refl), (Hn (S i) r Hi) in E. apply snap_id_inj in E; lia.
  - apply (IH (S k) i); [|lia|done]. intros j y Hj. rewrite (Hn (S j) y Hj). f_equal. lia.
Qed.

(** A snapshot is read back under the reference it was written with, and writing
    another leaves the earlier ones readable. *)
Theorem snapshot_roundtrip log shard position snapshot :
  snapshots_named log → Z.of_nat (S (length (snapshots log))) ≤ u64_max →
  let '(r, log') := write_snapshot log shard position snapshot in
  snapshots_named log' ∧ read_snapshot log' r = Ok snapshot ∧
  latest_snapshot log' = Some r ∧
  ∀ i x, snapshots log !! i = Some x → read_snapshot log' x.1 = Ok x.2.
Proof.
  intros [Hlen Hn] Hmax. unfold write_snapshot. set (r := mkSnapshotRef _ _ _).
  set (log' := mkLogData _ _ _ _ _).
  assert (snapshots_named log') as Hn'.
  { split; [subst log'; cbn; rewrite length_app; cbn; lia|]. intros i x. subst log'. cbn.
    intros [Hi|[Hge Hi]]%lookup_app_Some; [by apply Hn|]. apply list_lookup_singleton_Some in Hi as [Hi <-].
    cbn. f_equal. lia. }
  assert (∀ i x, snapshots log' !! i = Some x → read_snapshot log' x.1 = Ok x.2) as Hread.
  { intros i x Hx. unfold read_snapshot. rewrite (find_named _ 0 i x); [by destruct x| |apply Hn'|done].
    intros j y. apply Hn'. }
  split_and!; [done| | |].
  - apply (Hread (length (snapshots log)) (r, snapshot)). subst log'. cbn.
    by rewrite lookup_app_r, Nat.sub_diag by done.
  - unfold latest_snapshot. subst log'. cbn. by rewrite last_snoc.
  - intros i x Hx. apply (Hread i x). subst log'. cbn. by apply lookup_app_l_Some.
Qed.
End snapshot_facts.

Lemma set_high_water_spec {Cmd Snap} (log : LogData Cmd Snap) shard position :
  let reached cur := cur = position ∨ precedes cur position = true in
  match set_high_water log position with
  | (Err _, log') => log' = log ∧ ∃ cur, ld_high_water log = Some cur ∧ ¬ reached cur
  | (Ok _, log') =>
      ld_high_water log' = Some position ∧ positioned log' shard = positioned log shard ∧
      ∀ cur, ld_high_water log = Some cur → reached cur
  end.
Proof.
  intros reached. subst reached. unfold set_high_water.
  destruct (ld_high_water log) as [cur|] eqn:Hhw; [destruct (precedes cur position) eqn:Hp; [|case_bool_decide]|]; cbn.
  3: { split; [done|]. exists cur. naive_solver congruence. }
  all: unfold positioned; destruct (entries log) eqn:He; cbn; rewrite ?He;
    (split_and!; [done|by rewrite ?He|naive_solver]).
Qed.

(** ** Properties *)

Section properties.
Context {Cmd Snap : Type}.
Implicit Types (log : LogData Cmd Snap) (shard : QueueKey).

(** C33. After any history of a shard's log whose counters stay in range (appends,
    epoch advances, high-water settings, snapshots), command positions strictly
    increase along the log. An append under any epoch but the current one is fenced
    and changes nothing; under the current one it adds exactly the commands, in
    order, after the existing entries, at the positions it returns, all stamped with
    the current epoch, and the high-water is the last of them. Setting the high-water
    never moves it back: a position before it is refused and changes nothing, any
    other becomes the high-water and leaves the entries at their positions. *)
Theorem log_positions_increase shard (ops : list (log_op Cmd Snap)) :
  run_fits shard LogData_default ops = true →
  let log := log_run shard LogData_default ops in
  (∀ i j p q, (i < j)%nat → positioned log shard !! i = Some p → positioned log shard !! j = Some q →
              precedes p.1 q.1 = true) ∧
  (∀ commands e, op_fits log (LAppend commands e) = true →
     match append log shard commands e with
     | (Err err, log') => err = EpochFenced ∧ e ≠ ld_epoch log ∧ log' = log
     | (Ok ps, log') =>
         e = ld_epoch log ∧ length ps = length commands ∧
         positioned log' shard = positioned log shard ++ zip ps commands ∧
         Forall (λ p, backend_epoch p = e) ps ∧
         ld_high_water log' = match last ps with Some p => Some p | None => ld_high_water log end
     end) ∧
  (∀ position,
     let reached cur := cur = position ∨ precedes cur position = true in
     match set_high_water log position with
     | (Err _, log') => log' = log ∧ ∃ cur, ld_high_water log = Some cur ∧ ¬ reached cur
     | (Ok _, log') =>
         ld_high_water log' = Some position ∧ positioned log' shard = positioned log shard ∧
         ∀ cur, ld_high_water log = Some cur → reached cur
     end).
Proof.
  intros Hfits log. assert (log_ok log) as Hok by (by apply log_run_ok; [apply default_ok|]).
  split_and!; [| |by apply set_high_water_spec].
  - intros i j p q Hij. rewrite !positioned_lookup, !fmap_Some. intros (x & Hx & ->) (y & Hy & ->).
    apply precedes_spec. cbn. pose proof (epochs_sorted log i j x y Hok Hx Hy Hij).
    apply lookup_lt_Some in Hx, Hy. destruct Hok as [Hr _]. rewrite !seq_at_eq by (done || lia). lia.
  - intros commands e Hf. unfold append. destruct (Z.eqb_spec e (ld_epoch log)) as [->|Hne]; cbn [negb]; [|done].
    rewrite push_entry_fold. cbn [app]. set (ps := imap _ commands). split_and!; [done| | | |done].
    + subst ps. by rewrite length_imap.
    + erewrite positioned_app by done. f_equal. subst ps. by rewrite zip_imap, imap_fmap.
    + subst ps. apply Forall_forall. intros p [i Hp]%list_elem_of_lookup.
      rewrite list_lookup_imap in Hp. by apply fmap_Some in Hp as (x & _ & ->).
Qed.

(** Reading resumes exactly at the position of an entry: from entry [i] a page
    holds the next entries. But the continuation a page carries is the position of
    the first entry it does not hold, so the replay loop, which resumes from it,
    loses one command at every page end: it applies all commands to replay exactly
    when they fit in one page. *)
Theorem replay_loses_commands log shard position from limit :
  in_range log → (0 < limit)%nat → Forall (λ e, replays position e = true) (positioned log shard) →
  (∀ i p, positioned log shard !! i = Some p →
          page_entries (read_from log shard (Some p.1) limit) = take limit (drop (S i) (positioned log shard))) ∧
  let rest := drop (start_index log from) (positioned log shard) in
  let fuel := S (length (entries log)) in
  replay fuel log shard position from limit = skipping fuel limit rest ∧
  (replay fuel log shard position from limit = rest ↔ (length rest ≤ limit)%nat).
Proof.
  intros Hr Hlim Hall. split.
  - intros i p. rewrite positioned_lookup, fmap_Some. intros (x & Hx & ->). cbn [read_from page_entries fst].
    rewrite (start_index_next log i); [done|done|by eapply lookup_lt_Some|done].
  - intros rest fuel. subst fuel. rewrite replay_skipping by done. split; [done|].
    apply skipping_exact; [|done]. subst rest. rewrite length_drop, length_positioned. lia.
Qed.
End properties.

(** ** Samples *)

Definition log_shard : QueueKey := mkQueueKey "t" "q".
Definition log_sample : list (log_op Z unit) :=
  [LSetHighWater (mkCommandPosition log_shard 3 9); LAppend [1; 2] 3; LAdvance; LAppend [3] 3; LAppend [4; 5; 6] 4].

Lemma log_positions_increase_witness :
  run_fits log_shard LogData_default log_sample = true ∧
  precedes (mkCommandPosition log_shard 3 11) (mkCommandPosition log_shard 4 12) = true.
Proof.
  split; [vm_compute; reflexivity|].
  exact (proj1 (log_positions_increase log_shard log_sample (ltac:(vm_compute; reflexivity))) 1%nat 2%nat
    (mkCommandPosition log_shard 3 11, 2) (mkCommandPosition log_shard 4 12, 4) (ltac:(lia))
    (ltac:(vm_compute; reflexivity)) (ltac:(vm_compute; reflexivity))).
Defined.

Definition log_sampled : LogData Z unit := log_run log_shard LogData_default log_sample.

(** Five commands in pages of two: the third is lost. *)
Lemma replay_loses_commands_witness :
  (replay 6 log_sampled log_shard (mkCommandPosition log_shard 4 14) None 2).*2 = [1; 2; 5; 6] ∧
  (replay 6 log_sampled log_shard (mkCommandPosition log_shard 4 14) None 2 = positioned log_sampled log_shard ↔ (5 ≤ 2)%nat).
Proof.
  split; [vm_compute; reflexivity|].
  refine (proj2 (proj2 (replay_loses_commands log_sampled log_shard
    (mkCommandPosition log_shard 4 14) None 2 _ _ _))).
  - split; vm_compute; discriminate.
  - lia.
  - vm_compute. repeat constructor.
Defined.
