(* ===== verification/Ownership.v ===== *)
(** Queue ownership of [fireweed-engine/src/ownership.rs]: taking a lease and
    fencing the storage epoch before serving. The storage is an interface, with the
    in-process log as an implementation; calls interleave at every point where the
    code awaits. *)
From S2P Require Import Prelude Identity Lifecycle Engine ControlPlane MemoryLog.

(** ** The storage epoch *)

(** How a store implements [fence_epoch]: one conditional transition, the default
    loop of [ControlPlaneStore], or the loop of [AsyncLogReplayBackend], which does
    not look whether an acquisition went past the target. *)
Inductive FenceImpl (S : Type) :=
| FenceAtomic (f : S → QueueKey → Z → EngineResult Z * S)
| FenceLoopGuarded
| FenceLoopUnguarded.
Arguments FenceAtomic {S}.
Arguments FenceLoopGuarded {S}.
Arguments FenceLoopUnguarded {S}.

(** [current_epoch], [acquire_epoch] and [fence_epoch] of [ControlPlaneStore]. *)
Class EpochStore (S : Type) := {
  current_epoch : S → QueueKey → EngineResult Z;
  acquire_epoch : S → QueueKey → EngineResult Z * S;
  fence_impl : FenceImpl S;
}.

(** What the ports document: the epoch read is the stored one, an acquisition
    stores a strictly greater epoch, a fence stores exactly its target, no call
    lowers an epoch or touches another queue's. A failed call may have advanced. *)
Class EpochStoreLaws (S : Type) `{!EpochStore S} := {
  stored : S → QueueKey → Z;
  stored_current s q e : current_epoch s q = Ok e → stored s q = e;
  stored_acquire s q e s' :
    stored s q < u64_max → acquire_epoch s q = (Ok e, s') → stored s' q = e ∧ stored s q < e;
  stored_acquire_err s q x s' : stored s q < u64_max → acquire_epoch s q = (Err x, s') → stored s q ≤ stored s' q;
  stored_acquire_frame s q q' r s' : q ≠ q' → acquire_epoch s q = (r, s') → stored s' q' = stored s q';
  stored_fence f s q target e s' :
    fence_impl = FenceAtomic f → f s q target = (Ok e, s') → e = target ∧ stored s' q = target ∧ stored s q ≤ target;
  stored_fence_err f s q target x s' :
    fence_impl = FenceAtomic f → f s q target = (Err x, s') → stored s q ≤ stored s' q;
  stored_fence_frame f s q q' target r s' :
    fence_impl = FenceAtomic f → q ≠ q' → f s q target = (r, s') → stored s' q' = stored s q';
}.

Section ownership.
Context {S : Type} `{!EpochStore S}.

(** The loops of [fence_epoch]: at most [target - current] acquisitions. *)
Fixpoint fence_loop (guarded : bool) (fuel : nat) (s : S) (q : QueueKey) (target current : Z) : EngineResult Z * S :=
  if current <? target then
    match fuel with
    | O => (Err EpochFenced, s)
    | Datatypes.S fuel =>
        match acquire_epoch s q with
        | (Err e, s) => (Err e, s)
        | (Ok current, s) =>
            if guarded && (target <? current) then (Err EpochFenced, s)
            else fence_loop guarded fuel s q target current
        end
    end
  else (Ok current, s).

Definition fence_by_loop (guarded : bool) (s : S) (q : QueueKey) (target : Z) : EngineResult Z * S :=
  match current_epoch s q with
  | Err e => (Err e, s)
  | Ok current =>
      if target <? current then (Err EpochFenced, s)
      else fence_loop guarded (Z.to_nat (target - current)) s q target current
  end.

Definition fence_epoch (s : S) (q : QueueKey) (target : Z) : EngineResult Z * S :=
  match fence_impl with
  | FenceAtomic f => f s q target
  | FenceLoopGuarded => fence_by_loop true s q target
  | FenceLoopUnguarded => fence_by_loop false s q target
  end.
Definition fence_guarded : bool := match fence_impl with FenceLoopUnguarded => false | _ => true end.

Definition establish_ownership_fence (s : S) (q : QueueKey) (current assignment : Z) (ephemeral same_session : bool)
    : EngineResult Z * S :=
  if current <? assignment then fence_epoch s q assignment
  else if ephemeral then if same_session then (Ok current, s) else acquire_epoch s q
  else if current =? assignment then fence_epoch s q assignment
  else (Err EpochFenced, s).

(** ** Acquire and fence *)

Record OwnedSession := mkOwnedSession {
  os_owner : OwnerId;
  os_queue : QueueKey;
  lease_epoch : Z;
  fence_epoch_of : Z;
}.

Inductive OwnershipOutcome :=
| Owned (session : OwnedSession)
| OwnershipRejected (held : QueueLease).

Definition same_session_of (prior : option QueueLease) (owner : OwnerId) (l : QueueLease) : bool :=
  match prior with
  | Some p =>
      owned_by p owner && (assignment_epoch p =? assignment_epoch l) && negb (bool_decide (ql_state p = PendingFence))
  | None => false
  end.

Definition session_of (q : QueueKey) (owner : OwnerId) (l : QueueLease) (epoch : Z) : OwnedSession :=
  mkOwnedSession owner q (assignment_epoch l) epoch.

Context (config : ControlPlaneConfig) (ephemeral : bool).

(** The call run without interruption. *)
Definition acquire_and_fence (cp : CpState) (s : S) (q : QueueKey) (owner : OwnerId) (now : UtcTimestamp)
    : EngineResult OwnershipOutcome * (CpState * S) :=
  let prior := if ephemeral then Some (lease cp q) else None in
  match acquire_queue_lease config cp q owner now with
  | (Err e, cp) => (Err e, (cp, s))
  | (Ok (AcquireRejected held), cp) => (Ok (OwnershipRejected held), (cp, s))
  | (Ok (Acquired l), cp) =>
      match current_epoch s q with
      | Err e => (Err e, (cp, s))
      | Ok current =>
          let release e s := (Err e, ((release_queue_lease cp q owner (assignment_epoch l)).2, s)) in
          match establish_ownership_fence s q current (assignment_epoch l) ephemeral (same_session_of prior owner l) with
          | (Err e, s) => release e s
          | (Ok epoch, s) =>
              if bool_decide (ql_state l = PendingFence) then
                match confirm_queue_lease_fence cp q owner (assignment_epoch l) now with
                | (Ok _, cp) => (Ok (Owned (session_of q owner l epoch)), (cp, s))
                | (Err e, _) => release e s
                end
              else (Ok (Owned (session_of q owner l epoch)), (cp, s))
          end
      end
  end.

(** ** Stalled queues *)

Definition owner_liveness_violation (r : OwnerResolution) (oldest_eligible_age_ms : option Z) (progress_bound_ms : Z)
    : bool :=
  match oldest_eligible_age_ms with
  | None => false
  | Some age =>
      match or_state r with Assigned => false | Unassigned | PendingFence | Draining => true end &&
      (progress_bound_ms <=? age)
  end.

(** ** Interleaved calls *)

Inductive phase :=
| Begin
| Prior (prior : option QueueLease)
| HasLease (prior : option QueueLease) (l : QueueLease)
| Fencing (l : QueueLease)
| FenceLoop (l : QueueLease)
| Advancing (l : QueueLease)
| FenceSet (l : QueueLease) (epoch : Z)
| Failing (l : QueueLease) (e : EngineError)
| Finished (r : EngineResult OwnershipOutcome).

Record call := mkCall { c_queue : QueueKey; c_owner : OwnerId; c_now : UtcTimestamp }.

(** The fence loop at the storage epoch just seen. *)
Definition fence_seen (guarded : bool) (l : QueueLease) (current : Z) : phase :=
  if guarded && (assignment_epoch l <? current) then Failing l EpochFenced
  else if current <? assignment_epoch l then FenceLoop l
  else FenceSet l current.

(** From one await to the next: at most one access to the authority or the store. *)
Definition call_step (c : call) (cp : CpState) (s : S) (p : phase) : CpState * S * phase :=
  let q := c_queue c in let owner := c_owner c in
  match p with
  | Begin => (cp, s, Prior (if ephemeral then Some (lease cp q) else None))
  | Prior prior =>
      match acquire_queue_lease config cp q owner (c_now c) with
      | (Err e, cp) => (cp, s, Finished (Err e))
      | (Ok (AcquireRejected held), cp) => (cp, s, Finished (Ok (OwnershipRejected held)))
      | (Ok (Acquired l), cp) => (cp, s, HasLease prior l)
      end
  | HasLease prior l =>
      match current_epoch s q with
      | Err e => (cp, s, Finished (Err e))
      | Ok current =>
          (cp, s,
           if current <? assignment_epoch l then Fencing l
           else if ephemeral then if same_session_of prior owner l then FenceSet l current else Advancing l
           else if current =? assignment_epoch l then Fencing l
           else Failing l EpochFenced)
      end
  | Fencing l =>
      match fence_impl with
      | FenceAtomic f =>
          let '(r, s) := f s q (assignment_epoch l) in
          (cp, s, match r with Ok e => FenceSet l e | Err x => Failing l x end)
      | _ => (cp, s, match current_epoch s q with Err x => Failing l x | Ok current => fence_seen true l current end)
      end
  | FenceLoop l =>
      let '(r, s) := acquire_epoch s q in
      (cp, s, match r with Err x => Failing l x | Ok current => fence_seen fence_guarded l current end)
  | Advancing l =>
      let '(r, s) := acquire_epoch s q in
      (cp, s, match r with Err x => Failing l x | Ok e => FenceSet l e end)
  | FenceSet l e =>
      if bool_decide (ql_state l = PendingFence) then
        match confirm_queue_lease_fence cp q owner (assignment_epoch l) (c_now c) with
        | (Ok _, cp) => (cp, s, Finished (Ok (Owned (session_of q owner l e))))
        | (Err x, cp) => (cp, s, Failing l x)
        end
      else (cp, s, Finished (Ok (Owned (session_of q owner l e))))
  | Failing l x => ((release_queue_lease cp q owner (assignment_epoch l)).2, s, Finished (Err x))
  | Finished r => (cp, s, Finished r)
  end.

End ownership.

(** ** The system: an authority, a store and concurrent calls *)

Section system.
Context {S : Type} `{!EpochStore S} (config : ControlPlaneConfig) (ephemeral : bool).

Record Sys := mkSys {
  sy_cp : CpState;
  sy_store : S;
  sy_calls : gmap nat (call * phase);
}.

(** A call starts, a call runs to its next await, or somebody else uses the
    authority (heartbeats, renewals, drains, releases, acquisitions). *)
Inductive event :=
| EStart (id : nat) (c : call)
| EStep (id : nat)
| EOther (now : UtcTimestamp) (op : cp_op).

Definition sys_exec (sys : Sys) (e : event) : Sys :=
  match e with
  | EStart id c =>
      match sy_calls sys !! id with
      | None => mkSys (sy_cp sys) (sy_store sys) (<[id := (c, Begin)]> (sy_calls sys))
      | Some _ => sys
      end
  | EStep id =>
      match sy_calls sys !! id with
      | Some (c, p) =>
          let '(cp, s, p) := call_step config ephemeral c (sy_cp sys) (sy_store sys) p in
          mkSys cp s (<[id := (c, p)]> (sy_calls sys))
      | None => sys
      end
  | EOther now op => mkSys (cp_exec config (sy_cp sys) (now, op)) (sy_store sys) (sy_calls sys)
  end.
Definition sys_run (sys : Sys) (es : list event) : Sys := foldl sys_exec sys es.
Definition sys_start (s : S) : Sys := mkSys CpState_default s ∅.

(** The session a call has returned. *)
Definition session_at (sys : Sys) (id : nat) : option OwnedSession :=
  match sy_calls sys !! id with
  | Some (_, Finished (Ok (Owned session))) => Some session
  | _ => None
  end.

(** *** Who was granted which epoch *)

Definition grants := QueueKey → Z → option OwnerId.

Definition grants_ok (G : grants) (cp : CpState) : Prop :=
  ∀ q, (∀ o, active_owner_id (lease cp q) = Some o → G q (assignment_epoch (lease cp q)) = Some o) ∧
       (∀ e o, G q e = Some o → e ≤ assignment_epoch (lease cp q)).

Definition grants_le (G G' : grants) : Prop := ∀ q e o, G q e = Some o → G' q e = Some o.

#[export] Instance grants_le_preorder : PreOrder grants_le.
Proof. split; unfold grants_le; [by intros G q e o|]. intros G1 G2 G3 H1 H2 q e o H. auto. Qed.

Definition extend (G : grants) (cp : CpState) : grants := λ q e,
  if decide (e = assignment_epoch (lease cp q)) then
    match active_owner_id (lease cp q) with Some o => Some o | None => G q e end
  else G q e.

Lemma grants_step G cp cp' now :
  grants_ok G cp → (∀ q, lease_step now (lease cp q) (lease cp' q)) →
  (∀ q, 0 ≤ assignment_epoch (lease cp q) < u64_max) →
  grants_ok (extend G cp') cp' ∧ grants_le G (extend G cp').
Proof.
  intros HG Hstep Hmax. split.
  - intros q. destruct (lease_step_le now _ _ (Hmax q) (Hstep q)) as [_ Hb]. unfold extend. split.
    + intros o ->. by rewrite decide_True.
    + intros e o. case_decide as Hd; [lia|]. intros Hg%HG. lia.
  - intros q e o H. unfold extend. case_decide as E; [|done].
    destruct (active_owner_id (lease cp' q)) as [o'|] eqn:Ho'; [|done]. f_equal.
    destruct (HG q) as [H1 H2]. destruct (Hstep q) as [? _ _ _ Ee|Ee Eo|Ee Eo].
    + apply H2 in H. unfold next_epoch in Ee. specialize (Hmax q). rewrite Z.mod_small in Ee by int_lia. lia.
    + rewrite Eo in Ho'. apply H1 in Ho'. rewrite <-Ee, <-E in Ho'. congruence.
    + congruence.
Qed.

(** Every change a call makes to the authority is one of its operations. *)
Lemma call_step_cp c cp s p :
  let cp' := (call_step config ephemeral c cp s p).1.1 in
  cp' = cp ∨ ∃ now op, cp' = cp_exec config cp (now, op).
Proof.
  destruct c as [q o now]. destruct p; cbn [call_step c_queue c_owner c_now]; try by left.
  - right. exists now, (OpAcquire q o). cbn [cp_exec]. by destruct (acquire_queue_lease _ _ _ _ _) as [[[]|] ?].
  - left. by destruct (current_epoch s q).
  - left. destruct fence_impl as [f| |]; [by destruct (f _ _ _)|done..].
  - left. by destruct (acquire_epoch s q).
  - left. by destruct (acquire_epoch s q).
  - case_bool_decide; [|by left]. right. exists now, (OpConfirm q o (assignment_epoch l)). cbn [cp_exec].
    by destruct (confirm_queue_lease_fence _ _ _ _ _) as [[|] ?].
  - right. exists now, (OpRelease q o (assignment_epoch l)). done.
Qed.

Lemma acquired_lease cp q o now l cp' :
  acquire_queue_lease config cp q o now = (Ok (Acquired l), cp') → lease cp' q = l ∧ active_owner_id l = Some o.
Proof.
  unfold acquire_queue_lease. case_match; [done|].
  destruct (lease_decide_acquire _ _ _ _) as [l'|l'] eqn:E; [|done]. intros [= <- <-].
  rewrite lease_set, decide_True by done. split; [done|].
  unfold lease_decide_acquire in E. case_match; [done|]. by injection E as <-.
Qed.
End system.

(** *** Durable authorities *)

Section durable.
Context {S : Type} `{!EpochStore S} `{!EpochStoreLaws S} (config : ControlPlaneConfig).
Context (Hguarded : fence_guarded = true).
Abbreviation durable_step := (call_step (S:=S) config false).
Abbreviation durable_exec := (sys_exec (S:=S) config false).
Abbreviation durable_run := (sys_run (S:=S) config false).

Definition granted (G : grants) (c : call) (l : QueueLease) : Prop :=
  G (c_queue c) (assignment_epoch l) = Some (c_owner c).

Definition session_ok (G : grants) (c : call) (s : OwnedSession) : Prop :=
  os_owner s = c_owner c ∧ os_queue s = c_queue c ∧ fence_epoch_of s = lease_epoch s ∧
  G (os_queue s) (lease_epoch s) = Some (os_owner s).

Definition phase_ok (G : grants) (c : call) (p : phase) : Prop :=
  match p with
  | Begin | Prior _ => True
  | HasLease _ l | Fencing l | FenceLoop l | Failing l _ => granted G c l
  | Advancing _ => False
  | FenceSet l e => granted G c l ∧ e = assignment_epoch l
  | Finished (Ok (Owned s)) => session_ok G c s
  | Finished _ => True
  end.

Lemma phase_ok_le G G' c p : grants_le G G' → phase_ok G c p → phase_ok G' c p.
Proof.
  intros Hle. destruct p as [| | | | | | | |[[s|]|]]; cbn; unfold granted, session_ok; naive_solver.
Qed.

Lemma fence_seen_ok G c l current : granted G c l → phase_ok G c (fence_seen true l current).
Proof.
  intros Hg. unfold fence_seen. cbn [andb]. destruct (Z.ltb_spec (assignment_epoch l) current); [done|].
  destruct (Z.ltb_spec current (assignment_epoch l)); [done|]. split; [done|lia].
Qed.

Lemma call_step_ok G G' c cp s p :
  let '(cp', s', p') := durable_step c cp s p in
  grants_ok G' cp' → grants_le G G' → phase_ok G c p → phase_ok G' c p'.
Proof.
  destruct c as [q o now]. destruct p as [|prior|prior l|l|l|l|l e|l x|r]; cbn [call_step c_queue c_owner c_now].
  - done.
  - destruct (acquire_queue_lease config cp q o now) as [[[l|l]|x] cp'] eqn:E; [|done..].
    intros HG _ _. apply acquired_lease in E as [<- Ho]. cbn. unfold granted. cbn. by apply HG.
  - destruct (current_epoch s q) as [current|]; [|done]. intros _ Hle Hg. apply (phase_ok_le G); [done|].
    destruct (current <? assignment_epoch l); [done|]. by destruct (current =? assignment_epoch l).
  - destruct fence_impl as [f| |] eqn:Ef.
    { destruct (f s q (assignment_epoch l)) as [r s'] eqn:E. intros _ Hle Hg. apply (phase_ok_le G); [done|].
      destruct r as [e|x]; [|done]. apply (stored_fence f) in E as (-> & _); [|done]. done. }
    all: intros _ Hle Hg; apply (phase_ok_le G); [done|]; destruct (current_epoch s q); [by apply fence_seen_ok|done].
  - destruct (acquire_epoch s q) as [r s']. intros _ Hle Hg. apply (phase_ok_le G); [done|].
    rewrite Hguarded. destruct r; [by apply fence_seen_ok|done].
  - by destruct (acquire_epoch s q).
  - assert (∀ l e, granted G (mkCall q o now) l ∧ e = assignment_epoch l →
      session_ok G (mkCall q o now) (session_of q o l e)) as Hs by by intros ?? [? ->].
    case_bool_decide.
    + destruct (confirm_queue_lease_fence cp q o (assignment_epoch l) now) as [[l'|x] cp'];
        intros _ Hle Hg; (apply (phase_ok_le G); [done|]); [by apply Hs|by destruct Hg].
    + intros _ Hle Hg. apply (phase_ok_le G); [done|]. by apply Hs.
  - done.
  - intros _ Hle. by apply phase_ok_le.
Qed.

Definition sys_ok (n : Z) (G : grants) (sys : Sys (S:=S)) : Prop :=
  grants_ok G (sy_cp sys) ∧ (∀ q, 0 ≤ assignment_epoch (lease (sy_cp sys) q) ≤ n) ∧
  (∀ id c p, sy_calls sys !! id = Some (c, p) → phase_ok G c p).

(** A step of the authority keeps the record of grants. *)
Lemma cp_exec_ok n G cp now op :
  grants_ok G cp → (∀ q, 0 ≤ assignment_epoch (lease cp q) ≤ n) → n < u64_max →
  let cp' := cp_exec config cp (now, op) in
  ∃ G', grants_ok G' cp' ∧ grants_le G G' ∧ (∀ q, 0 ≤ assignment_epoch (lease cp' q) ≤ n + 1).
Proof.
  intros HG Hb Hn cp'. assert (∀ q, 0 ≤ assignment_epoch (lease cp q) < u64_max) as Hmax.
  { intros q. specialize (Hb q). lia. }
  destruct (grants_step G cp cp' now) as [HG' Hle]; [done|intros q; apply exec_step|done|].
  exists (extend G cp'). split_and!; [done..|]. intros q. specialize (Hb q).
  destruct (lease_step_le now _ _ (Hmax q) (exec_step config cp now op q)) as [_ ?]. subst cp'. lia.
Qed.

Lemma sys_exec_ok n G sys e :
  sys_ok n G sys → n < u64_max → ∃ G', sys_ok (n + 1) G' (durable_exec sys e) ∧ grants_le G G'.
Proof.
  intros (HG & Hb & Hc) Hn.
  destruct e as [id c|id|now op]; cbn [sys_exec].
  - exists G. split; [|done]. destruct (sy_calls sys !! id) eqn:E.
    { split_and!; [done| |done]. intros q. specialize (Hb q). lia. }
    split_and!; cbn; [done|intros q; specialize (Hb q); lia|].
    intros id' c' p' [[? [= <- <-]]|[? H]]%lookup_insert_Some; [done|by eapply Hc].
  - destruct (sy_calls sys !! id) as [[c p]|] eqn:E.
    2:{ exists G. split; [|done]. split_and!; [done| |done]. intros q. specialize (Hb q). lia. }
    pose proof (call_step_cp config false c (sy_cp sys) (sy_store sys) p) as Hcp.
    pose proof (λ G', call_step_ok G G' c (sy_cp sys) (sy_store sys) p) as Hok.
    destruct (durable_step c (sy_cp sys) (sy_store sys) p) as [[cp' s'] p'] eqn:Estep. cbn [fst] in Hcp.
    assert (∃ G', grants_ok G' cp' ∧ grants_le G G' ∧ ∀ q, 0 ≤ assignment_epoch (lease cp' q) ≤ n + 1)
      as (G' & HG' & Hle & Hb').
    { destruct Hcp as [->|(now & op & ->)]; [|by apply cp_exec_ok].
      exists G. split_and!; [done..|]. intros q. specialize (Hb q). lia. }
    exists G'. split; [|done]. split_and!; cbn; [done..|].
    intros id' c1 p1 [[? [= <- <-]]|[? H]]%lookup_insert_Some; [by eapply Hok; eauto|].
    eapply phase_ok_le; [done|by eapply Hc].
  - destruct (cp_exec_ok n G (sy_cp sys) now op) as (G' & HG' & Hle & Hb'); [done..|].
    exists G'. split; [|done]. split_and!; [done..|]. intros id c p H. eapply phase_ok_le; [done|by eapply Hc].
Qed.

Lemma sys_run_ok n G sys es :
  sys_ok n G sys → n + Z.of_nat (length es) ≤ u64_max → ∃ G', sys_ok (n + Z.of_nat (length es)) G' (durable_run sys es) ∧ grants_le G G'.
Proof.
  revert n G sys. induction es as [|e es IH]; intros n G sys Hok Hn; cbn [sys_run foldl length] in *.
  { exists G. rewrite Z.add_0_r. done. }
  destruct (sys_exec_ok n G sys e) as (G1 & Hok1 & Hle1); [done|lia|].
  destruct (IH (n + 1) G1 (durable_exec sys e)) as (G2 & Hok2 & Hle2); [done|lia|].
  exists G2. split; [|by etrans]. by replace (n + Z.of_nat (Datatypes.S (length es))) with (n + 1 + Z.of_nat (length es)) by lia.
Qed.

Lemma start_ok s : sys_ok 0 (λ _ _, None) (sys_start s).
Proof.
  split_and!; [| |done].
  - intros q. cbn [sy_cp sys_start]. rewrite lease_default. split; [by intros o|by intros e o].
  - intros q. cbn [sy_cp sys_start]. rewrite lease_default. cbn. lia.
Qed.

(** *** The stored epoch only grows *)

Lemma acquire_grows s q0 r s' q : stored s q < u64_max → acquire_epoch s q0 = (r, s') → stored s q ≤ stored s' q.
Proof.
  intros Hfit E. destruct (decide (q0 = q)) as [->|Hne].
  - destruct r as [e|x]; [apply stored_acquire in E; [lia|done]|by eapply stored_acquire_err].
  - by rewrite (stored_acquire_frame s q0 q r s').
Qed.

Lemma fence_grows f s q0 target r s' q :
  fence_impl = FenceAtomic f → f s q0 target = (r, s') → stored s q ≤ stored s' q.
Proof.
  intros Hf E. destruct (decide (q0 = q)) as [->|Hne].
  - destruct r as [e|x]; [apply (stored_fence f) in E as (_ & -> & ?); [lia|done]|by eapply stored_fence_err].
  - by rewrite (stored_fence_frame f s q0 q target r s').
Qed.

(** A fence that a call has set, or a session carries, is stored. *)
Definition fence_stored (s : S) (c : call) (p : phase) : Prop :=
  match p with
  | FenceSet _ e => e ≤ stored s (c_queue c)
  | Finished (Ok (Owned session)) => fence_epoch_of session ≤ stored s (c_queue c)
  | _ => True
  end.

Lemma fence_stored_le s s' c p :
  stored s (c_queue c) ≤ stored s' (c_queue c) → fence_stored s c p → fence_stored s' c p.
Proof. destruct p as [| | | | | | | |[[]|]]; cbn; lia. Qed.

Lemma fence_seen_stored s c guarded l current :
  stored s (c_queue c) = current → fence_stored s c (fence_seen guarded l current).
Proof.
  intros E. unfold fence_seen. destruct (guarded && (assignment_epoch l <? current)); [done|].
  destruct (current <? assignment_epoch l); [done|]. cbn. lia.
Qed.

Lemma call_step_stored c cp s p q :
  let '(_, s', p') := durable_step c cp s p in
  stored s q < u64_max →
  stored s q ≤ stored s' q ∧ (c_queue c = q → fence_stored s c p → fence_stored s' c p').
Proof.
  destruct c as [q0 o now]. destruct p as [|prior|prior l|l|l|l|l e|l x|r]; cbn [call_step c_queue c_owner c_now].
  - done.
  - by destruct (acquire_queue_lease config cp q0 o now) as [[[l|l]|x] cp'].
  - destruct (current_epoch s q0) as [current|]; [|done]. intros _. split; [done|]. intros _ _.
    destruct (current <? assignment_epoch l); [done|]. by destruct (current =? assignment_epoch l).
  - destruct fence_impl as [f| |] eqn:Ef.
    { destruct (f s q0 (assignment_epoch l)) as [r s'] eqn:E. intros _. split; [by eapply fence_grows|].
      intros -> _. destruct r as [e|x]; [|done]. apply (stored_fence f) in E as (-> & E & _); [|done]. cbn. lia. }
    all: intros _; split; [done|]; intros -> _; destruct (current_epoch s q) eqn:E; [|done];
      by apply fence_seen_stored, stored_current.
  - destruct (acquire_epoch s q0) as [r s'] eqn:E. intros Hfit. split; [by eapply acquire_grows|].
    intros -> _. destruct r; [|done]. apply fence_seen_stored. by apply stored_acquire in E as [? _].
  - destruct (acquire_epoch s q0) as [r s'] eqn:E. intros Hfit. split; [by eapply acquire_grows|].
    intros -> _. destruct r; [|done]. apply stored_acquire in E as [? _]; [|done]. cbn. lia.
  - case_bool_decide; [|done]. by destruct (confirm_queue_lease_fence _ _ _ _ _) as [[l'|x] cp'].
  - done.
  - done.
Qed.

(** The store has room for queue [q] in every state of a run. *)
Fixpoint store_fits (q : QueueKey) (sys : Sys (S:=S)) (es : list event) : bool :=
  (stored (sy_store sys) q <? u64_max) &&
  match es with [] => true | e :: es => store_fits q (durable_exec sys e) es end.

Definition fences_stored (q : QueueKey) (sys : Sys (S:=S)) : Prop :=
  ∀ id c p, sy_calls sys !! id = Some (c, p) → c_queue c = q → fence_stored (sy_store sys) c p.

Lemma sys_exec_fences q sys e :
  stored (sy_store sys) q < u64_max → fences_stored q sys → fences_stored q (durable_exec sys e).
Proof.
  intros Hfit Hf. destruct e as [id c|id|now op]; cbn [sys_exec]; [| |done].
  - destruct (sy_calls sys !! id) eqn:E; [done|].
    intros id' c' p'. cbn [sy_calls]. intros [[? [= <- <-]]|[? H]]%lookup_insert_Some; [done|by eapply Hf].
  - destruct (sy_calls sys !! id) as [[c p]|] eqn:E; [|done].
    pose proof (call_step_stored c (sy_cp sys) (sy_store sys) p q) as Hst.
    destruct (durable_step c (sy_cp sys) (sy_store sys) p) as [[cp' s'] p'] eqn:Estep.
    destruct (Hst Hfit) as [Hgrow Hnew].
    intros id' c1 p1. cbn [sy_calls]. intros [[? [= <- <-]]|[? H]]%lookup_insert_Some Hq; cbn.
    + apply Hnew; [done|]. by eapply Hf.
    + subst q. eapply fence_stored_le; [exact Hgrow|by eapply Hf].
Qed.

Lemma sys_run_fences q sys es :
  store_fits q sys es = true → fences_stored q sys → fences_stored q (durable_run sys es).
Proof.
  revert sys. induction es as [|e es IH]; intros sys; cbn [store_fits sys_run foldl]; [done|].
  rewrite andb_true_iff, Z.ltb_lt. intros [H1 H2] Hf. apply IH; [done|by apply sys_exec_fences].
Qed.

End durable.

(** ** A call that is not interrupted *)

Section solo.
Context {S : Type} `{!EpochStore S} `{!EpochStoreLaws S} (config : ControlPlaneConfig) (ephemeral : bool) (c : call).
Abbreviation config_of := (CpState * S * phase)%type.
Abbreviation step1 := (λ x : config_of, call_step config ephemeral c x.1.1 x.1.2 x.2).

(** [x] runs to [y]. *)
Definition solo (x y : config_of) : Prop := ∃ n, Nat.iter n step1 x = y.

Lemma solo_refl x : solo x x.
Proof. by exists 0%nat. Qed.
Lemma solo_step x y : solo (step1 x) y → solo x y.
Proof.
  intros [n <-]. exists (Datatypes.S n). induction n as [|n IH]; [done|]. cbn in IH |- *. by rewrite IH.
Qed.
Lemma solo_trans x y z : solo x y → solo y z → solo x z.
Proof. intros [n <-] [m <-]. exists (m + n)%nat. by rewrite Nat.iter_add. Qed.

Definition after_fence (l : QueueLease) (r : EngineResult Z) : phase :=
  match r with Ok e => FenceSet l e | Err x => Failing l x end.

Lemma fence_loop_runs fuel cp s l current :
  stored s (c_queue c) = current → current < assignment_epoch l ≤ u64_max →
  assignment_epoch l - current ≤ Z.of_nat fuel →
  let r := fence_loop fence_guarded fuel s (c_queue c) (assignment_epoch l) current in
  solo (cp, s, FenceLoop l) (cp, r.2, after_fence l r.1).
Proof.
  revert s current. induction fuel as [|fuel IH]; intros s current Hst Hlt Hfuel; [lia|].
  cbn [fence_loop]. rewrite (proj2 (Z.ltb_lt _ _)) by lia. apply solo_step. cbn [fst snd call_step].
  destruct (acquire_epoch s (c_queue c)) as [[current'|x] s'] eqn:E; [|apply solo_refl].
  apply stored_acquire in E as [Hst' Hgt]; [|lia]. unfold fence_seen.
  destruct (fence_guarded && (assignment_epoch l <? current')); [apply solo_refl|].
  destruct (Z.ltb_spec current' (assignment_epoch l)) as [Hlt'|Hge].
  - apply IH; [done|lia..].
  - assert (∀ f, fence_loop fence_guarded f s' (c_queue c) (assignment_epoch l) current' = (Ok current', s')) as ->.
    { intros [|f]; cbn [fence_loop]; by rewrite (proj2 (Z.ltb_ge _ _)) by lia. }
    apply solo_refl.
Qed.

Lemma fence_runs cp s l :
  assignment_epoch l ≤ u64_max →
  let r := fence_epoch s (c_queue c) (assignment_epoch l) in solo (cp, s, Fencing l) (cp, r.2, after_fence l r.1).
Proof.
  intros Hmax. apply solo_step. cbn [fst snd call_step]. unfold fence_epoch.
  assert (solo (cp, s, match current_epoch s (c_queue c) with Err x => Failing l x | Ok current => fence_seen true l current end)
    (cp, (fence_by_loop fence_guarded s (c_queue c) (assignment_epoch l)).2,
     after_fence l (fence_by_loop fence_guarded s (c_queue c) (assignment_epoch l)).1)) as Hloop.
  { unfold fence_by_loop. destruct (current_epoch s (c_queue c)) as [current|x] eqn:E; [|apply solo_refl].
    unfold fence_seen. cbn [andb]. destruct (Z.ltb_spec (assignment_epoch l) current); [apply solo_refl|].
    destruct (Z.ltb_spec current (assignment_epoch l)).
    - apply fence_loop_runs; [by apply stored_current|lia|lia].
    - replace (Z.to_nat (assignment_epoch l - current)) with 0%nat by lia. cbn [fence_loop].
      rewrite (proj2 (Z.ltb_ge current _)) by done. apply solo_refl. }
  unfold fence_guarded in Hloop. destruct fence_impl as [f| |]; [|done..].
  destruct (f s (c_queue c) (assignment_epoch l)). apply solo_refl.
Qed.

Lemma establish_runs cp s l prior current :
  assignment_epoch l ≤ u64_max → current_epoch s (c_queue c) = Ok current →
  let r := establish_ownership_fence s (c_queue c) current (assignment_epoch l) ephemeral
    (same_session_of prior (c_owner c) l) in
  solo (cp, s, HasLease prior l) (cp, r.2, after_fence l r.1).
Proof.
  intros Hmax E. apply solo_step. cbn [fst snd call_step]. rewrite E. unfold establish_ownership_fence.
  destruct (current <? assignment_epoch l); [by apply fence_runs|]. destruct ephemeral.
  - destruct (same_session_of prior (c_owner c) l); [apply solo_refl|].
    apply solo_step. cbn [fst snd call_step]. destruct (acquire_epoch s (c_queue c)) as [[] ?]; apply solo_refl.
  - destruct (current =? assignment_epoch l); [by apply fence_runs|apply solo_refl].
Qed.

Lemma failing_runs cp s l x :
  solo (cp, s, Failing l x) ((release_queue_lease cp (c_queue c) (c_owner c) (assignment_epoch l)).2, s, Finished (Err x)).
Proof. apply solo_step, solo_refl. Qed.

Lemma acquired_epoch cp q o now l cp' :
  0 ≤ assignment_epoch (lease cp q) ≤ u64_max →
  acquire_queue_lease config cp q o now = (Ok (Acquired l), cp') → 0 ≤ assignment_epoch l ≤ u64_max.
Proof.
  intros Hr. unfold acquire_queue_lease. case_match; [done|].
  destruct (lease_decide_acquire _ _ _ _) as [l'|l'] eqn:E; [|done]. intros [= <- <-].
  unfold lease_decide_acquire in E. case_match; [done|]. injection E as <-. cbn. case_match; [done|].
  unfold next_epoch. pose proof (Z.mod_pos_bound (assignment_epoch (lease cp q) + 1) (2 ^ 64)). int_lia.
Qed.

(** A call whose awaits are not interrupted terminates, in the state and with
    the outcome that the uninterrupted [acquire_and_fence] computes, whatever the
    store does within the port's contract. *)
Theorem acquire_and_fence_runs cp s :
  0 ≤ assignment_epoch (lease cp (c_queue c)) ≤ u64_max →
  let '(r, (cp', s')) := acquire_and_fence config ephemeral cp s (c_queue c) (c_owner c) (c_now c) in
  ∃ n, Nat.iter n step1 (cp, s, Begin) = (cp', s', Finished r).
Proof.
  intros Hr. unfold acquire_and_fence. set (prior := if ephemeral then Some (lease cp (c_queue c)) else None).
  destruct (acquire_queue_lease config cp (c_queue c) (c_owner c) (c_now c)) as [[[l|held]|x] cp1] eqn:Eacq.
  2,3: apply solo_step, solo_step; cbn [fst snd call_step]; rewrite Eacq; apply solo_refl.
  destruct (current_epoch s (c_queue c)) as [current|x] eqn:Ecur.
  2:{ apply solo_step, solo_step, solo_step. cbn [fst snd call_step]. rewrite Eacq. cbn [fst snd call_step].
      rewrite Ecur. apply solo_refl. }
  pose proof (establish_runs cp1 s l prior current (proj2 (acquired_epoch _ _ _ _ _ _ Hr Eacq)) Ecur) as Hest.
  cbn zeta in Hest.
  destruct (establish_ownership_fence _ _ _ _ _ _) as [[e|x] s'] eqn:Eest; cbn [fst snd after_fence] in Hest.
  2:{ apply solo_step, solo_step. cbn [fst snd call_step]. fold prior. rewrite Eacq. eapply solo_trans; [done|].
      apply failing_runs. }
  case_bool_decide as Hp.
  - destruct (confirm_queue_lease_fence cp1 (c_queue c) (c_owner c) (assignment_epoch l) (c_now c)) as [[l'|x] cp2] eqn:Ec.
    all: apply solo_step, solo_step; cbn [fst snd call_step]; fold prior; rewrite Eacq; eapply solo_trans; [done|].
    all: apply solo_step; cbn [fst snd call_step]; rewrite bool_decide_true, Ec by done.
    { apply solo_refl. }
    unfold confirm_queue_lease_fence, persist in Ec. case_match; [done|]. injection Ec as <- <-. apply failing_runs.
  - apply solo_step, solo_step. cbn [fst snd call_step]. fold prior. rewrite Eacq. eapply solo_trans; [done|].
    apply solo_step. cbn [fst snd call_step]. rewrite bool_decide_false by done. apply solo_refl.
Qed.
End solo.

(** ** The in-process log as the store *)

Section log_store.
Context {Cmd Snap : Type}.

(** [AsyncLogReplayBackend] over this log overrides [fence_epoch] with the
    unguarded loop; the default of the port is the guarded one. *)
Definition log_store (impl : FenceImpl (MemoryLog Cmd Snap)) : EpochStore (MemoryLog Cmd Snap) :=
  {| current_epoch := log_current_epoch; acquire_epoch := log_acquire_epoch; fence_impl := impl |}.

Definition log_stored (logs : MemoryLog Cmd Snap) (q : QueueKey) : Z :=
  match logs !! q with Some log => ld_epoch log | None => 0 end.

Lemma log_acquire_stored logs q e logs' :
  log_stored logs q < u64_max → log_acquire_epoch logs q = (Ok e, logs') →
  log_stored logs' q = e ∧ log_stored logs q < e.
Proof.
  unfold log_acquire_epoch, log_stored, MemoryLog in *. destruct (logs !! q) as [log|] eqn:E; [|done]. cbn.
  intros Hfit [= <- <-]. rewrite lookup_insert_eq. cbn. split; [done|].
  destruct (Z.ltb_spec (ld_epoch log) 0) as [Hn|Hp].
  - pose proof (Z.mod_pos_bound (ld_epoch log + 1) (2 ^ 64)). lia.
  - rewrite Z.mod_small by int_lia. lia.
Qed.

Lemma log_acquire_frame logs q q' r logs' :
  q ≠ q' → log_acquire_epoch logs q = (r, logs') → log_stored logs' q' = log_stored logs q'.
Proof.
  unfold log_acquire_epoch, log_stored, MemoryLog in *. intros Hne.
  destruct (logs !! q) as [log|] eqn:E; cbn; intros [= <- <-]; [|done]. by rewrite lookup_insert_ne.
Qed.

(** A store with either loop meets the contract. *)
Lemma log_store_laws impl :
  (impl = FenceLoopGuarded ∨ impl = FenceLoopUnguarded) → @EpochStoreLaws _ (log_store impl).
Proof.
  intros Himpl. refine {| stored := log_stored : MemoryLog Cmd Snap → QueueKey → Z |}; cbn.
  - intros s q e. unfold log_current_epoch, log_stored, MemoryLog in *. by destruct (s !! q) as [log|]; intros [= <-].
  - intros s q e s' Hfit E. by apply log_acquire_stored.
  - intros s q x s' _. unfold log_acquire_epoch, MemoryLog in *. by destruct (s !! q); intros [= <- <-].
  - intros s q q' r s' Hne E. by eapply log_acquire_frame.
  - intros f s q target e s' Hf. by destruct Himpl; subst.
  - intros f s q target x s' Hf. by destruct Himpl; subst.
  - intros f s q q' target r s' Hf. by destruct Himpl; subst.
Defined.
End log_store.

(** ** Samples and counterexamples *)

Definition at_s (t : Z) : UtcTimestamp := mkUtcTimestamp t 0.
Definition registered (owner : OwnerId) (t : Z) : event := EOther (at_s t) (OpRegister owner).
Definition begins (id : nat) (owner : OwnerId) (t : Z) : event := EStart id (mkCall sample_queue owner (at_s t)).
Definition steps (id n : nat) : list event := replicate n (EStep id).
Definition fresh_log : MemoryLog unit unit := ensure_shard ∅ sample_queue.

Definition guarded_log : EpochStore (MemoryLog unit unit) := log_store FenceLoopGuarded.
Definition unguarded_log : EpochStore (MemoryLog unit unit) := log_store FenceLoopUnguarded.
Definition guarded_log_laws : @EpochStoreLaws _ guarded_log := log_store_laws _ (or_introl eq_refl).

(** One owner serves, its lease lapses, and a second owner takes over. *)
Definition takeover : list event :=
  registered "a" 10 :: begins 1 "a" 10 :: steps 1 6 ++
  registered "b" 30 :: begins 2 "b" 30 :: steps 2 6.


Lemma acquire_and_fence_runs_witness :
  0 ≤ assignment_epoch (lease sample_owners sample_queue) ≤ u64_max ∧
  ∃ n, Nat.iter n (λ x : CpState * MemoryLog unit unit * phase,
         @call_step _ guarded_log ControlPlaneConfig_default false (mkCall sample_queue "a" (at_s 10)) x.1.1 x.1.2 x.2)
         (sample_owners, fresh_log, Begin) =
       ((@acquire_and_fence _ guarded_log ControlPlaneConfig_default false sample_owners fresh_log sample_queue "a"
          (at_s 10)).2, Finished (Ok (Owned (mkOwnedSession "a" sample_queue 1 1)))).
Proof.
  split; [vm_compute; split; discriminate|].
  exact (@acquire_and_fence_runs _ guarded_log guarded_log_laws ControlPlaneConfig_default false
    (mkCall sample_queue "a" (at_s 10)) sample_owners fresh_log (ltac:(vm_compute; split; discriminate))).
Defined.

(** The first call is interrupted inside the fence loop until its lease has lapsed;
    it resumes while the second call is in the loop, which then passes its target. *)
Definition overtaken_fence : list event :=
  registered "a" 10 :: begins 1 "a" 10 :: steps 1 4 ++
  registered "b" 30 :: begins 2 "b" 30 :: steps 2 5 ++ steps 1 3 ++ steps 2 2 ++
  registered "c" 50 :: begins 3 "c" 50 :: steps 3 5.


(** An owner re-affirms its lease and is interrupted before it reads the storage
    epoch; the lease lapses and another owner takes over. *)
Definition interrupted_reaffirm : list event :=
  registered "a" 10 :: begins 1 "a" 10 :: steps 1 6 ++
  registered "a" 20 :: begins 2 "a" 20 :: steps 2 2 ++
  registered "b" 50 :: begins 3 "b" 50 :: steps 3 6 ++ steps 2 2.

