(* ===== verification/ByteBudget.v ===== *)
(** The byte admission of [fireweed-engine/src/byte_admission.rs]: a budget shared
    by all tenants, its FIFO of waiting requests, and the futures and permits that
    use it. Every operation holds the mutex, so it is one step; an [expect] that
    fails is [None]. Waiting times are not modelled. *)
From S2P Require Import Prelude Identity.

Abbreviation TenantId := string.

Inductive ByteBudgetScope := ScopeGlobal | ScopeTenant.

Inductive ByteAdmissionError :=
| BudgetClosed
| BudgetBackpressure
| Oversize (requested limit : Z) (scope : ByteBudgetScope).

Record BudgetConfig := mkBudgetConfig { global_limit : Z; tenant_limit : option Z }.

Definition BudgetConfig_new (limit : Z) : result string BudgetConfig :=
  if limit =? 0 then Err "global buffered-byte limit must be positive"%string
  else Ok (mkBudgetConfig limit None).
Definition with_uniform_tenant_limit (c : BudgetConfig) (limit : Z) : result string BudgetConfig :=
  if limit =? 0 then Err "tenant buffered-byte limit must be positive"%string
  else if global_limit c <? limit then Err "tenant buffered-byte limit cannot exceed the global limit"%string
  else Ok (mkBudgetConfig (global_limit c) (Some limit)).

(** Records plus a frame holding the same records, [None] when a sum leaves the
    range of [usize]. *)
Definition retained_step (per_record : Z) (acc : Z * Z) (length : Z) : option (Z * Z) :=
  records ← checked_add_u64 acc.1 length;
  frame ← checked_add_u64 acc.2 per_record;
  frame ← checked_add_u64 frame length;
  Some (records, frame).
Definition retained_records_plus_frame_bytes (lengths : list Z) (frame_fixed per_record : Z) : option Z :=
  '(records, frame) ← foldl (λ acc n, a ← acc; retained_step per_record a n) (Some (0, frame_fixed)) lengths;
  checked_add_u64 records frame.

(** ** State *)

(** [w_waker]: whether the waiter carries a waker. *)
Record Waiter := mkWaiter {
  w_id : Z;
  w_tenant : TenantId;
  w_bytes : Z;
  w_granted : bool;
  w_bypasses : Z;
  w_waker : bool;
}.

Record BudgetState := mkBudgetState {
  closed : bool;
  next_waiter_id : Z;
  charged : Z;
  peak : Z;
  tenant_charged : gmap TenantId Z;
  waiters : list Waiter;
  wait_count : Z;
  rejection_count : Z;
}.
Definition BudgetState_new : BudgetState := mkBudgetState false 0 0 0 ∅ [] 0 0.

Definition set_waiters (ws : list Waiter) (s : BudgetState) : BudgetState :=
  mkBudgetState (closed s) (next_waiter_id s) (charged s) (peak s) (tenant_charged s) ws (wait_count s)
    (rejection_count s).
Definition count_rejection (s : BudgetState) : BudgetState :=
  mkBudgetState (closed s) (next_waiter_id s) (charged s) (peak s) (tenant_charged s) (waiters s) (wait_count s)
    ((rejection_count s + 1) mod 2 ^ 64).

Section budget.
Context (config : BudgetConfig).

Definition validate_request (bytes : Z) : result ByteAdmissionError unit :=
  if global_limit config <? bytes then Err (Oversize bytes (global_limit config) ScopeGlobal)
  else match tenant_limit config with
       | Some limit => if limit <? bytes then Err (Oversize bytes limit ScopeTenant) else Ok tt
       | None => Ok tt
       end.

Definition fits_global (s : BudgetState) (bytes : Z) : bool :=
  match checked_add_u64 (charged s) bytes with Some c => c <=? global_limit config | None => false end.
Definition fits_tenant (s : BudgetState) (tenant : TenantId) (bytes : Z) : bool :=
  match tenant_limit config with
  | None => true
  | Some limit =>
      match checked_add_u64 (default 0 (tenant_charged s !! tenant)) bytes with
      | Some c => c <=? limit
      | None => false
      end
  end.
Definition fits (s : BudgetState) (tenant : TenantId) (bytes : Z) : bool :=
  fits_global s bytes && fits_tenant s tenant bytes.

Definition charge (s : BudgetState) (tenant : TenantId) (bytes : Z) : option BudgetState :=
  c ← checked_add_u64 (charged s) bytes;
  t ← checked_add_u64 (default 0 (tenant_charged s !! tenant)) bytes;
  Some (mkBudgetState (closed s) (next_waiter_id s) c (Z.max (peak s) c) (<[tenant := t]> (tenant_charged s))
    (waiters s) (wait_count s) (rejection_count s)).

Definition checked_sub (a b : Z) : option Z := if b <=? a then Some (a - b) else None.

Definition uncharge (s : BudgetState) (tenant : TenantId) (bytes : Z) : option BudgetState :=
  c ← checked_sub (charged s) bytes;
  t ← tenant_charged s !! tenant;
  t ← checked_sub t bytes;
  let m := if t =? 0 then delete tenant (tenant_charged s) else <[tenant := t]> (tenant_charged s) in
  Some (mkBudgetState (closed s) (next_waiter_id s) c (peak s) m (waiters s) (wait_count s) (rejection_count s)).

(** ** Granting *)

Definition MAX_BYPASSES : Z := 8.

Definition aged_global (s : BudgetState) : bool :=
  existsb (λ w, negb (w_granted w) && (MAX_BYPASSES <=? w_bypasses w) && negb (fits_global s (w_bytes w))) (waiters s).

Definition older_same_tenant (older : list Waiter) (tenant : TenantId) : bool :=
  existsb (λ o, negb (w_granted o) && bool_decide (w_tenant o = tenant)) older.

(** The first waiter that fits and does not pass an older one of its tenant;
    [older] are the waiters before [ws]. *)
Fixpoint grantable (s : BudgetState) (older ws : list Waiter) : option (list Waiter * Waiter * list Waiter) :=
  match ws with
  | [] => None
  | w :: ws =>
      if negb (w_granted w) && fits s (w_tenant w) (w_bytes w) && negb (older_same_tenant older (w_tenant w))
      then Some (older, w, ws)
      else grantable s (older ++ [w]) ws
  end.

Definition bypass (w : Waiter) : Waiter :=
  if w_granted w then w
  else mkWaiter (w_id w) (w_tenant w) (w_bytes w) false (Z.min u8_max (w_bypasses w + 1)) (w_waker w).
Definition grant (w : Waiter) : Waiter :=
  mkWaiter (w_id w) (w_tenant w) (w_bytes w) true (w_bypasses w) false.

(** One round of the loop: [None] breaks. The ids are the waiters woken. *)
Definition grant_round (s : BudgetState) : option (option (BudgetState * list Z)) :=
  if aged_global s then None
  else match grantable s [] (waiters s) with
       | None => None
       | Some (older, w, younger) =>
           Some (s ← charge (set_waiters ((bypass <$> older) ++ grant w :: younger) s) (w_tenant w) (w_bytes w);
                 Some (s, if w_waker w then [w_id w] else []))
       end.

Fixpoint grant_waiters_fuel (fuel : nat) (s : BudgetState) : option (BudgetState * list Z) :=
  match grant_round s with
  | None => Some (s, [])
  | Some r =>
      match fuel with
      | O => None
      | S fuel =>
          '(s, woken) ← r;
          '(s, more) ← grant_waiters_fuel fuel s;
          Some (s, woken ++ more)
      end
  end.
(** Each round grants one more waiter. *)
Definition grant_waiters (s : BudgetState) : option (BudgetState * list Z) :=
  grant_waiters_fuel (length (waiters s)) s.

(** ** Operations *)

Definition release (s : BudgetState) (tenant : TenantId) (bytes : Z) : option (BudgetState * list Z) :=
  s ← uncharge s tenant bytes; grant_waiters s.

Definition try_acquire (s : BudgetState) (tenant : TenantId) (bytes : Z)
    : option (result ByteAdmissionError unit * BudgetState) :=
  match validate_request bytes with
  | Err e => Some (Err e, count_rejection s)
  | Ok _ =>
      if closed s then Some (Err BudgetClosed, count_rejection s)
      else if negb (bool_decide (waiters s = [])) || negb (fits s tenant bytes)
      then Some (Err BudgetBackpressure, count_rejection s)
      else s ← charge s tenant bytes; Some (Ok tt, s)
  end.

Definition close_waiter (acc : option BudgetState) (w : Waiter) : option BudgetState :=
  s ← acc; if w_granted w then uncharge s (w_tenant w) (w_bytes w) else Some s.
Definition close (s : BudgetState) : option (BudgetState * list Z) :=
  let ws := waiters s in
  let s := mkBudgetState true (next_waiter_id s) (charged s) (peak s) (tenant_charged s) [] (wait_count s)
    (rejection_count s) in
  s ← foldl close_waiter (Some s) ws;
  Some (s, w_id <$> List.filter w_waker ws).

Record Fut := mkFut { f_tenant : TenantId; f_bytes : Z; f_waiter : option Z }.

Inductive poll_result :=
| Ready (r : result ByteAdmissionError unit)
| PollPending (waiter : Z).

(** [waiters.iter().position(id)] with what stands before and after it. *)
Fixpoint find_waiter (id : Z) (older ws : list Waiter) : option (list Waiter * Waiter * list Waiter) :=
  match ws with
  | [] => None
  | w :: ws => if w_id w =? id then Some (older, w, ws) else find_waiter id (older ++ [w]) ws
  end.

Definition remove_waiter (s : BudgetState) (older : list Waiter) (w : Waiter) (younger : list Waiter)
    : option BudgetState :=
  let s := set_waiters (older ++ younger) s in
  if w_granted w then uncharge s (w_tenant w) (w_bytes w) else Some s.

Definition poll (s : BudgetState) (f : Fut) : option (poll_result * BudgetState * list Z) :=
  match validate_request (f_bytes f) with
  | Err e => Some (Ready (Err e), count_rejection s, [])
  | Ok _ =>
      if closed s then
        let s := count_rejection s in
        match f_waiter f with
        | Some id =>
            match find_waiter id [] (waiters s) with
            | Some (older, w, younger) =>
                s ← remove_waiter s older w younger; Some (Ready (Err BudgetClosed), s, [])
            | None => Some (Ready (Err BudgetClosed), s, [])
            end
        | None => Some (Ready (Err BudgetClosed), s, [])
        end
      else
        match f_waiter f with
        | Some id =>
            '(older, w, younger) ← find_waiter id [] (waiters s);
            if w_granted w then
              '(s, woken) ← grant_waiters (set_waiters (older ++ younger) s);
              Some (Ready (Ok tt), s, woken)
            else
              let w := mkWaiter (w_id w) (w_tenant w) (w_bytes w) false (w_bypasses w) true in
              Some (PollPending id, set_waiters (older ++ w :: younger) s, [])
        | None =>
            if bool_decide (waiters s = []) && fits s (f_tenant f) (f_bytes f) then
              s ← charge s (f_tenant f) (f_bytes f); Some (Ready (Ok tt), s, [])
            else
              let id := next_waiter_id s in
              let s := mkBudgetState (closed s) ((id + 1) mod 2 ^ 64) (charged s) (peak s) (tenant_charged s)
                (waiters s ++ [mkWaiter id (f_tenant f) (f_bytes f) false 0 true])
                ((wait_count s + 1) mod 2 ^ 64) (rejection_count s) in
              '(s, woken) ← grant_waiters s;
              Some (PollPending id, s, woken)
        end
  end.

Definition drop_acquire (s : BudgetState) (f : Fut) : option (BudgetState * list Z) :=
  match f_waiter f with
  | None => Some (s, [])
  | Some id =>
      match find_waiter id [] (waiters s) with
      | None => Some (s, [])
      | Some (older, w, younger) => s ← remove_waiter s older w younger; grant_waiters s
      end
  end.

End budget.

(** ** The system of futures and permits *)

Record BSys := mkBSys {
  b_state : BudgetState;
  b_futs : gmap nat Fut;
  b_permits : list (TenantId * Z);
}.
Definition BSys_new : BSys := mkBSys BudgetState_new ∅ [].

Inductive b_op :=
| BStart (fid : nat) (tenant : TenantId) (bytes : Z)
| BPoll (fid : nat)
| BDropFuture (fid : nat)
| BTry (tenant : TenantId) (bytes : Z)
| BDropPermit (i : nat)
| BClose.

(** A completed future is gone; its later drop does nothing. *)
Definition b_exec (config : BudgetConfig) (sys : BSys) (op : b_op) : option BSys :=
  let s := b_state sys in
  match op with
  | BStart fid tenant bytes =>
      Some (match b_futs sys !! fid with
            | Some _ => sys
            | None => mkBSys s (<[fid := mkFut tenant bytes None]> (b_futs sys)) (b_permits sys)
            end)
  | BPoll fid =>
      match b_futs sys !! fid with
      | None => Some sys
      | Some f =>
          '(r, s, _) ← poll config s f;
          Some (match r with
                | Ready (Ok _) => mkBSys s (delete fid (b_futs sys)) (b_permits sys ++ [(f_tenant f, f_bytes f)])
                | Ready (Err _) => mkBSys s (delete fid (b_futs sys)) (b_permits sys)
                | PollPending id =>
                    mkBSys s (<[fid := mkFut (f_tenant f) (f_bytes f) (Some id)]> (b_futs sys)) (b_permits sys)
                end)
      end
  | BDropFuture fid =>
      match b_futs sys !! fid with
      | None => Some sys
      | Some f => '(s, _) ← drop_acquire config s f; Some (mkBSys s (delete fid (b_futs sys)) (b_permits sys))
      end
  | BTry tenant bytes =>
      '(r, s) ← try_acquire config s tenant bytes;
      Some (mkBSys s (b_futs sys) (match r with Ok _ => b_permits sys ++ [(tenant, bytes)] | Err _ => b_permits sys end))
  | BDropPermit i =>
      match b_permits sys !! i with
      | None => Some sys
      | Some (tenant, bytes) =>
          '(s, _) ← release config s tenant bytes; Some (mkBSys s (b_futs sys) (delete i (b_permits sys)))
      end
  | BClose => '(s, _) ← close s; Some (mkBSys s (b_futs sys) (b_permits sys))
  end.
Definition b_run (config : BudgetConfig) (sys : BSys) (ops : list b_op) : option BSys :=
  foldl (λ acc op, sys ← acc; b_exec config sys op) (Some sys) ops.

(** ** Accounting *)

Definition total (H : list (TenantId * Z)) : Z := foldr (λ h a, h.2 + a) 0 H.
Definition tenant_total (t : TenantId) (H : list (TenantId * Z)) : Z :=
  foldr (λ h a, if decide (h.1 = t) then h.2 + a else a) 0 H.

(** The charges are exactly the held bytes. *)
Definition accounts (H : list (TenantId * Z)) (s : BudgetState) : Prop :=
  charged s = total H ∧ ∀ t, default 0 (tenant_charged s !! t) = tenant_total t H.
Definition positive (H : list (TenantId * Z)) : Prop := Forall (λ h, 0 < h.2) H.

Lemma total_perm H H' : H ≡ₚ H' → total H = total H'.
Proof. unfold total. induction 1; cbn in *; lia. Qed.
Lemma tenant_total_perm t H H' : H ≡ₚ H' → tenant_total t H = tenant_total t H'.
Proof. unfold tenant_total. induction 1; cbn in *; repeat case_decide; lia. Qed.
Lemma accounts_perm H H' s : H ≡ₚ H' → accounts H s → accounts H' s.
Proof.
  intros Hp [H1 H2]. split; [by rewrite <-(total_perm H H')|]. intros t. by rewrite <-(tenant_total_perm t H H').
Qed.

Lemma total_bounds t H : positive H → 0 ≤ tenant_total t H ≤ total H.
Proof. unfold tenant_total, total. induction 1; cbn in *; [lia|]. case_decide; lia. Qed.

Lemma total_cons h H : total (h :: H) = h.2 + total H.
Proof. done. Qed.
Lemma tenant_total_cons t h H :
  tenant_total t (h :: H) = if decide (h.1 = t) then h.2 + tenant_total t H else tenant_total t H.
Proof. done. Qed.
#[global] Arguments total : simpl never.
#[global] Arguments tenant_total : simpl never.
Ltac totals := rewrite ?total_cons, ?tenant_total_cons in *; cbn [fst snd] in *.

(** The budget's state but for the charges. *)
Definition same_but_charges (s s' : BudgetState) : Prop :=
  closed s' = closed s ∧ next_waiter_id s' = next_waiter_id s ∧ waiters s' = waiters s.

Section accounting.
Context (config : BudgetConfig).

Definition within (s : BudgetState) : Prop :=
  charged s ≤ global_limit config ∧ charged s ≤ peak s ≤ global_limit config ∧
  ∀ limit t, tenant_limit config = Some limit → default 0 (tenant_charged s !! t) ≤ limit.

Lemma charge_ok H s t b :
  accounts H s → positive H → within s → 0 < b → fits config s t b = true →
  ∃ s', charge s t b = Some s' ∧ accounts ((t, b) :: H) s' ∧ within s' ∧ same_but_charges s s'.
Proof.
  intros [Hc Ht] Hpos (Hg & Hp & Hl) Hb. unfold fits, fits_global, fits_tenant, charge.
  pose proof (total_bounds t H Hpos) as Hbd. rewrite andb_true_iff. intros [Hfg Hft].
  destruct (checked_add_u64 (charged s) b) as [c|] eqn:Ec; [|done]. apply Z.leb_le in Hfg.
  apply checked_add_u64_Some in Ec as [-> Hcm]. cbn.
  destruct (checked_add_u64 (default 0 (tenant_charged s !! t)) b) as [c|] eqn:Et.
  2:{ unfold checked_add_u64 in Et. rewrite Ht, (proj2 (Z.leb_le _ _)) in Et by lia. done. }
  apply checked_add_u64_Some in Et as [-> Htm]. cbn. eexists. split; [done|]. split_and!; cbn.
  - split; cbn; totals; [lia|]. intros t'. totals. destruct (decide (t = t')) as [->|Hne].
    + rewrite lookup_insert_eq. cbn. rewrite Ht. lia.
    + by rewrite lookup_insert_ne.
  - split_and!; cbn; [lia..|]. intros limit t' Elim. rewrite Elim in Hft. apply Z.leb_le in Hft.
    destruct (decide (t = t')) as [->|Hne]; [by rewrite lookup_insert_eq|rewrite lookup_insert_ne by done; by apply Hl].
  - done.
Qed.

Lemma uncharge_ok H s t b :
  accounts ((t, b) :: H) s → positive ((t, b) :: H) → within s →
  ∃ s', uncharge s t b = Some s' ∧ accounts H s' ∧ within s' ∧ same_but_charges s s'.
Proof.
  intros [Hc Ht] Hpos (Hg & Hp & Hl). apply Forall_cons in Hpos as [Hb Hpos]. totals.
  pose proof (total_bounds t H Hpos) as Hbd. unfold uncharge, checked_sub.
  rewrite (proj2 (Z.leb_le _ _)) by lia. cbn.
  pose proof (Ht t) as Htt. totals. rewrite decide_True in Htt by done.
  destruct (tenant_charged s !! t) as [c|] eqn:E; cbn in Htt |- *; [|lia].
  rewrite (proj2 (Z.leb_le _ _)) by lia. cbn. eexists. split; [done|].
  assert (∀ t', default 0 ((if c - b =? 0 then delete t (tenant_charged s) else <[t:=c - b]> (tenant_charged s)) !! t') =
                tenant_total t' H) as Hnew.
  { intros t'. pose proof (Ht t') as Ht'. totals. destruct (Z.eqb_spec (c - b) 0), (decide (t = t')) as [->|Hne].
    - rewrite lookup_delete_eq. cbn. lia.
    - by rewrite lookup_delete_ne.
    - rewrite lookup_insert_eq. cbn. lia.
    - by rewrite lookup_insert_ne. }
  split_and!; [split; cbn; [lia|done]| |done].
  split_and!; cbn; [lia..|]. intros limit t' Elim. rewrite Hnew. specialize (Hl limit t' Elim). rewrite Ht in Hl.
  totals. case_decide; lia.
Qed.
End accounting.

(** ** The queue of waiters *)

Definition granted_of (ws : list Waiter) : list (TenantId * Z) :=
  omap (λ w, if w_granted w then Some (w_tenant w, w_bytes w) else None) ws.

(** Within a tenant, grants follow arrival. *)
Definition fifo (a b : Waiter) : Prop := w_tenant a = w_tenant b → w_granted b = true → w_granted a = true.

Definition queue_ok (ws : list Waiter) : Prop :=
  NoDup (w_id <$> ws) ∧ Forall (λ w, 0 < w_bytes w ∧ (w_granted w = false → w_waker w = true)) ws ∧
  StronglySorted fifo ws.

Lemma granted_of_app a b : granted_of (a ++ b) = granted_of a ++ granted_of b.
Proof. apply omap_app. Qed.

Lemma bypass_same w :
  w_id (bypass w) = w_id w ∧ w_tenant (bypass w) = w_tenant w ∧ w_bytes (bypass w) = w_bytes w ∧
  w_granted (bypass w) = w_granted w ∧ w_waker (bypass w) = w_waker w.
Proof. unfold bypass. by destruct (w_granted w) eqn:E; cbn. Qed.

Lemma granted_of_bypass (ws : list Waiter) : granted_of (bypass <$> ws) = granted_of ws.
Proof.
  unfold granted_of. induction ws as [|w ws IH]; cbn; [done|]. rewrite IH.
  by destruct (bypass_same w) as (_ & -> & -> & -> & _).
Qed.

Lemma bypass_ids (ws : list Waiter) : w_id <$> (bypass <$> ws) = w_id <$> ws.
Proof. rewrite <-list_fmap_compose. apply list_fmap_ext. intros i w _. apply bypass_same. Qed.

Lemma granted_of_positive ws : Forall (λ w, 0 < w_bytes w ∧ (w_granted w = false → w_waker w = true)) ws → positive (granted_of ws).
Proof.
  unfold granted_of, positive. induction 1 as [|w ws [Hb _] _ IH]; cbn; [done|]. destruct (w_granted w); [by constructor|done].
Qed.

(** Removing or granting one waiter. *)
Lemma granted_of_split older w younger :
  granted_of (older ++ w :: younger) ≡ₚ
  (if w_granted w then [(w_tenant w, w_bytes w)] else []) ++ granted_of (older ++ younger).
Proof.
  rewrite !granted_of_app. unfold granted_of at 2. cbn. destruct (w_granted w); cbn; [|done].
  by rewrite Permutation_middle.
Qed.

Lemma older_same_tenant_false older t :
  older_same_tenant older t = false ↔ Forall (λ o, w_tenant o = t → w_granted o = true) older.
Proof.
  unfold older_same_tenant. induction older as [|o older IH]; cbn; [done|].
  rewrite orb_false_iff, IH, Forall_cons, andb_false_iff, negb_false_iff, bool_decide_eq_false.
  split; intros [Ho Hall]; (split; [|done]).
  - intros Ht. by destruct Ho.
  - destruct (decide (w_tenant o = t)); auto.
Qed.

Lemma queue_ok_nil : queue_ok [].
Proof. split_and!; constructor. Qed.

Lemma queue_ok_remove older w younger : queue_ok (older ++ w :: younger) → queue_ok (older ++ younger).
Proof.
  intros (Hn & Hf & Hs). rewrite fmap_app, fmap_cons in Hn. split_and!.
  - rewrite fmap_app. apply NoDup_app in Hn as (H1 & H2 & H3). apply NoDup_cons in H3 as [_ H3].
    apply NoDup_app. split_and!; [done| |done]. intros x Hx Hy. apply (H2 x Hx). by right.
  - rewrite Forall_app, Forall_cons in *. naive_solver.
  - rewrite StronglySorted_app in *. destruct Hs as (H1 & H2 & H3). inversion_clear H3.
    split_and!; [|done..]. intros x y Hx Hy. apply H1; [done|by right].
Qed.

Lemma queue_ok_grant older w younger :
  queue_ok (older ++ w :: younger) → w_granted w = false → older_same_tenant older (w_tenant w) = false →
  queue_ok ((bypass <$> older) ++ grant w :: younger).
Proof.
  intros (Hn & Hf & Hs) Hg Hold%older_same_tenant_false. split_and!.
  - rewrite fmap_app, bypass_ids. by rewrite fmap_app in Hn.
  - rewrite Forall_app, Forall_cons, Forall_fmap in *. destruct Hf as (H1 & [H2 _] & H3). split_and!; [|done..].
    eapply Forall_impl; [exact H1|]. intros o. cbn. destruct (bypass_same o) as (_ & _ & -> & -> & ->). done.
  - rewrite StronglySorted_app in *. destruct Hs as (H1 & H2 & H3). inversion_clear H3 as [|?? H4 H5]. split_and!.
    + intros x y (o & -> & Ho)%list_elem_of_fmap. unfold fifo. destruct (bypass_same o) as (_ & -> & _ & -> & _).
      intros [->|Hy]%elem_of_cons; [|apply H1; [done|by right]].
      cbn. intros Ht _. rewrite Forall_forall in Hold. by apply Hold.
    + clear -H2. induction H2 as [|o older _ IH Hall]; cbn; [constructor|]. constructor; [done|].
      rewrite Forall_fmap. eapply Forall_impl; [exact Hall|]. intros x. cbn. unfold fifo.
      destruct (bypass_same o) as (_ & -> & _ & -> & _), (bypass_same x) as (_ & -> & _ & -> & _). done.
    + constructor; [done|]. apply Forall_forall. by intros y _ _ _.
Qed.

Section grants.
Context (config : BudgetConfig).

Lemma grantable_Some s older ws o w y :
  grantable config s older ws = Some (o, w, y) →
  older ++ ws = o ++ w :: y ∧ w_granted w = false ∧ fits config s (w_tenant w) (w_bytes w) = true ∧
  older_same_tenant o (w_tenant w) = false.
Proof.
  revert older. induction ws as [|x ws IH]; intros older; cbn; [done|].
  destruct (negb (w_granted x) && fits config s (w_tenant x) (w_bytes x) &&
    negb (older_same_tenant older (w_tenant x))) eqn:E.
  - intros [= <- <- <-]. rewrite !andb_true_iff, !negb_true_iff in E. naive_solver.
  - intros H%IH. rewrite <-app_assoc in H. done.
Qed.

Lemma grantable_None s older ws i w :
  grantable config s older ws = None → ws !! i = Some w → w_granted w = false →
  fits config s (w_tenant w) (w_bytes w) = false ∨ older_same_tenant (older ++ take i ws) (w_tenant w) = true.
Proof.
  revert older i. induction ws as [|x ws IH]; intros older i; cbn; [done|].
  destruct (negb (w_granted x) && fits config s (w_tenant x) (w_bytes x) &&
    negb (older_same_tenant older (w_tenant x))) eqn:E; [done|]. intros Hn Hi Hg.
  destruct i as [|i]; cbn in Hi |- *.
  - injection Hi as ->. rewrite Hg, app_nil_r in *. cbn in E.
    destruct (fits _ _ _ _); [|by left]. cbn in E. right. by apply negb_false_iff.
  - destruct (IH _ _ Hn Hi Hg) as [H|H]; [by left|]. right. by rewrite <-app_assoc in H.
Qed.

(** Granting keeps the requests and never takes a grant back. *)
Definition kept (w w' : Waiter) : Prop :=
  w_id w' = w_id w ∧ w_tenant w' = w_tenant w ∧ w_bytes w' = w_bytes w ∧ (w_granted w = true → w_granted w' = true).

Lemma kept_refl ws : Forall2 kept ws ws.
Proof. by apply Forall_Forall2_diag, Forall_forall. Qed.
Lemma kept_trans ws1 ws2 ws3 : Forall2 kept ws1 ws2 → Forall2 kept ws2 ws3 → Forall2 kept ws1 ws3.
Proof.
  intros H12. revert ws3. induction H12 as [|a b ws1 ws2 (? & ? & ? & ?) _ IH]; intros ws3 H23; [by inversion H23|].
  inversion_clear H23 as [|? c ? ? (? & ? & ? & ?) ?]. constructor; [|by apply IH].
  unfold kept. split_and!; [congruence..|auto].
Qed.

Definition ungranted (ws : list Waiter) : nat := length (List.filter (λ w, negb (w_granted w)) ws).

Lemma ungranted_le ws : (ungranted ws ≤ length ws)%nat.
Proof. unfold ungranted. induction ws as [|w ws IH]; cbn; [lia|]. destruct (w_granted w); cbn; lia. Qed.
Lemma ungranted_cons w ws : ungranted (w :: ws) = if w_granted w then ungranted ws else S (ungranted ws).
Proof. unfold ungranted. cbn. by destruct (w_granted w). Qed.
Lemma ungranted_app a b : ungranted (a ++ b) = (ungranted a + ungranted b)%nat.
Proof. unfold ungranted. by rewrite List.filter_app, length_app. Qed.
Lemma ungranted_bypass (ws : list Waiter) : ungranted (bypass <$> ws) = ungranted ws.
Proof.
  unfold ungranted. induction ws as [|w ws IH]; cbn; [done|]. destruct (bypass_same w) as (_ & _ & _ & -> & _).
  destruct (w_granted w); cbn; congruence.
Qed.

Definition budget_ok (permits : list (TenantId * Z)) (s : BudgetState) : Prop :=
  accounts (permits ++ granted_of (waiters s)) s ∧ positive permits ∧ within config s ∧ queue_ok (waiters s).

Lemma holdings_positive permits s : budget_ok permits s → positive (permits ++ granted_of (waiters s)).
Proof.
  intros (_ & Hp & _ & _ & Hf & _). unfold positive. rewrite Forall_app. split; [done|by apply granted_of_positive].
Qed.

(** A round either stops the loop or grants one waiter. *)
Lemma grant_round_ok permits s r :
  budget_ok permits s → grant_round config s = Some r →
  ∃ s' woken, r = Some (s', woken) ∧ budget_ok permits s' ∧ closed s' = closed s ∧
    next_waiter_id s' = next_waiter_id s ∧ Forall2 kept (waiters s) (waiters s') ∧
    (ungranted (waiters s') < ungranted (waiters s))%nat.
Proof.
  intros Hok. unfold grant_round. destruct (aged_global config s); [done|].
  destruct (grantable config s [] (waiters s)) as [[[older w] younger]|] eqn:E; [|done]. intros [= <-].
  apply grantable_Some in E as (Hws & Hg & Hfit & Hold). cbn in Hws.
  pose proof (holdings_positive _ _ Hok) as Hpos. destruct Hok as (Hacc & Hp & Hw & Hq). rewrite Hws in Hacc, Hq, Hpos |- *.
  set (s1 := set_waiters ((bypass <$> older) ++ grant w :: younger) s).
  assert (0 < w_bytes w) as Hb.
  { destruct Hq as (_ & Hf & _). rewrite Forall_app, Forall_cons in Hf. naive_solver. }
  destruct (charge_ok config (permits ++ granted_of (older ++ w :: younger)) s1 (w_tenant w) (w_bytes w))
    as (s' & Hs' & Hacc' & Hw' & Hcl & Hnx & Hws'); [done..|].
  rewrite Hs'. cbn. exists s'. eexists. split; [done|]. rewrite Hws'. cbn. split_and!; [|done..| |].
  - split_and!; [|done..|].
    + rewrite Hws'. cbn. eapply accounts_perm; [|exact Hacc'].
      rewrite !granted_of_app, granted_of_bypass. unfold granted_of at 2 4. cbn. rewrite Hg. fold (granted_of younger).
      rewrite !app_assoc. apply Permutation_middle.
    + rewrite Hws'. cbn. by apply queue_ok_grant.
  - apply Forall2_app; [|constructor; [done|apply kept_refl]].
    clear. induction older as [|o older IH]; cbn; constructor; [|done]. unfold kept.
    destruct (bypass_same o) as (-> & -> & -> & -> & _). done.
  - change (ungranted ((bypass <$> older) ++ grant w :: younger) < ungranted (older ++ w :: younger))%nat.
    rewrite !ungranted_app, ungranted_bypass, !ungranted_cons, Hg. cbn [grant w_granted]. lia.
Qed.

(** The loop ends, with no waiter left to grant. *)
Lemma grant_waiters_ok permits s :
  budget_ok permits s →
  ∃ s' woken, grant_waiters config s = Some (s', woken) ∧ budget_ok permits s' ∧ grant_round config s' = None ∧
    closed s' = closed s ∧ next_waiter_id s' = next_waiter_id s ∧ Forall2 kept (waiters s) (waiters s').
Proof.
  intros Hok. unfold grant_waiters. pose proof (ungranted_le (waiters s)) as Hle. revert Hle.
  generalize (length (waiters s)) as fuel. intros fuel. revert s Hok.
  induction fuel as [|fuel IH]; intros s Hok Hle; cbn [grant_waiters_fuel].
  all: destruct (grant_round config s) as [r|] eqn:Er; [|by exists s, []; split_and!; try done; apply kept_refl].
  all: destruct (grant_round_ok _ _ _ Hok Er) as (s1 & woken & -> & Hok1 & Hcl & Hnx & Hk & Hlt).
  { lia. }
  cbn. destruct (IH s1 Hok1) as (s2 & more & -> & Hok2 & Hend & Hcl2 & Hnx2 & Hk2); [lia|].
  cbn. exists s2. eexists. split; [done|]. split_and!; [done..|congruence|congruence|by eapply kept_trans].
Qed.
End grants.

(** ** Runs *)

Lemma find_waiter_Some id older ws o w y :
  find_waiter id older ws = Some (o, w, y) → older ++ ws = o ++ w :: y ∧ w_id w = id.
Proof.
  revert older. induction ws as [|x ws IH]; intros older; cbn; [done|]. destruct (Z.eqb_spec (w_id x) id).
  - by intros [= <- <- <-].
  - intros H%IH. by rewrite <-app_assoc in H.
Qed.
Lemma find_waiter_None id older ws w : find_waiter id older ws = None → w ∈ ws → w_id w ≠ id.
Proof.
  revert older. induction ws as [|x ws IH]; intros older; cbn; [by intros _ ?%elem_of_nil|].
  destruct (Z.eqb_spec (w_id x) id) as [E|E]; [done|]. intros H [->|Hw]%elem_of_cons; [done|by eapply IH].
Qed.

Lemma kept_elem ws ws' w :
  Forall2 kept ws ws' → w ∈ ws → ∃ w', w' ∈ ws' ∧ w_id w' = w_id w ∧ w_tenant w' = w_tenant w ∧ w_bytes w' = w_bytes w.
Proof.
  induction 1 as [|a b ws ws' Hk _ IH]; [by intros ?%elem_of_nil|]. intros [->|Hw]%elem_of_cons.
  - exists b. destruct Hk as (? & ? & ? & _). split; [by left|done].
  - destruct (IH Hw) as (w' & ? & ?). exists w'. split; [by right|done].
Qed.
Lemma kept_ids ws ws' (P : Z → Prop) : Forall2 kept ws ws' → Forall (λ w, P (w_id w)) ws → Forall (λ w, P (w_id w)) ws'.
Proof. induction 1 as [|a b ? ? (E & _) _ IH]; [done|]. rewrite !Forall_cons, E. naive_solver. Qed.

Section runs.
Context (config : BudgetConfig).
Abbreviation ok := (budget_ok config).

(** A registered future has its waiter in the queue, as long as it is open. *)
Definition registered (s : BudgetState) (f : Fut) : Prop :=
  match f_waiter f with
  | None => True
  | Some id =>
      id < next_waiter_id s ∧
      (closed s = false → ∃ w, w ∈ waiters s ∧ w_id w = id ∧ w_tenant w = f_tenant f ∧ w_bytes w = f_bytes f)
  end.

Definition bsys_ok (n : Z) (sys : BSys) : Prop :=
  let s := b_state sys in
  ok (b_permits sys) s ∧ Forall (λ w, w_id w < next_waiter_id s) (waiters s) ∧ 0 ≤ next_waiter_id s ≤ n ∧
  (closed s = true → waiters s = []) ∧
  (∀ fid f, b_futs sys !! fid = Some f → 0 < f_bytes f ∧ registered s f) ∧
  (∀ fid fid' f f' id, b_futs sys !! fid = Some f → b_futs sys !! fid' = Some f' →
     f_waiter f = Some id → f_waiter f' = Some id → fid = fid').

(** Only the sizes of requests must be positive. *)
Definition op_positive (op : b_op) : bool :=
  match op with BStart _ _ bytes | BTry _ bytes => 0 <? bytes | _ => true end.

Lemma registered_kept s s' f :
  closed s' = closed s → next_waiter_id s ≤ next_waiter_id s' → Forall2 kept (waiters s) (waiters s') →
  registered s f → registered s' f.
Proof.
  intros Hcl Hnx Hk. unfold registered. destruct (f_waiter f) as [id|]; [|done]. rewrite Hcl. intros [Hid Hw].
  split; [lia|]. intros Hc. destruct (Hw Hc) as (w & Hin & E1 & E2 & E3).
  destruct (kept_elem _ _ _ Hk Hin) as (w' & ? & ? & ? & ?). exists w'. split_and!; congruence.
Qed.

(** Taking out the waiter of another future. *)
Lemma registered_remove s s' f older w younger :
  closed s' = closed s → next_waiter_id s' = next_waiter_id s → waiters s = older ++ w :: younger →
  waiters s' = older ++ younger → f_waiter f ≠ Some (w_id w) → registered s f → registered s' f.
Proof.
  intros Hcl Hnx Hws Hws' Hne. unfold registered. destruct (f_waiter f) as [id|] eqn:E; [|done].
  rewrite Hcl, Hnx, Hws, Hws'. intros [Hid Hw]. split; [done|]. intros Hc. destruct (Hw Hc) as (x & Hin & Hx).
  exists x. split; [|done]. rewrite elem_of_app, elem_of_cons in *. destruct Hin as [?|[->|?]]; [by left| |by right].
  exfalso. apply Hne. destruct Hx as [-> _]. done.
Qed.

Lemma count_rejection_ok permits s : ok permits s → ok permits (count_rejection s).
Proof. done. Qed.

(** Releasing a held amount. *)
Lemma uncharge_permit permits i t b s :
  ok permits s → permits !! i = Some (t, b) →
  ∃ s', uncharge s t b = Some s' ∧ ok (delete i permits) s' ∧ same_but_charges s s'.
Proof.
  intros Hok Hi. pose proof (holdings_positive config _ _ Hok) as Hpos. destruct Hok as (Hacc & Hp & Hw & Hq).
  pose proof (delete_Permutation _ _ _ Hi) as Hperm.
  assert (permits ++ granted_of (waiters s) ≡ₚ (t, b) :: (delete i permits ++ granted_of (waiters s))) as Hperm'
    by exact (Permutation_app_tail _ Hperm).
  destruct (uncharge_ok config (delete i permits ++ granted_of (waiters s)) s t b) as (s' & Hs' & Hacc' & Hw' & Hsame).
  - by eapply accounts_perm.
  - by eapply Permutation_Forall.
  - done.
  - exists s'. split; [done|]. split; [|done]. destruct Hsame as (_ & _ & Hws). unfold budget_ok. rewrite Hws.
    split_and!; [done| |done..]. unfold positive. by apply Forall_delete.
Qed.

Lemma remove_waiter_ok permits s older w younger :
  ok permits s → waiters s = older ++ w :: younger →
  ∃ s', remove_waiter s older w younger = Some s' ∧ ok permits s' ∧ closed s' = closed s ∧
    next_waiter_id s' = next_waiter_id s ∧ waiters s' = older ++ younger.
Proof.
  intros Hok Hws. pose proof (holdings_positive config _ _ Hok) as Hpos. destruct Hok as (Hacc & Hp & Hw & Hq).
  rewrite Hws in Hacc, Hpos, Hq. pose proof (granted_of_split older w younger) as Hperm.
  unfold remove_waiter. destruct (w_granted w) eqn:Eg.
  - destruct (uncharge_ok config (permits ++ granted_of (older ++ younger)) (set_waiters (older ++ younger) s)
      (w_tenant w) (w_bytes w)) as (s' & Hs' & Hacc' & Hw' & Hcl & Hnx & Hws').
    + eapply accounts_perm; [|exact Hacc]. rewrite Hperm. cbn. by rewrite <-Permutation_middle.
    + eapply Permutation_Forall; [|exact Hpos]. rewrite Hperm. cbn. by rewrite <-Permutation_middle.
    + done.
    + exists s'. split; [done|]. unfold budget_ok. rewrite Hws'. cbn. split_and!; try done. by eapply queue_ok_remove.
  - eexists. split; [done|]. cbn. split_and!; [|done..]. unfold budget_ok. cbn. split_and!; try done.
    + eapply accounts_perm; [|exact Hacc]. by rewrite Hperm.
    + by eapply queue_ok_remove.
Qed.

(** A step that completes or drops the future [fid]. *)
Lemma bsys_finish n sys fid s' permits' :
  bsys_ok n sys → ok permits' s' → Forall (λ w, w_id w < next_waiter_id s') (waiters s') →
  next_waiter_id s' = next_waiter_id (b_state sys) → (closed s' = true → waiters s' = []) →
  (∀ fid' f', fid' ≠ fid → b_futs sys !! fid' = Some f' → registered (b_state sys) f' → registered s' f') →
  bsys_ok (n + 1) (mkBSys s' (delete fid (b_futs sys)) permits').
Proof.
  intros (_ & _ & Hnx & _ & Hf & Hd) Hok Hids Enx Hcl Hreg. unfold bsys_ok. cbn. split_and!; try done; [lia..| |].
  - intros fid' f' [Hne H]%lookup_delete_Some. destruct (Hf _ _ H). eauto.
  - intros fid1 fid2 f1 f2 id [_ H1]%lookup_delete_Some [_ H2]%lookup_delete_Some. eauto.
Qed.

(** The future's own waiter, and what taking it out means to the others. *)
Lemma own_waiter n sys fid f id older w younger s' :
  bsys_ok n sys → b_futs sys !! fid = Some f → f_waiter f = Some id →
  find_waiter id [] (waiters (b_state sys)) = Some (older, w, younger) →
  closed s' = closed (b_state sys) → next_waiter_id s' = next_waiter_id (b_state sys) →
  waiters s' = older ++ younger →
  waiters (b_state sys) = older ++ w :: younger ∧ Forall (λ w, w_id w < next_waiter_id s') (waiters s') ∧
  (closed s' = true → waiters s' = []) ∧
  (∀ fid' f', fid' ≠ fid → b_futs sys !! fid' = Some f' → registered (b_state sys) f' → registered s' f').
Proof.
  intros (_ & Hids & _ & Hcl & _ & Hd) Hfid Hid Hfind Ecl Enx Ews.
  apply find_waiter_Some in Hfind as [Hws Hwid]. cbn in Hws. rewrite Hws in *. split_and!.
  - done.
  - rewrite Ews, Enx. rewrite Forall_app, Forall_cons in *. naive_solver.
  - intros Hc. rewrite Ecl in Hc. apply Hcl in Hc. by destruct older.
  - intros fid' f' Hne Hfid' Hr. eapply registered_remove; [done..| |done].
    intros E. rewrite Hwid in E. apply Hne. by eapply Hd.
Qed.

Lemma finish_granted n sys fid s1 permits' :
  bsys_ok n sys → ok permits' s1 → Forall (λ w, w_id w < next_waiter_id s1) (waiters s1) →
  next_waiter_id s1 = next_waiter_id (b_state sys) → (closed s1 = true → waiters s1 = []) →
  (∀ fid' f', fid' ≠ fid → b_futs sys !! fid' = Some f' → registered (b_state sys) f' → registered s1 f') →
  ∃ s2 woken, grant_waiters config s1 = Some (s2, woken) ∧
    bsys_ok (n + 1) (mkBSys s2 (delete fid (b_futs sys)) permits').
Proof.
  intros Hsys Hok Hids Enx Hcl Hreg.
  destruct (grant_waiters_ok config _ _ Hok) as (s2 & woken & -> & Hok2 & _ & Ecl & Enx2 & Hk).
  exists s2, woken. split; [done|]. apply bsys_finish; [done..| |lia| |].
  - rewrite Enx2. by apply (kept_ids _ _ (λ i, i < next_waiter_id s1) Hk).
  - rewrite Ecl. intros Hc%Hcl. rewrite Hc in Hk. by inversion Hk.
  - intros fid' f' Hne Hf Hr. eapply registered_kept; [done|lia|done|eauto].
Qed.

Lemma drop_future_ok n sys fid : bsys_ok n sys → ∃ sys', b_exec config sys (BDropFuture fid) = Some sys' ∧ bsys_ok (n + 1) sys'.
Proof.
  intros Hsys. cbn. destruct (b_futs sys !! fid) as [f|] eqn:Hfid.
  2:{ eexists. split; [done|]. destruct Hsys as (? & ? & ? & ? & ? & ?). split_and!; try done; lia. }
  pose proof Hsys as (Hok & Hids & Hnx & Hcl & _). unfold drop_acquire.
  assert (bsys_ok (n + 1) (mkBSys (b_state sys) (delete fid (b_futs sys)) (b_permits sys))) as Hplain
    by by apply bsys_finish.
  destruct (f_waiter f) as [id|] eqn:Hid; cbn; [|by eexists].
  destruct (find_waiter id [] (waiters (b_state sys))) as [[[older w] younger]|] eqn:Hfind; cbn; [|by eexists].
  pose proof (find_waiter_Some _ _ _ _ _ _ Hfind) as [Hws _]. cbn in Hws.
  destruct (remove_waiter_ok _ _ _ _ _ Hok Hws) as (s1 & -> & Hok1 & Ecl & Enx & Ews). cbn.
  destruct (own_waiter _ _ _ _ _ _ _ _ s1 Hsys Hfid Hid Hfind Ecl Enx Ews) as (_ & Hids1 & Hcl1 & Hreg).
  destruct (finish_granted n sys fid s1 (b_permits sys)) as (s2 & woken & -> & Hok2); [done..|]. by eexists.
Qed.

(** A step that changes nothing the futures see. *)
Lemma bsys_state n sys s' permits' :
  bsys_ok n sys → ok permits' s' → closed s' = closed (b_state sys) →
  next_waiter_id s' = next_waiter_id (b_state sys) → Forall2 kept (waiters (b_state sys)) (waiters s') →
  bsys_ok (n + 1) (mkBSys s' (b_futs sys) permits').
Proof.
  intros (_ & Hids & Hnx & Hcl & Hf & Hd) Hok Ecl Enx Hk. unfold bsys_ok. cbn. split_and!; try done; [|lia|lia| |].
  - rewrite Enx. by apply (kept_ids _ _ (λ i, i < next_waiter_id (b_state sys)) Hk).
  - rewrite Ecl. intros Hc%Hcl. rewrite Hc in Hk. by inversion Hk.
  - intros fid f H. destruct (Hf _ _ H). split; [done|]. eapply registered_kept; [done|lia|done..].
Qed.

(** Charging a new permit. *)
Lemma charge_permit permits s t b :
  ok permits s → 0 < b → fits config s t b = true →
  ∃ s', charge s t b = Some s' ∧ ok (permits ++ [(t, b)]) s' ∧ same_but_charges s s'.
Proof.
  intros Hok Hb Hfit. pose proof (holdings_positive config _ _ Hok) as Hpos. destruct Hok as (Hacc & Hp & Hw & Hq).
  destruct (charge_ok config _ s t b Hacc Hpos Hw Hb Hfit) as (s' & Hs' & Hacc' & Hw' & Hsame).
  exists s'. split; [done|]. split; [|done]. destruct Hsame as (_ & _ & Hws). unfold budget_ok. rewrite Hws.
  split_and!; [|by apply Forall_app_2; [|constructor]|done..].
  eapply accounts_perm; [|exact Hacc']. rewrite <-app_assoc. cbn. apply Permutation_middle.
Qed.

Lemma try_ok n sys t b : bsys_ok n sys → 0 < b → ∃ sys', b_exec config sys (BTry t b) = Some sys' ∧ bsys_ok (n + 1) sys'.
Proof.
  intros Hsys Hb. pose proof Hsys as (Hok & _). cbn. unfold try_acquire.
  assert (bsys_ok (n + 1) (mkBSys (count_rejection (b_state sys)) (b_futs sys) (b_permits sys))) as Hrej
    by (apply bsys_state; try done; apply kept_refl).
  destruct (validate_request config b); [|by eexists]. destruct (closed (b_state sys)); [by eexists|].
  destruct (negb (bool_decide (waiters (b_state sys) = [])) || negb (fits config (b_state sys) t b)) eqn:E; [by eexists|].
  apply orb_false_iff in E as [_ Hfit%negb_false_iff].
  destruct (charge_permit _ _ _ _ Hok Hb Hfit) as (s' & -> & Hok' & Ecl & Enx & Ews). cbn.
  eexists. split; [done|]. apply bsys_state; try done. rewrite Ews. apply kept_refl.
Qed.

Lemma drop_permit_ok n sys i : bsys_ok n sys → ∃ sys', b_exec config sys (BDropPermit i) = Some sys' ∧ bsys_ok (n + 1) sys'.
Proof.
  intros Hsys. pose proof Hsys as (Hok & _). cbn. destruct (b_permits sys !! i) as [[t b]|] eqn:Hi.
  - unfold release. destruct (uncharge_permit _ _ _ _ _ Hok Hi) as (s1 & -> & Hok1 & Ecl & Enx & Ews). cbn.
    destruct (grant_waiters_ok config _ _ Hok1) as (s2 & woken & -> & Hok2 & _ & Ecl2 & Enx2 & Hk). cbn.
    eexists. split; [done|]. apply bsys_state; [done..|congruence|congruence|by rewrite <-Ews].
  - eexists. split; [done|]. destruct Hsys as (? & ? & ? & ? & ? & ?). split_and!; try done; lia.
Qed.

Lemma close_fold ws permits s :
  accounts (permits ++ granted_of ws) s → positive (permits ++ granted_of ws) → within config s →
  ∃ s', foldl close_waiter (Some s) ws = Some s' ∧ accounts permits s' ∧ within config s' ∧ same_but_charges s s'.
Proof.
  revert s. induction ws as [|w ws IH]; intros s Hacc Hpos Hw; cbn [foldl].
  { rewrite app_nil_r in *. by exists s. }
  unfold close_waiter at 2. cbn. pose proof (granted_of_split [] w ws) as Hperm. cbn [app] in Hperm.
  destruct (w_granted w) eqn:Eg; cbn [app] in Hperm.
  - assert (permits ++ granted_of (w :: ws) ≡ₚ (w_tenant w, w_bytes w) :: permits ++ granted_of ws) as Hp'.
    { rewrite Hperm. by rewrite <-Permutation_middle. }
    destruct (uncharge_ok config (permits ++ granted_of ws) s (w_tenant w) (w_bytes w)) as (s1 & -> & Ha1 & Hw1 & Hs1);
      [by eapply accounts_perm|by eapply Permutation_Forall|done|].
    eapply Permutation_Forall in Hpos; [|exact Hp']. apply Forall_cons in Hpos as [_ Hpos].
    destruct (IH s1 Ha1 Hpos Hw1) as (s2 & ? & ? & ? & Hs2). exists s2. split_and!; try done.
    destruct Hs1 as (? & ? & ?), Hs2 as (? & ? & ?). split_and!; congruence.
  - apply (Permutation_app_head permits) in Hperm.
    apply IH; [by eapply accounts_perm|by eapply Permutation_Forall|done].
Qed.

Lemma close_ok n sys : bsys_ok n sys → ∃ sys', b_exec config sys BClose = Some sys' ∧ bsys_ok (n + 1) sys'.
Proof.
  intros (Hok & Hids & Hnx & _ & Hf & Hd). cbn. unfold close. set (s0 := mkBudgetState true _ _ _ _ _ _ _).
  pose proof (holdings_positive config _ _ Hok) as Hpos. destruct Hok as (Hacc & Hp & Hw & Hq).
  destruct (close_fold (waiters (b_state sys)) (b_permits sys) s0) as (s' & -> & Hacc' & Hw' & Ecl & Enx & Ews);
    [done..|]. cbn. eexists. split; [done|]. unfold bsys_ok. cbn. rewrite Ews, Enx. cbn. split_and!; try done; [|lia|lia|].
  - unfold budget_ok. rewrite Ews. cbn. rewrite app_nil_r. split_and!; try done. apply queue_ok_nil.
  - intros fid f H. destruct (Hf _ _ H) as [? Hr]. split; [done|]. unfold registered in *. destruct (f_waiter f); [|done].
    rewrite Ecl, Enx. split; [apply Hr|done].
Qed.

(** Registering a new waiter. *)
Lemma register_ok n sys fid f :
  bsys_ok n sys → n < u64_max → b_futs sys !! fid = Some f → f_waiter f = None → closed (b_state sys) = false →
  let s := b_state sys in
  let id := next_waiter_id s in
  ∃ s' woken,
    grant_waiters config (mkBudgetState (closed s) ((id + 1) mod 2 ^ 64) (charged s) (peak s) (tenant_charged s)
      (waiters s ++ [mkWaiter id (f_tenant f) (f_bytes f) false 0 true]) ((wait_count s + 1) mod 2 ^ 64)
      (rejection_count s)) = Some (s', woken) ∧
    bsys_ok (n + 1) (mkBSys s' (<[fid := mkFut (f_tenant f) (f_bytes f) (Some id)]> (b_futs sys)) (b_permits sys)).
Proof.
  intros (Hok & Hids & Hnx & Hcl & Hf & Hd) Hn Hfid Hw0 Hopen s id. fold s in Hok, Hids, Hnx, Hcl, Hopen, Hf.
  set (w := mkWaiter id (f_tenant f) (f_bytes f) false 0 true). set (s1 := mkBudgetState _ _ _ _ _ _ _ _).
  assert ((id + 1) mod 2 ^ 64 = id + 1) as Eid by (apply Z.mod_small; subst id; int_lia).
  assert (ok (b_permits sys) s1) as Hok1.
  { destruct Hok as (Hacc & Hp & Hw & Hq1 & Hq2 & Hq3). destruct (Hf _ _ Hfid) as [Hb _].
    unfold budget_ok. cbn. rewrite granted_of_app. cbn. rewrite app_nil_r. split_and!; try done. split_and!.
    - rewrite fmap_app. apply NoDup_app. split_and!; [done| |by apply NoDup_singleton].
      intros x (w' & -> & Hin)%list_elem_of_fmap Hx. cbn in Hx. apply list_elem_of_singleton in Hx.
      rewrite Forall_forall in Hids. specialize (Hids _ Hin). subst id. lia.
    - by apply Forall_app_2; [|constructor].
    - apply StronglySorted_app_2; [by intros ? ? _ ->%list_elem_of_singleton|done|by repeat constructor]. }
  destruct (grant_waiters_ok config _ _ Hok1) as (s2 & woken & -> & Hok2 & _ & Ecl2 & Enx2 & Hk).
  exists s2, woken. split; [done|]. cbn in Ecl2, Enx2, Hk. rewrite Eid in Enx2. unfold bsys_ok. cbn.
  assert (∀ f', registered s f' → registered s2 f') as Hreg.
  { intros f' Hr. eapply (registered_kept s1); [done|subst s1; cbn [next_waiter_id]; lia|done|]. unfold registered in *. destruct (f_waiter f'); [|done].
    cbn. rewrite Eid. destruct Hr as [Hlt Hr]. split; [subst id; lia|]. intros _. destruct (Hr Hopen) as (w' & Hin & ?).
    exists w'. split; [|done]. by apply elem_of_app; left. }
  rewrite Enx2, Ecl2. split_and!; try done; [| |lia|by rewrite Hopen| |].
  - apply (kept_ids _ _ (λ i, i < id + 1) Hk), Forall_app_2; [|by repeat constructor; cbn; lia].
    eapply Forall_impl; [exact Hids|]. cbn. subst id. lia.
  - subst id. lia.
  - intros fid' f' [[<- <-]|[Hne H]]%lookup_insert_Some; [|destruct (Hf _ _ H); auto].
    destruct (Hf _ _ Hfid) as [Hb _]. split; [done|]. unfold registered. cbn. split; [lia|]. intros _.
    destruct (kept_elem _ _ w Hk) as (w' & Hin & E1 & E2 & E3); [apply elem_of_app; right; by apply list_elem_of_singleton|].
    by exists w'.
  - intros fid1 fid2 f1 f2 id' [[<- <-]|[Hne1 H1]]%lookup_insert_Some [[<- <-]|[Hne2 H2]]%lookup_insert_Some; cbn; try done.
    + intros [= <-] E. destruct (Hf _ _ H2) as [_ Hr]. unfold registered in Hr. rewrite E in Hr. destruct Hr. subst id. lia.
    + intros E [= <-]. destruct (Hf _ _ H1) as [_ Hr]. unfold registered in Hr. rewrite E in Hr. destruct Hr. subst id. lia.
    + eauto.
Qed.

Lemma poll_closed_ok n sys fid f :
  bsys_ok n sys → b_futs sys !! fid = Some f → closed (b_state sys) = true →
  bsys_ok (n + 1) (mkBSys (count_rejection (b_state sys)) (delete fid (b_futs sys)) (b_permits sys)).
Proof. intros Hsys Hfid Hc. pose proof Hsys as (Hok & Hids & _ & Hcl & _). by apply bsys_finish. Qed.

(** A granted future takes its permit out of the queue. *)
Lemma take_grant permits s older w younger :
  ok permits s → waiters s = older ++ w :: younger → w_granted w = true →
  ok (permits ++ [(w_tenant w, w_bytes w)]) (set_waiters (older ++ younger) s).
Proof.
  intros (Hacc & Hp & Hw & Hq) Hws Hg. rewrite Hws in *. pose proof (granted_of_split older w younger) as Hperm.
  rewrite Hg in Hperm. unfold budget_ok. cbn. split_and!; [| |done|by eapply queue_ok_remove].
  - eapply accounts_perm; [|exact Hacc]. rewrite <-app_assoc. by apply Permutation_app_head.
  - apply Forall_app_2; [done|]. constructor; [|constructor]. destruct Hq as (_ & Hf & _).
    rewrite Forall_app, Forall_cons in Hf. naive_solver.
Qed.

(** An ungranted future stays, with its waker renewed. *)
Lemma rewait_ok n sys older w younger w' :
  bsys_ok n sys → waiters (b_state sys) = older ++ w :: younger →
  w_id w' = w_id w ∧ w_tenant w' = w_tenant w ∧ w_bytes w' = w_bytes w ∧ w_granted w' = w_granted w ∧ w_waker w' = true →
  bsys_ok (n + 1) (mkBSys (set_waiters (older ++ w' :: younger) (b_state sys)) (b_futs sys) (b_permits sys)).
Proof.
  intros Hsys Hws (Eid & Et & Eb & Eg & Ek). apply bsys_state; [done| |done..|].
  - destruct Hsys as ((Hacc & Hp & Hw & Hn & Hf & Hs) & _). rewrite Hws in *. unfold budget_ok, queue_ok. cbn.
    split_and!; try done.
    + eapply accounts_perm; [|exact Hacc]. by rewrite !granted_of_split, Eg, Et, Eb.
    + rewrite fmap_app, fmap_cons in *. by rewrite Eid.
    + rewrite Forall_app, Forall_cons in *. rewrite Eb. naive_solver.
    + rewrite StronglySorted_app in *. destruct Hs as (H1 & H2 & H3). inversion_clear H3 as [|?? H4 H5].
      split_and!; [|done|constructor; [done|]].
      * intros x y Hx [->|Hy]%elem_of_cons; [|apply H1; [done|by right]].
        unfold fifo. rewrite Et, Eg. apply H1; [done|by left].
      * eapply Forall_impl; [exact H5|]. intros y. unfold fifo. by rewrite Et, Eg.
  - rewrite Hws. cbn. apply Forall2_app; [apply kept_refl|]. constructor; [|apply kept_refl].
    unfold kept. rewrite Eg. done.
Qed.

Lemma poll_ok n sys fid : bsys_ok n sys → n < u64_max → ∃ sys', b_exec config sys (BPoll fid) = Some sys' ∧ bsys_ok (n + 1) sys'.
Proof.
  intros Hsys Hn. pose proof Hsys as (Hok & Hids & Hnx & Hcl & Hf & Hd). cbn.
  destruct (b_futs sys !! fid) as [f|] eqn:Hfid.
  2:{ eexists. split; [done|]. split_and!; try done; lia. }
  destruct (Hf _ _ Hfid) as [Hb Hreg]. unfold poll. destruct (validate_request config (f_bytes f)) as [[]|e] eqn:Hv.
  2:{ cbn. eexists. split; [done|]. by apply bsys_finish. }
  destruct (closed (b_state sys)) eqn:Hc.
  - pose proof (poll_closed_ok n sys fid f Hsys Hfid Hc) as Hdone.
    destruct (f_waiter f) as [id|]; cbn; [|by eexists]. rewrite (Hcl eq_refl). cbn. by eexists.
  - destruct (f_waiter f) as [id|] eqn:Hid.
    + unfold registered in Hreg. rewrite Hid in Hreg. destruct Hreg as [_ Hreg].
      destruct (Hreg Hc) as (w0 & Hin & Ew0 & Et0 & Eb0).
      destruct (find_waiter id [] (waiters (b_state sys))) as [[[older w] younger]|] eqn:Hfind.
      2:{ by eapply find_waiter_None in Hfind. }
      pose proof (find_waiter_Some _ _ _ _ _ _ Hfind) as [Hws Hwid]. cbn in Hws.
      assert (w = w0) as ->.
      { destruct Hok as (_ & _ & _ & Hnd & _). rewrite Hws in Hin, Hnd. rewrite fmap_app, fmap_cons in Hnd.
        apply NoDup_app in Hnd as (_ & Hx & [Hy _]%NoDup_cons).
        apply elem_of_app in Hin as [Hin|[->|Hin]%elem_of_cons]; [|done|]; exfalso.
        - apply (Hx (w_id w0)); [by apply list_elem_of_fmap_2|]. rewrite Ew0, <-Hwid. by left.
        - apply Hy. rewrite Hwid, <-Ew0. by apply list_elem_of_fmap_2. }
      cbn [mbind option_bind]. destruct (w_granted w0) eqn:Hg.
      * pose proof (take_grant _ _ _ _ _ Hok Hws Hg) as Hok1. rewrite Et0, Eb0 in Hok1.
        destruct (own_waiter _ _ _ _ _ _ _ _ (set_waiters (older ++ younger) (b_state sys)) Hsys Hfid Hid Hfind)
          as (_ & Hids1 & Hcl1 & Hreg1); [done..|].
        destruct (finish_granted n sys fid _ _ Hsys Hok1) as (s2 & woken & -> & Hok2); [done..|]. by eexists.
      * cbn. eexists. split; [done|]. rewrite insert_id; [|by rewrite <-Hid; destruct f; cbn in *; subst].
        eapply rewait_ok; [done..|]. by cbn.
    + destruct (bool_decide (waiters (b_state sys) = []) && fits config (b_state sys) (f_tenant f) (f_bytes f)) eqn:E.
      * apply andb_true_iff in E as [_ Hfit].
        destruct (charge_permit _ _ _ _ Hok Hb Hfit) as (s' & -> & Hok' & Ecl & Enx & Ews). cbn.
        eexists. split; [done|]. apply bsys_finish; [done|done|by rewrite Ews, Enx|done|by rewrite Ecl, Hc|].
        intros fid' f' _ _ Hr. eapply registered_kept; [done|lia| |done]. rewrite Ews. apply kept_refl.
      * destruct (register_ok n sys fid f Hsys Hn Hfid Hid Hc) as (s' & woken & Hgrant & Hok').
        rewrite Hc in Hgrant. rewrite Hgrant. cbn. by eexists.
Qed.

Lemma start_future_ok n sys fid t b :
  bsys_ok n sys → 0 < b → ∃ sys', b_exec config sys (BStart fid t b) = Some sys' ∧ bsys_ok (n + 1) sys'.
Proof.
  intros (Hok & Hids & Hnx & Hcl & Hf & Hd) Hb. cbn. eexists. split; [done|].
  destruct (b_futs sys !! fid) eqn:E; unfold bsys_ok; cbn; split_and!; try done; try lia.
  - intros fid' f' [[<- <-]|[Hne H]]%lookup_insert_Some; [done|by eapply Hf].
  - intros fid1 fid2 f1 f2 id [[<- <-]|[Hne1 H1]]%lookup_insert_Some [[<- <-]|[Hne2 H2]]%lookup_insert_Some; cbn; try done.
    eauto.
Qed.

Lemma b_exec_ok n sys op :
  bsys_ok n sys → op_positive op = true → n < u64_max → ∃ sys', b_exec config sys op = Some sys' ∧ bsys_ok (n + 1) sys'.
Proof.
  intros Hsys Hpos Hn. destruct op as [fid t b|fid|fid|t b|i|]; cbn [op_positive] in Hpos.
  - apply start_future_ok; [done|by apply Z.ltb_lt].
  - by apply poll_ok.
  - by apply drop_future_ok.
  - apply try_ok; [done|by apply Z.ltb_lt].
  - by apply drop_permit_ok.
  - by apply close_ok.
Qed.

Lemma b_run_ok ops n sys :
  bsys_ok n sys → forallb op_positive ops = true → n + Z.of_nat (length ops) ≤ u64_max →
  ∃ sys', b_run config sys ops = Some sys' ∧ bsys_ok (n + Z.of_nat (length ops)) sys'.
Proof.
  revert n sys. induction ops as [|op ops IH]; intros n sys Hsys Hpos Hn; cbn [b_run foldl forallb length] in *.
  { exists sys. by rewrite Z.add_0_r. }
  apply andb_true_iff in Hpos as [H1 H2]. destruct (b_exec_ok n sys op Hsys H1) as (sys1 & E1 & Hsys1); [lia|].
  cbn. rewrite E1. replace (n + Z.of_nat (S (length ops))) with (n + 1 + Z.of_nat (length ops)) by lia.
  apply IH; [done..|lia].
Qed.

Lemma bsys_new_ok : 0 ≤ global_limit config → (∀ limit, tenant_limit config = Some limit → 0 ≤ limit) → bsys_ok 0 BSys_new.
Proof.
  intros Hg Hl. unfold bsys_ok. cbn. split_and!; try done.
  - split_and!; [|constructor| |apply queue_ok_nil].
    + split; [done|]. intros t. cbn. by rewrite lookup_empty.
    + split_and!; cbn; [lia..|]. intros limit t E. rewrite lookup_empty. cbn. by apply Hl.
Qed.

(** C22. Byte admission is exact and never panics. Whatever futures are polled and
    dropped, permits returned and budgets closed, in any order, as long as request
    sizes are positive: no [expect] fails; the charge is exactly what the permits and
    the granted requests hold, in total and per tenant; it never exceeds the limits,
    nor does its peak; within a tenant grants follow arrival; and every request still
    waiting can be woken. *)
Theorem byte_budget_exact ops :
  0 ≤ global_limit config → (∀ limit, tenant_limit config = Some limit → 0 ≤ limit) →
  forallb op_positive ops = true → Z.of_nat (length ops) ≤ u64_max →
  ∃ sys, b_run config BSys_new ops = Some sys ∧
  let s := b_state sys in
  let held := b_permits sys ++ granted_of (waiters s) in
  charged s = total held ∧ (∀ t, default 0 (tenant_charged s !! t) = tenant_total t held) ∧
  charged s ≤ peak s ≤ global_limit config ∧
  (∀ limit t, tenant_limit config = Some limit → tenant_total t held ≤ limit) ∧
  StronglySorted fifo (waiters s) ∧
  Forall (λ w, w_granted w = false → w_waker w = true) (waiters s).
Proof.
  intros Hg Hl Hpos Hlen. destruct (b_run_ok ops 0 BSys_new (bsys_new_ok Hg Hl) Hpos) as (sys & Hrun & Hok & _); [lia|].
  exists sys. split; [done|]. destruct Hok as ([Hc Ht] & _ & (_ & Hpk & Hlim) & _ & Hf & Hs). cbn zeta.
  split_and!; try done; try lia.
  - intros limit t E. rewrite <-Ht. by apply Hlim.
  - eapply Forall_impl; [exact Hf|]. by intros w [_ H].
Qed.
End runs.

(** ** Progress *)

Section progress.
Context (config : BudgetConfig) (Hlimit : global_limit config ≤ u64_max).

Lemma valid_fits s t b :
  charged s = 0 → default 0 (tenant_charged s !! t) = 0 → validate_request config b = Ok tt → fits config s t b = true.
Proof.
  unfold validate_request, fits, fits_global, fits_tenant, checked_add_u64. intros -> Ht. rewrite Ht, Z.add_0_l.
  destruct (Z.ltb_spec (global_limit config) b); [done|]. rewrite (proj2 (Z.leb_le b u64_max)) by lia.
  rewrite (proj2 (Z.leb_le b (global_limit config))) by lia. destruct (tenant_limit config) as [limit|]; [|done].
  destruct (Z.ltb_spec limit b); [done|]. intros _. cbn. by apply Z.leb_le.
Qed.

Lemma none_granted ws : Forall (λ w, w_granted w = false) ws → granted_of ws = [].
Proof. unfold granted_of. induction 1 as [|w ws Hg _ IH]; cbn; [done|]. by rewrite Hg. Qed.

Lemma existsb_false {A} (f : A → bool) l : existsb f l = false ↔ Forall (λ x, f x = false) l.
Proof. induction l as [|x l IH]; cbn; [done|]. by rewrite orb_false_iff, Forall_cons, IH. Qed.
Lemma existsb_elem {A} (f : A → bool) l : existsb f l = true → ∃ x, x ∈ l ∧ f x = true.
Proof.
  induction l as [|x l IH]; cbn; [done|]. intros [H|H]%orb_true_iff; [exists x; split; [by left|done]|].
  destruct (IH H) as (y & ? & ?). exists y. split; [by right|done].
Qed.

Lemma some_granted s :
  budget_ok config [] s → Forall (λ w, validate_request config (w_bytes w) = Ok tt) (waiters s) →
  waiters s ≠ [] → grant_round config s = None → ∃ w, w ∈ waiters s ∧ w_granted w = true.
Proof.
  intros Hok Hvalid Hne Hend. destruct (existsb w_granted (waiters s)) eqn:E; [by apply existsb_elem|].
  apply existsb_false in E. exfalso. destruct Hok as ([Hc Ht] & _). rewrite none_granted in Hc, Ht by done.
  assert (∀ w, w ∈ waiters s → fits config s (w_tenant w) (w_bytes w) = true) as Hfits.
  { intros w Hw. rewrite Forall_forall in Hvalid. apply valid_fits; [done|by rewrite Ht|by apply Hvalid]. }
  unfold grant_round in Hend. assert (aged_global config s = false) as Haged.
  { apply existsb_false, Forall_forall. intros w Hw. apply Hfits in Hw. unfold fits in Hw.
    apply andb_true_iff in Hw as [-> _]. cbn. by rewrite andb_false_r. }
  rewrite Haged in Hend. destruct (grantable config s [] (waiters s)) as [[[] ]|] eqn:Eg; [done|].
  destruct (waiters s) as [|w ws] eqn:Ews; [done|].
  destruct (grantable_None config s [] (w :: ws) 0 w Eg) as [Hf|Hf]; [done|by apply Forall_cons in E as [? _]| |done].
  rewrite Hfits in Hf; [done|by left].
Qed.

(** Granting ends with nothing left to grant: every request still waiting does
    not fit, stands behind an older waiting request of its tenant, or waits because a
    request passed over eight times lacks global capacity. And admission cannot
    stall: when no permit is held, some waiting request is granted. *)
Theorem grant_waiters_maximal permits s :
  budget_ok config permits s → Forall (λ w, validate_request config (w_bytes w) = Ok tt) (waiters s) →
  ∃ s' woken, grant_waiters config s = Some (s', woken) ∧ budget_ok config permits s' ∧
  (∀ i w, waiters s' !! i = Some w → w_granted w = false →
     (∃ a, a ∈ waiters s' ∧ w_granted a = false ∧ MAX_BYPASSES ≤ w_bypasses a ∧ fits_global config s' (w_bytes a) = false) ∨
     fits config s' (w_tenant w) (w_bytes w) = false ∨
     ∃ o, o ∈ take i (waiters s') ∧ w_granted o = false ∧ w_tenant o = w_tenant w) ∧
  (permits = [] → waiters s ≠ [] → ∃ w, w ∈ waiters s' ∧ w_granted w = true).
Proof.
  intros Hok Hvalid. destruct (grant_waiters_ok config _ _ Hok) as (s' & woken & Hg & Hok' & Hend & _ & _ & Hk).
  exists s', woken. split_and!; [done..| |].
  - intros i w Hi Hw. unfold grant_round in Hend. destruct (aged_global config s') eqn:Haged.
    + left. apply existsb_elem in Haged as (a & Hin & Ha).
      rewrite !andb_true_iff, !negb_true_iff, Z.leb_le in Ha. exists a. naive_solver.
    + right. destruct (grantable config s' [] (waiters s')) as [[[] ]|] eqn:Eg; [done|].
      destruct (grantable_None config s' [] _ _ _ Eg Hi Hw) as [?|Hold]; [by left|right].
      apply existsb_elem in Hold as (o & Hin & Ho). rewrite andb_true_iff, negb_true_iff, bool_decide_eq_true in Ho.
      exists o. naive_solver.
  - intros -> Hne. apply some_granted; [done| | |done].
    + clear -Hk Hvalid. induction Hk as [|a b ? ? (_ & _ & E & _) _ IH]; [done|]. rewrite Forall_cons in *.
      rewrite E. naive_solver.
    + intros E. rewrite E in Hk. by inversion Hk.
Qed.
End progress.

(** Zero-byte permits break the accounting: the first of two released removes
    the tenant's entry, and the second finds it gone and panics while it holds the
    lock. *)
Theorem zero_byte_permits_panic :
  b_run (mkBudgetConfig 10 None) BSys_new [BTry "t" 0; BTry "t" 0; BDropPermit 0; BDropPermit 0] = None.
Proof. vm_compute. reflexivity. Qed.

(** ** Samples *)

Definition budget_sample : BudgetConfig := mkBudgetConfig 10 (Some 6).
(** The second request of [a] waits behind its tenant's share, the request of [b] is
    granted past it. *)
Definition budget_ops : list b_op :=
  [BTry "a" 6; BStart 1 "a" 4; BPoll 1; BStart 2 "b" 3; BPoll 2; BPoll 2; BDropPermit 0].

Lemma byte_budget_exact_witness :
  ∃ sys, b_run budget_sample BSys_new budget_ops = Some sys ∧ charged (b_state sys) ≤ 10.
Proof.
  destruct (byte_budget_exact budget_sample budget_ops) as (sys & Hrun & _ & _ & Hpk & _).
  - vm_compute. discriminate.
  - intros limit [= <-]. vm_compute. discriminate.
  - vm_compute. reflexivity.
  - vm_compute. discriminate.
  - exists sys. split; [exact Hrun|]. cbn in Hpk. lia.
Defined.

Definition waiting_sample : BudgetState :=
  mkBudgetState false 1 0 0 ∅ [mkWaiter 0 "a" 4 false 0 true] 1 0.

Lemma waiting_sample_ok : budget_ok budget_sample [] waiting_sample.
Proof.
  split_and!; [|constructor| |].
  - split; [done|]. intros t. cbn. by rewrite lookup_empty.
  - split_and!; cbn; [lia..|]. intros limit t [= <-]. rewrite lookup_empty. cbn. lia.
  - split_and!; [by apply NoDup_singleton|by repeat constructor|by repeat constructor].
Qed.

Lemma grant_waiters_maximal_witness :
  ∃ s' woken, grant_waiters budget_sample waiting_sample = Some (s', woken) ∧
  ∃ w, w ∈ waiters s' ∧ w_granted w = true.
Proof.
  destruct (grant_waiters_maximal budget_sample (ltac:(vm_compute; discriminate)) [] waiting_sample waiting_sample_ok)
    as (s' & woken & Hg & _ & _ & Hp); [by repeat constructor|].
  exists s', woken. split; [exact Hg|]. by apply Hp.
Defined.
