(* ===== verification/JsonEquality.v ===== *)
(** Exact JSON equality bytes of [fireweed-core/src/queue_json.rs]: the iterative,
    byte-limited encoder with its reservations, a recursive reference encoding, and
    the equality of [serde_json] values it stands for. *)
From Stdlib Require Import Strings.Ascii.
From S2P Require Import Prelude Identity Field IndexKey.

(** ** JSON values *)

(** [serde_json::Number] in one of its builds: its text, its [u64], [i64] and [f64]
    readings (the last as bits) and its equality. [literal_numbers] tells the build
    that keeps the literal, which [current_json_equality_encoding] finds out by
    comparing the two zeros. *)
Class JsonNumber (N : Type) := {
  literal_numbers : bool;
  number_text : N → string;
  as_u64 : N → option Z;
  as_i64 : N → option Z;
  as_f64 : N → option Z;
  number_eqb : N → N → bool;
}.

(** A map is its entries in iteration order. *)
Inductive Value {N : Type} :=
| VNull
| VBool (b : bool)
| VNumber (n : N)
| VString (s : string)
| VArray (values : list Value)
| VObject (values : list (string * Value)).
Arguments Value : clear implicits.

Definition assoc {A} (k : string) (m : list (string * A)) : option A :=
  snd <$> List.find (λ e : string * A, String.eqb e.1 k) m.

(** [PartialEq] of [serde_json::Value]: maps are equal when they have as many keys and
    every key of one is in the other with an equal value. *)
Fixpoint json_eqb {N} `{JsonNumber N} (v w : Value N) {struct v} : bool :=
  match v, w with
  | VNull, VNull => true
  | VBool a, VBool b => Bool.eqb a b
  | VNumber a, VNumber b => number_eqb a b
  | VString a, VString b => String.eqb a b
  | VArray a, VArray b =>
      (fix eqs (a b : list (Value N)) {struct a} : bool :=
         match a, b with
         | [], [] => true
         | x :: a, y :: b => json_eqb x y && eqs a b
         | _, _ => false
         end) a b
  | VObject a, VObject b =>
      (length a =? length b)%nat &&
      (fix all (a : list (string * Value N)) : bool :=
         match a with
         | [] => true
         | (k, x) :: a => match assoc k b with Some y => json_eqb x y | None => false end && all a
         end) a
  | _, _ => false
  end.

(** ** The writer *)

Record Writer := mkWriter { w_out : bytes; w_limit : Z; w_pending : Z }.

Definition out_len (w : Writer) : Z := Z.of_nat (length (w_out w)).

Definition append (w : Writer) (b : bytes) : QueueResult Writer :=
  match (n ← checked_add_u64 (out_len w) (Z.of_nat (length b)); checked_add_u64 n (w_pending w)) with
  | Some n => if w_limit w <? n then Err QTooLarge else Ok (mkWriter (w_out w ++ b) (w_limit w) (w_pending w))
  | None => Err QTooLarge
  end.

Definition reserve_minimum (w : Writer) (n : Z) : QueueResult Writer :=
  match checked_add_u64 (w_pending w) n with
  | None => Err QTooLarge
  | Some pending =>
      match checked_add_u64 (out_len w) pending with
      | Some total => if w_limit w <? total then Err QTooLarge else Ok (mkWriter (w_out w) (w_limit w) pending)
      | None => Err QTooLarge
      end
  end.

(** [None] is the failed [expect]. *)
Definition consume_minimum (w : Writer) (n : Z) : option Writer :=
  if n <=? w_pending w then Some (mkWriter (w_out w) (w_limit w) (w_pending w - n)) else None.

Definition tag (w : Writer) (t : Z) : QueueResult Writer := append w [byte_of_Z t].

(** [while length] of a [usize]: ten groups of seven bits hold it. *)
Fixpoint length_loop (fuel : nat) (w : Writer) (n : Z) : QueueResult Writer :=
  match fuel with
  | O => Ok w
  | S fuel =>
      let byte := Z.land n 127 in
      let n := Z.shiftr n 7 in
      w ← tag w (Z.lor byte (if n =? 0 then 0 else 128));
      if n =? 0 then Ok w else length_loop fuel w n
  end.
Definition write_length (w : Writer) (n : Z) : QueueResult Writer := length_loop 10 w n.

Definition str_len (s : string) : Z := Z.of_nat (length (as_bytes s)).
Definition write_string (w : Writer) (s : string) : QueueResult Writer :=
  w ← write_length w (str_len s); append w (as_bytes s).

Fixpoint prefix_len (fuel : nat) (n : Z) : Z :=
  match fuel with
  | O => 1
  | S fuel => if n <? 128 then 1 else 1 + prefix_len fuel (Z.shiftr n 7)
  end.
Definition key_minimum (key : string) : QueueResult Z :=
  ok_or (checked_add_u64 (str_len key) (prefix_len 10 (str_len key))) QTooLarge.

Definition key_le {A} (a b : string * A) : Prop := bytes_cmp (as_bytes a.1) (as_bytes b.1) ≠ Gt.
#[export] Instance key_le_dec {A} : RelDecision (@key_le A).
Proof. intros a b. unfold key_le. solve_decision. Defined.
(** [sort_unstable_by] on the key bytes; keys are distinct. *)
Definition sort_entries {A} (m : list (string * A)) : list (string * A) := merge_sort key_le m.

(** ** The encoder *)

Section encoder.
Context {N : Type} `{JsonNumber N}.

Definition literal_number (w : Writer) (n : N) : QueueResult Writer :=
  w ← write_length w (str_len (number_text n)); append w (as_bytes (number_text n)).

Definition write_number (w : Writer) (n : N) : QueueResult Writer :=
  if literal_numbers then w ← tag w 8; literal_number w n
  else match as_u64 n with
  | Some z => w ← tag w 2; append w (to_be_bytes 8 z)
  | None =>
      match as_i64 n with
      | Some z => w ← tag w 3; append w (to_be_bytes 8 (i64_as_u64 z))
      | None =>
          bits ← ok_or (as_f64 n) (invalid "unsupported JSON number equality model");
          if negb (f64_is_finite bits) then Err (invalid "nonfinite JSON number")
          else w ← tag w 4; append w (to_be_bytes 8 (if f64_value bits =? 0 then 0 else bits))
      end
  end.

Inductive Frame :=
| FValue (v : Value N)
| FArray (values : list (Value N)) (next : nat)
| FObject (entries : list (string * Value N)) (next : nat).

Definition entries_minimum (m : list (string * Value N)) : QueueResult Z :=
  try_fold (λ n e, k ← key_minimum e.1; ok_or (m ← checked_add_u64 n k; checked_add_u64 m 1) QTooLarge) 0 m.

Definition object_key (w : Writer) (key : string) : option (QueueResult Writer) :=
  match key_minimum key with
  | Err e => Some (Err e)
  | Ok n => w ← consume_minimum w n; Some (write_string w key)
  end.

(** One round of the loop: the popped frame, with the frames it pushes. *)
Definition frame_step (w : Writer) (f : Frame) : option (QueueResult (Writer * list Frame)) :=
  match f with
  | FValue v =>
      w ← consume_minimum w 1;
      match v with
      | VNull => Some (w ← tag w 0; Ok (w, []))
      | VBool b => Some (w ← tag w 1; w ← tag w (if b then 1 else 0); Ok (w, []))
      | VNumber n => Some (w ← write_number w n; Ok (w, []))
      | VString s => Some (w ← tag w 5; w ← write_string w s; Ok (w, []))
      | VArray values =>
          Some (w ← tag w 6;
                w ← write_length w (Z.of_nat (length values));
                w ← reserve_minimum w (Z.of_nat (length values));
                Ok (w, match values with [] => [] | first :: _ => [FValue first; FArray values 1] end))
      | VObject values =>
          let reserved :=
            w ← tag w 7;
            w ← write_length w (Z.of_nat (length values));
            n ← entries_minimum values;
            reserve_minimum w n in
          match reserved with
          | Err e => Some (Err e)
          | Ok w =>
              let entries := sort_entries values in
              match entries with
              | [] => Some (Ok (w, []))
              | (key, value) :: _ =>
                  r ← object_key w key; Some (w ← r; Ok (w, [FValue value; FObject entries 1]))
              end
          end
      end
  | FArray values next =>
      Some (Ok (w, match values !! next with Some v => [FValue v; FArray values (S next)] | None => [] end))
  | FObject entries next =>
      match entries !! next with
      | Some (key, value) => r ← object_key w key; Some (w ← r; Ok (w, [FValue value; FObject entries (S next)]))
      | None => Some (Ok (w, []))
      end
  end.

(** The outer [None] is a panic or a run out of fuel. *)
Fixpoint encode_loop (fuel : nat) (w : Writer) (stack : list Frame) : option (QueueResult bytes) :=
  match stack with
  | [] => Some (Ok (w_out w))
  | f :: stack =>
      match fuel with
      | O => None
      | S fuel =>
          r ← frame_step w f;
          match r with
          | Err e => Some (Err e)
          | Ok (w, pushed) => encode_loop fuel w (pushed ++ stack)
          end
      end
  end.

Inductive JsonNumberEquality := NumericVariants | LiteralRepresentations.
Record JsonEqualityEncoding := mkJsonEqualityEncoding { je_version : Z; je_numbers : JsonNumberEquality }.
#[export] Instance JsonEqualityEncoding_eq_dec : EqDecision JsonEqualityEncoding.
Proof. intros [v1 n1] [v2 n2]. assert (EqDecision JsonNumberEquality) by solve_decision. solve_decision. Defined.

Definition current_json_equality_encoding : JsonEqualityEncoding :=
  mkJsonEqualityEncoding 1 (if literal_numbers then LiteralRepresentations else NumericVariants).

Definition JSON_EQUALITY_MAGIC : bytes := as_bytes "FWJ1".

Definition encode_json_equality_for (fuel : nat) (v : Value N) (encoding : JsonEqualityEncoding) (max_bytes : Z)
    : option (QueueResult bytes) :=
  if negb (bool_decide (encoding = current_json_equality_encoding))
  then Some (Err (invalid "JSON equality encoding drift; explicit migration required"))
  else
    let start :=
      w ← append (mkWriter [] max_bytes 0) JSON_EQUALITY_MAGIC;
      w ← tag w (match je_numbers encoding with LiteralRepresentations => 1 | NumericVariants => 0 end);
      reserve_minimum w 1 in
    match start with
    | Err e => Some (Err e)
    | Ok w => encode_loop fuel w [FValue v]
    end.

End encoder.

(** ** The reference encoding *)

Fixpoint varint (fuel : nat) (n : Z) : bytes :=
  match fuel with
  | O => []
  | S fuel => if n <? 128 then [byte_of_Z n] else byte_of_Z (128 + n mod 128) :: varint fuel (n / 128)
  end.
Definition length_bytes (n : Z) : bytes := varint 10 n.
Definition string_bytes (s : string) : bytes := length_bytes (str_len s) ++ as_bytes s.
#[global] Arguments length_bytes : simpl never.
#[global] Arguments string_bytes : simpl never.

Section reference.
Context {N : Type} `{JsonNumber N}.

Definition number_bytes (n : N) : bytes :=
  if literal_numbers then byte_of_Z 8 :: string_bytes (number_text n)
  else match as_u64 n, as_i64 n, as_f64 n with
  | Some z, _, _ => byte_of_Z 2 :: to_be_bytes 8 z
  | None, Some z, _ => byte_of_Z 3 :: to_be_bytes 8 (i64_as_u64 z)
  | None, None, Some bits => byte_of_Z 4 :: to_be_bytes 8 (if f64_value bits =? 0 then 0 else bits)
  | None, None, None => []
  end.

Fixpoint enc (v : Value N) : bytes :=
  match v with
  | VNull => [byte_of_Z 0]
  | VBool b => [byte_of_Z 1; byte_of_Z (if b then 1 else 0)]
  | VNumber n => number_bytes n
  | VString s => byte_of_Z 5 :: string_bytes s
  | VArray values => byte_of_Z 6 :: length_bytes (Z.of_nat (length values)) ++ List.concat (enc <$> values)
  | VObject values =>
      byte_of_Z 7 :: length_bytes (Z.of_nat (length values)) ++
      List.concat ((λ e : string * bytes, string_bytes e.1 ++ e.2) <$> sort_entries ((λ e, (e.1, enc e.2)) <$> values))
  end.

(** What the process can hold: lengths are [usize]s, keys of a map are distinct, and a
    number has one of the readings of its build, a float a finite one. *)
Definition number_ok (n : N) : bool :=
  if literal_numbers then str_len (number_text n) <=? u64_max
  else match as_u64 n, as_i64 n, as_f64 n with
  | Some _, _, _ | None, Some _, _ => true
  | None, None, Some bits => f64_is_finite bits
  | None, None, None => false
  end.

Fixpoint value_ok (v : Value N) : Prop :=
  match v with
  | VNull | VBool _ => True
  | VNumber n => number_ok n = true
  | VString s => str_len s ≤ u64_max
  | VArray values => Z.of_nat (length values) ≤ u64_max ∧ Forall id (value_ok <$> values)
  | VObject values =>
      Z.of_nat (length values) ≤ u64_max ∧ NoDup values.*1 ∧ Forall (λ k, str_len k ≤ u64_max) values.*1 ∧
      Forall id ((λ e, value_ok e.2) <$> values)
  end.
End reference.

(** ** The writer appends *)

(** The writer's invariant: what is written and what is reserved fit the limit. *)
Definition writer_ok (w : Writer) : Prop :=
  0 ≤ w_pending w ∧ out_len w + w_pending w ≤ w_limit w ∧ w_limit w ≤ u64_max.

Definition wrote (w : Writer) (b : bytes) : Writer := mkWriter (w_out w ++ b) (w_limit w) (w_pending w).

(** [append], as one comparison. *)
Definition put (w : Writer) (b : bytes) : QueueResult Writer :=
  if out_len w + Z.of_nat (length b) + w_pending w <=? w_limit w then Ok (wrote w b) else Err QTooLarge.

Lemma append_put w b : writer_ok w → append w b = put w b.
Proof.
  intros (Hp & Hf & Hl). unfold append, put, checked_add_u64.
  destruct (Z.leb_spec (out_len w + Z.of_nat (length b)) u64_max); cbn.
  - destruct (Z.leb_spec (out_len w + Z.of_nat (length b) + w_pending w) u64_max).
    + destruct (Z.ltb_spec (w_limit w) (out_len w + Z.of_nat (length b) + w_pending w)),
        (Z.leb_spec (out_len w + Z.of_nat (length b) + w_pending w) (w_limit w)); done || lia.
    + by rewrite (proj2 (Z.leb_gt _ _)) by lia.
  - by rewrite (proj2 (Z.leb_gt _ _)) by lia.
Qed.

Lemma out_len_wrote w b : out_len (wrote w b) = out_len w + Z.of_nat (length b).
Proof. unfold out_len. cbn. rewrite length_app. lia. Qed.

Lemma put_ok w b w' : put w b = Ok w' → w' = wrote w b ∧ (0 ≤ w_pending w → w_limit w ≤ u64_max → writer_ok w').
Proof.
  unfold put. destruct (Z.leb_spec (out_len w + Z.of_nat (length b) + w_pending w) (w_limit w)); [|done].
  intros [= <-]. split; [done|]. intros Hp Hl. unfold writer_ok. rewrite out_len_wrote. cbn. lia.
Qed.

Lemma put_err w b e : put w b = Err e → e = QTooLarge ∧ w_limit w < out_len w + Z.of_nat (length b) + w_pending w.
Proof. unfold put. case_match eqn:E; [done|]. intros [= <-]. apply Z.leb_gt in E. split; [done|lia]. Qed.

(** Two writes are one. *)
Lemma put_put w a b : writer_ok w → (w ← put w a; append w b) = put w (a ++ b).
Proof.
  intros Hw. pose proof Hw as (Hp & Hf & Hl). destruct (put w a) as [w'|e] eqn:E; cbn.
  - apply put_ok in E as [-> Hok]. rewrite append_put by by apply Hok. unfold put. rewrite out_len_wrote. cbn.
    rewrite length_app, Nat2Z.inj_add.
    destruct (Z.leb_spec (out_len w + Z.of_nat (length a) + Z.of_nat (length b) + w_pending w) (w_limit w)),
      (Z.leb_spec (out_len w + (Z.of_nat (length a) + Z.of_nat (length b)) + w_pending w) (w_limit w)); try lia; [|done].
    unfold wrote. cbn. by rewrite app_assoc.
  - unfold put in *. destruct (Z.leb_spec (out_len w + Z.of_nat (length a) + w_pending w) (w_limit w)); [done|].
    injection E as <-. rewrite length_app, Nat2Z.inj_add. by rewrite (proj2 (Z.leb_gt _ _)) by lia.
Qed.

(** ** Lengths *)

Lemma land_127 n : Z.land n 127 = n mod 128.
Proof. change 127 with (Z.ones 7). by rewrite Z.land_ones by lia. Qed.
Lemma lor_128 n : 0 ≤ n < 128 → Z.lor n 128 = 128 + n.
Proof.
  intros Hn. rewrite Z.lor_comm. rewrite <-Z.add_nocarry_lor; [done|].
  apply Z.bits_inj'. intros i Hi. rewrite Z.land_spec, Z.bits_0. change 128 with (2 ^ 7).
  rewrite Z.pow2_bits_eqb by lia. destruct (Z.eqb_spec 7 i) as [<-|]; [|done]. cbn [andb].
  destruct (decide (n = 0)) as [->|]; [done|]. apply Z.bits_above_log2; [lia|].
  apply Z.log2_lt_pow2; [lia|]. change (2 ^ 7) with 128. lia.
Qed.

Lemma length_loop_put fuel w n :
  writer_ok w → 0 ≤ n < 2 ^ (7 * Z.of_nat fuel) → (0 < fuel)%nat → length_loop fuel w n = put w (varint fuel n).
Proof.
  revert w n. induction fuel as [|fuel IH]; intros w n Hw Hn Hf; [lia|]. cbn [length_loop varint].
  rewrite land_127. change 7 with (Z.of_nat 7). rewrite Z.shiftr_div_pow2 by lia. change (2 ^ Z.of_nat 7) with 128.
  pose proof (Z.mod_pos_bound n 128 ltac:(lia)) as Hmod. unfold tag.
  destruct (Z.ltb_spec n 128) as [Hlt|Hge].
  - rewrite Z.div_small, Z.mod_small by lia. cbn [Z.eqb]. rewrite Z.lor_0_r, append_put by done.
    destruct (put w [byte_of_Z n]); done.
  - assert (1 ≤ n / 128) by (apply Z.div_le_lower_bound; lia).
    rewrite (proj2 (Z.eqb_neq _ _)) by lia. rewrite lor_128 by done. rewrite append_put by done.
    change (byte_of_Z (128 + n mod 128) :: varint fuel (n / 128)) with ([byte_of_Z (128 + n mod 128)] ++ varint fuel (n / 128)).
    rewrite <-put_put by done. destruct (put w [byte_of_Z (128 + n mod 128)]) as [w'|] eqn:E; [|done]. cbn.
    apply put_ok in E as [_ Hok]. pose proof Hw as (? & ? & ?). rewrite IH.
    + symmetry. apply append_put. by apply Hok.
    + by apply Hok.
    + split; [lia|]. apply Z.div_lt_upper_bound; [lia|]. destruct Hn as [_ Hn].
      replace (7 * Z.of_nat (S fuel)) with (7 + 7 * Z.of_nat fuel) in Hn by lia. rewrite Z.pow_add_r in Hn by lia.
      change (2 ^ 7) with 128 in Hn. lia.
    + destruct fuel; [|lia]. cbn in Hn. change (2 ^ 7) with 128 in Hn. lia.
Qed.

Lemma write_length_put w n : writer_ok w → 0 ≤ n ≤ u64_max → write_length w n = put w (length_bytes n).
Proof. intros Hw Hn. apply length_loop_put; [done| |lia]. change (7 * Z.of_nat 10) with 70. int_lia. Qed.

Lemma put_pending w b w' : put w b = Ok w' → w_pending w' = w_pending w ∧ w_limit w' = w_limit w.
Proof. intros E. by apply put_ok in E as [-> _]. Qed.

Lemma write_string_put w s : writer_ok w → str_len s ≤ u64_max → write_string w s = put w (string_bytes s).
Proof.
  intros Hw Hs. unfold write_string, string_bytes. rewrite write_length_put by (done || unfold str_len in *; lia).
  by apply put_put.
Qed.

Lemma tag_put w t : writer_ok w → tag w t = put w [byte_of_Z t].
Proof. apply append_put. Qed.

(** A tag, then more. *)
Lemma tag_then w t b (k : Writer → QueueResult Writer) :
  writer_ok w → (∀ w', writer_ok w' → k w' = put w' b) → (w ← tag w t; k w) = put w (byte_of_Z t :: b).
Proof.
  intros Hw Hk. rewrite tag_put by done. change (byte_of_Z t :: b) with ([byte_of_Z t] ++ b).
  rewrite <-put_put by done. destruct (put w [byte_of_Z t]) as [w'|] eqn:E; [|done]. cbn.
  apply put_ok in E as [_ Hok]. pose proof Hw as (? & ? & ?). assert (writer_ok w') by by apply Hok.
  by rewrite Hk, append_put.
Qed.

Lemma write_number_put {N} `{JsonNumber N} w (n : N) :
  writer_ok w → number_ok n = true → write_number w n = put w (number_bytes n).
Proof.
  intros Hw. unfold number_ok, write_number, number_bytes. destruct literal_numbers.
  - intros Hn%Z.leb_le. apply tag_then; [done|]. intros w' Hw'. by apply write_string_put.
  - destruct (as_u64 n); [intros _; by apply tag_then; [|intros; apply append_put]|].
    destruct (as_i64 n); [intros _; by apply tag_then; [|intros; apply append_put]|].
    destruct (as_f64 n) as [bits|]; [|done]. intros Hf. cbn. rewrite Hf. cbn [negb].
    by apply tag_then; [|intros; apply append_put].
Qed.

(** ** Reservations *)

Definition key_len (k : string) : Z := Z.of_nat (length (string_bytes k)).

Lemma prefix_len_varint fuel n :
  0 ≤ n < 2 ^ (7 * Z.of_nat fuel) → (0 < fuel)%nat → prefix_len fuel n = Z.of_nat (length (varint fuel n)).
Proof.
  revert n. induction fuel as [|fuel IH]; intros n Hn Hf; [lia|]. cbn [prefix_len varint].
  destruct (Z.ltb_spec n 128) as [|Hge]; [done|]. rewrite Z.shiftr_div_pow2 by lia. change (2 ^ 7) with 128.
  cbn [length]. rewrite IH; [lia| |].
  - split; [apply Z.div_pos; lia|]. apply Z.div_lt_upper_bound; [lia|]. destruct Hn as [_ Hn].
    replace (7 * Z.of_nat (S fuel)) with (7 + 7 * Z.of_nat fuel) in Hn by lia. rewrite Z.pow_add_r in Hn by lia.
    change (2 ^ 7) with 128 in Hn. lia.
  - destruct fuel; [|lia]. cbn in Hn. change (2 ^ 7) with 128 in Hn. lia.
Qed.

Lemma key_minimum_eq k :
  str_len k ≤ u64_max → key_minimum k = if key_len k <=? u64_max then Ok (key_len k) else Err QTooLarge.
Proof.
  intros Hk. unfold key_minimum, checked_add_u64. rewrite prefix_len_varint.
  - unfold key_len, string_bytes, length_bytes. rewrite length_app, Nat2Z.inj_add.
    replace (str_len k + Z.of_nat (length (varint 10 (str_len k)))) with
      (Z.of_nat (length (varint 10 (str_len k))) + Z.of_nat (length (as_bytes k))) by (unfold str_len; lia).
    by destruct (Z.leb _ _).
  - change (7 * Z.of_nat 10) with 70. unfold str_len in *. int_lia.
  - lia.
Qed.

(** The least a map's entries take: their keys and one byte a value. *)
Definition entries_min {A} (m : list (string * A)) : Z := foldr (λ e n, key_len e.1 + 1 + n) 0 m.

Lemma entries_min_nonneg {A} (m : list (string * A)) : 0 ≤ entries_min m.
Proof. unfold entries_min, key_len. induction m as [|e m IH]; cbn in *; lia. Qed.

Lemma entries_minimum_eq {N} (m : list (string * Value N)) :
  Forall (λ k, str_len k ≤ u64_max) m.*1 →
  entries_minimum m = if entries_min m <=? u64_max then Ok (entries_min m) else Err QTooLarge.
Proof.
  intros Hm. unfold entries_minimum.
  assert (∀ acc, 0 ≤ acc ≤ u64_max →
    try_fold (λ n e, k ← key_minimum e.1; ok_or (m ← checked_add_u64 n k; checked_add_u64 m 1) QTooLarge) acc m =
    if acc + entries_min m <=? u64_max then Ok (acc + entries_min m) else Err QTooLarge) as Hacc.
  { induction m as [|e m IH]; intros acc Hb.
    - cbn. rewrite Z.add_0_r. by rewrite (proj2 (Z.leb_le _ _)) by lia.
    - apply Forall_cons in Hm as [He Hm]. rewrite try_fold_cons, key_minimum_eq by done. cbn [entries_min foldr].
      pose proof (entries_min_nonneg m) as Hnn. fold (entries_min m).
      assert (0 ≤ key_len e.1) by (unfold key_len; lia).
      destruct (Z.leb_spec (key_len e.1) u64_max) as [Hk|Hk]; cbn.
      + unfold checked_add_u64. destruct (Z.leb_spec (acc + key_len e.1) u64_max); cbn.
        * destruct (Z.leb_spec (acc + key_len e.1 + 1) u64_max); cbn.
          -- rewrite IH by (done || lia).
             by replace (acc + key_len e.1 + 1 + entries_min m) with (acc + (key_len e.1 + 1 + entries_min m)) by lia.
          -- by rewrite (proj2 (Z.leb_gt _ _)) by lia.
        * by rewrite (proj2 (Z.leb_gt _ _)) by lia.
      + by rewrite (proj2 (Z.leb_gt _ _)) by lia. }
  specialize (Hacc 0). rewrite Z.add_0_l in Hacc. apply Hacc. int_lia.
Qed.

Definition reserved (w : Writer) (n : Z) : Writer := mkWriter (w_out w) (w_limit w) (w_pending w + n).

Lemma reserve_eq w n :
  writer_ok w → 0 ≤ n →
  reserve_minimum w n = if out_len w + w_pending w + n <=? w_limit w then Ok (reserved w n) else Err QTooLarge.
Proof.
  intros (Hp & Hf & Hl) Hn. unfold reserve_minimum, checked_add_u64. assert (0 ≤ out_len w) by (unfold out_len; lia).
  destruct (Z.leb_spec (w_pending w + n) u64_max); [|by rewrite (proj2 (Z.leb_gt _ _)) by lia].
  rewrite Z.add_assoc. destruct (Z.leb_spec (out_len w + w_pending w + n) u64_max);
    [|by rewrite (proj2 (Z.leb_gt _ _)) by lia].
  destruct (Z.ltb_spec (w_limit w) (out_len w + w_pending w + n)), (Z.leb_spec (out_len w + w_pending w + n) (w_limit w));
    done || lia.
Qed.

(** ** Induction on values *)

Section value_ind.
Context {N : Type} (P : Value N → Prop).
Context (Hnull : P VNull) (Hbool : ∀ b, P (VBool b)) (Hnum : ∀ n, P (VNumber n)) (Hstr : ∀ s, P (VString s)).
Context (Harr : ∀ l, Forall P l → P (VArray l)) (Hobj : ∀ m, Forall (λ e, P e.2) m → P (VObject m)).

Fixpoint Value_nested_ind (v : Value N) : P v :=
  match v with
  | VNull => Hnull
  | VBool b => Hbool b
  | VNumber n => Hnum n
  | VString s => Hstr s
  | VArray l =>
      Harr l ((fix go l : Forall P l :=
        match l with [] => List.Forall_nil _ | x :: l => List.Forall_cons _ _ _ (Value_nested_ind x) (go l) end) l)
  | VObject m =>
      Hobj m ((fix go m : Forall (λ e : string * Value N, P e.2) m :=
        match m with [] => List.Forall_nil _ | e :: m => List.Forall_cons _ _ _ (Value_nested_ind e.2) (go m) end) m)
  end.
End value_ind.

(** ** Sorted entries *)

#[export] Instance key_le_trans {A} : Transitive (@key_le A).
Proof.
  intros a b c. unfold key_le. intros H1 H2.
  destruct (bytes_cmp (as_bytes a.1) (as_bytes b.1)) eqn:E1; [apply bytes_cmp_Eq in E1; by rewrite E1| |done].
  destruct (bytes_cmp (as_bytes b.1) (as_bytes c.1)) eqn:E2; [apply bytes_cmp_Eq in E2; by rewrite <-E2, E1| |done].
  by rewrite (bytes_cmp_Lt_trans _ _ _ E1 E2).
Qed.
#[export] Instance key_le_total {A} : Total (@key_le A).
Proof.
  intros a b. unfold key_le. rewrite (bytes_cmp_antisym (as_bytes a.1) (as_bytes b.1)).
  destruct (bytes_cmp (as_bytes a.1) (as_bytes b.1)); cbn; auto.
Qed.

Lemma key_le_antisym {A} (a b : string * A) : key_le a b → key_le b a → a.1 = b.1.
Proof.
  unfold key_le. intros H1 H2. rewrite bytes_cmp_antisym in H2. apply as_bytes_inj, bytes_cmp_Eq.
  by destruct (bytes_cmp (as_bytes a.1) (as_bytes b.1)).
Qed.

Lemma nodup_key {A} (m : list (string * A)) a b : NoDup m.*1 → a ∈ m → b ∈ m → a.1 = b.1 → a = b.
Proof.
  induction m as [|e m IH]; cbn; [by intros _ ?%elem_of_nil|]. intros [Hn Hd]%NoDup_cons.
  intros [->|Ha]%elem_of_cons [->|Hb]%elem_of_cons E; [done| | |auto]; exfalso; apply Hn.
  - rewrite E. by apply list_elem_of_fmap_2.
  - rewrite <-E. by apply list_elem_of_fmap_2.
Qed.

Lemma sorted_unique {A} (l1 l2 : list (string * A)) :
  StronglySorted key_le l1 → StronglySorted key_le l2 → l1 ≡ₚ l2 → NoDup l1.*1 → l1 = l2.
Proof.
  intros H1 H2 Hp Hn. apply (StronglySorted_unique_strong key_le); try done.
  intros a b Ha Hb Hab Hba. apply (nodup_key l1); [done..|by rewrite Hp|by apply key_le_antisym].
Qed.

Lemma sort_entries_perm {A} (m : list (string * A)) : sort_entries m ≡ₚ m.
Proof. apply merge_sort_Permutation. Qed.
Lemma sort_entries_sorted {A} (m : list (string * A)) : StronglySorted key_le (sort_entries m).
Proof. apply StronglySorted_merge_sort; apply _. Qed.
Lemma sort_entries_nodup {A} (m : list (string * A)) : NoDup m.*1 → NoDup (sort_entries m).*1.
Proof. by rewrite sort_entries_perm. Qed.
Lemma sort_entries_length {A} (m : list (string * A)) : length (sort_entries m) = length m.
Proof. by rewrite sort_entries_perm. Qed.

Lemma sort_entries_map {A B} (f : A → B) (m : list (string * A)) :
  NoDup m.*1 → sort_entries ((λ e, (e.1, f e.2)) <$> m) = (λ e, (e.1, f e.2)) <$> sort_entries m.
Proof.
  intros Hn. apply sorted_unique.
  - apply sort_entries_sorted.
  - pose proof (sort_entries_sorted m) as Hs. induction Hs as [|e l Hs IH Hall]; cbn; constructor; [done|].
    by rewrite Forall_fmap.
  - by rewrite !sort_entries_perm.
  - apply sort_entries_nodup. by rewrite <-list_fmap_compose.
Qed.

Section loop.
Context {N : Type} `{JsonNumber N}.

Definition entry_enc (e : string * Value N) : bytes := string_bytes e.1 ++ enc e.2.

Lemma enc_object m :
  NoDup m.*1 →
  enc (VObject m) = byte_of_Z 7 :: length_bytes (Z.of_nat (length m)) ++ List.concat (entry_enc <$> sort_entries m).
Proof.
  intros Hn. cbn [enc]. rewrite sort_entries_map by done. do 3 f_equal. by rewrite <-list_fmap_compose.
Qed.

Lemma enc_nonempty v : value_ok v → (1 ≤ length (enc v))%nat.
Proof.
  destruct v; cbn; try lia. unfold number_ok, number_bytes. destruct literal_numbers; [cbn; lia|].
  destruct (as_u64 n); [cbn; lia|]. destruct (as_i64 n); [cbn; lia|]. destruct (as_f64 n); [cbn; lia|done].
Qed.

(** What a frame has still to write, the least it reserves for it, the rounds it
    takes. *)
Definition rest (f : Frame) : bytes :=
  match f with
  | FValue v => enc v
  | FArray values next => List.concat (enc <$> drop next values)
  | FObject entries next => List.concat (entry_enc <$> drop next entries)
  end.
Definition minimum (f : Frame (N:=N)) : Z :=
  match f with
  | FValue _ => 1
  | FArray values next => Z.of_nat (length (drop next values))
  | FObject entries next => entries_min (drop next entries)
  end.
Definition sum_of {A} (f : A → nat) (l : list A) : nat := foldr (λ x n, f x + n)%nat 0%nat l.
Fixpoint value_rounds (v : Value N) : nat :=
  match v with
  | VArray l => 2 + sum_of (λ v, 1 + value_rounds v)%nat l
  | VObject m => 2 + sum_of (λ e, 1 + value_rounds e.2)%nat m
  | _ => 1
  end.
Definition rounds (f : Frame) : nat :=
  match f with
  | FValue v => value_rounds v
  | FArray values next => 1 + sum_of (λ v, 1 + value_rounds v)%nat (drop next values)
  | FObject entries next => 1 + sum_of (λ e, 1 + value_rounds e.2)%nat (drop next entries)
  end.
Definition entry_ok (e : string * Value N) : Prop := str_len e.1 ≤ u64_max ∧ value_ok e.2.
Definition frame_ok (f : Frame) : Prop :=
  match f with
  | FValue v => value_ok v
  | FArray values _ => Forall value_ok values
  | FObject entries _ => Forall entry_ok entries
  end.

Definition rests (stack : list Frame) : bytes := List.concat (rest <$> stack).
Definition minimums (stack : list Frame) : Z := foldr (λ f n, minimum f + n) 0 stack.

Lemma sum_of_perm {A} (f : A → nat) l l' : l ≡ₚ l' → sum_of f l = sum_of f l'.
Proof. unfold sum_of. induction 1; cbn in *; lia. Qed.
Lemma entries_min_perm {A} (m m' : list (string * A)) : m ≡ₚ m' → entries_min m = entries_min m'.
Proof. unfold entries_min. induction 1; cbn in *; lia. Qed.

Lemma sum_of_nil {A} (f : A → nat) : sum_of f [] = 0%nat.
Proof. done. Qed.
Lemma sum_of_cons {A} (f : A → nat) x l : sum_of f (x :: l) = (f x + sum_of f l)%nat.
Proof. done. Qed.
Lemma entries_min_cons {A} (e : string * A) m : entries_min (e :: m) = key_len e.1 + 1 + entries_min m.
Proof. done. Qed.

(** The reservation is a lower bound. *)
Lemma minimum_le f : frame_ok f → 0 ≤ minimum f ≤ Z.of_nat (length (rest f)).
Proof.
  destruct f as [v|values next|entries next]; cbn.
  - intros Hv%enc_nonempty. lia.
  - intros Hok. apply (Forall_drop _ next) in Hok. induction Hok as [|v l Hv _ IH]; cbn; [lia|].
    apply enc_nonempty in Hv. rewrite length_app. lia.
  - intros Hok. apply (Forall_drop _ next) in Hok. unfold entries_min.
    induction Hok as [|e l [_ Hv] _ IH]; cbn; [lia|]. apply enc_nonempty in Hv. unfold entry_enc at 1.
    rewrite !length_app. assert (key_len e.1 = Z.of_nat (length (string_bytes e.1))) by done. lia.
Qed.
Lemma minimums_le stack : Forall frame_ok stack → 0 ≤ minimums stack ≤ Z.of_nat (length (rests stack)).
Proof.
  unfold minimums, rests. induction 1 as [|f stack Hf _ IH]; cbn; [lia|]. apply minimum_le in Hf.
  rewrite length_app. lia.
Qed.

(** A reserved key is written. *)
Lemma object_key_ok w k R :
  str_len k ≤ u64_max → writer_ok w → w_pending w = key_len k + R → 0 ≤ R →
  object_key w k = Some (Ok (mkWriter (w_out w ++ string_bytes k) (w_limit w) R)) ∧
  writer_ok (mkWriter (w_out w ++ string_bytes k) (w_limit w) R).
Proof.
  intros Hk (Hp & Hf & Hl) Hpend HR. unfold object_key. rewrite key_minimum_eq by done.
  assert (0 ≤ out_len w) by (unfold out_len; lia). assert (0 ≤ key_len k) by (unfold key_len; lia).
  rewrite (proj2 (Z.leb_le _ _)) by lia. unfold consume_minimum. rewrite (proj2 (Z.leb_le _ _)) by lia.
  replace (w_pending w - key_len k) with R by lia. cbn [mbind option_bind].
  set (w' := mkWriter (w_out w) (w_limit w) R).
  assert (writer_ok w') as Hw' by (split_and!; subst w'; unfold out_len in *; cbn; lia).
  assert (put w' (string_bytes k) = Ok (mkWriter (w_out w ++ string_bytes k) (w_limit w) R)) as E.
  { unfold put. rewrite (proj2 (Z.leb_le _ _)); [done|]. subst w'. unfold out_len, key_len in *. cbn. lia. }
  rewrite write_string_put by done. rewrite E. split; [done|]. by apply put_ok in E as [_ Hok]; apply Hok.
Qed.

Definition step_ok (w : Writer) (f : Frame) (R : Z) : Prop :=
  (frame_step w f = Some (Err QTooLarge) ∧ w_limit w < out_len w + Z.of_nat (length (rest f)) + R) ∨
  (∃ w' pushed, frame_step w f = Some (Ok (w', pushed)) ∧ w_out w' ++ rests pushed = w_out w ++ rest f ∧
     w_limit w' = w_limit w ∧ w_pending w' = minimums pushed + R ∧ writer_ok w' ∧ Forall frame_ok pushed ∧
     (sum_of rounds pushed < rounds f)%nat).

Lemma consume_one w R :
  writer_ok w → w_pending w = 1 + R → 0 ≤ R →
  consume_minimum w 1 = Some (mkWriter (w_out w) (w_limit w) R) ∧ writer_ok (mkWriter (w_out w) (w_limit w) R).
Proof.
  intros (Hp & Hf & Hl) Hpend HR. unfold consume_minimum. rewrite (proj2 (Z.leb_le _ _)) by lia.
  replace (w_pending w - 1) with R by lia. split; [done|]. unfold writer_ok, out_len in *. cbn. lia.
Qed.

(** A value that is written at once. *)
Lemma leaf_step w v R b :
  writer_ok w → w_pending w = 1 + R → 0 ≤ R → enc v = b → (0 < value_rounds v)%nat →
  (∀ w', writer_ok w' → consume_minimum w 1 = Some w' →
         frame_step w (FValue v) = Some (w ← put w' b; Ok (w, []))) →
  step_ok w (FValue v) R.
Proof.
  intros Hw Hpend HR Henc Hr Hstep. destruct (consume_one w R Hw Hpend HR) as [Hc Hw'].
  specialize (Hstep _ Hw' Hc). unfold step_ok. rewrite Hstep. cbn [rest]. rewrite Henc. unfold put, out_len. cbn.
  destruct (Z.leb_spec (Z.of_nat (length (w_out w)) + Z.of_nat (length b) + R) (w_limit w)) as [Hle|Hgt]; [|left; split; [done|lia]].
  right. eexists _, _. split; [done|]. cbn. rewrite app_nil_r. split_and!; [done|done|lia| |constructor|done].
  unfold writer_ok, out_len. cbn. rewrite length_app. destruct Hw as (_ & _ & ?). lia.
Qed.

Lemma leaf_steps w v R :
  writer_ok w → w_pending w = 1 + R → 0 ≤ R → value_ok v →
  match v with VArray _ | VObject _ => False | _ => True end → step_ok w (FValue v) R.
Proof.
  intros Hw Hpend HR Hv Hleaf. destruct v as [|b|n|s|l|m]; try done; (eapply leaf_step; [done..|cbn; lia|]);
    intros w' Hw' Hc; cbn [frame_step enc]; rewrite Hc; cbn [mbind option_bind].
  - by rewrite tag_put.
  - rewrite <-(tag_then w' 1 [byte_of_Z (if b then 1 else 0)] (λ w, tag w (if b then 1 else 0))); [|done|].
    + by destruct (tag w' 1).
    + intros w1 Hw1. by rewrite tag_put.
  - by rewrite write_number_put.
  - rewrite <-(tag_then w' 5 (string_bytes s) (λ w, write_string w s)); [by destruct (tag w' 5)|done|].
    intros w1 Hw1. by rewrite write_string_put.
Qed.

Lemma header_put {A} w t n (k : Writer → QueueResult A) :
  writer_ok w → 0 ≤ n ≤ u64_max →
  (w ← tag w t; w ← write_length w n; k w) = (w ← put w (byte_of_Z t :: length_bytes n); k w).
Proof.
  intros Hw Hn. rewrite <-(tag_then w t (length_bytes n) (λ w, write_length w n)); [by destruct (tag w t)|done|].
  intros w1 Hw1. by apply write_length_put.
Qed.

Lemma array_step w l R :
  writer_ok w → w_pending w = 1 + R → 0 ≤ R → value_ok (VArray l) → step_ok w (FValue (VArray l)) R.
Proof.
  intros Hw Hpend HR [Hlen Hv]. destruct (consume_one w R Hw Hpend HR) as [Hc Hw']. unfold step_ok.
  cbn [frame_step rest enc]. rewrite Hc. cbn [mbind option_bind]. rewrite header_put by (done || lia).
  set (h := byte_of_Z 6 :: length_bytes (Z.of_nat (length l))). set (b := List.concat (enc <$> l)).
  assert (Forall value_ok l) as Hall by by rewrite Forall_fmap in Hv.
  pose proof (minimum_le (FArray l 0) Hall) as Hmin. cbn in Hmin. rewrite drop_0 in Hmin. fold b in Hmin.
  assert (∀ x, byte_of_Z 6 :: length_bytes (Z.of_nat (length l)) ++ x = h ++ x) as Eh by done. rewrite Eh.
  rewrite length_app, Nat2Z.inj_add. destruct Hw as (_ & _ & Hmax).
  destruct (put _ h) as [w1|e] eqn:E.
  2:{ left. apply put_err in E as [-> E]. unfold out_len in *. cbn [w_out w_limit w_pending] in E. split; [done|lia]. }
  apply put_ok in E as [-> Hok1]. cbn [mbind result_bind]. specialize (Hok1 HR Hmax).
  rewrite reserve_eq by (done || lia). rewrite out_len_wrote. unfold out_len. cbn [w_out w_limit w_pending wrote].
  destruct (Z.leb_spec (Z.of_nat (length (w_out w)) + Z.of_nat (length h) + R + Z.of_nat (length l)) (w_limit w)) as [Hle|Hgt].
  2:{ left. split; [done|lia]. }
  right. eexists _, _. split; [done|]. destruct l as [|v l].
  - cbn. rewrite !app_nil_r. split_and!; [done|done|lia| |constructor|lia].
    unfold writer_ok, out_len in *. cbn in *. lia.
  - cbn [reserved wrote w_out w_limit w_pending]. apply Forall_cons in Hall as Hvl. split_and!.
    + rewrite <-app_assoc. do 2 f_equal. cbn. by rewrite app_nil_r.
    + done.
    + cbn. rewrite drop_0. lia.
    + unfold writer_ok, out_len in *. cbn in *. rewrite length_app in *. cbn in *. lia.
    + constructor; [apply Hvl|]. constructor; [exact Hall|constructor].
    + cbn. rewrite drop_0. lia.
Qed.

Lemma object_step w m R :
  writer_ok w → w_pending w = 1 + R → 0 ≤ R → value_ok (VObject m) → step_ok w (FValue (VObject m)) R.
Proof.
  intros Hw Hpend HR (Hlen & Hnd & Hks & Hv). destruct (consume_one w R Hw Hpend HR) as [Hc Hw']. unfold step_ok.
  cbn [rest]. rewrite enc_object by done. cbn [frame_step]. rewrite Hc. cbn [mbind option_bind]. rewrite header_put by (done || lia).
  set (h := byte_of_Z 7 :: length_bytes (Z.of_nat (length m))). set (es := sort_entries m).
  assert (Forall entry_ok es) as Hall.
  { subst es. rewrite sort_entries_perm. apply Forall_forall. intros e He. split.
    - rewrite Forall_forall in Hks. by apply Hks, list_elem_of_fmap_2.
    - rewrite Forall_forall in Hv. apply (Hv (value_ok e.2)). by apply (list_elem_of_fmap_2 (λ e, value_ok e.2)). }
  pose proof (minimum_le (FObject es 0) Hall) as Hmin. cbn in Hmin. rewrite drop_0 in Hmin.
  set (b := List.concat (entry_enc <$> es)) in *.
  assert (entries_min m = entries_min es) as Emin by (apply entries_min_perm; symmetry; exact (sort_entries_perm m)).
  assert (∀ x, byte_of_Z 7 :: length_bytes (Z.of_nat (length m)) ++ x = h ++ x) as Eh by done. rewrite Eh.
  rewrite length_app, Nat2Z.inj_add. destruct Hw as (_ & _ & Hmax).
  destruct (put _ h) as [w1|e] eqn:E.
  2:{ left. apply put_err in E as [-> E]. unfold out_len in *. cbn [w_out w_limit w_pending] in E. split; [done|lia]. }
  apply put_ok in E as [-> Hok1]. specialize (Hok1 HR Hmax). cbn [mbind result_bind].
  rewrite entries_minimum_eq by done. rewrite Emin.
  destruct (Z.leb_spec (entries_min es) u64_max) as [Hle|Hgt]; [|left; split; [done|unfold out_len; cbn in *; lia]].
  cbn [mbind result_bind]. rewrite reserve_eq by (done || lia). rewrite out_len_wrote. unfold out_len. cbn [w_out w_limit w_pending wrote].
  destruct (Z.leb_spec (Z.of_nat (length (w_out w)) + Z.of_nat (length h) + R + entries_min es) (w_limit w)) as [Hfit|Hgt].
  2:{ left. split; [done|lia]. }
  right. set (w2 := reserved _ _).
  assert (writer_ok w2) as Hw2.
  { subst w2. unfold writer_ok, out_len. cbn. rewrite length_app. lia. }
  fold es. destruct es as [|[k v] es'] eqn:Ees.
  - eexists _, _. split; [done|]. subst w2. cbn. rewrite !app_nil_r. split_and!; [done|done|lia|done|constructor|lia].
  - apply Forall_cons in Hall as [[Hk Hvv] Hall']. cbn in Hk, Hvv.
    destruct (object_key_ok w2 k (1 + entries_min es' + R)) as [-> Hw3];
      [done..|subst w2; cbn [w_pending reserved wrote]; rewrite entries_min_cons; cbn [fst]; lia
      |pose proof (entries_min_nonneg es'); lia|].
    cbn [mbind option_bind result_bind]. eexists _, _. split; [done|]. cbn [w_out w_limit w_pending].
    split_and!; [|done| |done| |].
    + subst w2 b. cbn. unfold entry_enc at 2. rewrite drop_0. by rewrite app_nil_r, <-!app_assoc.
    + cbn [minimums foldr minimum drop]. rewrite drop_0. lia.
    + constructor; [done|]. constructor; [by constructor|constructor].
    + cbn [sum_of foldr rounds value_rounds drop].
      assert (sum_of (λ e, 1 + value_rounds e.2)%nat m = sum_of (λ e, 1 + value_rounds e.2)%nat ((k, v) :: es')) as ->.
      { apply sum_of_perm. rewrite <-Ees. symmetry. exact (sort_entries_perm m). }
      cbn. rewrite drop_0. lia.
Qed.

Lemma array_next w l i R :
  writer_ok w → w_pending w = minimum (FArray l i) + R → 0 ≤ R → Forall value_ok l → step_ok w (FArray l i) R.
Proof.
  intros Hw Hpend HR Hall. right. cbn [frame_step]. eexists _, _. split; [done|].
  destruct (l !! i) as [v|] eqn:E.
  - cbn [rest rounds minimum] in *. rewrite (drop_S _ _ _ E) in *. split_and!; [|done| |done| |].
    + cbn. by rewrite app_nil_r.
    + cbn [minimums foldr minimum length] in *. lia.
    + constructor; [|constructor; [done|constructor]]. cbn. by eapply Forall_lookup_1.
    + rewrite !sum_of_cons, sum_of_nil. cbn [rounds]. lia.
  - cbn [rest rounds minimum] in *. rewrite (drop_ge l i) in * by by apply lookup_ge_None. cbn in *.
    split_and!; [done|done|lia|done|constructor|lia].
Qed.

Lemma object_next w m i R :
  writer_ok w → w_pending w = minimum (FObject m i) + R → 0 ≤ R → Forall entry_ok m → step_ok w (FObject m i) R.
Proof.
  intros Hw Hpend HR Hall. right. cbn [frame_step]. destruct (m !! i) as [[k v]|] eqn:E.
  - cbn [rest rounds minimum] in *. rewrite (drop_S _ _ _ E) in *. pose proof (Forall_lookup_1 _ _ _ _ Hall E) as [Hk Hv].
    pose proof (entries_min_nonneg (drop (S i) m)).
    destruct (object_key_ok w k (1 + entries_min (drop (S i) m) + R)) as [-> Hw3];
      [done|done|rewrite Hpend, entries_min_cons; cbn [fst]; lia|lia|].
    cbn [mbind option_bind result_bind]. eexists _, _. split; [done|]. cbn [w_out w_limit w_pending].
    split_and!; [|done| |done| |].
    + cbn. unfold entry_enc at 2. by rewrite app_nil_r, <-!app_assoc.
    + cbn [minimums foldr minimum]. lia.
    + constructor; [done|]. constructor; [done|constructor].
    + rewrite !sum_of_cons, sum_of_nil. cbn [rounds snd]. lia.
  - cbn [rest rounds minimum] in *. rewrite (drop_ge m i) in * by by apply lookup_ge_None.
    eexists _, _. split; [done|]. cbn in *. split_and!; [done|done|lia|done|constructor|lia].
Qed.

Lemma frame_step_ok w f R :
  frame_ok f → writer_ok w → w_pending w = minimum f + R → 0 ≤ R → step_ok w f R.
Proof.
  intros Hf Hw Hpend HR. destruct f as [v|l i|m i].
  - destruct v; [by apply leaf_steps..|by apply array_step|by apply object_step].
  - by apply array_next.
  - by apply object_next.
Qed.

Lemma rests_app a b : rests (a ++ b) = rests a ++ rests b.
Proof. unfold rests. by rewrite fmap_app, List.concat_app. Qed.
Lemma minimums_app a b : minimums (a ++ b) = minimums a + minimums b.
Proof. unfold minimums. induction a as [|f a IH]; cbn in *; lia. Qed.
Lemma sum_of_app {A} (f : A → nat) a b : sum_of f (a ++ b) = (sum_of f a + sum_of f b)%nat.
Proof. unfold sum_of. induction a as [|x a IH]; cbn in *; lia. Qed.

(** The loop writes what its stack stands for, or finds that it does not fit. *)
Lemma encode_loop_ok fuel w stack :
  Forall frame_ok stack → writer_ok w → w_pending w = minimums stack → (sum_of rounds stack ≤ fuel)%nat →
  encode_loop fuel w stack =
  Some (if out_len w + Z.of_nat (length (rests stack)) <=? w_limit w then Ok (w_out w ++ rests stack) else Err QTooLarge).
Proof.
  revert w stack. induction fuel as [|fuel IH]; intros w stack Hok Hw Hpend Hfuel.
  all: destruct stack as [|f stack]; cbn [encode_loop].
  1,3: destruct Hw as (_ & Hf & _); unfold rests; cbn; rewrite app_nil_r, (proj2 (Z.leb_le _ _)); [done|];
    cbn in Hpend; unfold out_len in *; lia.
  { destruct f as [[]| |]; cbn in Hfuel; lia. }
  apply Forall_cons in Hok as [Hf Hok]. pose proof (minimums_le stack Hok) as [Hm0 Hm].
  cbn [minimums foldr] in Hpend. fold (minimums stack) in Hpend. cbn [sum_of foldr] in Hfuel.
  fold (sum_of rounds stack) in Hfuel.
  change (rests (f :: stack)) with (rest f ++ rests stack). rewrite length_app, Nat2Z.inj_add.
  destruct (frame_step_ok w f (minimums stack) Hf Hw Hpend Hm0)
    as [[-> Hbig]|(w' & pushed & -> & Hout & Hlim & Hpend' & Hw' & Hok' & Hr)]; cbn [mbind option_bind].
  - by rewrite (proj2 (Z.leb_gt _ _)) by lia.
  - rewrite IH; [|by apply Forall_app_2|done|by rewrite minimums_app|rewrite sum_of_app; lia].
    rewrite rests_app, Hlim, app_assoc, Hout, <-app_assoc.
    assert (out_len w' + Z.of_nat (length (rests pushed ++ rests stack)) =
            out_len w + (Z.of_nat (length (rest f)) + Z.of_nat (length (rests stack)))) as ->; [|done].
    apply (f_equal length) in Hout. unfold out_len. rewrite !length_app in *. lia.
Qed.
End loop.

(** ** Decoding is unique *)

Lemma byte_of_Z_inj a b : 0 ≤ a < 256 → 0 ≤ b < 256 → byte_of_Z a = byte_of_Z b → a = b.
Proof.
  intros Ha Hb E. apply (f_equal Z_of_byte) in E. rewrite !Z_of_byte_of_Z, !Z.mod_small in E by lia. done.
Qed.

Lemma varint_prefix fuel n m x y :
  0 ≤ n < 2 ^ (7 * Z.of_nat fuel) → 0 ≤ m < 2 ^ (7 * Z.of_nat fuel) → (0 < fuel)%nat →
  varint fuel n ++ x = varint fuel m ++ y → n = m ∧ x = y.
Proof.
  revert n m. induction fuel as [|fuel IH]; intros n m Hn Hm Hf; [lia|]. cbn [varint].
  pose proof (Z.mod_pos_bound n 128 ltac:(lia)). pose proof (Z.mod_pos_bound m 128 ltac:(lia)).
  assert (∀ k, 128 ≤ k → 0 ≤ k < 2 ^ (7 * Z.of_nat (S fuel)) → 0 ≤ k / 128 < 2 ^ (7 * Z.of_nat fuel)) as Hdiv.
  { intros k H128 [_ Hk]. split; [apply Z.div_pos; lia|]. apply Z.div_lt_upper_bound; [lia|].
    replace (7 * Z.of_nat (S fuel)) with (7 + 7 * Z.of_nat fuel) in Hk by lia. rewrite Z.pow_add_r in Hk by lia.
    change (2 ^ 7) with 128 in Hk. lia. }
  destruct (Z.ltb_spec n 128), (Z.ltb_spec m 128); cbn [app]; intros [= Eb Et].
  - split; [|done]. apply byte_of_Z_inj in Eb; lia.
  - apply byte_of_Z_inj in Eb; lia.
  - apply byte_of_Z_inj in Eb; lia.
  - apply byte_of_Z_inj in Eb; [|lia..]. apply IH in Et as [Ed ->]; [|by apply Hdiv..|].
    + split; [|done]. rewrite (Z.div_mod n 128), (Z.div_mod m 128) by lia. lia.
    + destruct fuel; [|lia]. cbn in Hn. change (2 ^ 7) with 128 in Hn. lia.
Qed.

Lemma length_prefix n m x y :
  0 ≤ n ≤ u64_max → 0 ≤ m ≤ u64_max → length_bytes n ++ x = length_bytes m ++ y → n = m ∧ x = y.
Proof. intros Hn Hm. apply varint_prefix; [change (7 * Z.of_nat 10) with 70; int_lia..|lia]. Qed.

Lemma string_prefix s t x y :
  str_len s ≤ u64_max → str_len t ≤ u64_max → string_bytes s ++ x = string_bytes t ++ y → s = t ∧ x = y.
Proof.
  intros Hs Ht. unfold string_bytes. rewrite <-!app_assoc. intros E.
  apply length_prefix in E as [El E]; [|unfold str_len in *; lia..].
  apply app_inj_1 in E as [E ->]; [|unfold str_len in El; lia]. split; [by apply as_bytes_inj|done].
Qed.

(** ** Numbers *)

(** What [serde_json] documents of its numbers: equality is that of the literals in
    the build that keeps them; otherwise a number has a [u64], [i64] or [f64] reading,
    numbers with different readings differ, and floats compare as floats. *)
Class JsonNumberLaws (N : Type) `{!JsonNumber N} := {
  literal_eq n m : literal_numbers = true → number_eqb n m = String.eqb (number_text n) (number_text m);
  numeric_eq n m : literal_numbers = false →
    number_eqb n m =
    match as_u64 n, as_u64 m with
    | Some a, Some b => a =? b
    | None, None =>
        match as_i64 n, as_i64 m with
        | Some a, Some b => a =? b
        | None, None => match as_f64 n, as_f64 m with Some a, Some b => f64_eqb a b | _, _ => false end
        | _, _ => false
        end
    | _, _ => false
    end;
  as_u64_range n z : as_u64 n = Some z → is_u64 z;
  as_i64_range n z : as_i64 n = Some z → is_i64 z;
  as_f64_range n z : as_f64 n = Some z → is_u64 z;
}.

(** Finite floats are equal as floats exactly when their normalised bits are. *)
Lemma f64_eqb_bits a b :
  is_u64 a → is_u64 b → f64_is_finite a = true → f64_is_finite b = true →
  f64_eqb a b = true ↔ (if f64_value a =? 0 then 0 else a) = (if f64_value b =? 0 then 0 else b).
Proof.
  intros Ha Hb Hfa Hfb.
  assert (f64_is_nan a = false ∧ f64_is_nan b = false) as [Na Nb].
  { unfold f64_is_nan, f64_is_finite in *. apply negb_true_iff in Hfa, Hfb. by rewrite Hfa, Hfb. }
  unfold f64_eqb. rewrite Na, Nb. cbn [negb andb]. rewrite Z.eqb_eq.
  pose proof (f64_magnitude_cmp a b) as Hc. pose proof (f64_magnitude_nonneg a). pose proof (f64_magnitude_nonneg b).
  pose proof (f64_magnitude_zero a) as Za. pose proof (f64_magnitude_zero b) as Zb.
  assert (f64_magnitude a = f64_magnitude b ↔ a mod 2 ^ 63 = b mod 2 ^ 63) as Hm by by rewrite <-!Z.compare_eq_iff, Hc.
  assert (∀ z, is_u64 z → z = z mod 2 ^ 63 + (if f64_negative z then 2 ^ 63 else 0)) as Hsplit.
  { intros z Hz. unfold f64_negative, is_u64 in *. destruct (Z.leb_spec (2 ^ 63) z); div_lia. }
  pose proof (Hsplit a Ha) as Sa. pose proof (Hsplit b Hb) as Sb. unfold f64_value in *.
  pose proof (Z.mod_pos_bound a (2 ^ 63) ltac:(lia)). pose proof (Z.mod_pos_bound b (2 ^ 63) ltac:(lia)).
  destruct (f64_negative a), (f64_negative b);
    repeat match goal with |- context [?x =? 0] => destruct (Z.eqb_spec x 0) end; lia.
Qed.

Lemma tagged_prefix t t' (a b x y : bytes) :
  0 ≤ t < 256 → 0 ≤ t' < 256 → length a = length b →
  (byte_of_Z t :: a) ++ x = (byte_of_Z t' :: b) ++ y → t = t' ∧ a = b ∧ x = y.
Proof.
  intros Ht Ht' Hl. cbn [app]. intros E. injection E as Et E. apply byte_of_Z_inj in Et; [|done..].
  apply app_inj_1 in E; [|done]. tauto.
Qed.

Section injective.
Context {N : Type} `{!JsonNumber N} `{!JsonNumberLaws N}.
Implicit Types (v w : Value N) (n : N).

(** The tag and word of a number. *)
Definition reading n : option (Z * Z) :=
  match as_u64 n, as_i64 n, as_f64 n with
  | Some z, _, _ => Some (2, z)
  | None, Some z, _ => Some (3, i64_as_u64 z)
  | None, None, Some bits => Some (4, if f64_value bits =? 0 then 0 else bits)
  | None, None, None => None
  end.

Lemma reading_range n t z : reading n = Some (t, z) → 2 ≤ t ≤ 4 ∧ is_u64 z.
Proof.
  unfold reading. destruct (as_u64 n) eqn:U; [intros [= <- <-]; apply as_u64_range in U; split; [lia|done]|].
  destruct (as_i64 n) eqn:I; [intros [= <- <-]; split; [lia|unfold i64_as_u64; div_lia]|].
  destruct (as_f64 n) eqn:F; [|done]. intros [= <- <-]. apply as_f64_range in F. split; [lia|].
  destruct (_ =? 0); [unfold is_u64; int_lia|done].
Qed.

Lemma number_eqb_reading n m :
  literal_numbers = false → number_ok n = true → number_ok m = true → number_eqb n m = true ↔ reading n = reading m.
Proof.
  intros Hl. unfold number_ok, reading. rewrite Hl, numeric_eq by done.
  assert (∀ a b, is_i64 a → is_i64 b → i64_as_u64 a = i64_as_u64 b ↔ a = b) as Hcast.
  { intros a b Ha Hb. unfold i64_as_u64. split; [|by intros ->]. div_lia. }
  destruct (as_u64 n) eqn:Un, (as_u64 m) eqn:Um.
  { intros _ _. rewrite Z.eqb_eq. split; [by intros ->|by intros [= ->]]. }
  { destruct (as_i64 m), (as_f64 m); naive_solver. }
  { destruct (as_i64 n), (as_f64 n); naive_solver. }
  destruct (as_i64 n) eqn:In, (as_i64 m) eqn:Im.
  { intros _ _. rewrite Z.eqb_eq. apply as_i64_range in In, Im. rewrite <-(Hcast z z0) by done.
    split; [by intros ->|by intros [= ->]]. }
  { destruct (as_f64 m); naive_solver. }
  { destruct (as_f64 n); naive_solver. }
  destruct (as_f64 n) eqn:Fn, (as_f64 m) eqn:Fm; try done.
  apply as_f64_range in Fn, Fm. intros Hn Hm. rewrite f64_eqb_bits by done.
  split; [by intros ->|by intros [= ->]].
Qed.

Lemma number_bytes_reading n :
  literal_numbers = false → number_ok n = true →
  ∃ t z, reading n = Some (t, z) ∧ number_bytes n = byte_of_Z t :: to_be_bytes 8 z.
Proof.
  intros Hl. unfold number_ok, number_bytes, reading. rewrite Hl.
  destruct (as_u64 n); [by eexists _, _|]. destruct (as_i64 n); [by eexists _, _|]. destruct (as_f64 n); [by eexists _, _|done].
Qed.

Lemma number_prefix n m x y :
  number_ok n = true → number_ok m = true →
  number_bytes n ++ x = number_bytes m ++ y → number_eqb n m = true ∧ x = y.
Proof.
  intros Hn Hm. destruct literal_numbers eqn:El.
  - unfold number_ok, number_bytes in *. rewrite El in *. rewrite literal_eq, !Z.leb_le in * by done. intros [= E].
    apply string_prefix in E as [-> ->]; [|done..]. split; [by apply String.eqb_eq|done].
  - rewrite number_eqb_reading by done. destruct (number_bytes_reading n) as (t & z & Er & ->); [done..|].
    destruct (number_bytes_reading m) as (t' & z' & Er' & ->); [done..|]. rewrite Er, Er'.
    apply reading_range in Er as [Ht Hz], Er' as [Ht' Hz'].
    intros E. apply tagged_prefix in E as (-> & E & ->); [|lia..|by rewrite !length_to_be_bytes].
    apply to_be_bytes_inj in E; [by subst|unfold is_u64 in *; change (256 ^ Z.of_nat 8) with (2 ^ 64); int_lia..].
Qed.

Lemma number_bytes_eq n m :
  number_ok n = true → number_ok m = true → number_eqb n m = true → number_bytes n = number_bytes m.
Proof.
  intros Hn Hm. destruct literal_numbers eqn:El.
  - rewrite literal_eq by done. intros E%String.eqb_eq. unfold number_bytes. by rewrite El, E.
  - rewrite number_eqb_reading by done. destruct (number_bytes_reading n) as (t & z & Er & ->); [done..|].
    destruct (number_bytes_reading m) as (t' & z' & Er' & ->); [done..|]. rewrite Er, Er'. by intros [= -> ->].
Qed.

(** *** Trees *)

Definition tag_of v : Z :=
  match v with
  | VNull => 0
  | VBool _ => 1
  | VNumber n => if literal_numbers then 8 else match reading n with Some (t, _) => t | None => 2 end
  | VString _ => 5
  | VArray _ => 6
  | VObject _ => 7
  end.

Lemma enc_tag v : value_ok v → ∃ b, enc v = byte_of_Z (tag_of v) :: b.
Proof.
  destruct v as [|b|n|s|l|m]; cbn; try by eexists. intros Hn. destruct literal_numbers eqn:El.
  - unfold number_bytes. rewrite El. by eexists.
  - destruct (number_bytes_reading n) as (t & z & -> & ->); [done..|]. by eexists.
Qed.

Lemma tag_of_range v : 0 ≤ tag_of v < 256.
Proof.
  destruct v as [|b|n|s|l|m]; cbn; try lia. destruct literal_numbers; [lia|].
  destruct (reading n) as [[t z]|] eqn:E; [apply reading_range in E as [? _]; lia|lia].
Qed.

Lemma enc_same_tag v w x y : value_ok v → value_ok w → enc v ++ x = enc w ++ y → tag_of v = tag_of w.
Proof.
  intros Hv Hw. destruct (enc_tag v Hv) as [b ->], (enc_tag w Hw) as [b' ->]. cbn. intros [= E _].
  apply byte_of_Z_inj in E; [done|apply tag_of_range..].
Qed.

Lemma json_eqb_array a b :
  json_eqb (VArray a) (VArray b) = true ↔ Forall2 (λ x y, json_eqb x y = true) a b.
Proof.
  cbn. revert b. induction a as [|x a IH]; intros [|y b]; cbn; try done.
  - by split; [|inversion 1].
  - by split; [|inversion 1].
  - rewrite andb_true_iff, IH. split; [intros [? ?]; by constructor|by inversion 1].
Qed.

Lemma json_eqb_object a b :
  json_eqb (VObject a) (VObject b) = true ↔
  length a = length b ∧ Forall (λ e, ∃ y, assoc e.1 b = Some y ∧ json_eqb e.2 y = true) a.
Proof.
  cbn. rewrite andb_true_iff, Nat.eqb_eq. f_equiv. induction a as [|[k x] a IH]; [done|].
  rewrite Forall_cons, andb_true_iff, IH. f_equiv. cbn. destruct (assoc k b) as [y|]; naive_solver.
Qed.

Lemma assoc_elem {A} k (m : list (string * A)) y : assoc k m = Some y → (k, y) ∈ m.
Proof.
  unfold assoc. induction m as [|[k' x] m IH]; cbn; [done|]. destruct (String.eqb_spec k' k) as [->|Hne]; cbn.
  - intros [= <-]. by left.
  - intros H. right. by apply IH.
Qed.
Lemma elem_assoc {A} k (m : list (string * A)) y : NoDup m.*1 → (k, y) ∈ m → assoc k m = Some y.
Proof.
  unfold assoc. induction m as [|[k' x] m IH]; cbn; [by intros _ ?%elem_of_nil|]. intros [Hn Hd]%NoDup_cons.
  intros [[= <- <-]|Hin]%elem_of_cons; [by rewrite String.eqb_refl|].
  destruct (String.eqb_spec k' k) as [->|Hne]; [|by apply IH]. exfalso. apply Hn. by apply (list_elem_of_fmap_2 fst) in Hin.
Qed.

(** Sequences of encodings, each of which is prefix-free. *)
Lemma concat_prefix {A} (f : A → bytes) (R : A → A → Prop) l l' x y :
  length l = length l' →
  (∀ a b x y, a ∈ l → b ∈ l' → f a ++ x = f b ++ y → R a b ∧ x = y) →
  List.concat (f <$> l) ++ x = List.concat (f <$> l') ++ y → Forall2 R l l' ∧ x = y.
Proof.
  revert l'. induction l as [|a l IH]; intros [|b l'] Hl Hf; cbn; try done.
  intros E. rewrite <-!app_assoc in E. apply Hf in E as [HR E]; [|by left..].
  apply IH in E as [Hall ->]; [split; [by constructor|done]|by injection Hl|].
  intros a' b' x' y' Ha' Hb'. apply Hf; by right.
Qed.

Definition prefix_free v : Prop :=
  ∀ w x y, value_ok v → value_ok w → enc v ++ x = enc w ++ y → json_eqb v w = true ∧ x = y.

Lemma array_elems l v : value_ok (VArray l) → v ∈ l → value_ok v.
Proof. intros [_ H] Hv. rewrite Forall_forall in H. by apply (H (value_ok v)), list_elem_of_fmap_2. Qed.
Lemma object_elems m e : value_ok (VObject m) → e ∈ m → str_len e.1 ≤ u64_max ∧ value_ok e.2.
Proof.
  intros (_ & _ & Hk & Hv) He. rewrite Forall_forall in Hk. rewrite Forall_forall in Hv. split.
  - by apply Hk, list_elem_of_fmap_2.
  - by apply (Hv (value_ok e.2)), (list_elem_of_fmap_2 (λ e, value_ok e.2)).
Qed.

Lemma array_prefix l : Forall prefix_free l → prefix_free (VArray l).
Proof.
  intros IH w x y Hv Hw E. pose proof (enc_same_tag _ _ _ _ Hv Hw E) as Et.
  destruct w as [| |m| |l'|]; try done.
  { cbn in Et. destruct literal_numbers; [done|]. destruct (reading m) as [[t z]|] eqn:Er; [|done].
    apply reading_range in Er as [? _]. lia. }
  cbn [enc] in E. injection E as E. rewrite <-!app_assoc in E.
  apply length_prefix in E as [El E]; [|destruct Hv, Hw; lia..]. apply Nat2Z.inj in El.
  apply (concat_prefix enc (λ x y, json_eqb x y = true)) in E as [Hall ->]; [|done|].
  - split; [by apply json_eqb_array|done].
  - intros a b x' y' Ha Hb. rewrite Forall_forall in IH. apply IH; [done|exact (array_elems _ _ Hv Ha)|exact (array_elems _ _ Hw Hb)].
Qed.

Lemma object_prefix m : Forall (λ e, prefix_free e.2) m → prefix_free (VObject m).
Proof.
  intros IH w x y Hv Hw E. pose proof (enc_same_tag _ _ _ _ Hv Hw E) as Et.
  destruct w as [| |n| | |m']; try done.
  { cbn in Et. destruct literal_numbers; [done|]. destruct (reading n) as [[t z]|] eqn:Er; [|done].
    apply reading_range in Er as [? _]. lia. }
  pose proof Hv as (Hl & Hd & _). pose proof Hw as (Hl' & Hd' & _). rewrite !enc_object in E by done.
  injection E as E. rewrite <-!app_assoc in E. apply length_prefix in E as [El E]; [|lia..]. apply Nat2Z.inj in El.
  apply (concat_prefix entry_enc (λ e e', e.1 = e'.1 ∧ json_eqb e.2 e'.2 = true)) in E as [Hall ->].
  - split; [|done]. apply json_eqb_object. split; [done|]. apply Forall_forall. intros e He.
    rewrite <-(sort_entries_perm m) in He. apply list_elem_of_lookup in He as [i Hi].
    destruct (Forall2_lookup_l _ _ _ _ _ Hall Hi) as ([k' y'] & Hi' & Ek & Ev). exists y'. split; [|done].
    cbn in Ek. rewrite Ek. apply elem_assoc; [done|]. rewrite <-(sort_entries_perm m'). by eapply list_elem_of_lookup_2.
  - by rewrite !sort_entries_length.
  - intros a b x' y' Ha Hb. rewrite sort_entries_perm in Ha, Hb. unfold entry_enc. rewrite <-!app_assoc. intros E'.
    destruct (object_elems _ _ Hv Ha), (object_elems _ _ Hw Hb).
    apply string_prefix in E' as [Ek E']; [|done..]. rewrite Forall_forall in IH.
    apply (IH a Ha) in E' as [Hev ->]; [|done..]. done.
Qed.

Lemma enc_prefix_free v : prefix_free v.
Proof.
  apply Value_nested_ind; [| | | |apply array_prefix|apply object_prefix]; clear v.
  all: intros; intros w x y Hv Hw E; pose proof (enc_same_tag _ _ _ _ Hv Hw E) as Et; destruct w as [|b'|n'|s'|l'|m'].
  all: try (cbn in Et; destruct literal_numbers; [done|]; destruct (reading _) as [[t z]|] eqn:Er; [|done];
    apply reading_range in Er as [? _]; lia).
  all: try (cbn in Et; done).
  - cbn in E. by injection E as ->.
  - cbn in E. injection E as Eb ->. apply byte_of_Z_inj in Eb; [|destruct b; lia|destruct b'; lia].
    split; [|done]. by destruct b, b'.
  - by apply number_prefix.
  - cbn [enc app] in E. injection E as E. apply string_prefix in E as [-> ->]; [|done..]. split; [apply String.eqb_refl|done].
Qed.

Lemma submset_perm {A} (l l' : list A) : NoDup l → length l = length l' → (∀ x, x ∈ l → x ∈ l') → l ≡ₚ l'.
Proof. intros Hn Hl Hsub. apply submseteq_length_Permutation; [by apply NoDup_submseteq|lia]. Qed.

Lemma enc_respects v w : value_ok v → value_ok w → json_eqb v w = true → enc v = enc w.
Proof.
  revert w. induction v as [|b|n|s|l IH|m IH] using Value_nested_ind; intros w Hv Hw E; destruct w as [|b'|n'|s'|l'|m']; try done.
  - by apply eqb_prop in E as ->.
  - by apply number_bytes_eq.
  - by apply String.eqb_eq in E as ->.
  - apply json_eqb_array in E. cbn [enc]. rewrite (Forall2_length _ _ _ E). do 3 f_equal.
    assert (∀ x, x ∈ l → value_ok x) as Hl by (intros x Hx; exact (array_elems _ _ Hv Hx)).
    assert (∀ x, x ∈ l' → value_ok x) as Hl' by (intros x Hx; exact (array_elems _ _ Hw Hx)). clear Hv Hw.
    induction E as [|x y l l' Hxy _ IHl]; cbn; [done|]. apply Forall_cons in IH as [IHx IH]. f_equal.
    + apply IHx; [apply Hl; by left|apply Hl'; by left|done].
    + apply IHl; [done|intros; apply Hl; by right|intros; apply Hl'; by right].
  - apply json_eqb_object in E as [El Hall]. cbn [enc]. rewrite El. do 4 f_equal.
    pose proof Hv as (_ & Hd & _). pose proof Hw as (_ & Hd' & _).
    apply sorted_unique; [apply sort_entries_sorted..| |].
    2:{ apply sort_entries_nodup. by rewrite <-list_fmap_compose. }
    rewrite !sort_entries_perm. apply submset_perm.
    + apply (NoDup_fmap_1 fst). by rewrite <-list_fmap_compose.
    + by rewrite !length_fmap.
    + intros x (e & -> & He)%list_elem_of_fmap. rewrite Forall_forall in Hall, IH.
      destruct (Hall e He) as (y & Ha%assoc_elem & Hxy).
      rewrite (IH e He y); [|by apply (object_elems m)|by apply (object_elems m' (e.1, y))|done].
      by apply (list_elem_of_fmap_2 (λ e, (e.1, enc e.2))) in Ha.
Qed.
End injective.

(** ** Attribute names *)

(** [str::replace] of one character by a text. *)
Definition replace_char (c : ascii) (text : list ascii) (s : list ascii) : list ascii :=
  List.flat_map (λ x, if Ascii.eqb x c then text else [x]) s.
Definition escape_key (key : list ascii) : list ascii :=
  replace_char "/" ["~"; "1"]%char (replace_char "~" ["~"; "0"]%char key).
Definition json_attribute_name (namespace key : string) : string :=
  String.append namespace
    (String.append "/" (String.string_of_list_ascii (escape_key (String.list_ascii_of_string key)))).

(** One character of a key, escaped. *)
Definition escape_one (x : ascii) : list ascii :=
  if Ascii.eqb x "~" then ["~"; "0"]%char else if Ascii.eqb x "/" then ["~"; "1"]%char else [x].

Lemma escape_key_map key : escape_key key = List.flat_map escape_one key.
Proof.
  unfold escape_key, replace_char, escape_one. induction key as [|x key IH]; [done|]. cbn.
  rewrite List.flat_map_app, IH. destruct (Ascii.eqb x "~") eqn:E; [done|]. cbn. by destruct (Ascii.eqb x "/").
Qed.

Lemma escape_one_prefix x y a b : escape_one x ++ a = escape_one y ++ b → x = y ∧ a = b.
Proof.
  unfold escape_one. destruct (Ascii.eqb_spec x "~") as [->|Hx], (Ascii.eqb_spec y "~") as [->|Hy];
    repeat match goal with |- context [Ascii.eqb ?z "/"] => destruct (Ascii.eqb_spec z "/") as [->|?] end;
    cbn; intros E; simplify_eq; done.
Qed.

Lemma escape_key_inj k k' : escape_key k = escape_key k' → k = k'.
Proof.
  rewrite !escape_key_map. revert k'. induction k as [|x k IH]; intros [|y k']; cbn; [done| | |].
  - unfold escape_one. by destruct (Ascii.eqb y "~"), (Ascii.eqb y "/").
  - unfold escape_one. by destruct (Ascii.eqb x "~"), (Ascii.eqb x "/").
  - intros [-> E]%escape_one_prefix. f_equal. by apply IH.
Qed.

Lemma escape_key_no_slash k : "/"%char ∉ escape_key k.
Proof.
  rewrite escape_key_map. induction k as [|x k IH]; cbn; [by intros ?%elem_of_nil|].
  rewrite elem_of_app. intros [H|H]; [|done]. revert H. unfold escape_one.
  destruct (Ascii.eqb_spec x "~"); [set_solver|]. destruct (Ascii.eqb_spec x "/"); [set_solver|]. set_solver.
Qed.

(** Splitting at the last separator is unique. *)
Lemma last_separator {A} (c : A) (a b x y : list A) :
  c ∉ x → c ∉ y → a ++ c :: x = b ++ c :: y → a = b ∧ x = y.
Proof.
  intros Hx Hy. revert b. induction a as [|z a IH]; intros [|z' b]; cbn.
  - by intros [= ->].
  - intros [= <- ->]. exfalso. apply Hx. rewrite elem_of_app, elem_of_cons. auto.
  - intros [= -> <-]. exfalso. apply Hy. rewrite elem_of_app, elem_of_cons. auto.
  - intros [= -> E]. apply IH in E as [-> ->]. done.
Qed.

Lemma list_ascii_append s t :
  String.list_ascii_of_string (String.append s t) = String.list_ascii_of_string s ++ String.list_ascii_of_string t.
Proof.
  induction s as [|c s IH]; [done|]. change (String.append (String c s) t) with (String c (String.append s t)). cbn.
  by rewrite IH.
Qed.

(** The name determines namespace and key, although a namespace may hold slashes. *)
Theorem json_attribute_name_inj ns key ns' key' :
  json_attribute_name ns key = json_attribute_name ns' key' → ns = ns' ∧ key = key'.
Proof.
  unfold json_attribute_name. intros E. apply (f_equal String.list_ascii_of_string) in E.
  rewrite !list_ascii_append, !String.list_ascii_of_string_of_list_ascii in E. cbn in E.
  apply last_separator in E as [E1 E2]; [|apply escape_key_no_slash..]. apply escape_key_inj in E2. split.
  - rewrite <-(String.string_of_list_ascii_of_string ns), E1. apply String.string_of_list_ascii_of_string.
  - rewrite <-(String.string_of_list_ascii_of_string key), E2. apply String.string_of_list_ascii_of_string.
Qed.

(** ** Properties *)

Section properties.
Context {N : Type} `{!JsonNumber N}.

Definition json_header : bytes := JSON_EQUALITY_MAGIC ++ [byte_of_Z (if literal_numbers then 1 else 0)].

Lemma start_writer max_bytes :
  0 ≤ max_bytes ≤ u64_max →
  (w ← append (mkWriter [] max_bytes 0) JSON_EQUALITY_MAGIC;
   w ← tag w (match je_numbers current_json_equality_encoding with LiteralRepresentations => 1 | NumericVariants => 0 end);
   reserve_minimum w 1) =
  if 6 <=? max_bytes then Ok (mkWriter json_header max_bytes 1) else Err QTooLarge.
Proof.
  intros Hmax. assert (writer_ok (mkWriter [] max_bytes 0)) as Hw by (unfold writer_ok, out_len; cbn; lia).
  rewrite append_put by done.
  assert (∀ t, (w ← put (mkWriter [] max_bytes 0) JSON_EQUALITY_MAGIC; w ← tag w t; reserve_minimum w 1) =
    if 6 <=? max_bytes then Ok (mkWriter (JSON_EQUALITY_MAGIC ++ [byte_of_Z t]) max_bytes 1) else Err QTooLarge) as Hgen.
  { intros t. pose proof (put_put (mkWriter [] max_bytes 0) JSON_EQUALITY_MAGIC [byte_of_Z t] Hw) as Hput.
    destruct (put (mkWriter [] max_bytes 0) JSON_EQUALITY_MAGIC) as [w1|e] eqn:E1; cbn [mbind result_bind] in *.
    - unfold tag. rewrite Hput. destruct (put _ (JSON_EQUALITY_MAGIC ++ [byte_of_Z t])) as [w2|e] eqn:E2; cbn [mbind result_bind].
      + apply put_ok in E2 as [-> Hok]. rewrite reserve_eq by (done || by apply Hok; cbn; lia).
        rewrite out_len_wrote. unfold out_len. cbn [w_out w_limit w_pending wrote length JSON_EQUALITY_MAGIC].
        change (Z.of_nat 0 + Z.of_nat (length (JSON_EQUALITY_MAGIC ++ [byte_of_Z t])) + 0 + 1) with 6. done.
      + apply put_err in E2 as [-> E2]. change (out_len _ + Z.of_nat (length (JSON_EQUALITY_MAGIC ++ [byte_of_Z t])) + _) with 5 in E2.
        cbn in E2. by rewrite (proj2 (Z.leb_gt _ _)) by lia.
    - apply put_err in E1 as [-> E1]. change (out_len _ + Z.of_nat (length JSON_EQUALITY_MAGIC) + _) with 4 in E1.
      cbn in E1. by rewrite (proj2 (Z.leb_gt _ _)) by lia. }
  rewrite Hgen. unfold json_header, current_json_equality_encoding. cbn. by destruct literal_numbers.
Qed.

(** The iterative encoder, with its reservations for everything not yet visited,
    is the recursive encoding under an exact limit: with the current encoding pinned
    it terminates without a failed reservation and returns the header and the
    reference bytes when these fit [max_bytes], [TooLarge] exactly when they do not;
    any other pin is rejected. *)
Theorem json_encode_exact (v : Value N) encoding max_bytes fuel :
  value_ok v → 0 ≤ max_bytes ≤ u64_max → (value_rounds v ≤ fuel)%nat →
  encode_json_equality_for fuel v encoding max_bytes =
  Some (if bool_decide (encoding = current_json_equality_encoding) then
          if Z.of_nat (length (json_header ++ enc v)) <=? max_bytes then Ok (json_header ++ enc v) else Err QTooLarge
        else Err (invalid "JSON equality encoding drift; explicit migration required")).
Proof.
  intros Hv Hmax Hfuel. unfold encode_json_equality_for. case_bool_decide as Henc; cbn [negb]; [|done]. subst encoding.
  rewrite start_writer by done. pose proof (enc_nonempty v Hv) as Hne.
  assert (length json_header = 5%nat) as Hlen by (unfold json_header; rewrite length_app; done).
  rewrite length_app, Hlen. destruct (Z.leb_spec 6 max_bytes) as [H6|H6].
  2:{ by rewrite (proj2 (Z.leb_gt _ _)) by lia. }
  rewrite encode_loop_ok.
  - unfold out_len. cbn [w_out w_limit]. rewrite Hlen. unfold rests. cbn. rewrite app_nil_r.
    by replace (5 + Z.of_nat (length (enc v))) with (Z.of_nat (5 + length (enc v))) by lia.
  - by repeat constructor.
  - unfold writer_ok, out_len. cbn [w_out w_limit w_pending]. rewrite Hlen. lia.
  - done.
  - rewrite sum_of_cons, sum_of_nil. cbn [rounds]. lia.
Qed.

(** C23. Equality bytes are exact: of two values encoded under the same pin, the bytes
    are equal if and only if the values are equal as [serde_json] values (object order
    ignored, array order kept, the two zeros of a float identified). *)
Theorem json_equality_bytes `{!JsonNumberLaws N} (v w : Value N) max_bytes max_bytes' fuel fuel' a b :
  value_ok v → value_ok w → 0 ≤ max_bytes ≤ u64_max → 0 ≤ max_bytes' ≤ u64_max →
  (value_rounds v ≤ fuel)%nat → (value_rounds w ≤ fuel')%nat →
  encode_json_equality_for fuel v current_json_equality_encoding max_bytes = Some (Ok a) →
  encode_json_equality_for fuel' w current_json_equality_encoding max_bytes' = Some (Ok b) →
  a = b ↔ json_eqb v w = true.
Proof.
  assert (∀ v max_bytes fuel a, value_ok v → 0 ≤ max_bytes ≤ u64_max → (value_rounds v ≤ fuel)%nat →
    encode_json_equality_for fuel v current_json_equality_encoding max_bytes = Some (Ok a) → a = json_header ++ enc v)
    as Hbytes.
  { clear. intros v max fuel a Hv Hmax Hfuel. unfold encode_json_equality_for. rewrite bool_decide_true by done.
    cbn [negb]. rewrite start_writer by done. destruct (Z.leb_spec 6 max); [|done].
    assert (length json_header = 5%nat) as Hlen by (unfold json_header; rewrite length_app; done).
    rewrite encode_loop_ok; [| |unfold writer_ok, out_len; cbn [w_out w_limit w_pending]; rewrite Hlen; lia|done|].
    - unfold rests. cbn. rewrite app_nil_r. case_match; [|done]. by intros [= <-].
    - by repeat constructor.
    - rewrite sum_of_cons, sum_of_nil. cbn [rounds]. lia. }
  intros Hv Hw Hmax Hmax' Hf Hf' ->%Hbytes ->%Hbytes; [|done..]. split.
  - intros E%List.app_inv_head. apply (f_equal (λ b, b ++ [])) in E.
    by apply enc_prefix_free in E as [? _].
  - intros E. f_equal. by apply enc_respects.
Qed.
End properties.

(** ** Samples: the two builds of [serde_json] numbers *)

Inductive Numeric := PosInt (z : Z) | NegInt (z : Z) | Float (bits : Z).

#[export] Instance numeric_number : JsonNumber Numeric := {|
  literal_numbers := false;
  number_text _ := ""%string;
  as_u64 n := match n with PosInt z => Some (z mod 2 ^ 64) | _ => None end;
  as_i64 n := match n with NegInt z => Some (- (1 + z mod 2 ^ 63)) | _ => None end;
  as_f64 n := match n with Float bits => Some (bits mod 2 ^ 64) | _ => None end;
  number_eqb n m :=
    match n, m with
    | PosInt a, PosInt b => a mod 2 ^ 64 =? b mod 2 ^ 64
    | NegInt a, NegInt b => a mod 2 ^ 63 =? b mod 2 ^ 63
    | Float a, Float b => f64_eqb (a mod 2 ^ 64) (b mod 2 ^ 64)
    | _, _ => false
    end;
|}.

#[export] Instance numeric_laws : JsonNumberLaws Numeric.
Proof.
  split.
  - done.
  - intros [a|a|a] [b|b|b] _; try done. cbn. destruct (Z.eqb_spec (a mod 2 ^ 63) (b mod 2 ^ 63)); symmetry.
    + apply Z.eqb_eq. lia.
    + apply Z.eqb_neq. lia.
  - intros [a|a|a] z [= <-]. unfold is_u64. div_lia.
  - intros [a|a|a] z [= <-]. unfold is_i64. div_lia.
  - intros [a|a|a] z [= <-]. unfold is_u64. div_lia.
Qed.

Definition json_left : Value Numeric :=
  VObject [("z", VArray [VNull; VNumber (PosInt 1)]); ("a", VNumber (Float 0))]%string.
Definition json_right : Value Numeric :=
  VObject [("a", VNumber (Float (2 ^ 63))); ("z", VArray [VNull; VNumber (PosInt 1)])]%string.

Lemma json_left_ok : value_ok json_left.
Proof. cbn. split_and!; repeat constructor; try done; set_solver. Qed.
Lemma json_right_ok : value_ok json_right.
Proof. cbn. split_and!; repeat constructor; try done; set_solver. Qed.

Lemma json_encode_exact_witness :
  encode_json_equality_for 20 json_left current_json_equality_encoding 31 = Some (Err QTooLarge) ∧
  encode_json_equality_for 20 json_left current_json_equality_encoding 32 =
  Some (if bool_decide (current_json_equality_encoding (N:=Numeric) = current_json_equality_encoding) then
          if Z.of_nat (length (json_header ++ enc json_left)) <=? 32 then Ok (json_header ++ enc json_left) else Err QTooLarge
        else Err (invalid "JSON equality encoding drift; explicit migration required")).
Proof.
  split; [vm_compute; reflexivity|].
  apply (json_encode_exact json_left current_json_equality_encoding 32 20 json_left_ok).
  - vm_compute. split; discriminate.
  - vm_compute. repeat constructor.
Defined.

(** The two zeros and the two orders of keys are one value. *)
Lemma json_equality_bytes_witness :
  json_eqb json_left json_right = true ∧
  (json_header (N:=Numeric) ++ enc json_left = json_header ++ enc json_right ↔ json_eqb json_left json_right = true).
Proof.
  split; [vm_compute; reflexivity|].
  apply (json_equality_bytes json_left json_right 64 64 20 20 _ _ json_left_ok json_right_ok).
  1,2: vm_compute; split; discriminate.
  1,2: vm_compute; repeat constructor.
  all: vm_compute; reflexivity.
Defined.
