(* ===== verification/Admission.v ===== *)
(** The admission of owned operations of [fireweed-engine/src/queue_admission.rs]:
    slots and bytes reserved by storage jobs, and the buffer charges that belong
    to a job. Every access to the counters holds their lock, so an operation is one
    step. A reservation shared through [Arc] carries its strong count; what the
    borrow checker rules out (the last owner of a reservation goes while a scoped
    charge borrows it) is not a step. *)
From S2P Require Import Prelude Field Records.

(** ** Counters *)

Record QueueAdmission := mkQueueAdmission { max_slots : Z; max_bytes : Z }.
Record State := mkState { slots : Z; used_bytes : Z; adm_closed : bool }.

Definition QueueAdmission_new (max_slots max_bytes : Z) : QueueResult (QueueAdmission * State) :=
  if (max_slots =? 0) || (max_bytes =? 0) then Err (QInvalid "admission limits must be positive")
  else Ok (mkQueueAdmission max_slots max_bytes, mkState 0 0 false).

Definition add_bytes (n : Z) (s : State) : State := mkState (slots s) (used_bytes s + n) (adm_closed s).
(** Dropping a charge. *)
Definition drop_bytes (n : Z) (s : State) : State := mkState (slots s) (used_bytes s - n) (adm_closed s).
(** Dropping a reservation. *)
Definition drop_slot (n : Z) (s : State) : State := mkState (slots s - 1) (used_bytes s - n) (adm_closed s).
Definition close_admission (s : State) : State := mkState (slots s) (used_bytes s) true.
Definition usage (s : State) : Z * Z := (slots s, used_bytes s).

Section counters.
Context (a : QueueAdmission).

Definition reserve (s : State) (bytes : Z) : QueueResult unit * State :=
  if adm_closed s || (max_slots a <=? slots s) || (saturating_sub_u64 (max_bytes a) (used_bytes s) <? bytes)
  then (Err Busy, s)
  else (Ok tt, mkState (slots s + 1) (used_bytes s + bytes) (adm_closed s)).

Definition grow (s : State) (additional : Z) : QueueResult unit * State :=
  if saturating_sub_u64 (max_bytes a) (used_bytes s) <? additional
  then (Err (OutcomeUnknown "admitted capacity exhausted; retain and resolve owned operation"), s)
  else (Ok tt, add_bytes additional s).

Definition buffer (s : State) (bytes : Z) : QueueResult unit * State :=
  if saturating_sub_u64 (max_bytes a) (used_bytes s) <? bytes
  then (Err (OutcomeUnknown "admitted buffer capacity exhausted; resolve owned operation"), s)
  else (Ok tt, add_bytes bytes s).

End counters.

(** ** Reservations and charges *)

(** A reservation with its terminal callback, if any, and the strong count of its [Arc]. *)
Record Reservation := mkReservation { rs_bytes : Z; rs_terminal : bool; rs_strong : Z }.
(** A scoped or an owned buffer charge of the reservation [ch_job]. *)
Record Charge := mkCharge { ch_job : nat; ch_bytes : Z; ch_owned : bool }.

Record Jobs := mkJobs {
  jb_state : State;
  jb_jobs : gmap nat Reservation;
  jb_charges : gmap nat Charge;
  jb_next : nat;
  (** reservations that got a callback, and the callbacks run, in order *)
  jb_registered : gset nat;
  jb_fired : list nat;
}.


Definition owner_of (job : nat) (c : Charge) : Z := if ch_owned c && Nat.eqb (ch_job c) job then 1 else 0.
Definition borrower_of (job : nat) (c : Charge) : Z := if negb (ch_owned c) && Nat.eqb (ch_job c) job then 1 else 0.

Definition set_jb_state (s : State) (j : Jobs) : Jobs :=
  mkJobs s (jb_jobs j) (jb_charges j) (jb_next j) (jb_registered j) (jb_fired j).
Definition set_jobs (m : gmap nat Reservation) (j : Jobs) : Jobs :=
  mkJobs (jb_state j) m (jb_charges j) (jb_next j) (jb_registered j) (jb_fired j).
Definition set_charges (m : gmap nat Charge) (j : Jobs) : Jobs :=
  mkJobs (jb_state j) (jb_jobs j) m (jb_next j) (jb_registered j) (jb_fired j).

(** Dropping one strong reference; the last one drops the reservation and then
    runs its callback. *)
Definition drop_strong (job : nat) (j : Jobs) : Jobs :=
  match jb_jobs j !! job with
  | None => j
  | Some r =>
      if rs_strong r =? 1 then
        mkJobs (drop_slot (rs_bytes r) (jb_state j)) (delete job (jb_jobs j)) (jb_charges j) (jb_next j)
          (jb_registered j) (if rs_terminal r then jb_fired j ++ [job] else jb_fired j)
      else set_jobs (<[job := mkReservation (rs_bytes r) (rs_terminal r) (rs_strong r - 1)]> (jb_jobs j)) j
  end.

Definition drop_charge (id : nat) (c : Charge) (j : Jobs) : Jobs :=
  let j := set_charges (delete id (jb_charges j)) (set_jb_state (drop_bytes (ch_bytes c) (jb_state j)) j) in
  if ch_owned c then drop_strong (ch_job c) j else j.

(** A new charge under a fresh name. *)
Definition push_charge (c : Charge) (j : Jobs) : Jobs :=
  mkJobs (jb_state j) (jb_jobs j) (<[jb_next j := c]> (jb_charges j)) (S (jb_next j)) (jb_registered j) (jb_fired j).

(** [Arc::clone]. *)
Definition clone_job (job : nat) (j : Jobs) : Jobs :=
  match jb_jobs j !! job with
  | Some r => set_jobs (<[job := mkReservation (rs_bytes r) (rs_terminal r) (rs_strong r + 1)]> (jb_jobs j)) j
  | None => j
  end.

(** [QueueReservation::owned_buffer]: a charge, transferred to a clone of the [Arc]. *)
Definition owned_buffer (a : QueueAdmission) (job : nat) (bytes : Z) (j : Jobs) : Jobs :=
  match buffer a (jb_state j) bytes with
  | (Ok _, s) => push_charge (mkCharge job bytes true) (clone_job job (set_jb_state s j))
  | (Err _, _) => j
  end.

(** A caller holds the reservation outside of charges. *)
Definition held (job : nat) (j : Jobs) : bool :=
  match jb_jobs j !! job with Some r => msum (owner_of job) (jb_charges j) <? rs_strong r | None => false end.
(** Dropping a strong reference leaves no borrow behind. *)
Definition releasable (job : nat) (j : Jobs) : bool :=
  match jb_jobs j !! job with
  | Some r => negb (rs_strong r =? 1) || (msum (borrower_of job) (jb_charges j) =? 0)
  | None => false
  end.
(** The caller has the only reference, unborrowed. *)
Definition exclusive (job : nat) (j : Jobs) : bool :=
  match jb_jobs j !! job with
  | Some r => (rs_strong r =? 1) && (msum (owner_of job) (jb_charges j) =? 0) &&
              (msum (borrower_of job) (jb_charges j) =? 0)
  | None => false
  end.

Inductive a_op :=
| AReserve (bytes : Z)
| ACallback (job : nat)
| AGrow (job : nat) (bytes : Z)
| AClone (job : nat)
| ADrop (job : nat)
| ABuffer (job : nat) (bytes : Z)
| AMerge (id other : nat)
| AIntoOwned (id job : nat)
| AOwnedBuffer (job : nat) (bytes : Z)
| AOwnedGrow (id : nat) (bytes : Z)
| AChild (id : nat) (bytes : Z)
| ADropCharge (id : nat)
| AClose.

Section steps.
Context (a : QueueAdmission).

Definition job_reserve (bytes : Z) (j : Jobs) : Jobs :=
  match reserve a (jb_state j) bytes with
  | (Ok _, s) => mkJobs s (<[jb_next j := mkReservation bytes false 1]> (jb_jobs j)) (jb_charges j) (S (jb_next j))
                   (jb_registered j) (jb_fired j)
  | (Err _, _) => j
  end.

(** A second registration fails and drops the reservation it was given. *)
Definition with_terminal_callback (job : nat) (r : Reservation) (j : Jobs) : Jobs :=
  if rs_terminal r then drop_strong job j
  else mkJobs (jb_state j) (<[job := mkReservation (rs_bytes r) true (rs_strong r)]> (jb_jobs j)) (jb_charges j)
         (jb_next j) ({[job]} ∪ jb_registered j) (jb_fired j).

Definition job_grow (job : nat) (r : Reservation) (bytes : Z) (j : Jobs) : Jobs :=
  match grow a (jb_state j) bytes with
  | (Ok _, s) =>
      set_jobs (<[job := mkReservation (rs_bytes r + bytes) (rs_terminal r) (rs_strong r)]> (jb_jobs j))
        (set_jb_state s j)
  | (Err _, _) => j
  end.

Definition job_buffer (job : nat) (bytes : Z) (j : Jobs) : Jobs :=
  match buffer a (jb_state j) bytes with
  | (Ok _, s) => push_charge (mkCharge job bytes false) (set_jb_state s j)
  | (Err _, _) => j
  end.

(** An error drops both charges. *)
Definition merge (id : nat) (c : Charge) (other : nat) (d : Charge) (j : Jobs) : Jobs :=
  if negb (Nat.eqb (ch_job c) (ch_job d)) then drop_charge id c (drop_charge other d j)
  else match checked_add_u64 (ch_bytes c) (ch_bytes d) with
  | None => drop_charge id c (drop_charge other d j)
  | Some combined =>
      let c := mkCharge (ch_job c) combined (ch_owned c) in
      drop_charge other (mkCharge (ch_job d) 0 (ch_owned d)) (set_charges (<[id := c]> (jb_charges j)) j)
  end.

(** The reference passed along moves into the owned charge; an error drops it and the charge. *)
Definition into_owned (id : nat) (c : Charge) (job : nat) (j : Jobs) : Jobs :=
  if negb (Nat.eqb (ch_job c) job) then drop_charge id c (drop_strong job j)
  else set_charges (<[id := mkCharge job (ch_bytes c) true]> (jb_charges j)) j.

(** When the sum overflows the additional charge is dropped again. *)
Definition owned_grow (id : nat) (c : Charge) (bytes : Z) (j : Jobs) : Jobs :=
  match buffer a (jb_state j) bytes with
  | (Ok _, s) =>
      match checked_add_u64 (ch_bytes c) bytes with
      | Some n => set_charges (<[id := mkCharge (ch_job c) n (ch_owned c)]> (jb_charges j)) (set_jb_state s j)
      | None => set_jb_state (drop_bytes bytes s) j
      end
  | (Err _, _) => j
  end.

(** A step whose handle or charge does not exist, or that the borrow checker refuses, does nothing. *)
Definition a_exec (j : Jobs) (op : a_op) : Jobs :=
  match op with
  | AReserve bytes => job_reserve bytes j
  | ACallback job =>
      match jb_jobs j !! job with
      | Some r => if exclusive job j then with_terminal_callback job r j else j
      | None => j
      end
  | AGrow job bytes =>
      match jb_jobs j !! job with
      | Some r => if exclusive job j then job_grow job r bytes j else j
      | None => j
      end
  | AClone job => if held job j then clone_job job j else j
  | ADrop job => if held job j && releasable job j then drop_strong job j else j
  | ABuffer job bytes => if bool_decide (is_Some (jb_jobs j !! job)) then job_buffer job bytes j else j
  | AMerge id other =>
      match jb_charges j !! id, jb_charges j !! other with
      | Some c, Some d =>
          if negb (ch_owned c) && negb (ch_owned d) && negb (Nat.eqb id other) then merge id c other d j else j
      | _, _ => j
      end
  | AIntoOwned id job =>
      match jb_charges j !! id with
      | Some c =>
          if negb (ch_owned c) && held job j && (Nat.eqb (ch_job c) job || releasable job j)
          then into_owned id c job j else j
      | None => j
      end
  | AOwnedBuffer job bytes => if held job j then owned_buffer a job bytes j else j
  | AOwnedGrow id bytes =>
      match jb_charges j !! id with
      | Some c => if ch_owned c then owned_grow id c bytes j else j
      | None => j
      end
  | AChild id bytes =>
      match jb_charges j !! id with
      | Some c => if ch_owned c then owned_buffer a (ch_job c) bytes j else j
      | None => j
      end
  | ADropCharge id =>
      match jb_charges j !! id with
      | Some c => if negb (ch_owned c) || releasable (ch_job c) j then drop_charge id c j else j
      | None => j
      end
  | AClose => set_jb_state (close_admission (jb_state j)) j
  end.
Definition a_run (j : Jobs) (ops : list a_op) : Jobs := foldl a_exec j ops.

End steps.

Definition no_jobs (s : State) : Jobs := mkJobs s ∅ ∅ 0 ∅ [].

Lemma owner_of_nonneg job c : 0 ≤ owner_of job c.
Proof. unfold owner_of. case_match; lia. Qed.
Lemma borrower_of_nonneg job c : 0 ≤ borrower_of job c.
Proof. unfold borrower_of. case_match; lia. Qed.
#[local] Hint Resolve owner_of_nonneg borrower_of_nonneg : core.

(** A reservation without owners and borrowers has no charges. *)
Lemma no_charges job (m : gmap nat Charge) id c :
  msum (owner_of job) m = 0 → msum (borrower_of job) m = 0 → m !! id = Some c → ch_job c ≠ job.
Proof.
  intros Ho Hb Hc <-. apply (msum_zero _ _ id c) in Ho, Hb; [|by auto..]. unfold owner_of, borrower_of in *.
  rewrite Nat.eqb_refl in *. destruct (ch_owned c); cbn in *; lia.
Qed.

(** ** The accounting invariant *)

Section invariant.
Context (a : QueueAdmission).

Record jobs_ok (j : Jobs) : Prop := {
  jo_slots : slots (jb_state j) = Z.of_nat (size (jb_jobs j)) ∧ slots (jb_state j) ≤ max_slots a;
  jo_bytes : used_bytes (jb_state j) = msum rs_bytes (jb_jobs j) + msum ch_bytes (jb_charges j) ∧
             used_bytes (jb_state j) ≤ max_bytes a;
  jo_jobs job r : jb_jobs j !! job = Some r →
    0 ≤ rs_bytes r ∧ 0 < rs_strong r ∧ msum (owner_of job) (jb_charges j) ≤ rs_strong r ∧ (job < jb_next j)%nat;
  jo_charges id c : jb_charges j !! id = Some c →
    0 ≤ ch_bytes c ∧ is_Some (jb_jobs j !! ch_job c) ∧ (id < jb_next j)%nat;
  jo_fired : NoDup (jb_fired j) ∧ ∀ job, job ∈ jb_fired j → jb_jobs j !! job = None ∧ (job < jb_next j)%nat;
  jo_registered job : job ∈ jb_registered j ↔
    job ∈ jb_fired j ∨ ∃ r, jb_jobs j !! job = Some r ∧ rs_terminal r = true;
}.

Lemma sums_nonneg j : jobs_ok j → 0 ≤ msum rs_bytes (jb_jobs j) ∧ 0 ≤ msum ch_bytes (jb_charges j).
Proof. intros Hj. split; apply msum_nonneg; intros k x Hx; [apply (jo_jobs j Hj) in Hx|apply (jo_charges j Hj) in Hx]; naive_solver. Qed.

Lemma room_spec j n : jobs_ok j → 0 ≤ n →
  (saturating_sub_u64 (max_bytes a) (used_bytes (jb_state j)) <? n) = false → used_bytes (jb_state j) + n ≤ max_bytes a.
Proof. intros [_ [_ Hb] _ _ _ _] Hn Hr%Z.ltb_ge. unfold saturating_sub_u64 in Hr. lia. Qed.

(** One reservation changes its bytes (with the counter), its callback or its references. *)
Lemma update_job_ok j job r r' n R :
  jobs_ok j → jb_jobs j !! job = Some r → 0 ≤ n → rs_bytes r' = rs_bytes r + n →
  used_bytes (jb_state j) + n ≤ max_bytes a → 0 < rs_strong r' →
  msum (owner_of job) (jb_charges j) ≤ rs_strong r' →
  (rs_terminal r' = rs_terminal r ∧ R = jb_registered j ∨ rs_terminal r' = true ∧ R = {[job]} ∪ jb_registered j) →
  jobs_ok (mkJobs (add_bytes n (jb_state j)) (<[job := r']> (jb_jobs j)) (jb_charges j) (jb_next j) R (jb_fired j)).
Proof.
  intros [Hs Hb Hjobs Hch Hf Hreg] Hr Hn Hb' Hmax Hst Hown HR. pose proof (Hjobs _ _ Hr) as (? & ? & ? & ?).
  split; cbn.
  - by rewrite map_size_insert_Some by done.
  - rewrite (msum_update _ _ _ _ r) by done. lia.
  - intros job' x [[-> <-]|[Hne Hx]]%lookup_insert_Some; [|by apply Hjobs]. lia.
  - intros id c Hc. destruct (Hch id c Hc) as (? & ? & ?). split_and!; [done| |done].
    apply lookup_insert_is_Some. destruct (decide (job = ch_job c)); auto.
  - split; [apply Hf|]. intros job' Hin. destruct (proj2 Hf job' Hin). split; [|done].
    rewrite lookup_insert_ne; [done|congruence].
  - intros job'. destruct (decide (job' = job)) as [->|Hne].
    + specialize (Hreg job). rewrite lookup_insert_eq. destruct HR as [[Ht ->]|[Ht ->]]; [|set_solver].
      rewrite Hreg. naive_solver congruence.
    + rewrite lookup_insert_ne by done. rewrite <-Hreg. destruct HR as [[_ ->]|[_ ->]]; set_solver.
Qed.

Lemma push_charge_ok j c s :
  jobs_ok j → s = add_bytes (ch_bytes c) (jb_state j) → used_bytes s ≤ max_bytes a → 0 ≤ ch_bytes c →
  (∃ r, jb_jobs j !! ch_job c = Some r ∧ msum (owner_of (ch_job c)) (jb_charges j) + owner_of (ch_job c) c ≤ rs_strong r) →
  jobs_ok (push_charge c (set_jb_state s j)).
Proof.
  intros [Hs Hb Hjobs Hch Hf Hreg] -> Hmax Hn (r & Hr & Hown). cbn in *.
  assert (jb_charges j !! jb_next j = None) as Hfresh.
  { destruct (jb_charges j !! jb_next j) eqn:E; [|done]. apply Hch in E. lia. }
  split; cbn.
  - done.
  - rewrite msum_insert by done. lia.
  - intros job x Hx. rewrite msum_insert by done. destruct (Hjobs job x Hx) as (? & ? & ? & ?).
    split_and!; [done|done| |lia]. destruct (decide (job = ch_job c)) as [->|Hne]; [simplify_eq; lia|].
    unfold owner_of at 1. destruct (Nat.eqb_spec (ch_job c) job); [congruence|]. rewrite andb_false_r. lia.
  - intros id x [[<- <-]|[Hne Hx]]%lookup_insert_Some; [eauto with lia|]. destruct (Hch id x Hx) as (? & ? & ?). eauto with lia.
  - split; [apply Hf|]. intros job Hin. destruct (proj2 Hf job Hin). auto.
  - done.
Qed.

(** One charge changes its bytes (with the counter) or becomes owned. *)
Lemma update_charge_ok j id c c' n :
  jobs_ok j → jb_charges j !! id = Some c → 0 ≤ ch_bytes c' → ch_job c' = ch_job c → ch_bytes c' = ch_bytes c + n →
  used_bytes (jb_state j) + n ≤ max_bytes a →
  (∀ r, jb_jobs j !! ch_job c = Some r →
        msum (owner_of (ch_job c)) (jb_charges j) - owner_of (ch_job c) c + owner_of (ch_job c) c' ≤ rs_strong r) →
  jobs_ok (set_charges (<[id := c']> (jb_charges j)) (set_jb_state (add_bytes n (jb_state j)) j)).
Proof.
  intros [Hs Hb Hjobs Hch Hf Hreg] Hc Hn Hj Hbytes Hmax Hown. destruct (Hch id c Hc) as (? & ? & ?). split; cbn; try done.
  - rewrite (msum_update _ _ _ _ c) by done. lia.
  - intros job x Hx. rewrite (msum_update _ _ _ _ c) by done. destruct (Hjobs job x Hx) as (? & ? & ? & ?).
    split_and!; [done|done| |done]. destruct (decide (job = ch_job c)) as [->|Hne]; [by apply Hown|].
    unfold owner_of at 2 3. rewrite Hj. destruct (Nat.eqb_spec (ch_job c) job); [congruence|]. rewrite !andb_false_r. lia.
  - intros id' x [[<- <-]|[Hne Hx]]%lookup_insert_Some; [rewrite Hj; auto|by apply Hch].
Qed.

Lemma remove_charge_ok j id c :
  jobs_ok j → jb_charges j !! id = Some c →
  jobs_ok (set_charges (delete id (jb_charges j)) (set_jb_state (drop_bytes (ch_bytes c) (jb_state j)) j)).
Proof.
  intros [Hs Hb Hjobs Hch Hf Hreg] Hc. destruct (Hch id c Hc) as (? & ? & ?). split; cbn; try done.
  - rewrite (msum_lookup ch_bytes (jb_charges j) id c Hc) in Hb. lia.
  - intros job x Hx. destruct (Hjobs job x Hx) as (? & ? & Ho & ?).
    rewrite (msum_lookup _ _ _ _ Hc) in Ho. pose proof (owner_of_nonneg job c). lia.
  - intros id' x [_ Hx]%lookup_delete_Some. by apply Hch.
Qed.

(** The last reference goes with the reservation, which nothing uses any more. *)
Lemma drop_last_ok j job r :
  jobs_ok j → jb_jobs j !! job = Some r → (∀ id c, jb_charges j !! id = Some c → ch_job c ≠ job) →
  jobs_ok (mkJobs (drop_slot (rs_bytes r) (jb_state j)) (delete job (jb_jobs j)) (jb_charges j) (jb_next j)
             (jb_registered j) (if rs_terminal r then jb_fired j ++ [job] else jb_fired j)).
Proof.
  intros [Hs Hb Hjobs Hch Hf Hreg] Hr Hno. destruct (Hjobs job r Hr) as (? & ? & ? & Hlt).
  assert (job ∉ jb_fired j) as Hnew by (intros Hin; apply Hf in Hin; naive_solver congruence).
  assert (∀ job', job' ∈ (if rs_terminal r then jb_fired j ++ [job] else jb_fired j) ↔
                  job' ∈ jb_fired j ∨ job' = job ∧ rs_terminal r = true) as Hin'.
  { intros job'. destruct (rs_terminal r); [rewrite elem_of_app, list_elem_of_singleton|]; naive_solver. }
  split; cbn.
  - rewrite map_size_delete_Some by eauto. assert (size (jb_jobs j) ≠ 0%nat) by (eapply map_size_ne_0_lookup_2; eauto). lia.
  - rewrite (msum_lookup rs_bytes _ _ _ Hr) in Hb. lia.
  - intros job' x [_ Hx]%lookup_delete_Some. by apply Hjobs.
  - intros id c Hc. destruct (Hch id c Hc) as (? & ? & ?). rewrite lookup_delete_ne by (symmetry; eauto). done.
  - split.
    + destruct (rs_terminal r); [|apply Hf]. apply NoDup_app. split_and!; [apply Hf|set_solver|apply NoDup_singleton].
    + intros job' [Hin|[-> _]]%Hin'; [|by rewrite lookup_delete_eq].
      destruct (proj2 Hf job' Hin). split; [|done]. by apply lookup_delete_None; right.
  - intros job'. rewrite Hreg, Hin'. setoid_rewrite lookup_delete_Some.
    destruct (decide (job' = job)); naive_solver congruence.
Qed.

Lemma drop_strong_ok j job :
  jobs_ok j → held job j = true → releasable job j = true → jobs_ok (drop_strong job j).
Proof.
  intros Hj. unfold held, releasable, drop_strong. destruct (jb_jobs j !! job) as [r|] eqn:Hr; [|done].
  intros Hheld%Z.ltb_lt Hrel. destruct (jo_jobs j Hj job r Hr) as (? & ? & ? & ?).
  assert (0 ≤ msum (owner_of job) (jb_charges j)) by (apply msum_nonneg; auto).
  destruct (Z.eqb_spec (rs_strong r) 1) as [Hone|Hone]; cbn in Hrel.
  - apply drop_last_ok; [done..|]. intros id c. apply no_charges; lia.
  - replace (set_jobs _ j) with (mkJobs (add_bytes 0 (jb_state j))
      (<[job:=mkReservation (rs_bytes r) (rs_terminal r) (rs_strong r - 1)]> (jb_jobs j)) (jb_charges j) (jb_next j)
      (jb_registered j) (jb_fired j)).
    2: { unfold set_jobs, add_bytes. rewrite Z.add_0_r. by destruct (jb_state j). }
    apply (update_job_ok j job r); cbn; try done; try lia; [|by left]. destruct (jo_bytes j Hj). lia.
Qed.

Lemma drop_charge_ok j id c :
  jobs_ok j → jb_charges j !! id = Some c → negb (ch_owned c) || releasable (ch_job c) j = true →
  jobs_ok (drop_charge id c j).
Proof.
  intros Hj Hc Hrel. pose proof (remove_charge_ok j id c Hj Hc) as Hj'. unfold drop_charge.
  destruct (ch_owned c) eqn:Hown; [|done]. cbn in Hrel. destruct (jo_charges j Hj id c Hc) as (_ & [r Hr] & _).
  destruct (jo_jobs j Hj _ r Hr) as (_ & _ & Hle & _). rewrite (msum_lookup _ _ _ _ Hc) in Hle.
  assert (owner_of (ch_job c) c = 1) as H1 by (unfold owner_of; by rewrite Hown, Nat.eqb_refl).
  apply drop_strong_ok; [done| |]; unfold held, releasable in *; cbn; rewrite Hr in *.
  - apply Z.ltb_lt. lia.
  - rewrite (msum_lookup _ _ _ _ Hc) in Hrel. unfold borrower_of at 1 in Hrel. by rewrite Hown in Hrel.
Qed.

Lemma add_bytes_0 s : add_bytes 0 s = s.
Proof. unfold add_bytes. rewrite Z.add_0_r. by destruct s. Qed.

(** A change of a reservation that does not touch the counters. *)
Lemma touch_job_ok j job r terminal strong R :
  jobs_ok j → jb_jobs j !! job = Some r → 0 < strong → msum (owner_of job) (jb_charges j) ≤ strong →
  (terminal = rs_terminal r ∧ R = jb_registered j ∨ terminal = true ∧ R = {[job]} ∪ jb_registered j) →
  jobs_ok (mkJobs (jb_state j) (<[job := mkReservation (rs_bytes r) terminal strong]> (jb_jobs j)) (jb_charges j)
             (jb_next j) R (jb_fired j)).
Proof.
  intros Hj Hr ? ? HR. rewrite <-(add_bytes_0 (jb_state j)). apply (update_job_ok j job r); cbn; try done; [lia|].
  destruct (jo_bytes j Hj). lia.
Qed.

Lemma job_reserve_ok j bytes : jobs_ok j → 0 ≤ bytes → jobs_ok (job_reserve a bytes j).
Proof.
  intros Hj Hn. unfold job_reserve, reserve. destruct (_ || _ || _) eqn:E; [done|].
  rewrite !orb_false_iff, Z.leb_gt in E. destruct E as [[_ Hslot] Hroom]. apply room_spec in Hroom; [|done..].
  destruct Hj as [Hs Hb Hjobs Hch Hf Hreg].
  assert (jb_jobs j !! jb_next j = None) as Hfresh.
  { destruct (jb_jobs j !! jb_next j) eqn:E; [|done]. apply Hjobs in E. lia. }
  assert (∀ id c, jb_charges j !! id = Some c → ch_job c ≠ jb_next j) as Hno.
  { intros id c (_ & [r Hr] & _)%Hch E. congruence. }
  split; cbn.
  - rewrite map_size_insert_None by done. lia.
  - rewrite msum_insert by done. cbn. lia.
  - intros job r [[<- <-]|[Hne Hr]]%lookup_insert_Some; cbn.
    + split_and!; [done|lia| |lia]. enough (msum (owner_of (jb_next j)) (jb_charges j) = 0) by lia.
      clear -Hno. induction (jb_charges j) as [|id c m Hid IH] using map_ind; [apply msum_empty|].
      rewrite msum_insert by done. unfold owner_of at 1.
      destruct (Nat.eqb_spec (ch_job c) (jb_next j)) as [E|_]; [by apply (Hno id c) in E; [|apply lookup_insert_eq]|].
      rewrite andb_false_r, IH; [done|]. intros id' c' Hc'. apply (Hno id'). rewrite lookup_insert_ne; [done|congruence].
    + destruct (Hjobs job r Hr) as (? & ? & ? & ?). auto with lia.
  - intros id c Hc. destruct (Hch id c Hc) as (? & ? & ?). split_and!; [done| |lia].
    rewrite lookup_insert_ne; [done|]. intros E. by apply (Hno id c Hc).
  - split; [apply Hf|]. intros job Hin. destruct (proj2 Hf job Hin). split; [|lia]. rewrite lookup_insert_ne; [done|lia].
  - intros job. rewrite Hreg. destruct (decide (job = jb_next j)) as [->|Hne]; [|by rewrite lookup_insert_ne].
    rewrite lookup_insert_eq, Hfresh. naive_solver.
Qed.

Lemma exclusive_spec j job : exclusive job j = true → held job j = true ∧ releasable job j = true.
Proof.
  unfold exclusive, held, releasable. destruct (jb_jobs j !! job); [|done].
  rewrite !andb_true_iff, !Z.eqb_eq, orb_true_iff, Z.eqb_eq, Z.ltb_lt. lia.
Qed.

Lemma with_terminal_callback_ok j job r :
  jobs_ok j → jb_jobs j !! job = Some r → exclusive job j = true → jobs_ok (with_terminal_callback job r j).
Proof.
  intros Hj Hr [Hh Hrel]%exclusive_spec. unfold with_terminal_callback. destruct (rs_terminal r); [by apply drop_strong_ok|].
  destruct (jo_jobs j Hj job r Hr) as (? & ? & ? & ?). apply touch_job_ok; auto.
Qed.

Lemma job_grow_ok j job r n : jobs_ok j → 0 ≤ n → jb_jobs j !! job = Some r → jobs_ok (job_grow a job r n j).
Proof.
  intros Hj Hn Hr. unfold job_grow, grow. destruct (_ <? n) eqn:E; [done|]. apply room_spec in E; [|done..].
  destruct (jo_jobs j Hj job r Hr) as (? & ? & ? & ?). by apply (update_job_ok j job r); cbn; auto with lia.
Qed.

Lemma clone_job_ok j job : jobs_ok j → jobs_ok (clone_job job j).
Proof.
  intros Hj. unfold clone_job. destruct (jb_jobs j !! job) as [r|] eqn:Hr; [|done].
  destruct (jo_jobs j Hj job r Hr) as (? & ? & ? & ?). apply touch_job_ok; auto with lia.
Qed.

Lemma job_buffer_ok j job n : jobs_ok j → 0 ≤ n → is_Some (jb_jobs j !! job) → jobs_ok (job_buffer a job n j).
Proof.
  intros Hj Hn [r Hr]. unfold job_buffer, buffer. destruct (_ <? n) eqn:E; [done|]. apply room_spec in E; [|done..].
  apply push_charge_ok; cbn; try done. exists r. destruct (jo_jobs j Hj job r Hr) as (? & ? & ? & ?).
  change (owner_of job (mkCharge job n false)) with 0. auto with lia.
Qed.

Lemma owned_buffer_ok j job n : jobs_ok j → 0 ≤ n → is_Some (jb_jobs j !! job) → jobs_ok (owned_buffer a job n j).
Proof.
  intros Hj Hn [r Hr]. unfold owned_buffer, buffer. destruct (_ <? n) eqn:E; [done|]. apply room_spec in E; [|done..].
  replace (clone_job job (set_jb_state _ j)) with (set_jb_state (add_bytes n (jb_state j)) (clone_job job j))
    by (unfold clone_job; cbn; by rewrite Hr).
  apply push_charge_ok; cbn; [by apply clone_job_ok| |done|done|]; unfold clone_job; rewrite Hr; [done|].
  cbn. rewrite lookup_insert_eq. eexists. split; [done|]. destruct (jo_jobs j Hj job r Hr) as (? & ? & ? & ?).
  assert (owner_of job (mkCharge job n true) = 1) as -> by (unfold owner_of; cbn; by rewrite Nat.eqb_refl).
  cbn. lia.
Qed.

Lemma merge_ok j id c other d :
  jobs_ok j → jb_charges j !! id = Some c → jb_charges j !! other = Some d →
  ch_owned c = false → ch_owned d = false → id ≠ other → jobs_ok (merge id c other d j).
Proof.
  intros Hj Hc Hd Hoc Hod Hne. pose proof (remove_charge_ok j other d Hj Hd) as Hj'.
  assert (jobs_ok (drop_charge id c (drop_charge other d j))) as Hboth.
  { apply drop_charge_ok; [apply drop_charge_ok| |]; unfold drop_charge; rewrite ?Hod, ?Hoc; try done.
    by apply lookup_delete_Some. }
  unfold merge. destruct (Nat.eqb_spec (ch_job c) (ch_job d)) as [E|_]; [|done]. cbn [negb].
  destruct (checked_add_u64 _ _) as [n|] eqn:Hn; [|done]. apply checked_add_u64_Some in Hn as [-> Hu].
  unfold drop_charge. cbn [ch_owned]. rewrite Hod. cbn. destruct (jo_charges j Hj id c Hc) as (? & ? & ?).
  destruct (jo_charges j Hj other d Hd) as (? & ? & ?). destruct (jo_bytes j Hj).
  assert (delete other (jb_charges j) !! id = Some c) as Hc' by by apply lookup_delete_Some.
  eapply (update_charge_ok _ id c (mkCharge (ch_job c) (ch_bytes c + ch_bytes d) (ch_owned c)) (ch_bytes d)) in Hj';
    cbn in *; [|done|lia|done|done|lia|].
  - unfold set_charges, set_jb_state, add_bytes, drop_bytes in *. cbn in *.
    rewrite delete_insert_ne by done. by replace (used_bytes (jb_state j) - ch_bytes d + ch_bytes d)
      with (used_bytes (jb_state j) - 0) in Hj' by lia.
  - intros r Hr. destruct (jo_jobs _ Hj' _ _ Hr) as (_ & _ & Ho & _). cbn in Ho. unfold owner_of at 2 3. rewrite Hoc. cbn. lia.
Qed.

Lemma into_owned_ok j id c job :
  jobs_ok j → jb_charges j !! id = Some c → ch_owned c = false → held job j = true →
  Nat.eqb (ch_job c) job || releasable job j = true → jobs_ok (into_owned id c job j).
Proof.
  intros Hj Hc Hoc Hheld Hrel. unfold into_owned. destruct (Nat.eqb_spec (ch_job c) job) as [<-|_]; cbn in *.
  - destruct (jo_charges j Hj id c Hc) as (? & ? & ?). destruct (jo_bytes j Hj).
    pose proof (update_charge_ok j id c (mkCharge (ch_job c) (ch_bytes c) true) 0 Hj Hc) as H'.
    rewrite add_bytes_0 in H'. cbn in H'. replace (set_jb_state (jb_state j) j) with j in H' by by destruct j.
    apply H'; [done|done|lia|lia|]. intros r Hr. unfold held in Hheld. rewrite Hr, Z.ltb_lt in Hheld.
    unfold owner_of at 2 3. rewrite Hoc. cbn. rewrite Nat.eqb_refl. lia.
  - apply drop_charge_ok; [by apply drop_strong_ok| |by rewrite Hoc].
    unfold drop_strong. repeat case_match; done.
Qed.

Lemma owned_grow_ok j id c n :
  jobs_ok j → 0 ≤ n → jb_charges j !! id = Some c → jobs_ok (owned_grow a id c n j).
Proof.
  intros Hj Hn Hc. unfold owned_grow, buffer. destruct (_ <? n) eqn:E; [done|]. apply room_spec in E; [|done..].
  destruct (jo_charges j Hj id c Hc) as (? & ? & ?). destruct (checked_add_u64 _ _) as [m|] eqn:Hm.
  - apply checked_add_u64_Some in Hm as [-> _]. apply (update_charge_ok j id c); cbn; try done; [lia|].
    intros r Hr. destruct (jo_jobs j Hj _ r Hr) as (_ & _ & Ho & _).
    unfold owner_of at 2 3. cbn. lia.
  - replace (set_jb_state _ j) with j; [done|]. destruct j as [[]]. unfold set_jb_state, drop_bytes, add_bytes. cbn.
    by rewrite Z.add_simpl_r.
Qed.

Definition op_bytes (op : a_op) : Z :=
  match op with
  | AReserve n | AGrow _ n | ABuffer _ n | AOwnedBuffer _ n | AOwnedGrow _ n | AChild _ n => n
  | _ => 0
  end.

Lemma held_Some j job : held job j = true → is_Some (jb_jobs j !! job).
Proof. unfold held. by case_match. Qed.

Lemma a_exec_ok j op : jobs_ok j → 0 ≤ op_bytes op → jobs_ok (a_exec a j op).
Proof.
  intros Hj Hn. destruct op; cbn in *.
  - by apply job_reserve_ok.
  - repeat case_match; [by apply with_terminal_callback_ok|done..].
  - repeat case_match; [by apply job_grow_ok|done..].
  - case_match; [by apply clone_job_ok|done].
  - case_match; [|done]. rewrite andb_true_iff in *. destruct_and!. by apply drop_strong_ok.
  - case_bool_decide; [by apply job_buffer_ok|done].
  - repeat case_match; try done. rewrite !andb_true_iff, !negb_true_iff, Nat.eqb_neq in *. destruct_and!. by apply merge_ok.
  - repeat case_match; try done. rewrite !andb_true_iff, !negb_true_iff in *. destruct_and!. by apply into_owned_ok.
  - case_match; [|done]. by apply owned_buffer_ok; [..|apply held_Some].
  - repeat case_match; [by apply owned_grow_ok|done..].
  - repeat case_match; [|done..]. apply owned_buffer_ok; [done..|]. by eapply jo_charges.
  - repeat case_match; [by apply drop_charge_ok|done..].
  - by destruct Hj.
Qed.

End invariant.

Lemma a_run_ok a j ops :
  jobs_ok a j → Forall (λ op, 0 ≤ op_bytes op) ops → jobs_ok a (a_run a j ops).
Proof.
  intros Hj Hops. revert j Hj. induction Hops as [|op ops Hop _ IH]; intros j Hj; [done|]. by apply IH, a_exec_ok.
Qed.

Lemma no_jobs_ok a : 0 ≤ max_slots a → 0 ≤ max_bytes a → jobs_ok a (no_jobs (mkState 0 0 false)).
Proof.
  intros ? ?. split; cbn; rewrite ?msum_empty; try done; [by split; [constructor|set_solver]|]. set_solver.
Qed.

Lemma no_jobs_no_charges a j : jobs_ok a j → jb_jobs j = ∅ → jb_charges j = ∅.
Proof.
  intros Hj E. apply map_empty. intros id. destruct (jb_charges j !! id) as [c|] eqn:Hc; [|done].
  apply (jo_charges a j Hj) in Hc as (_ & [r Hr] & _). by rewrite E in Hr.
Qed.

(** C32. Whatever the jobs of a process do with an admission, its counters are
    exact: the slots are the live reservations and the bytes are theirs plus those
    of the buffer charges, both within the limits. A charge keeps its reservation
    alive, and a live reservation has a reference for each owned charge. A
    reservation is granted exactly when the admission is open and both limits have
    room, a buffer charge exactly when the bytes have. A registered callback runs
    once, when its reservation is gone, and when all are gone nothing stays
    charged. *)
Theorem admission_exact ms mb a s ops :
  QueueAdmission_new ms mb = Ok (a, s) → 0 ≤ ms → 0 ≤ mb → Forall (λ op, 0 ≤ op_bytes op) ops →
  let j := a_run a (no_jobs s) ops in
  let live := Z.of_nat (size (jb_jobs j)) in
  let charged := msum rs_bytes (jb_jobs j) + msum ch_bytes (jb_charges j) in
  usage (jb_state j) = (live, charged) ∧ live ≤ ms ∧ charged ≤ mb ∧
  (∀ id c, jb_charges j !! id = Some c → is_Some (jb_jobs j !! ch_job c)) ∧
  (∀ job r, jb_jobs j !! job = Some r → 0 < rs_strong r ∧ msum (owner_of job) (jb_charges j) ≤ rs_strong r) ∧
  (∀ n, 0 ≤ n →
     (is_ok (reserve a (jb_state j) n).1 = true ↔ adm_closed (jb_state j) = false ∧ live < ms ∧ charged + n ≤ mb) ∧
     (is_ok (buffer a (jb_state j) n).1 = true ↔ charged + n ≤ mb)) ∧
  NoDup (jb_fired j) ∧ (∀ job, job ∈ jb_registered j → job ∈ jb_fired j ↔ jb_jobs j !! job = None) ∧
  (jb_jobs j = ∅ → usage (jb_state j) = (0, 0)).
Proof.
  intros Hnew Hms Hmb Hops j live charged. unfold QueueAdmission_new in Hnew.
  destruct (_ || _); [done|]. injection Hnew as <- <-.
  set (a := mkQueueAdmission ms mb) in *.
  assert (jobs_ok a j) as Hj by (apply a_run_ok; [by apply no_jobs_ok|done]).
  pose proof (no_jobs_no_charges a j Hj) as Hempty. destruct Hj as [[Hs Hsl] [Hb Hbl] Hjobs Hch [Hnd Hf] Hreg].
  assert (usage (jb_state j) = (live, charged)) as Hu by (unfold usage; by rewrite Hs, Hb).
  change (max_slots a) with ms in *. change (max_bytes a) with mb in *.
  split_and!; [done|subst live; lia|subst charged; lia|by intros id c ?%Hch; naive_solver|by intros job r ?%Hjobs; naive_solver| |done| |].
  - intros n Hn. unfold reserve, buffer, saturating_sub_u64. change (max_slots a) with ms. change (max_bytes a) with mb.
    subst live charged. rewrite Hs, Hb. destruct (Z.ltb_spec (Z.max 0 (mb - (msum rs_bytes (jb_jobs j) + msum ch_bytes (jb_charges j)))) n),
      (Z.leb_spec ms (Z.of_nat (size (jb_jobs j)))), (adm_closed (jb_state j)); cbn; split; split; try done; lia.
  - intros job Hin. rewrite Hreg in Hin. split; [by intros [? _]%Hf|]. destruct Hin as [?|(r & Hr & _)]; [done|congruence].
  - intros E. rewrite Hu. subst live charged. rewrite (Hempty E), E. by rewrite !msum_empty.
Qed.

(** A job grows, lends its buffer to a worker, is dropped by its caller and ends
    with the worker's charge. *)
Definition admission_ops : list a_op :=
  [AReserve 10; ACallback 0; AGrow 0 5; AOwnedBuffer 0 20; AChild 1 30; ADrop 0; AReserve 30; ADropCharge 1; ADropCharge 2].

Lemma admission_exact_witness :
  ∃ a s, QueueAdmission_new 2 100 = Ok (a, s) ∧
  let j := a_run a (no_jobs s) admission_ops in
  usage (jb_state j) = (1, 30) ∧ jb_fired j = [0%nat] ∧
  (is_ok (reserve a (jb_state j) 60).1 = true ↔
   adm_closed (jb_state j) = false ∧ Z.of_nat (size (jb_jobs j)) < 2 ∧
   msum rs_bytes (jb_jobs j) + msum ch_bytes (jb_charges j) + 60 ≤ 100).
Proof.
  exists (mkQueueAdmission 2 100), (mkState 0 0 false). split; [reflexivity|].
  assert (Forall (λ op, 0 ≤ op_bytes op) admission_ops) as Hops by (repeat constructor; done).
  pose proof (admission_exact 2 100 (mkQueueAdmission 2 100) (mkState 0 0 false) admission_ops eq_refl
    ltac:(lia) ltac:(lia) Hops) as (_ & _ & _ & _ & _ & H & _).
  split; [vm_compute; reflexivity|]. split; [vm_compute; reflexivity|]. apply (H 60). lia.
Defined.
