(* ===== verification/UniqueStream.v ===== *)
(** The streamed uniqueness check: the reducer of one unique tuple of
    [fireweed-engine/src/queue_unique_stream.rs] and the loop over a grouped
    evidence stream of [fireweed-queue-spool/src/evidence.rs]. Reading the spool is a
    list of rows; the bytes counted are those the reducer retains. *)
From S2P Require Import Prelude Identity Field Records Commit FieldView Snapshot Uniqueness.
From S2P Require Import CommitPlan UniquePlan Admission.

(** ** Evidence *)

Inductive UniqueClaimOrigin := OriginAdministrative | OriginOrdinary.
#[export] Instance UniqueClaimOrigin_eq_dec : EqDecision UniqueClaimOrigin.
Proof. solve_decision. Defined.

Inductive ScratchUniqueEffect :=
| ERelease (owner : RecordIdentity)
| EClaim (owner : RecordIdentity) (origin : UniqueClaimOrigin)
| EObserve.

Record ScratchUniqueEvidence := mkScratchUniqueEvidence {
  se_loaded : bool;
  se_owner : option RecordIdentity;
  se_effect : ScratchUniqueEffect;
}.

(** Evidence with the tuple it is about ([borrowed]). *)
Record UniqueEvidence := mkUniqueEvidence {
  ue_tuple : UniqueIdentity;
  ue_loaded : bool;
  ue_owner : option RecordIdentity;
  ue_effect : ScratchUniqueEffect;
}.
Definition borrowed (x : ScratchUniqueEvidence) (tuple : UniqueIdentity) : UniqueEvidence :=
  mkUniqueEvidence tuple (se_loaded x) (se_owner x) (se_effect x).

Record UniqueTupleDecision := mkUniqueTupleDecision {
  administrative_collision : bool;
  final_collision : bool;
}.

(** ** The reducer *)

Definition collection_of (t : UniqueIdentity) : option string := t.1.1.

Definition checked_mul_u64 (x y : Z) : option Z := if x * y <=? u64_max then Some (x * y) else None.

(** [RetainedOwner::copy]: the owner and the bytes charged for it. *)
Definition retained_bytes (owner : RecordIdentity) : QueueResult Z :=
  ok_or (n ← checked_add_u64 (byte_len (as_bytes owner.2)) (from_option (λ c, byte_len (as_bytes c)) 0 owner.1);
         n ← checked_mul_u64 n 4; checked_add_u64 n 1024) (unknown "unique owner allocation overflow").
Definition RetainedOwner : Type := RecordIdentity * Z.

Record UniqueTupleReducer := mkUniqueTupleReducer {
  ur_tuple : UniqueIdentity;
  ur_initial : option RecordIdentity;
  ur_released : bool;
  ur_claimant : option RetainedOwner;
  ur_administrative : option RetainedOwner;
  ur_administrative_collision : bool;
  ur_final_collision : bool;
  ur_poisoned : bool;
}.

Definition reducer_new (tuple : UniqueIdentity) (loaded : bool) (initial : option RecordIdentity)
    : QueueResult UniqueTupleReducer :=
  if negb loaded || from_option (λ o : RecordIdentity, negb (bool_decide (o.1 = collection_of tuple))) false initial
  then Err (unknown "unique tuple initial authority invalid")
  else Ok (mkUniqueTupleReducer tuple initial false None None false false false).

Definition set_released (r : UniqueTupleReducer) : UniqueTupleReducer :=
  mkUniqueTupleReducer (ur_tuple r) (ur_initial r) true (ur_claimant r) (ur_administrative r)
    (ur_administrative_collision r) (ur_final_collision r) (ur_poisoned r).
Definition set_claimant (c : option RetainedOwner) (collision : bool) (r : UniqueTupleReducer) : UniqueTupleReducer :=
  mkUniqueTupleReducer (ur_tuple r) (ur_initial r) (ur_released r) c (ur_administrative r)
    (ur_administrative_collision r) collision (ur_poisoned r).
Definition set_administrative (c : option RetainedOwner) (collision : bool) (r : UniqueTupleReducer)
    : UniqueTupleReducer :=
  mkUniqueTupleReducer (ur_tuple r) (ur_initial r) (ur_released r) (ur_claimant r) c collision
    (ur_final_collision r) (ur_poisoned r).
Definition set_poisoned (b : bool) (r : UniqueTupleReducer) : UniqueTupleReducer :=
  mkUniqueTupleReducer (ur_tuple r) (ur_initial r) (ur_released r) (ur_claimant r) (ur_administrative r)
    (ur_administrative_collision r) (ur_final_collision r) b.

Section reducer.
Context (a : QueueAdmission).

Definition copy_owner (s : State) (owner : RecordIdentity) : QueueResult RetainedOwner * State :=
  match retained_bytes owner with
  | Err e => (Err e, s)
  | Ok n => let '(r, s) := buffer a s n in (_ ← r; Ok (owner, n), s)
  end.

(** The first claimant is copied, a later one is compared with it. *)
Definition retain_first (s : State) (first : option RetainedOwner) (collision : bool) (owner : RecordIdentity)
    : QueueResult (option RetainedOwner * bool) * State :=
  match first with
  | Some c => (Ok (first, collision || negb (bool_decide (c.1 = owner))), s)
  | None => let '(r, s) := copy_owner s owner in (c ← r; Ok (Some c, collision), s)
  end.

Definition observe_checked (s : State) (r : UniqueTupleReducer) (ev : UniqueEvidence)
    : QueueResult unit * UniqueTupleReducer * State :=
  if negb (bool_decide (ue_tuple ev = ur_tuple r)) || negb (ue_loaded ev) ||
     negb (bool_decide (ue_owner ev = ur_initial r))
  then (Err (unknown "contradictory unique tuple initial authority"), r, s)
  else match ue_effect ev with
  | EObserve => (Ok tt, r, s)
  | ERelease owner =>
      if negb (bool_decide (ur_initial r = Some owner)) || negb (bool_decide (owner.1 = collection_of (ur_tuple r)))
      then (Err (unknown "released tuple lacks exact initial owner"), r, s)
      else (Ok tt, set_released r, s)
  | EClaim owner origin =>
      if negb (bool_decide (owner.1 = collection_of (ur_tuple r))) ||
         (bool_decide (origin = OriginAdministrative) && bool_decide (is_Some owner.1))
      then (Err (unknown "unique claimant collection mismatch"), r, s)
      else match retain_first s (ur_claimant r) (ur_final_collision r) owner with
      | (Err e, s) => (Err e, r, s)
      | (Ok (c, collision), s) =>
          let r := set_claimant c collision r in
          if bool_decide (origin = OriginAdministrative) then
            match retain_first s (ur_administrative r) (ur_administrative_collision r) owner with
            | (Err e, s) => (Err e, r, s)
            | (Ok (c, collision), s) => (Ok tt, set_administrative c collision r, s)
            end
          else (Ok tt, r, s)
      end
  end.

Definition observe (s : State) (r : UniqueTupleReducer) (ev : UniqueEvidence)
    : QueueResult unit * UniqueTupleReducer * State :=
  if ur_poisoned r then (Err (unknown "unique tuple reducer poisoned"), r, s)
  else
    let '(result, r, s) := observe_checked s (set_poisoned true r) ev in
    (result, if is_ok result then set_poisoned false r else r, s).

(** Dropping the reducer drops the charges of its retained owners. *)
Definition drop_reducer (r : UniqueTupleReducer) (s : State) : State :=
  drop_bytes (from_option snd 0 (ur_claimant r)) (drop_bytes (from_option snd 0 (ur_administrative r)) s).

Definition finish_with (r : UniqueTupleReducer) (callback : option RecordIdentity → QueueResult unit)
    : QueueResult UniqueTupleDecision :=
  if ur_poisoned r then Err (unknown "poisoned unique tuple cannot finish")
  else
    let blocked_by_initial :=
      match ur_claimant r, ur_initial r with
      | Some c, Some owner => negb (bool_decide (owner = c.1)) && negb (ur_released r)
      | _, _ => false
      end in
    let decision := mkUniqueTupleDecision (ur_administrative_collision r) (ur_final_collision r || blocked_by_initial) in
    if negb (administrative_collision decision) && negb (final_collision decision) then
      _ ← callback (match ur_claimant r with
                    | Some c => Some c.1
                    | None => if ur_released r then None else ur_initial r
                    end);
      Ok decision
    else Ok decision.
Definition finish (r : UniqueTupleReducer) : QueueResult UniqueTupleDecision := finish_with r (λ _, Ok tt).

(** ** The loop over the spool *)

(** The inner loop: the rows of the same tuple, and the rows after them. *)
Fixpoint observe_group (s : State) (r : UniqueTupleReducer) (key : UniqueIdentity)
    (rows : list (UniqueIdentity * ScratchUniqueEvidence))
    : QueueResult unit * UniqueTupleReducer * State * list (UniqueIdentity * ScratchUniqueEvidence) :=
  match rows with
  | [] => (Ok tt, r, s, [])
  | (t, x) :: rest =>
      if bool_decide (t = key) then
        match observe s r (borrowed x key) with
        | (Ok _, r, s) => observe_group s r key rest
        | (Err e, r, s) => (Err e, r, s, rest)
        end
      else (Ok tt, r, s, rows)
  end.

(** The outer loop; an error leaves the loop and drops the reducer. *)
Fixpoint reduce_loop (fuel : nat) (s : State) (overall : UniqueTupleDecision)
    (rows : list (UniqueIdentity * ScratchUniqueEvidence)) : option (QueueResult UniqueTupleDecision * State) :=
  match rows with
  | [] => Some (Ok overall, s)
  | (key, x) :: _ =>
      match fuel with
      | O => None
      | S fuel =>
          match reducer_new key (se_loaded x) (se_owner x) with
          | Err e => Some (Err e, s)
          | Ok r =>
              match observe_group s r key rows with
              | (Err e, r, s, _) => Some (Err e, drop_reducer r s)
              | (Ok _, r, s, rest) =>
                  match finish r with
                  | Err e => Some (Err e, drop_reducer r s)
                  | Ok d =>
                      reduce_loop fuel (drop_reducer r s)
                        (mkUniqueTupleDecision (administrative_collision overall || administrative_collision d)
                           (final_collision overall || final_collision d)) rest
                  end
              end
          end
      end
  end.

Definition reduce_evidence (s : State) (rows : list (UniqueIdentity * ScratchUniqueEvidence))
    : option (QueueResult UniqueTupleDecision * State) :=
  reduce_loop (length rows) s (mkUniqueTupleDecision false false) rows.

End reducer.

(** ** What a reducer has seen *)

Definition is_release (e : ScratchUniqueEffect) : bool := match e with ERelease _ => true | _ => false end.
Definition claimants (l : list ScratchUniqueEffect) : list RecordIdentity :=
  omap (λ e, match e with EClaim o _ => Some o | _ => None end) l.
Definition administrators (l : list ScratchUniqueEffect) : list RecordIdentity :=
  omap (λ e, match e with EClaim o OriginAdministrative => Some o | _ => None end) l.
(** Some element differs from the first. *)
Definition collides (owners : list RecordIdentity) : bool :=
  match owners with [] => false | o :: os => existsb (λ x, negb (bool_decide (o = x))) os end.
Definition differs (first : option RecordIdentity) (o : RecordIdentity) : bool :=
  from_option (λ x, negb (bool_decide (x = o))) false first.

Lemma head_snoc {A} (l : list A) x : head (l ++ [x]) = Some (default x (head l)).
Proof. by destruct l. Qed.
Lemma collides_snoc l x : collides (l ++ [x]) = collides l || differs (head l) x.
Proof. destruct l as [|o l]; [done|]. cbn. by rewrite existsb_app; cbn; rewrite orb_false_r. Qed.
Lemma collides_false l : collides l = false ↔ ∀ x y, x ∈ l → y ∈ l → x = y.
Proof.
  destruct l as [|o l]; cbn; [by split; [intros _ x y ?%elem_of_nil|]|]. rewrite <-not_true_iff_false, existsb_exists. split.
  - intros H. assert (∀ x, x ∈ o :: l → o = x) as Ho;
      [|intros x y Hx Hy; by rewrite <-(Ho x Hx), <-(Ho y Hy)].
    intros x [->|Hx]%elem_of_cons; [done|]. destruct (decide (o = x)); [done|]. destruct H. exists x.
    by rewrite negb_true_iff, bool_decide_eq_false, <-list_elem_of_In.
  - intros H (x & Hx%list_elem_of_In & Hne). apply negb_true_iff, bool_decide_eq_false in Hne. apply Hne, H; rewrite elem_of_cons; auto.
Qed.

Lemma add_bytes_add m n s : add_bytes m (add_bytes n s) = add_bytes (n + m) s.
Proof. unfold add_bytes. cbn. by rewrite Z.add_assoc. Qed.

Definition retained_size (c : option RetainedOwner) : Z := from_option snd 0 c.
#[local] Arguments retained_size : simpl never.

Section reducer_facts.
Context (a : QueueAdmission) (s0 : State) (cap : Z).
Hypothesis Hroom : used_bytes s0 + 2 * cap ≤ max_bytes a.

Definition copyable (o : RecordIdentity) : Prop := ∃ n, retained_bytes o = Ok n ∧ 0 ≤ n ≤ cap.

Lemma retain_first_ok s first collision o :
  copyable o → used_bytes s - retained_size first + cap ≤ max_bytes a → 0 ≤ retained_size first ≤ cap →
  ∃ c, retain_first a s first collision o =
         (Ok (c, collision || differs (fst <$> first) o), add_bytes (retained_size c - retained_size first) s) ∧
       fst <$> c = Some (default o (fst <$> first)) ∧ 0 ≤ retained_size c ≤ cap.
Proof.
  intros (n & Hn & ?) Hs Hf. unfold retained_size in *. destruct first as [c|]; cbn in *.
  - exists (Some c). rewrite Z.sub_diag, add_bytes_0. done.
  - exists (Some (o, n)). unfold copy_owner, buffer. rewrite Hn. cbn.
    destruct (Z.ltb_spec (saturating_sub_u64 (max_bytes a) (used_bytes s)) n) as [Hlt|_].
    { unfold saturating_sub_u64 in Hlt. lia. }
    cbn. by rewrite Z.sub_0_r, orb_false_r.
Qed.

Definition good_effect (t : UniqueIdentity) (initial : option RecordIdentity) (e : ScratchUniqueEffect) : Prop :=
  match e with
  | EObserve => True
  | ERelease o => initial = Some o ∧ o.1 = collection_of t
  | EClaim o origin => o.1 = collection_of t ∧ (origin = OriginAdministrative → o.1 = None) ∧ copyable o
  end.

Record reduced (t : UniqueIdentity) (initial : option RecordIdentity) (l : list ScratchUniqueEffect)
    (r : UniqueTupleReducer) (s : State) : Prop := {
  rd_tuple : ur_tuple r = t;
  rd_initial : ur_initial r = initial;
  rd_poisoned : ur_poisoned r = false;
  rd_released : ur_released r = existsb is_release l;
  rd_claimant : fst <$> ur_claimant r = head (claimants l);
  rd_final : ur_final_collision r = collides (claimants l);
  rd_administrative : fst <$> ur_administrative r = head (administrators l);
  rd_collision : ur_administrative_collision r = collides (administrators l);
  rd_state : s = add_bytes (retained_size (ur_claimant r) + retained_size (ur_administrative r)) s0;
  rd_sizes : 0 ≤ retained_size (ur_claimant r) ≤ cap ∧ 0 ≤ retained_size (ur_administrative r) ≤ cap;
}.

Lemma reducer_new_ok t initial :
  (∀ o, initial = Some o → o.1 = collection_of t) → 0 ≤ cap →
  ∃ r, reducer_new t true initial = Ok r ∧ reduced t initial [] r s0.
Proof.
  intros Hinit ?. unfold reducer_new. cbn. destruct initial as [o|]; cbn.
  1: rewrite bool_decide_eq_true_2 by (by apply Hinit); cbn.
  all: eexists; split; [done|]; split; cbn; rewrite ?add_bytes_0; (done || by unfold retained_size; cbn).
Qed.

Lemma observe_ok t initial l r s x :
  reduced t initial l r s → se_loaded x = true → se_owner x = initial → good_effect t initial (se_effect x) →
  ∃ r' s', observe a s r (borrowed x t) = (Ok tt, r', s') ∧ reduced t initial (l ++ [se_effect x]) r' s'.
Proof.
  intros [H1 H2 H3 H4 H5 H6 H7 H8 H9 H10] Hl Ho Hg. unfold observe, observe_checked. rewrite H3. cbn.
  rewrite H1, H2, Hl, Ho, !bool_decide_eq_true_2 by done. cbn.
  destruct (se_effect x) as [o|o origin|]; cbn in Hg.
  - destruct Hg as [Hi Hc]. rewrite !bool_decide_eq_true_2 by done. cbn. eexists _, _. split; [done|].
    split; cbn; try done.
    all: rewrite ?existsb_app, ?orb_true_r; unfold claimants, administrators; rewrite ?omap_app; cbn; by rewrite ?app_nil_r.
  - destruct Hg as (Hc & Hadm & Hcopy). rewrite (bool_decide_eq_true_2 (o.1 = _)) by done. cbn.
    assert (bool_decide (origin = OriginAdministrative) && bool_decide (is_Some o.1) = false) as ->.
    { destruct (decide (origin = OriginAdministrative)) as [E|E]; [|by rewrite bool_decide_eq_false_2].
      by rewrite (Hadm E), andb_false_r. }
    destruct (retain_first_ok s (ur_claimant r) (ur_final_collision r) o) as (c & -> & Hfst & Hsize);
      [done|subst s; cbn; lia|apply H10|].
    destruct (decide (origin = OriginAdministrative)) as [->|Hord]; cbn.
    + rewrite bool_decide_eq_true_2 by done. cbn.
      destruct (retain_first_ok (add_bytes (retained_size c - retained_size (ur_claimant r)) s) (ur_administrative r)
        (ur_administrative_collision r) o) as (d & -> & Hfst' & Hsize'); [done|subst s; cbn; lia|apply H10|].
      eexists _, _. split; [done|]. split; cbn; try done.
      all: rewrite ?existsb_app; unfold claimants, administrators; rewrite ?omap_app; cbn; rewrite ?head_snoc, ?collides_snoc.
      all: rewrite ?orb_false_r, ?Hfst, ?Hfst', ?H5, ?H6, ?H7, ?H8; try done.
      subst s. rewrite !add_bytes_add. f_equal. lia.
    + rewrite bool_decide_eq_false_2 by done. cbn. destruct origin; [done|].
      eexists _, _. split; [done|]. split; cbn; try done.
      all: rewrite ?existsb_app; unfold claimants, administrators; rewrite ?omap_app; cbn;
        rewrite ?app_nil_r, ?head_snoc, ?collides_snoc, ?orb_false_r, ?Hfst, ?H5, ?H6, ?H7, ?H8; try done.
      { subst s. rewrite !add_bytes_add. f_equal. lia. }
      split; [done|apply H10].
  - eexists _, _. split; [done|]. split; cbn; try done.
    all: rewrite ?existsb_app, ?orb_false_r; unfold claimants, administrators; rewrite ?omap_app; cbn; by rewrite ?app_nil_r.
Qed.

(** The decision and the final owner that a sequence of effects amounts to. *)
Definition decision_of (initial : option RecordIdentity) (l : list ScratchUniqueEffect) : UniqueTupleDecision :=
  mkUniqueTupleDecision (collides (administrators l))
    (collides (claimants l) ||
     match head (claimants l), initial with
     | Some c, Some o => negb (bool_decide (o = c)) && negb (existsb is_release l)
     | _, _ => false
     end).
Definition owner_after (initial : option RecordIdentity) (l : list ScratchUniqueEffect) : option RecordIdentity :=
  match head (claimants l) with
  | Some c => Some c
  | None => if existsb is_release l then None else initial
  end.

Lemma finish_with_reduced t initial l r s callback :
  reduced t initial l r s →
  finish_with r callback =
    (let d := decision_of initial l in
     if negb (administrative_collision d) && negb (final_collision d)
     then _ ← callback (owner_after initial l); Ok d else Ok d).
Proof.
  intros [H1 H2 H3 H4 H5 H6 H7 H8 _ _]. unfold finish_with, decision_of, owner_after. rewrite H3, H2, H4, H6, H8, <-H5. cbn.
  by destruct (ur_claimant r) as [c|].
Qed.

Lemma finish_reduced t initial l r s : reduced t initial l r s → finish r = Ok (decision_of initial l).
Proof. intros Hr. unfold finish. rewrite (finish_with_reduced _ _ _ _ _ _ Hr). cbn. by case_match. Qed.

Lemma drop_reduced t initial l r s : reduced t initial l r s → drop_reducer r s = s0.
Proof.
  intros [_ _ _ _ _ _ _ _ -> _]. unfold drop_reducer, drop_bytes, add_bytes, retained_size. destruct s0. cbn. f_equal. lia.
Qed.

Lemma observe_group_reduced t initial l r s xs rest :
  reduced t initial l r s →
  Forall (λ x, se_loaded x = true ∧ se_owner x = initial ∧ good_effect t initial (se_effect x)) xs →
  (∀ y, head rest = Some y → y.1 ≠ t) →
  ∃ r' s', observe_group a s r t (((t,.) <$> xs) ++ rest) = (Ok tt, r', s', rest) ∧
           reduced t initial (l ++ (se_effect <$> xs)) r' s'.
Proof.
  intros Hr Hxs Hrest. revert l r s Hr. induction Hxs as [|x xs (Hl & Ho & Hg) _ IH]; intros l r s Hr; cbn.
  - exists r, s. rewrite app_nil_r. split; [|done]. destruct rest as [|[t' x] rest]; [done|]. cbn.
    rewrite bool_decide_eq_false_2; [done|]. by apply (Hrest (t', x)).
  - rewrite bool_decide_eq_true_2 by done. destruct (observe_ok t initial l r s x) as (r1 & s1 & -> & Hr1); [done..|].
    destruct (IH _ _ _ Hr1) as (r2 & s2 & -> & Hr2). exists r2, s2. by rewrite <-app_assoc in Hr2.
Qed.

(** A stream grouped by tuple. *)
Definition rows_of (groups : list (UniqueIdentity * list ScratchUniqueEvidence))
    : list (UniqueIdentity * ScratchUniqueEvidence) :=
  groups ≫= λ g, (g.1,.) <$> g.2.
Definition group_decision (owners : gmap UniqueIdentity RecordIdentity)
    (g : UniqueIdentity * list ScratchUniqueEvidence) : UniqueTupleDecision :=
  decision_of (owners !! g.1) (se_effect <$> g.2).
Definition good_group (owners : gmap UniqueIdentity RecordIdentity)
    (g : UniqueIdentity * list ScratchUniqueEvidence) : Prop :=
  g.2 ≠ [] ∧ (∀ o, owners !! g.1 = Some o → o.1 = collection_of g.1) ∧
  Forall (λ x, se_loaded x = true ∧ se_owner x = owners !! g.1 ∧ good_effect g.1 (owners !! g.1) (se_effect x)) g.2.

Lemma rows_head groups y :
  Forall (λ g : UniqueIdentity * list ScratchUniqueEvidence, g.2 ≠ []) groups →
  head (rows_of groups) = Some y → y.1 ∈ groups.*1.
Proof.
  intros Hne Hy. destruct groups as [|[t [|x xs]] groups]; [done| |]; cbn in *; [by inversion Hne|].
  simplify_eq. apply elem_of_cons. by left.
Qed.

Lemma reduce_loop_groups fuel owners groups d :
  0 ≤ cap → (length (rows_of groups) ≤ fuel)%nat → NoDup groups.*1 → Forall (good_group owners) groups →
  reduce_loop a fuel s0 d (rows_of groups) =
    Some (Ok (mkUniqueTupleDecision
                (administrative_collision d || existsb (λ g, administrative_collision (group_decision owners g)) groups)
                (final_collision d || existsb (λ g, final_collision (group_decision owners g)) groups)), s0).
Proof.
  intros Hcap. revert fuel d. induction groups as [|[t xs] groups IH]; intros fuel d Hfuel Hnd Hgood.
  { destruct fuel, d; cbn; by rewrite !orb_false_r. }
  inversion Hnd as [|? ? Hnew Hnd']. inversion Hgood as [|? ? (Hne & Hown & Hxs) Hgood']. subst. cbn [fst snd] in *.
  destruct xs as [|x xs]; [done|].
  change (rows_of ((t, x :: xs) :: groups)) with ((t, x) :: ((t,.) <$> xs) ++ rows_of groups) in *.
  destruct fuel as [|fuel]; [cbn in Hfuel; lia|].
  pose proof (Forall_inv Hxs) as (Hl & Ho & _). destruct (reducer_new_ok t (owners !! t)) as (r & Hnew' & Hr); [done..|].
  destruct (observe_group_reduced t (owners !! t) [] r s0 (x :: xs) (rows_of groups)) as (r1 & s1 & Hg & Hr1); [done..| |].
  { intros y Hy Heq. apply Hnew. rewrite <-Heq. apply rows_head; [|done].
    eapply Forall_impl; [exact Hgood'|]. by intros ? []. }
  change (((t,.) <$> x :: xs) ++ rows_of groups) with ((t, x) :: ((t,.) <$> xs) ++ rows_of groups) in Hg.
  cbn [reduce_loop]. rewrite Hl, Ho, Hnew', Hg.
  rewrite (finish_reduced _ _ _ _ _ Hr1), (drop_reduced _ _ _ _ _ Hr1), IH; [|cbn in Hfuel; rewrite length_app in Hfuel; lia|done..].
  cbn. by rewrite !orb_assoc.
Qed.

End reducer_facts.

(** ** Agreement with the in-memory check *)

(** The evidence of one tuple: authority from the snapshot, and exactly the
    releases and claims of the effects, in any order and number. *)
Record evidences (cap : Z) (e : UniqueFieldEffects) (initial : RecordSnapshot) (t : UniqueIdentity)
    (l : list ScratchUniqueEvidence) : Prop := {
  ev_authority : Forall (λ x, se_loaded x = true ∧ se_owner x = unique_owners initial !! t) l;
  ev_releases o : ERelease o ∈ se_effect <$> l ↔ releases e !! t = Some o;
  ev_claims o : (∃ origin, EClaim o origin ∈ se_effect <$> l) ↔ (t, o) ∈ claims e;
  ev_administrative o : EClaim o OriginAdministrative ∈ se_effect <$> l → o.1 = None;
  ev_sizes o : (t, o) ∈ claims e → copyable cap o;
}.

(** The snapshot has authority over every released and claimed tuple, and
    owners are of the tuple's collection. *)
Record authority (e : UniqueFieldEffects) (initial : RecordSnapshot) : Prop := {
  au_releases t o : releases e !! t = Some o → t ∈ unique_probes_loaded initial ∧ unique_owners initial !! t = Some o;
  au_claims t o : (t, o) ∈ claims e → t ∈ unique_probes_loaded initial ∧ o.1 = collection_of t;
  au_owners t o : unique_owners initial !! t = Some o → o.1 = collection_of t;
}.

Definition tuple_clear (e : UniqueFieldEffects) (initial : RecordSnapshot) (t : UniqueIdentity) : Prop :=
  ∀ o, (t, o) ∈ claims e →
    (∀ o', (t, o') ∈ claims e → o' = o) ∧
    (∀ o', unique_owners initial !! t = Some o' → o' = o ∨ releases e !! t = Some o').

Lemma check_claims_intro e s seen l :
  (∀ t o, (t, o) ∈ l → t ∈ unique_probes_loaded s ∧ (∀ o', seen !! t = Some o' → o' = o) ∧
     (∀ o', (t, o') ∈ l → o' = o) ∧ (∀ o', unique_owners s !! t = Some o' → o' = o ∨ releases e !! t = Some o')) →
  check_claims e s seen l = Ok (Ok tt).
Proof.
  revert seen. induction l as [|[t o] l IH]; intros seen H; [done|]. cbn.
  destruct (H t o) as (Hl & Hs & Ho & Hi); [apply elem_of_cons; auto|]. rewrite bool_decide_eq_true_2 by done. cbn.
  assert (is_none_or (seen !! t) (λ old, bool_decide (old = o)) = true) as ->.
  { destruct (seen !! t) as [o'|]; [|done]. cbn. by apply bool_decide_eq_true, Hs. }
  cbn. case_match eqn:Hb.
  { destruct (unique_owners s !! t) as [o'|]; [|done]. rewrite andb_true_iff, !negb_true_iff, !bool_decide_eq_false in Hb.
    naive_solver. }
  apply IH. intros t' o' Hin. destruct (H t' o') as (? & ? & Ho' & ?); [apply elem_of_cons; auto|].
  split_and!; [done| | |done].
  - intros x [[-> <-]|[_ ?]]%lookup_insert_Some; [|auto]. apply Ho'. apply elem_of_cons; auto.
  - intros x Hx. apply Ho'. apply elem_of_cons; auto.
Qed.

Lemma check_claims_loaded e s seen l :
  (∀ t o, (t, o) ∈ l → t ∈ unique_probes_loaded s) →
  check_claims e s seen l = Ok (Ok tt) ∨ check_claims e s seen l = Ok (Err UniqueConflict).
Proof.
  revert seen. induction l as [|[t o] l IH]; intros seen H; [by left|]. cbn.
  rewrite bool_decide_eq_true_2 by (apply (H t o), elem_of_cons; auto). cbn.
  case_match; [by right|]. case_match; [by right|]. apply IH. intros t' o' ?. apply (H t' o'), elem_of_cons. auto.
Qed.

Lemma effects_validate_spec e s :
  authority e s →
  (effects_validate e s = Ok (Ok tt) ∧ (∀ t, tuple_clear e s t)) ∨
  (effects_validate e s = Ok (Err UniqueConflict) ∧ ¬ (∀ t, tuple_clear e s t)).
Proof.
  intros Hau. assert (effects_validate e s = check_claims e s ∅ (claims e)) as ->.
  { unfold effects_validate. set (check := λ r : UniqueIdentity * RecordIdentity, _).
    enough (try_for_each check (map_to_list (releases e)) = Ok tt) as -> by done.
    apply try_for_each_Ok, Forall_forall. intros [t o] Hin%elem_of_map_to_list.
    destruct (au_releases e s Hau t o Hin). subst check. cbn. by rewrite !bool_decide_eq_true_2. }
  destruct (check_claims_loaded e s ∅ (claims e)) as [Hc|Hc]; [by intros t o ?; eapply au_claims| |]; rewrite Hc.
  - left. split; [done|]. intros t o Hin. by destruct (check_claims_Ok _ _ _ _ Hc t o Hin) as (_ & _ & ? & ?).
  - right. split; [done|]. intros Hclear. rewrite check_claims_intro in Hc; [done|]. intros t o Hin.
    destruct (Hclear t o Hin), (au_claims e s Hau t o Hin). split_and!; try done.
Qed.

Lemma elem_of_claimants l o : o ∈ claimants l ↔ ∃ origin, EClaim o origin ∈ l.
Proof.
  unfold claimants. rewrite list_elem_of_omap. split.
  - intros (x & Hx & Heq). destruct x; simplify_eq. eauto.
  - intros (origin & H). by exists (EClaim o origin).
Qed.
Lemma elem_of_administrators l o : o ∈ administrators l ↔ EClaim o OriginAdministrative ∈ l.
Proof.
  unfold administrators. rewrite list_elem_of_omap. split.
  - intros (x & Hx & Heq). destruct x as [|? []|]; by simplify_eq.
  - intros H. by exists (EClaim o OriginAdministrative).
Qed.
Lemma existsb_release l : existsb is_release l = true ↔ ∃ o, ERelease o ∈ l.
Proof.
  rewrite existsb_exists. setoid_rewrite <-list_elem_of_In. split.
  - intros ([] & ? & ?); try done. eauto.
  - intros (o & ?). by exists (ERelease o).
Qed.

Section agreement.
Context (cap : Z) (e : UniqueFieldEffects) (initial : RecordSnapshot) (t : UniqueIdentity) (l : list ScratchUniqueEvidence).
Hypothesis Hau : authority e initial.
Hypothesis Hev : evidences cap e initial t l.

Lemma claimants_claims o : o ∈ claimants (se_effect <$> l) ↔ (t, o) ∈ claims e.
Proof. by rewrite elem_of_claimants, (ev_claims _ _ _ _ _ Hev). Qed.

Lemma released_releases : existsb is_release (se_effect <$> l) = true ↔ is_Some (releases e !! t).
Proof. rewrite existsb_release. unfold is_Some. by setoid_rewrite (ev_releases _ _ _ _ _ Hev). Qed.

Lemma decision_clear :
  final_collision (decision_of (unique_owners initial !! t) (se_effect <$> l)) = false ↔ tuple_clear e initial t.
Proof.
  cbn. rewrite orb_false_iff, collides_false. setoid_rewrite claimants_claims. unfold tuple_clear.
  assert (∀ c, head (claimants (se_effect <$> l)) = Some c → (t, c) ∈ claims e) as Hhead.
  { intros c Hc. apply claimants_claims. destruct (claimants _); [done|]. cbn in Hc. simplify_eq. apply elem_of_cons. auto. }
  assert (∀ o, (t, o) ∈ claims e → is_Some (head (claimants (se_effect <$> l)))) as Hsome.
  { intros o Ho%claimants_claims. destruct (claimants _); [by apply elem_of_nil in Ho|done]. }
  pose proof released_releases as Hrel. split.
  - intros [Hsame Hblock] o Ho. split; [intros o' Ho'; by apply Hsame|]. intros o' Hown.
    destruct (Hsome o Ho) as [c Hc]. rewrite Hc, Hown in Hblock. assert (c = o) as -> by auto.
    destruct (decide (o' = o)) as [|Hne]; [by left|right]. rewrite bool_decide_eq_false_2 in Hblock by done.
    cbn in Hblock. apply negb_false_iff, Hrel in Hblock as [x Hx]. destruct (au_releases e initial Hau t x Hx). congruence.
  - intros Hclear. split; [intros x y Hx Hy; by apply (Hclear y Hy)|].
    destruct (head _) as [c|]; [|done]. destruct (unique_owners initial !! t) as [o|] eqn:Hown; [|done].
    destruct (Hclear c (Hhead c eq_refl)) as [_ Hb]. destruct (Hb o eq_refl) as [->|Hr];
      [by rewrite bool_decide_eq_true_2|]. rewrite (proj2 Hrel) by (rewrite Hr; eauto). by rewrite andb_false_r.
Qed.

Lemma administrative_final d :
  d = decision_of (unique_owners initial !! t) (se_effect <$> l) →
  final_collision d = false → administrative_collision d = false.
Proof.
  intros ->. cbn. rewrite orb_false_iff, !collides_false. intros [H _] x y Hx Hy.
  apply H; apply elem_of_claimants; eexists; by apply elem_of_administrators.
Qed.

Lemma owner_after_table :
  check_claims e initial ∅ (claims e) = Ok (Ok tt) →
  owner_after (unique_owners initial !! t) (se_effect <$> l) = owners_after e (unique_owners initial) !! t.
Proof.
  intros Hc. apply option_eq. intros o. rewrite (owners_after_lookup _ _ _ _ Hc). unfold owner_after.
  pose proof released_releases as Hrel. pose proof claimants_claims as Hcl.
  destruct (claimants (se_effect <$> l)) as [|c cs] eqn:E; cbn.
  - assert (t ∉ (claims e).*1) as Hno.
    { intros ([? x] & -> & Hx)%list_elem_of_fmap. apply Hcl in Hx. by apply elem_of_nil in Hx. }
    assert (∀ o, (t, o) ∉ claims e) by (intros x Hx%Hcl; by apply elem_of_nil in Hx).
    destruct (existsb _ _), (releases e !! t); naive_solver.
  - assert ((t, c) ∈ claims e) as Hin by (apply Hcl, elem_of_cons; auto).
    assert (t ∈ (claims e).*1) by (apply list_elem_of_fmap; by exists (t, c)).
    destruct (check_claims_Ok _ _ _ _ Hc t c Hin) as (_ & _ & Hsame & _). naive_solver.
Qed.

Lemma evidences_good :
  l ≠ [] → good_group cap (unique_owners initial) (t, l).
Proof.
  intros Hne. split_and!; [done|by intros o; apply (au_owners e initial Hau)|].
  apply Forall_forall. intros x Hx. cbn. destruct (proj1 (Forall_forall _ _) (ev_authority _ _ _ _ _ Hev) x Hx) as [? ?].
  split_and!; [done|done|]. assert (se_effect x ∈ se_effect <$> l) as Hin by (by apply list_elem_of_fmap_2).
  destruct (se_effect x) as [o|o origin|]; cbn; [| |done].
  - apply (ev_releases _ _ _ _ _ Hev) in Hin. destruct (au_releases e initial Hau t o Hin) as [_ Ho].
    split; [done|]. by apply (au_owners e initial Hau).
  - assert ((t, o) ∈ claims e) as Hcl by (apply (ev_claims _ _ _ _ _ Hev); eauto).
    split_and!; [by eapply au_claims|intros ->; by apply (ev_administrative _ _ _ _ _ Hev)|by apply (ev_sizes _ _ _ _ _ Hev)].
Qed.
End agreement.

Lemma collision_pair (l : list RecordIdentity) :
  ¬ (∀ x y, x ∈ l → y ∈ l → x = y) → ∃ x y, x ∈ l ∧ y ∈ l ∧ x ≠ y.
Proof.
  intros H. destruct (decide (Exists (λ x, Exists (λ y, x ≠ y) l) l)) as [Hx|Hx].
  - apply Exists_exists in Hx as (x & ? & (y & ? & ?)%Exists_exists). eauto.
  - destruct H. intros x y Hin Hiny. destruct (decide (x = y)); [done|]. destruct Hx.
    apply Exists_exists. exists x. split; [done|]. apply Exists_exists. eauto.
Qed.

(** One group of a stream without a conflict: the reducer reports the owner after the plan. *)
Lemma group_owner a s0 cap e initial t l :
  0 ≤ cap → used_bytes s0 + 2 * cap ≤ max_bytes a → authority e initial → l ≠ [] → evidences cap e initial t l →
  (∀ t, tuple_clear e initial t) →
  ∃ r0 r s, reducer_new t true (unique_owners initial !! t) = Ok r0 ∧
    observe_group a s0 r0 t ((t,.) <$> l) = (Ok tt, r, s, []) ∧
    ∀ callback, finish_with r callback =
      (_ ← callback (owners_after e (unique_owners initial) !! t); Ok (mkUniqueTupleDecision false false)).
Proof.
  intros Hcap Hroom Hau Hne Hev Hclear. destruct (evidences_good cap e initial t l Hau Hev Hne) as (_ & Hown & Hrows).
  destruct (reducer_new_ok s0 cap t (unique_owners initial !! t)) as (r0 & Hr0 & Hred); [done..|].
  destruct (observe_group_reduced a s0 cap Hroom t _ [] r0 s0 l [] Hred Hrows) as (r & s & Hobs & Hred'); [done|].
  rewrite app_nil_r in Hobs. exists r0, r, s. split_and!; [done|done|]. intros callback.
  rewrite (finish_with_reduced _ _ _ _ _ _ _ callback Hred'). cbn zeta. rewrite app_nil_l.
  pose proof (proj2 (decision_clear cap e initial t l Hau Hev) (Hclear t)) as Hfin.
  pose proof (administrative_final _ _ _ _ eq_refl Hfin) as Hadm. rewrite Hfin, Hadm. cbn [negb andb].
  rewrite (owner_after_table cap e initial t l Hev).
  - by destruct (decision_of _ _); cbn in *; subst.
  - apply check_claims_intro. intros t' o Hin. destruct (Hclear t' o Hin), (au_claims e initial Hau t' o Hin). by split_and!.
Qed.


(** A tuple passes from one record to another. *)
Definition stream_tuple : UniqueIdentity := (None, "by_u"%string, []).
Definition stream_from : RecordIdentity := (None, "a"%string).
Definition stream_to : RecordIdentity := (None, "b"%string).
Definition stream_effects : UniqueFieldEffects :=
  mkUniqueFieldEffects {[ stream_tuple := stream_from ]} [(stream_tuple, stream_to)].
Definition stream_initial : RecordSnapshot :=
  mkRecordSnapshot ∅ ∅ ∅ 0 {[ stream_tuple ]} {[ stream_tuple := stream_from ]}.
Definition stream_rows : list ScratchUniqueEvidence :=
  mkScratchUniqueEvidence true (Some stream_from) <$>
    [EObserve; EClaim stream_to OriginOrdinary; ERelease stream_from; EClaim stream_to OriginAdministrative].

Lemma stream_authority : authority stream_effects stream_initial.
Proof.
  split; cbn [releases claims unique_owners unique_probes_loaded stream_effects stream_initial]; intros t o.
  - intros [<- <-]%lookup_singleton_Some. split; [set_solver|apply lookup_singleton_eq].
  - intros [= -> ->]%list_elem_of_singleton. split; [set_solver|done].
  - by intros [<- <-]%lookup_singleton_Some.
Qed.

Lemma stream_evidences : evidences 1028 stream_effects stream_initial stream_tuple stream_rows.
Proof.
  split; cbn [releases claims unique_owners stream_effects stream_initial].
  - rewrite lookup_singleton_eq. repeat constructor.
  - intros o. rewrite lookup_singleton_eq. cbn. rewrite !elem_of_cons, elem_of_nil.
    split; [intros ?; destruct_or!; by simplify_eq|intros [= <-]; auto].
  - intros o. cbn. split.
    + intros (origin & Hin). rewrite !elem_of_cons, elem_of_nil in Hin.
      destruct_or!; simplify_eq; by apply list_elem_of_singleton.
    + intros [= ->]%list_elem_of_singleton. exists OriginOrdinary. rewrite !elem_of_cons. auto.
  - intros o. cbn. rewrite !elem_of_cons, elem_of_nil. intros ?. destruct_or!; by simplify_eq.
  - intros o [= ->]%list_elem_of_singleton. exists 1028. by split; [vm_compute|].
Qed.

