(* ===== verification/Density.v ===== *)
(** The resident queues of a node, [fireweed-engine/src/density.rs]: a set of hot
    queues bounded by recency, and the sweep that renews the leases of all of them
    through the control plane. *)
From S2P Require Import Prelude Identity Lifecycle Engine ControlPlane MemoryLog Ownership.

(** ** Resident queues *)

Section resident.
Context {H : Type}.

Record ResidentQueues := mkResidentQueues {
  rq_cap : Z;
  rq_tick : Z;
  rq_entries : gmap QueueKey (H * Z);
}.

(** A zero capacity panics. *)
Definition ResidentQueues_new (cap : Z) : option ResidentQueues :=
  if 0 <? cap then Some (mkResidentQueues cap 0 ∅) else None.

Definition resident_len (rq : ResidentQueues) : Z := Z.of_nat (size (rq_entries rq)).
Definition contains (rq : ResidentQueues) (queue : QueueKey) : bool := bool_decide (is_Some (rq_entries rq !! queue)).

Definition set_entries (m : gmap QueueKey (H * Z)) (rq : ResidentQueues) : ResidentQueues :=
  mkResidentQueues (rq_cap rq) (rq_tick rq) m.
Definition next_tick (rq : ResidentQueues) : Z * ResidentQueues :=
  let tick := (rq_tick rq + 1) mod 2 ^ 64 in (tick, mkResidentQueues (rq_cap rq) tick (rq_entries rq)).

(** [Iterator::min_by_key]: the first of the least elements. *)
Definition min_by_key {A} (key : A → Z) (l : list A) : option A :=
  match l with
  | [] => None
  | x :: l => Some (foldl (λ best y, if key y <? key best then y else best) x l)
  end.

Definition lru_victim (rq : ResidentQueues) : option QueueKey :=
  fst <$> min_by_key (λ e, e.2.2) (map_to_list (rq_entries rq)).

(** The evicted queue with its handle; [None] is the panic of an empty set at capacity. *)
Definition admit_queue (rq : ResidentQueues) (queue : QueueKey) (handle : H)
    : option (option (QueueKey * H) * ResidentQueues) :=
  let '(recency, rq) := next_tick rq in
  match rq_entries rq !! queue with
  | Some _ => Some (None, set_entries (<[queue := (handle, recency)]> (rq_entries rq)) rq)
  | None =>
      '(evicted, entries) ←
        (if rq_cap rq <=? resident_len rq then
           victim ← lru_victim rq;
           Some ((λ slot, (victim, slot.1)) <$> rq_entries rq !! victim, delete victim (rq_entries rq))
         else Some (None, rq_entries rq));
      Some (evicted, set_entries (<[queue := (handle, recency)]> entries) rq)
  end.

Definition touch (rq : ResidentQueues) (queue : QueueKey) : bool * ResidentQueues :=
  let '(recency, rq) := next_tick rq in
  match rq_entries rq !! queue with
  | Some slot => (true, set_entries (<[queue := (slot.1, recency)]> (rq_entries rq)) rq)
  | None => (false, rq)
  end.

Definition get (rq : ResidentQueues) (queue : QueueKey) : option H := fst <$> rq_entries rq !! queue.

(** The caller changes the handle it gets by [f]. *)
Definition get_mut (rq : ResidentQueues) (queue : QueueKey) (f : H → H) : option H * ResidentQueues :=
  let '(recency, rq) := next_tick rq in
  match rq_entries rq !! queue with
  | Some slot => (Some slot.1, set_entries (<[queue := (f slot.1, recency)]> (rq_entries rq)) rq)
  | None => (None, rq)
  end.

Definition evict (rq : ResidentQueues) (queue : QueueKey) : option H * ResidentQueues :=
  (fst <$> rq_entries rq !! queue, set_entries (delete queue (rq_entries rq)) rq).

(** ** Histories, and the abstract set: a list from the most to the least recently used *)

Inductive r_op :=
| RAdmit (queue : QueueKey) (handle : H)
| RTouch (queue : QueueKey)
| RGet (queue : QueueKey)
| RUpdate (queue : QueueKey) (f : H → H)
| REvict (queue : QueueKey).
Inductive r_out :=
| OEvicted (victim : option (QueueKey * H))
| OResident (resident : bool)
| OHandle (handle : option H).

Definition r_exec (rq : ResidentQueues) (op : r_op) : option (r_out * ResidentQueues) :=
  match op with
  | RAdmit queue handle => '(victim, rq) ← admit_queue rq queue handle; Some (OEvicted victim, rq)
  | RTouch queue => let '(b, rq) := touch rq queue in Some (OResident b, rq)
  | RGet queue => Some (OHandle (get rq queue), rq)
  | RUpdate queue f => let '(h, rq) := get_mut rq queue f in Some (OHandle h, rq)
  | REvict queue => let '(h, rq) := evict rq queue in Some (OHandle h, rq)
  end.
Fixpoint r_run (rq : ResidentQueues) (ops : list r_op) : option (list r_out * ResidentQueues) :=
  match ops with
  | [] => Some ([], rq)
  | op :: ops => '(out, rq) ← r_exec rq op; '(outs, rq) ← r_run rq ops; Some (out :: outs, rq)
  end.

Definition find_key (queue : QueueKey) (l : list (QueueKey * H)) : option H :=
  snd <$> List.find (λ e, bool_decide (e.1 = queue)) l.
Definition without (queue : QueueKey) (l : list (QueueKey * H)) : list (QueueKey * H) :=
  List.filter (λ e, negb (bool_decide (e.1 = queue))) l.

Definition lru_exec (cap : Z) (l : list (QueueKey * H)) (op : r_op) : r_out * list (QueueKey * H) :=
  match op with
  | RAdmit queue handle =>
      match find_key queue l with
      | Some _ => (OEvicted None, (queue, handle) :: without queue l)
      | None => if cap <=? Z.of_nat (length l) then (OEvicted (last l), (queue, handle) :: removelast l)
                else (OEvicted None, (queue, handle) :: l)
      end
  | RTouch queue =>
      match find_key queue l with Some h => (OResident true, (queue, h) :: without queue l) | None => (OResident false, l) end
  | RGet queue => (OHandle (find_key queue l), l)
  | RUpdate queue f =>
      match find_key queue l with Some h => (OHandle (Some h), (queue, f h) :: without queue l) | None => (OHandle None, l) end
  | REvict queue => (OHandle (find_key queue l), without queue l)
  end.
Fixpoint lru_run (cap : Z) (l : list (QueueKey * H)) (ops : list r_op) : list r_out * list (QueueKey * H) :=
  match ops with
  | [] => ([], l)
  | op :: ops => let '(out, l) := lru_exec cap l op in let '(outs, l) := lru_run cap l ops in (out :: outs, l)
  end.

End resident.
Arguments ResidentQueues : clear implicits.
Arguments r_op : clear implicits.
Arguments r_out : clear implicits.

(** ** Refinement of the recency list *)

Lemma min_by_key_spec {A} (key : A → Z) l x :
  min_by_key key l = Some x → x ∈ l ∧ ∀ y, y ∈ l → key x ≤ key y.
Proof.
  destruct l as [|z l]; [done|]. cbn. intros [= <-]. revert z. induction l as [|y l IH]; intros z; cbn.
  - split; [apply elem_of_cons; auto|]. by intros y [->|?%elem_of_nil]%elem_of_cons.
  - destruct (IH (if key y <? key z then y else z)) as [Hin Hmin]. split.
    + rewrite !elem_of_cons in *. destruct (key y <? key z); naive_solver.
    + specialize (Hmin (if key y <? key z then y else z)) as Hz. rewrite elem_of_cons in Hz. specialize (Hz (or_introl eq_refl)).
      intros x. rewrite !elem_of_cons. intros [->|[->|Hx]]; [| |apply Hmin, elem_of_cons; auto];
        destruct (Z.ltb_spec (key y) (key z)); lia.
Qed.

Section refinement.
Context {H : Type}.
Implicit Types (rq : ResidentQueues H) (L : list (QueueKey * (H * Z))).

Definition unstamp L : list (QueueKey * H) := (λ x, (x.1, x.2.1)) <$> L.
Definition drop_key (queue : QueueKey) L : list (QueueKey * (H * Z)) :=
  List.filter (λ e, negb (bool_decide (e.1 = queue))) L.

Lemma find_key_unstamp q L : find_key q (unstamp L) = fst <$> (list_to_map L : gmap QueueKey (H * Z)) !! q.
Proof.
  unfold find_key. induction L as [|[k [h n]] L IH]; cbn; [by rewrite lookup_empty|]. case_bool_decide as E; cbn.
  - subst. by rewrite lookup_insert_eq.
  - by rewrite lookup_insert_ne.
Qed.
Lemma without_unstamp q L : without q (unstamp L) = unstamp (drop_key q L).
Proof. induction L as [|[k [h n]] L IH]; [done|]. cbn. case_bool_decide; cbn; [done|]. by f_equal. Qed.
Lemma drop_key_map q L : list_to_map (drop_key q L) = delete q (list_to_map L : gmap QueueKey (H * Z)).
Proof.
  induction L as [|[k v] L IH]; cbn; [by rewrite delete_empty|].
  fold (drop_key q L). case_bool_decide as E; cbn; rewrite IH.
  - subst. by rewrite delete_insert_eq.
  - by rewrite delete_insert_ne.
Qed.
Lemma elem_of_drop_key q L x : x ∈ drop_key q L ↔ x ∈ L ∧ x.1 ≠ q.
Proof. unfold drop_key. by rewrite list_elem_of_In, filter_In, <-list_elem_of_In, negb_true_iff, bool_decide_eq_false. Qed.
Lemma drop_key_id q L : q ∉ L.*1 → drop_key q L = L.
Proof.
  induction L as [|[k v] L IH]; cbn; [done|]. rewrite not_elem_of_cons. intros [Hk HL].
  fold (drop_key q L). rewrite bool_decide_eq_false_2 by done. cbn. by rewrite IH.
Qed.
Lemma drop_key_sorted q L R : StronglySorted R L → StronglySorted R (drop_key q L).
Proof.
  induction 1 as [|x L _ IH Hx]; [constructor|]. cbn. fold (drop_key q L). case_match; [|done]. constructor; [done|].
  apply Forall_forall. intros y [Hy _]%elem_of_drop_key. by apply (proj1 (Forall_forall _ _) Hx).
Qed.
Lemma drop_key_nodup q L : NoDup L.*1 → NoDup (drop_key q L).*1 ∧ q ∉ (drop_key q L).*1.
Proof.
  intros Hnd. split.
  - induction L as [|[k v] L IH]; [done|]. cbn in *. inversion Hnd as [|? ? Hk HL]; subst. fold (drop_key q L). case_bool_decide; cbn; [auto|].
    constructor; [|auto]. intros (y & -> & [Hy _]%elem_of_drop_key)%list_elem_of_fmap. by apply Hk, list_elem_of_fmap_2.
  - by intros (y & -> & [_ Hy]%elem_of_drop_key)%list_elem_of_fmap.
Qed.
Lemma drop_key_length q L : (length (drop_key q L) ≤ length L)%nat ∧ (q ∈ L.*1 → (length (drop_key q L) < length L)%nat).
Proof.
  induction L as [|[k v] L [IH1 IH2]]; cbn; [by split; [lia|intros ?%elem_of_nil]|].
  fold (drop_key q L). case_bool_decide as E; cbn; (split; [lia|]); [lia|]. intros [->|Hq]%elem_of_cons; [done|]. specialize (IH2 Hq). lia.
Qed.

(** The map holds the stamped list, whose stamps fall from the tick. *)
Record stamped rq L : Prop := {
  st_map : rq_entries rq = list_to_map L;
  st_nodup : NoDup L.*1;
  st_sorted : StronglySorted (λ x y, y.2.2 < x.2.2) L;
  st_tick : Forall (λ x, x.2.2 ≤ rq_tick rq) L;
  st_length : Z.of_nat (length L) ≤ rq_cap rq;
  st_cap : 0 < rq_cap rq;
  st_nonneg : 0 ≤ rq_tick rq;
}.

Lemma stamped_find rq L q : stamped rq L → find_key q (unstamp L) = fst <$> rq_entries rq !! q.
Proof. intros Hs. by rewrite find_key_unstamp, (st_map _ _ Hs). Qed.

Lemma stamped_elem rq L q : stamped rq L → is_Some (rq_entries rq !! q) ↔ q ∈ L.*1.
Proof.
  intros Hs. rewrite (st_map _ _ Hs). split.
  - intros [v Hv]. apply list_elem_of_fmap. exists (q, v). split; [done|]. by apply elem_of_list_to_map_2.
  - intros Hin. apply not_eq_None_Some. by intros ?%not_elem_of_list_to_map.
Qed.

Lemma stamped_size rq L : stamped rq L → resident_len rq = Z.of_nat (length L).
Proof.
  intros Hs. unfold resident_len. rewrite (st_map _ _ Hs). f_equal. rewrite <-length_map_to_list.
  apply Permutation_length, map_to_list_to_map, (st_nodup _ _ Hs).
Qed.

(** A queue goes to the front at the next tick. *)
Lemma stamped_front rq L L' q h :
  stamped rq L → rq_tick rq < u64_max → L' = drop_key q L' → (∀ x, x ∈ L' → x ∈ L) → NoDup L'.*1 →
  StronglySorted (λ x y, y.2.2 < x.2.2) L' → Z.of_nat (length L') < rq_cap rq →
  stamped (set_entries (<[q := (h, rq_tick rq + 1)]> (list_to_map L')) (next_tick rq).2) ((q, (h, rq_tick rq + 1)) :: L').
Proof.
  intros [Hm Hnd Hss Ht Hl Hc Hn] Hmax Hdrop Hsub Hnd' Hss' Hlen.
  assert ((rq_tick rq + 1) mod 2 ^ 64 = rq_tick rq + 1) as Hmod by (apply Z.mod_small; int_lia).
  rewrite Forall_forall in Ht. split; cbn; rewrite ?Hmod; try done; [| | |lia|lia].
  - constructor; [|done]. rewrite Hdrop. by apply drop_key_nodup.
  - constructor; [done|]. apply Forall_forall. intros x Hx. specialize (Ht x (Hsub x Hx)). cbn. lia.
  - constructor; [cbn; lia|]. apply Forall_forall. intros x Hx. specialize (Ht x (Hsub x Hx)). lia.
Qed.

Lemma tick_small rq : 0 ≤ rq_tick rq < u64_max → (rq_tick rq + 1) mod 2 ^ 64 = rq_tick rq + 1.
Proof. intros. apply Z.mod_small. int_lia. Qed.

(** A tick without a change. *)
Lemma stamped_next rq L : stamped rq L → rq_tick rq < u64_max → stamped (next_tick rq).2 L.
Proof.
  intros [Hm Hnd Hss Ht Hl Hc Hn] Hmax. split; cbn; rewrite ?tick_small by done; try done; [|lia].
  eapply Forall_impl; [exact Ht|]. intros x ?. cbn in *. lia.
Qed.

(** A resident queue goes to the front. *)
Lemma stamped_promote rq L q h :
  stamped rq L → rq_tick rq < u64_max → is_Some (rq_entries rq !! q) →
  stamped (set_entries (<[q := (h, rq_tick rq + 1)]> (rq_entries rq)) (next_tick rq).2)
    ((q, (h, rq_tick rq + 1)) :: drop_key q L).
Proof.
  intros Hs Hmax Hq. pose proof (drop_key_nodup q L (st_nodup _ _ Hs)) as [Hnd Hnotin].
  pose proof (st_length _ _ Hs). apply (stamped_elem _ _ _ Hs) in Hq. apply (drop_key_length q L) in Hq.
  rewrite <-insert_delete_eq, (st_map _ _ Hs), <-drop_key_map.
  apply (stamped_front _ L); [done|done|by rewrite (drop_key_id q (drop_key q L))| |done|apply drop_key_sorted, (st_sorted _ _ Hs)|lia].
  by intros x [? _]%elem_of_drop_key.
Qed.

(** A new queue goes to the front of a part of the list. *)
Lemma stamped_push rq L L' q h :
  stamped rq L → rq_tick rq < u64_max → rq_entries rq !! q = None → (∃ k, L' = take k L) →
  Z.of_nat (length L') < rq_cap rq →
  stamped (set_entries (<[q := (h, rq_tick rq + 1)]> (list_to_map L')) (next_tick rq).2) ((q, (h, rq_tick rq + 1)) :: L').
Proof.
  intros Hs Hmax Hq [k ->] Hlen. apply eq_None_not_Some in Hq. rewrite (stamped_elem _ _ _ Hs) in Hq.
  assert (∀ x, x ∈ take k L → x ∈ L) as Hsub by (intros x; apply (subseteq_take k L)).
  apply (stamped_front _ L); try done.
  - rewrite drop_key_id; [done|]. intros (x & -> & Hx)%list_elem_of_fmap. by apply Hq, list_elem_of_fmap_2, Hsub.
  - rewrite fmap_take. pose proof (st_nodup _ _ Hs) as Hnd. rewrite <-(take_drop k L.*1), NoDup_app in Hnd. by destruct Hnd.
  - pose proof (st_sorted _ _ Hs) as Hss. rewrite <-(take_drop k L), StronglySorted_app in Hss. by destruct Hss as (_ & ? & _).
Qed.

Lemma stamped_victim rq L x :
  stamped rq (L ++ [x]) →
  lru_victim rq = Some x.1 ∧ rq_entries rq !! x.1 = Some x.2 ∧ delete x.1 (rq_entries rq) = list_to_map L.
Proof.
  intros [Hm Hnd Hss _ _ _ _]. pose proof (map_to_list_to_map (M := gmap QueueKey) (L ++ [x]) Hnd) as Hperm.
  assert (x ∈ L ++ [x]) as Hx by (apply elem_of_app; right; by apply list_elem_of_singleton).
  rewrite Hm. rewrite fmap_app, NoDup_app in Hnd. destruct Hnd as (_ & Hlast & _). split_and!.
  - unfold lru_victim. rewrite Hm. destruct (min_by_key _ _) as [y|] eqn:Hmin.
    + apply min_by_key_spec in Hmin as [Hy Hle]. rewrite Hperm in Hy. specialize (Hle x).
      rewrite Hperm in Hle. specialize (Hle Hx). apply StronglySorted_app in Hss as (Hcross & _ & _).
      apply elem_of_app in Hy as [Hy|Hy]; [|by apply list_elem_of_singleton in Hy as ->].
      specialize (Hcross y x Hy). rewrite list_elem_of_singleton in Hcross. specialize (Hcross eq_refl). cbn in *. lia.
    + destruct (map_to_list _) eqn:E; [|done]. apply Permutation_nil in Hperm. by destruct L.
  - apply elem_of_list_to_map_1'; [|by destruct x]. intros y Hin. apply elem_of_app in Hin as [Hin|Hin].
    + destruct (Hlast x.1); [by apply list_elem_of_fmap; exists (x.1, y)|by apply list_elem_of_fmap_2, list_elem_of_singleton].
    + apply list_elem_of_singleton in Hin. by destruct x; simplify_eq.
  - rewrite <-drop_key_map. f_equal. unfold drop_key. rewrite List.filter_app. cbn. rewrite bool_decide_eq_true_2 by done.
    cbn. rewrite app_nil_r. apply (drop_key_id x.1). intros Hin. apply (Hlast x.1 Hin).
    by apply list_elem_of_fmap_2, list_elem_of_singleton.
Qed.

Definition step_refines rq L (op : r_op H) : Prop :=
  ∃ out rq' L', r_exec rq op = Some (out, rq') ∧ lru_exec (rq_cap rq) (unstamp L) op = (out, unstamp L') ∧
    stamped rq' L' ∧ rq_cap rq' = rq_cap rq ∧ rq_tick rq' ≤ rq_tick rq + 1.

Lemma last_snoc_unstamp L x : last (unstamp (L ++ [x])) = Some (x.1, x.2.1) ∧ removelast (unstamp (L ++ [x])) = unstamp L.
Proof. unfold unstamp. rewrite fmap_app. cbn. by rewrite last_snoc, removelast_last. Qed.

Lemma admit_refines rq L q h : stamped rq L → rq_tick rq < u64_max → step_refines rq L (RAdmit q h).
Proof.
  intros Hs Hmax. pose proof (st_nonneg _ _ Hs). pose proof (tick_small rq ltac:(done)) as Hmod.
  pose proof (st_cap _ _ Hs). unfold step_refines. cbn. unfold admit_queue, next_tick. rewrite Hmod. cbn.
  rewrite (stamped_find _ _ q Hs). destruct (rq_entries rq !! q) as [slot|] eqn:Hq; cbn.
  { eexists _, _, ((q, (h, rq_tick rq + 1)) :: drop_key q L). split_and!; [done|by cbn; rewrite without_unstamp| |done|cbn; lia].
    pose proof (stamped_promote rq L q h Hs Hmax) as Hp. unfold next_tick in Hp. rewrite Hmod in Hp. apply Hp. by rewrite Hq. }
  pose proof (λ L', stamped_push rq L L' q h Hs Hmax Hq) as Hpush. unfold next_tick in Hpush. rewrite Hmod in Hpush. cbn in Hpush.
  change (resident_len (mkResidentQueues _ _ _)) with (resident_len rq). rewrite (stamped_size _ _ Hs).
  replace (length (unstamp L)) with (length L) by (symmetry; apply length_fmap).
  destruct (Z.leb_spec (rq_cap rq) (Z.of_nat (length L))) as [Hfull|Hroom]; cbn.
  - destruct L as [|x L _] using rev_ind; [cbn in Hfull; lia|].
    destruct (stamped_victim rq L x Hs) as (Hv & Hlook & Hdel). destruct (last_snoc_unstamp L x) as [-> ->].
    unfold lru_victim in *. cbn. rewrite Hv. cbn. rewrite Hlook, Hdel. cbn.
    eexists _, _, ((q, (h, rq_tick rq + 1)) :: L). split_and!; [done|done| |done|cbn; lia].
    apply Hpush; [exists (length L); by rewrite take_app_length|].
    pose proof (st_length _ _ Hs). rewrite length_app in *. cbn in *. lia.
  - eexists _, _, ((q, (h, rq_tick rq + 1)) :: L). split_and!; [done|done| |done|cbn; lia].
    rewrite (st_map _ _ Hs). apply Hpush; [exists (length L); by rewrite firstn_all|lia].
Qed.

(** [touch] and [get_mut]. *)
Lemma use_refines rq L q (f : H → H) :
  stamped rq L → rq_tick rq < u64_max →
  step_refines rq L (RTouch q) ∧ step_refines rq L (RUpdate q f).
Proof.
  intros Hs Hmax. pose proof (st_nonneg _ _ Hs). pose proof (tick_small rq ltac:(done)) as Hmod.
  pose proof (stamped_next rq L Hs Hmax) as Hnext. pose proof (λ h, stamped_promote rq L q h Hs Hmax) as Hp.
  unfold step_refines. cbn. unfold touch, get_mut, next_tick in *. rewrite Hmod in *. cbn in *.
  rewrite (stamped_find _ _ q Hs). destruct (rq_entries rq !! q) as [[h n]|] eqn:Hq; cbn.
  - split; [exists (OResident true)|exists (OHandle (Some h))]; eexists _, ((q, (_, rq_tick rq + 1)) :: drop_key q L);
      (split_and!; [done|by cbn; rewrite without_unstamp|by apply Hp|done|cbn; lia]).
  - split; eexists _, _, L; (split_and!; [done|done|done|done|cbn; lia]).
Qed.

Lemma r_exec_refines rq L op : stamped rq L → rq_tick rq < u64_max → step_refines rq L op.
Proof.
  intros Hs Hmax. destruct op as [q h|q|q|q f|q].
  - by apply admit_refines.
  - by apply (use_refines rq L q id).
  - exists (OHandle (get rq q)), rq, L. cbn. rewrite (stamped_find _ _ q Hs). split_and!; try done. lia.
  - by apply (use_refines rq L q f).
  - unfold step_refines. cbn. rewrite (stamped_find _ _ q Hs). eexists _, _, (drop_key q L).
    split_and!; [done|by rewrite without_unstamp| |done|cbn; lia].
    destruct Hs as [Hm Hnd Hss Ht Hl Hc Hn]. split; cbn; try done.
    + by rewrite Hm, drop_key_map.
    + by apply drop_key_nodup.
    + by apply drop_key_sorted.
    + apply Forall_forall. intros x [Hx _]%elem_of_drop_key. by apply (proj1 (Forall_forall _ _) Ht).
    + pose proof (drop_key_length q L). lia.
Qed.

Lemma r_run_refines rq L ops :
  stamped rq L → rq_tick rq + Z.of_nat (length ops) ≤ u64_max →
  ∃ outs rq' L', r_run rq ops = Some (outs, rq') ∧ lru_run (rq_cap rq) (unstamp L) ops = (outs, unstamp L') ∧ stamped rq' L' ∧
    rq_cap rq' = rq_cap rq.
Proof.
  revert rq L. induction ops as [|op ops IH]; intros rq L Hs Hmax; [by exists [], rq, L|]. cbn [length] in Hmax.
  destruct (r_exec_refines rq L op Hs) as (out & rq1 & L1 & He & Hl & Hs1 & Hc & Ht); [lia|].
  destruct (IH rq1 L1 Hs1) as (outs & rq2 & L2 & Hr & Hl2 & Hs2 & Hc2); [lia|].
  exists (out :: outs), rq2, L2. cbn. rewrite He, Hl. cbn. rewrite Hr. cbn. rewrite <-Hc, Hl2. split_and!; done || congruence.
Qed.
End refinement.

(** C26. The resident queues are a bounded recency list. In every history short of
    2^64 operations nothing panics, every answer (the victim of an admission,
    residency, handles) is that of the list ordered by last use, which drops its
    last element when a new queue comes in at capacity, the set holds the queues
    of that list, and it never exceeds its capacity. *)
Theorem resident_lru {H} cap rq (ops : list (r_op H)) :
  ResidentQueues_new cap = Some rq → Z.of_nat (length ops) ≤ u64_max →
  ∃ outs rq' l, r_run rq ops = Some (outs, rq') ∧ lru_run cap [] ops = (outs, l) ∧
    resident_len rq' = Z.of_nat (length l) ∧ resident_len rq' ≤ cap ∧
    (∀ q, get rq' q = find_key q l).
Proof.
  intros Hnew Hlen. unfold ResidentQueues_new in Hnew. destruct (Z.ltb_spec 0 cap); [|done]. injection Hnew as <-.
  destruct (r_run_refines (mkResidentQueues cap 0 ∅) [] ops) as (outs & rq' & L & Hr & Hl & Hs & Hc).
  - split; cbn; try done; [constructor|constructor|lia].
  - cbn. lia.
  - exists outs, rq', (unstamp L). pose proof (st_length _ _ Hs). cbn in *. rewrite (stamped_size _ _ Hs).
    unfold unstamp at 2. rewrite length_fmap. split_and!; [done|done|done|lia|].
    intros q. by rewrite (stamped_find _ _ q Hs).
Qed.

(** ** The renewal sweep *)

Record RenewSweep := mkRenewSweep {
  renewed : list QueueKey;
  fenced : list QueueKey;
  errored : list (QueueKey * EngineError);
}.

Section sweep.
(** The authority, by its batch renewal. *)
Context {CP : Type} (renew_leases : CP → list LeaseRenewal → UtcTimestamp → EngineResult (list LeaseRenewalOutcome) * CP).
Implicit Types (rq : ResidentQueues OwnedSession).

Definition sweep_targets rq : list (QueueKey * OwnedSession) := (λ e, (e.1, e.2.1)) <$> map_to_list (rq_entries rq).
Definition renewal_of (t : QueueKey * OwnedSession) : LeaseRenewal :=
  mkLeaseRenewal t.1 (os_owner t.2) (lease_epoch t.2).

Definition sweep_outcome (acc : RenewSweep * ResidentQueues OwnedSession)
    (t : (QueueKey * OwnedSession) * LeaseRenewalOutcome) : RenewSweep * ResidentQueues OwnedSession :=
  let '(sweep, rq) := acc in
  let queue := t.1.1 in
  match t.2 with
  | Renewed _ => (mkRenewSweep (renewed sweep ++ [queue]) (fenced sweep) (errored sweep), rq)
  | Fenced | Missing => (mkRenewSweep (renewed sweep) (fenced sweep ++ [queue]) (errored sweep), (evict rq queue).2)
  | RenewalError e => (mkRenewSweep (renewed sweep) (fenced sweep) (errored sweep ++ [(queue, e)]), rq)
  end.

Definition count_message (outcomes inputs : nat) : string :=
  String.append "control-plane batch renewal returned " (String.append (ItemId.Display (ItemId.mk (Z.of_nat outcomes)))
    (String.append " outcomes for " (String.append (ItemId.Display (ItemId.mk (Z.of_nat inputs))) " inputs"))).

Definition all_errored (targets : list (QueueKey * OwnedSession)) (e : EngineError) : RenewSweep :=
  mkRenewSweep [] [] ((λ t, (t.1, e)) <$> targets).

Definition renew_all_resident (cp : CP) rq (now : UtcTimestamp) : RenewSweep * ResidentQueues OwnedSession * CP :=
  let targets := sweep_targets rq in
  match renew_leases cp (renewal_of <$> targets) now with
  | (Err e, cp) => (all_errored targets e, rq, cp)
  | (Ok outcomes, cp) =>
      if Nat.eqb (length outcomes) (length targets)
      then (foldl sweep_outcome (mkRenewSweep [] [] [], rq) (zip targets outcomes), cp)
      else (all_errored targets (Storage (count_message (length outcomes) (length targets))), rq, cp)
  end.
End sweep.

Definition lost (o : LeaseRenewalOutcome) : bool := match o with Fenced | Missing => true | _ => false end.
Definition kept_lease (o : LeaseRenewalOutcome) : bool := match o with Renewed _ => true | _ => false end.
Definition swept (sweep : RenewSweep) : list QueueKey := renewed sweep ++ fenced sweep ++ (errored sweep).*1.

(** The loop files every target under its outcome and evicts the lost ones. *)
Lemma sweep_fold l sweep rq sweep' rq' :
  foldl sweep_outcome (sweep, rq) l = (sweep', rq') →
  swept sweep' ≡ₚ swept sweep ++ l.*1.*1 ∧
  (∀ q, q ∈ renewed sweep' ↔ q ∈ renewed sweep ∨ ∃ t, t ∈ l ∧ t.1.1 = q ∧ kept_lease t.2 = true) ∧
  (∀ q, q ∈ fenced sweep' ↔ q ∈ fenced sweep ∨ ∃ t, t ∈ l ∧ t.1.1 = q ∧ lost t.2 = true) ∧
  ((∀ q, q ∈ fenced sweep → rq_entries rq !! q = None) →
   ∀ q, rq_entries rq' !! q = if decide (q ∈ fenced sweep') then None else rq_entries rq !! q).
Proof.
  revert sweep rq. induction l as [|t l IH]; intros sweep rq E.
  { cbn in E. injection E as <- <-. rewrite app_nil_r. setoid_rewrite elem_of_nil.
    split_and!; [done|naive_solver|naive_solver|]. intros Hf q. case_decide; auto. }
  cbn [foldl] in E. destruct (sweep_outcome (sweep, rq) t) as [sweep1 rq1] eqn:E1.
  destruct (IH _ _ E) as (Hp & Hr & Hf & Hm). unfold sweep_outcome in E1.
  assert (swept sweep1 ≡ₚ t.1.1 :: swept sweep) as Hone.
  { destruct t as [[q s] []]; injection E1 as <- <-; unfold swept; cbn; rewrite ?fmap_app; cbn; solve_Permutation. }
  split_and!.
  - rewrite Hp, Hone. cbn. by rewrite Permutation_middle.
  - intros q. rewrite Hr. setoid_rewrite elem_of_cons.
    destruct t as [[k s] []]; injection E1 as <- <-; cbn; rewrite ?elem_of_app, ?list_elem_of_singleton; naive_solver.
  - intros q. rewrite Hf. setoid_rewrite elem_of_cons.
    destruct t as [[k s] []]; injection E1 as <- <-; cbn; rewrite ?elem_of_app, ?list_elem_of_singleton; naive_solver.
  - intros Hsub q.
    assert (∀ q, q ∈ fenced sweep1 → rq_entries rq1 !! q = None) as Hsub1.
    { intros k Hk. destruct t as [[q' s] []]; injection E1 as <- <-; cbn in *; auto.
      all: apply lookup_delete_None; apply elem_of_app in Hk as [Hk|Hk%list_elem_of_singleton]; auto. }
    rewrite Hm by done. case_decide as Hq; [done|]. destruct t as [[k s] []]; injection E1 as <- <-; try done.
    all: apply lookup_delete_ne; intros ->; apply Hq, Hf; left; apply elem_of_app; right; by apply list_elem_of_singleton.
Qed.

Lemma targets_keys (rq : ResidentQueues OwnedSession) : (sweep_targets rq).*1 = (map_to_list (rq_entries rq)).*1.
Proof. unfold sweep_targets. by rewrite <-list_fmap_compose. Qed.

(** Whatever the authority answers, the sweep files every resident queue once and
    drops exactly the fenced ones. *)
Theorem renew_sweep_partition {CP} renew (cp : CP) rq now sweep rq' cp' :
  renew_all_resident renew cp rq now = (sweep, rq', cp') →
  swept sweep ≡ₚ (map_to_list (rq_entries rq)).*1 ∧
  ∀ q, rq_entries rq' !! q = if decide (q ∈ fenced sweep) then None else rq_entries rq !! q.
Proof.
  unfold renew_all_resident. destruct (renew cp _ now) as [[outcomes|e] cp1].
  - destruct (Nat.eqb_spec (length outcomes) (length (sweep_targets rq))) as [Hlen|_].
    + destruct (foldl _ _ _) as [sw rq1] eqn:E. intros [= <- <- <-]. destruct (sweep_fold _ _ _ _ _ E) as (Hp & _ & _ & Hm).
      rewrite Hp. cbn. rewrite fst_zip by lia. rewrite targets_keys. split; [done|]. apply Hm. by intros q ?%elem_of_nil.
    + intros [= <- <- <-]. cbn. split; [|by intros q; rewrite decide_False by apply not_elem_of_nil].
      unfold swept. cbn. by rewrite <-list_fmap_compose, <-targets_keys.
  - intros [= <- <- <-]. cbn. split; [|by intros q; rewrite decide_False by apply not_elem_of_nil].
    unfold swept. cbn. by rewrite <-list_fmap_compose, <-targets_keys.
Qed.

(** ** The sweep over the in-memory authority *)

Definition memory_renew (config : ControlPlaneConfig) (s : CpState) (renewals : list LeaseRenewal) (now : UtcTimestamp)
    : EngineResult (list LeaseRenewalOutcome) * CpState :=
  let '(outcomes, s) := renew_queue_leases config s renewals now in (Ok outcomes, s).

(** The authority still records the lease of the session, live and serving. *)
Definition still_held (now : UtcTimestamp) (s : CpState) (q : QueueKey) (owner : OwnerId) (epoch : Z) : Prop :=
  ∃ l, leases s !! q = Some l ∧ active_owner_id l = Some owner ∧ assignment_epoch l = epoch ∧
       (ql_state l = Assigned ∨ ql_state l = Draining) ∧ is_live l now = true.

Section memory_sweep.
Context (config : ControlPlaneConfig) (now : UtcTimestamp).

Lemma renew_one_spec s r :
  (∃ l l', leases s !! lr_queue r = Some l ∧
     lease_decide_renew l (lr_owner r) (lr_expected_epoch r) now (lease_ttl_ms config) = Ok l' ∧
     renew_one config now s r = (Renewed l', set_lease (lr_queue r) l' s) ∧
     still_held now s (lr_queue r) (lr_owner r) (lr_expected_epoch r)) ∨
  (¬ still_held now s (lr_queue r) (lr_owner r) (lr_expected_epoch r) ∧
   ∃ o, lost o = true ∧ renew_one config now s r = (o, s)).
Proof.
  unfold renew_one, still_held. destruct (leases s !! lr_queue r) as [l|] eqn:Hl;
    [|right; split; [naive_solver|by exists Missing]].
  unfold lease_decide_renew, owned_by. destruct (_ || _) eqn:E.
  - right. split; [|by exists Fenced]. intros (? & [= <-] & Ho & He & Hst & Hlive).
    rewrite bool_decide_eq_true_2, He, Z.eqb_refl, Hlive in E by done. by destruct Hst as [Hst|Hst]; rewrite Hst in E.
  - left. exists l. rewrite E. eexists. split_and!; [done..|]. exists l.
    rewrite !orb_false_iff, !negb_false_iff, bool_decide_eq_true, Z.eqb_eq in E. destruct E as [[[Ho He] Hst] Hlive].
    split_and!; try done. destruct (ql_state l); auto; done.
Qed.

(** Renewals of different queues do not see each other. *)
Lemma renew_fold rs os s :
  NoDup (lr_queue <$> rs) →
  let '(os', s') := foldl (renew_push config now) (os, s) rs in
  os' = os ++ ((λ r, (renew_one config now s r).1) <$> rs) ∧
  (∀ q, q ∉ lr_queue <$> rs → leases s' !! q = leases s !! q) ∧
  (∀ r, r ∈ rs → leases s' !! lr_queue r = leases (renew_one config now s r).2 !! lr_queue r).
Proof.
  revert os s. induction rs as [|r rs IH]; intros os s Hnd; cbn.
  { rewrite app_nil_r. split_and!; [done|done|]. by intros r ?%elem_of_nil. }
  inversion Hnd as [|? ? Hr Hnd']; subst. unfold renew_push at 2. cbn. destruct (renew_one config now s r) as [o s1] eqn:E1.
  assert (∀ q, q ≠ lr_queue r → leases s1 !! q = leases s !! q) as Hframe.
  { intros q Hq. destruct (renew_one_spec s r) as [(l & l' & _ & _ & E & _)|(_ & o' & _ & E)]; rewrite E in E1;
      injection E1 as <- <-; [|done]. cbn. by rewrite lookup_insert_ne. }
  assert (∀ r', r' ∈ rs → (renew_one config now s1 r').1 = (renew_one config now s r').1 ∧
    leases (renew_one config now s1 r').2 !! lr_queue r' = leases (renew_one config now s r').2 !! lr_queue r') as Hsame.
  { intros r' Hr'. assert (lr_queue r' ≠ lr_queue r) as Hne by (intros Eq; apply Hr; rewrite <-Eq; by apply list_elem_of_fmap_2).
    unfold renew_one. rewrite (Hframe _ Hne). repeat case_match; cbn; rewrite ?lookup_insert_eq; by rewrite ?Hframe. }
  specialize (IH (os ++ [o]) s1 Hnd'). destruct (foldl _ _ rs) as [os' s'] eqn:E. destruct IH as (-> & Hout & Hin). split_and!.
  - rewrite <-app_assoc. cbn. do 2 f_equal. apply list_fmap_ext. intros i r' Hi. by apply Hsame, (list_elem_of_lookup_2 _ i).
  - intros q. rewrite not_elem_of_cons. intros [Hq Hqs]. by rewrite Hout, Hframe.
  - intros r' [->|Hr']%elem_of_cons; [by rewrite (Hout _ Hr), E1|]. by rewrite (Hin _ Hr'), (proj2 (Hsame r' Hr')).
Qed.
End memory_sweep.

Lemma elem_of_zip_map {A B} (f : A → B) (l : list A) t : t ∈ zip l (f <$> l) ↔ t.1 ∈ l ∧ t.2 = f t.1.
Proof.
  induction l as [|x l IH]; cbn; [rewrite !elem_of_nil; naive_solver|]. rewrite !elem_of_cons, IH.
  destruct t as [y z]; cbn. naive_solver.
Qed.

Lemma sweep_no_errors l sweep rq sweep' rq' :
  foldl sweep_outcome (sweep, rq) l = (sweep', rq') → errored sweep = [] →
  (∀ t, t ∈ l → kept_lease t.2 || lost t.2 = true) → errored sweep' = [].
Proof.
  revert sweep rq. induction l as [|t l IH]; intros sweep rq E Hs Hl; cbn [foldl] in E; [by injection E as <- <-|].
  pose proof (Hl t ltac:(apply elem_of_cons; auto)) as Ht. destruct (sweep_outcome (sweep, rq) t) as [s1 rq1] eqn:E1.
  apply (IH s1 rq1 E); [|intros x Hx; apply Hl, elem_of_cons; auto].
  unfold sweep_outcome in E1. destruct t as [[q s] []]; injection E1 as <- <-; done.
Qed.

Lemma swept_disjoint (rq : ResidentQueues OwnedSession) sweep :
  swept sweep ≡ₚ (map_to_list (rq_entries rq)).*1 → ∀ q, q ∈ renewed sweep → q ∉ fenced sweep.
Proof.
  intros Hp q Hr Hf. assert (NoDup (swept sweep)) as Hnd by (rewrite Hp; apply NoDup_fst_map_to_list).
  unfold swept in Hnd. apply NoDup_app in Hnd as (_ & Hd & _). apply (Hd q Hr), elem_of_app. auto.
Qed.

(** A sweep over the in-memory authority renews exactly the resident queues
    whose lease the authority still records for the session, live and at its epoch,
    and sheds all others; none is left undecided. A renewed queue stays resident with
    its session and its lease is the renewed one, a shed queue is gone from the set
    and its lease is not touched. *)
Theorem renew_sweep_exact config cp rq now :
  let '(sweep, rq', cp') := renew_all_resident (memory_renew config) cp rq now in
  renewed sweep ++ fenced sweep ≡ₚ (map_to_list (rq_entries rq)).*1 ∧ errored sweep = [] ∧
  ∀ q session n, rq_entries rq !! q = Some (session, n) →
    let owner := os_owner session in let epoch := lease_epoch session in
    (q ∈ renewed sweep ∧ still_held now cp q owner epoch ∧ rq_entries rq' !! q = Some (session, n) ∧
     ∃ l l', leases cp !! q = Some l ∧ lease_decide_renew l owner epoch now (lease_ttl_ms config) = Ok l' ∧
             leases cp' !! q = Some l') ∨
    (q ∈ fenced sweep ∧ ¬ still_held now cp q owner epoch ∧ rq_entries rq' !! q = None ∧
     leases cp' !! q = leases cp !! q).
Proof.
  destruct (renew_all_resident _ cp rq now) as [[sweep rq'] cp'] eqn:Erun.
  pose proof (renew_sweep_partition _ _ _ _ _ _ _ Erun) as [Hpart Hmap].
  unfold renew_all_resident, memory_renew, renew_queue_leases in Erun.
  set (targets := sweep_targets rq) in *. set (rs := renewal_of <$> targets) in *.
  assert (NoDup (lr_queue <$> rs)) as Hnd.
  { subst rs. rewrite <-list_fmap_compose. change (lr_queue ∘ renewal_of) with (@fst QueueKey OwnedSession).
    subst targets. rewrite targets_keys. apply NoDup_fst_map_to_list. }
  pose proof (renew_fold config now rs [] cp Hnd) as Hfold. destruct (foldl (renew_push config now) _ _) as [os cp1].
  destruct Hfold as (-> & _ & Hleases). cbn in Erun. subst rs. rewrite !length_fmap, Nat.eqb_refl in Erun.
  destruct (foldl sweep_outcome _ _) as [sweep1 rq1] eqn:Esweep. injection Erun as <- <- <-.
  destruct (sweep_fold _ _ _ _ _ Esweep) as (_ & Hren & Hfen & _).
  assert (∀ t, t ∈ zip targets ((λ r, (renew_one config now cp r).1) <$> (renewal_of <$> targets)) ↔
    t.1 ∈ targets ∧ t.2 = (renew_one config now cp (renewal_of t.1)).1) as Hzip
    by (intros t; rewrite <-list_fmap_compose; apply (elem_of_zip_map (λ t, (renew_one config now cp (renewal_of t)).1))).
  assert (errored sweep1 = []) as Herr by (eapply sweep_no_errors; [exact Esweep|done|]; intros t [_ ->]%Hzip;
    destruct (renew_one_spec config now cp (renewal_of t.1)) as [(l & l' & _ & _ & -> & _)|(_ & o & Ho & ->)]; by destruct o || done).
  split_and!; [|done|].
  { rewrite <-Hpart. unfold swept. rewrite Herr. by rewrite app_nil_r. }
  intros q session n Hq. cbn zeta. assert ((q, session) ∈ targets) as Hin.
  { apply list_elem_of_fmap. exists (q, (session, n)). split; [done|]. by apply elem_of_map_to_list. }
  set (r := renewal_of (q, session)). pose proof (Hleases r (list_elem_of_fmap_2 _ _ _ Hin)) as Hl. cbn in Hl.
  assert (((q, session), (renew_one config now cp r).1) ∈
    zip targets ((λ r, (renew_one config now cp r).1) <$> (renewal_of <$> targets))) as Helem by by apply Hzip.
  rewrite (Hmap q). destruct (renew_one_spec config now cp r) as [(l & l' & Hl0 & Hdec & E & Hheld)|(Hnot & o & Ho & E)];
    rewrite E in Hl, Helem; cbn in Hl.
  - left. rewrite lookup_insert_eq in Hl. assert (q ∈ renewed sweep1) as Hr by (apply Hren; right; by eexists).
    split_and!; [done|done| |by exists l, l']. rewrite decide_False, Hq; [done|]. intros Hf.
    by apply (swept_disjoint rq sweep1 Hpart q).
  - right. assert (q ∈ fenced sweep1) as Hf by (apply Hfen; right; by eexists). by rewrite decide_True.
Qed.

(** Two hot queues; the one used longer ago makes room for a third. *)
Definition queue_named (name : string) : QueueKey := mkQueueKey "t" name.
Definition resident_ops : list (r_op nat) :=
  [RAdmit (queue_named "a") 1; RAdmit (queue_named "b") 2; RTouch (queue_named "a"); RAdmit (queue_named "c") 3;
   RGet (queue_named "b"); RUpdate (queue_named "a") S]%nat.

Lemma resident_lru_witness :
  ∃ rq outs rq' l, ResidentQueues_new 2 = Some rq ∧ r_run rq resident_ops = Some (outs, rq') ∧
    lru_run 2 [] resident_ops = (outs, l) ∧
    outs = [OEvicted None; OEvicted None; OResident true; OEvicted (Some (queue_named "b", 2%nat)); OHandle None;
            OHandle (Some 1%nat)].
Proof.
  destruct (resident_lru 2 (mkResidentQueues 2 0 ∅) resident_ops) as (outs & rq' & l & Hr & Hl & _);
    [reflexivity|vm_compute; discriminate|].
  exists (mkResidentQueues 2 0 ∅), outs, rq', l. split; [reflexivity|]. split; [done|]. split; [done|].
  vm_compute in Hl. by injection Hl as <- _.
Defined.
