(* ===== verification/Ordered.v ===== *)
(** Ordered collections shared by the queue projection: Rust's derived [Ord] as a
    class with its laws, the ascending enumeration of a [BTreeSet] or [BTreeMap], maps
    from a key to a non-empty set of item ids, and the relation between a record map and
    an index that tracks one row set per record. *)
From S2P Require Import Prelude Identity Metadata.

(** ** Comparisons *)

Class Compare (A : Type) := compare : A → A → comparison.

Class CompareLaws (A : Type) `{Compare A} := {
  compare_Eq a b : compare a b = Eq ↔ a = b;
  compare_antisym a b : compare b a = CompOpp (compare a b);
  compare_Lt_trans a b c : compare a b = Lt → compare b c = Lt → compare a c = Lt;
}.

#[export] Instance Z_compare : Compare Z := Z.compare.
#[export] Instance bytes_compare : Compare bytes := bytes_cmp.
#[export] Instance string_compare : Compare string := String.compare.
#[export] Instance ItemId_compare : Compare ItemId.t := ItemId.cmp.
#[export] Instance timestamp_compare : Compare UtcTimestamp := cmp_timestamp.
#[export] Instance bool_compare : Compare bool := λ a b,
  match a, b with false, true => Lt | true, false => Gt | _, _ => Eq end.
#[export] Instance option_compare `{Compare A} : Compare (option A) := λ a b,
  match a, b with
  | None, None => Eq
  | None, Some _ => Lt
  | Some _, None => Gt
  | Some a, Some b => compare a b
  end.
#[export] Instance prod_compare `{Compare A, Compare B} : Compare (A * B) := λ a b,
  then_cmp (compare a.1 b.1) (compare a.2 b.2).

(** A type compared through an injection. *)
Definition compare_on {A B} `{Compare B} (f : A → B) : Compare A := λ a b, compare (f a) (f b).

Lemma compare_on_laws {A B} `{CompareLaws B} (f : A → B) `{!Inj (=) (=) f} :
  @CompareLaws A (compare_on f).
Proof.
  split; intros *.
  - change (compare (f a) (f b) = Eq ↔ a = b). rewrite compare_Eq. split; [apply (inj f)|by intros ->].
  - exact (compare_antisym (f a) (f b)).
  - exact (compare_Lt_trans (f a) (f b) (f c)).
Qed.

#[export] Instance Z_compare_laws : CompareLaws Z.
Proof.
  split; intros *; unfold compare, Z_compare.
  - apply Z.compare_eq_iff.
  - apply Z.compare_antisym.
  - rewrite !Z.compare_lt_iff. lia.
Qed.

#[export] Instance bytes_compare_laws : CompareLaws bytes.
Proof. split; intros *; [apply bytes_cmp_Eq|apply bytes_cmp_antisym|apply bytes_cmp_Lt_trans]. Qed.

#[export] Instance string_compare_laws : CompareLaws string.
Proof.
  split; intros *; [|apply String.compare_antisym|apply string_compare_lt_trans].
  split; [apply String.compare_eq_iff|intros ->]. unfold compare, string_compare.
  pose proof (String.compare_antisym b b). by destruct (String.compare b b).
Qed.

#[export] Instance ItemId_compare_laws : CompareLaws ItemId.t.
Proof. apply (compare_on_laws (A := ItemId.t) ItemId.raw (Inj0 := ltac:(by intros [x] [y] [= ->]))). Qed.

#[export] Instance bool_compare_laws : CompareLaws bool.
Proof. split; [by intros [] []|by intros [] []|by intros [] [] []]. Qed.

#[export] Instance option_compare_laws `{CompareLaws A} : CompareLaws (option A).
Proof.
  split.
  - intros [a|] [b|]; cbn; try done. rewrite compare_Eq. naive_solver.
  - intros [a|] [b|]; cbn; try done. apply compare_antisym.
  - intros [a|] [b|] [c|]; cbn; try done. apply compare_Lt_trans.
Qed.

#[export] Instance prod_compare_laws `{CompareLaws A, CompareLaws B} : CompareLaws (A * B).
Proof.
  split; unfold compare, prod_compare.
  - intros [a b] [a' b']; cbn. pose proof (compare_Eq a a'). pose proof (compare_Eq b b').
    destruct (compare a a'); naive_solver.
  - intros [a b] [a' b']; cbn. rewrite (compare_antisym a a'), (compare_antisym b b').
    by destruct (compare a a').
  - intros [a b] [a' b'] [a'' b'']; cbn. intros L1 L2.
    pose proof (compare_Eq a a') as E1. pose proof (compare_Eq a' a'') as E2.
    pose proof (compare_Lt_trans a a' a'') as Tr. pose proof (compare_Lt_trans b b' b'') as Tr'.
    destruct (compare a a') eqn:C1; cbn in L1; try done;
      destruct (compare a' a'') eqn:C2; cbn in L2; try done.
    + apply proj1 in E1, E2. rewrite E1 in * by done.
      assert (a' = a'') as <- by auto.
      rewrite (proj2 (compare_Eq a' a') eq_refl). cbn. auto.
    + apply proj1 in E1. rewrite E1 by done. by rewrite C2.
    + apply proj1 in E2. rewrite <-E2 by done. by rewrite C1.
    + by rewrite Tr.
Qed.

#[export] Instance timestamp_compare_laws : CompareLaws UtcTimestamp.
Proof.
  apply (compare_on_laws (A := UtcTimestamp) (λ t, (seconds t, nanoseconds t))
           (Inj0 := ltac:(by intros [x y] [z w] [= -> ->]))).
Qed.

(** ** Ascending enumeration *)

Section ascending.
Context `{CompareLaws A}.

Definition le_cmp (a b : A) : Prop := compare a b ≠ Gt.
Definition lt_cmp (a b : A) : Prop := compare a b = Lt.

#[global] Instance le_cmp_dec : RelDecision le_cmp := λ a b, decide (compare a b ≠ Gt).
#[global] Instance lt_cmp_dec : RelDecision lt_cmp := λ a b, decide (compare a b = Lt).

Lemma le_cmp_alt a b : le_cmp a b ↔ lt_cmp a b ∨ a = b.
Proof.
  unfold le_cmp, lt_cmp. rewrite <-compare_Eq. destruct (compare a b); naive_solver.
Qed.

#[global] Instance lt_cmp_trans : Transitive lt_cmp.
Proof. intros a b c. apply compare_Lt_trans. Qed.
#[global] Instance lt_cmp_irrefl : Irreflexive lt_cmp.
Proof. intros a Ha. unfold complement, lt_cmp in *. by rewrite (proj2 (compare_Eq a a)) in Ha. Qed.
#[global] Instance le_cmp_trans : Transitive le_cmp.
Proof. intros a b c. rewrite !le_cmp_alt. intros [?| ->] [?| ->]; eauto. left. by etrans. Qed.
#[global] Instance le_cmp_total : Total le_cmp.
Proof.
  intros a b. unfold le_cmp. rewrite (compare_antisym a b). destruct (compare a b); cbn; auto.
Qed.
#[global] Instance le_cmp_antisym : AntiSymm (=) le_cmp.
Proof.
  intros a b. unfold le_cmp. rewrite (compare_antisym a b), <-compare_Eq.
  destruct (compare a b); naive_solver.
Qed.

Lemma lt_cmp_neq a b : lt_cmp a b → a ≠ b.
Proof. intros Hl ->. by apply (irreflexivity lt_cmp b). Qed.

(** A strictly ascending list is determined by its elements. *)
Lemma ascending_unique (l k : list A) :
  StronglySorted lt_cmp l → StronglySorted lt_cmp k → (∀ x, x ∈ l ↔ x ∈ k) → l = k.
Proof.
  intros Hl. revert k. induction Hl as [|x l Hl IH Hx]; intros k Hk Heq.
  { destruct k as [|y k]; [done|]. exfalso. specialize (Heq y). set_solver. }
  destruct Hk as [|y k Hk Hy]; [exfalso; specialize (Heq x); set_solver|].
  rewrite Forall_forall in Hx, Hy.
  assert (x = y) as ->.
  { destruct (decide (compare x y = Eq)) as [Hne|Hne]; rewrite compare_Eq in Hne; [done|]. exfalso.
    assert (Hxy : x ∈ k) by (specialize (Heq x); set_solver).
    assert (Hyx : y ∈ l) by (specialize (Heq y); set_solver).
    apply (irreflexivity lt_cmp x). etrans; [by apply Hx|by apply Hy]. }
  f_equal. apply IH; [done|]. intros z. specialize (Heq z).
  assert (z ∈ l → z ≠ y) by (intros Hz ->; by apply (irreflexivity lt_cmp y), Hx).
  assert (z ∈ k → z ≠ y) by (intros Hz ->; by apply (irreflexivity lt_cmp y), Hy).
  set_solver.
Qed.

Lemma le_sorted_ascending (l : list A) :
  StronglySorted le_cmp l → NoDup l → StronglySorted lt_cmp l.
Proof.
  induction 1 as [|x l Hl IH Hx]; [constructor|]. intros [Hn Hd]%NoDup_cons. constructor; [auto|].
  rewrite Forall_forall in Hx |- *. intros y Hy. specialize (Hx y Hy).
  apply le_cmp_alt in Hx as [?| ->]; done.
Qed.

Context `{!EqDecision A, !Countable A}.

(** The elements of a [BTreeSet], ascending. *)
Definition elems (s : gset A) : list A := merge_sort le_cmp (elements s).

Lemma elems_perm s : elems s ≡ₚ elements s.
Proof. apply merge_sort_Permutation. Qed.

Lemma elem_of_elems s x : x ∈ elems s ↔ x ∈ s.
Proof. by rewrite elems_perm, elem_of_elements. Qed.

Lemma elems_ascending s : StronglySorted lt_cmp (elems s).
Proof.
  apply le_sorted_ascending.
  - apply (StronglySorted_merge_sort le_cmp).
  - rewrite elems_perm. apply NoDup_elements.
Qed.

Lemma elems_eq s l : StronglySorted lt_cmp l → (∀ x, x ∈ l ↔ x ∈ s) → elems s = l.
Proof.
  intros Hl Heq. apply ascending_unique; [apply elems_ascending|done|].
  intros x. by rewrite elem_of_elems, Heq.
Qed.

End ascending.

(** A map that keeps strict order keeps ascending lists. *)
Lemma ascending_fmap `{Compare A, Compare B} (f : A → B) (l : list A) :
  (∀ a b, lt_cmp a b → lt_cmp (f a) (f b)) → StronglySorted lt_cmp l → StronglySorted lt_cmp (f <$> l).
Proof.
  intros Hf. induction 1 as [|x l Hl IH Hx]; cbn; constructor; [done|].
  apply Forall_fmap. eapply Forall_impl; [exact Hx|]. intros y. apply Hf.
Qed.

Lemma StronglySorted_filter {A} (R : A → A → Prop) (P : A → Prop) `{∀ x, Decision (P x)} l :
  StronglySorted R l → StronglySorted R (filter P l).
Proof.
  induction 1 as [|x l Hl IH Hx]; [constructor|]. rewrite filter_cons.
  case_decide; [|done]. constructor; [done|].
  rewrite Forall_forall in Hx |- *. intros y [_ Hy]%list_elem_of_filter. auto.
Qed.

(** ** Maps from a key to a set of item ids *)

#[export] Instance ItemId_eq_dec : EqDecision ItemId.t := ItemId.t_eq_dec.
#[export] Instance ItemId_countable : Countable ItemId.t.
Proof. refine (inj_countable' ItemId.raw ItemId.mk _). by intros []. Defined.
#[export] Instance UtcTimestamp_countable : Countable UtcTimestamp.
Proof.
  refine (inj_countable' (λ t, (seconds t, nanoseconds t)) (λ p, mkUtcTimestamp p.1 p.2) _). by intros [].
Defined.

Section postings.
Context `{Countable K}.
Implicit Types m : gmap K (gset ItemId.t).

(** [map.entry(k).or_default().insert(id)]. *)
Definition post (k : K) (id : ItemId.t) m : gmap K (gset ItemId.t) :=
  <[k := {[id]} ∪ default ∅ (m !! k)]> m.

(** [get_mut(k)], remove [id], and drop a set that empties. *)
Definition unpost (k : K) (id : ItemId.t) m : gmap K (gset ItemId.t) :=
  match m !! k with
  | None => m
  | Some ids => if decide (ids ∖ {[id]} = ∅) then delete k m else <[k := ids ∖ {[id]}]> m
  end.

Definition posted m (k : K) (id : ItemId.t) : Prop := id ∈ default ∅ (m !! k).
Definition no_empty m : Prop := map_Forall (λ _ ids, ids ≠ ∅) m.

Lemma posted_post k id m k' id' :
  posted (post k id m) k' id' ↔ (k' = k ∧ id' = id) ∨ posted m k' id'.
Proof.
  unfold posted, post. destruct (decide (k' = k)) as [->|Hne].
  - rewrite lookup_insert_eq. cbn. set_solver.
  - rewrite lookup_insert_ne by done. naive_solver.
Qed.

Lemma posted_unpost k id m k' id' :
  posted (unpost k id m) k' id' ↔ posted m k' id' ∧ ¬ (k' = k ∧ id' = id).
Proof.
  unfold posted, unpost. destruct (m !! k) as [ids|] eqn:Hk; [case_decide as He|].
  - destruct (decide (k' = k)) as [->|Hne].
    + rewrite lookup_delete_eq, Hk. cbn. set_solver.
    + rewrite lookup_delete_ne by done. naive_solver.
  - destruct (decide (k' = k)) as [->|Hne].
    + rewrite lookup_insert_eq, Hk. cbn. set_solver.
    + rewrite lookup_insert_ne by done. naive_solver.
  - destruct (decide (k' = k)) as [->|Hne]; [rewrite Hk; cbn; set_solver|naive_solver].
Qed.

Lemma no_empty_post k id m : no_empty m → no_empty (post k id m).
Proof. intros Hm. apply map_Forall_insert_2; [set_solver|done]. Qed.

Lemma no_empty_unpost k id m : no_empty m → no_empty (unpost k id m).
Proof.
  intros Hm. unfold unpost. destruct (m !! k) as [ids|]; [case_decide|done].
  - by apply map_Forall_delete.
  - by apply map_Forall_insert_2.
Qed.

Lemma no_empty_empty : no_empty ∅.
Proof. apply map_Forall_empty. Qed.

(** Without empty sets, a map is its postings. *)
Lemma postings_eq m m' :
  no_empty m → no_empty m' → (∀ k id, posted m k id ↔ posted m' k id) → m = m'.
Proof.
  intros Hm Hm' Heq. apply map_eq. intros k. specialize (Heq k). unfold posted in Heq.
  destruct (m !! k) as [ids|] eqn:Hk, (m' !! k) as [ids'|] eqn:Hk'; cbn in Heq; try done.
  - f_equal. set_solver.
  - exfalso. apply (Hm k ids Hk). set_solver.
  - exfalso. apply (Hm' k ids' Hk'). set_solver.
Qed.

End postings.

(** ** Indexes over a record map *)

Section tracks.
Context {R X : Type}.
Implicit Types (items : gmap ItemId.t R) (rows : R → X → Prop) (has : ItemId.t → X → Prop).

(** [has id x] tells an index holds row [x] for [id]: it holds exactly the rows of the
    records. *)
Definition tracks has items rows : Prop :=
  ∀ id x, has id x ↔ ∃ r, items !! id = Some r ∧ rows r x.

Lemma tracks_insert has has' items rows id r :
  tracks has items rows → (∀ x, has' id x ↔ rows r x) →
  (∀ j x, j ≠ id → has' j x ↔ has j x) → tracks has' (<[id := r]> items) rows.
Proof.
  intros Ht Hid Hne j x. destruct (decide (j = id)) as [->|Hj].
  - rewrite lookup_insert_eq, Hid. naive_solver.
  - rewrite lookup_insert_ne, Hne by done. apply Ht.
Qed.

Lemma tracks_delete has has' items rows id :
  tracks has items rows → (∀ x, ¬ has' id x) →
  (∀ j x, j ≠ id → has' j x ↔ has j x) → tracks has' (delete id items) rows.
Proof.
  intros Ht Hid Hne j x. destruct (decide (j = id)) as [->|Hj].
  - rewrite lookup_delete_eq. split; [by intros ?%Hid|naive_solver].
  - rewrite lookup_delete_ne, Hne by done. apply Ht.
Qed.

Lemma tracks_at has items rows id r x :
  tracks has items rows → items !! id = Some r → has id x ↔ rows r x.
Proof. intros Ht Hr. rewrite (Ht id x), Hr. naive_solver. Qed.

Lemma tracks_absent has items rows id x : tracks has items rows → items !! id = None → ¬ has id x.
Proof. intros Ht Hr. rewrite (Ht id x), Hr. naive_solver. Qed.

End tracks.
