(* ===== verification/IndexFields.v ===== *)
(** Typed index values: [fireweed-engine/src/index_fields.rs] (native values, their
    extraction from an entity document, their framed keys and the document echoed from
    them), with the key, comparison and datetime helpers of
    [fireweed-projection/src/lib.rs] (lines 663-975 and 1285-1335). *)
From Stdlib Require Import Strings.Ascii.
From S2P Require Import Prelude Identity Priority Metadata Field IndexKey CreateQueue Engine JsonEquality Ordered.

(** ** Values *)

Inductive TypedValue :=
| TVString (s : string)
| TVInteger (i : Z)
| TVFloat (bits : Z)
| TVBool (b : bool)
| TVDateTime (t : UtcTimestamp).

#[export] Instance TypedValue_eq_dec : EqDecision TypedValue.
Proof. solve_decision. Defined.

Inductive IndexType := IString | IInteger | IFloat | IBoolean | IDatetime.

(** What the code reads of the two [axon_esf] definitions, and its datetime reader. *)
Class AxonIndex (N : Type) `{AxonEsf} := {
  IndexDef_field : IndexDef → string;
  IndexDef_index_type : IndexDef → IndexType;
  CompoundIndexDef_columns : CompoundIndexDef → list (string * IndexType);
  coerce_datetime_nanos : Value N → option Z;
}.

(** [Number::from(i64)] and [Number::from_f64]. *)
Class JsonBuild (N : Type) := {
  number_of_i64 : Z → N;
  number_from_f64 : Z → option N;
}.

(** ** Text *)

(** [str::split] on one character. *)
Fixpoint split_on (c : ascii) (s : string) : list string :=
  match s with
  | EmptyString => [EmptyString]
  | String a s =>
      if bool_decide (a = c) then EmptyString :: split_on c s
      else match split_on c s with
           | [] => [String a EmptyString]
           | p :: ps => String a p :: ps
           end
  end.

Fixpoint split_once (c : ascii) (s : string) : option (string * string) :=
  match s with
  | EmptyString => None
  | String a s =>
      if bool_decide (a = c) then Some (EmptyString, s)
      else '(p, q) ← split_once c s; Some (String a p, q)
  end.

Definition strip_suffix (suffix s : string) : option string :=
  let n := (String.length s - String.length suffix)%nat in
  if (String.length suffix <=? String.length s)%nat &&
     String.eqb (String.substring n (String.length suffix) s) suffix
  then Some (String.substring 0 n s) else None.

(** [str::parse::<i64>]. *)
Definition parse_i64 (s : string) : option Z :=
  match String.list_ascii_of_string s with
  | [] => None
  | c :: rest =>
      if bool_decide (c = "-"%char) then
        match rest with
        | [] => None
        | _ => n ← ItemId.parse_digits 0 rest; if n <=? 2 ^ 63 then Some (- n) else None
        end
      else
        let digits := if bool_decide (c = "+"%char) then rest else c :: rest in
        match digits with
        | [] => None
        | _ => n ← ItemId.parse_digits 0 digits; if n <=? i64_max then Some n else None
        end
  end.

(** [i64] arithmetic of a release build. *)
Definition wrap_i64 (z : Z) : Z := (z + 2 ^ 63) mod 2 ^ 64 - 2 ^ 63.

Definition days_from_civil (year month day : Z) : Z :=
  let year := wrap_i64 (year - (if month <=? 2 then 1 else 0)) in
  let era := Z.quot (if 0 <=? year then year else wrap_i64 (year - 399)) 400 in
  let yoe := wrap_i64 (year - wrap_i64 (era * 400)) in
  let month := wrap_i64 (month + (if 2 <? month then -3 else 9)) in
  let doy := wrap_i64 (Z.quot (wrap_i64 (153 * month + 2)) 5 + day - 1) in
  let doe := wrap_i64 (yoe * 365 + Z.quot yoe 4 - Z.quot yoe 100 + doy) in
  wrap_i64 (wrap_i64 (era * 146097) + doe - 719468).

Definition invalid_datetime : EngineError := Invalid "typed index value is not a valid datetime".

Fixpoint pad_zeros (n : nat) (s : string) : string :=
  match n, s with
  | O, _ => s
  | S n, EmptyString => String "0" (pad_zeros n EmptyString)
  | S n, String a s => String a (pad_zeros n s)
  end.

(** The seconds part: an [i64] and up to nine digits of fraction. *)
Definition parse_seconds (part : string) : EngineResult (Z * Z) :=
  match split_once "." part with
  | Some (whole, frac) =>
      second ← ok_or (parse_i64 whole) invalid_datetime;
      if String.eqb frac "" || (9 <? String.length frac)%nat ||
         negb (forallb (λ c, match ItemId.char_digit c with Some _ => true | None => false end)
                 (String.list_ascii_of_string frac))
      then Err invalid_datetime
      else nanos ← ok_or (ItemId.parse_u64 (pad_zeros 9 frac)) invalid_datetime; Ok (second, nanos)
  | None => second ← ok_or (parse_i64 part) invalid_datetime; Ok (second, 0)
  end.

Definition parse_utc_timestamp (value : string) : EngineResult UtcTimestamp :=
  value ← ok_or (match strip_suffix "Z" value with
                 | Some v => Some v
                 | None => strip_suffix "+00:00" value
                 end) invalid_datetime;
  '(date, time) ← ok_or (split_once "T" value) invalid_datetime;
  match split_on "-" date, split_on ":" time with
  | [y; m; d], [h; mi; sec] =>
      year ← ok_or (parse_i64 y) invalid_datetime;
      month ← ok_or (parse_i64 m) invalid_datetime;
      day ← ok_or (parse_i64 d) invalid_datetime;
      hour ← ok_or (parse_i64 h) invalid_datetime;
      minute ← ok_or (parse_i64 mi) invalid_datetime;
      '(second, nanos) ← parse_seconds sec;
      let seconds := wrap_i64 (wrap_i64 (days_from_civil year month day * 86400) +
                               wrap_i64 (hour * 3600) + wrap_i64 (minute * 60) + second) in
      map_err (λ _, invalid_datetime) (UtcTimestamp_new seconds nanos)
  | _, _ => Err invalid_datetime
  end.

(** ** Encoded values and keys *)

Definition nanos_per_second : Z := 1000000000.

(** [checked_mul] then [checked_add] on [i64]. *)
Definition timestamp_i64_nanos (t : UtcTimestamp) : option Z :=
  let n := seconds t * nanos_per_second in
  if (i64_min <=? n) && (n <=? i64_max) then checked_add_i64 n (nanoseconds t) else None.

Definition datetime_out_of_range : EngineError := Invalid "typed index datetime out of range".

(** Epoch nanoseconds read back by [div_euclid] and [rem_euclid]. *)
Definition timestamp_of_nanos (nanos : Z) : EngineResult UtcTimestamp :=
  map_err (λ _, datetime_out_of_range)
    (UtcTimestamp_new (nanos / nanos_per_second) (nanos mod nanos_per_second)).

Definition encode_i64 (v : Z) : bytes := to_be_bytes 8 (flip_sign v).

Definition encode_f64 (bits : Z) : bytes :=
  to_be_bytes 8 (if Z.land bits (Z.shiftl 1 63) =? 0 then Z.lor bits (Z.shiftl 1 63) else not_bits 64 bits).

Definition encode_typed_value (value : TypedValue) (expected : IndexType) : EngineResult bytes :=
  match expected, value with
  | IString, TVString s => Ok (as_bytes s)
  | IInteger, TVInteger v => Ok (encode_i64 v)
  | IFloat, TVFloat v => Ok (encode_f64 v)
  | IBoolean, TVBool b => Ok [if b then Byte.x01 else Byte.x00]
  | IDatetime, TVDateTime t => encode_i64 <$> ok_or (timestamp_i64_nanos t) datetime_out_of_range
  | _, _ => Err (Invalid "typed index field value does not match declared IndexType")
  end.

Definition frame_value (encoded : bytes) : bytes :=
  to_be_bytes 4 (Z.min u32_max (Z.of_nat (length encoded))) ++ encoded.

Definition framed_typed_value (value : TypedValue) (expected : IndexType) : EngineResult bytes :=
  frame_value <$> encode_typed_value value expected.

(** [bytes.len() as u32]. *)
Definition legacy_raw_key (field_bytes : list bytes) : bytes :=
  concat ((λ b, to_be_bytes 4 (Z.of_nat (length b) mod 2 ^ 32) ++ b) <$> field_bytes).

Definition legacy_index_key (spec : IndexSpec) (fields : gmap string bytes) : option bytes :=
  legacy_raw_key <$> mapM (λ f, fields !! f) (is_fields spec).

Definition legacy_index_keys (specs : list IndexSpec) (fields : gmap string bytes) : list (string * bytes) :=
  omap (λ spec, (λ k, (is_name spec, k)) <$> legacy_index_key spec fields) specs.

Section typed.
Context {N : Type} `{JsonNumber N, AxonIndex N, JsonBuild N}.

(** The columns of a declaration, in order. *)
Definition index_columns (d : IndexDeclaration) : list (string * IndexType) :=
  match d with
  | Single def => [(IndexDef_field def, IndexDef_index_type def)]
  | Compound def => CompoundIndexDef_columns def
  end.

Definition declared_index_field_paths (indexes : list QueueIndex) : list (string * IndexType) :=
  indexes ≫= (λ qi, index_columns (declaration qi)).

Fixpoint columns_key (columns : list (string * IndexType)) (fields : gmap string TypedValue)
    (out : bytes) : EngineResult (option bytes) :=
  match columns with
  | [] => Ok (Some out)
  | (field, ty) :: columns =>
      match fields !! field with
      | None => Ok None
      | Some value => framed ← framed_typed_value value ty; columns_key columns fields (out ++ framed)
      end
  end.

Definition typed_index_key (d : IndexDeclaration) (fields : gmap string TypedValue) : EngineResult (option bytes) :=
  columns_key (index_columns d) fields [].

Definition typed_index_keys (indexes : list QueueIndex) (fields : gmap string TypedValue)
    : EngineResult (list (string * bytes)) :=
  try_fold (λ out qi,
    key ← typed_index_key (declaration qi) fields;
    Ok (match key with Some k => out ++ [(qi_name qi, k)] | None => out end)) [] indexes.

(** ** Values from an entity document *)

Definition json_to_typed_value (value : Value N) (ty : IndexType) : EngineResult TypedValue :=
  match ty, value with
  | IString, VString s => Ok (TVString s)
  | IString, _ => Err (Invalid "typed index field requires string value")
  | IInteger, VNumber n => TVInteger <$> ok_or (as_i64 n) (Invalid "typed index field requires integer value")
  | IInteger, _ => Err (Invalid "typed index field requires integer value")
  | IFloat, VNumber n => TVFloat <$> ok_or (as_f64 n) (Invalid "typed index field requires float value")
  | IFloat, _ => Err (Invalid "typed index field requires float value")
  | IBoolean, VBool b => Ok (TVBool b)
  | IBoolean, _ => Err (Invalid "typed index field requires boolean value")
  | IDatetime, VString s =>
      match parse_i64 s with
      | Some secs => TVDateTime <$> map_err (λ _, datetime_out_of_range) (UtcTimestamp_new secs 0)
      | None =>
          nanos ← ok_or (coerce_datetime_nanos value)
                    (Invalid "typed index datetime string must be RFC 3339 or epoch seconds");
          TVDateTime <$> timestamp_of_nanos nanos
      end
  | IDatetime, VNumber n =>
      nanos ← ok_or (as_i64 n) (Invalid "typed index datetime requires integer epoch-nanos");
      TVDateTime <$> timestamp_of_nanos nanos
  | IDatetime, _ => Err (Invalid "typed index field requires datetime value")
  end.

Fixpoint walk_path (parts : list string) (cur : Value N) : option (Value N) :=
  match parts with
  | [] => Some cur
  | part :: parts =>
      match cur with
      | VObject map => next ← assoc part map; walk_path parts next
      | _ => None
      end
  end.

Definition extract_path (record : Value N) (path : string) : option (Value N) :=
  walk_path (split_on "." path) record.

Definition extract_index_fields_from_entity (indexes : list QueueIndex) (entity : Value N)
    : EngineResult (gmap string TypedValue) :=
  try_fold (λ out column,
    let '(path, ty) := column in
    if decide (is_Some (out !! path)) then Ok out
    else
      match extract_path entity path with
      | None | Some VNull => Ok out
      | Some raw => v ← json_to_typed_value raw ty; Ok (<[path := v]> out)
      end) ∅ (declared_index_field_paths indexes).

Definition materialize_index_fields (typed_indexes : list QueueIndex) (explicit : gmap string TypedValue)
    (entity : option (Value N)) : EngineResult (gmap string TypedValue) :=
  if negb (bool_decide (explicit = ∅)) then Ok explicit
  else match typed_indexes, entity with
       | [], _ | _, None => Ok ∅
       | _, Some doc => extract_index_fields_from_entity typed_indexes doc
       end.

Definition typed_index_keys_for_item (indexes : list QueueIndex) (index_fields : gmap string TypedValue)
    (entity : option (Value N)) : EngineResult (list (string * bytes)) :=
  match indexes with
  | [] => Ok []
  | _ =>
      if negb (bool_decide (index_fields = ∅)) then typed_index_keys indexes index_fields
      else match entity with
           | None => Ok []
           | Some doc => extracted ← extract_index_fields_from_entity indexes doc; typed_index_keys indexes extracted
           end
  end.

(** The projection's keys of an entity, each index extracting its own columns. *)
Definition entity_index_keys (specs : list QueueIndex) (entity : option (Value N))
    : EngineResult (list (string * bytes)) :=
  try_fold (λ out spec,
    key ← match entity with
          | None => Ok None
          | Some doc =>
              fields ← extract_index_fields_from_entity [spec] doc;
              typed_index_key (declaration spec) fields
          end;
    Ok (match key with Some k => out ++ [(qi_name spec, k)] | None => out end)) [] specs.

(** ** The document of native values *)

(** The engine's encoding: a datetime is its epoch nanoseconds. *)
Definition typed_value_to_json (value : TypedValue) : EngineResult (Value N) :=
  match value with
  | TVString v => Ok (VString v)
  | TVInteger v => Ok (VNumber (number_of_i64 v))
  | TVFloat v => VNumber <$> ok_or (number_from_f64 v) (Invalid "typed index float is not finite")
  | TVBool v => Ok (VBool v)
  | TVDateTime t => (λ n, VNumber (number_of_i64 n)) <$> ok_or (timestamp_i64_nanos t) datetime_out_of_range
  end.

Fixpoint insert_dotted (root : list (string * Value N)) (parts : list string) (value : Value N)
    : EngineResult (list (string * Value N)) :=
  match parts with
  | [] => Ok root
  | [part] => Ok (btree_insert part value root)
  | part :: parts =>
      match default (VObject []) (assoc part root) with
      | VObject map => map' ← insert_dotted map parts value; Ok (btree_insert part (VObject map') root)
      | _ => Err (Invalid "typed index path collides with non-object parent")
      end
  end.

Definition index_fields_as_entity (fields : gmap string TypedValue) : EngineResult (Value N) :=
  VObject <$> try_fold (λ map e,
    v ← typed_value_to_json e.2; insert_dotted map (split_on "." e.1) v) [] (btree_list fields).

Definition echo_entity_document (entity : option (Value N)) (index_fields : gmap string TypedValue)
    : EngineResult (option (Value N)) :=
  match entity with
  | Some _ => Ok entity
  | None => if bool_decide (index_fields = ∅) then Ok None else Some <$> index_fields_as_entity index_fields
  end.

Definition rehydrate_entity_document (entity : option (Value N)) (index_fields : gmap string TypedValue)
    : option (Value N) :=
  match echo_entity_document entity index_fields with Ok e => e | Err _ => None end.

Definition entity_fully_indexed (d : QueueDefinition) (index_fields : gmap string TypedValue)
    (entity : option (Value N)) : bool :=
  match qd_typed_indexes d, qd_entity_schema d, entity with
  | _ :: _, None, Some doc =>
      negb (bool_decide (index_fields = ∅)) &&
      match index_fields_as_entity index_fields with Ok synth => json_eqb doc synth | Err _ => false end
  | _, _, _ => false
  end.

(** ** Query values of the projection *)

Definition not_declared_type : EngineError := Invalid "typed index value is not valid for declared type".

(** A column of an entity: the name is one key of the object, and a numeric datetime
    counts seconds. *)
Definition typed_value_for_field (entity : Value N) (field : string) (ty : IndexType)
    : EngineResult (option TypedValue) :=
  match entity with
  | VObject map =>
      match assoc field map with
      | None | Some VNull => Ok None
      | Some value =>
          Some <$>
          match ty, value with
          | IString, VString s => Ok (TVString s)
          | IInteger, VNumber n => TVInteger <$> ok_or (as_i64 n) not_declared_type
          | IFloat, VNumber n => TVFloat <$> ok_or (as_f64 n) not_declared_type
          | IBoolean, VBool b => Ok (TVBool b)
          | IDatetime, VString s => TVDateTime <$> parse_utc_timestamp s
          | IDatetime, VNumber n =>
              seconds ← ok_or (as_i64 n) not_declared_type;
              TVDateTime <$> map_err (λ _, not_declared_type) (UtcTimestamp_new seconds 0)
          | _, _ => Err not_declared_type
          end
      end
  | _ => Err (Invalid "typed index entity is not an object")
  end.

(** The projection's own encoding: a datetime is its epoch seconds. *)
Definition set_value_to_json (value : TypedValue) : EngineResult (Value N) :=
  match value with
  | TVString v => Ok (VString v)
  | TVInteger v => Ok (VNumber (number_of_i64 v))
  | TVFloat v => VNumber <$> ok_or (number_from_f64 v) not_declared_type
  | TVBool v => Ok (VBool v)
  | TVDateTime t => Ok (VNumber (number_of_i64 (seconds t)))
  end.

Definition merge_entity_document (entity : option (Value N)) (set_fields : gmap string TypedValue)
    : EngineResult (Value N) :=
  object ← match entity with
           | Some (VObject map) => Ok map
           | Some _ => Err (Invalid "typed index entity is not an object")
           | None => Ok []
           end;
  VObject <$> try_fold (λ object e,
    v ← set_value_to_json e.2; Ok (btree_insert e.1 v object)) object (btree_list set_fields).

End typed.

Definition typed_value_from_filter_value (value : TypedValue) (ty : IndexType) : EngineResult TypedValue :=
  match value, ty with
  | TVString _, IString | TVInteger _, IInteger | TVFloat _, IFloat | TVBool _, IBoolean
  | TVDateTime _, IDatetime => Ok value
  | _, _ => Err not_declared_type
  end.

(** [f64::partial_cmp]. *)
Definition f64_partial_cmp (a b : Z) : option comparison :=
  if f64_is_nan a || f64_is_nan b then None else Some (f64_value a ?= f64_value b).

Definition typed_value_matches_query (value filter : TypedValue) : bool :=
  match value, filter with
  | TVString a, TVString b => String.eqb a b
  | TVInteger a, TVInteger b => a =? b
  | TVFloat a, TVFloat b => f64_eqb a b
  | TVBool a, TVBool b => Bool.eqb a b
  | TVDateTime a, TVDateTime b => bool_decide (a = b)
  | _, _ => false
  end.

Definition typed_value_compare (a b : TypedValue) : EngineResult comparison :=
  match a, b with
  | TVString a, TVString b => Ok (compare a b)
  | TVInteger a, TVInteger b => Ok (a ?= b)
  | TVFloat a, TVFloat b => ok_or (f64_partial_cmp a b) (Invalid "typed index value comparison is undefined")
  | TVBool a, TVBool b => Ok (bool_cmp a b)
  | TVDateTime a, TVDateTime b => Ok (cmp_timestamp a b)
  | _, _ => Err not_declared_type
  end.

(** ** Reading a key back *)

Definition invalid_key : EngineError := Storage "invalid canonical index key".

Fixpoint be_value (b : bytes) (acc : Z) : Z :=
  match b with [] => acc | x :: b => be_value b (256 * acc + Z_of_byte x) end.

(** One framed component: four length bytes, then as many bytes. *)
Definition take_component (key : bytes) : EngineResult (bytes * bytes) :=
  if (length key <? 4)%nat then Err invalid_key
  else
    let n := Z.to_nat (be_value (take 4 key) 0) in
    let rest := drop 4 key in
    if (length rest <? n)%nat then Err invalid_key else Ok (take n rest, drop n rest).

Fixpoint split_key {A} (columns : list A) (key : bytes) : EngineResult (list bytes) :=
  match columns with
  | [] => match key with [] => Ok [] | _ => Err invalid_key end
  | _ :: columns =>
      '(component, key) ← take_component key;
      rest ← split_key columns key; Ok (component :: rest)
  end.

(** [u64::from_be_bytes] of exactly eight bytes. *)
Definition from_be_bytes8 (b : bytes) : EngineResult Z :=
  if (length b =? 8)%nat then Ok (be_value b 0) else Err invalid_key.

Definition u64_as_i64 (z : Z) : Z := if 2 ^ 63 <=? z then z - 2 ^ 64 else z.

(** [utf8] is [str::from_utf8(..).is_ok()]. *)
Definition decode_component (utf8 : bytes → bool) (b : bytes) (ty : IndexType) : EngineResult TypedValue :=
  match ty with
  | IString => if utf8 b then Ok (TVString (String.string_of_list_byte b)) else Err invalid_key
  | IInteger => encoded ← from_be_bytes8 b; Ok (TVInteger (u64_as_i64 (Z.lxor encoded (Z.shiftl 1 63))))
  | IFloat =>
      encoded ← from_be_bytes8 b;
      Ok (TVFloat (if negb (Z.land encoded (Z.shiftl 1 63) =? 0)
                   then Z.land encoded (not_bits 64 (Z.shiftl 1 63)) else not_bits 64 encoded))
  | IBoolean =>
      match b with
      | [Byte.x00] => Ok (TVBool false)
      | [Byte.x01] => Ok (TVBool true)
      | _ => Err invalid_key
      end
  | IDatetime =>
      encoded ← from_be_bytes8 b;
      let nanos := u64_as_i64 (Z.lxor encoded (Z.shiftl 1 63)) in
      Ok (TVDateTime (mkUtcTimestamp (nanos / nanos_per_second) (nanos mod nanos_per_second)))
  end.

(** A key decoded column by column. *)
Fixpoint decode_key (utf8 : bytes → bool) (columns : list (string * IndexType)) (key : bytes)
    : EngineResult (list (string * TypedValue)) :=
  match columns with
  | [] => match key with [] => Ok [] | _ => Err invalid_key end
  | (field, ty) :: columns =>
      '(component, key) ← take_component key;
      v ← decode_component utf8 component ty;
      rest ← decode_key utf8 columns key; Ok ((field, v) :: rest)
  end.

(** ** Lemmas: words *)

Lemma be_value_to_be_bytes n z acc :
  0 ≤ z < 256 ^ Z.of_nat n → be_value (to_be_bytes n z) acc = acc * 256 ^ Z.of_nat n + z.
Proof.
  revert z acc; induction n as [|k IH]; intros z acc Hz.
  { cbn in *. lia. }
  rewrite Nat2Z.inj_succ, Z.pow_succ_r in * by lia. cbn [to_be_bytes be_value].
  set (p := 256 ^ Z.of_nat k) in *. assert (Hp : 0 < p) by (apply Z.pow_pos_nonneg; lia).
  rewrite Z_of_byte_of_Z, (Z.mod_small (z / p)) by
    (split; [apply Z.div_pos; lia|apply Z.div_lt_upper_bound; lia]).
  rewrite <-(to_be_bytes_mod k k z) by lia. fold p.
  rewrite IH by (apply Z.mod_pos_bound; lia). pose proof (Z.div_mod z p). lia.
Qed.

Lemma testbit_63 b : is_u64 b → Z.testbit b 63 = (2 ^ 63 <=? b).
Proof.
  intros Hb. destruct (Z.leb_spec (2 ^ 63) b).
  - apply Z.testbit_true; [lia|].
    assert (b / 2 ^ 63 = 1) as -> by (symmetry; apply (Z.div_unique_pos _ _ _ (b - 2 ^ 63)); int_lia). done.
  - apply Z.testbit_false; [lia|]. by rewrite Z.div_small by int_lia.
Qed.

Lemma land_high b : is_u64 b → Z.land b (2 ^ 63) = if 2 ^ 63 <=? b then 2 ^ 63 else 0.
Proof.
  intros Hb. rewrite <-testbit_63 by done. apply Z.bits_inj'. intros n Hn.
  rewrite Z.land_spec, Z.pow2_bits_eqb by lia. destruct (Z.eqb_spec 63 n) as [<-|Hne].
  - destruct (Z.testbit b 63); [by rewrite Z.pow2_bits_true|by rewrite Z.bits_0].
  - rewrite andb_false_r. destruct (Z.testbit b 63); [by rewrite Z.pow2_bits_false|by rewrite Z.bits_0].
Qed.

(** The ordered word of a float: the sign bit set, or every bit complemented. *)
Definition f64_word (bits : Z) : Z := if 2 ^ 63 <=? bits then 2 ^ 64 - 1 - bits else bits + 2 ^ 63.

Lemma encode_f64_word bits : is_u64 bits → encode_f64 bits = to_be_bytes 8 (f64_word bits).
Proof.
  intros Hb. unfold encode_f64, f64_word. rewrite Z.shiftl_1_l, land_high by done.
  destruct (Z.leb_spec (2 ^ 63) bits); cbn [Z.eqb].
  - rewrite not_bits_eq by int_lia. done.
  - rewrite ItemIdFacts.lor_add; [done|]. rewrite land_high by done.
    by rewrite (proj2 (Z.leb_gt _ _)) by lia.
Qed.

Lemma f64_word_u64 bits : is_u64 bits → is_u64 (f64_word bits).
Proof. intros Hb. unfold f64_word. destruct (Z.leb_spec (2 ^ 63) bits); int_lia. Qed.

Lemma from_be_bytes8_word z : is_u64 z → from_be_bytes8 (to_be_bytes 8 z) = Ok z.
Proof.
  intros Hz. unfold from_be_bytes8. rewrite length_to_be_bytes, be_value_to_be_bytes by int_lia. done.
Qed.

Lemma flip_sign_u64 v : is_i64 v → is_u64 (flip_sign v).
Proof. intros Hv. rewrite flip_sign_eq by done. int_lia. Qed.

Lemma flip_sign_back v : is_i64 v → u64_as_i64 (Z.lxor (flip_sign v) (Z.shiftl 1 63)) = v.
Proof.
  intros Hv. unfold flip_sign. rewrite Z.lxor_assoc, Z.lxor_nilpotent, Z.lxor_0_r.
  unfold i64_as_u64, u64_as_i64. destruct (Z.leb_spec 0 v).
  - rewrite Z.mod_small by int_lia. by rewrite (proj2 (Z.leb_gt _ _)) by int_lia.
  - replace (v mod 2 ^ 64) with (v + 2 ^ 64) by (apply (Z.mod_unique_pos _ _ (-1)); int_lia).
    rewrite (proj2 (Z.leb_le _ _)) by int_lia. lia.
Qed.

Lemma timestamp_i64_nanos_Some t n :
  timestamp_i64_nanos t = Some n ↔
  n = seconds t * nanos_per_second + nanoseconds t ∧ is_i64 (seconds t * nanos_per_second) ∧ is_i64 n.
Proof.
  unfold timestamp_i64_nanos. destruct ((i64_min <=? _) && _) eqn:E; revert E;
    rewrite ?andb_true_iff, ?andb_false_iff, ?Z.leb_le, ?Z.leb_gt.
  - intros E. rewrite checked_add_i64_Some. unfold is_i64. lia.
  - intros E. split; [done|]. unfold is_i64. lia.
Qed.

(** ** Lemmas: components *)

(** A value its index type can hold; [utf8] accepts its text. *)
Definition value_fits (utf8 : bytes → bool) (v : TypedValue) : Prop :=
  match v with
  | TVString s => utf8 (as_bytes s) = true ∧ Z.of_nat (length (as_bytes s)) ≤ u32_max
  | TVInteger i => is_i64 i
  | TVFloat b => is_u64 b
  | TVBool _ => True
  | TVDateTime t => 0 ≤ nanoseconds t < nanos_per_second
  end.

Lemma take_component_frame encoded rest :
  Z.of_nat (length encoded) ≤ u32_max → take_component (frame_value encoded ++ rest) = Ok (encoded, rest).
Proof.
  intros Hl. unfold take_component, frame_value. rewrite Z.min_r by done. rewrite <-app_assoc.
  set (len := to_be_bytes 4 (Z.of_nat (length encoded))).
  assert (Hlen : length len = 4%nat) by apply length_to_be_bytes.
  rewrite length_app, Hlen. rewrite (proj2 (Nat.ltb_ge _ _)) by lia.
  rewrite <-Hlen, take_app_length, drop_app_length. unfold len.
  rewrite be_value_to_be_bytes by int_lia. rewrite Z.mul_0_l, Z.add_0_l, Nat2Z.id.
  rewrite length_app, (proj2 (Nat.ltb_ge _ _)) by lia.
  by rewrite take_app_length, drop_app_length.
Qed.

Lemma encode_typed_value_length utf8 v ty b :
  value_fits utf8 v → encode_typed_value v ty = Ok b → Z.of_nat (length b) ≤ u32_max.
Proof.
  intros Hv He. destruct ty, v; try done; cbn [encode_typed_value] in He.
  - injection He as <-. apply Hv.
  - injection He as <-. unfold encode_i64. rewrite length_to_be_bytes. int_lia.
  - injection He as <-. unfold encode_f64. rewrite length_to_be_bytes. int_lia.
  - injection He as <-. cbn. int_lia.
  - apply fmap_Ok in He as (n & _ & <-). unfold encode_i64. rewrite length_to_be_bytes. int_lia.
Qed.

Lemma decode_encode utf8 v ty b :
  value_fits utf8 v → encode_typed_value v ty = Ok b → decode_component utf8 b ty = Ok v.
Proof.
  intros Hv He. destruct ty, v as [s|i|f|x|t]; try done; cbn [encode_typed_value] in He.
  - injection He as <-. destruct Hv as [Hu _]. cbn. rewrite Hu. unfold as_bytes.
    by rewrite String.string_of_list_byte_of_string.
  - injection He as <-. cbn [decode_component]. unfold encode_i64.
    rewrite from_be_bytes8_word by by apply flip_sign_u64. cbn. by rewrite flip_sign_back.
  - injection He as <-. cbn in Hv. cbn [decode_component]. rewrite encode_f64_word by done.
    pose proof (f64_word_u64 f Hv). rewrite from_be_bytes8_word by done. cbn [mbind result_bind].
    rewrite Z.shiftl_1_l, land_high by done. unfold f64_word in *.
    destruct (Z.leb_spec (2 ^ 63) f).
    + rewrite (proj2 (Z.leb_gt (2 ^ 63) _)) by int_lia. cbn [Z.eqb negb]. rewrite not_bits_eq by int_lia.
      do 2 f_equal. lia.
    + rewrite (proj2 (Z.leb_le _ _)) by int_lia. cbn [Z.eqb negb]. rewrite not_bits_eq by int_lia.
      replace (2 ^ 64 - 1 - 2 ^ 63) with (Z.ones 63) by done. rewrite Z.land_ones by lia.
      do 2 f_equal. symmetry. apply (Z.mod_unique_pos _ _ 1); int_lia.
  - injection He as <-. by destruct x.
  - apply fmap_Ok in He as (n & Hn%ok_or_Ok%timestamp_i64_nanos_Some & <-). destruct Hn as (Hn & _ & Hr).
    cbn [decode_component]. unfold encode_i64. rewrite from_be_bytes8_word by by apply flip_sign_u64.
    cbn [mbind result_bind]. rewrite flip_sign_back by done. cbn in Hv. destruct t as [s ns]. cbn in *.
    assert (n / nanos_per_second = s) as -> by (symmetry; apply (Z.div_unique_pos _ _ _ ns); unfold nanos_per_second in *; lia).
    assert (n mod nanos_per_second = ns) as -> by (symmetry; apply (Z.mod_unique_pos _ _ s); unfold nanos_per_second in *; lia).
    done.
Qed.

(** What one column contributed to a key. *)
Definition column_part (fields : gmap string TypedValue) (column : string * IndexType) (part : bytes) : Prop :=
  ∃ v, fields !! column.1 = Some v ∧ encode_typed_value v column.2 = Ok part.

Lemma columns_key_Some columns fields out k :
  columns_key columns fields out = Ok (Some k) →
  ∃ parts, k = out ++ concat (frame_value <$> parts) ∧ Forall2 (column_part fields) columns parts.
Proof.
  revert out; induction columns as [|[f ty] columns IH]; intros out.
  { intros [= <-]. exists []. by rewrite app_nil_r. }
  cbn [columns_key]. destruct (fields !! f) as [v|] eqn:Hf; [|done].
  intros (framed & Hframed & Hk)%bind_Ok. apply fmap_Ok in Hframed as (part & Hp & <-).
  apply IH in Hk as (parts & -> & Hparts). exists (part :: parts). split.
  - cbn. by rewrite <-app_assoc.
  - constructor; [by exists v|done].
Qed.

Definition fields_fit (utf8 : bytes → bool) (columns : list (string * IndexType))
    (fields : gmap string TypedValue) : Prop :=
  ∀ path v, path ∈ columns.*1 → fields !! path = Some v → value_fits utf8 v.

Lemma decode_columns utf8 columns fields parts :
  fields_fit utf8 columns fields → Forall2 (column_part fields) columns parts →
  ∃ vs, decode_key utf8 columns (concat (frame_value <$> parts)) = Ok vs ∧
        Forall2 (λ column e, e.1 = column.1 ∧ fields !! column.1 = Some e.2) columns vs.
Proof.
  intros Hfit HF. induction HF as [|[f ty] part columns parts (v & Hv & Hp) HF IH]; [by exists []|].
  destruct IH as (vs & Hd & Hvs).
  { intros path w Hpath. apply Hfit. set_solver. }
  assert (Hfv : value_fits utf8 v) by (apply (Hfit f); [set_solver|done]).
  exists ((f, v) :: vs). split; [|by constructor]. cbn [decode_key fmap list_fmap concat].
  rewrite take_component_frame by (by eapply encode_typed_value_length). cbn [mbind result_bind].
  rewrite (decode_encode utf8 v) by done. cbn. cbn in Hd. by rewrite Hd.
Qed.

(** ** Lemmas: order *)

Definition negative_zero (v : TypedValue) : bool := match v with TVFloat b => b =? 2 ^ 63 | _ => false end.

Lemma f64_word_ordered b : is_u64 b → b ≠ 2 ^ 63 → f64_word b = float_ordered (float_bits b).
Proof.
  intros Hb Hz. rewrite float_ordered_eq by done. pose proof (f64_magnitude_nonneg b) as Hn.
  pose proof (f64_magnitude_zero b) as Hmz. unfold f64_word, f64_value, f64_negative.
  destruct (Z.leb_spec (2 ^ 63) b) as [Hl|Hl].
  - assert (Hm : b mod 2 ^ 63 = b - 2 ^ 63) by (symmetry; apply (Z.mod_unique_pos _ _ 1); int_lia).
    rewrite (proj2 (Z.ltb_lt _ _)) by lia. lia.
  - rewrite (proj2 (Z.ltb_ge _ _)) by lia. rewrite Z.mod_small by int_lia. lia.
Qed.

Lemma encode_f64_cmp a b :
  is_u64 a → is_u64 b → a ≠ 2 ^ 63 → b ≠ 2 ^ 63 →
  bytes_cmp (encode_f64 a) (encode_f64 b) = (f64_value a ?= f64_value b).
Proof.
  intros Ha Hb Hza Hzb. pose proof (f64_word_u64 a Ha). pose proof (f64_word_u64 b Hb).
  rewrite !encode_f64_word, to_be_bytes_cmp by (done || int_lia).
  by rewrite !f64_word_ordered, float_ordered_cmp.
Qed.

Lemma encode_i64_cmp a b : is_i64 a → is_i64 b → bytes_cmp (encode_i64 a) (encode_i64 b) = (a ?= b).
Proof.
  intros Ha Hb. unfold encode_i64. rewrite !flip_sign_eq, to_be_bytes_cmp by (done || int_lia).
  by rewrite !(Z.add_comm _ (2 ^ 63)), Z.add_compare_mono_l.
Qed.

Lemma nanos_cmp s t m n :
  0 ≤ nanoseconds s < nanos_per_second → 0 ≤ nanoseconds t < nanos_per_second →
  m = seconds s * nanos_per_second + nanoseconds s → n = seconds t * nanos_per_second + nanoseconds t →
  (m ?= n) = cmp_timestamp s t.
Proof.
  unfold nanos_per_second, cmp_timestamp. intros Hs Ht -> ->.
  destruct (Z.compare_spec (seconds s) (seconds t)) as [E|L|G]; cbn [then_cmp].
  - rewrite E. destruct (Z.compare_spec (nanoseconds s) (nanoseconds t));
      [apply Z.compare_eq_iff|apply Z.compare_lt_iff|apply Z.compare_gt_iff]; lia.
  - apply Z.compare_lt_iff. lia.
  - apply Z.compare_gt_iff. lia.
Qed.

Lemma string_compare_bytes s t : String.compare s t = bytes_cmp (as_bytes s) (as_bytes t).
Proof.
  revert t; induction s as [|a s IH]; intros [|b t]; try done.
  change (String.compare (String a s) (String b t)) with
    (match Ascii.compare a b with Eq => String.compare s t | c => c end).
  change (as_bytes (String a s)) with (Ascii.byte_of_ascii a :: as_bytes s).
  change (as_bytes (String b t)) with (Ascii.byte_of_ascii b :: as_bytes t).
  cbn [bytes_cmp]. rewrite IH. unfold Ascii.compare, Z_of_byte.
  assert (Hn : ∀ c, Byte.to_N (Ascii.byte_of_ascii c) = Ascii.N_of_ascii c).
  { intros c. unfold Ascii.N_of_ascii. by destruct c as [[] [] [] [] [] [] [] []]. }
  rewrite !Hn, <-N2Z.inj_compare. done.
Qed.

Lemma encoded_value_cmp utf8 v w ty a b c :
  value_fits utf8 v → value_fits utf8 w → negative_zero v = false → negative_zero w = false →
  encode_typed_value v ty = Ok a → encode_typed_value w ty = Ok b → typed_value_compare v w = Ok c →
  bytes_cmp a b = c.
Proof.
  intros Hv Hw Hzv Hzw Ha Hb Hc.
  destruct ty, v as [s|i|f|x|t], w as [s'|i'|f'|x'|t']; try done; cbn [encode_typed_value] in Ha, Hb; cbn in Hc, Hv, Hw.
  - simplify_eq. symmetry. apply string_compare_bytes.
  - simplify_eq. by apply encode_i64_cmp.
  - simplify_eq. cbn in Hzv, Hzw. apply Z.eqb_neq in Hzv, Hzw. unfold f64_partial_cmp in Hc.
    destruct (f64_is_nan f || f64_is_nan f'); [done|]. injection Hc as <-. by apply encode_f64_cmp.
  - simplify_eq. by destruct x, x'.
  - apply fmap_Ok in Ha as (m & Hm%ok_or_Ok%timestamp_i64_nanos_Some & <-).
    apply fmap_Ok in Hb as (n & Hn%ok_or_Ok%timestamp_i64_nanos_Some & <-). injection Hc as <-.
    rewrite encode_i64_cmp by tauto. apply nanos_cmp; tauto.
Qed.

(** ** Theorems *)

(** The documented readings of a built number. *)
Class JsonBuildLaws (N : Type) `{JsonNumber N, JsonBuild N} :=
  as_i64_of_i64 z : is_i64 z → as_i64 (number_of_i64 z) = Some z.

(** A concrete build: numbers are integers, definitions are their columns. *)
Definition sample_number : JsonNumber Z := {|
  literal_numbers := false;
  number_text := λ z, ItemId.Display (ItemId.mk z);
  as_u64 := λ z, if bool_decide (is_u64 z) then Some z else None;
  as_i64 := λ z, if (i64_min <=? z) && (z <=? i64_max) then Some z else None;
  as_f64 := λ _, None;
  number_eqb := Z.eqb;
|}.
Definition sample_build : JsonBuild Z := {| number_of_i64 := id; number_from_f64 := λ _, None |}.
Definition sample_esf : AxonEsf := {|
  EntitySchemaDocument := unit;
  IndexDef := string * IndexType * bool;
  CompoundIndexDef := list (string * IndexType) * bool;
  IndexDef_unique := snd;
  CompoundIndexDef_unique := snd;
  CompoundIndexDef_fields := λ d, d.1.*1;
|}.
Definition sample_axon : @AxonIndex Z sample_esf :=
  Build_AxonIndex Z sample_esf (λ d, d.1.1) (λ d, d.1.2) (λ d, d.1) (λ _, None).
#[local] Existing Instance sample_number.
#[local] Existing Instance sample_build.
#[local] Existing Instance sample_esf.
#[local] Existing Instance sample_axon.
Definition sample_laws : JsonBuildLaws Z.
Proof.
  intros z [Hl Hu]. cbn. by rewrite (proj2 (Z.leb_le _ _) Hl), (proj2 (Z.leb_le _ _) Hu).
Qed.
#[local] Existing Instance sample_laws.

(** C31. A key of a typed index holds the values it was framed from: every column of the
    declaration decodes to the field's value, so two items share a key of the index exactly
    on equal columns. Column text is valid UTF-8 shorter than [u32::MAX], a datetime's
    nanoseconds are below a second. *)
Theorem typed_key_roundtrip {N} `{JsonNumber N, AxonIndex N} utf8 d fields k :
  typed_index_key d fields = Ok (Some k) →
  fields_fit utf8 (index_columns d) fields →
  (∃ vs, decode_key utf8 (index_columns d) k = Ok vs ∧
     Forall2 (λ column e, e.1 = column.1 ∧ fields !! column.1 = Some e.2) (index_columns d) vs) ∧
  (∀ fields' path, typed_index_key d fields' = Ok (Some k) → fields_fit utf8 (index_columns d) fields' →
     path ∈ (index_columns d).*1 → fields' !! path = fields !! path).
Proof.
  intros (parts & -> & Hparts)%columns_key_Some Hfit.
  pose proof (decode_columns utf8 _ _ _ Hfit Hparts) as (vs & Hd & Hvs). split; [by exists vs|].
  intros fields' path (parts' & Heq & Hparts')%columns_key_Some Hfit' Hpath. cbn in Heq. rewrite Heq in Hd.
  pose proof (decode_columns utf8 _ _ _ Hfit' Hparts') as (vs' & Hd' & Hvs').
  rewrite Hd in Hd'. injection Hd' as <-.
  clear -Hvs Hvs' Hpath. revert vs Hvs Hvs'. induction (index_columns d) as [|c cs IH]; [set_solver|].
  intros vs (e & vs1 & [He Hf] & Hvs & ->)%Forall2_cons_inv_l (e' & vs2 & [He' Hf'] & Hvs' & [= <- <-])%Forall2_cons_inv_l.
  cbn in Hpath. apply elem_of_cons in Hpath as [->|Hpath]; [congruence|]. by eapply IH.
Qed.

Definition sample_declaration : IndexDeclaration := Compound ([("sku", IString); ("rank", IInteger)], true).
Definition sample_fields : gmap string TypedValue := {["sku" := TVString "a"; "rank" := TVInteger (-3)]}.

Lemma typed_key_roundtrip_witness :
  ∃ k vs, typed_index_key sample_declaration sample_fields = Ok (Some k) ∧
    decode_key (λ _, true) (index_columns sample_declaration) k = Ok vs ∧ length k = 17%nat.
Proof.
  destruct (typed_key_roundtrip (λ _, true) sample_declaration sample_fields
    (default [] (match typed_index_key sample_declaration sample_fields with Ok k => k | Err _ => None end)))
    as [(vs & Hd & _) _].
  - vm_compute. reflexivity.
  - intros path v Hp Hv. change (path ∈ ["sku"; "rank"]) in Hp.
    apply elem_of_cons in Hp as [-> | [-> | []%not_elem_of_nil]%elem_of_cons];
      vm_compute in Hv; injection Hv as <-; split; vm_compute; reflexivity || discriminate.
  - eexists _, vs. split; [vm_compute; reflexivity|]. split; [exact Hd|]. vm_compute. reflexivity.
Defined.

(** Encoded column values order as the values do, which is what lets the filters of a
    metrics query compare bytes: for one index type, whenever the typed comparison is
    defined. The one exception is [-0.0], which the typed comparison equates with [0.0] and
    the encoding puts below it. *)
Theorem encoded_value_order utf8 v w ty a b c :
  encode_typed_value v ty = Ok a → encode_typed_value w ty = Ok b →
  value_fits utf8 v → value_fits utf8 w → typed_value_compare v w = Ok c →
  (negative_zero v = false → negative_zero w = false → bytes_cmp a b = c) ∧
  (v = TVFloat (2 ^ 63) → w = TVFloat 0 → c = Eq ∧ bytes_cmp a b = Lt).
Proof.
  intros Ha Hb Hv Hw Hc. split; [intros; by apply (encoded_value_cmp utf8 v w ty)|].
  intros -> ->. destruct ty; try done. vm_compute in Ha, Hb, Hc. by simplify_eq.
Qed.

Lemma encoded_value_order_witness :
  bytes_cmp (encode_i64 (-3)) (encode_i64 4) = Lt.
Proof.
  refine (proj1 (encoded_value_order (λ _, true) (TVInteger (-3)) (TVInteger 4) IInteger _ _ Lt
    eq_refl eq_refl _ _ eq_refl) eq_refl eq_refl); cbn; int_lia.
Defined.

(** C36. The two halves of the code disagree on the unit of a numeric datetime. A stored
    native datetime is echoed into the document as epoch nanoseconds and read back by range
    scans as epoch seconds; a bounded mutation writes epoch seconds and the index extraction
    reads nanoseconds. Neither path returns an instant past the epoch's first second. *)
Theorem datetime_units_disagree {N} `{JsonBuildLaws N} `{!AxonEsf, !AxonIndex N} field t n indexes :
  split_on "." field = [field] → timestamp_i64_nanos t = Some n → 0 ≤ nanoseconds t < nanos_per_second →
  declared_index_field_paths indexes = [(field, IDatetime)] →
  (∃ doc, index_fields_as_entity {[field := TVDateTime t]} = Ok doc ∧
          typed_value_for_field doc field IDatetime = Ok (Some (TVDateTime (mkUtcTimestamp n 0)))) ∧
  (∃ doc, merge_entity_document None {[field := TVDateTime t]} = Ok doc ∧
          extract_index_fields_from_entity indexes doc =
          Ok {[field := TVDateTime (mkUtcTimestamp (seconds t / nanos_per_second) (seconds t mod nanos_per_second))]}) ∧
  (0 < seconds t → mkUtcTimestamp n 0 ≠ t ∧
     mkUtcTimestamp (seconds t / nanos_per_second) (seconds t mod nanos_per_second) ≠ t).
Proof.
  intros Hf Hn Hns Hpaths. pose proof (proj1 (timestamp_i64_nanos_Some t n) Hn) as (En & Hs & Hr).
  assert (Hs' : is_i64 (seconds t)) by (unfold nanos_per_second, is_i64 in *; int_lia).
  unfold index_fields_as_entity, merge_entity_document, extract_index_fields_from_entity.
  assert (Hl : btree_list {[field := TVDateTime t]} = [(field, TVDateTime t)]).
  { unfold btree_list. by rewrite map_to_list_singleton. }
  rewrite Hl, Hpaths. cbn [try_fold typed_value_to_json fst snd]. rewrite Hn, Hf.
  assert (Ha : ∀ z : Value N, assoc field [(field, z)] = Some z).
  { intros z. unfold assoc. cbn. by rewrite String.eqb_refl. }
  split_and!.
  - eexists. split; [reflexivity|]. cbn [typed_value_for_field insert_dotted btree_insert]. rewrite Ha.
    cbn. by rewrite as_i64_of_i64 by done.
  - eexists. split; [reflexivity|]. cbn [try_fold btree_insert]. rewrite lookup_empty.
    rewrite decide_False by (by intros [??]). unfold extract_path. rewrite Hf. cbn [walk_path]. rewrite Ha.
    cbn [mbind option_bind walk_path json_to_typed_value]. rewrite as_i64_of_i64 by done. cbn.
    unfold timestamp_of_nanos, UtcTimestamp_new. pose proof (Z.mod_pos_bound (seconds t) nanos_per_second ltac:(done)).
    rewrite (proj2 (Z.leb_gt _ _)) by (unfold nanos_per_second in *; lia). reflexivity.
  - intros Hz. destruct t as [s ns]. cbn in *. unfold nanos_per_second in *. split; intros [= E1 E2]; [lia|].
    pose proof (Z.div_mod s 1000000000). lia.
Qed.

Definition sample_instant : UtcTimestamp := mkUtcTimestamp 1700000000 5.

Lemma datetime_units_disagree_witness :
  ∃ doc, index_fields_as_entity {["at" := TVDateTime sample_instant]} = Ok doc ∧
    typed_value_for_field doc "at" IDatetime =
    Ok (Some (TVDateTime (mkUtcTimestamp 1700000000000000005 0))).
Proof.
  refine (proj1 (datetime_units_disagree "at" sample_instant 1700000000000000005
    [mkQueueIndex "by_at" (Single ("at", IDatetime, false))] eq_refl eq_refl _ eq_refl)).
  cbn. unfold nanos_per_second. lia.
Defined.
