(* ===== verification/Eligibility.v ===== *)
(** The item record of [fireweed-projection/src/lib.rs] (lines 86-123) and its
    eligibility index (lines 353-615): the claim order of pending items, kept compact
    while no item carries a priority, a schedule or a group, and rich from then on. *)
From S2P Require Import Prelude Identity Priority Metadata Lifecycle Engine Ordered IndexFields.

(** ** Item records *)

Record ItemRecord := mkItemRecord {
  ir_item_id : ItemId.t;
  ir_explicit_key : option string;
  ir_priority : option PriorityValue;
  ir_not_before : option UtcTimestamp;
  ir_eligible_since : UtcTimestamp;
  ir_group_key : option string;
  ir_cohort_size : option Z;
  ir_payload : option bytes;
  ir_fields : gmap string bytes;
  ir_metadata : Metadata;
  ir_gate_keys : list string;
  ir_index_fields : gmap string TypedValue;
  ir_entity_document : option bytes;
  ir_state : ItemState;
  ir_item_version : Z;
  ir_attempt_count : Z;
  ir_max_attempts : Z;
  ir_created_seq : Z;
  ir_lease_token : option string;
  ir_lease_expires_at : option UtcTimestamp;
  ir_lease_is_cohort : bool;
  ir_worker_id : option string;
  ir_fenced : bool;
  ir_superseded : bool;
  ir_terminal_at : option UtcTimestamp;
  ir_terminal_position : option CommandPosition;
}.

(** ** Eligibility keys *)

Inductive EligRank := Priced (sort : bytes) | Unpriced.
#[export] Instance EligRank_eq_dec : EqDecision EligRank.
Proof. solve_decision. Defined.
#[export] Instance EligRank_countable : Countable EligRank.
Proof.
  refine (inj_countable' (λ r, match r with Priced b => Some b | Unpriced => None end)
            (λ o, match o with Some b => Priced b | None => Unpriced end) _). by intros [].
Defined.

(** Derived [Ord]: priced items first. *)
#[export] Instance EligRank_compare : Compare EligRank := λ a b,
  match a, b with
  | Priced a, Priced b => compare a b
  | Priced _, Unpriced => Lt
  | Unpriced, Priced _ => Gt
  | Unpriced, Unpriced => Eq
  end.
#[export] Instance EligRank_compare_laws : CompareLaws EligRank.
Proof.
  split.
  - intros [a|] [b|]; cbn; try done. rewrite compare_Eq. naive_solver.
  - intros [a|] [b|]; cbn; try done. apply compare_antisym.
  - intros [a|] [b|] [c|]; cbn; try done. apply compare_Lt_trans.
Qed.

Record EligKey := mkEligKey {
  ek_rank : EligRank;
  ek_created_seq : Z;
  ek_item : ItemId.t;
  ek_not_before : option UtcTimestamp;
  ek_group_key : option string;
}.
#[export] Instance EligKey_eq_dec : EqDecision EligKey.
Proof. solve_decision. Defined.

Definition key_tuple (k : EligKey) :=
  (ek_rank k, (ek_created_seq k, (ek_item k, (ek_not_before k, ek_group_key k)))).
#[export] Instance key_tuple_inj : Inj (=) (=) key_tuple.
Proof. intros [] []. by intros [= -> -> -> -> ->]. Qed.
#[export] Instance EligKey_countable : Countable EligKey.
Proof.
  refine (inj_countable' key_tuple (λ t, let '(r, (s, (i, (n, g)))) := t in mkEligKey r s i n g) _). by intros [].
Defined.
#[export] Instance EligKey_compare : Compare EligKey := compare_on key_tuple.
#[export] Instance EligKey_compare_laws : CompareLaws EligKey := compare_on_laws key_tuple.

Inductive EligToken :=
| CompactToken (created_seq : Z) (item : ItemId.t)
| RichToken (key : EligKey).
#[export] Instance EligToken_eq_dec : EqDecision EligToken.
Proof. solve_decision. Defined.

Definition compact_key (created_seq : Z) (item : ItemId.t) : EligKey := mkEligKey Unpriced created_seq item None None.

Definition rich (t : EligToken) : EligKey :=
  match t with CompactToken seq item => compact_key seq item | RichToken key => key end.

Definition elig_key (rec : ItemRecord) (model : PriorityModel) : EligKey := {|
  ek_rank := match ir_priority rec with Some p => Priced (priority_sort p model) | None => Unpriced end;
  ek_created_seq := ir_created_seq rec;
  ek_item := ir_item_id rec;
  ek_not_before := ir_not_before rec;
  ek_group_key := ir_group_key rec;
|}.

Definition due_at (now : UtcTimestamp) (key : EligKey) : bool :=
  match ek_not_before key with Some nb => bool_decide (cmp_timestamp nb now ≠ Gt) | None => true end.

(** Grouped work first, by group. *)
Definition locality_key (key : EligKey) : bool * option string :=
  (bool_decide (ek_group_key key = None), ek_group_key key).

Definition gate_keys_blocked (blocked_gates : gset string) (gate_keys : list string) : bool :=
  existsb (λ key, bool_decide (key ∈ blocked_gates)) gate_keys.

(** ** The index *)

Inductive EligibilityIndex :=
| CompactIndex (rows : gset (Z * ItemId.t))
| RichIndex (keys : gset EligKey).

Definition elig_new : EligibilityIndex := CompactIndex ∅.

Definition can_compact (rec : ItemRecord) : bool :=
  match ir_priority rec, ir_not_before rec, ir_group_key rec with None, None, None => true | _, _, _ => false end.

Definition elig_token (rec : ItemRecord) (model : PriorityModel) : EligToken :=
  if can_compact rec then CompactToken (ir_created_seq rec) (ir_item_id rec) else RichToken (elig_key rec model).

Definition promote_rows (rows : gset (Z * ItemId.t)) (items : gmap ItemId.t ItemRecord) (model : PriorityModel)
    : gset EligKey :=
  list_to_set (omap (λ row : Z * ItemId.t, (λ rec, elig_key rec model) <$> items !! row.2) (elements rows)).

Definition promote (i : EligibilityIndex) (items : gmap ItemId.t ItemRecord) (model : PriorityModel) : EligibilityIndex :=
  match i with CompactIndex rows => RichIndex (promote_rows rows items model) | RichIndex _ => i end.

Definition elig_insert (i : EligibilityIndex) (rec : ItemRecord) (items : gmap ItemId.t ItemRecord)
    (model : PriorityModel) : EligibilityIndex :=
  match i with
  | CompactIndex rows =>
      if can_compact rec then CompactIndex ({[(ir_created_seq rec, ir_item_id rec)]} ∪ rows)
      else match promote i items model with
           | RichIndex keys => RichIndex ({[elig_key rec model]} ∪ keys)
           | i => i
           end
  | RichIndex keys => RichIndex ({[elig_key rec model]} ∪ keys)
  end.

Definition elig_remove (i : EligibilityIndex) (token : EligToken) : EligibilityIndex :=
  match i with
  | CompactIndex rows =>
      match token with
      | CompactToken seq item => CompactIndex (rows ∖ {[(seq, item)]})
      | RichToken key => CompactIndex (rows ∖ {[(ek_created_seq key, ek_item key)]})
      end
  | RichIndex keys => RichIndex (keys ∖ {[rich token]})
  end.

(** ** Reads *)

Definition due_keys (now : UtcTimestamp) (keys : gset EligKey) : list EligKey :=
  filter (λ k, due_at now k = true) (elems keys).

Definition strict_candidates (i : EligibilityIndex) (now : UtcTimestamp) (max : nat) : list ItemId.t :=
  match i with
  | CompactIndex rows => snd <$> take max (elems rows)
  | RichIndex keys => ek_item <$> take max (due_keys now keys)
  end.

(** The walk of due items in claim order: [visit] says whether to go on. *)
Fixpoint visit_items {S} (visit : S → ItemId.t → bool * S) (l : list ItemId.t) (s : S) : S :=
  match l with
  | [] => s
  | id :: l => let '(more, s) := visit s id in if more then visit_items visit l s else s
  end.

Definition visit_due {S} (i : EligibilityIndex) (now : UtcTimestamp) (visit : S → ItemId.t → bool * S) (s : S) : S :=
  match i with
  | CompactIndex rows => visit_items visit (snd <$> elems rows) s
  | RichIndex keys => visit_items visit (ek_item <$> due_keys now keys) s
  end.

(** [range((Excluded(x), Unbounded))]. *)
Definition after {A} `{Compare A} (x : A) (l : list A) : list A := filter (λ y, compare x y = Lt) l.

Definition strict_candidates_after (i : EligibilityIndex) (now : UtcTimestamp) (rec : ItemRecord)
    (model : PriorityModel) (max : nat) : list ItemId.t :=
  match i with
  | CompactIndex rows =>
      if can_compact rec then snd <$> take max (after (ir_created_seq rec, ir_item_id rec) (elems rows))
      else strict_candidates i now max
  | RichIndex keys =>
      ek_item <$> take max (filter (λ k, due_at now k = true) (after (elig_key rec model) (elems keys)))
  end.

(** The stable [sort_by] of Rust. *)
Fixpoint stable_insert {A B} `{Compare B} (f : A → B) (x : A) (l : list A) : list A :=
  match l with
  | [] => [x]
  | y :: l' => if decide (compare (f y) (f x) = Lt) then y :: stable_insert f x l' else x :: l
  end.
Definition stable_sort {A B} `{Compare B} (f : A → B) (l : list A) : list A := foldr (stable_insert f) [] l.

(** [slice::chunks] of a positive size. *)
Fixpoint chunks {A} (fuel n : nat) (l : list A) : list (list A) :=
  match fuel, l with
  | _, [] | O, _ => []
  | S fuel, _ => take n l :: chunks fuel n (drop n l)
  end.

Definition relaxed_order (bound : nat) (selected : list EligKey) : list EligKey :=
  concat (stable_sort locality_key <$> chunks (length selected) (S bound) selected).

Definition relaxed_candidates (i : EligibilityIndex) (now : UtcTimestamp) (max bound : nat) : list ItemId.t :=
  match i with
  | CompactIndex rows => snd <$> take max (elems rows)
  | RichIndex keys => ek_item <$> relaxed_order bound (take max (due_keys now keys))
  end.

Definition ordered_items (i : EligibilityIndex) (limit : nat) : list ItemId.t :=
  match i with
  | CompactIndex rows => snd <$> take limit (elems rows)
  | RichIndex keys => ek_item <$> take limit (elems keys)
  end.

Definition ordered_items_after (i : EligibilityIndex) (rec : option ItemRecord) (model : PriorityModel) (limit : nat)
    : list ItemId.t :=
  match i, rec with
  | CompactIndex rows, Some rec => snd <$> take limit (after (ir_created_seq rec, ir_item_id rec) (elems rows))
  | CompactIndex rows, None => snd <$> take limit (elems rows)
  | RichIndex keys, Some rec => ek_item <$> take limit (after (elig_key rec model) (elems keys))
  | RichIndex keys, None => ek_item <$> take limit (elems keys)
  end.

(** ** The keys an index stands for *)

Definition elig_keys (i : EligibilityIndex) : gset EligKey :=
  match i with
  | CompactIndex rows => set_map (λ row, compact_key row.1 row.2) rows
  | RichIndex keys => keys
  end.

Lemma rich_token rec model : rich (elig_token rec model) = elig_key rec model.
Proof.
  unfold elig_token, can_compact, elig_key.
  destruct (ir_priority rec), (ir_not_before rec), (ir_group_key rec); done.
Qed.

Lemma elem_of_compact_keys rows k :
  k ∈ elig_keys (CompactIndex rows) ↔ ∃ row, row ∈ rows ∧ k = compact_key row.1 row.2.
Proof. cbn. set_solver. Qed.

(** Every compact row has its record among [items]. *)
Definition rows_backed (i : EligibilityIndex) (items : gmap ItemId.t ItemRecord) (model : PriorityModel) : Prop :=
  ∀ k, k ∈ elig_keys i → ∃ rec, items !! ek_item k = Some rec ∧ elig_key rec model = k.

Lemma promote_keys i items model :
  rows_backed i items model → elig_keys (promote i items model) = elig_keys i.
Proof.
  intros Hb. destruct i as [rows|keys]; [|done]. apply set_eq. intros k.
  rewrite elem_of_compact_keys. cbn [promote elig_keys]. unfold promote_rows.
  rewrite elem_of_list_to_set, list_elem_of_omap. setoid_rewrite elem_of_elements. split.
  - intros (row & Hrow & (rec & Hrec & ->)%fmap_Some_1). exists row. split; [done|].
    destruct (Hb (compact_key row.1 row.2)) as (rec' & Hrec' & <-).
    + apply elem_of_compact_keys. by exists row.
    + cbn in Hrec'. congruence.
  - intros (row & Hrow & ->). exists row. split; [done|].
    destruct (Hb (compact_key row.1 row.2)) as (rec & Hrec & <-); [apply elem_of_compact_keys; by exists row|].
    cbn in Hrec. by rewrite Hrec.
Qed.

Lemma elig_insert_keys i rec items model :
  rows_backed i items model → elig_keys (elig_insert i rec items model) = {[elig_key rec model]} ∪ elig_keys i.
Proof.
  intros Hb. destruct i as [rows|keys]; [|done]. cbn [elig_insert].
  destruct (can_compact rec) eqn:Hc.
  - pose proof (rich_token rec model) as Hk. unfold elig_token in Hk. rewrite Hc in Hk. rewrite <-Hk.
    cbn [elig_keys rich]. by rewrite set_map_union_L, set_map_singleton_L.
  - pose proof (promote_keys _ items model Hb) as Hp. cbn in Hp. cbn. by rewrite Hp.
Qed.

Lemma elig_remove_keys i token :
  (∀ k, k ∈ elig_keys i → ek_item k = ek_item (rich token) → k = rich token) →
  elig_keys (elig_remove i token) = elig_keys i ∖ {[rich token]}.
Proof.
  intros Hu. destruct i as [rows|keys]; [|done]. apply set_eq. intros k.
  assert (Hr : elig_remove (CompactIndex rows) token =
               CompactIndex (rows ∖ {[(ek_created_seq (rich token), ek_item (rich token))]})) by by destruct token.
  rewrite Hr, elem_of_difference, !elem_of_compact_keys. setoid_rewrite elem_of_difference.
  setoid_rewrite elem_of_singleton. split.
  - intros ([seq id] & [Hrow Hne] & ->). split; [by exists (seq, id)|]. intros Hk. apply Hne.
    cbn in Hk. by rewrite <-Hk.
  - intros ((row & Hrow & ->) & Hne). exists row. split; [split; [done|]|done]. intros Heq. apply Hne.
    apply Hu; [apply elem_of_compact_keys; by exists row|]. cbn. by rewrite Heq.
Qed.

(** ** Lemmas: reads of the two forms agree *)

Lemma compact_key_lt (a b : Z * ItemId.t) :
  lt_cmp (compact_key a.1 a.2) (compact_key b.1 b.2) ↔ lt_cmp a b.
Proof.
  destruct a as [s i], b as [t j].
  change (then_cmp (compare s t) (then_cmp (compare i j) Eq) = Lt ↔ then_cmp (compare s t) (compare i j) = Lt).
  by destruct (compare s t), (compare i j).
Qed.

Lemma elems_compact rows :
  elems (elig_keys (CompactIndex rows)) = (λ row, compact_key row.1 row.2) <$> elems rows.
Proof.
  apply elems_eq.
  - apply ascending_fmap; [|apply elems_ascending]. intros a b. apply compact_key_lt.
  - intros k. rewrite list_elem_of_fmap, elem_of_compact_keys. setoid_rewrite elem_of_elems. naive_solver.
Qed.

Lemma filter_all {A} (P : A → Prop) `{∀ x, Decision (P x)} l : Forall P l → filter P l = l.
Proof. induction 1 as [|x l Hx Hl IH]; [done|]. by rewrite filter_cons_True, IH. Qed.

Lemma due_keys_compact now rows :
  due_keys now (elig_keys (CompactIndex rows)) = (λ row, compact_key row.1 row.2) <$> elems rows.
Proof.
  unfold due_keys. rewrite elems_compact. apply filter_all, Forall_fmap, Forall_forall. done.
Qed.

Lemma strict_candidates_keys i now max :
  strict_candidates i now max = ek_item <$> take max (due_keys now (elig_keys i)).
Proof.
  destruct i as [rows|keys]; [|done]. rewrite due_keys_compact. cbn.
  by rewrite <-fmap_take, <-list_fmap_compose.
Qed.

Lemma visit_due_keys {S} i now (visit : S → ItemId.t → bool * S) s :
  visit_due i now visit s = visit_items visit (ek_item <$> due_keys now (elig_keys i)) s.
Proof.
  destruct i as [rows|keys]; [|done]. rewrite due_keys_compact. cbn.
  by rewrite <-list_fmap_compose.
Qed.

Lemma after_fmap {A B} `{Compare A, Compare B} (f : A → B) (x : A) l :
  (∀ a b, lt_cmp (f a) (f b) ↔ lt_cmp a b) → after (f x) (f <$> l) = f <$> after x l.
Proof.
  intros Hf. unfold after. induction l as [|y l IH]; [done|]. cbn [fmap list_fmap].
  rewrite !filter_cons. rewrite IH. pose proof (Hf x y) as Hxy. unfold lt_cmp in Hxy.
  repeat case_decide; tauto.
Qed.

Lemma ordered_items_keys i limit :
  ordered_items i limit = ek_item <$> take limit (elems (elig_keys i)).
Proof.
  destruct i as [rows|keys]; [|done]. rewrite elems_compact. cbn. by rewrite <-fmap_take, <-list_fmap_compose.
Qed.

(** ** Lemmas: stable sorting and blocks *)

Section stable.
Context {A B : Type} `{CompareLaws B} (f : A → B).

Lemma stable_insert_perm x l : stable_insert f x l ≡ₚ x :: l.
Proof.
  induction l as [|y l IH]; [done|]. cbn. case_decide; [|done]. rewrite IH. apply Permutation_swap.
Qed.

Lemma stable_sort_perm l : stable_sort f l ≡ₚ l.
Proof. induction l as [|x l IH]; [done|]. cbn. by rewrite stable_insert_perm, IH. Qed.

(** Equal keys are left in place. *)
Lemma stable_sort_equal l : (∀ x y, x ∈ l → y ∈ l → f x = f y) → stable_sort f l = l.
Proof.
  induction l as [|x l IH]; intros Heq; [done|]. cbn. fold (stable_sort f l). rewrite IH by set_solver.
  destruct l as [|y l]; [done|]. cbn. rewrite decide_False; [done|].
  rewrite (Heq y x) by set_solver. intros Hl. by rewrite (proj2 (compare_Eq (f x) (f x))) in Hl.
Qed.

(** A stable sort of a strictly ascending list sorts by the key, then by the old order. *)
Lemma stable_insert_sorted `{!Compare A} x l :
  StronglySorted (λ a b, lt_cmp (f a, a) (f b, b)) l → Forall (lt_cmp x) l →
  StronglySorted (λ a b, lt_cmp (f a, a) (f b, b)) (stable_insert f x l).
Proof.
  induction 1 as [|y l Hl IH Hy]; intros Hx; [by repeat constructor|]. inversion_clear Hx as [|?? Hxy Hxl].
  cbn. case_decide as Hc.
  - constructor; [by apply IH|]. rewrite Forall_forall in Hy |- *. intros z.
    rewrite stable_insert_perm. intros [->|Hz]%elem_of_cons; [|auto].
    unfold lt_cmp, compare, prod_compare. cbn. by rewrite Hc.
  - assert (Hle : lt_cmp (f x, x) (f y, y)).
    { unfold lt_cmp, compare, prod_compare. cbn. rewrite (compare_antisym (f y) (f x)).
      destruct (compare (f y) (f x)) eqn:E; cbn; done. }
    constructor; [by constructor|]. constructor; [done|].
    rewrite Forall_forall in Hy, Hxl |- *. intros z Hz. specialize (Hy z Hz). specialize (Hxl z Hz).
    revert Hle Hy Hxl. unfold lt_cmp, compare, prod_compare. cbn.
    pose proof (compare_Eq (f x) (f y)) as E1. pose proof (compare_Eq (f y) (f z)) as E2.
    pose proof (compare_Lt_trans (f x) (f y) (f z)) as Tr.
    destruct (compare (f x) (f y)) eqn:C1; cbn; try done; destruct (compare (f y) (f z)) eqn:C2; cbn; try done;
      intros _ _ Hxz.
    + rewrite (proj1 E1 eq_refl), (proj1 E2 eq_refl), (proj2 (compare_Eq (f z) (f z)) eq_refl). done.
    + rewrite (proj1 E1 eq_refl), C2. done.
    + rewrite <-(proj1 E2 eq_refl), C1. done.
    + by rewrite Tr.
Qed.

Lemma stable_sort_sorted `{!Compare A} l :
  StronglySorted lt_cmp l → StronglySorted (λ a b, lt_cmp (f a, a) (f b, b)) (stable_sort f l).
Proof.
  induction 1 as [|x l Hl IH Hx]; [constructor|]. cbn. apply stable_insert_sorted; [done|].
  fold (stable_sort f l). by rewrite stable_sort_perm.
Qed.

Context (n : nat).

Lemma concat_chunks fuel (l : list A) : (length l ≤ fuel)%nat → concat (chunks fuel (S n) l) = l.
Proof.
  revert l; induction fuel as [|fuel IH]; intros [|x l] Hf; try done; [cbn in Hf; lia|].
  cbn [chunks concat]. rewrite IH by (rewrite length_drop; cbn in *; lia). apply take_drop.
Qed.

(** Sorting within blocks moves an element by less than a block. *)
Lemma blocks_rank fuel (l : list A) i x :
  (length l ≤ fuel)%nat → concat (stable_sort f <$> chunks fuel (S n) l) !! i = Some x →
  ∃ j, l !! j = Some x ∧ (i ≤ j + n)%nat ∧ (j ≤ i + n)%nat.
Proof.
  revert l i; induction fuel as [|fuel IH]; intros l i Hf; (destruct l as [|y l]; [by destruct i|]).
  { cbn in Hf. lia. }
  set (k := y :: l) in *. change (chunks (S fuel) (S n) k) with (take (S n) k :: chunks fuel (S n) (drop (S n) k)).
  cbn [fmap list_fmap concat]. rewrite lookup_app_Some.
  assert (Hlen : length (stable_sort f (take (S n) k)) = length (take (S n) k)).
  { apply Permutation_length, stable_sort_perm. }
  intros [Hi|[Hge Hi]].
  - assert (Hx : x ∈ take (S n) k) by (rewrite <-stable_sort_perm; by eapply list_elem_of_lookup_2).
    apply list_elem_of_lookup_1 in Hx as [j Hj]. apply lookup_lt_Some in Hi. rewrite Hlen in Hi.
    apply lookup_take_Some in Hj as [Hj Hjn]. rewrite length_take in Hi. exists j. split; [done|]. lia.
  - rewrite Hlen in *. apply IH in Hi as (j & Hj & Hb); [|rewrite length_drop; cbn in *; lia].
    rewrite lookup_drop in Hj. exists (S n + j)%nat. split; [done|].
    assert (S n ≤ length k)%nat by (apply lookup_lt_Some in Hj; lia).
    rewrite length_take in *. lia.
Qed.

End stable.

Lemma relaxed_order_perm bound l : relaxed_order bound l ≡ₚ l.
Proof.
  unfold relaxed_order. transitivity (concat (chunks (length l) (S bound) l)).
  - induction (chunks (length l) (S bound) l) as [|c cs IH]; [done|]. cbn. by rewrite IH, stable_sort_perm.
  - by rewrite concat_chunks.
Qed.

Lemma relaxed_order_equal bound l :
  (∀ x y, x ∈ l → y ∈ l → locality_key x = locality_key y) → relaxed_order bound l = l.
Proof.
  intros Heq. unfold relaxed_order.
  assert (Hc : concat (chunks (length l) (S bound) l) = l) by by apply concat_chunks.
  rewrite <-Hc at 3. rewrite <-Hc in Heq. clear Hc. induction (chunks (length l) (S bound) l) as [|c cs IH]; [done|].
  cbn in Heq |- *. rewrite IH by set_solver. f_equal. apply stable_sort_equal. set_solver.
Qed.

Lemma relaxed_candidates_keys i now max bound :
  relaxed_candidates i now max bound = ek_item <$> relaxed_order bound (take max (due_keys now (elig_keys i))).
Proof.
  destruct i as [rows|keys]; [|done]. rewrite due_keys_compact, relaxed_order_equal.
  - cbn. by rewrite <-fmap_take, <-list_fmap_compose.
  - intros x y. rewrite <-fmap_take. intros (a & -> & _)%list_elem_of_fmap (b & -> & _)%list_elem_of_fmap. done.
Qed.
