(* ===== verification/Projection.v ===== *)
(** The materialized queue of [fireweed-projection/src/lib.rs]: its state with every
    derived index (lines 1665-1770), the commands that change it (lines 2046-3034), its
    removals and validators, and the portable image it is rebuilt from. *)
From S2P Require Import Prelude Identity Priority Metadata Lifecycle CreateQueue Engine JsonEquality Ordered IndexFields Eligibility.

(** ** Record updates *)

Definition set_priority x (r : ItemRecord) : ItemRecord :=
  mkItemRecord (ir_item_id r) (ir_explicit_key r) x (ir_not_before r) (ir_eligible_since r) (ir_group_key r)
    (ir_cohort_size r) (ir_payload r) (ir_fields r) (ir_metadata r) (ir_gate_keys r) (ir_index_fields r)
    (ir_entity_document r) (ir_state r) (ir_item_version r) (ir_attempt_count r) (ir_max_attempts r)
    (ir_created_seq r) (ir_lease_token r) (ir_lease_expires_at r) (ir_lease_is_cohort r) (ir_worker_id r)
    (ir_fenced r) (ir_superseded r) (ir_terminal_at r) (ir_terminal_position r).
Definition set_not_before x (r : ItemRecord) : ItemRecord :=
  mkItemRecord (ir_item_id r) (ir_explicit_key r) (ir_priority r) x (ir_eligible_since r) (ir_group_key r)
    (ir_cohort_size r) (ir_payload r) (ir_fields r) (ir_metadata r) (ir_gate_keys r) (ir_index_fields r)
    (ir_entity_document r) (ir_state r) (ir_item_version r) (ir_attempt_count r) (ir_max_attempts r)
    (ir_created_seq r) (ir_lease_token r) (ir_lease_expires_at r) (ir_lease_is_cohort r) (ir_worker_id r)
    (ir_fenced r) (ir_superseded r) (ir_terminal_at r) (ir_terminal_position r).
Definition set_eligible_since x (r : ItemRecord) : ItemRecord :=
  mkItemRecord (ir_item_id r) (ir_explicit_key r) (ir_priority r) (ir_not_before r) x (ir_group_key r)
    (ir_cohort_size r) (ir_payload r) (ir_fields r) (ir_metadata r) (ir_gate_keys r) (ir_index_fields r)
    (ir_entity_document r) (ir_state r) (ir_item_version r) (ir_attempt_count r) (ir_max_attempts r)
    (ir_created_seq r) (ir_lease_token r) (ir_lease_expires_at r) (ir_lease_is_cohort r) (ir_worker_id r)
    (ir_fenced r) (ir_superseded r) (ir_terminal_at r) (ir_terminal_position r).
Definition set_payload x (r : ItemRecord) : ItemRecord :=
  mkItemRecord (ir_item_id r) (ir_explicit_key r) (ir_priority r) (ir_not_before r) (ir_eligible_since r)
    (ir_group_key r) (ir_cohort_size r) x (ir_fields r) (ir_metadata r) (ir_gate_keys r) (ir_index_fields r)
    (ir_entity_document r) (ir_state r) (ir_item_version r) (ir_attempt_count r) (ir_max_attempts r)
    (ir_created_seq r) (ir_lease_token r) (ir_lease_expires_at r) (ir_lease_is_cohort r) (ir_worker_id r)
    (ir_fenced r) (ir_superseded r) (ir_terminal_at r) (ir_terminal_position r).
Definition set_fields x (r : ItemRecord) : ItemRecord :=
  mkItemRecord (ir_item_id r) (ir_explicit_key r) (ir_priority r) (ir_not_before r) (ir_eligible_since r)
    (ir_group_key r) (ir_cohort_size r) (ir_payload r) x (ir_metadata r) (ir_gate_keys r) (ir_index_fields r)
    (ir_entity_document r) (ir_state r) (ir_item_version r) (ir_attempt_count r) (ir_max_attempts r)
    (ir_created_seq r) (ir_lease_token r) (ir_lease_expires_at r) (ir_lease_is_cohort r) (ir_worker_id r)
    (ir_fenced r) (ir_superseded r) (ir_terminal_at r) (ir_terminal_position r).
Definition set_metadata x (r : ItemRecord) : ItemRecord :=
  mkItemRecord (ir_item_id r) (ir_explicit_key r) (ir_priority r) (ir_not_before r) (ir_eligible_since r)
    (ir_group_key r) (ir_cohort_size r) (ir_payload r) (ir_fields r) x (ir_gate_keys r) (ir_index_fields r)
    (ir_entity_document r) (ir_state r) (ir_item_version r) (ir_attempt_count r) (ir_max_attempts r)
    (ir_created_seq r) (ir_lease_token r) (ir_lease_expires_at r) (ir_lease_is_cohort r) (ir_worker_id r)
    (ir_fenced r) (ir_superseded r) (ir_terminal_at r) (ir_terminal_position r).
Definition set_gate_keys x (r : ItemRecord) : ItemRecord :=
  mkItemRecord (ir_item_id r) (ir_explicit_key r) (ir_priority r) (ir_not_before r) (ir_eligible_since r)
    (ir_group_key r) (ir_cohort_size r) (ir_payload r) (ir_fields r) (ir_metadata r) x (ir_index_fields r)
    (ir_entity_document r) (ir_state r) (ir_item_version r) (ir_attempt_count r) (ir_max_attempts r)
    (ir_created_seq r) (ir_lease_token r) (ir_lease_expires_at r) (ir_lease_is_cohort r) (ir_worker_id r)
    (ir_fenced r) (ir_superseded r) (ir_terminal_at r) (ir_terminal_position r).
Definition set_index_fields x (r : ItemRecord) : ItemRecord :=
  mkItemRecord (ir_item_id r) (ir_explicit_key r) (ir_priority r) (ir_not_before r) (ir_eligible_since r)
    (ir_group_key r) (ir_cohort_size r) (ir_payload r) (ir_fields r) (ir_metadata r) (ir_gate_keys r) x
    (ir_entity_document r) (ir_state r) (ir_item_version r) (ir_attempt_count r) (ir_max_attempts r)
    (ir_created_seq r) (ir_lease_token r) (ir_lease_expires_at r) (ir_lease_is_cohort r) (ir_worker_id r)
    (ir_fenced r) (ir_superseded r) (ir_terminal_at r) (ir_terminal_position r).
Definition set_entity_document x (r : ItemRecord) : ItemRecord :=
  mkItemRecord (ir_item_id r) (ir_explicit_key r) (ir_priority r) (ir_not_before r) (ir_eligible_since r)
    (ir_group_key r) (ir_cohort_size r) (ir_payload r) (ir_fields r) (ir_metadata r) (ir_gate_keys r)
    (ir_index_fields r) x (ir_state r) (ir_item_version r) (ir_attempt_count r) (ir_max_attempts r)
    (ir_created_seq r) (ir_lease_token r) (ir_lease_expires_at r) (ir_lease_is_cohort r) (ir_worker_id r)
    (ir_fenced r) (ir_superseded r) (ir_terminal_at r) (ir_terminal_position r).
Definition set_state x (r : ItemRecord) : ItemRecord :=
  mkItemRecord (ir_item_id r) (ir_explicit_key r) (ir_priority r) (ir_not_before r) (ir_eligible_since r)
    (ir_group_key r) (ir_cohort_size r) (ir_payload r) (ir_fields r) (ir_metadata r) (ir_gate_keys r)
    (ir_index_fields r) (ir_entity_document r) x (ir_item_version r) (ir_attempt_count r) (ir_max_attempts r)
    (ir_created_seq r) (ir_lease_token r) (ir_lease_expires_at r) (ir_lease_is_cohort r) (ir_worker_id r)
    (ir_fenced r) (ir_superseded r) (ir_terminal_at r) (ir_terminal_position r).
Definition set_item_version x (r : ItemRecord) : ItemRecord :=
  mkItemRecord (ir_item_id r) (ir_explicit_key r) (ir_priority r) (ir_not_before r) (ir_eligible_since r)
    (ir_group_key r) (ir_cohort_size r) (ir_payload r) (ir_fields r) (ir_metadata r) (ir_gate_keys r)
    (ir_index_fields r) (ir_entity_document r) (ir_state r) x (ir_attempt_count r) (ir_max_attempts r)
    (ir_created_seq r) (ir_lease_token r) (ir_lease_expires_at r) (ir_lease_is_cohort r) (ir_worker_id r)
    (ir_fenced r) (ir_superseded r) (ir_terminal_at r) (ir_terminal_position r).
Definition set_attempt_count x (r : ItemRecord) : ItemRecord :=
  mkItemRecord (ir_item_id r) (ir_explicit_key r) (ir_priority r) (ir_not_before r) (ir_eligible_since r)
    (ir_group_key r) (ir_cohort_size r) (ir_payload r) (ir_fields r) (ir_metadata r) (ir_gate_keys r)
    (ir_index_fields r) (ir_entity_document r) (ir_state r) (ir_item_version r) x (ir_max_attempts r)
    (ir_created_seq r) (ir_lease_token r) (ir_lease_expires_at r) (ir_lease_is_cohort r) (ir_worker_id r)
    (ir_fenced r) (ir_superseded r) (ir_terminal_at r) (ir_terminal_position r).
Definition set_lease_token x (r : ItemRecord) : ItemRecord :=
  mkItemRecord (ir_item_id r) (ir_explicit_key r) (ir_priority r) (ir_not_before r) (ir_eligible_since r)
    (ir_group_key r) (ir_cohort_size r) (ir_payload r) (ir_fields r) (ir_metadata r) (ir_gate_keys r)
    (ir_index_fields r) (ir_entity_document r) (ir_state r) (ir_item_version r) (ir_attempt_count r)
    (ir_max_attempts r) (ir_created_seq r) x (ir_lease_expires_at r) (ir_lease_is_cohort r) (ir_worker_id r)
    (ir_fenced r) (ir_superseded r) (ir_terminal_at r) (ir_terminal_position r).
Definition set_lease_expires_at x (r : ItemRecord) : ItemRecord :=
  mkItemRecord (ir_item_id r) (ir_explicit_key r) (ir_priority r) (ir_not_before r) (ir_eligible_since r)
    (ir_group_key r) (ir_cohort_size r) (ir_payload r) (ir_fields r) (ir_metadata r) (ir_gate_keys r)
    (ir_index_fields r) (ir_entity_document r) (ir_state r) (ir_item_version r) (ir_attempt_count r)
    (ir_max_attempts r) (ir_created_seq r) (ir_lease_token r) x (ir_lease_is_cohort r) (ir_worker_id r)
    (ir_fenced r) (ir_superseded r) (ir_terminal_at r) (ir_terminal_position r).
Definition set_lease_is_cohort x (r : ItemRecord) : ItemRecord :=
  mkItemRecord (ir_item_id r) (ir_explicit_key r) (ir_priority r) (ir_not_before r) (ir_eligible_since r)
    (ir_group_key r) (ir_cohort_size r) (ir_payload r) (ir_fields r) (ir_metadata r) (ir_gate_keys r)
    (ir_index_fields r) (ir_entity_document r) (ir_state r) (ir_item_version r) (ir_attempt_count r)
    (ir_max_attempts r) (ir_created_seq r) (ir_lease_token r) (ir_lease_expires_at r) x (ir_worker_id r)
    (ir_fenced r) (ir_superseded r) (ir_terminal_at r) (ir_terminal_position r).
Definition set_worker_id x (r : ItemRecord) : ItemRecord :=
  mkItemRecord (ir_item_id r) (ir_explicit_key r) (ir_priority r) (ir_not_before r) (ir_eligible_since r)
    (ir_group_key r) (ir_cohort_size r) (ir_payload r) (ir_fields r) (ir_metadata r) (ir_gate_keys r)
    (ir_index_fields r) (ir_entity_document r) (ir_state r) (ir_item_version r) (ir_attempt_count r)
    (ir_max_attempts r) (ir_created_seq r) (ir_lease_token r) (ir_lease_expires_at r) (ir_lease_is_cohort r) x
    (ir_fenced r) (ir_superseded r) (ir_terminal_at r) (ir_terminal_position r).
Definition set_fenced x (r : ItemRecord) : ItemRecord :=
  mkItemRecord (ir_item_id r) (ir_explicit_key r) (ir_priority r) (ir_not_before r) (ir_eligible_since r)
    (ir_group_key r) (ir_cohort_size r) (ir_payload r) (ir_fields r) (ir_metadata r) (ir_gate_keys r)
    (ir_index_fields r) (ir_entity_document r) (ir_state r) (ir_item_version r) (ir_attempt_count r)
    (ir_max_attempts r) (ir_created_seq r) (ir_lease_token r) (ir_lease_expires_at r) (ir_lease_is_cohort r)
    (ir_worker_id r) x (ir_superseded r) (ir_terminal_at r) (ir_terminal_position r).
Definition set_superseded x (r : ItemRecord) : ItemRecord :=
  mkItemRecord (ir_item_id r) (ir_explicit_key r) (ir_priority r) (ir_not_before r) (ir_eligible_since r)
    (ir_group_key r) (ir_cohort_size r) (ir_payload r) (ir_fields r) (ir_metadata r) (ir_gate_keys r)
    (ir_index_fields r) (ir_entity_document r) (ir_state r) (ir_item_version r) (ir_attempt_count r)
    (ir_max_attempts r) (ir_created_seq r) (ir_lease_token r) (ir_lease_expires_at r) (ir_lease_is_cohort r)
    (ir_worker_id r) (ir_fenced r) x (ir_terminal_at r) (ir_terminal_position r).
Definition set_terminal_at x (r : ItemRecord) : ItemRecord :=
  mkItemRecord (ir_item_id r) (ir_explicit_key r) (ir_priority r) (ir_not_before r) (ir_eligible_since r)
    (ir_group_key r) (ir_cohort_size r) (ir_payload r) (ir_fields r) (ir_metadata r) (ir_gate_keys r)
    (ir_index_fields r) (ir_entity_document r) (ir_state r) (ir_item_version r) (ir_attempt_count r)
    (ir_max_attempts r) (ir_created_seq r) (ir_lease_token r) (ir_lease_expires_at r) (ir_lease_is_cohort r)
    (ir_worker_id r) (ir_fenced r) (ir_superseded r) x (ir_terminal_position r).
Definition set_terminal_position x (r : ItemRecord) : ItemRecord :=
  mkItemRecord (ir_item_id r) (ir_explicit_key r) (ir_priority r) (ir_not_before r) (ir_eligible_since r)
    (ir_group_key r) (ir_cohort_size r) (ir_payload r) (ir_fields r) (ir_metadata r) (ir_gate_keys r)
    (ir_index_fields r) (ir_entity_document r) (ir_state r) (ir_item_version r) (ir_attempt_count r)
    (ir_max_attempts r) (ir_created_seq r) (ir_lease_token r) (ir_lease_expires_at r) (ir_lease_is_cohort r)
    (ir_worker_id r) (ir_fenced r) (ir_superseded r) (ir_terminal_at r) x.

(** [+= 1] of a release build. *)
Definition wrapping_succ_u64 (z : Z) : Z := (z + 1) mod 2 ^ 64.
Definition wrapping_succ_u32 (z : Z) : Z := (z + 1) mod 2 ^ 32.

(** ** Commands *)

Inductive FinalizeKind := KComplete | KFail | KRetry | KRelease | KRearm.
#[export] Instance FinalizeKind_eq_dec : EqDecision FinalizeKind.
Proof. solve_decision. Defined.

Record FinalizeOutcome := mkFinalizeOutcome {
  fo_item_id : ItemId.t;
  fo_kind : FinalizeKind;
  fo_applied_state : option ItemState;
  fo_not_before : option UtcTimestamp;
}.

Inductive ScheduleUpdate (T : Type) := SchedKeep | SchedSet (value : option T).
Arguments SchedKeep {T}.
Arguments SchedSet {T} value.

Inductive PayloadUpdate := PayloadKeep | PayloadSet (payload : option bytes).

Record GateChange := mkGateChange { gc_gate_keys : list string; gc_blocked : bool }.

Record SideRecord := mkSideRecord { sr_key : bytes; sr_payload : bytes }.

(** ** Metrics *)

Record QueueMetrics := mkQueueMetrics {
  qm_pending : Z;
  qm_leased : Z;
  qm_complete : Z;
  qm_failed : Z;
  qm_resident_terminal_count : Z;
}.
#[export] Instance QueueMetrics_eq_dec : EqDecision QueueMetrics.
Proof. solve_decision. Defined.
Definition QueueMetrics_default : QueueMetrics := mkQueueMetrics 0 0 0 0 0.

Definition metrics_inc (state : ItemState) (m : QueueMetrics) : QueueMetrics :=
  let '(mkQueueMetrics p l c f r) := m in
  match state with
  | Pending => mkQueueMetrics (wrapping_succ_u64 p) l c f r
  | Leased => mkQueueMetrics p (wrapping_succ_u64 l) c f r
  | Complete => mkQueueMetrics p l (wrapping_succ_u64 c) f (wrapping_succ_u64 r)
  | Failed => mkQueueMetrics p l c (wrapping_succ_u64 f) (wrapping_succ_u64 r)
  end.

Definition metrics_dec (state : ItemState) (m : QueueMetrics) : QueueMetrics :=
  let '(mkQueueMetrics p l c f r) := m in
  match state with
  | Pending => mkQueueMetrics (saturating_sub_u64 p 1) l c f r
  | Leased => mkQueueMetrics p (saturating_sub_u64 l 1) c f r
  | Complete => mkQueueMetrics p l (saturating_sub_u64 c 1) f (saturating_sub_u64 r 1)
  | Failed => mkQueueMetrics p l c (saturating_sub_u64 f 1) (saturating_sub_u64 r 1)
  end.

Definition metrics_transition (old new : ItemState) (m : QueueMetrics) : QueueMetrics :=
  if decide (old = new) then m else metrics_inc new (metrics_dec old m).

(** ** Secondary indexes *)

Inductive SecondaryIndex :=
| Unique (map : gmap bytes ItemId.t)
| NonUnique (map : gmap bytes (gset ItemId.t)).

Definition empty_secondary_index (unique : bool) : SecondaryIndex := if unique then Unique ∅ else NonUnique ∅.

Definition insert_one_key (item_id : ItemId.t) (key : bytes) (index : SecondaryIndex) : SecondaryIndex :=
  match index with
  | Unique map => Unique (<[key := item_id]> map)
  | NonUnique map => NonUnique (post key item_id map)
  end.

Definition remove_one_key (item_id : ItemId.t) (key : bytes) (index : SecondaryIndex) : SecondaryIndex :=
  match index with
  | Unique map => if decide (map !! key = Some item_id) then Unique (delete key map) else index
  | NonUnique map => NonUnique (unpost key item_id map)
  end.

Definition insert_keys_into (item_id : ItemId.t) (keys : list (string * bytes)) (indexes : gmap string SecondaryIndex)
    : gmap string SecondaryIndex :=
  foldl (λ indexes e, alter (insert_one_key item_id e.2) e.1 indexes) indexes keys.

Definition remove_keys_from (item_id : ItemId.t) (keys : list (string * bytes)) (indexes : gmap string SecondaryIndex)
    : gmap string SecondaryIndex :=
  foldl (λ indexes e, alter (remove_one_key item_id e.2) e.1 indexes) indexes keys.

Definition replace_gate_memberships (item_id : ItemId.t) (old new : list string)
    (members : gmap string (gset ItemId.t)) : gmap string (gset ItemId.t) :=
  let members := foldl (λ m key, unpost key item_id m) members (filter (λ key, key ∉ new) old) in
  foldl (λ m key, post key item_id m) members (filter (λ key, key ∉ old) new).

(** ** Client keys *)

Definition default_client_item_key (item_id : ItemId.t) : string := ItemId.Display item_id.

Definition explicit_client_item_key (item_id : ItemId.t) (key : string) : option string :=
  if String.eqb key (ItemId.Display item_id) then None else Some key.

Definition client_item_key (rec : ItemRecord) : string :=
  default (default_client_item_key (ir_item_id rec)) (ir_explicit_key rec).

(** The bytes [serde_json] writes for a document and their reading, which the code expects
    to succeed on bytes it wrote itself. *)
Class EntityCodec (N : Type) := {
  json_to_vec : Value N → bytes;
  json_from_slice : bytes → Value N;
}.

Section projection.
Context {N : Type} `{JsonNumber N, AxonIndex N, JsonBuild N, EntityCodec N}.

Definition pack_entity_document (entity : option (Value N)) : option bytes := json_to_vec <$> entity.

Definition entity_value (rec : ItemRecord) : option (Value N) := json_from_slice <$> ir_entity_document rec.

Definition query_entity (rec : ItemRecord) : option (Value N) :=
  rehydrate_entity_document (entity_value rec) (ir_index_fields rec).

Record PushItem := mkPushItem {
  pi_client_item_key : string;
  pi_item_id : ItemId.t;
  pi_priority : option PriorityValue;
  pi_not_before : option UtcTimestamp;
  pi_group_key : option string;
  pi_max_attempts : Z;
  pi_payload : option bytes;
  pi_fields : gmap string bytes;
  pi_metadata : Metadata;
  pi_cohort_size : option Z;
  pi_gate_keys : list string;
  pi_index_fields : gmap string TypedValue;
  pi_entity_document : option (Value N);
}.

(** [field_ops] is a [BTreeMap]: [Some] sets the key, [None] removes it. *)
Record UpdateFieldsCommand := mkUpdateFieldsCommand {
  uf_item_id : ItemId.t;
  uf_field_ops : gmap string (option bytes);
  uf_payload : PayloadUpdate;
  uf_set_priority : ScheduleUpdate PriorityValue;
  uf_set_not_before : ScheduleUpdate UtcTimestamp;
  uf_set_entity_document : option (Value N);
  uf_set_fields : option (gmap string bytes);
  uf_set_metadata : option Metadata;
  uf_set_gate_keys : option (list string);
  uf_api001_batch : bool;
  uf_client_item_key : option string;
  uf_expected_item_version : option Z;
}.

Record ResolvedItemValues := mkResolvedItemValues {
  rv_state : ItemState;
  rv_item_version : Z;
  rv_priority : option PriorityValue;
  rv_not_before : option UtcTimestamp;
  rv_eligible_since : UtcTimestamp;
  rv_payload : option bytes;
  rv_fields : gmap string bytes;
  rv_metadata : Metadata;
  rv_gate_keys : list string;
  rv_index_fields : gmap string TypedValue;
  rv_entity_document : option (Value N);
  rv_invalidate_lease : bool;
}.

Inductive ResolvedItemMutationAction :=
| MPurge
| MReplace (values : ResolvedItemValues)
| MReplaceKeepingPayload (values : ResolvedItemValues).

Record ResolvedItemMutation := mkResolvedItemMutation {
  rm_item_id : ItemId.t;
  rm_action : ResolvedItemMutationAction;
}.

Inductive QueueCommand :=
| CmdCreateQueue (definition : QueueDefinition)
| CmdPush (items : list PushItem)
| CmdClaim (item_ids : list ItemId.t) (lease_token : string) (lease_expires_at : UtcTimestamp)
    (worker_id : option string) (authority_first : bool)
| CmdCohortClaim (cohort_id : string) (item_ids : list ItemId.t) (lease_token : string)
    (lease_expires_at : UtcTimestamp)
| CmdRenewLease (item_ids : list ItemId.t) (lease_expires_at : UtcTimestamp)
| CmdCohortRenewLease (cohort_id : string) (lease_expires_at : UtcTimestamp)
| CmdReassignLease (item_ids : list ItemId.t) (lease_token : string) (lease_expires_at : UtcTimestamp)
| CmdFinalize (outcomes : list FinalizeOutcome)
| CmdCohortFinalize (cohort_id : string) (kind : FinalizeKind) (not_before : option UtcTimestamp)
| CmdReplacePending (client_item_key : string) (superseded_item_id : ItemId.t) (replacement : PushItem)
| CmdUpdateFields (c : UpdateFieldsCommand)
| CmdUpdateFieldsBatch (updates : list UpdateFieldsCommand)
| CmdMutateItems (items : list ResolvedItemMutation) (gate_changes : list GateChange)
| CmdLeaseExpired (item_ids : list ItemId.t)
| CmdCohortExpired (group_key : string)
| CmdFenceLease (item_ids : list ItemId.t)
| CmdUnfenceLease (item_ids : list ItemId.t)
| CmdPauseQueue (drain_intake : bool)
| CmdResumeQueue
| CmdPurgeItems (item_ids : list ItemId.t) (force : bool)
| CmdSetGates (gate_keys : list string) (blocked : bool)
| CmdWriteSideRecords (records : list SideRecord)
| CmdAdvanceInstanceFence (instance_key : bytes) (expected next : Z).

(** ** State *)

(** What [new], [with_typed_indexes] and [with_eligibility_policy] fix. *)
Record ProjectionConfig := mkProjectionConfig {
  pc_priority_model : PriorityModel;
  pc_ordering_mode : OrderingMode;
  pc_max_rank_error : Z;
  pc_recurrence : RecurrencePolicy;
  pc_gate_key_policy : GateKeyPolicy;
  pc_max_gate_keys_per_item : option Z;
  pc_max_gates_per_request : option Z;
  pc_index_specs : list IndexSpec;
  pc_typed_index_specs : list QueueIndex;
}.

Record ProjectionData := mkProjectionData {
  pd_config : ProjectionConfig;
  pd_items : gmap ItemId.t ItemRecord;
  pd_retained_ids : gset ItemId.t;
  pd_leased_ids : gset ItemId.t;
  pd_leased_by_consumer : gmap string (gset ItemId.t);
  pd_ordinary_leases_by_expiry : gmap UtcTimestamp (gset ItemId.t);
  pd_by_key : gmap string ItemId.t;
  pd_eligible : EligibilityIndex;
  pd_metrics : QueueMetrics;
  pd_next_seq : Z;
  pd_paused : bool;
  pd_pause_drain_intake : bool;
  pd_blocked_gates : gset string;
  pd_gate_members : gmap string (gset ItemId.t);
  pd_indexes : gmap string SecondaryIndex;
  pd_claim_indexes : gmap string SecondaryIndex;
  pd_framed_index_keys : gmap ItemId.t (list (string * bytes));
  pd_side_records : gmap bytes bytes;
  pd_instance_fences : gmap bytes Z;
}.

Definition on_items f (p : ProjectionData) : ProjectionData :=
  mkProjectionData (pd_config p) (f (pd_items p)) (pd_retained_ids p) (pd_leased_ids p)
    (pd_leased_by_consumer p) (pd_ordinary_leases_by_expiry p) (pd_by_key p) (pd_eligible p) (pd_metrics p)
    (pd_next_seq p) (pd_paused p) (pd_pause_drain_intake p) (pd_blocked_gates p) (pd_gate_members p)
    (pd_indexes p) (pd_claim_indexes p) (pd_framed_index_keys p) (pd_side_records p) (pd_instance_fences p).
Definition on_retained_ids f (p : ProjectionData) : ProjectionData :=
  mkProjectionData (pd_config p) (pd_items p) (f (pd_retained_ids p)) (pd_leased_ids p)
    (pd_leased_by_consumer p) (pd_ordinary_leases_by_expiry p) (pd_by_key p) (pd_eligible p) (pd_metrics p)
    (pd_next_seq p) (pd_paused p) (pd_pause_drain_intake p) (pd_blocked_gates p) (pd_gate_members p)
    (pd_indexes p) (pd_claim_indexes p) (pd_framed_index_keys p) (pd_side_records p) (pd_instance_fences p).
Definition on_leased_ids f (p : ProjectionData) : ProjectionData :=
  mkProjectionData (pd_config p) (pd_items p) (pd_retained_ids p) (f (pd_leased_ids p))
    (pd_leased_by_consumer p) (pd_ordinary_leases_by_expiry p) (pd_by_key p) (pd_eligible p) (pd_metrics p)
    (pd_next_seq p) (pd_paused p) (pd_pause_drain_intake p) (pd_blocked_gates p) (pd_gate_members p)
    (pd_indexes p) (pd_claim_indexes p) (pd_framed_index_keys p) (pd_side_records p) (pd_instance_fences p).
Definition on_leased_by_consumer f (p : ProjectionData) : ProjectionData :=
  mkProjectionData (pd_config p) (pd_items p) (pd_retained_ids p) (pd_leased_ids p)
    (f (pd_leased_by_consumer p)) (pd_ordinary_leases_by_expiry p) (pd_by_key p) (pd_eligible p) (pd_metrics p)
    (pd_next_seq p) (pd_paused p) (pd_pause_drain_intake p) (pd_blocked_gates p) (pd_gate_members p)
    (pd_indexes p) (pd_claim_indexes p) (pd_framed_index_keys p) (pd_side_records p) (pd_instance_fences p).
Definition on_ordinary_leases_by_expiry f (p : ProjectionData) : ProjectionData :=
  mkProjectionData (pd_config p) (pd_items p) (pd_retained_ids p) (pd_leased_ids p) (pd_leased_by_consumer p)
    (f (pd_ordinary_leases_by_expiry p)) (pd_by_key p) (pd_eligible p) (pd_metrics p) (pd_next_seq p)
    (pd_paused p) (pd_pause_drain_intake p) (pd_blocked_gates p) (pd_gate_members p) (pd_indexes p)
    (pd_claim_indexes p) (pd_framed_index_keys p) (pd_side_records p) (pd_instance_fences p).
Definition on_by_key f (p : ProjectionData) : ProjectionData :=
  mkProjectionData (pd_config p) (pd_items p) (pd_retained_ids p) (pd_leased_ids p) (pd_leased_by_consumer p)
    (pd_ordinary_leases_by_expiry p) (f (pd_by_key p)) (pd_eligible p) (pd_metrics p) (pd_next_seq p)
    (pd_paused p) (pd_pause_drain_intake p) (pd_blocked_gates p) (pd_gate_members p) (pd_indexes p)
    (pd_claim_indexes p) (pd_framed_index_keys p) (pd_side_records p) (pd_instance_fences p).
Definition on_eligible f (p : ProjectionData) : ProjectionData :=
  mkProjectionData (pd_config p) (pd_items p) (pd_retained_ids p) (pd_leased_ids p) (pd_leased_by_consumer p)
    (pd_ordinary_leases_by_expiry p) (pd_by_key p) (f (pd_eligible p)) (pd_metrics p) (pd_next_seq p)
    (pd_paused p) (pd_pause_drain_intake p) (pd_blocked_gates p) (pd_gate_members p) (pd_indexes p)
    (pd_claim_indexes p) (pd_framed_index_keys p) (pd_side_records p) (pd_instance_fences p).
Definition on_metrics f (p : ProjectionData) : ProjectionData :=
  mkProjectionData (pd_config p) (pd_items p) (pd_retained_ids p) (pd_leased_ids p) (pd_leased_by_consumer p)
    (pd_ordinary_leases_by_expiry p) (pd_by_key p) (pd_eligible p) (f (pd_metrics p)) (pd_next_seq p)
    (pd_paused p) (pd_pause_drain_intake p) (pd_blocked_gates p) (pd_gate_members p) (pd_indexes p)
    (pd_claim_indexes p) (pd_framed_index_keys p) (pd_side_records p) (pd_instance_fences p).
Definition on_next_seq f (p : ProjectionData) : ProjectionData :=
  mkProjectionData (pd_config p) (pd_items p) (pd_retained_ids p) (pd_leased_ids p) (pd_leased_by_consumer p)
    (pd_ordinary_leases_by_expiry p) (pd_by_key p) (pd_eligible p) (pd_metrics p) (f (pd_next_seq p))
    (pd_paused p) (pd_pause_drain_intake p) (pd_blocked_gates p) (pd_gate_members p) (pd_indexes p)
    (pd_claim_indexes p) (pd_framed_index_keys p) (pd_side_records p) (pd_instance_fences p).
Definition on_paused f (p : ProjectionData) : ProjectionData :=
  mkProjectionData (pd_config p) (pd_items p) (pd_retained_ids p) (pd_leased_ids p) (pd_leased_by_consumer p)
    (pd_ordinary_leases_by_expiry p) (pd_by_key p) (pd_eligible p) (pd_metrics p) (pd_next_seq p)
    (f (pd_paused p)) (pd_pause_drain_intake p) (pd_blocked_gates p) (pd_gate_members p) (pd_indexes p)
    (pd_claim_indexes p) (pd_framed_index_keys p) (pd_side_records p) (pd_instance_fences p).
Definition on_pause_drain_intake f (p : ProjectionData) : ProjectionData :=
  mkProjectionData (pd_config p) (pd_items p) (pd_retained_ids p) (pd_leased_ids p) (pd_leased_by_consumer p)
    (pd_ordinary_leases_by_expiry p) (pd_by_key p) (pd_eligible p) (pd_metrics p) (pd_next_seq p) (pd_paused p)
    (f (pd_pause_drain_intake p)) (pd_blocked_gates p) (pd_gate_members p) (pd_indexes p) (pd_claim_indexes p)
    (pd_framed_index_keys p) (pd_side_records p) (pd_instance_fences p).
Definition on_blocked_gates f (p : ProjectionData) : ProjectionData :=
  mkProjectionData (pd_config p) (pd_items p) (pd_retained_ids p) (pd_leased_ids p) (pd_leased_by_consumer p)
    (pd_ordinary_leases_by_expiry p) (pd_by_key p) (pd_eligible p) (pd_metrics p) (pd_next_seq p) (pd_paused p)
    (pd_pause_drain_intake p) (f (pd_blocked_gates p)) (pd_gate_members p) (pd_indexes p) (pd_claim_indexes p)
    (pd_framed_index_keys p) (pd_side_records p) (pd_instance_fences p).
Definition on_gate_members f (p : ProjectionData) : ProjectionData :=
  mkProjectionData (pd_config p) (pd_items p) (pd_retained_ids p) (pd_leased_ids p) (pd_leased_by_consumer p)
    (pd_ordinary_leases_by_expiry p) (pd_by_key p) (pd_eligible p) (pd_metrics p) (pd_next_seq p) (pd_paused p)
    (pd_pause_drain_intake p) (pd_blocked_gates p) (f (pd_gate_members p)) (pd_indexes p) (pd_claim_indexes p)
    (pd_framed_index_keys p) (pd_side_records p) (pd_instance_fences p).
Definition on_indexes f (p : ProjectionData) : ProjectionData :=
  mkProjectionData (pd_config p) (pd_items p) (pd_retained_ids p) (pd_leased_ids p) (pd_leased_by_consumer p)
    (pd_ordinary_leases_by_expiry p) (pd_by_key p) (pd_eligible p) (pd_metrics p) (pd_next_seq p) (pd_paused p)
    (pd_pause_drain_intake p) (pd_blocked_gates p) (pd_gate_members p) (f (pd_indexes p)) (pd_claim_indexes p)
    (pd_framed_index_keys p) (pd_side_records p) (pd_instance_fences p).
Definition on_claim_indexes f (p : ProjectionData) : ProjectionData :=
  mkProjectionData (pd_config p) (pd_items p) (pd_retained_ids p) (pd_leased_ids p) (pd_leased_by_consumer p)
    (pd_ordinary_leases_by_expiry p) (pd_by_key p) (pd_eligible p) (pd_metrics p) (pd_next_seq p) (pd_paused p)
    (pd_pause_drain_intake p) (pd_blocked_gates p) (pd_gate_members p) (pd_indexes p) (f (pd_claim_indexes p))
    (pd_framed_index_keys p) (pd_side_records p) (pd_instance_fences p).
Definition on_framed_index_keys f (p : ProjectionData) : ProjectionData :=
  mkProjectionData (pd_config p) (pd_items p) (pd_retained_ids p) (pd_leased_ids p) (pd_leased_by_consumer p)
    (pd_ordinary_leases_by_expiry p) (pd_by_key p) (pd_eligible p) (pd_metrics p) (pd_next_seq p) (pd_paused p)
    (pd_pause_drain_intake p) (pd_blocked_gates p) (pd_gate_members p) (pd_indexes p) (pd_claim_indexes p)
    (f (pd_framed_index_keys p)) (pd_side_records p) (pd_instance_fences p).
Definition on_side_records f (p : ProjectionData) : ProjectionData :=
  mkProjectionData (pd_config p) (pd_items p) (pd_retained_ids p) (pd_leased_ids p) (pd_leased_by_consumer p)
    (pd_ordinary_leases_by_expiry p) (pd_by_key p) (pd_eligible p) (pd_metrics p) (pd_next_seq p) (pd_paused p)
    (pd_pause_drain_intake p) (pd_blocked_gates p) (pd_gate_members p) (pd_indexes p) (pd_claim_indexes p)
    (pd_framed_index_keys p) (f (pd_side_records p)) (pd_instance_fences p).
Definition on_instance_fences f (p : ProjectionData) : ProjectionData :=
  mkProjectionData (pd_config p) (pd_items p) (pd_retained_ids p) (pd_leased_ids p) (pd_leased_by_consumer p)
    (pd_ordinary_leases_by_expiry p) (pd_by_key p) (pd_eligible p) (pd_metrics p) (pd_next_seq p) (pd_paused p)
    (pd_pause_drain_intake p) (pd_blocked_gates p) (pd_gate_members p) (pd_indexes p) (pd_claim_indexes p)
    (pd_framed_index_keys p) (pd_side_records p) (f (pd_instance_fences p)).

Definition pd_model (p : ProjectionData) : PriorityModel := pc_priority_model (pd_config p).
Definition set_item (id : ItemId.t) (rec : ItemRecord) : ProjectionData → ProjectionData := on_items (<[id := rec]>).

Definition declared_unique (d : IndexDeclaration) : bool :=
  match d with Single def => IndexDef_unique def | Compound def => CompoundIndexDef_unique def end.

Definition empty_indexes (c : ProjectionConfig) : gmap string SecondaryIndex :=
  foldl (λ m q, <[qi_name q := empty_secondary_index (declared_unique (declaration q))]> m)
    (foldl (λ m s, <[is_name s := empty_secondary_index (is_unique s)]> m) ∅ (pc_index_specs c))
    (pc_typed_index_specs c).

Definition projection_new (c : ProjectionConfig) : ProjectionData := {|
  pd_config := c;
  pd_items := ∅;
  pd_retained_ids := ∅;
  pd_leased_ids := ∅;
  pd_leased_by_consumer := ∅;
  pd_ordinary_leases_by_expiry := ∅;
  pd_by_key := ∅;
  pd_eligible := elig_new;
  pd_metrics := QueueMetrics_default;
  pd_next_seq := 0;
  pd_paused := false;
  pd_pause_drain_intake := false;
  pd_blocked_gates := ∅;
  pd_gate_members := ∅;
  pd_indexes := empty_indexes c;
  pd_claim_indexes := empty_indexes c;
  pd_framed_index_keys := ∅;
  pd_side_records := ∅;
  pd_instance_fences := ∅;
|}.

Definition config_of (d : QueueDefinition) : ProjectionConfig := {|
  pc_priority_model := qd_priority_model d;
  pc_ordering_mode := qd_ordering_mode d;
  pc_max_rank_error := qd_max_rank_error d;
  pc_recurrence := qd_recurrence d;
  pc_gate_key_policy := ep_gate_keys (qd_eligibility_policy d);
  pc_max_gate_keys_per_item := max_gate_keys_per_item (qd_eligibility_policy d);
  pc_max_gates_per_request := max_gates_per_request (qd_eligibility_policy d);
  pc_index_specs := qd_secondary_indexes d;
  pc_typed_index_specs := qd_typed_indexes d;
|}.

(** ** Effects *)

(** [&mut self] with an [EngineResult]: what was changed before an error stays. *)
Definition M (A : Type) : Type := ProjectionData → EngineResult A * ProjectionData.
#[global] Instance M_ret : MRet M := λ A a p, (Ok a, p).
#[global] Instance M_bind : MBind M := λ A B f m p,
  match m p with (Ok a, p') => f a p' | (Err e, p') => (Err e, p') end.

Definition lift {A} (r : EngineResult A) : M A := λ p, (r, p).
Definition get : M ProjectionData := λ p, (Ok p, p).
Definition modify (f : ProjectionData → ProjectionData) : M unit := λ p, (Ok tt, f p).
Definition get_item (id : ItemId.t) : M ItemRecord := λ p, (ok_or (pd_items p !! id) NotFound, p).
Definition when (b : bool) (m : M unit) : M unit := if b then m else mret tt.
Fixpoint for_each {A} (f : A → M unit) (l : list A) : M unit :=
  match l with [] => mret tt | a :: l => f a ≫= λ _, for_each f l end.

(** ** Index keys of a record *)

Definition record_index_keys (c : ProjectionConfig) (fields : gmap string bytes)
    (index_fields : gmap string TypedValue) (entity : option (Value N)) : EngineResult (list (string * bytes)) :=
  typed ← (if negb (bool_decide (index_fields = ∅)) then typed_index_keys (pc_typed_index_specs c) index_fields
           else entity_index_keys (pc_typed_index_specs c) entity);
  Ok (legacy_index_keys (pc_index_specs c) fields ++ typed).

Definition record_entity_index_keys (c : ProjectionConfig) (rec : ItemRecord) : EngineResult (list (string * bytes)) :=
  record_index_keys c (ir_fields rec) (ir_index_fields rec)
    (if bool_decide (ir_index_fields rec = ∅) then entity_value rec else None).

Definition index_insert_keys (id : ItemId.t) keys : M unit := modify (on_indexes (insert_keys_into id keys)).
Definition claim_index_insert_keys (id : ItemId.t) keys : M unit := modify (on_claim_indexes (insert_keys_into id keys)).
Definition index_remove_keys (id : ItemId.t) keys : M unit := modify (on_indexes (remove_keys_from id keys)).
Definition claim_index_remove_keys (id : ItemId.t) keys : M unit := modify (on_claim_indexes (remove_keys_from id keys)).

Definition remember_framed_keys (id : ItemId.t) (keys : list (string * bytes)) : M unit :=
  modify (on_framed_index_keys (<[id := keys]>)).

Definition framed_keys_or_compute (id : ItemId.t) : M (list (string * bytes)) :=
  p ← get;
  match pd_framed_index_keys p !! id with
  | Some keys => mret keys
  | None =>
      rec ← get_item id;
      keys ← lift (record_entity_index_keys (pd_config p) rec);
      _ ← remember_framed_keys id keys; mret keys
  end.

(** ** Insertion *)

Definition epoch_zero : UtcTimestamp := mkUtcTimestamp 0 0.

Definition pending_record (item : PushItem) (seq : Z) (command_at : option UtcTimestamp) : ItemRecord := {|
  ir_item_id := pi_item_id item;
  ir_explicit_key := explicit_client_item_key (pi_item_id item) (pi_client_item_key item);
  ir_priority := pi_priority item;
  ir_not_before := pi_not_before item;
  ir_eligible_since := default (default epoch_zero command_at) (pi_not_before item);
  ir_group_key := pi_group_key item;
  ir_cohort_size := pi_cohort_size item;
  ir_payload := pi_payload item;
  ir_fields := pi_fields item;
  ir_metadata := pi_metadata item;
  ir_gate_keys := pi_gate_keys item;
  ir_index_fields := pi_index_fields item;
  ir_entity_document := pack_entity_document (pi_entity_document item);
  ir_state := Pending;
  ir_item_version := 1;
  ir_attempt_count := 0;
  ir_max_attempts := pi_max_attempts item;
  ir_created_seq := seq;
  ir_lease_token := None;
  ir_lease_expires_at := None;
  ir_lease_is_cohort := false;
  ir_worker_id := None;
  ir_fenced := false;
  ir_superseded := false;
  ir_terminal_at := None;
  ir_terminal_position := None;
|}.

(** Pending, not superseded and not gated: the records with an eligibility row. *)
Definition is_pending (s : ItemState) : bool := match s with Pending => true | _ => false end.
Definition is_leased (s : ItemState) : bool := match s with Leased => true | _ => false end.
Definition claimable (blocked : gset string) (rec : ItemRecord) : bool :=
  is_pending (ir_state rec) && negb (ir_superseded rec) && negb (gate_keys_blocked blocked (ir_gate_keys rec)).

Definition elig_drop (rec : ItemRecord) : M unit :=
  modify (λ p, on_eligible (λ e, elig_remove e (elig_token rec (pd_model p))) p).
Definition elig_add (rec : ItemRecord) : M unit :=
  modify (λ p, on_eligible (λ e, elig_insert e rec (pd_items p) (pd_model p)) p).

Definition insert_pending (item : PushItem) (command_at : option UtcTimestamp) : M unit :=
  p ← get;
  let rec := pending_record item (pd_next_seq p) command_at in
  let id := ir_item_id rec in
  _ ← modify (on_next_seq wrapping_succ_u64);
  _ ← match pd_items p !! id with
      | Some old => when (claimable (pd_blocked_gates p) old) (elig_drop old)
      | None => mret tt
      end;
  _ ← when (negb (gate_keys_blocked (pd_blocked_gates p) (ir_gate_keys rec))) (elig_add rec);
  _ ← match ir_explicit_key rec with
      | Some key => modify (on_by_key (<[key := id]>))
      | None => mret tt
      end;
  _ ← modify (on_gate_members (λ m, foldl (λ m key, post key id m) m (ir_gate_keys rec)));
  keys ← lift (record_entity_index_keys (pd_config p) rec);
  _ ← index_insert_keys id keys;
  _ ← claim_index_insert_keys id keys;
  _ ← remember_framed_keys id keys;
  _ ← modify (on_retained_ids (λ s, {[id]} ∪ s));
  _ ← modify (set_item id rec);
  modify (on_metrics (metrics_inc Pending)).

(** ** Lifecycle *)

(** An ended lease leaves the three lease indexes. *)
Definition drop_lease_rows (id : ItemId.t) (expiry : option UtcTimestamp) (token : option string)
    (p : ProjectionData) : ProjectionData :=
  let p := on_leased_ids (λ s, s ∖ {[id]}) p in
  let p := match expiry with Some e => on_ordinary_leases_by_expiry (unpost e id) p | None => p end in
  match token with Some t => on_leased_by_consumer (unpost t id) p | None => p end.

Definition transition_record (rec : ItemRecord) (new : ItemState) (terminal_at : option UtcTimestamp)
    (terminal_position : option CommandPosition) : ItemRecord :=
  let old := ir_state rec in
  let rec := set_item_version (wrapping_succ_u64 (ir_item_version rec)) (set_state new rec) in
  let rec := if is_leased new then rec else set_worker_id None rec in
  if is_terminal new then set_terminal_position terminal_position (set_terminal_at terminal_at rec)
  else if is_terminal old then set_terminal_position None (set_terminal_at None rec)
  else rec.

Definition transition (id : ItemId.t) (ev : ItemEvent) (terminal_at : option UtcTimestamp)
    (terminal_position : option CommandPosition) : M ItemState :=
  p ← get;
  rec ← get_item id;
  if ir_superseded rec then lift (Err Superseded)
  else
    let old := ir_state rec in
    new ← lift (map_err (λ _, Invalid "illegal lifecycle transition") (apply_transition old ev));
    let rec' := transition_record rec new terminal_at terminal_position in
    let blocked := gate_keys_blocked (pd_blocked_gates p) (ir_gate_keys rec) in
    _ ← modify (set_item id rec');
    _ ← when (is_leased old && negb (is_leased new))
          (modify (drop_lease_rows id (ir_lease_expires_at rec) (ir_lease_token rec)));
    _ ← when (is_pending old && negb blocked) (elig_drop rec);
    _ ← when (is_pending new && negb blocked) (elig_add rec');
    _ ← (if is_pending old && negb (is_pending new) then
           keys ← framed_keys_or_compute id; claim_index_remove_keys id keys
         else if negb (is_pending old) && is_pending new then
           keys ← framed_keys_or_compute id; claim_index_insert_keys id keys
         else mret tt);
    _ ← modify (on_metrics (metrics_transition old new));
    mret new.

Definition update_record (id : ItemId.t) (f : ItemRecord → ItemRecord) : M unit :=
  rec ← get_item id; modify (set_item id (f rec)).

(** ** Gates *)

Definition apply_gate_change (gate_keys : list string) (blocked : bool) : M unit :=
  p ← get;
  let affected : gset ItemId.t := ⋃ omap (λ key, pd_gate_members p !! key) gate_keys in
  let old := omap (λ id,
    rec ← pd_items p !! id;
    if is_pending (ir_state rec) && negb (ir_superseded rec)
    then Some (id, gate_keys_blocked (pd_blocked_gates p) (ir_gate_keys rec)) else None) (elems affected) in
  _ ← modify (on_blocked_gates (λ s, foldl (λ s key, if blocked then {[key]} ∪ s else s ∖ {[key]}) s gate_keys));
  for_each (λ '(id, was_blocked),
    rec ← get_item id;
    p ← get;
    match was_blocked, gate_keys_blocked (pd_blocked_gates p) (ir_gate_keys rec) with
    | false, true => elig_drop rec
    | true, false => elig_add rec
    | _, _ => mret tt
    end) old.

(** ** Field updates *)

Definition apply_field_ops (ops : gmap string (option bytes)) (fields : gmap string bytes) : gmap string bytes :=
  foldl (λ fields e, match e.2 with Some v => <[e.1 := v]> fields | None => delete e.1 fields end)
    fields (btree_list ops).

Definition sched_set {T} (u : ScheduleUpdate T) : bool := match u with SchedSet _ => true | SchedKeep => false end.
Definition sched_value {T} (u : ScheduleUpdate T) (current : option T) : option T :=
  match u with SchedSet v => v | SchedKeep => current end.

Definition max_timestamp (a b : UtcTimestamp) : UtcTimestamp := if decide (cmp_timestamp a b = Gt) then a else b.

(** The record an update leaves. *)
Definition updated_record (rec : ItemRecord) (c : UpdateFieldsCommand) (terminal_at : option UtcTimestamp)
    (next_fields : gmap string bytes) (next_index_fields : gmap string TypedValue) : ItemRecord :=
  let rec := set_fields next_fields rec in
  let rec := match uf_payload c with PayloadSet p => set_payload p rec | PayloadKeep => rec end in
  let rec := match uf_set_metadata c with Some m => set_metadata m rec | None => rec end in
  let rec := match uf_set_gate_keys c with Some g => set_gate_keys g rec | None => rec end in
  let rec := set_index_fields next_index_fields rec in
  let rec := match uf_set_entity_document c with
             | Some doc => set_entity_document (pack_entity_document (Some doc)) rec
             | None => rec
             end in
  let rec := set_priority (sched_value (uf_set_priority c) (ir_priority rec)) rec in
  let rec :=
    match uf_set_not_before c with
    | SchedSet nb =>
        let rec := set_not_before nb rec in
        if uf_api001_batch c then rec
        else let now := default (ir_eligible_since rec) terminal_at in
             set_eligible_since (max_timestamp (default now nb) now) rec
    | SchedKeep => rec
    end in
  set_item_version (wrapping_succ_u64 (ir_item_version rec)) rec.

Definition keys_minus (keys other : list (string * bytes)) : list (string * bytes) := filter (λ k, k ∉ other) keys.

Definition apply_update_fields (terminal_at : option UtcTimestamp) (c : UpdateFieldsCommand) : M unit :=
  p ← get;
  let id := uf_item_id c in
  rec ← get_item id;
  let index_inputs_changed :=
    bool_decide (is_Some (uf_set_fields c)) || negb (bool_decide (uf_field_ops c = ∅)) ||
    bool_decide (is_Some (uf_set_entity_document c)) in
  old_keys ← lift (if index_inputs_changed then record_entity_index_keys (pd_config p) rec else Ok []);
  let eligibility_changed :=
    sched_set (uf_set_priority c) || sched_set (uf_set_not_before c) ||
    bool_decide (is_Some (uf_set_gate_keys c)) in
  let was_pending := is_pending (ir_state rec) in
  let next_fields := apply_field_ops (uf_field_ops c) (default (ir_fields rec) (uf_set_fields c)) in
  next_index_fields ← lift
    match uf_set_entity_document c with
    | Some doc => extract_index_fields_from_entity (pc_typed_index_specs (pd_config p)) doc
    | None => Ok (ir_index_fields rec)
    end;
  let next_entity := match uf_set_entity_document c with Some doc => Some doc | None => entity_value rec end in
  new_keys ← lift (if index_inputs_changed
                   then record_index_keys (pd_config p) next_fields next_index_fields next_entity else Ok []);
  let rec' := updated_record rec c terminal_at next_fields next_index_fields in
  _ ← modify (set_item id rec');
  let removed := keys_minus old_keys new_keys in
  let added := keys_minus new_keys old_keys in
  _ ← index_remove_keys id removed;
  _ ← index_insert_keys id added;
  _ ← when (was_pending && negb (ir_superseded rec))
        (_ ← claim_index_remove_keys id removed; claim_index_insert_keys id added);
  _ ← when (negb (bool_decide (old_keys = [])) || negb (bool_decide (new_keys = [])))
        (remember_framed_keys id new_keys);
  _ ← modify (on_gate_members (replace_gate_memberships id (ir_gate_keys rec)
                                 (default (ir_gate_keys rec) (uf_set_gate_keys c))));
  _ ← when (eligibility_changed && was_pending && negb (gate_keys_blocked (pd_blocked_gates p) (ir_gate_keys rec)))
        (elig_drop rec);
  when (eligibility_changed && was_pending && negb (gate_keys_blocked (pd_blocked_gates p) (ir_gate_keys rec')))
    (elig_add rec').

(** ** Removal *)

Definition remove_record (rec : ItemRecord) : M unit :=
  p ← get;
  let id := ir_item_id rec in
  _ ← modify (on_retained_ids (λ s, s ∖ {[id]}));
  _ ← when (negb (ir_superseded rec)) (modify (on_metrics (metrics_dec (ir_state rec))));
  _ ← match ir_explicit_key rec with
      | Some key => modify (on_by_key (delete key))
      | None => mret tt
      end;
  _ ← modify (on_gate_members (replace_gate_memberships id (ir_gate_keys rec) []));
  _ ← when (is_pending (ir_state rec)) (elig_drop rec);
  _ ← when (is_leased (ir_state rec))
        (modify (drop_lease_rows id (ir_lease_expires_at rec) (ir_lease_token rec)));
  keys ← match pd_framed_index_keys p !! id with
         | Some keys => _ ← modify (on_framed_index_keys (delete id)); mret keys
         | None => lift (record_entity_index_keys (pd_config p) rec)
         end;
  _ ← index_remove_keys id keys;
  claim_index_remove_keys id keys.

Definition purge_item (id : ItemId.t) : M unit :=
  p ← get;
  match pd_items p !! id with
  | None => mret tt
  | Some rec => _ ← modify (on_items (delete id)); remove_record rec
  end.

(** ** Leases *)

Definition claim_one (token : string) (expires : UtcTimestamp) (worker : option string) (id : ItemId.t) : M unit :=
  _ ← transition id Claim None None;
  _ ← update_record id (λ rec,
        set_attempt_count (wrapping_succ_u32 (ir_attempt_count rec))
          (set_worker_id worker (set_lease_is_cohort false
             (set_lease_expires_at (Some expires) (set_lease_token (Some token) rec)))));
  _ ← modify (on_leased_ids (λ s, {[id]} ∪ s));
  _ ← modify (on_leased_by_consumer (post token id));
  modify (on_ordinary_leases_by_expiry (post expires id)).

Definition cohort_claim_one (token : string) (expires : UtcTimestamp) (id : ItemId.t) : M unit :=
  _ ← transition id Claim None None;
  _ ← update_record id (λ rec,
        set_attempt_count (wrapping_succ_u32 (ir_attempt_count rec))
          (set_lease_is_cohort true (set_lease_expires_at (Some expires) (set_lease_token (Some token) rec))));
  _ ← modify (on_leased_ids (λ s, {[id]} ∪ s));
  modify (on_leased_by_consumer (post token id)).

Definition drop_expiry (id : ItemId.t) (expiry : option UtcTimestamp) : M unit :=
  match expiry with
  | Some e => modify (on_ordinary_leases_by_expiry (unpost e id))
  | None => mret tt
  end.

Definition renew_one (expires : UtcTimestamp) (id : ItemId.t) : M unit :=
  rec ← get_item id;
  _ ← drop_expiry id (ir_lease_expires_at rec);
  _ ← update_record id (λ rec,
        set_item_version (wrapping_succ_u64 (ir_item_version rec)) (set_lease_expires_at (Some expires) rec));
  modify (on_ordinary_leases_by_expiry (post expires id)).

Definition reassign_one (token : string) (expires : UtcTimestamp) (id : ItemId.t) : M unit :=
  rec ← get_item id;
  _ ← drop_expiry id (ir_lease_expires_at rec);
  _ ← update_record id (λ rec,
        set_item_version (wrapping_succ_u64 (ir_item_version rec))
          (set_attempt_count (wrapping_succ_u32 (ir_attempt_count rec))
             (set_lease_expires_at (Some expires) (set_lease_token (Some token) rec))));
  _ ← modify (on_ordinary_leases_by_expiry (post expires id));
  _ ← match ir_lease_token rec with
      | Some old => modify (on_leased_by_consumer (unpost old id))
      | None => mret tt
      end;
  modify (on_leased_by_consumer (post token id)).

Definition lease_expired_one (id : ItemId.t) : M unit :=
  _ ← transition id LeaseExpired None None;
  update_record id (λ rec, set_lease_is_cohort false (set_lease_expires_at None (set_lease_token None rec))).

(** ** Finalization *)

Definition timestamp_gt (a b : UtcTimestamp) : bool := bool_decide (cmp_timestamp a b = Gt).

Definition finalize_event (p : ProjectionData) (rec : option ItemRecord) (o : FinalizeOutcome) : EngineResult ItemEvent :=
  match fo_kind o with
  | KComplete => Ok FinalizeComplete
  | KFail => Ok FinalizeFail
  | KRetry => (λ rec, failure_event (ir_attempt_count rec) (ir_max_attempts rec)) <$> ok_or rec NotFound
  | KRelease => Ok FinalizeRelease
  | KRearm =>
      Ok (match mode (pc_recurrence (pd_config p)), fo_not_before o, until (pc_recurrence (pd_config p)) with
          | Recurring, Some nb, Some until => if timestamp_gt nb until then FinalizeComplete else FinalizeRearm
          | _, _, _ => FinalizeRearm
          end)
  end.

Definition finalized_record (rec : ItemRecord) (o : FinalizeOutcome) (terminal_at : option UtcTimestamp) : ItemRecord :=
  let rec := if bool_decide (fo_kind o = KRearm) && is_pending (ir_state rec) then
      let rec := set_attempt_count 0 rec in
      let rec := match fo_not_before o with Some nb => set_not_before (Some nb) rec | None => rec end in
      let now := default (ir_eligible_since rec) terminal_at in
      set_eligible_since (max_timestamp (default now (fo_not_before o)) now) rec
    else rec in
  match bool_decide (fo_kind o = KRetry) && is_pending (ir_state rec), fo_not_before o with
  | true, Some nb => set_eligible_since nb (set_not_before (Some nb) rec)
  | _, _ => rec
  end.

Definition finalize_one (terminal_at : option UtcTimestamp) (terminal_position : option CommandPosition)
    (o : FinalizeOutcome) : M unit :=
  p ← get;
  let id := fo_item_id o in
  ev ← lift (finalize_event p (pd_items p !! id) o);
  _ ← transition id ev terminal_at terminal_position;
  rec ← get_item id;
  let rec := set_fenced false (set_lease_is_cohort false (set_lease_expires_at None (set_lease_token None rec))) in
  let rec' := finalized_record rec o terminal_at in
  _ ← modify (set_item id rec');
  when (is_pending (ir_state rec) && negb (gate_keys_blocked (pd_blocked_gates p) (ir_gate_keys rec)) &&
        negb (bool_decide (elig_token rec (pd_model p) = elig_token rec' (pd_model p))))
    (_ ← elig_drop rec; elig_add rec').

(** ** Replacement and mutation *)

Definition replace_pending (client_key : string) (superseded : ItemId.t) (replacement : PushItem)
    (terminal_at : option UtcTimestamp) : M unit :=
  p ← get;
  superseded_keys ← lift match pd_items p !! superseded with
                         | Some rec => Some <$> record_entity_index_keys (pd_config p) rec
                         | None => Ok None
                         end;
  let superseded_gate_keys := match pd_items p !! superseded with Some rec => ir_gate_keys rec | None => [] end in
  _ ← match pd_items p !! superseded with
      | Some rec =>
          _ ← modify (set_item superseded (set_superseded true rec));
          _ ← when (is_pending (ir_state rec)) (elig_drop rec);
          when (negb (ir_superseded rec)) (modify (on_metrics (metrics_dec (ir_state rec))))
      | None => mret tt
      end;
  _ ← match superseded_keys with
      | Some keys => _ ← index_remove_keys superseded keys; claim_index_remove_keys superseded keys
      | None => mret tt
      end;
  _ ← modify (on_retained_ids (λ s, s ∖ {[superseded]}));
  _ ← modify (on_framed_index_keys (delete superseded));
  _ ← modify (on_gate_members (replace_gate_memberships superseded superseded_gate_keys []));
  _ ← modify (on_by_key (delete client_key));
  insert_pending replacement terminal_at.

Definition mutated_record (rec : ItemRecord) (values : ResolvedItemValues) (keeps_payload lease_ends : bool)
    (terminal_at : option UtcTimestamp) (terminal_position : option CommandPosition) : ItemRecord :=
  let rec := set_eligible_since (rv_eligible_since values) (set_not_before (rv_not_before values)
               (set_priority (rv_priority values) (set_item_version (rv_item_version values)
                  (set_state (rv_state values) rec)))) in
  let rec := if keeps_payload then rec else set_payload (rv_payload values) rec in
  let rec := set_entity_document (pack_entity_document (rv_entity_document values))
               (set_index_fields (rv_index_fields values) (set_gate_keys (rv_gate_keys values)
                  (set_metadata (rv_metadata values) (set_fields (rv_fields values) rec)))) in
  let rec := if lease_ends then
      set_fenced false (set_worker_id None (set_lease_is_cohort false
        (set_lease_expires_at None (set_lease_token None rec))))
    else rec in
  if is_terminal (rv_state values) then set_terminal_position terminal_position (set_terminal_at terminal_at rec)
  else set_terminal_position None (set_terminal_at None rec).

Definition replace_values (id : ItemId.t) (values : ResolvedItemValues) (keeps_payload : bool)
    (terminal_at : option UtcTimestamp) (terminal_position : option CommandPosition) : M unit :=
  p ← get;
  old ← get_item id;
  old_keys ← lift (record_entity_index_keys (pd_config p) old);
  _ ← when (claimable (pd_blocked_gates p) old) (elig_drop old);
  let lease_ends := is_leased (ir_state old) && (rv_invalidate_lease values || negb (is_leased (rv_state values))) in
  _ ← when lease_ends
        (modify (drop_lease_rows id (if ir_lease_is_cohort old then None else ir_lease_expires_at old)
                   (ir_lease_token old)));
  new_keys ← lift (record_index_keys (pd_config p) (rv_fields values) (rv_index_fields values)
                     (rv_entity_document values));
  _ ← remember_framed_keys id new_keys;
  let rec := mutated_record old values keeps_payload lease_ends terminal_at terminal_position in
  _ ← modify (set_item id rec);
  _ ← index_remove_keys id (keys_minus old_keys new_keys);
  _ ← index_insert_keys id (keys_minus new_keys old_keys);
  _ ← when (is_pending (ir_state old) && negb (ir_superseded old)) (claim_index_remove_keys id old_keys);
  _ ← when (is_pending (rv_state values)) (claim_index_insert_keys id new_keys);
  _ ← modify (on_gate_members (replace_gate_memberships id (ir_gate_keys old) (rv_gate_keys values)));
  _ ← modify (on_metrics (metrics_transition (ir_state old) (rv_state values)));
  when (claimable (pd_blocked_gates p) rec) (elig_add rec).

Definition mutate_one (terminal_at : option UtcTimestamp) (terminal_position : option CommandPosition)
    (m : ResolvedItemMutation) : M unit :=
  match rm_action m with
  | MPurge => purge_item (rm_item_id m)
  | MReplace values => replace_values (rm_item_id m) values false terminal_at terminal_position
  | MReplaceKeepingPayload values => replace_values (rm_item_id m) values true terminal_at terminal_position
  end.

(** ** Cohort expiry *)

Definition in_open_group (group_key : string) (rec : ItemRecord) : bool :=
  bool_decide (ir_group_key rec = Some group_key) && negb (is_terminal (ir_state rec)).

Definition expire_member (terminal_at : option UtcTimestamp) (terminal_position : option CommandPosition)
    (id : ItemId.t) : M unit :=
  p ← get;
  match pd_items p !! id with
  | None => mret tt
  | Some rec =>
      let old := ir_state rec in
      _ ← modify (set_item id
            (set_terminal_position terminal_position (set_terminal_at terminal_at
              (set_item_version (wrapping_succ_u64 (ir_item_version rec)) (set_state Failed rec)))));
      _ ← when (is_pending old) (elig_drop rec);
      _ ← modify (on_metrics (metrics_transition old Failed));
      match is_leased old, ir_lease_token rec with
      | true, Some token =>
          _ ← modify (on_leased_ids (λ s, s ∖ {[id]}));
          modify (on_leased_by_consumer (unpost token id))
      | _, _ => mret tt
      end
  end.

(** ** Dispatch *)

Definition set_fence (fenced : bool) (id : ItemId.t) : M unit :=
  modify (on_items (alter (set_fenced fenced) id)).

Definition apply_command_at (terminal_at : option UtcTimestamp) (terminal_position : option CommandPosition)
    (cmd : QueueCommand) : M unit :=
  match cmd with
  | CmdCreateQueue _ => mret tt
  | CmdPush items => for_each (λ it, insert_pending it terminal_at) items
  | CmdClaim ids token expires worker _ => for_each (claim_one token expires worker) ids
  | CmdCohortClaim _ ids token expires => for_each (cohort_claim_one token expires) ids
  | CmdRenewLease ids expires => for_each (renew_one expires) ids
  | CmdCohortRenewLease _ _ => mret tt
  | CmdReassignLease ids token expires => for_each (reassign_one token expires) ids
  | CmdFinalize outcomes => for_each (finalize_one terminal_at terminal_position) outcomes
  | CmdCohortFinalize _ _ _ => mret tt
  | CmdReplacePending key superseded replacement => replace_pending key superseded replacement terminal_at
  | CmdUpdateFields c => apply_update_fields terminal_at c
  | CmdUpdateFieldsBatch updates => for_each (apply_update_fields terminal_at) updates
  | CmdMutateItems items gate_changes =>
      _ ← for_each (mutate_one terminal_at terminal_position) items;
      for_each (λ g, apply_gate_change (gc_gate_keys g) (gc_blocked g)) gate_changes
  | CmdLeaseExpired ids => for_each lease_expired_one ids
  | CmdCohortExpired group_key =>
      p ← get;
      for_each (expire_member terminal_at terminal_position)
        (map_to_list (filter (λ e, in_open_group group_key e.2 = true) (pd_items p))).*1
  | CmdFenceLease ids => for_each (set_fence true) ids
  | CmdUnfenceLease ids => for_each (set_fence false) ids
  | CmdPauseQueue drain_intake => modify (λ p, on_pause_drain_intake (λ _, drain_intake) (on_paused (λ _, true) p))
  | CmdResumeQueue => modify (λ p, on_pause_drain_intake (λ _, false) (on_paused (λ _, false) p))
  | CmdSetGates gate_keys blocked => apply_gate_change gate_keys blocked
  | CmdWriteSideRecords records =>
      for_each (λ r, modify (on_side_records (<[sr_key r := sr_payload r]>))) records
  | CmdAdvanceInstanceFence key _ next => modify (on_instance_fences (<[key := next]>))
  | CmdPurgeItems ids _ => for_each purge_item ids
  end.

Definition apply_command (cmd : QueueCommand) : M unit := apply_command_at None None cmd.

(** [apply_command_owned_at] moves the items of a push instead of cloning them. *)
Definition apply_command_owned_at (terminal_at : option UtcTimestamp) (terminal_position : option CommandPosition)
    (cmd : QueueCommand) : M unit :=
  match cmd with
  | CmdPush items => for_each (λ it, insert_pending it terminal_at) items
  | other => apply_command_at terminal_at terminal_position other
  end.

(** ** Validators *)

Definition validate_leased_record (rec : option ItemRecord) : EngineResult unit :=
  match rec with
  | None => Err NotFound
  | Some rec =>
      if ir_fenced rec then Err StaleLease
      else if is_terminal (ir_state rec) then Err Terminal
      else if ir_superseded rec then Err Superseded
      else if negb (is_leased (ir_state rec)) then Err (Invalid "item is not leased")
      else Ok tt
  end.

Definition validate_leased (p : ProjectionData) (ids : list ItemId.t) : EngineResult unit :=
  try_for_each (λ id, validate_leased_record (pd_items p !! id)) ids.

Definition finalize_validate (p : ProjectionData) (outcomes : list FinalizeOutcome) : EngineResult unit :=
  validate_leased p (fo_item_id <$> outcomes).
Definition renew_validate := validate_leased.
Definition reassign_validate := validate_leased.

Record ClaimRef := mkClaimRef {
  cr_item_id : ItemId.t;
  cr_lease_token : string;
  cr_lease_expires_at : UtcTimestamp;
  cr_item_version : Z;
}.

Definition commit_validate (p : ProjectionData) (refs : list ClaimRef) (now : UtcTimestamp) : EngineResult unit :=
  try_for_each (λ r,
    _ ← validate_leased_record (pd_items p !! cr_item_id r);
    rec ← ok_or (pd_items p !! cr_item_id r) NotFound;
    if negb (bool_decide (ir_lease_token rec = Some (cr_lease_token r))) then Err StaleLease
    else if match ir_lease_expires_at rec with Some e => timestamp_gt now e | None => false end then Err StaleLease
    else if negb (ir_item_version rec =? cr_item_version r) then Err Conflict
    else Ok tt) refs.

Definition update_fields_validate (p : ProjectionData) (id : ItemId.t) (expected_item_version : option Z)
    : EngineResult unit :=
  match pd_items p !! id with
  | None => Err NotFound
  | Some rec =>
      if ir_fenced rec then Err StaleLease
      else if is_terminal (ir_state rec) then Err Terminal
      else if ir_superseded rec then Err Superseded
      else match expected_item_version with
           | Some v => if negb (ir_item_version rec =? v) then Err Conflict else Ok tt
           | None => Ok tt
           end
  end.

Definition index_validate_with_entity (p : ProjectionData) (id : ItemId.t) (fields : gmap string bytes)
    (entity : option (Value N)) (exclude : option ItemId.t) : EngineResult unit :=
  let stored := match pd_items p !! id with Some rec => ir_index_fields rec | None => ∅ end in
  proposed ← match entity with
             | Some doc => extract_index_fields_from_entity (pc_typed_index_specs (pd_config p)) doc
             | None => Ok stored
             end;
  keys ← record_index_keys (pd_config p) fields proposed entity;
  try_for_each (λ e,
    match pd_indexes p !! e.1 with
    | Some (Unique map) =>
        match map !! e.2 with
        | Some holder => if negb (bool_decide (holder = id)) && negb (bool_decide (Some holder = exclude))
                         then Err Conflict else Ok tt
        | None => Ok tt
        end
    | _ => Ok tt
    end) keys.

(** One key of a pushed item against the stored holders, then against the batch. *)
Definition push_key_step (p : ProjectionData) (id : ItemId.t) (batch : gmap (string * bytes) ItemId.t)
    (e : string * bytes) : EngineResult (gmap (string * bytes) ItemId.t) :=
  match pd_indexes p !! e.1 with
  | Some (Unique map) =>
      if match map !! e.2 with Some holder => negb (bool_decide (holder = id)) | None => false end then Err Conflict
      else if match batch !! e with Some prev => negb (bool_decide (prev = id)) | None => false end then Err Conflict
      else Ok (<[e := id]> batch)
  | _ => Ok batch
  end.

Definition index_validate_push (p : ProjectionData) (items : list PushItem) : EngineResult unit :=
  (λ _, tt) <$> try_fold (λ batch item,
    keys ← record_index_keys (pd_config p) (pi_fields item) (pi_index_fields item) (pi_entity_document item);
    try_fold (push_key_step p (pi_item_id item)) batch keys) ∅ items.

Definition index_validate_update_with_entity (p : ProjectionData) (id : ItemId.t)
    (field_ops : gmap string (option bytes)) (entity : option (Value N)) : EngineResult unit :=
  rec ← ok_or (pd_items p !! id) NotFound;
  index_validate_with_entity p id (apply_field_ops field_ops (ir_fields rec))
    (match entity with Some doc => Some doc | None => entity_value rec end) None.

Definition index_validate_replace (p : ProjectionData) (superseded : ItemId.t) (replacement : PushItem)
    : EngineResult unit :=
  index_validate_with_entity p (pi_item_id replacement) (pi_fields replacement) (pi_entity_document replacement)
    (Some superseded).

(** ** Images *)

(** A record as the image carries it: the client key spelled out, the document decoded,
    the eligibility instant absent in images written before it existed. The other fields
    are the record's own. *)
Record ProjectionImageItem := mkProjectionImageItem {
  im_record : ItemRecord;
  im_client_item_key : string;
  im_eligible_since : option UtcTimestamp;
  im_entity_document : option (Value N);
}.

Definition image_item_of (rec : ItemRecord) : ProjectionImageItem := {|
  im_record := rec;
  im_client_item_key := client_item_key rec;
  im_eligible_since := Some (ir_eligible_since rec);
  im_entity_document := entity_value rec;
|}.

Definition set_explicit_key x (r : ItemRecord) : ItemRecord :=
  mkItemRecord (ir_item_id r) x (ir_priority r) (ir_not_before r) (ir_eligible_since r) (ir_group_key r)
    (ir_cohort_size r) (ir_payload r) (ir_fields r) (ir_metadata r) (ir_gate_keys r) (ir_index_fields r)
    (ir_entity_document r) (ir_state r) (ir_item_version r) (ir_attempt_count r) (ir_max_attempts r)
    (ir_created_seq r) (ir_lease_token r) (ir_lease_expires_at r) (ir_lease_is_cohort r) (ir_worker_id r)
    (ir_fenced r) (ir_superseded r) (ir_terminal_at r) (ir_terminal_position r).

Definition record_of (item : ProjectionImageItem) : ItemRecord :=
  let rec := im_record item in
  set_entity_document
    (pack_entity_document (rehydrate_entity_document (im_entity_document item) (ir_index_fields rec)))
    (set_eligible_since
       (default epoch_zero (match im_eligible_since item with Some t => Some t | None => ir_not_before rec end))
       (set_explicit_key (explicit_client_item_key (ir_item_id rec) (im_client_item_key item)) rec)).

Record ProjectionImage := mkProjectionImage {
  pim_high_water : option CommandPosition;
  pim_paused : bool;
  pim_pause_drain_intake : bool;
  pim_blocked_gates : gset string;
  pim_next_seq : Z;
  pim_items : list ProjectionImageItem;
  pim_side_records : gmap bytes bytes;
  pim_instance_fences : gmap bytes Z;
  pim_metrics : QueueMetrics;
}.

Definition image_order (a b : ProjectionImageItem) : Prop :=
  le_cmp (ir_created_seq (im_record a), ir_item_id (im_record a))
         (ir_created_seq (im_record b), ir_item_id (im_record b)).
#[global] Instance image_order_dec : RelDecision image_order := λ a b, decide (le_cmp _ _).

Definition to_image (p : ProjectionData) (high_water : option CommandPosition) : ProjectionImage := {|
  pim_high_water := high_water;
  pim_paused := pd_paused p;
  pim_pause_drain_intake := pd_pause_drain_intake p;
  pim_blocked_gates := pd_blocked_gates p;
  pim_next_seq := pd_next_seq p;
  pim_items := merge_sort image_order (image_item_of <$> (map_to_list (pd_items p)).*2);
  pim_side_records := pd_side_records p;
  pim_instance_fences := pd_instance_fences p;
  pim_metrics := pd_metrics p;
|}.

(** One record of an image enters every derived index. *)
Definition import_record (rec : ItemRecord) : M unit :=
  p ← get;
  let id := ir_item_id rec in
  let live := negb (ir_superseded rec) in
  _ ← modify (on_gate_members (λ m, foldl (λ m key, post key id m) m (ir_gate_keys rec)));
  _ ← when live (
        _ ← modify (on_retained_ids (λ s, {[id]} ∪ s));
        _ ← match ir_explicit_key rec with
            | Some key => modify (on_by_key (<[key := id]>))
            | None => mret tt
            end;
        keys ← lift (record_entity_index_keys (pd_config p) rec);
        _ ← index_insert_keys id keys;
        _ ← when (is_pending (ir_state rec)) (claim_index_insert_keys id keys);
        remember_framed_keys id keys);
  _ ← when (claimable (pd_blocked_gates p) rec) (elig_add rec);
  _ ← match is_leased (ir_state rec) && live, ir_lease_token rec with
      | true, Some token =>
          _ ← modify (on_leased_ids (λ s, {[id]} ∪ s));
          modify (on_leased_by_consumer (post token id))
      | _, _ => mret tt
      end;
  _ ← match is_leased (ir_state rec) && live && negb (ir_lease_is_cohort rec), ir_lease_expires_at rec with
      | true, Some expires => modify (on_ordinary_leases_by_expiry (post expires id))
      | _, _ => mret tt
      end;
  _ ← when live (modify (on_metrics (metrics_inc (ir_state rec))));
  _ ← modify (on_next_seq (λ n, Z.max n (saturating_add_u64 (ir_created_seq rec) 1)));
  modify (set_item id rec).

Definition import_start (c : ProjectionConfig) (image : ProjectionImage) : ProjectionData :=
  on_instance_fences (λ _, pim_instance_fences image) (on_side_records (λ _, pim_side_records image)
    (on_next_seq (λ _, pim_next_seq image) (on_blocked_gates (λ _, pim_blocked_gates image)
       (on_pause_drain_intake (λ _, pim_pause_drain_intake image)
          (on_paused (λ _, pim_paused image) (projection_new c)))))).

Definition from_image (c : ProjectionConfig) (image : ProjectionImage) : EngineResult ProjectionData :=
  match for_each (λ item, import_record (record_of item)) (pim_items image) (import_start c image) with
  | (Ok _, p) => Ok p
  | (Err e, _) => Err e
  end.

(** [hydrate_shard] refuses an image whose metrics the rebuild does not reproduce. *)
Definition hydrate (c : ProjectionConfig) (image : ProjectionImage) : EngineResult ProjectionData :=
  p ← from_image c image;
  if bool_decide (pd_metrics p = pim_metrics image) then Ok p
  else Err (Storage "projection hydration metrics mismatch").

(** ** Reaping *)

Definition timestamp_to_ms (t : UtcTimestamp) : Z := seconds t * 1000 + Z.quot (nanoseconds t) 1000000.

Definition add_millis (t : UtcTimestamp) (ms : Z) : UtcTimestamp :=
  let total := timestamp_to_ms t + ms in
  mkUtcTimestamp (wrap_i64 (total / 1000)) (total mod 1000 * 1000000).

Definition terminal_is_reapable (rec : ItemRecord) (now : UtcTimestamp) (retention_ms : Z) (emit : bool)
    (cursor : option CommandPosition) : bool :=
  match ir_terminal_at rec with
  | None => false
  | Some terminal_at =>
      negb (timestamp_gt (add_millis terminal_at retention_ms) now) &&
      (negb emit ||
       match ir_terminal_position rec, cursor with
       | Some position, Some cursor => negb (precedes cursor position)
       | _, _ => false
       end)
  end.

Definition is_terminal_record (rec : ItemRecord) : bool := is_terminal (ir_state rec) && negb (ir_superseded rec).

Definition reapable_ids (p : ProjectionData) (now : UtcTimestamp) (retention_ms : Z) (emit : bool)
    (cursor : option CommandPosition) : list ItemId.t :=
  (map_to_list (filter (λ e, is_terminal_record e.2 && terminal_is_reapable e.2 now retention_ms emit cursor = true)
                  (pd_items p))).*1.

Definition reap_terminal_items (now : UtcTimestamp) (retention_ms : Z) (emit : bool)
    (cursor : option CommandPosition) : M (list ItemId.t) :=
  p ← get;
  let ids := reapable_ids p now retention_ms emit cursor in
  _ ← for_each purge_item ids; mret ids.

End projection.
