(* ===== verification/ProjectionFacts.v ===== *)
(** The consistency of the queue projection: every derived index holds exactly the rows
    of the records, and each step on one record keeps it so. *)
From S2P Require Import Prelude Identity Priority Metadata Lifecycle CreateQueue Engine JsonEquality Ordered IndexFields Eligibility Projection.

(** ** Secondary indexes as sets of rows *)

Implicit Types (indexes : gmap string SecondaryIndex) (items : gmap ItemId.t ItemRecord) (keys : list (string * bytes)).

Definition has_key (indexes : gmap string SecondaryIndex) (id : ItemId.t) (x : string * bytes) : Prop :=
  match indexes !! x.1 with
  | Some (Unique map) => map !! x.2 = Some id
  | Some (NonUnique map) => posted map x.2 id
  | None => False
  end.

Definition is_unique_name (indexes : gmap string SecondaryIndex) (name : string) : bool :=
  match indexes !! name with Some (Unique _) => true | _ => false end.

Definition index_kind (i : SecondaryIndex) : bool := match i with Unique _ => true | NonUnique _ => false end.
Definition index_sets_ok (indexes : gmap string SecondaryIndex) : Prop :=
  map_Forall (λ _ i, match i with NonUnique m => no_empty m | Unique _ => True end) indexes.

(** No other item holds a unique key of [keys]. *)
Definition keys_free (indexes : gmap string SecondaryIndex) (id : ItemId.t) (keys : list (string * bytes)) : Prop :=
  ∀ x j, x ∈ keys → is_unique_name indexes x.1 = true → has_key indexes j x → j = id.

Lemma kind_alter f (name : string) indexes :
  (∀ i, index_kind (f i) = index_kind i) → index_kind <$> alter f name indexes = index_kind <$> indexes.
Proof.
  intros Hf. apply map_eq. intros n. rewrite !lookup_fmap. destruct (decide (n = name)) as [->|Hne].
  - rewrite lookup_alter_eq. destruct (indexes !! name); cbn; by rewrite ?Hf.
  - by rewrite lookup_alter_ne.
Qed.

Lemma insert_keys_kind id keys indexes : index_kind <$> insert_keys_into id keys indexes = index_kind <$> indexes.
Proof.
  unfold insert_keys_into. revert indexes. induction keys as [|x keys IH]; intros indexes; [done|].
  cbn. rewrite IH. apply kind_alter. by intros [].
Qed.

Lemma remove_keys_kind id keys indexes : index_kind <$> remove_keys_from id keys indexes = index_kind <$> indexes.
Proof.
  unfold remove_keys_from. revert indexes. induction keys as [|x keys IH]; intros indexes; [done|].
  cbn. rewrite IH. apply kind_alter. intros [m|m]; [|done]. unfold remove_one_key. by case_decide.
Qed.

Lemma kind_unique indexes (indexes' : gmap string SecondaryIndex) name :
  index_kind <$> indexes = index_kind <$> indexes' → is_unique_name indexes name = is_unique_name indexes' name.
Proof.
  intros Hk. apply (f_equal (.!! name)) in Hk. rewrite !lookup_fmap in Hk. unfold is_unique_name.
  destruct (indexes !! name) as [[]|], (indexes' !! name) as [[]|]; naive_solver.
Qed.

Lemma index_sets_alter f (name : string) indexes :
  (∀ m, match f (Unique m) with Unique _ => True | _ => False end) →
  (∀ m, no_empty m → match f (NonUnique m) with NonUnique m => no_empty m | _ => False end) →
  index_sets_ok indexes → index_sets_ok (alter f name indexes).
Proof.
  intros Hu Hn Hok n i Hi. destruct (decide (n = name)) as [->|Hne].
  - rewrite lookup_alter_eq in Hi. destruct (indexes !! name) as [j|] eqn:Hj; [|done]. injection Hi as <-.
    specialize (Hok name j Hj). destruct j as [m|m]; [specialize (Hu m)|specialize (Hn m Hok)]; by case_match.
  - rewrite lookup_alter_ne in Hi by done. by apply (Hok n).
Qed.

Lemma insert_keys_sets id keys indexes : index_sets_ok indexes → index_sets_ok (insert_keys_into id keys indexes).
Proof.
  unfold insert_keys_into. revert indexes. induction keys as [|x keys IH]; intros indexes Hok; [done|].
  cbn. apply IH, index_sets_alter; [done| |done]. intros m. apply no_empty_post.
Qed.

Lemma remove_keys_sets id keys indexes : index_sets_ok indexes → index_sets_ok (remove_keys_from id keys indexes).
Proof.
  unfold remove_keys_from. revert indexes. induction keys as [|x keys IH]; intros indexes Hok; [done|].
  cbn. apply IH, index_sets_alter; [|intros m; apply no_empty_unpost|done].
  intros m. unfold remove_one_key. by case_decide.
Qed.

Lemma has_key_alter f name indexes id x :
  has_key (alter f name indexes) id x ↔
  if decide (x.1 = name) then ∃ i, indexes !! name = Some i ∧ has_key {[name := f i]} id x else has_key indexes id x.
Proof.
  unfold has_key. case_decide as Hn.
  - rewrite Hn, lookup_alter_eq. setoid_rewrite lookup_singleton_eq.
    destruct (indexes !! name) as [i|]; cbn; [naive_solver|naive_solver].
  - by rewrite lookup_alter_ne.
Qed.

Lemma has_key_insert_one indexes id x j y :
  keys_free indexes id [x] →
  has_key (alter (insert_one_key id x.2) x.1 indexes) j y ↔
  (j = id ∧ y = x ∧ is_Some (indexes !! x.1)) ∨ has_key indexes j y.
Proof.
  intros Hf. rewrite has_key_alter. destruct x as [n k], y as [n' k']; cbn [fst snd] in *.
  case_decide as Hn; [|naive_solver]. subst n'. unfold has_key at 1. cbn [fst snd].
  setoid_rewrite lookup_singleton_eq. unfold keys_free, is_unique_name, has_key in *. cbn [fst snd] in *.
  destruct (indexes !! n) as [[m|m]|] eqn:Hi.
  - destruct (decide (k' = k)) as [->|Hk].
    + specialize (Hf (n, k)). cbn in Hf. rewrite Hi in Hf.
      split; [|intros [(-> & _ & _)|Hj]].
      * intros (i & [= <-] & Hj). cbn in Hj. rewrite lookup_insert_eq in Hj. left. naive_solver.
      * eexists; split; [done|]. cbn. by rewrite lookup_insert_eq.
      * eexists; split; [done|]. cbn. rewrite lookup_insert_eq. f_equal. symmetry. apply Hf; [set_solver|done..].
    + split; [intros (i & [= <-] & Hj)|intros [(_ & [= ->] & _)|Hj]]; [|done|eexists; split; [done|]].
      * cbn in Hj. rewrite lookup_insert_ne in Hj by done. by right.
      * cbn. by rewrite lookup_insert_ne.
  - split; [intros (i & [= <-] & Hj)|intros [(-> & [= ->] & _)|Hj]]; [|eexists; split; [done|]..]; cbn in *;
      rewrite posted_post in *; naive_solver.
  - split; [naive_solver|]. intros [(_ & _ & [? ?])|[]]. done.
Qed.

Lemma is_Some_alter {A} (f : A → A) name name' (m : gmap string A) :
  is_Some (alter f name m !! name') ↔ is_Some (m !! name').
Proof.
  destruct (decide (name' = name)) as [->|Hne].
  - rewrite lookup_alter_eq. apply fmap_is_Some.
  - by rewrite lookup_alter_ne.
Qed.

Lemma has_key_insert indexes id keys j y :
  keys_free indexes id keys →
  has_key (insert_keys_into id keys indexes) j y ↔
  (j = id ∧ y ∈ keys ∧ is_Some (indexes !! y.1)) ∨ has_key indexes j y.
Proof.
  unfold insert_keys_into. revert indexes. induction keys as [|x keys IH]; intros indexes Hf; [set_solver|].
  assert (Hx : keys_free indexes id [x]).
  { intros z i Hz. apply Hf. apply list_elem_of_singleton in Hz as ->. set_solver. }
  cbn. rewrite IH.
  - rewrite has_key_insert_one, is_Some_alter by done. rewrite elem_of_cons. naive_solver.
  - intros z i Hz Hu Hh. rewrite has_key_insert_one in Hh by done. destruct Hh as [(-> & _)|Hh]; [done|].
    apply (Hf z); [set_solver| |done]. rewrite <-Hu. symmetry. apply kind_unique, kind_alter. by intros [].
Qed.

Lemma has_key_remove_one indexes id x j y :
  has_key (alter (remove_one_key id x.2) x.1 indexes) j y ↔ has_key indexes j y ∧ ¬ (j = id ∧ y = x).
Proof.
  rewrite has_key_alter. destruct x as [n k], y as [n' k']; cbn [fst snd] in *.
  case_decide as Hn; [|naive_solver]. subst n'. unfold has_key at 1. cbn [fst snd].
  setoid_rewrite lookup_singleton_eq. unfold has_key. cbn [fst snd].
  destruct (indexes !! n) as [[m|m]|] eqn:Hi; [| |naive_solver].
  - destruct (decide (m !! k = Some id)) as [Hk|Hk]; split.
    + intros (i & [= <-] & Hj). cbn in Hj. rewrite decide_True in Hj by done.
      rewrite lookup_delete_Some in Hj. naive_solver.
    + intros [Hj Hne]. exists (Unique m). split; [done|]. cbn. rewrite decide_True by done.
      apply lookup_delete_Some. split; [|done]. intros ->. naive_solver.
    + intros (i & [= <-] & Hj). cbn in Hj. rewrite decide_False in Hj by done. naive_solver.
    + intros [Hj Hne]. exists (Unique m). split; [done|]. cbn. by rewrite decide_False.
  - split.
    + intros (i & [= <-] & Hj). cbn in Hj. rewrite posted_unpost in Hj. naive_solver.
    + intros [Hj Hne]. eexists; split; [done|]. cbn. rewrite posted_unpost. naive_solver.
Qed.

Lemma has_key_remove indexes id keys j y :
  has_key (remove_keys_from id keys indexes) j y ↔ has_key indexes j y ∧ ¬ (j = id ∧ y ∈ keys).
Proof.
  unfold remove_keys_from. revert indexes. induction keys as [|x keys IH]; intros indexes; [set_solver|].
  cbn. rewrite IH, has_key_remove_one, elem_of_cons. naive_solver.
Qed.

(** Rows determine an index of a given shape. *)
Lemma indexes_eq indexes (indexes' : gmap string SecondaryIndex) :
  index_kind <$> indexes = index_kind <$> indexes' → index_sets_ok indexes → index_sets_ok indexes' →
  (∀ id x, has_key indexes id x ↔ has_key indexes' id x) → indexes = indexes'.
Proof.
  intros Hk Hok Hok' Heq. apply map_eq. intros n. apply (f_equal (.!! n)) in Hk. rewrite !lookup_fmap in Hk.
  assert (Heqn : ∀ id k, has_key indexes id (n, k) ↔ has_key indexes' id (n, k)) by auto.
  unfold has_key in Heqn. cbn in Heqn.
  destruct (indexes !! n) as [i|] eqn:Hi, (indexes' !! n) as [i'|] eqn:Hi'; try done.
  specialize (Hok n i Hi). specialize (Hok' n i' Hi'). f_equal. injection Hk as Hk.
  destruct i as [m|m], i' as [m'|m']; try done; f_equal.
  - apply map_eq. intros k. apply option_eq. intros id. apply Heqn.
  - apply postings_eq; [done..|]. intros k id. apply Heqn.
Qed.

(** ** Counting *)

Definition same_state (s t : ItemState) : bool :=
  match s, t with
  | Pending, Pending | Leased, Leased | Complete, Complete | Failed, Failed => true
  | _, _ => false
  end.

Definition counts (s : ItemState) (rec : ItemRecord) : Z :=
  if negb (ir_superseded rec) && same_state (ir_state rec) s then 1 else 0.

Definition metrics_of (items : gmap ItemId.t ItemRecord) : QueueMetrics := {|
  qm_pending := msum (counts Pending) items;
  qm_leased := msum (counts Leased) items;
  qm_complete := msum (counts Complete) items;
  qm_failed := msum (counts Failed) items;
  qm_resident_terminal_count := msum (counts Complete) items + msum (counts Failed) items;
|}.

Lemma msum_size (f : ItemRecord → Z) (items : gmap ItemId.t ItemRecord) :
  (∀ r, f r ≤ 1) → msum f items ≤ Z.of_nat (size items).
Proof.
  intros Hf. induction items as [|id r items Hid IH] using map_ind; [by rewrite msum_empty, map_size_empty|].
  rewrite msum_insert, map_size_insert_None by done. specialize (Hf r). lia.
Qed.

Lemma counts_pair_le r : counts Complete r + counts Failed r ≤ 1.
Proof. unfold counts. by destruct (ir_superseded r), (ir_state r). Qed.

Lemma msum_add {A} (f g : A → Z) (m : gmap ItemId.t A) : msum f m + msum g m = msum (λ x, f x + g x) m.
Proof.
  induction m as [|k x m Hk IH] using map_ind; [by rewrite !msum_empty|]. rewrite !msum_insert by done. lia.
Qed.

Lemma counts_nonneg s (items : gmap ItemId.t ItemRecord) : 0 ≤ msum (counts s) items.
Proof. apply msum_nonneg. intros _ r _. unfold counts. case_match; lia. Qed.

Lemma counts_size s (items : gmap ItemId.t ItemRecord) : msum (counts s) items ≤ Z.of_nat (size items).
Proof. apply msum_size. intros r. unfold counts. case_match; lia. Qed.

Lemma terminal_counts_size (items : gmap ItemId.t ItemRecord) :
  msum (counts Complete) items + msum (counts Failed) items ≤ Z.of_nat (size items).
Proof. rewrite msum_add. apply msum_size, counts_pair_le. Qed.

Lemma wrapping_succ_u64_small z : 0 ≤ z < u64_max → wrapping_succ_u64 z = z + 1.
Proof. intros Hz. unfold wrapping_succ_u64. apply Z.mod_small. int_lia. Qed.

(** Facts the counters keep: a count is a sum over the records and fits the map. *)
Ltac count_facts items :=
  pose proof (counts_size Pending items); pose proof (counts_size Leased items);
  pose proof (counts_size Complete items); pose proof (counts_size Failed items);
  pose proof (terminal_counts_size items);
  pose proof (counts_nonneg Pending items); pose proof (counts_nonneg Leased items);
  pose proof (counts_nonneg Complete items); pose proof (counts_nonneg Failed items).

Lemma metrics_insert items id r :
  items !! id = None → Z.of_nat (size items) < u64_max →
  metrics_of (<[id := r]> items) = if ir_superseded r then metrics_of items else metrics_inc (ir_state r) (metrics_of items).
Proof.
  intros Hid Hs. count_facts items. unfold metrics_of. rewrite !msum_insert by done.
  unfold metrics_inc. rewrite !wrapping_succ_u64_small by lia.
  assert (Hc : ∀ s, counts s r = if negb (ir_superseded r) && same_state (ir_state r) s then 1 else 0) by done.
  rewrite !Hc. destruct (ir_superseded r), (ir_state r); cbn [negb andb same_state]; f_equal; lia.
Qed.

Lemma metrics_delete items id r :
  items !! id = Some r →
  metrics_of (delete id items) = if ir_superseded r then metrics_of items else metrics_dec (ir_state r) (metrics_of items).
Proof.
  intros Hid. count_facts (delete id items). unfold metrics_of.
  rewrite !(msum_lookup _ items id r Hid). unfold metrics_dec, saturating_sub_u64.
  assert (Hc : ∀ s, counts s r = if negb (ir_superseded r) && same_state (ir_state r) s then 1 else 0) by done.
  rewrite !Hc. destruct (ir_superseded r), (ir_state r); cbn [negb andb same_state]; f_equal; lia.
Qed.

Lemma size_delete_lt items id old :
  items !! id = Some old → Z.of_nat (size items) ≤ u64_max → Z.of_nat (size (delete id items)) < u64_max.
Proof.
  intros Hid Hs. rewrite map_size_delete, Hid.
  pose proof (map_size_ne_0_lookup_2 items id ltac:(by eexists)). lia.
Qed.

Lemma metrics_inc_dec items id old :
  items !! id = Some old → ir_superseded old = false → Z.of_nat (size items) ≤ u64_max →
  metrics_inc (ir_state old) (metrics_dec (ir_state old) (metrics_of items)) = metrics_of items.
Proof.
  intros Hid Hsup Hs.
  pose proof (size_delete_lt items id old Hid Hs).
  pose proof (metrics_delete items id old Hid) as Hd. rewrite Hsup in Hd. rewrite <-Hd.
  rewrite <-(insert_delete_id items id old Hid) at 2.
  rewrite metrics_insert by (done || apply lookup_delete_eq). by rewrite Hsup.
Qed.

Lemma metrics_update items id old r :
  items !! id = Some old → ir_superseded r = ir_superseded old → Z.of_nat (size items) ≤ u64_max →
  metrics_of (<[id := r]> items) =
  if ir_superseded old then metrics_of items else metrics_transition (ir_state old) (ir_state r) (metrics_of items).
Proof.
  intros Hid Hsup Hs. rewrite <-insert_delete_eq.
  pose proof (size_delete_lt items id old Hid Hs).
  rewrite metrics_insert by (done || apply lookup_delete_eq). rewrite (metrics_delete items id old) by done.
  rewrite Hsup. destruct (ir_superseded old) eqn:Hold; [done|]. unfold metrics_transition.
  case_decide as He; [|done]. rewrite <-He. by apply (metrics_inc_dec items id).
Qed.

(** Superseding a record stops counting it. *)
Lemma metrics_supersede items id old r :
  items !! id = Some old → ir_superseded r = true → Z.of_nat (size items) ≤ u64_max →
  metrics_of (<[id := r]> items) =
  if ir_superseded old then metrics_of items else metrics_dec (ir_state old) (metrics_of items).
Proof.
  intros Hid Hsup Hs. rewrite <-insert_delete_eq.
  pose proof (size_delete_lt items id old Hid Hs).
  rewrite metrics_insert by (done || apply lookup_delete_eq). rewrite Hsup. by apply metrics_delete.
Qed.

(** ** The invariant *)

Class EntityCodecLaws (N : Type) `{EntityCodec N} := from_slice_to_vec v : json_from_slice (json_to_vec v) = v.

Section consistency.
Context {N : Type} `{JsonNumber N, AxonIndex N, JsonBuild N, EntityCodecLaws N}.
Implicit Types (p q : ProjectionData) (c : ProjectionConfig).

(** The index keys of a record whose keys can be computed. *)
Definition keys_of c (r : ItemRecord) : list (string * bytes) :=
  match record_entity_index_keys c r with Ok keys => keys | Err _ => [] end.
Definition keys_ok c (r : ItemRecord) : Prop := ∃ keys, record_entity_index_keys c r = Ok keys.

Definition live (r : ItemRecord) : Prop := ir_superseded r = false.
Definition held (r : ItemRecord) : Prop := ir_state r = Leased ∧ live r.

(** The rows of one record in each index. *)
Definition row_retained (r : ItemRecord) (_ : unit) : Prop := live r.
Definition row_leased (r : ItemRecord) (_ : unit) : Prop := held r ∧ is_Some (ir_lease_token r).
Definition row_consumer (r : ItemRecord) (t : string) : Prop := held r ∧ ir_lease_token r = Some t.
Definition row_expiry (r : ItemRecord) (e : UtcTimestamp) : Prop :=
  held r ∧ ir_lease_is_cohort r = false ∧ ir_lease_expires_at r = Some e.
Definition row_key (r : ItemRecord) (k : string) : Prop := live r ∧ ir_explicit_key r = Some k.
Definition row_when (cl : ItemRecord → bool) (model : PriorityModel) (r : ItemRecord) (k : EligKey) : Prop :=
  cl r = true ∧ k = elig_key r model.
Definition row_elig (blocked : gset string) : PriorityModel → ItemRecord → EligKey → Prop := row_when (claimable blocked).
Definition row_index c (r : ItemRecord) (x : string * bytes) : Prop := live r ∧ x ∈ keys_of c r.
Definition row_claim_index c (r : ItemRecord) (x : string * bytes) : Prop :=
  ir_state r = Pending ∧ live r ∧ x ∈ keys_of c r.

(** What each index holds for an item. *)
Definition has_id (s : gset ItemId.t) (id : ItemId.t) (_ : unit) : Prop := id ∈ s.
Definition has_row {K} `{Countable K} (m : gmap K (gset ItemId.t)) (id : ItemId.t) (k : K) : Prop := posted m k id.
Definition has_name (m : gmap string ItemId.t) (id : ItemId.t) (k : string) : Prop := m !! k = Some id.
Definition has_elig (i : EligibilityIndex) (id : ItemId.t) (k : EligKey) : Prop := k ∈ elig_keys i ∧ ek_item k = id.

(** An index of the declared shape. *)
Definition shaped c indexes : Prop :=
  index_kind <$> indexes = index_kind <$> empty_indexes c ∧ index_sets_ok indexes.

(** A superseded record may keep its gate memberships: they never decide eligibility. *)
Definition gates_ok items (members : gmap string (gset ItemId.t)) : Prop :=
  (∀ id r g, items !! id = Some r → live r → g ∈ ir_gate_keys r → posted members g id) ∧
  (∀ g id, posted members g id → ∃ r, items !! id = Some r ∧ g ∈ ir_gate_keys r).

Record consistent (p : ProjectionData) : Prop := mkConsistent {
  co_ids id r : pd_items p !! id = Some r → ir_item_id r = id;
  co_keys id r : pd_items p !! id = Some r → keys_ok (pd_config p) r;
  co_size : Z.of_nat (size (pd_items p)) ≤ pd_next_seq p ≤ u64_max;
  co_retained : tracks (has_id (pd_retained_ids p)) (pd_items p) row_retained;
  co_leased : tracks (has_id (pd_leased_ids p)) (pd_items p) row_leased;
  co_consumer : no_empty (pd_leased_by_consumer p) ∧
    tracks (has_row (pd_leased_by_consumer p)) (pd_items p) row_consumer;
  co_expiry : no_empty (pd_ordinary_leases_by_expiry p) ∧
    tracks (has_row (pd_ordinary_leases_by_expiry p)) (pd_items p) row_expiry;
  co_key : tracks (has_name (pd_by_key p)) (pd_items p) row_key;
  co_elig : tracks (has_elig (pd_eligible p)) (pd_items p) (row_elig (pd_blocked_gates p) (pd_model p));
  co_metrics : pd_metrics p = metrics_of (pd_items p);
  co_gates : no_empty (pd_gate_members p) ∧ gates_ok (pd_items p) (pd_gate_members p);
  co_index : shaped (pd_config p) (pd_indexes p) ∧
    tracks (has_key (pd_indexes p)) (pd_items p) (row_index (pd_config p));
  co_claim_index : shaped (pd_config p) (pd_claim_indexes p) ∧
    tracks (has_key (pd_claim_indexes p)) (pd_items p) (row_claim_index (pd_config p));
  co_framed id keys : pd_framed_index_keys p !! id = Some keys →
    ∃ r, pd_items p !! id = Some r ∧ record_entity_index_keys (pd_config p) r = Ok keys;
}.

Lemma keys_of_Ok c r keys : record_entity_index_keys c r = Ok keys → keys_of c r = keys.
Proof. intros Hk. unfold keys_of. by rewrite Hk. Qed.

(** *** Declared names *)

Lemma collected_names (f : QueueIndex → EngineResult (option bytes)) specs out keys :
  try_fold (λ out spec, key ← f spec; Ok (match key with Some k => out ++ [(qi_name spec, k)] | None => out end))
    out specs = Ok keys →
  ∀ x, x ∈ keys → x ∈ out ∨ x.1 ∈ qi_name <$> specs.
Proof.
  revert out; induction specs as [|q l IH]; intros out Hf x Hx.
  - injection Hf as <-. by left.
  - rewrite try_fold_cons in Hf. apply bind_Ok in Hf as (out' & Ho & Hf).
    apply (IH _ Hf) in Hx as [Hx|Hx]; [|right; set_solver].
    apply bind_Ok in Ho as (key & _ & Ho). injection Ho as <-. destruct key; set_solver.
Qed.

Lemma empty_indexes_declared c name :
  name ∈ is_name <$> pc_index_specs c ∨ name ∈ qi_name <$> pc_typed_index_specs c →
  is_Some (empty_indexes c !! name).
Proof.
  assert (Hgen : ∀ {A} (f : A → string) (g : A → SecondaryIndex) (l : list A) (m : gmap string SecondaryIndex),
    name ∈ f <$> l ∨ is_Some (m !! name) → is_Some (foldl (λ m a, <[f a := g a]> m) m l !! name)).
  { intros A f g l. induction l as [|a l IH]; intros m Hm; [set_solver|]. cbn. apply IH.
    destruct (decide (name = f a)) as [->|Hne]; [right; by rewrite lookup_insert_eq|].
    rewrite lookup_insert_ne by done. set_solver. }
  intros Hn. unfold empty_indexes.
  apply (Hgen _ qi_name (λ q : QueueIndex, empty_secondary_index (declared_unique (declaration q)))).
  destruct Hn as [Hn|Hn]; [right|by left].
  apply (Hgen _ is_name (λ s, empty_secondary_index (is_unique s))). by left.
Qed.

Lemma record_keys_declared c fields index_fields entity keys x :
  record_index_keys c fields index_fields entity = Ok keys → x ∈ keys → is_Some (empty_indexes c !! x.1).
Proof.
  unfold record_index_keys. intros (typed & Ht & [= <-])%bind_Ok Hx. apply empty_indexes_declared.
  apply elem_of_app in Hx as [Hx|Hx].
  - left. unfold legacy_index_keys in Hx. apply list_elem_of_omap in Hx as (spec & Hs & Hx).
    apply fmap_Some_1 in Hx as (k & _ & ->). cbn. set_solver.
  - right. case_match.
    + apply (collected_names _ _ _ _ Ht) in Hx as [Hx|Hx]; [set_solver|done].
    + apply (collected_names _ _ _ _ Ht) in Hx as [Hx|Hx]; [set_solver|done].
Qed.

Lemma shaped_declared c indexes name :
  shaped c indexes → is_Some (empty_indexes c !! name) → is_Some (indexes !! name).
Proof.
  intros [Hk _] Hn. apply (f_equal (.!! name)) in Hk. rewrite !lookup_fmap in Hk.
  destruct Hn as [i Hi]. rewrite Hi in Hk. destruct (indexes !! name); [by eexists|done].
Qed.

Lemma shaped_insert c indexes id keys : shaped c indexes → shaped c (insert_keys_into id keys indexes).
Proof. intros [Hk Hs]. split; [by rewrite insert_keys_kind|by apply insert_keys_sets]. Qed.
Lemma shaped_remove c indexes id keys : shaped c indexes → shaped c (remove_keys_from id keys indexes).
Proof. intros [Hk Hs]. split; [by rewrite remove_keys_kind|by apply remove_keys_sets]. Qed.

Lemma shaped_unique c indexes (indexes' : gmap string SecondaryIndex) name :
  shaped c indexes → shaped c indexes' → is_unique_name indexes name = is_unique_name indexes' name.
Proof. intros [Hk _] [Hk' _]. apply kind_unique. by rewrite Hk, Hk'. Qed.

(** Inserting declared keys no other item holds adds exactly the item's rows. *)
Lemma has_key_insert_declared c indexes id keys j x :
  shaped c indexes → (∀ y, y ∈ keys → is_Some (empty_indexes c !! y.1)) → keys_free indexes id keys →
  has_key (insert_keys_into id keys indexes) j x ↔ (j = id ∧ x ∈ keys) ∨ has_key indexes j x.
Proof.
  intros Hs Hd Hf. rewrite has_key_insert by done. split; [naive_solver|].
  intros [[-> Hx]|Hx]; [left|by right]. split_and!; [done..|]. by apply (shaped_declared c), Hd.
Qed.

(** ** One record changes *)

(** [has'] holds the rows [row] for [id] and is [has] for every other item. *)
Definition edits {X} (has has' : ItemId.t → X → Prop) (id : ItemId.t) (row : X → Prop) : Prop :=
  (∀ x, has' id x ↔ row x) ∧ (∀ j x, j ≠ id → has' j x ↔ has j x).

Definition gate_edits (members members' : gmap string (gset ItemId.t)) (id : ItemId.t) (r : ItemRecord) : Prop :=
  (live r → ∀ g, g ∈ ir_gate_keys r → posted members' g id) ∧
  (∀ g, posted members' g id → g ∈ ir_gate_keys r) ∧
  (∀ g j, j ≠ id → posted members' g j ↔ posted members g j).

Record put p p' (id : ItemId.t) (r : ItemRecord) : Prop := mkPut {
  pu_config : pd_config p' = pd_config p;
  pu_blocked : pd_blocked_gates p' = pd_blocked_gates p;
  pu_items : pd_items p' = <[id := r]> (pd_items p);
  pu_id : ir_item_id r = id;
  pu_keys : keys_ok (pd_config p) r;
  pu_size : Z.of_nat (size (pd_items p')) ≤ pd_next_seq p' ≤ u64_max;
  pu_retained : edits (has_id (pd_retained_ids p)) (has_id (pd_retained_ids p')) id (row_retained r);
  pu_leased : edits (has_id (pd_leased_ids p)) (has_id (pd_leased_ids p')) id (row_leased r);
  pu_consumer : no_empty (pd_leased_by_consumer p') ∧
    edits (has_row (pd_leased_by_consumer p)) (has_row (pd_leased_by_consumer p')) id (row_consumer r);
  pu_expiry : no_empty (pd_ordinary_leases_by_expiry p') ∧
    edits (has_row (pd_ordinary_leases_by_expiry p)) (has_row (pd_ordinary_leases_by_expiry p')) id (row_expiry r);
  pu_key : edits (has_name (pd_by_key p)) (has_name (pd_by_key p')) id (row_key r);
  pu_elig : edits (has_elig (pd_eligible p)) (has_elig (pd_eligible p')) id (row_elig (pd_blocked_gates p) (pd_model p) r);
  pu_metrics : pd_metrics p' = metrics_of (pd_items p');
  pu_gates : no_empty (pd_gate_members p') ∧ gate_edits (pd_gate_members p) (pd_gate_members p') id r;
  pu_index : shaped (pd_config p) (pd_indexes p') ∧
    edits (has_key (pd_indexes p)) (has_key (pd_indexes p')) id (row_index (pd_config p) r);
  pu_claim_index : shaped (pd_config p) (pd_claim_indexes p') ∧
    edits (has_key (pd_claim_indexes p)) (has_key (pd_claim_indexes p')) id (row_claim_index (pd_config p) r);
  pu_framed j keys : pd_framed_index_keys p' !! j = Some keys →
    if decide (j = id) then record_entity_index_keys (pd_config p) r = Ok keys
    else pd_framed_index_keys p !! j = Some keys;
}.

Lemma tracks_edits {X} (has has' : ItemId.t → X → Prop) items rows id r :
  tracks has items rows → edits has has' id (rows r) → tracks has' (<[id := r]> items) rows.
Proof. intros Ht [Hid Hne]. by eapply tracks_insert. Qed.

Lemma model_config p p' : pd_config p' = pd_config p → pd_model p' = pd_model p.
Proof. unfold pd_model. congruence. Qed.

Lemma consistent_put p p' id r : consistent p → put p p' id r → consistent p'.
Proof.
  intros Hp [Hcfg Hblk Hitems Hid Hkeys Hsize Hret Hlea [Hne1 Hcon] [Hne2 Hexp] Hkey Heli Hmet [Hne3 Hgat]
             [Hsh1 Hidx] [Hsh2 Hcla] Hfra].
  constructor; rewrite ?Hcfg, ?Hblk, ?(model_config p p' Hcfg), ?Hitems; try (rewrite <-Hitems; done).
  - intros j s [[<- <-]|[Hne Hs]]%lookup_insert_Some; [done|by apply (co_ids p Hp)].
  - intros j s [[<- <-]|[Hne Hs]]%lookup_insert_Some; [done|by apply (co_keys p Hp j)].
  - by eapply tracks_edits; [apply (co_retained p Hp)|].
  - by eapply tracks_edits; [apply (co_leased p Hp)|].
  - split; [done|]. by eapply tracks_edits; [apply (co_consumer p Hp)|].
  - split; [done|]. by eapply tracks_edits; [apply (co_expiry p Hp)|].
  - by eapply tracks_edits; [apply (co_key p Hp)|].
  - by eapply tracks_edits; [apply (co_elig p Hp)|].
  - split; [done|]. destruct Hgat as (Hg1 & Hg2 & Hg3), (co_gates p Hp) as (_ & Hl & Hm). split.
    + intros j s g [[<- <-]|[Hne Hs]]%lookup_insert_Some Hlive Hg; [by apply Hg1|].
      apply Hg3; [done|]. by apply (Hl j s).
    + intros g j Hj. destruct (decide (j = id)) as [->|Hne].
      * exists r. rewrite lookup_insert_eq. auto.
      * rewrite lookup_insert_ne by done. by apply Hm, Hg3.
  - split; [done|]. by eapply tracks_edits; [apply (co_index p Hp)|].
  - split; [done|]. by eapply tracks_edits; [apply (co_claim_index p Hp)|].
  - intros j keys Hj. apply Hfra in Hj. case_decide as Hd.
    + subst j. exists r. by rewrite lookup_insert_eq.
    + rewrite lookup_insert_ne by done. by apply (co_framed p Hp).
Qed.

(** An index the step leaves alone already holds the rows. *)
Lemma edits_same {X} (has : ItemId.t → X → Prop) items rows id old r :
  tracks has items rows → items !! id = Some old → (∀ x, rows r x ↔ rows old x) → edits has has id (rows r).
Proof. intros Ht Hold Hr. split; [|done]. intros x. by rewrite (tracks_at _ _ _ _ old x Ht Hold), Hr. Qed.

Lemma edits_id_add s id (row : unit → Prop) : row tt → edits (has_id s) (has_id ({[id]} ∪ s)) id row.
Proof. intros Hr. split; [intros []|intros j []]; unfold has_id; set_solver. Qed.

Lemma edits_id_remove s id (row : unit → Prop) : ¬ row tt → edits (has_id s) (has_id (s ∖ {[id]})) id row.
Proof. intros Hr. split; [intros []|intros j []]; unfold has_id; set_solver. Qed.

(** *** Eligibility rows *)

Section elig.
Context (items : gmap ItemId.t ItemRecord) (cl : ItemRecord → bool) (model : PriorityModel) (i : EligibilityIndex).
Hypothesis (Ht : tracks (has_elig i) items (row_when cl model)).
Hypothesis (Hids : ∀ id r, items !! id = Some r → ir_item_id r = id).

Lemma elig_cleared b id old :
  items !! id = Some old → (cl old = true → b = true) → ∀ j k,
  has_elig (if b : bool then elig_remove i (elig_token old model) else i) j k ↔ has_elig i j k ∧ j ≠ id.
Proof.
  intros Hold Hb j k. pose proof (tracks_at _ _ _ _ old k Ht Hold) as Hat.
  assert (Hu : ∀ k, k ∈ elig_keys i → ek_item k = id → k = elig_key old model).
  { intros k' Hk' Hid. by apply (tracks_at _ _ _ _ old k' Ht Hold). }
  destruct b.
  - unfold has_elig. rewrite elig_remove_keys, rich_token.
    + rewrite elem_of_difference, elem_of_singleton. split.
      * intros [[Hk Hne] <-]. split; [done|]. intros Hid. by apply Hne, Hu.
      * intros [[Hk <-] Hne]. split; [split; [done|]|done]. intros ->. apply Hne. by apply Hids in Hold.
    + rewrite rich_token. intros k' Hk' Hid. apply Hu; [done|]. rewrite Hid. by apply Hids in Hold.
  - split; [|naive_solver]. intros Hk. split; [done|]. intros ->. apply Hat in Hk as [Hc _].
    specialize (Hb Hc). done.
Qed.

Lemma elig_filled (cl' : ItemRecord → bool) (b : bool) i' items' id r :
  ir_item_id r = id → (∀ j k, has_elig i' j k ↔ has_elig i j k ∧ j ≠ id) →
  (∀ j, j ≠ id → items' !! j = items !! j) → b = cl' r →
  edits (has_elig i) (has_elig (if b then elig_insert i' r items' model else i')) id (row_when cl' model r).
Proof.
  intros Hid Hi' Hitems ->. unfold edits, row_when. destruct (cl' r) eqn:Hb; cycle 1.
  { split; [intros k; rewrite Hi'|intros j k Hne; rewrite Hi']; intuition congruence. }
  assert (Hback : rows_backed i' items' model).
  { intros k Hk. assert (Hh : has_elig i' (ek_item k) k) by done. apply Hi' in Hh as [Hh Hne].
    apply Ht in Hh as (rec & Hrec & _ & ->). rewrite Hitems by done. by exists rec. }
  unfold has_elig at 1 2. rewrite (elig_insert_keys _ _ _ _ Hback).
  assert (Hin : ∀ j k, k ∈ elig_keys i' ∧ ek_item k = j ↔ has_elig i j k ∧ j ≠ id) by exact Hi'.
  split.
  - intros k. rewrite elem_of_union, elem_of_singleton. split.
    + intros [[Hk|Hk] He]; [done|]. exfalso. by apply (Hin id k).
    + intros [_ ->]. split; [by left|done].
  - intros j k Hne. rewrite elem_of_union, elem_of_singleton. split.
    + intros [[->|Hk] He]; [cbn in He; congruence|]. by apply (Hin j k).
    + intros Hk. pose proof (proj2 (Hin j k) (conj Hk Hne)) as [??]. auto.
Qed.
End elig.

(** *** Index rows *)

Lemma has_key_unique indexes i j x :
  is_unique_name indexes x.1 = true → has_key indexes i x → has_key indexes j x → i = j.
Proof.
  unfold is_unique_name, has_key. destruct (indexes !! x.1) as [[m|m]|]; try done. congruence.
Qed.

Lemma keys_free_own indexes id keys : (∀ x, x ∈ keys → has_key indexes id x) → keys_free indexes id keys.
Proof. intros Hk x j Hx Hu Hj. by eapply has_key_unique; [|exact Hj|apply Hk]. Qed.

Lemma keys_free_weaken indexes (indexes' : gmap string SecondaryIndex) id keys :
  (∀ name, is_unique_name indexes name = is_unique_name indexes' name) →
  (∀ x j, has_key indexes' j x → has_key indexes j x) → keys_free indexes id keys → keys_free indexes' id keys.
Proof. intros Hu Hh Hf x j Hx Hun Hj. apply (Hf x); [done| |by apply Hh]. by rewrite Hu. Qed.

Lemma claim_keys_free p id keys : consistent p → keys_free (pd_indexes p) id keys → keys_free (pd_claim_indexes p) id keys.
Proof.
  intros Hp. destruct (co_index p Hp) as [Hs Ht], (co_claim_index p Hp) as [Hs' Ht'].
  apply keys_free_weaken; [intros name; by apply (shaped_unique (pd_config p))|].
  intros x j (r & Hr & _ & Hl & Hx)%Ht'. apply Ht. exists r. done.
Qed.

Lemma edits_index c indexes id removed added (row : string * bytes → Prop) :
  shaped c indexes → (∀ y, y ∈ added → is_Some (empty_indexes c !! y.1)) → keys_free indexes id added →
  (∀ x, row x ↔ x ∈ added ∨ (has_key indexes id x ∧ x ∉ removed)) →
  edits (has_key indexes) (has_key (insert_keys_into id added (remove_keys_from id removed indexes))) id row.
Proof.
  intros Hs Hd Hf Hrow.
  assert (Hins : ∀ j x, has_key (insert_keys_into id added (remove_keys_from id removed indexes)) j x ↔
    (j = id ∧ x ∈ added) ∨ (has_key indexes j x ∧ ¬ (j = id ∧ x ∈ removed))).
  { intros j x. rewrite (has_key_insert_declared c) by
      (done || by apply shaped_remove || (eapply keys_free_weaken; [| |exact Hf];
         [intros; by apply (shaped_unique c), shaped_remove|by intros y i [??]%has_key_remove])).
    by rewrite has_key_remove. }
  split; [intros x; rewrite Hins, Hrow; tauto|]. intros j x Hne. rewrite Hins. tauto.
Qed.

Lemma edits_index_add c indexes id added (row : string * bytes → Prop) :
  shaped c indexes → (∀ y, y ∈ added → is_Some (empty_indexes c !! y.1)) → keys_free indexes id added →
  (∀ x, row x ↔ x ∈ added ∨ has_key indexes id x) →
  edits (has_key indexes) (has_key (insert_keys_into id added indexes)) id row.
Proof.
  intros Hs Hd Hf Hrow. apply (edits_index c indexes id [] added); [done..|]. intros x. rewrite Hrow. set_solver.
Qed.

Lemma edits_index_remove indexes id removed (row : string * bytes → Prop) :
  (∀ x, row x ↔ has_key indexes id x ∧ x ∉ removed) →
  edits (has_key indexes) (has_key (remove_keys_from id removed indexes)) id row.
Proof.
  intros Hrow. split; [intros x; rewrite has_key_remove, Hrow; tauto|]. intros j x Hne. rewrite has_key_remove. tauto.
Qed.

Lemma record_declared c r x : x ∈ keys_of c r → is_Some (empty_indexes c !! x.1).
Proof.
  unfold keys_of. destruct (record_entity_index_keys c r) as [keys|] eqn:Hk; [|set_solver].
  intros Hx. by eapply record_keys_declared.
Qed.

(** *** Gate rows *)

Lemma posted_foldl_post (l : list string) id m g j :
  posted (foldl (λ m key, post key id m) m l) g j ↔ (j = id ∧ g ∈ l) ∨ posted m g j.
Proof.
  revert m; induction l as [|k l IH]; intros m; cbn; [set_solver|]. rewrite IH, posted_post, elem_of_cons. naive_solver.
Qed.

Lemma posted_foldl_unpost (l : list string) id m g j :
  posted (foldl (λ m key, unpost key id m) m l) g j ↔ posted m g j ∧ ¬ (j = id ∧ g ∈ l).
Proof.
  revert m; induction l as [|k l IH]; intros m; cbn; [set_solver|]. rewrite IH, posted_unpost, elem_of_cons. naive_solver.
Qed.

Lemma no_empty_foldl {A} (f : gmap string (gset ItemId.t) → A → gmap string (gset ItemId.t)) l m :
  (∀ m a, no_empty m → no_empty (f m a)) → no_empty m → no_empty (foldl f m l).
Proof. intros Hf. revert m; induction l as [|a l IH]; intros m Hm; cbn; auto. Qed.

Lemma no_empty_replace_gates id old new m : no_empty m → no_empty (replace_gate_memberships id old new m).
Proof.
  intros Hm. unfold replace_gate_memberships.
  apply no_empty_foldl; [intros; by apply no_empty_post|]. by apply no_empty_foldl; [intros; apply no_empty_unpost|].
Qed.

Lemma posted_replace_gates id old new m g j :
  posted (replace_gate_memberships id old new m) g j ↔
  (j = id ∧ g ∈ new ∧ g ∉ old) ∨ (posted m g j ∧ ¬ (j = id ∧ g ∈ old ∧ g ∉ new)).
Proof.
  unfold replace_gate_memberships. rewrite posted_foldl_post, posted_foldl_unpost, !list_elem_of_filter. naive_solver.
Qed.

Lemma gates_at p id r g : consistent p → pd_items p !! id = Some r → live r → posted (pd_gate_members p) g id ↔ g ∈ ir_gate_keys r.
Proof.
  intros Hp Hr Hl. destruct (co_gates p Hp) as (_ & Hl1 & Hl2). split; [|by eauto].
  intros (r' & Hr' & Hg)%Hl2. congruence.
Qed.

Lemma gate_edits_same p id old r :
  consistent p → pd_items p !! id = Some old → ir_gate_keys r = ir_gate_keys old → (live r → live old) →
  no_empty (pd_gate_members p) ∧ gate_edits (pd_gate_members p) (pd_gate_members p) id r.
Proof.
  intros Hp Hold Hg Hl. destruct (co_gates p Hp) as (Hn & Hl1 & Hl2). split; [done|]. unfold gate_edits. rewrite Hg.
  split_and!; [|intros g (r' & Hr' & ?)%Hl2; congruence|done]. intros Hr g Hgk. by apply (Hl1 id old); auto.
Qed.

(** ** One record goes *)

Record dropped p p' (id : ItemId.t) : Prop := mkDropped {
  dr_config : pd_config p' = pd_config p;
  dr_blocked : pd_blocked_gates p' = pd_blocked_gates p;
  dr_items : pd_items p' = delete id (pd_items p);
  dr_next_seq : pd_next_seq p' = pd_next_seq p;
  dr_retained : edits (has_id (pd_retained_ids p)) (has_id (pd_retained_ids p')) id (λ _, False);
  dr_leased : edits (has_id (pd_leased_ids p)) (has_id (pd_leased_ids p')) id (λ _, False);
  dr_consumer : no_empty (pd_leased_by_consumer p') ∧
    edits (has_row (pd_leased_by_consumer p)) (has_row (pd_leased_by_consumer p')) id (λ _, False);
  dr_expiry : no_empty (pd_ordinary_leases_by_expiry p') ∧
    edits (has_row (pd_ordinary_leases_by_expiry p)) (has_row (pd_ordinary_leases_by_expiry p')) id (λ _, False);
  dr_key : edits (has_name (pd_by_key p)) (has_name (pd_by_key p')) id (λ _, False);
  dr_elig : edits (has_elig (pd_eligible p)) (has_elig (pd_eligible p')) id (λ _, False);
  dr_metrics : pd_metrics p' = metrics_of (pd_items p');
  dr_gates : no_empty (pd_gate_members p') ∧
    edits (has_row (pd_gate_members p)) (has_row (pd_gate_members p')) id (λ _, False);
  dr_index : shaped (pd_config p) (pd_indexes p') ∧
    edits (has_key (pd_indexes p)) (has_key (pd_indexes p')) id (λ _, False);
  dr_claim_index : shaped (pd_config p) (pd_claim_indexes p') ∧
    edits (has_key (pd_claim_indexes p)) (has_key (pd_claim_indexes p')) id (λ _, False);
  dr_framed j keys : pd_framed_index_keys p' !! j = Some keys → j ≠ id ∧ pd_framed_index_keys p !! j = Some keys;
}.

Lemma tracks_dropped {X} (has has' : ItemId.t → X → Prop) items rows id :
  tracks has items rows → edits has has' id (λ _, False) → tracks has' (delete id items) rows.
Proof. intros Ht [Hid Hne]. eapply tracks_delete; [done| |done]. intros x ?%Hid. done. Qed.

Lemma consistent_dropped p p' id : consistent p → dropped p p' id → consistent p'.
Proof.
  intros Hp [Hcfg Hblk Hitems Hseq Hret Hlea [Hne1 Hcon] [Hne2 Hexp] Hkey Heli Hmet [Hne3 Hgat]
             [Hsh1 Hidx] [Hsh2 Hcla] Hfra].
  constructor; rewrite ?Hcfg, ?Hblk, ?(model_config p p' Hcfg), ?Hitems, ?Hseq; try (rewrite <-Hitems; done).
  - intros j s [Hne Hs]%lookup_delete_Some. by apply (co_ids p Hp).
  - intros j s [Hne Hs]%lookup_delete_Some. by apply (co_keys p Hp j).
  - pose proof (co_size p Hp). rewrite map_size_delete. case_match; cbn; lia.
  - by eapply tracks_dropped; [apply (co_retained p Hp)|].
  - by eapply tracks_dropped; [apply (co_leased p Hp)|].
  - split; [done|]. by eapply tracks_dropped; [apply (co_consumer p Hp)|].
  - split; [done|]. by eapply tracks_dropped; [apply (co_expiry p Hp)|].
  - by eapply tracks_dropped; [apply (co_key p Hp)|].
  - by eapply tracks_dropped; [apply (co_elig p Hp)|].
  - split; [done|]. destruct Hgat as (Hg1 & Hg2), (co_gates p Hp) as (_ & Hl & Hm). split.
    + intros j s g [Hne Hs]%lookup_delete_Some Hlive Hg. apply Hg2; [done|]. by apply (Hl j s).
    + intros g j Hj. destruct (decide (j = id)) as [->|Hne]; [by apply Hg1 in Hj|].
      rewrite lookup_delete_ne by done. by apply Hm, Hg2.
  - split; [done|]. by eapply tracks_dropped; [apply (co_index p Hp)|].
  - split; [done|]. by eapply tracks_dropped; [apply (co_claim_index p Hp)|].
  - intros j keys [Hne Hj]%Hfra. rewrite lookup_delete_ne by done. by apply (co_framed p Hp).
Qed.

(** *** Posting rows *)

Lemma edits_post {K} `{Countable K} (m : gmap K (gset ItemId.t)) k id (row : K → Prop) :
  (∀ x, row x ↔ x = k ∨ has_row m id x) → edits (has_row m) (has_row (post k id m)) id row.
Proof. intros Hr. unfold edits, has_row in *. setoid_rewrite posted_post. naive_solver. Qed.

Lemma edits_unpost {K} `{Countable K} (m : gmap K (gset ItemId.t)) k id (row : K → Prop) :
  (∀ x, row x ↔ x ≠ k ∧ has_row m id x) → edits (has_row m) (has_row (unpost k id m)) id row.
Proof. intros Hr. unfold edits, has_row in *. setoid_rewrite posted_unpost. naive_solver. Qed.

Lemma edits_trans {X} (has1 has2 has3 : ItemId.t → X → Prop) id row row' :
  edits has1 has2 id row → edits has2 has3 id row' → edits has1 has3 id row'.
Proof. intros [_ Hne] [Hid Hne']. split; [done|]. intros j x Hj. by rewrite Hne', Hne. Qed.

Lemma edits_keep {X} (has : ItemId.t → X → Prop) id (row : X → Prop) :
  (∀ x, has id x ↔ row x) → edits has has id row.
Proof. by split. Qed.
End consistency.
