(* ===== verification/ProjectionSamples.v ===== *)
(** The new projection is consistent; a concrete codec, configuration and commands at
    which the theorems on projections are instantiated. *)
From S2P Require Import Prelude Identity Priority Metadata Lifecycle CreateQueue Engine JsonEquality Ordered IndexFields Eligibility Projection ProjectionFacts.

Implicit Types (id : ItemId.t) (r rec : ItemRecord).

Section fresh.
Context {N : Type} `{JsonNumber N, AxonIndex N, JsonBuild N, EntityCodecLaws N}.
Implicit Types (c : ProjectionConfig).

Lemma tracks_none {X} (has : ItemId.t → X → Prop) (rows : ItemRecord → X → Prop) : (∀ id x, ¬ has id x) → tracks has ∅ rows.
Proof. intros Hn id x. rewrite lookup_empty. naive_solver. Qed.

Lemma foldl_insert_Forall {A B} (P : B → Prop) (f : A → string) (g : A → B) l (m : gmap string B) :
  (∀ x, P (g x)) → map_Forall (λ _, P) m → map_Forall (λ _, P) (foldl (λ m x, <[f x := g x]> m) m l).
Proof.
  intros Hg. revert m. induction l as [|x l IH]; intros m Hm; [done|]. cbn. apply IH. by apply map_Forall_insert_2.
Qed.

Lemma empty_indexes_hold c (P : SecondaryIndex → Prop) :
  (∀ unique, P (empty_secondary_index unique)) → map_Forall (λ _, P) (empty_indexes c).
Proof. intros HP. apply foldl_insert_Forall; [done|]. apply foldl_insert_Forall; [done|apply map_Forall_empty]. Qed.

Lemma empty_indexes_shaped c : shaped c (empty_indexes c).
Proof. split; [done|]. apply empty_indexes_hold. intros []; cbn; [done|apply map_Forall_empty]. Qed.

Lemma empty_indexes_no_key c id x : ¬ has_key (empty_indexes c) id x.
Proof.
  pose proof (empty_indexes_hold c (λ i, i = Unique ∅ ∨ i = NonUnique ∅) ltac:(by intros []; [left|right])) as He.
  unfold has_key. destruct (empty_indexes c !! x.1) as [i|] eqn:Hi; [|tauto]. unfold posted.
  destruct (He _ _ Hi) as [-> | ->]; rewrite lookup_empty; [done|apply not_elem_of_empty].
Qed.

Lemma consistent_new c : consistent (projection_new c).
Proof.
  assert (Hrow : ∀ {K} `{Countable K} (k : K) id, ¬ posted ∅ k id).
  { intros K ?? k id. unfold posted. rewrite lookup_empty. apply not_elem_of_empty. }
  constructor; cbn; try (by intros ??; rewrite lookup_empty); try apply tracks_none.
  - split; [done|]. by vm_compute.
  - intros id x. apply not_elem_of_empty.
  - intros id x. apply not_elem_of_empty.
  - split; [apply map_Forall_empty|]. apply tracks_none. intros id x. apply Hrow.
  - split; [apply map_Forall_empty|]. apply tracks_none. intros id x. apply Hrow.
  - intros id x. unfold has_name. by rewrite lookup_empty.
  - intros id x [Hx _]. revert Hx. cbn. set_solver.
  - done.
  - split; [apply map_Forall_empty|]. split; [by intros ???; rewrite lookup_empty|]. intros g id Hg. by apply Hrow in Hg.
  - split; [apply empty_indexes_shaped|]. apply tracks_none, empty_indexes_no_key.
  - split; [apply empty_indexes_shaped|]. apply tracks_none, empty_indexes_no_key.
Qed.
End fresh.

(** ** A concrete codec *)

Definition value_leaf : Type := bool + (Z + string).

Fixpoint value_tree (v : Value Z) : gen_tree value_leaf :=
  match v with
  | VNull => GenNode 0 []
  | VBool b => GenLeaf (inl b)
  | VNumber z => GenLeaf (inr (inl z))
  | VString s => GenLeaf (inr (inr s))
  | VArray values => GenNode 1 (value_tree <$> values)
  | VObject values => GenNode 2 ((λ e : string * Value Z, GenNode 3 [GenLeaf (inr (inr e.1)); value_tree e.2]) <$> values)
  end.

Fixpoint tree_value (t : gen_tree value_leaf) : Value Z :=
  match t with
  | GenLeaf (inl b) => VBool b
  | GenLeaf (inr (inl z)) => VNumber z
  | GenLeaf (inr (inr s)) => VString s
  | GenNode 1 ts => VArray (tree_value <$> ts)
  | GenNode 2 ts =>
      VObject ((λ t, match t with GenNode 3 [GenLeaf (inr (inr k)); t] => (k, tree_value t) | _ => (EmptyString, VNull) end) <$> ts)
  | _ => VNull
  end.

Lemma tree_value_tree v : tree_value (value_tree v) = v.
Proof.
  induction v as [| | | |l IH|m IH] using Value_nested_ind; cbn; try done; f_equal.
  - induction IH as [|x l Hx _ IH]; cbn; [done|]. by rewrite Hx, IH.
  - induction IH as [|[k x] m Hx _ IH]; cbn; [done|]. cbn in Hx. by rewrite Hx, IH.
Qed.

(** Binary digits as text. *)
Fixpoint pos_text (n : positive) : string :=
  match n with
  | xH => EmptyString
  | xO n => String Ascii.zero (pos_text n)
  | xI n => String Ascii.one (pos_text n)
  end.
Fixpoint text_pos (s : string) : positive :=
  match s with
  | EmptyString => xH
  | String c s => if bool_decide (c = Ascii.zero) then xO (text_pos s) else xI (text_pos s)
  end.

Lemma text_pos_text n : text_pos (pos_text n) = n.
Proof. induction n as [n IH|n IH|]; cbn; [by rewrite IH..|done]. Qed.

Definition sample_codec : EntityCodec Z := {|
  json_to_vec := λ v, as_bytes (pos_text (encode (value_tree v)));
  json_from_slice := λ b, default VNull (tree_value <$> decode (text_pos (String.string_of_list_byte b)));
|}.
#[export] Existing Instance sample_number.
#[export] Existing Instance sample_build.
#[export] Existing Instance sample_esf.
#[export] Existing Instance sample_axon.
#[export] Existing Instance sample_codec.

#[export] Instance sample_codec_laws : EntityCodecLaws Z.
Proof. intros v. unfold json_from_slice, json_to_vec, sample_codec, as_bytes. rewrite String.string_of_list_byte_of_string, text_pos_text, countable.decode_encode. cbn. by rewrite tree_value_tree. Qed.

(** ** Commands *)

Definition sample_config : ProjectionConfig :=
  mkProjectionConfig timestamp_ascending Strict 0 RecurrencePolicy_default GateNone None None
    [mkIndexSpec "by_sku" ["sku"] true] [].

Definition sample_push (id : Z) (key : string) (priority : Z) : PushItem (N:=Z) :=
  mkPushItem key (ItemId.mk id) (Some (Timestamp (mkUtcTimestamp priority 0))) None None 3 None
    {["sku" := as_bytes key]} Metadata_new None [] ∅ None.

Definition sample_pushes : list (PushItem (N:=Z)) := [sample_push 1 "a" 20; sample_push 2 "b" 10].
Definition at_second (s : Z) : UtcTimestamp := mkUtcTimestamp s 0.
Definition sample_claim : QueueCommand (N:=Z) := CmdClaim [ItemId.mk 2] "lease" (at_second 50) None false.
Definition sample_pushed : ProjectionData := (apply_command_at None None (CmdPush sample_pushes) (projection_new sample_config)).2.
Definition sample_leased : ProjectionData := (apply_command_at None None sample_claim sample_pushed).2.
