(* ===== verification/ProjectionSteps.v ===== *)
(** Each step of the projection on one record: what the record becomes, and that every
    derived index follows it. *)
From S2P Require Import Prelude Identity Priority Metadata Lifecycle CreateQueue Engine JsonEquality Ordered IndexFields Eligibility Projection ProjectionFacts.

Implicit Types (id : ItemId.t) (r rec old : ItemRecord) (items : gmap ItemId.t ItemRecord).

Ltac run := repeat (unfold mbind, M_bind, mret, M_ret, get, get_item, lift, modify, when, update_record, set_item; cbn).

#[local] Arguments transition_record : simpl never.
#[local] Arguments framed_keys_or_compute : simpl never.
#[local] Arguments elig_token : simpl never.
#[local] Arguments gate_keys_blocked : simpl never.
#[local] Arguments finalized_record : simpl never.
#[local] Arguments explicit_client_item_key : simpl never.

Lemma is_pending_spec s : is_pending s = true ↔ s = Pending.
Proof. by destruct s. Qed.
Lemma is_leased_spec s : is_leased s = true ↔ s = Leased.
Proof. by destruct s. Qed.

Section steps.
Context {N : Type} `{JsonNumber N, AxonIndex N, JsonBuild N, EntityCodecLaws N}.
Implicit Types (p : ProjectionData) (c : ProjectionConfig).

(** ** A step that keeps what the index keys are made of *)

Definition same_static c old r : Prop :=
  ir_item_id r = ir_item_id old ∧ ir_explicit_key r = ir_explicit_key old ∧ ir_gate_keys r = ir_gate_keys old ∧
  ir_superseded r = ir_superseded old ∧ record_entity_index_keys c r = record_entity_index_keys c old.

Definition same_frame p p' : Prop :=
  pd_config p' = pd_config p ∧ pd_blocked_gates p' = pd_blocked_gates p ∧ pd_retained_ids p' = pd_retained_ids p ∧
  pd_by_key p' = pd_by_key p ∧ pd_gate_members p' = pd_gate_members p ∧ pd_indexes p' = pd_indexes p ∧
  pd_next_seq p' = pd_next_seq p.

(** What no step on an existing record touches. *)
Definition same_rest p p' : Prop :=
  pd_next_seq p' = pd_next_seq p ∧ pd_paused p' = pd_paused p ∧ pd_pause_drain_intake p' = pd_pause_drain_intake p ∧
  pd_side_records p' = pd_side_records p ∧ pd_instance_fences p' = pd_instance_fences p.

(** The step [m] from [p] runs without error and leaves the record [r] for [id]. *)
Definition puts (m : M unit) p id r : Prop :=
  ∃ p', m p = (Ok tt, p') ∧ put p p' id r ∧ same_rest p p'.

Lemma same_static_keys c old r : same_static c old r → keys_of c r = keys_of c old.
Proof. intros (_ & _ & _ & _ & Hk). unfold keys_of. by rewrite Hk. Qed.

Lemma metrics_same items id old r :
  items !! id = Some old → ir_superseded r = ir_superseded old → ir_state r = ir_state old →
  metrics_of (<[id := r]> items) = metrics_of items.
Proof.
  intros Hold Hsup Hst. unfold metrics_of.
  assert (Hm : ∀ s, msum (counts s) (<[id := r]> items) = msum (counts s) items) by
    (intros s; rewrite (msum_update _ _ _ r old Hold); unfold counts; rewrite Hsup, Hst; lia).
  by rewrite !Hm.
Qed.

(** Remembered keys that are those of the record, or absent. *)
Definition framed_ok p p' id r : Prop :=
  pd_framed_index_keys p' = pd_framed_index_keys p ∨
  pd_framed_index_keys p' = <[id := keys_of (pd_config p) r]> (pd_framed_index_keys p).

Lemma put_framed p p' id old r :
  consistent p → pd_items p !! id = Some old → record_entity_index_keys (pd_config p) r = record_entity_index_keys (pd_config p) old →
  framed_ok p p' id r → ∀ j keys, pd_framed_index_keys p' !! j = Some keys →
  if decide (j = id) then record_entity_index_keys (pd_config p) r = Ok keys else pd_framed_index_keys p !! j = Some keys.
Proof.
  intros Hp Hold Hk [Hf|Hf] j keys Hj; rewrite Hf in Hj; case_decide as Hd; try done.
  - subst j. apply (co_framed p Hp) in Hj as (r' & Hr' & Hkeys). rewrite Hk. congruence.
  - subst j. rewrite lookup_insert_eq in Hj. injection Hj as <-. destruct (co_keys p Hp id old Hold) as [ks Hks].
    unfold keys_of. rewrite Hk, Hks. done.
  - by rewrite lookup_insert_ne in Hj.
Qed.

Lemma put_static p p' id old r :
  consistent p → pd_items p !! id = Some old → same_static (pd_config p) old r → same_frame p p' →
  pd_items p' = <[id := r]> (pd_items p) →
  edits (has_id (pd_leased_ids p)) (has_id (pd_leased_ids p')) id (row_leased r) →
  no_empty (pd_leased_by_consumer p') ∧
    edits (has_row (pd_leased_by_consumer p)) (has_row (pd_leased_by_consumer p')) id (row_consumer r) →
  no_empty (pd_ordinary_leases_by_expiry p') ∧
    edits (has_row (pd_ordinary_leases_by_expiry p)) (has_row (pd_ordinary_leases_by_expiry p')) id (row_expiry r) →
  edits (has_elig (pd_eligible p)) (has_elig (pd_eligible p')) id (row_elig (pd_blocked_gates p) (pd_model p) r) →
  pd_metrics p' = metrics_of (pd_items p') →
  shaped (pd_config p) (pd_claim_indexes p') ∧
    edits (has_key (pd_claim_indexes p)) (has_key (pd_claim_indexes p')) id (row_claim_index (pd_config p) r) →
  framed_ok p p' id r → put p p' id r.
Proof.
  intros Hp Hold Hst (Hcfg & Hblk & Hret & Hby & Hgat & Hidx & Hseq) Hitems Hlea Hcon Hexp Heli Hmet Hcla Hfra.
  pose proof (same_static_keys _ _ _ Hst) as Hks. destruct Hst as (Hid & Hexpl & Hgk & Hsup & Hk).
  constructor; try done.
  - rewrite Hid. by apply (co_ids p Hp).
  - unfold keys_ok. rewrite Hk. by apply (co_keys p Hp id).
  - rewrite Hitems, Hseq, map_size_insert_Some by (by eexists). apply (co_size p Hp).
  - rewrite Hret. eapply edits_same; [apply (co_retained p Hp)|done|]. intros x. unfold row_retained, live. by rewrite Hsup.
  - rewrite Hby. eapply edits_same; [apply (co_key p Hp)|done|]. intros x. unfold row_key, live. by rewrite Hsup, Hexpl.
  - rewrite Hgat. apply (gate_edits_same p id old r Hp Hold Hgk). unfold live. congruence.
  - rewrite Hidx. split; [apply (co_index p Hp)|]. eapply edits_same; [apply (co_index p Hp)|done|].
    intros x. unfold row_index, live. by rewrite Hsup, Hks.
  - by eapply put_framed.
Qed.

(** ** Leases *)

Definition unpost_opt {K} `{Countable K} (k : option K) id (m : gmap K (gset ItemId.t)) : gmap K (gset ItemId.t) :=
  match k with Some k => unpost k id m | None => m end.

Lemma posted_unpost_opt {K} `{Countable K} (k : option K) id (m : gmap K (gset ItemId.t)) x j :
  posted (unpost_opt k id m) x j ↔ posted m x j ∧ ¬ (j = id ∧ k = Some x).
Proof. destruct k as [k|]; cbn; [rewrite posted_unpost|]; naive_solver. Qed.

Lemma no_empty_unpost_opt {K} `{Countable K} (k : option K) id (m : gmap K (gset ItemId.t)) :
  no_empty m → no_empty (unpost_opt k id m).
Proof. destruct k; [apply no_empty_unpost|done]. Qed.

(** Posting lists whose row for the record moves from [k] to [k']. *)
Lemma edits_move {K} `{Countable K} (m : gmap K (gset ItemId.t)) (k : option K) k' id (row : K → Prop) :
  (∀ x, has_row m id x → k = Some x) → (∀ x, row x ↔ x = k') →
  edits (has_row m) (has_row (post k' id (unpost_opt k id m))) id row.
Proof.
  intros Hk Hrow. unfold edits, has_row in *. setoid_rewrite posted_post. setoid_rewrite posted_unpost_opt.
  split; [intros x; rewrite Hrow|]; naive_solver.
Qed.

Lemma edits_clear {K} `{Countable K} (m : gmap K (gset ItemId.t)) (k : option K) id (row : K → Prop) :
  (∀ x, has_row m id x → k = Some x) → (∀ x, ¬ row x) →
  edits (has_row m) (has_row (unpost_opt k id m)) id row.
Proof.
  intros Hk Hrow. unfold edits, has_row in *. setoid_rewrite posted_unpost_opt. split; [intros x; specialize (Hrow x)|]; naive_solver.
Qed.

Lemma expiry_rows p id rec x :
  consistent p → pd_items p !! id = Some rec → has_row (pd_ordinary_leases_by_expiry p) id x → ir_lease_expires_at rec = Some x.
Proof. intros Hp Hrec Hx. by apply (tracks_at _ _ _ _ _ _ (proj2 (co_expiry p Hp)) Hrec) in Hx as (_ & _ & ?). Qed.

Lemma consumer_rows p id rec x :
  consistent p → pd_items p !! id = Some rec → has_row (pd_leased_by_consumer p) id x → ir_lease_token rec = Some x.
Proof. intros Hp Hrec Hx. by apply (tracks_at _ _ _ _ _ _ (proj2 (co_consumer p Hp)) Hrec) in Hx as (_ & ?). Qed.

Lemma drop_expiry_run id e p : drop_expiry id e p = (Ok tt, on_ordinary_leases_by_expiry (unpost_opt e id) p).
Proof. by destruct e, p. Qed.

Definition renewed_record (expires : UtcTimestamp) rec : ItemRecord :=
  set_item_version (wrapping_succ_u64 (ir_item_version rec)) (set_lease_expires_at (Some expires) rec).

(** What an unchanged index holds: the rows of a record with the same relevant fields. *)
Ltac keep Hp Hrec :=
  first
    [ apply (edits_same _ _ _ _ _ _ (co_leased _ Hp) Hrec); intros; reflexivity
    | split; [apply (co_consumer _ Hp)|apply (edits_same _ _ _ _ _ _ (proj2 (co_consumer _ Hp)) Hrec); intros; reflexivity]
    | split; [apply (co_expiry _ Hp)|apply (edits_same _ _ _ _ _ _ (proj2 (co_expiry _ Hp)) Hrec); intros; reflexivity]
    | apply (edits_same _ _ _ _ _ _ (co_elig _ Hp) Hrec); intros; reflexivity
    | rewrite (metrics_same _ _ _ _ Hrec) by done; apply (co_metrics _ Hp)
    | split; [apply (co_claim_index _ Hp)|apply (edits_same _ _ _ _ _ _ (proj2 (co_claim_index _ Hp)) Hrec); intros; reflexivity]
    | by left ].

Lemma renew_one_put p id rec expires :
  consistent p → pd_items p !! id = Some rec → held rec → ir_lease_is_cohort rec = false →
  puts (renew_one expires id) p id (renewed_record expires rec).
Proof.
  intros Hp Hrec Hheld Hco. eexists. split.
  { unfold renew_one. run. rewrite Hrec. cbn. rewrite drop_expiry_run. run. rewrite Hrec. reflexivity. }
  split; [|done].
  apply (put_static _ _ _ rec); try done; cbn; try keep Hp Hrec.
  split; [apply no_empty_post, no_empty_unpost_opt, (co_expiry p Hp)|].
  apply edits_move; [by intros; eapply expiry_rows|]. intros x. unfold row_expiry; cbn. naive_solver.
Qed.

Definition reassigned_record (token : string) (expires : UtcTimestamp) rec : ItemRecord :=
  set_item_version (wrapping_succ_u64 (ir_item_version rec))
    (set_attempt_count (wrapping_succ_u32 (ir_attempt_count rec))
       (set_lease_expires_at (Some expires) (set_lease_token (Some token) rec))).

Lemma reassign_one_put p id rec token expires :
  consistent p → pd_items p !! id = Some rec → held rec → ir_lease_is_cohort rec = false → is_Some (ir_lease_token rec) →
  puts (reassign_one token expires id) p id (reassigned_record token expires rec).
Proof.
  intros Hp Hrec Hheld Hco [old Htok]. eexists. split.
  { unfold reassign_one. run. rewrite Hrec. cbn. rewrite drop_expiry_run. run. rewrite Hrec. cbn.
    rewrite Htok. reflexivity. }
  split; [|done].
  apply (put_static _ _ _ rec); try done; cbn; try keep Hp Hrec.
  - apply (edits_same _ _ _ _ _ _ (co_leased _ Hp) Hrec). intros x. unfold row_leased; cbn. naive_solver.
  - split; [apply no_empty_post, no_empty_unpost, (co_consumer p Hp)|].
    apply (edits_move _ (Some old)); [rewrite <-Htok; by intros; eapply consumer_rows|].
    intros x. unfold row_consumer; cbn. naive_solver.
  - split; [apply no_empty_post, no_empty_unpost_opt, (co_expiry p Hp)|].
    apply edits_move; [by intros; eapply expiry_rows|]. intros x. unfold row_expiry; cbn. naive_solver.
Qed.

Lemma set_fence_put p id rec fenced :
  consistent p → pd_items p !! id = Some rec →
  puts (set_fence fenced id) p id (set_fenced fenced rec).
Proof.
  intros Hp Hrec. eexists. split; [reflexivity|].
  split; [|done].
  apply (put_static _ _ _ rec); try done; cbn; try keep Hp Hrec.
  - apply map_eq. intros j. destruct (decide (j = id)) as [->|Hne].
    + by rewrite lookup_alter_eq, lookup_insert_eq, Hrec.
    + by rewrite lookup_alter_ne, lookup_insert_ne.
  - rewrite (co_metrics p Hp), <-(metrics_same _ id rec (set_fenced fenced rec) Hrec) by done. f_equal.
    apply map_eq. intros j. destruct (decide (j = id)) as [->|Hne].
    + by rewrite lookup_alter_eq, lookup_insert_eq, Hrec.
    + by rewrite lookup_alter_ne, lookup_insert_ne.
Qed.

(** ** Lifecycle steps *)

Lemma transition_record_keys c rec new ta tp :
  record_entity_index_keys c (transition_record rec new ta tp) = record_entity_index_keys c rec.
Proof. unfold transition_record. by destruct (is_leased new), (is_terminal new), (is_terminal (ir_state rec)). Qed.

(** The remembered keys, or those computed and remembered, are the keys of the record. *)
Lemma framed_keys_run p id rec rec' elig :
  consistent p → pd_items p !! id = Some rec → record_entity_index_keys (pd_config p) rec' = record_entity_index_keys (pd_config p) rec →
  pd_items elig = <[id := rec']> (pd_items p) → pd_config elig = pd_config p →
  pd_framed_index_keys elig = pd_framed_index_keys p →
  framed_keys_or_compute id elig =
  (Ok (keys_of (pd_config p) rec),
   on_framed_index_keys (λ _, <[id := keys_of (pd_config p) rec]> (pd_framed_index_keys p)) elig).
Proof.
  intros Hp Hrec Hk Hitems Hcfg Hfra. unfold framed_keys_or_compute. run. rewrite Hfra.
  destruct (pd_framed_index_keys p !! id) as [keys|] eqn:Hkeys; run.
  - destruct (co_framed p Hp id keys Hkeys) as (r & Hr & Hkr). replace r with rec in Hkr by congruence.
    rewrite (keys_of_Ok _ _ _ Hkr), insert_id by done. rewrite <-Hfra. by destruct elig.
  - rewrite Hitems, lookup_insert_eq. cbn. destruct (co_keys p Hp id rec Hrec) as [keys Hks].
    rewrite Hcfg, Hk, (keys_of_Ok _ _ _ Hks), Hks. cbn. unfold on_framed_index_keys. by rewrite Hfra.
Qed.

Definition leased_record (token : string) (expires : UtcTimestamp) rec : ItemRecord :=
  let rec := transition_record rec Leased None None in
  set_attempt_count (wrapping_succ_u32 (ir_attempt_count rec))
    (set_lease_expires_at (Some expires) (set_lease_token (Some token) rec)).
Definition claimed_record (token : string) (expires : UtcTimestamp) (worker : option string) rec : ItemRecord :=
  set_worker_id worker (set_lease_is_cohort false (leased_record token expires rec)).
Definition cohort_claimed_record (token : string) (expires : UtcTimestamp) rec : ItemRecord :=
  set_lease_is_cohort true (leased_record token expires rec).

(** The state a claim's transition leaves. *)
Definition claim_transitioned p id rec : ProjectionData :=
  mkProjectionData (pd_config p) (<[id := transition_record rec Leased None None]> (pd_items p)) (pd_retained_ids p)
    (pd_leased_ids p) (pd_leased_by_consumer p) (pd_ordinary_leases_by_expiry p) (pd_by_key p)
    (if negb (gate_keys_blocked (pd_blocked_gates p) (ir_gate_keys rec))
     then elig_remove (pd_eligible p) (elig_token rec (pd_model p)) else pd_eligible p)
    (metrics_transition Pending Leased (pd_metrics p)) (pd_next_seq p) (pd_paused p) (pd_pause_drain_intake p)
    (pd_blocked_gates p) (pd_gate_members p) (pd_indexes p)
    (remove_keys_from id (keys_of (pd_config p) rec) (pd_claim_indexes p))
    (<[id := keys_of (pd_config p) rec]> (pd_framed_index_keys p)) (pd_side_records p) (pd_instance_fences p).

Lemma transition_claim p id rec :
  consistent p → pd_items p !! id = Some rec → ir_state rec = Pending → live rec →
  transition id Claim None None p = (Ok Leased, claim_transitioned p id rec).
Proof.
  intros Hp Hrec Hst Hl. unfold transition. run. rewrite Hrec. cbn. rewrite Hl, Hst. cbn.
  destruct (gate_keys_blocked (pd_blocked_gates p) (ir_gate_keys rec)) eqn:Hb; run; unfold elig_drop; run;
    erewrite (framed_keys_run p id rec (transition_record rec Leased None None)) by (done || apply transition_record_keys); unfold claim_transitioned; rewrite Hb; reflexivity.
Qed.

Lemma elig_ids p id old b :
  consistent p → pd_items p !! id = Some old → (claimable (pd_blocked_gates p) old = true → b = true) → ∀ j k,
  has_elig (if b : bool then elig_remove (pd_eligible p) (elig_token old (pd_model p)) else pd_eligible p) j k ↔
  has_elig (pd_eligible p) j k ∧ j ≠ id.
Proof. intros Hp Hold Hb. by eapply (elig_cleared _ _ _ _ (co_elig p Hp) (co_ids p Hp)). Qed.

(** The eligibility row goes and none replaces it. *)
Lemma elig_gone p id old r b :
  consistent p → pd_items p !! id = Some old → (claimable (pd_blocked_gates p) old = true → b = true) →
  claimable (pd_blocked_gates p) r = false →
  edits (has_elig (pd_eligible p))
    (has_elig (if b : bool then elig_remove (pd_eligible p) (elig_token old (pd_model p)) else pd_eligible p)) id
    (row_elig (pd_blocked_gates p) (pd_model p) r).
Proof.
  intros Hp Hold Hb Hr. pose proof (elig_ids p id old b Hp Hold Hb) as He. unfold row_elig, row_when.
  split; [intros k; rewrite He|intros j k Hne; rewrite He]; intuition congruence.
Qed.

Lemma claimable_open blocked rec : claimable blocked rec = true → negb (gate_keys_blocked blocked (ir_gate_keys rec)) = true.
Proof. unfold claimable. by intros [_ ?]%andb_prop. Qed.

Lemma claimable_pending blocked rec : claimable blocked rec = true → ir_state rec = Pending ∧ live rec.
Proof. unfold claimable, live. intros [[Hs Hl]%andb_prop _]%andb_prop. by rewrite <-is_pending_spec, <-negb_true_iff. Qed.

Lemma not_claimable blocked r : ir_state r ≠ Pending → claimable blocked r = false.
Proof. unfold claimable. by destruct (ir_state r). Qed.

(** A claim leaves the rows of the leased record: those of its token and, for an
    ordinary lease, of its expiry. *)
Lemma claim_put p p' id rec r :
  consistent p → pd_items p !! id = Some rec → ir_state rec = Pending → live rec →
  same_static (pd_config p) rec r → ir_state r = Leased → same_frame p p' →
  pd_items p' = <[id := r]> (pd_items p) →
  pd_leased_ids p' = {[id]} ∪ pd_leased_ids p →
  (∃ token, ir_lease_token r = Some token ∧ pd_leased_by_consumer p' = post token id (pd_leased_by_consumer p)) →
  (if ir_lease_is_cohort r then pd_ordinary_leases_by_expiry p' = pd_ordinary_leases_by_expiry p
   else ∃ e, ir_lease_expires_at r = Some e ∧
             pd_ordinary_leases_by_expiry p' = post e id (pd_ordinary_leases_by_expiry p)) →
  pd_eligible p' = pd_eligible (claim_transitioned p id rec) →
  pd_metrics p' = metrics_transition Pending Leased (pd_metrics p) →
  pd_claim_indexes p' = remove_keys_from id (keys_of (pd_config p) rec) (pd_claim_indexes p) →
  framed_ok p p' id r → put p p' id r.
Proof.
  intros Hp Hrec Hst Hl Hs Hr Hfr Hitems Hlea (token & Htok & Hcon) Hexp Heli Hmet Hcla Hfra.
  assert (Hheld : held r) by (split; [done|]; destruct Hs as (_ & _ & _ & Hsup & _); unfold live in *; congruence).
  destruct (co_claim_index p Hp) as [Hsh Hct].
  apply (put_static _ _ _ rec); try done.
  - rewrite Hlea. apply edits_id_add. split; [done|]. by rewrite Htok.
  - rewrite Hcon. split; [apply no_empty_post, (co_consumer p Hp)|]. apply edits_post. intros x.
    rewrite (tracks_at _ _ _ _ _ x (proj2 (co_consumer p Hp)) Hrec). unfold row_consumer, held in *. rewrite Hst, Htok. naive_solver.
  - assert (Hx : ∀ x, ¬ has_row (pd_ordinary_leases_by_expiry p) id x)
      by (intros x ([Hb _] & _)%(tracks_at _ _ _ _ _ x (proj2 (co_expiry p Hp)) Hrec); congruence).
    unfold row_expiry. destruct (ir_lease_is_cohort r); [rewrite Hexp|destruct Hexp as (e & He & ->); rewrite He].
    + split; [apply (co_expiry p Hp)|]. apply edits_keep. intros x. specialize (Hx x). naive_solver.
    + split; [apply no_empty_post, (co_expiry p Hp)|]. apply edits_post. intros x. specialize (Hx x). naive_solver.
  - rewrite Heli. apply elig_gone; [done..|apply claimable_open|]. apply not_claimable. by rewrite Hr.
  - rewrite Hmet, Hitems, (metrics_update _ id rec) by (done || apply Hs || (pose proof (co_size p Hp); lia)).
    by rewrite Hl, Hst, Hr, (co_metrics p Hp).
  - rewrite Hcla. split; [by apply shaped_remove|]. apply edits_index_remove. intros x.
    rewrite (tracks_at _ _ _ _ _ x Hct Hrec). unfold row_claim_index. rewrite Hr. naive_solver.
Qed.

Lemma leased_record_static c token expires rec : same_static c rec (leased_record token expires rec).
Proof.
  unfold same_static, leased_record, transition_record. cbn. by destruct (is_terminal (ir_state rec)).
Qed.

Lemma claim_one_put p id rec token expires worker :
  consistent p → pd_items p !! id = Some rec → ir_state rec = Pending → live rec →
  puts (claim_one token expires worker id) p id (claimed_record token expires worker rec).
Proof.
  intros Hp Hrec Hst Hl. eexists. split.
  { unfold claim_one. run. rewrite (transition_claim p id rec) by done. run. rewrite lookup_insert_eq. reflexivity. }
  pose proof (leased_record_static (pd_config p) token expires rec) as Hs.
  split; [|done].
  apply (claim_put _ _ _ rec); cbn; try done; try by eexists.
  - unfold transition_record. cbn. by rewrite Hst.
  - by rewrite insert_insert_eq.
  - right. cbn. by rewrite (same_static_keys _ rec (claimed_record token expires worker rec) Hs).
Qed.

Lemma cohort_claim_one_put p id rec token expires :
  consistent p → pd_items p !! id = Some rec → ir_state rec = Pending → live rec →
  puts (cohort_claim_one token expires id) p id (cohort_claimed_record token expires rec).
Proof.
  intros Hp Hrec Hst Hl. eexists. split.
  { unfold cohort_claim_one. run. rewrite (transition_claim p id rec) by done. run. rewrite lookup_insert_eq. reflexivity. }
  pose proof (leased_record_static (pd_config p) token expires rec) as Hs.
  split; [|done].
  apply (claim_put _ _ _ rec); cbn; try done; try by eexists.
  - unfold transition_record. cbn. by rewrite Hst.
  - by rewrite insert_insert_eq.
  - right. cbn. by rewrite (same_static_keys _ rec (cohort_claimed_record token expires rec) Hs).
Qed.

(** *** The end of a lease *)

(** The state the end of a lease leaves. *)
Definition end_transitioned p id rec r : ProjectionData :=
  let repend := is_pending (ir_state r) in
  let open := negb (gate_keys_blocked (pd_blocked_gates p) (ir_gate_keys rec)) in
  mkProjectionData (pd_config p) (<[id := r]> (pd_items p)) (pd_retained_ids p)
    (pd_leased_ids p ∖ {[id]}) (unpost_opt (ir_lease_token rec) id (pd_leased_by_consumer p))
    (unpost_opt (ir_lease_expires_at rec) id (pd_ordinary_leases_by_expiry p)) (pd_by_key p)
    (if repend && open then elig_insert (pd_eligible p) r (<[id := r]> (pd_items p)) (pd_model p) else pd_eligible p)
    (metrics_transition Leased (ir_state r) (pd_metrics p)) (pd_next_seq p) (pd_paused p) (pd_pause_drain_intake p)
    (pd_blocked_gates p) (pd_gate_members p) (pd_indexes p)
    (if repend then insert_keys_into id (keys_of (pd_config p) rec) (pd_claim_indexes p) else pd_claim_indexes p)
    (if repend then <[id := keys_of (pd_config p) rec]> (pd_framed_index_keys p) else pd_framed_index_keys p)
    (pd_side_records p) (pd_instance_fences p).

Lemma drop_lease_rows_run id e t p :
  drop_lease_rows id e t p =
  on_leased_by_consumer (unpost_opt t id)
    (on_ordinary_leases_by_expiry (unpost_opt e id) (on_leased_ids (λ s, s ∖ {[id]}) p)).
Proof. by destruct e, t, p. Qed.

Lemma transition_end p id rec ev new ta tp :
  consistent p → pd_items p !! id = Some rec → ir_state rec = Leased → live rec →
  apply_transition Leased ev = Ok new → new ≠ Leased →
  transition id ev ta tp p = (Ok new, end_transitioned p id rec (transition_record rec new ta tp)).
Proof.
  intros Hp Hrec Hst Hl Hev Hne. unfold transition. run. rewrite Hrec. cbn. rewrite Hl, Hst, Hev. cbn.
  assert (Hnew : ir_state (transition_record rec new ta tp) = new).
  { unfold transition_record. by destruct (is_leased new), (is_terminal new), (is_terminal (ir_state rec)). }
  unfold end_transitioned. rewrite Hnew.
  destruct new; try done; run; rewrite ?drop_lease_rows_run; try reflexivity.
  destruct (gate_keys_blocked (pd_blocked_gates p) (ir_gate_keys rec)) eqn:Hb; run; unfold elig_add; run;
    erewrite (framed_keys_run p id rec (transition_record rec Pending ta tp)) by (done || apply transition_record_keys); reflexivity.
Qed.

Lemma not_held_rows r : ir_state r ≠ Leased → (∀ x, ¬ row_leased r x) ∧ (∀ x, ¬ row_consumer r x) ∧ (∀ x, ¬ row_expiry r x).
Proof. unfold row_leased, row_consumer, row_expiry, held. naive_solver. Qed.

Lemma own_keys_free p id rec : consistent p → pd_items p !! id = Some rec → live rec →
  keys_free (pd_indexes p) id (keys_of (pd_config p) rec).
Proof.
  intros Hp Hrec Hl. apply keys_free_own. intros x Hx.
  by apply (tracks_at _ _ _ _ _ _ (proj2 (co_index p Hp)) Hrec).
Qed.

(** Claim rows of a record that becomes pending. *)
Lemma claim_index_filled p id rec r :
  consistent p → pd_items p !! id = Some rec → live rec → ir_state rec ≠ Pending → same_static (pd_config p) rec r →
  ir_state r = Pending →
  shaped (pd_config p) (insert_keys_into id (keys_of (pd_config p) rec) (pd_claim_indexes p)) ∧
  edits (has_key (pd_claim_indexes p))
    (has_key (insert_keys_into id (keys_of (pd_config p) rec) (pd_claim_indexes p))) id (row_claim_index (pd_config p) r).
Proof.
  intros Hp Hrec Hl Hst Hs Hr. destruct (co_claim_index p Hp) as [Hsh Hct].
  split; [by apply shaped_insert|]. apply (edits_index_add (pd_config p)); [done|apply record_declared| |].
  - by apply claim_keys_free, own_keys_free.
  - intros x. rewrite (tracks_at _ _ _ _ _ x Hct Hrec). unfold row_claim_index, live in *.
    rewrite (same_static_keys _ _ _ Hs). destruct Hs as (_ & _ & _ & -> & _). naive_solver.
Qed.

Lemma claimable_live blocked r : live r → claimable blocked r = is_pending (ir_state r) && negb (gate_keys_blocked blocked (ir_gate_keys r)).
Proof. unfold live, claimable. intros ->. by rewrite andb_true_r. Qed.

Lemma end_put p id rec r :
  consistent p → pd_items p !! id = Some rec → ir_state rec = Leased → live rec →
  same_static (pd_config p) rec r → ir_state r ≠ Leased → put p (end_transitioned p id rec r) id r.
Proof.
  intros Hp Hrec Hst Hl Hs Hr. destruct (not_held_rows r Hr) as (Hr1 & Hr2 & Hr3).
  assert (Hlr : live r) by (destruct Hs as (_ & _ & _ & Hsup & _); unfold live in *; congruence).
  apply (put_static _ _ _ rec); try done; cbn.
  - by apply edits_id_remove.
  - split; [apply no_empty_unpost_opt, (co_consumer p Hp)|]. apply edits_clear; [|done]. intros x. by apply consumer_rows.
  - split; [apply no_empty_unpost_opt, (co_expiry p Hp)|]. apply edits_clear; [|done]. intros x. by apply expiry_rows.
  - apply (elig_filled (pd_items p) _ _ _ (co_elig p Hp)); [ | | |].
    + destruct Hs as [-> _]. by apply (co_ids p Hp).
    + by apply (elig_ids p id rec false Hp Hrec); intros [Hc _]%claimable_pending; congruence.
    + intros j Hne. by rewrite lookup_insert_ne.
    + rewrite claimable_live by done. by destruct Hs as (_ & _ & -> & _ & _).
  - rewrite (metrics_update _ id rec) by (done || apply Hs || (pose proof (co_size p Hp); lia)).
    by rewrite Hl, Hst, (co_metrics p Hp).
  - destruct (is_pending (ir_state r)) eqn:Hpend.
    + apply claim_index_filled; try done; [congruence|]. by apply is_pending_spec.
    + split; [apply (co_claim_index p Hp)|]. eapply edits_same; [apply (co_claim_index p Hp)|done|].
      intros x. unfold row_claim_index. rewrite Hst. rewrite <-(is_pending_spec (ir_state r)), Hpend. naive_solver.
  - unfold framed_ok. cbn. rewrite (same_static_keys _ _ _ Hs). destruct (is_pending (ir_state r)); auto.
Qed.

Lemma transition_record_static c rec new ta tp : same_static c rec (transition_record rec new ta tp).
Proof.
  unfold same_static, transition_record. by destruct (is_leased new), (is_terminal new), (is_terminal (ir_state rec)).
Qed.

Lemma transition_record_state rec new ta tp : ir_state (transition_record rec new ta tp) = new.
Proof. unfold transition_record. by destruct (is_leased new), (is_terminal new), (is_terminal (ir_state rec)). Qed.

(** Two steps on one record. *)
Lemma put_trans p1 p2 p3 id r1 r2 : put p1 p2 id r1 → put p2 p3 id r2 → put p1 p3 id r2.
Proof.
  intros H12 [Hcfg Hblk Hitems Hid Hkeys Hsize Hret Hlea [Hne1 Hcon] [Hne2 Hexp] Hkey Heli Hmet [Hne3 Hgat]
              [Hsh1 Hidx] [Hsh2 Hcla] Hfra].
  pose proof (pu_config _ _ _ _ H12) as Hcfg'. pose proof (pu_blocked _ _ _ _ H12) as Hblk'.
  rewrite Hcfg', Hblk', ?(model_config p1 p2 Hcfg') in *. constructor; try done.
  - by rewrite Hitems, (pu_items _ _ _ _ H12), insert_insert_eq.
  - by eapply edits_trans; [apply (pu_retained _ _ _ _ H12)|].
  - by eapply edits_trans; [apply (pu_leased _ _ _ _ H12)|].
  - split; [done|]. by eapply edits_trans; [apply (pu_consumer _ _ _ _ H12)|].
  - split; [done|]. by eapply edits_trans; [apply (pu_expiry _ _ _ _ H12)|].
  - by eapply edits_trans; [apply (pu_key _ _ _ _ H12)|].
  - by eapply edits_trans; [apply (pu_elig _ _ _ _ H12)|].
  - split; [done|]. destruct Hgat as (Hg1 & Hg2 & Hg3), (pu_gates _ _ _ _ H12) as (_ & _ & _ & Hg3').
    split_and!; [done..|]. intros g j Hne. by rewrite Hg3, Hg3'.
  - split; [done|]. by eapply edits_trans; [apply (pu_index _ _ _ _ H12)|].
  - split; [done|]. by eapply edits_trans; [apply (pu_claim_index _ _ _ _ H12)|].
  - intros j keys Hj. apply Hfra in Hj. case_decide; [done|].
    apply (pu_framed _ _ _ _ H12) in Hj. by case_decide.
Qed.

Lemma put_lookup p p' id r : put p p' id r → pd_items p' !! id = Some r.
Proof. intros Hput. by rewrite (pu_items _ _ _ _ Hput), lookup_insert_eq. Qed.

Lemma same_rest_trans p1 p2 p3 : same_rest p1 p2 → same_rest p2 p3 → same_rest p1 p3.
Proof. unfold same_rest. naive_solver congruence. Qed.

(** A record that is not leased changes nothing but its schedule and old lease fields. *)
Lemma put_unheld p id old r e :
  consistent p → pd_items p !! id = Some old → same_static (pd_config p) old r → ir_state r = ir_state old →
  ir_state old ≠ Leased →
  edits (has_elig (pd_eligible p)) (has_elig e) id (row_elig (pd_blocked_gates p) (pd_model p) r) →
  put p (on_eligible (λ _, e) (set_item id r p)) id r.
Proof.
  intros Hp Hold Hs Hst Hne He. destruct (not_held_rows old Hne) as (Ho1 & Ho2 & Ho3).
  destruct (not_held_rows r) as (Hr1 & Hr2 & Hr3); [congruence|].
  apply (put_static _ _ _ old); try done; cbn.
  - apply (edits_same _ _ _ _ _ _ (co_leased _ Hp) Hold). intros x. specialize (Ho1 x). specialize (Hr1 x). tauto.
  - split; [apply (co_consumer _ Hp)|]. apply (edits_same _ _ _ _ _ _ (proj2 (co_consumer _ Hp)) Hold). intros x. specialize (Ho2 x). specialize (Hr2 x). tauto.
  - split; [apply (co_expiry _ Hp)|]. apply (edits_same _ _ _ _ _ _ (proj2 (co_expiry _ Hp)) Hold). intros x. specialize (Ho3 x). specialize (Hr3 x). tauto.
  - rewrite (metrics_same _ _ _ _ Hold) by (done || apply Hs). apply (co_metrics _ Hp).
  - split; [apply (co_claim_index _ Hp)|]. apply (edits_same _ _ _ _ _ _ (proj2 (co_claim_index _ Hp)) Hold).
    intros x. unfold row_claim_index, live. rewrite (same_static_keys _ _ _ Hs), Hst. by destruct Hs as (_ & _ & _ & -> & _).
  - by left.
Qed.

Definition cleared_record rec : ItemRecord :=
  set_lease_is_cohort false (set_lease_expires_at None (set_lease_token None rec)).

(** The first half of ending a lease. *)
Lemma end_step p id rec new ta tp :
  consistent p → pd_items p !! id = Some rec → held rec → new ≠ Leased →
  let r := transition_record rec new ta tp in let p1 := end_transitioned p id rec r in
  put p p1 id r ∧ consistent p1 ∧ pd_items p1 !! id = Some r.
Proof.
  intros Hp Hrec [Hst Hl] Hne r p1.
  assert (Hput : put p p1 id r).
  { apply end_put; [done..|apply transition_record_static|]. subst r. by rewrite transition_record_state. }
  split_and!; [done|by eapply consistent_put|by eapply put_lookup].
Qed.

Lemma elig_row_kept p id old r :
  consistent p → pd_items p !! id = Some old → claimable (pd_blocked_gates p) r = claimable (pd_blocked_gates p) old →
  (claimable (pd_blocked_gates p) old = true → elig_key r (pd_model p) = elig_key old (pd_model p)) →
  edits (has_elig (pd_eligible p)) (has_elig (pd_eligible p)) id (row_elig (pd_blocked_gates p) (pd_model p) r).
Proof.
  intros Hp Hold Hc Hk. apply (edits_same _ _ _ _ _ _ (co_elig _ Hp) Hold). intros x. unfold row_elig, row_when. rewrite Hc.
  destruct (claimable (pd_blocked_gates p) old); [|naive_solver]. by rewrite Hk.
Qed.

Lemma lease_expired_one_put p id rec :
  consistent p → pd_items p !! id = Some rec → held rec →
  puts (lease_expired_one id) p id (cleared_record (transition_record rec Pending None None)).
Proof.
  intros Hp Hrec Hheld. destruct (end_step p id rec Pending None None) as (Hput & Hp1 & Hr); [done..|].
  destruct Hheld as [Hst Hl]. eexists. split.
  { unfold lease_expired_one. run. rewrite (transition_end p id rec LeaseExpired Pending) by done. run.
    rewrite lookup_insert_eq. reflexivity. }
  split; [|done]. eapply put_trans; [exact Hput|].
  apply (put_unheld _ _ _ _ _ Hp1 Hr); [done..| |by apply (elig_row_kept _ _ _ _ Hp1 Hr)].
  by rewrite transition_record_state.
Qed.

(** ** Finalization *)

(** The state a finalization leads to. *)
Definition finalize_target c (o : FinalizeOutcome) rec : ItemState :=
  match fo_kind o with
  | KComplete => Complete
  | KFail => Failed
  | KRetry => if ir_max_attempts rec <=? ir_attempt_count rec then Failed else Pending
  | KRelease => Pending
  | KRearm =>
      match mode (pc_recurrence c), fo_not_before o, until (pc_recurrence c) with
      | Recurring, Some nb, Some until => if timestamp_gt nb until then Complete else Pending
      | _, _, _ => Pending
      end
  end.

Lemma finalize_event_target p o rec :
  ∃ ev, finalize_event p (Some rec) o = Ok ev ∧ apply_transition Leased ev = Ok (finalize_target (pd_config p) o rec) ∧
        finalize_target (pd_config p) o rec ≠ Leased.
Proof.
  unfold finalize_event, finalize_target, failure_event, is_retry_exhausted.
  destruct (fo_kind o); cbn; repeat case_match; by eexists.
Qed.

Definition finalize_record c (ta : option UtcTimestamp) (tp : option CommandPosition) (o : FinalizeOutcome) rec : ItemRecord :=
  finalized_record (set_fenced false (cleared_record (transition_record rec (finalize_target c o rec) ta tp))) o ta.

Lemma finalized_record_static c rec o ta : same_static c rec (finalized_record rec o ta).
Proof. unfold same_static, finalized_record. by repeat (case_match; cbn). Qed.

Lemma finalized_record_state rec o ta : ir_state (finalized_record rec o ta) = ir_state rec.
Proof. unfold finalized_record. by repeat (case_match; cbn). Qed.

Lemma rekeyed_row p id old r (b : bool) :
  consistent p → pd_items p !! id = Some old → ir_item_id r = id →
  claimable (pd_blocked_gates p) r = claimable (pd_blocked_gates p) old →
  b = claimable (pd_blocked_gates p) old && negb (bool_decide (elig_token old (pd_model p) = elig_token r (pd_model p))) →
  edits (has_elig (pd_eligible p))
    (has_elig (if b then elig_insert (elig_remove (pd_eligible p) (elig_token old (pd_model p))) r
                         (<[id := r]> (pd_items p)) (pd_model p) else pd_eligible p)) id
    (row_elig (pd_blocked_gates p) (pd_model p) r).
Proof.
  intros Hp Hold Hid Hc ->. destruct (claimable (pd_blocked_gates p) old) eqn:Hco; cbn.
  - case_bool_decide as Ht; cbn.
    + apply (elig_row_kept _ _ _ _ Hp Hold); [by rewrite Hco|]. intros _. by rewrite <-!rich_token, Ht.
    + apply (elig_filled (pd_items p) _ _ _ (co_elig p Hp) _ true); [done| | |done].
      * by apply (elig_ids p id old true Hp Hold).
      * intros j Hne. by rewrite lookup_insert_ne.
  - apply (elig_row_kept _ _ _ _ Hp Hold); congruence.
Qed.

Lemma finalize_one_put p rec ta tp o :
  let id := fo_item_id o in
  consistent p → pd_items p !! id = Some rec → held rec →
  puts (finalize_one ta tp o) p id (finalize_record (pd_config p) ta tp o rec).
Proof.
  intros id Hp Hrec Hheld. destruct (finalize_event_target p o rec) as (ev & Hev & Htr & Hne).
  unfold finalize_record. set (new := finalize_target (pd_config p) o rec) in *.
  destruct (end_step p id rec new ta tp) as (Hput & Hp1 & Hr); [done..|].
  set (r := transition_record rec new ta tp) in *. set (r2 := set_fenced false (cleared_record r)).
  destruct Hheld as [Hst Hl]. pose proof (finalized_record_static (pd_config p) r2 o ta) as Hs.
  pose proof (finalized_record_state r2 o ta) as Hs2.
  set (b := is_pending (ir_state r) && negb (gate_keys_blocked (pd_blocked_gates p) (ir_gate_keys r)) &&
    negb (bool_decide (elig_token r2 (pd_model p) = elig_token (finalized_record r2 o ta) (pd_model p)))).
  exists (on_eligible (λ e, if b then elig_insert (elig_remove e (elig_token r2 (pd_model p))) (finalized_record r2 o ta)
      (<[id := finalized_record r2 o ta]> (pd_items (end_transitioned p id rec r))) (pd_model p) else e)
    (set_item id (finalized_record r2 o ta) (end_transitioned p id rec r))). split.
  { unfold finalize_one. run. fold id. rewrite Hrec, Hev. cbn. rewrite (transition_end p id rec ev new) by done. run.
    fold r. rewrite lookup_insert_eq. cbn. subst b r2. unfold cleared_record. cbn. by case_match. }
  split; [|done]. eapply put_trans; [exact Hput|].
  assert (Hlr : live r) by (subst r; unfold live; destruct (transition_record_static (pd_config p) rec new ta tp) as (_ & _ & _ & -> & _); done).
  apply (put_unheld _ _ r _ _ Hp1 Hr); [done|done| |].
  - subst r. by rewrite transition_record_state.
  - apply (rekeyed_row _ _ r _ b Hp1 Hr).
    + rewrite (proj1 Hs). apply (co_ids _ Hp1 _ _ Hr).
    + rewrite !claimable_live by (done || (unfold live; by destruct Hs as (_ & _ & _ & -> & _))).
      rewrite Hs2. by destruct Hs as (_ & _ & -> & _ & _).
    + by rewrite claimable_live by done.
Qed.

(** ** Insertion *)

(** The item can be pushed: its id, its explicit client key and its unique keys are
    free, and its keys can be computed. *)
Record pushable p (item : PushItem) (at_ : option UtcTimestamp) : Prop := mkPushable {
  pb_fresh : pd_items p !! pi_item_id item = None;
  pb_keys : keys_ok (pd_config p) (pending_record item (pd_next_seq p) at_);
  pb_free : keys_free (pd_indexes p) (pi_item_id item) (keys_of (pd_config p) (pending_record item (pd_next_seq p) at_));
  pb_key k : explicit_client_item_key (pi_item_id item) (pi_client_item_key item) = Some k → pd_by_key p !! k = None;
  pb_room : pd_next_seq p < u64_max;
}.

Definition pushed_state p (item : PushItem) (at_ : option UtcTimestamp) : ProjectionData :=
  let rec := pending_record item (pd_next_seq p) at_ in
  let id := pi_item_id item in
  let keys := keys_of (pd_config p) rec in
  mkProjectionData (pd_config p) (<[id := rec]> (pd_items p)) ({[id]} ∪ pd_retained_ids p)
    (pd_leased_ids p) (pd_leased_by_consumer p) (pd_ordinary_leases_by_expiry p)
    (match ir_explicit_key rec with Some key => <[key := id]> (pd_by_key p) | None => pd_by_key p end)
    (if negb (gate_keys_blocked (pd_blocked_gates p) (ir_gate_keys rec))
     then elig_insert (pd_eligible p) rec (pd_items p) (pd_model p) else pd_eligible p)
    (metrics_inc Pending (pd_metrics p)) (wrapping_succ_u64 (pd_next_seq p)) (pd_paused p) (pd_pause_drain_intake p)
    (pd_blocked_gates p) (foldl (λ m key, post key id m) (pd_gate_members p) (ir_gate_keys rec))
    (insert_keys_into id keys (pd_indexes p)) (insert_keys_into id keys (pd_claim_indexes p))
    (<[id := keys]> (pd_framed_index_keys p)) (pd_side_records p) (pd_instance_fences p).

Lemma insert_pending_run p item at_ :
  pushable p item at_ → insert_pending item at_ p = (Ok tt, pushed_state p item at_).
Proof.
  intros [Hfresh [keys Hkeys] _ _ _]. unfold insert_pending, pushed_state. rewrite (keys_of_Ok _ _ _ Hkeys).
  set (rec := pending_record item (pd_next_seq p) at_) in *. run. fold rec. change (ir_item_id rec) with (pi_item_id item).
  rewrite Hfresh. cbn. unfold elig_add. run.
  destruct (negb (gate_keys_blocked (pd_blocked_gates p) (pi_gate_keys item))),
    (explicit_client_item_key (pi_item_id item) (pi_client_item_key item)); run; rewrite Hkeys; reflexivity.
Qed.

(** A client key nobody holds is given to the record. *)
Lemma edits_name_add (m : gmap string ItemId.t) (k : option string) id (row : string → Prop) :
  (∀ x, k = Some x → m !! x = None) → (∀ x, ¬ has_name m id x) → (∀ x, row x ↔ k = Some x) →
  edits (has_name m) (has_name (match k with Some k => <[k := id]> m | None => m end)) id row.
Proof.
  intros Hfree Hno Hrow. unfold edits, has_name in *. destruct k as [k|]; [specialize (Hfree k eq_refl)|].
  - split; [intros x; rewrite Hrow|intros j x Hne]; rewrite lookup_insert_Some; [naive_solver|].
    destruct (decide (k = x)) as [->|]; naive_solver.
  - split; [intros x; rewrite Hrow; naive_solver|done].
Qed.

Lemma absent_rows {X} (has : ItemId.t → X → Prop) items rows id (row : X → Prop) :
  tracks has items rows → items !! id = None → (∀ x, ¬ row x) → edits has has id row.
Proof. intros Ht Hid Hr. split; [|done]. intros x. pose proof (tracks_absent _ _ _ _ x Ht Hid). naive_solver. Qed.

Lemma insert_pending_put p item at_ :
  let id := pi_item_id item in let rec := pending_record item (pd_next_seq p) at_ in
  consistent p → pushable p item at_ → put p (pushed_state p item at_) id rec.
Proof.
  intros id rec Hp [Hfresh Hkeys Hfree Hkey Hroom]. pose proof (co_size p Hp) as Hsize.
  assert (Hseq : wrapping_succ_u64 (pd_next_seq p) = pd_next_seq p + 1) by (apply wrapping_succ_u64_small; lia).
  destruct (not_held_rows rec) as (Hr1 & Hr2 & Hr3); [done|].
  constructor; try done; cbn -[pending_record]; fold rec id.
  - rewrite Hseq, map_size_insert_None by done. lia.
  - by apply edits_id_add.
  - by eapply absent_rows; [apply (co_leased p Hp)|..].
  - split; [apply (co_consumer p Hp)|]. by eapply absent_rows; [apply (co_consumer p Hp)|..].
  - split; [apply (co_expiry p Hp)|]. by eapply absent_rows; [apply (co_expiry p Hp)|..].
  - apply edits_name_add; [done| |].
    + intros x. by eapply tracks_absent; [apply (co_key p Hp)|].
    + intros x. unfold row_key. cbn. naive_solver.
  - apply (elig_filled (pd_items p) _ _ _ (co_elig p Hp)); [done| |done|].
    + intros j k. split; [|naive_solver]. intros Hk. split; [done|]. intros ->. by eapply tracks_absent; [apply (co_elig p Hp)|..].
    + by rewrite claimable_live.
  - rewrite metrics_insert by (done || lia). by rewrite (co_metrics p Hp).
  - split; [apply no_empty_foldl; [intros; by apply no_empty_post|apply (co_gates p Hp)]|].
    destruct (co_gates p Hp) as (_ & _ & Hg).
    assert (Hno : ∀ g, ¬ posted (pd_gate_members p) g id) by (intros g (r & Hr & _)%Hg; subst id; congruence).
    unfold gate_edits. setoid_rewrite posted_foldl_post. cbn. naive_solver.
  - split; [apply shaped_insert, (co_index p Hp)|].
    apply (edits_index_add (pd_config p)); [apply (co_index p Hp)|apply record_declared|done|].
    intros x. pose proof (tracks_absent _ _ _ _ x (proj2 (co_index p Hp)) Hfresh). unfold row_index. naive_solver.
  - split; [apply shaped_insert, (co_claim_index p Hp)|].
    apply (edits_index_add (pd_config p)); [apply (co_claim_index p Hp)|apply record_declared|by apply claim_keys_free|].
    intros x. pose proof (tracks_absent _ _ _ _ x (proj2 (co_claim_index p Hp)) Hfresh). unfold row_claim_index. naive_solver.
  - intros j keys. case_decide as Hd; [subst j; rewrite lookup_insert_eq|by rewrite lookup_insert_ne].
    intros [= <-]. destruct Hkeys as [keys Hk]. by rewrite (keys_of_Ok (pd_config p) rec keys Hk).
Qed.
End steps.
