(* ===== verification/ProjectionEdits.v ===== *)
(** Steps of the projection that edit, replace or remove a record, and the gates. *)
From S2P Require Import Prelude Identity Priority Metadata Lifecycle CreateQueue Engine JsonEquality Ordered IndexFields Eligibility Projection ProjectionFacts ProjectionSteps.

Implicit Types (id : ItemId.t) (r rec old : ItemRecord) (items : gmap ItemId.t ItemRecord)
  (indexes : gmap string SecondaryIndex).

#[local] Arguments elig_token : simpl never.
#[local] Arguments gate_keys_blocked : simpl never.
#[local] Arguments updated_record : simpl never.
#[local] Arguments replace_gate_memberships : simpl never.
#[local] Arguments explicit_client_item_key : simpl never.

Section edits.
Context {N : Type} `{JsonNumber N, AxonIndex N, JsonBuild N, EntityCodecLaws N}.
Implicit Types (p : ProjectionData) (c : ProjectionConfig) (u : UpdateFieldsCommand (N:=N)).

(** ** Rows of a record whose keys change *)

Lemma elem_of_keys_minus (keys other : list (string * bytes)) x : x ∈ keys_minus keys other ↔ x ∈ keys ∧ x ∉ other.
Proof. unfold keys_minus. rewrite list_elem_of_filter. tauto. Qed.

(** Only the difference is written, or nothing when the keys stay. *)
Lemma edits_rekey c indexes id (old new ko kn : list (string * bytes)) (row : string * bytes → Prop) :
  shaped c indexes → (∀ x, has_key indexes id x ↔ x ∈ old) → (∀ x, x ∈ new → is_Some (empty_indexes c !! x.1)) →
  keys_free indexes id new → (∀ x, row x ↔ x ∈ new) → (ko = old ∧ kn = new) ∨ (ko = kn ∧ new = old) →
  let indexes' := insert_keys_into id (keys_minus kn ko) (remove_keys_from id (keys_minus ko kn) indexes) in
  shaped c indexes' ∧ edits (has_key indexes) (has_key indexes') id row.
Proof.
  intros Hs Hat Hd Hf Hrow Hk. split; [by apply shaped_insert, shaped_remove|].
  assert (Hsub : ∀ x, x ∈ keys_minus kn ko → x ∈ new).
  { intros x [? ?]%elem_of_keys_minus. destruct Hk as [[-> ->] | [-> ->]]; done. }
  apply (edits_index c); [done|by auto| |].
  - intros x j Hx. by apply Hf, Hsub.
  - intros x. rewrite Hrow, Hat, !elem_of_keys_minus. destruct Hk as [[-> ->] | [-> ->]]; [|tauto].
    destruct (decide (x ∈ old)), (decide (x ∈ new)); tauto.
Qed.

Lemma index_at p id rec x : consistent p → pd_items p !! id = Some rec → live rec →
  has_key (pd_indexes p) id x ↔ x ∈ keys_of (pd_config p) rec.
Proof. intros Hp Hrec Hl. rewrite (tracks_at _ _ _ _ _ x (proj2 (co_index p Hp)) Hrec). unfold row_index. tauto. Qed.

Lemma claim_index_at p id rec x : consistent p → pd_items p !! id = Some rec → live rec →
  has_key (pd_claim_indexes p) id x ↔ ir_state rec = Pending ∧ x ∈ keys_of (pd_config p) rec.
Proof. intros Hp Hrec Hl. rewrite (tracks_at _ _ _ _ _ x (proj2 (co_claim_index p Hp)) Hrec). unfold row_claim_index. tauto. Qed.

(** The old row goes and the new one comes, or neither changes. *)
Lemma edits_reschedule p id old r (b1 b2 : bool) :
  consistent p → pd_items p !! id = Some old → ir_item_id r = id →
  (b1 = claimable (pd_blocked_gates p) old ∧ b2 = claimable (pd_blocked_gates p) r) ∨
  (b1 = false ∧ b2 = false ∧ claimable (pd_blocked_gates p) r = claimable (pd_blocked_gates p) old ∧
   elig_key r (pd_model p) = elig_key old (pd_model p)) →
  let e := if b1 then elig_remove (pd_eligible p) (elig_token old (pd_model p)) else pd_eligible p in
  edits (has_elig (pd_eligible p))
    (has_elig (if b2 then elig_insert e r (<[id := r]> (pd_items p)) (pd_model p) else e)) id
    (row_elig (pd_blocked_gates p) (pd_model p) r).
Proof.
  intros Hp Hold Hid [[-> ->] | (-> & -> & Hc & Hk)]; cbn zeta.
  - apply (elig_filled (pd_items p) _ _ _ (co_elig p Hp)); [done| | |done].
    + by apply (elig_ids p id old _ Hp Hold).
    + intros j Hne. by rewrite lookup_insert_ne.
  - by apply (elig_row_kept _ _ _ _ Hp Hold).
Qed.

Lemma gates_rekey p id old r :
  consistent p → pd_items p !! id = Some old → live old →
  let members := replace_gate_memberships id (ir_gate_keys old) (ir_gate_keys r) (pd_gate_members p) in
  no_empty members ∧ gate_edits (pd_gate_members p) members id r.
Proof.
  intros Hp Hold Hl. split; [apply no_empty_replace_gates, (co_gates p Hp)|].
  pose proof (λ g, gates_at p id old g Hp Hold Hl) as Hat. unfold gate_edits. setoid_rewrite posted_replace_gates.
  split_and!.
  - intros _ g Hg. rewrite Hat. destruct (decide (g ∈ ir_gate_keys old)); tauto.
  - intros g. rewrite Hat. destruct (decide (g ∈ ir_gate_keys r)); tauto.
  - intros g j Hne. tauto.
Qed.

(** The keys are computed the same way from the parts and from the record. *)
Lemma record_index_keys_entity c fields index_fields entity :
  record_index_keys c fields index_fields entity =
  record_index_keys c fields index_fields (if bool_decide (index_fields = ∅) then entity else None).
Proof. unfold record_index_keys. by destruct (bool_decide (index_fields = ∅)). Qed.

Lemma entity_value_pack entity : json_from_slice <$> pack_entity_document entity = entity.
Proof. unfold pack_entity_document. destruct entity; cbn; [|done]. by rewrite from_slice_to_vec. Qed.

(** ** Field updates *)

Definition index_inputs_changed (u : UpdateFieldsCommand (N:=N)) : bool :=
  bool_decide (is_Some (uf_set_fields u)) || negb (bool_decide (uf_field_ops u = ∅)) ||
  bool_decide (is_Some (uf_set_entity_document u)).
Definition eligibility_changed (u : UpdateFieldsCommand (N:=N)) : bool :=
  sched_set (uf_set_priority u) || sched_set (uf_set_not_before u) || bool_decide (is_Some (uf_set_gate_keys u)).

(** The record an update leads to. *)
Definition update_target c (ta : option UtcTimestamp) (u : UpdateFieldsCommand (N:=N)) rec : EngineResult ItemRecord :=
  index_fields ← match uf_set_entity_document u with
                 | Some doc => extract_index_fields_from_entity (pc_typed_index_specs c) doc
                 | None => Ok (ir_index_fields rec)
                 end;
  Ok (updated_record rec u ta (apply_field_ops (uf_field_ops u) (default (ir_fields rec) (uf_set_fields u))) index_fields).

Ltac record_cases := repeat (case_match; cbn).

Lemma updated_record_static rec u ta fields ix :
  let r := updated_record rec u ta fields ix in
  ir_item_id r = ir_item_id rec ∧ ir_explicit_key r = ir_explicit_key rec ∧ ir_superseded r = ir_superseded rec ∧
  ir_state r = ir_state rec ∧ ir_lease_token r = ir_lease_token rec ∧ ir_lease_expires_at r = ir_lease_expires_at rec ∧
  ir_lease_is_cohort r = ir_lease_is_cohort rec ∧ ir_gate_keys r = default (ir_gate_keys rec) (uf_set_gate_keys u) ∧
  ir_fields r = fields ∧ ir_index_fields r = ix ∧
  ir_entity_document r = match uf_set_entity_document u with
                         | Some doc => pack_entity_document (Some doc) | None => ir_entity_document rec end.
Proof. cbn zeta. unfold updated_record. by record_cases. Qed.

Lemma updated_record_schedule rec u ta fields ix model :
  eligibility_changed u = false →
  ir_gate_keys (updated_record rec u ta fields ix) = ir_gate_keys rec ∧
  elig_key (updated_record rec u ta fields ix) model = elig_key rec model.
Proof.
  unfold eligibility_changed, updated_record. destruct (uf_set_priority u), (uf_set_not_before u); try done.
  destruct (uf_set_gate_keys u); [done|]. intros _. by record_cases.
Qed.

Lemma apply_field_ops_empty fields : apply_field_ops ∅ fields = fields.
Proof. done. Qed.

(** The keys the update computes are those of the record it leaves. *)
Lemma update_keys c ta u rec ix :
  let fields := apply_field_ops (uf_field_ops u) (default (ir_fields rec) (uf_set_fields u)) in
  let r := updated_record rec u ta fields ix in
  record_index_keys c fields ix (match uf_set_entity_document u with Some doc => Some doc | None => entity_value rec end) =
  record_entity_index_keys c r.
Proof.
  cbn zeta. set (fields := apply_field_ops _ _).
  destruct (updated_record_static rec u ta fields ix) as (_ & _ & _ & _ & _ & _ & _ & _ & Hf & Hi & He).
  unfold record_entity_index_keys. rewrite Hf, Hi, record_index_keys_entity. do 2 f_equal.
  unfold entity_value. rewrite He. destruct (uf_set_entity_document u); [by rewrite entity_value_pack|done].
Qed.

Lemma update_keys_same c ta u rec :
  index_inputs_changed u = false →
  record_entity_index_keys c
    (updated_record rec u ta (apply_field_ops (uf_field_ops u) (default (ir_fields rec) (uf_set_fields u))) (ir_index_fields rec)) =
  record_entity_index_keys c rec.
Proof.
  unfold index_inputs_changed. intros Hc. apply orb_false_iff in Hc as [[Hf Hops]%orb_false_iff He].
  apply bool_decide_eq_false in Hf, He. apply negb_false_iff, bool_decide_eq_true in Hops.
  apply eq_None_not_Some in Hf, He. rewrite Hops, Hf, apply_field_ops_empty. cbn.
  destruct (updated_record_static rec u ta (ir_fields rec) (ir_index_fields rec)) as (_ & _ & _ & _ & _ & _ & _ & _ & Hf' & Hi' & He').
  rewrite He in He'. unfold record_entity_index_keys, entity_value. by rewrite Hf', Hi', He'.
Qed.

Definition rekey id (ko kn : list (string * bytes)) (indexes : gmap string SecondaryIndex) : gmap string SecondaryIndex :=
  insert_keys_into id (keys_minus kn ko) (remove_keys_from id (keys_minus ko kn) indexes).

Definition updated_state p u rec r : ProjectionData :=
  let id := uf_item_id u in
  let ko := if index_inputs_changed u then keys_of (pd_config p) rec else [] in
  let kn := if index_inputs_changed u then keys_of (pd_config p) r else [] in
  let open rec := negb (gate_keys_blocked (pd_blocked_gates p) (ir_gate_keys rec)) in
  let e := if eligibility_changed u && is_pending (ir_state rec) && open rec
           then elig_remove (pd_eligible p) (elig_token rec (pd_model p)) else pd_eligible p in
  mkProjectionData (pd_config p) (<[id := r]> (pd_items p)) (pd_retained_ids p)
    (pd_leased_ids p) (pd_leased_by_consumer p) (pd_ordinary_leases_by_expiry p) (pd_by_key p)
    (if eligibility_changed u && is_pending (ir_state rec) && open r
     then elig_insert e r (<[id := r]> (pd_items p)) (pd_model p) else e)
    (pd_metrics p) (pd_next_seq p) (pd_paused p) (pd_pause_drain_intake p)
    (pd_blocked_gates p) (replace_gate_memberships id (ir_gate_keys rec) (ir_gate_keys r) (pd_gate_members p))
    (rekey id ko kn (pd_indexes p))
    (if is_pending (ir_state rec) then rekey id ko kn (pd_claim_indexes p) else pd_claim_indexes p)
    (if negb (bool_decide (ko = [])) || negb (bool_decide (kn = []))
     then <[id := kn]> (pd_framed_index_keys p) else pd_framed_index_keys p) (pd_side_records p) (pd_instance_fences p).

Lemma apply_update_fields_run p ta u rec r :
  consistent p → pd_items p !! uf_item_id u = Some rec → live rec → update_target (pd_config p) ta u rec = Ok r →
  keys_ok (pd_config p) r → apply_update_fields ta u p = (Ok tt, updated_state p u rec r).
Proof.
  intros Hp Hrec Hl (ix & Hix & [= <-])%bind_Ok [kn Hkn]. destruct (co_keys p Hp _ _ Hrec) as [ko Hko].
  unfold apply_update_fields. run. rewrite Hrec. cbn. rewrite Hix.
  rewrite (update_keys (pd_config p) ta u rec ix), Hko, Hkn.
  set (r := updated_record _ _ _ _ _) in *. unfold updated_state. rewrite (keys_of_Ok _ _ _ Hko), (keys_of_Ok _ _ _ Hkn).
  fold (index_inputs_changed u) (eligibility_changed u).
  assert (Hg : ir_gate_keys r = default (ir_gate_keys rec) (uf_set_gate_keys u)) by apply updated_record_static.
  rewrite <-Hg, Hl. unfold rekey. clearbody r. clear Hg Hix Hkn Hko.
  set (b1 := negb (gate_keys_blocked (pd_blocked_gates p) (ir_gate_keys rec))).
  set (b2 := negb (gate_keys_blocked (pd_blocked_gates p) (ir_gate_keys r))).
  destruct (index_inputs_changed u), (is_pending (ir_state rec)), (eligibility_changed u); cbn [andb]; run;
    unfold elig_drop, elig_add; run; clearbody b1 b2; destruct b1, b2; run;
    first [reflexivity | destruct (negb (bool_decide (ko = [])) || negb (bool_decide (kn = []))); reflexivity].
Qed.

(** The lease and key rows of a record with the same lease and keys. *)
Definition same_lease old r : Prop :=
  ir_state r = ir_state old ∧ ir_superseded r = ir_superseded old ∧ ir_lease_token r = ir_lease_token old ∧
  ir_lease_expires_at r = ir_lease_expires_at old ∧ ir_lease_is_cohort r = ir_lease_is_cohort old.

Lemma same_lease_rows old r :
  same_lease old r → (∀ x, row_leased r x ↔ row_leased old x) ∧ (∀ x, row_consumer r x ↔ row_consumer old x) ∧
  (∀ x, row_expiry r x ↔ row_expiry old x).
Proof.
  intros (Hs & Hsup & Ht & He & Hc). unfold row_leased, row_consumer, row_expiry, held, live. by rewrite Hs, Hsup, Ht, He, Hc.
Qed.

Lemma updated_index_rows p id rec r (b : bool) :
  consistent p → pd_items p !! id = Some rec → live rec → live r → ir_state r = ir_state rec →
  keys_free (pd_indexes p) id (keys_of (pd_config p) r) →
  (b = false → record_entity_index_keys (pd_config p) r = record_entity_index_keys (pd_config p) rec) →
  let ko := if b then keys_of (pd_config p) rec else [] in
  let kn := if b then keys_of (pd_config p) r else [] in
  (shaped (pd_config p) (rekey id ko kn (pd_indexes p)) ∧
   edits (has_key (pd_indexes p)) (has_key (rekey id ko kn (pd_indexes p))) id (row_index (pd_config p) r)) ∧
  let claims := if is_pending (ir_state rec) then rekey id ko kn (pd_claim_indexes p) else pd_claim_indexes p in
  shaped (pd_config p) claims ∧
  edits (has_key (pd_claim_indexes p)) (has_key claims) id (row_claim_index (pd_config p) r).
Proof.
  intros Hp Hrec Hl Hlr Hs Hf Hsame ko kn.
  assert (Hk : (ko = keys_of (pd_config p) rec ∧ kn = keys_of (pd_config p) r) ∨
    (ko = kn ∧ keys_of (pd_config p) r = keys_of (pd_config p) rec)).
  { subst ko kn. destruct b; [by left|right]. split; [done|]. unfold keys_of. by rewrite Hsame. }
  split.
  - eapply edits_rekey; [apply (co_index p Hp)|intros x; by apply index_at|apply record_declared|done| |done].
    intros x. unfold row_index. tauto.
  - cbn zeta. destruct (is_pending (ir_state rec)) eqn:Hpend.
    + apply is_pending_spec in Hpend.
      eapply edits_rekey; [apply (co_claim_index p Hp)| |apply record_declared|by apply claim_keys_free| |done].
      * intros x. rewrite claim_index_at by done. tauto.
      * intros x. unfold row_claim_index. rewrite Hs. tauto.
    + split; [apply (co_claim_index p Hp)|]. apply edits_keep. intros x. rewrite (claim_index_at p id rec) by done.
      unfold row_claim_index. rewrite Hs, <-is_pending_spec, Hpend. naive_solver.
Qed.

Lemma updated_framed p p' id rec r (b : bool) :
  consistent p → pd_items p !! id = Some rec → keys_ok (pd_config p) r →
  (b = false → record_entity_index_keys (pd_config p) r = record_entity_index_keys (pd_config p) rec) →
  let ko := if b then keys_of (pd_config p) rec else [] in
  let kn := if b then keys_of (pd_config p) r else [] in
  pd_framed_index_keys p' = (if negb (bool_decide (ko = [])) || negb (bool_decide (kn = []))
    then <[id := kn]> (pd_framed_index_keys p) else pd_framed_index_keys p) →
  ∀ j keys, pd_framed_index_keys p' !! j = Some keys →
  if decide (j = id) then record_entity_index_keys (pd_config p) r = Ok keys else pd_framed_index_keys p !! j = Some keys.
Proof.
  intros Hp Hrec [kr Hkr] Hsame ko kn Hf j keys. rewrite Hf. subst ko kn. destruct b; [|by apply (put_framed p p id rec r Hp Hrec (Hsame eq_refl)); left].
  rewrite (keys_of_Ok _ _ _ Hkr).
  destruct (negb (bool_decide (keys_of (pd_config p) rec = [])) || negb (bool_decide (kr = []))) eqn:Hb.
  - case_decide as Hd; [subst j; rewrite lookup_insert_eq; by intros [= <-]|by rewrite lookup_insert_ne].
  - intros Hj. case_decide as Hd; [|done]. subst j. apply (co_framed p Hp) in Hj as (r' & Hr' & Hk').
    replace r' with rec in Hk' by congruence. rewrite (keys_of_Ok _ _ _ Hk') in Hb.
    apply orb_false_iff in Hb as [H1' H2']. apply negb_false_iff, bool_decide_eq_true in H1', H2'. congruence.
Qed.

Lemma apply_update_fields_put p ta u rec r :
  let id := uf_item_id u in
  consistent p → pd_items p !! id = Some rec → live rec → update_target (pd_config p) ta u rec = Ok r →
  keys_ok (pd_config p) r → keys_free (pd_indexes p) id (keys_of (pd_config p) r) →
  puts (apply_update_fields ta u) p id r.
Proof.
  intros id Hp Hrec Hl Hu Hk Hf. exists (updated_state p u rec r). split; [by apply apply_update_fields_run|]. split; [|done].
  apply bind_Ok in Hu as (ix & Hix & [= <-]). set (fields := apply_field_ops _ _) in *.
  pose proof (updated_record_static rec u ta fields ix) as Hst. pose proof (updated_record_schedule rec u ta fields ix (pd_model p)) as Hsch.
  set (r := updated_record rec u ta fields ix) in *.
  destruct Hst as (Hid & Hkey & Hsup & Hs & Htok & Hexp & Hco & Hg & _ & _ & _).
  destruct (same_lease_rows rec r) as (Hl1 & Hl2 & Hl3); [done|].
  assert (Hlr : live r) by (unfold live in *; congruence).
  assert (Hids : ir_item_id r = id) by (rewrite Hid; by apply (co_ids p Hp)).
  assert (Hsame : index_inputs_changed u = false →
    record_entity_index_keys (pd_config p) r = record_entity_index_keys (pd_config p) rec).
  { intros Hc. subst r. replace ix with (ir_index_fields rec); [by apply update_keys_same|].
    unfold index_inputs_changed in Hc. destruct (uf_set_entity_document u); [by rewrite orb_true_r in Hc|congruence]. }
  constructor; try done; cbn -[rekey]; fold id.
  - rewrite map_size_insert_Some by (by eexists). apply (co_size p Hp).
  - apply (edits_same _ _ _ _ _ _ (co_retained p Hp) Hrec). intros []. unfold row_retained. tauto.
  - by apply (edits_same _ _ _ _ _ _ (co_leased p Hp) Hrec).
  - split; [apply (co_consumer p Hp)|]. by apply (edits_same _ _ _ _ _ _ (proj2 (co_consumer p Hp)) Hrec).
  - split; [apply (co_expiry p Hp)|]. by apply (edits_same _ _ _ _ _ _ (proj2 (co_expiry p Hp)) Hrec).
  - apply (edits_same _ _ _ _ _ _ (co_key p Hp) Hrec). intros x. unfold row_key. rewrite Hkey. tauto.
  - apply (edits_reschedule p id rec r _ _ Hp Hrec Hids). rewrite !claimable_live, Hs by done.
    destruct (eligibility_changed u); cbn; [by left|right]. destruct Hsch as [Hsg Hsk]; [done|]. by rewrite Hsg.
  - rewrite (metrics_same _ _ _ _ Hrec) by done. apply (co_metrics p Hp).
  - by apply gates_rekey.
  - by apply (updated_index_rows p id rec r).
  - by apply (updated_index_rows p id rec r).
  - by apply (updated_framed p (updated_state p u rec r) id rec r (index_inputs_changed u)).
Qed.

(** ** Removal *)

Definition purged_state p rec : ProjectionData :=
  let id := ir_item_id rec in
  let keys := keys_of (pd_config p) rec in
  let leased := is_leased (ir_state rec) in
  mkProjectionData (pd_config p) (delete id (pd_items p)) (pd_retained_ids p ∖ {[id]})
    (if leased then pd_leased_ids p ∖ {[id]} else pd_leased_ids p)
    (if leased then unpost_opt (ir_lease_token rec) id (pd_leased_by_consumer p) else pd_leased_by_consumer p)
    (if leased then unpost_opt (ir_lease_expires_at rec) id (pd_ordinary_leases_by_expiry p)
     else pd_ordinary_leases_by_expiry p)
    (match ir_explicit_key rec with Some key => delete key (pd_by_key p) | None => pd_by_key p end)
    (if is_pending (ir_state rec) then elig_remove (pd_eligible p) (elig_token rec (pd_model p)) else pd_eligible p)
    (if ir_superseded rec then pd_metrics p else metrics_dec (ir_state rec) (pd_metrics p))
    (pd_next_seq p) (pd_paused p) (pd_pause_drain_intake p)
    (pd_blocked_gates p) (replace_gate_memberships id (ir_gate_keys rec) [] (pd_gate_members p))
    (remove_keys_from id keys (pd_indexes p)) (remove_keys_from id keys (pd_claim_indexes p))
    (delete id (pd_framed_index_keys p)) (pd_side_records p) (pd_instance_fences p).

Lemma purge_item_run p id rec :
  consistent p → pd_items p !! id = Some rec → purge_item id p = (Ok tt, purged_state p rec).
Proof.
  intros Hp Hrec. pose proof (co_ids p Hp id rec Hrec) as Hid. destruct (co_keys p Hp id rec Hrec) as [keys Hk].
  unfold purge_item, remove_record, purged_state. run. rewrite Hrec. cbn. rewrite Hid, (keys_of_Ok _ _ _ Hk).
  destruct (pd_framed_index_keys p !! id) as [ks|] eqn:Hf.
  - destruct (co_framed p Hp id ks Hf) as (r & Hr & Hkr). replace ks with keys by congruence.
    destruct (ir_superseded rec), (ir_explicit_key rec), (ir_state rec); run; unfold elig_drop; run;
      rewrite ?drop_lease_rows_run; reflexivity.
  - rewrite (delete_id _ _ Hf).
    destruct (ir_superseded rec), (ir_explicit_key rec), (ir_state rec); run; unfold elig_drop; run;
      rewrite ?drop_lease_rows_run, Hk; reflexivity.
Qed.

Lemma edits_name_remove (m : gmap string ItemId.t) (k : option string) id :
  (∀ x, has_name m id x → k = Some x) → (∀ x j, k = Some x → has_name m j x → j = id) →
  edits (has_name m) (has_name (match k with Some k => delete k m | None => m end)) id (λ _, False).
Proof.
  intros Hk Hfree. unfold edits, has_name in *. destruct k as [k|]; [|naive_solver].
  setoid_rewrite lookup_delete_Some. naive_solver.
Qed.

Lemma gates_left p id rec :
  consistent p → pd_items p !! id = Some rec →
  let members := replace_gate_memberships id (ir_gate_keys rec) [] (pd_gate_members p) in
  no_empty members ∧ edits (has_row (pd_gate_members p)) (has_row members) id (λ _, False).
Proof.
  intros Hp Hrec. split; [apply no_empty_replace_gates, (co_gates p Hp)|]. destruct (co_gates p Hp) as (_ & _ & Hg).
  unfold edits, has_row. setoid_rewrite posted_replace_gates. split; [|set_solver].
  intros g. split; [|done]. intros [[_ [Hn _]]|[Hpo Hn]]; [set_solver|]. apply Hn. apply Hg in Hpo as (r & Hr & Hgr).
  assert (r = rec) as -> by congruence. set_solver.
Qed.

Lemma unleased_rows p id rec :
  consistent p → pd_items p !! id = Some rec → ir_state rec ≠ Leased →
  (∀ x, ¬ has_id (pd_leased_ids p) id x) ∧ (∀ x, ¬ has_row (pd_leased_by_consumer p) id x) ∧
  (∀ x, ¬ has_row (pd_ordinary_leases_by_expiry p) id x).
Proof.
  intros Hp Hrec Hs. destruct (not_held_rows rec Hs) as (H1' & H2' & H3'). split_and!; intros x.
  - by rewrite (tracks_at _ _ _ _ _ x (co_leased p Hp) Hrec).
  - by rewrite (tracks_at _ _ _ _ _ x (proj2 (co_consumer p Hp)) Hrec).
  - by rewrite (tracks_at _ _ _ _ _ x (proj2 (co_expiry p Hp)) Hrec).
Qed.

Lemma edits_none {X} (has : ItemId.t → X → Prop) id : (∀ x, ¬ has id x) → edits has has id (λ _, False).
Proof. intros Hn. apply edits_keep. intros x. split; [apply Hn|done]. Qed.

(** Removing a record whose client key no other item holds. *)
Lemma purge_item_dropped p id rec :
  consistent p → pd_items p !! id = Some rec →
  (∀ k j, ir_explicit_key rec = Some k → pd_by_key p !! k = Some j → j = id) → dropped p (purged_state p rec) id.
Proof.
  intros Hp Hrec Hkey. pose proof (co_ids p Hp id rec Hrec) as Hid. pose proof (co_size p Hp) as Hsize.
  assert (Hnl : is_leased (ir_state rec) = false → ir_state rec ≠ Leased) by (intros Hf Hl; by rewrite Hl in Hf).
  pose proof (unleased_rows p id rec Hp Hrec) as Hun.
  constructor; cbn; rewrite ?Hid; try done.
  - apply edits_id_remove. tauto.
  - destruct (is_leased (ir_state rec)); [apply edits_id_remove; tauto|]. apply edits_none. naive_solver.
  - destruct (is_leased (ir_state rec)).
    + split; [apply no_empty_unpost_opt, (co_consumer p Hp)|]. apply edits_clear; [intros x; by apply consumer_rows|tauto].
    + split; [apply (co_consumer p Hp)|]. apply edits_none. naive_solver.
  - destruct (is_leased (ir_state rec)).
    + split; [apply no_empty_unpost_opt, (co_expiry p Hp)|]. apply edits_clear; [intros x; by apply expiry_rows|tauto].
    + split; [apply (co_expiry p Hp)|]. apply edits_none. naive_solver.
  - apply edits_name_remove; [|done]. intros x. rewrite (tracks_at _ _ _ _ _ x (co_key p Hp) Hrec). by intros [_ ?].
  - pose proof (elig_ids p id rec (is_pending (ir_state rec)) Hp Hrec) as He.
    assert (Hc : claimable (pd_blocked_gates p) rec = true → is_pending (ir_state rec) = true)
      by (intros [-> _]%claimable_pending; done).
    split; [intros k; rewrite He by done; tauto|intros j k Hne; rewrite He by done; tauto].
  - rewrite (metrics_delete _ _ rec Hrec), (co_metrics p Hp). done.
  - by apply gates_left.
  - split; [apply shaped_remove, (co_index p Hp)|]. apply edits_index_remove. intros x.
    rewrite (tracks_at _ _ _ _ _ x (proj2 (co_index p Hp)) Hrec). unfold row_index. tauto.
  - split; [apply shaped_remove, (co_claim_index p Hp)|]. apply edits_index_remove. intros x.
    rewrite (tracks_at _ _ _ _ _ x (proj2 (co_claim_index p Hp)) Hrec). unfold row_claim_index. tauto.
  - intros j keys [Hne Hj]%lookup_delete_Some. done.
Qed.

(** ** Resolved mutations *)

Section mutate.
Context (values : ResolvedItemValues (N:=N)) (keeps : bool) (ta : option UtcTimestamp) (tp : option CommandPosition).

Definition lease_ends old : bool :=
  is_leased (ir_state old) && (rv_invalidate_lease values || negb (is_leased (rv_state values))).
Definition mutate_target old : ItemRecord := mutated_record old values keeps (lease_ends old) ta tp.

Lemma mutate_target_static old :
  let r := mutate_target old in
  ir_item_id r = ir_item_id old ∧ ir_explicit_key r = ir_explicit_key old ∧ ir_superseded r = ir_superseded old ∧
  ir_state r = rv_state values ∧ ir_gate_keys r = rv_gate_keys values ∧ ir_fields r = rv_fields values ∧
  ir_index_fields r = rv_index_fields values ∧ ir_entity_document r = pack_entity_document (rv_entity_document values) ∧
  ir_lease_token r = (if lease_ends old then None else ir_lease_token old) ∧
  ir_lease_expires_at r = (if lease_ends old then None else ir_lease_expires_at old) ∧
  ir_lease_is_cohort r = (if lease_ends old then false else ir_lease_is_cohort old).
Proof. cbn zeta. unfold mutate_target, mutated_record. by destruct keeps, (lease_ends old), (is_terminal (rv_state values)). Qed.

Lemma mutate_keys c old :
  record_index_keys c (rv_fields values) (rv_index_fields values) (rv_entity_document values) =
  record_entity_index_keys c (mutate_target old).
Proof.
  destruct (mutate_target_static old) as (_ & _ & _ & _ & _ & Hf & Hi & He & _).
  unfold record_entity_index_keys, entity_value. by rewrite Hf, Hi, He, entity_value_pack, record_index_keys_entity.
Qed.

Definition mutated_state p id old : ProjectionData :=
  let r := mutate_target old in
  let ko := keys_of (pd_config p) old in let kn := keys_of (pd_config p) r in
  let ends := lease_ends old in
  let expiry := if ir_lease_is_cohort old then None else ir_lease_expires_at old in
  let e := if claimable (pd_blocked_gates p) old
           then elig_remove (pd_eligible p) (elig_token old (pd_model p)) else pd_eligible p in
  let claims := if is_pending (ir_state old) && negb (ir_superseded old)
                then remove_keys_from id ko (pd_claim_indexes p) else pd_claim_indexes p in
  mkProjectionData (pd_config p) (<[id := r]> (pd_items p)) (pd_retained_ids p)
    (if ends then pd_leased_ids p ∖ {[id]} else pd_leased_ids p)
    (if ends then unpost_opt (ir_lease_token old) id (pd_leased_by_consumer p) else pd_leased_by_consumer p)
    (if ends then unpost_opt expiry id (pd_ordinary_leases_by_expiry p) else pd_ordinary_leases_by_expiry p)
    (pd_by_key p)
    (if claimable (pd_blocked_gates p) r then elig_insert e r (<[id := r]> (pd_items p)) (pd_model p) else e)
    (metrics_transition (ir_state old) (rv_state values) (pd_metrics p)) (pd_next_seq p) (pd_paused p)
    (pd_pause_drain_intake p) (pd_blocked_gates p)
    (replace_gate_memberships id (ir_gate_keys old) (rv_gate_keys values) (pd_gate_members p))
    (rekey id ko kn (pd_indexes p))
    (if is_pending (rv_state values) then insert_keys_into id kn claims else claims)
    (<[id := kn]> (pd_framed_index_keys p)) (pd_side_records p) (pd_instance_fences p).

Lemma replace_values_run p id old :
  consistent p → pd_items p !! id = Some old → keys_ok (pd_config p) (mutate_target old) →
  replace_values id values keeps ta tp p = (Ok tt, mutated_state p id old).
Proof.
  intros Hp Hold [kn Hkn]. destruct (co_keys p Hp _ _ Hold) as [ko Hko].
  unfold replace_values. run. rewrite Hold. cbn. rewrite Hko. cbn.
  rewrite (mutate_keys (pd_config p) old), Hkn. fold (lease_ends old). fold (mutate_target old).
  unfold mutated_state. rewrite (keys_of_Ok _ _ _ Hko), (keys_of_Ok _ _ _ Hkn).
  generalize (mutate_target old) as r. clear. intros r. unfold rekey.
  set (b1 := claimable (pd_blocked_gates p) old). set (b2 := claimable (pd_blocked_gates p) r).
  set (b3 := is_pending (ir_state old) && negb (ir_superseded old)). set (b4 := lease_ends old).
  set (expiry := if ir_lease_is_cohort old then None else ir_lease_expires_at old). clearbody b1 b2 b3 b4 expiry.
  destruct b1, b4; unfold elig_drop, elig_add; run; rewrite ?drop_lease_rows_run;
    destruct b3, (is_pending (rv_state values)), b2; reflexivity.
Qed.

(** The lease rows after a mutation that does not turn an unleased record into a leased one. *)
Lemma mutated_lease_rows p id old :
  consistent p → pd_items p !! id = Some old → (rv_state values = Leased → ir_state old = Leased) →
  let r := mutate_target old in let p' := mutated_state p id old in
  edits (has_id (pd_leased_ids p)) (has_id (pd_leased_ids p')) id (row_leased r) ∧
  (no_empty (pd_leased_by_consumer p') ∧
   edits (has_row (pd_leased_by_consumer p)) (has_row (pd_leased_by_consumer p')) id (row_consumer r)) ∧
  no_empty (pd_ordinary_leases_by_expiry p') ∧
  edits (has_row (pd_ordinary_leases_by_expiry p)) (has_row (pd_ordinary_leases_by_expiry p')) id (row_expiry r).
Proof.
  intros Hp Hold Hnl r p'. destruct (mutate_target_static old) as (_ & _ & Hsup & Hst & _ & _ & _ & _ & Htok & Hexp & Hco).
  subst p'. fold r in Hsup, Hst, Htok, Hexp, Hco. cbn. destruct (lease_ends old) eqn:Hends.
  - split_and!.
    + apply edits_id_remove. unfold row_leased. rewrite Htok. intros [_ []]. done.
    + apply no_empty_unpost_opt, (co_consumer p Hp).
    + apply edits_clear; [intros x; by apply consumer_rows|]. intros x [_ Hx]. congruence.
    + apply no_empty_unpost_opt, (co_expiry p Hp).
    + apply edits_clear; [|intros x (_ & _ & Hx); congruence]. intros x Hx. pose proof Hx as Hx2.
      apply (tracks_at _ _ _ _ _ x (proj2 (co_expiry p Hp)) Hold) in Hx as (_ & -> & Hx). done.
  - destruct (decide (ir_state old = Leased)) as [Hl|Hl].
    + assert (Hs : same_lease old r).
      { split_and!; [|done..]. rewrite Hst, Hl. unfold lease_ends in Hends. rewrite Hl in Hends.
        apply orb_false_iff in Hends as [_ Hends]. apply negb_false_iff in Hends. by apply is_leased_spec. }
      destruct (same_lease_rows old r Hs) as (Hl1 & Hl2 & Hl3). split_and!.
      * by apply (edits_same _ _ _ _ _ _ (co_leased p Hp) Hold).
      * apply (co_consumer p Hp).
      * by apply (edits_same _ _ _ _ _ _ (proj2 (co_consumer p Hp)) Hold).
      * apply (co_expiry p Hp).
      * by apply (edits_same _ _ _ _ _ _ (proj2 (co_expiry p Hp)) Hold).
    + destruct (unleased_rows p id old Hp Hold Hl) as (Ho1 & Ho2 & Ho3).
      destruct (not_held_rows r) as (Hr1 & Hr2 & Hr3); [by rewrite Hst; auto|].
      split_and!; [|apply (co_consumer p Hp)| |apply (co_expiry p Hp)|]; apply edits_keep; intros x.
      * specialize (Ho1 x). specialize (Hr1 x). tauto.
      * specialize (Ho2 x). specialize (Hr2 x). tauto.
      * specialize (Ho3 x). specialize (Hr3 x). tauto.
Qed.

Lemma mutated_claim_rows p id old :
  consistent p → pd_items p !! id = Some old → live old →
  keys_free (pd_indexes p) id (keys_of (pd_config p) (mutate_target old)) →
  let claims := pd_claim_indexes (mutated_state p id old) in
  shaped (pd_config p) claims ∧
  edits (has_key (pd_claim_indexes p)) (has_key claims) id (row_claim_index (pd_config p) (mutate_target old)).
Proof.
  intros Hp Hold Hl Hf. destruct (mutate_target_static old) as (_ & _ & Hsup & Hst & _).
  set (r := mutate_target old) in *. set (removed := if is_pending (ir_state old) then keys_of (pd_config p) old else []).
  set (added := if is_pending (rv_state values) then keys_of (pd_config p) r else []).
  assert (Hcl : pd_claim_indexes (mutated_state p id old) = insert_keys_into id added (remove_keys_from id removed (pd_claim_indexes p))).
  { cbn. fold r. subst removed added. rewrite Hl. by destruct (is_pending (ir_state old)), (is_pending (rv_state values)). }
  cbn zeta. rewrite Hcl. split; [apply shaped_insert, shaped_remove, (co_claim_index p Hp)|].
  assert (Hin : ∀ x, x ∈ added ↔ rv_state values = Pending ∧ x ∈ keys_of (pd_config p) r).
  { intros x. subst added. destruct (rv_state values); set_solver. }
  apply (edits_index (pd_config p)); [apply (co_claim_index p Hp)| | |].
  - intros y [_ Hy]%Hin. by eapply record_declared.
  - apply claim_keys_free; [done|]. intros x j [_ Hx]%Hin. by apply Hf.
  - intros x. rewrite Hin, (claim_index_at p id old) by done. unfold row_claim_index, live. rewrite Hst, Hsup. subst removed.
    unfold live in Hl. destruct (ir_state old); cbn; intuition (done || set_solver).
Qed.

Lemma replace_values_put p id old :
  consistent p → pd_items p !! id = Some old → live old → (rv_state values = Leased → ir_state old = Leased) →
  keys_ok (pd_config p) (mutate_target old) → keys_free (pd_indexes p) id (keys_of (pd_config p) (mutate_target old)) →
  puts (replace_values id values keeps ta tp) p id (mutate_target old).
Proof.
  intros Hp Hold Hl Hnl Hk Hf. exists (mutated_state p id old). split; [by apply replace_values_run|]. split; [|done].
  destruct (mutated_lease_rows p id old Hp Hold Hnl) as (Hl1 & Hl2 & Hl3).
  pose proof (mutated_claim_rows p id old Hp Hold Hl Hf) as Hcl.
  destruct (mutate_target_static old) as (Hid & Hkey & Hsup & Hst & Hg & _).
  assert (Hids : ir_item_id (mutate_target old) = id) by (rewrite Hid; by apply (co_ids p Hp)).
  assert (Hlr : live (mutate_target old)) by (unfold live in *; congruence).
  constructor; try done; cbn -[mutate_target rekey].
  - rewrite map_size_insert_Some by (by eexists). apply (co_size p Hp).
  - apply (edits_same _ _ _ _ _ _ (co_retained p Hp) Hold). intros []. unfold row_retained. tauto.
  - apply (edits_same _ _ _ _ _ _ (co_key p Hp) Hold). intros x. unfold row_key. rewrite Hkey. tauto.
  - apply (edits_reschedule p id old _ _ _ Hp Hold Hids). by left.
  - rewrite (metrics_update _ id old) by (done || (pose proof (co_size p Hp); lia)). by rewrite Hl, Hst, (co_metrics p Hp).
  - rewrite <-Hg. by apply gates_rekey.
  - apply (edits_rekey _ _ _ (keys_of (pd_config p) old) (keys_of (pd_config p) (mutate_target old)));
      [apply (co_index p Hp)|intros x; by apply index_at|apply record_declared|done| |by left].
    intros x. unfold row_index. tauto.
  - intros j keys. case_decide as Hd; [subst j; rewrite lookup_insert_eq|by rewrite lookup_insert_ne].
    intros [= <-]. destruct Hk as [kn Hkn]. by rewrite (keys_of_Ok _ _ _ Hkn).
Qed.
End mutate.

(** ** Replacement *)

(** The state between superseding a record and inserting its replacement. *)
Definition superseded_state p (client_key : string) id rec : ProjectionData :=
  let keys := keys_of (pd_config p) rec in
  mkProjectionData (pd_config p) (<[id := set_superseded true rec]> (pd_items p)) (pd_retained_ids p ∖ {[id]})
    (pd_leased_ids p) (pd_leased_by_consumer p) (pd_ordinary_leases_by_expiry p) (delete client_key (pd_by_key p))
    (elig_remove (pd_eligible p) (elig_token rec (pd_model p))) (metrics_dec Pending (pd_metrics p)) (pd_next_seq p)
    (pd_paused p) (pd_pause_drain_intake p) (pd_blocked_gates p)
    (replace_gate_memberships id (ir_gate_keys rec) [] (pd_gate_members p))
    (remove_keys_from id keys (pd_indexes p)) (remove_keys_from id keys (pd_claim_indexes p))
    (delete id (pd_framed_index_keys p)) (pd_side_records p) (pd_instance_fences p).

(** The client key is the superseded record's and nobody else's. *)
Definition owns_key p (client_key : string) id rec : Prop :=
  (∀ k, ir_explicit_key rec = Some k → k = client_key) ∧ (∀ j, pd_by_key p !! client_key = Some j → j = id).

Lemma replace_pending_run p client_key id rec replacement ta :
  consistent p → pd_items p !! id = Some rec → ir_state rec = Pending → live rec →
  replace_pending client_key id replacement ta p = insert_pending replacement ta (superseded_state p client_key id rec).
Proof.
  intros Hp Hrec Hst Hl. destruct (co_keys p Hp _ _ Hrec) as [keys Hk].
  unfold replace_pending, superseded_state. run. rewrite Hrec. cbn. rewrite Hk. cbn. rewrite (keys_of_Ok _ _ _ Hk).
  rewrite Hst, Hl. unfold elig_drop. run. reflexivity.
Qed.

Lemma supersede_put p client_key id rec :
  consistent p → pd_items p !! id = Some rec → ir_state rec = Pending → live rec → owns_key p client_key id rec →
  put p (superseded_state p client_key id rec) id (set_superseded true rec).
Proof.
  intros Hp Hrec Hst Hl [Hown Hfree]. destruct (unleased_rows p id rec Hp Hrec) as (Ho1 & Ho2 & Ho3); [congruence|].
  destruct (not_held_rows (set_superseded true rec)) as (Hr1 & Hr2 & Hr3); [cbn; congruence|].
  constructor; try done; cbn -[set_superseded].
  - exact (co_ids p Hp id rec Hrec).
  - exact (co_keys p Hp id rec Hrec).
  - rewrite map_size_insert_Some by (by eexists). apply (co_size p Hp).
  - by apply edits_id_remove.
  - apply edits_keep. intros x. specialize (Ho1 x). specialize (Hr1 x). tauto.
  - split; [apply (co_consumer p Hp)|]. apply edits_keep. intros x. specialize (Ho2 x). specialize (Hr2 x). tauto.
  - split; [apply (co_expiry p Hp)|]. apply edits_keep. intros x. specialize (Ho3 x). specialize (Hr3 x). tauto.
  - unfold edits, has_name. setoid_rewrite lookup_delete_Some. split; [|naive_solver].
    intros x. unfold row_key, live. split; [|by intros [??]]. intros [Hne Hx].
    apply (tracks_at _ _ _ _ _ x (co_key p Hp) Hrec) in Hx as [_ Hx]. by apply Hown in Hx.
  - apply (elig_gone p id rec _ true); [done..|]. unfold claimable. cbn. by rewrite andb_false_r.
  - rewrite (metrics_supersede _ id rec) by (done || (pose proof (co_size p Hp); lia)). by rewrite Hl, Hst, (co_metrics p Hp).
  - destruct (gates_left p id rec Hp Hrec) as [Hn [Hg1 Hg2]]. split; [done|].
    split_and!; [done|by intros g ?%Hg1|intros g j; apply Hg2].
  - split; [apply shaped_remove, (co_index p Hp)|]. apply edits_index_remove. intros x.
    rewrite (index_at p id rec) by done. unfold row_index, live. split; [by intros [? _]|tauto].
  - split; [apply shaped_remove, (co_claim_index p Hp)|]. apply edits_index_remove. intros x.
    rewrite (claim_index_at p id rec) by done. unfold row_claim_index, live. split; [by intros (_ & ? & _)|tauto].
  - intros j keys [Hne Hj]%lookup_delete_Some. by rewrite decide_False.
Qed.

(** The replacement of a pending record can be inserted once the record is superseded. *)
Record replaceable p (client_key : string) id (replacement : PushItem (N:=N)) (ta : option UtcTimestamp) : Prop := mkReplaceable {
  rp_fresh : pd_items p !! pi_item_id replacement = None;
  rp_keys : keys_ok (pd_config p) (pending_record replacement (pd_next_seq p) ta);
  rp_free x j : x ∈ keys_of (pd_config p) (pending_record replacement (pd_next_seq p) ta) →
    is_unique_name (pd_indexes p) x.1 = true → has_key (pd_indexes p) j x → j = id;
  rp_key k : explicit_client_item_key (pi_item_id replacement) (pi_client_item_key replacement) = Some k →
    k = client_key ∨ pd_by_key p !! k = None;
  rp_room : pd_next_seq p < u64_max;
}.

Lemma replacement_pushable p client_key id rec replacement ta :
  consistent p → pd_items p !! id = Some rec → live rec → replaceable p client_key id replacement ta →
  pushable (superseded_state p client_key id rec) replacement ta.
Proof.
  intros Hp Hrec Hl [Hfresh Hk Hf Hkey Hroom]. constructor; cbn -[pending_record]; try done.
  - rewrite lookup_insert_ne by congruence. done.
  - intros x j Hx Hu [Hj Hn]%has_key_remove.
    rewrite (shaped_unique (pd_config p) _ (pd_indexes p)) in Hu by (try apply shaped_remove; apply (co_index p Hp)).
    pose proof (Hf x j Hx Hu Hj) as ->. exfalso. apply Hn. split; [done|]. by apply (index_at p id rec).
  - intros k [->|Hn]%Hkey; [by rewrite lookup_delete_eq|]. apply lookup_delete_None. by right.
Qed.

(** ** Cohort expiry *)

Definition expired_record (ta : option UtcTimestamp) (tp : option CommandPosition) rec : ItemRecord :=
  set_terminal_position tp (set_terminal_at ta
    (set_item_version (wrapping_succ_u64 (ir_item_version rec)) (set_state Failed rec))).

(** What a member must be for the expiry to leave no row behind: a pending member has no
    index keys, a leased one is leased by its cohort. *)
Definition expirable c rec : Prop :=
  live rec ∧ ((ir_state rec = Pending ∧ keys_of c rec = []) ∨
              (ir_state rec = Leased ∧ ir_lease_is_cohort rec = true)).

Definition expired_state p id rec ta tp : ProjectionData :=
  let ends := is_leased (ir_state rec) && bool_decide (is_Some (ir_lease_token rec)) in
  mkProjectionData (pd_config p) (<[id := expired_record ta tp rec]> (pd_items p)) (pd_retained_ids p)
    (if ends then pd_leased_ids p ∖ {[id]} else pd_leased_ids p)
    (if ends then unpost_opt (ir_lease_token rec) id (pd_leased_by_consumer p) else pd_leased_by_consumer p)
    (pd_ordinary_leases_by_expiry p) (pd_by_key p)
    (if is_pending (ir_state rec) then elig_remove (pd_eligible p) (elig_token rec (pd_model p)) else pd_eligible p)
    (metrics_transition (ir_state rec) Failed (pd_metrics p)) (pd_next_seq p) (pd_paused p) (pd_pause_drain_intake p)
    (pd_blocked_gates p) (pd_gate_members p) (pd_indexes p) (pd_claim_indexes p) (pd_framed_index_keys p)
    (pd_side_records p) (pd_instance_fences p).

Lemma expire_member_run p id rec ta tp :
  pd_items p !! id = Some rec → expire_member ta tp id p = (Ok tt, expired_state p id rec ta tp).
Proof.
  intros Hrec. unfold expire_member, expired_state, elig_drop. run. rewrite Hrec.
  destruct (ir_state rec), (ir_lease_token rec); run; reflexivity.
Qed.

Lemma expire_member_put p id rec ta tp :
  consistent p → pd_items p !! id = Some rec → expirable (pd_config p) rec →
  puts (expire_member ta tp id) p id (expired_record ta tp rec).
Proof.
  intros Hp Hrec [Hl Hex]. eexists. split; [by apply expire_member_run|]. split; [|done].
  destruct (not_held_rows (expired_record ta tp rec)) as (Hr1 & Hr2 & Hr3); [done|].
  assert (Hends : is_leased (ir_state rec) && bool_decide (is_Some (ir_lease_token rec)) = false →
    ¬ row_leased rec tt ∧ ∀ x, ¬ row_consumer rec x).
  { unfold row_leased, row_consumer, held. intros Hb. apply andb_false_iff in Hb as [Hb|Hb].
    - split; [|intros x]; intros [[Hc _] _]; by rewrite Hc in Hb.
    - apply bool_decide_eq_false in Hb. split; [naive_solver|]. intros x [_ Hx]. apply Hb. by eexists. }
  apply (put_static _ _ _ rec); try done; cbn.
  - destruct (is_leased _ && _); [by apply edits_id_remove|]. apply edits_keep. intros [].
    rewrite (tracks_at _ _ _ _ _ tt (co_leased p Hp) Hrec). specialize (Hr1 tt). destruct Hends as [? _]; tauto.
  - destruct (is_leased _ && _).
    + split; [apply no_empty_unpost_opt, (co_consumer p Hp)|]. apply edits_clear; [|done]. intros x. by apply consumer_rows.
    + split; [apply (co_consumer p Hp)|]. apply edits_keep. intros x. destruct Hends as [_ He]; [done|].
      rewrite (tracks_at _ _ _ _ _ x (proj2 (co_consumer p Hp)) Hrec). specialize (Hr2 x). specialize (He x). tauto.
  - split; [apply (co_expiry p Hp)|]. apply edits_keep. intros x. specialize (Hr3 x).
    rewrite (tracks_at _ _ _ _ _ x (proj2 (co_expiry p Hp)) Hrec). unfold row_expiry at 1, held.
    destruct Hex as [[Hs _]|[_ Hc]]; [rewrite Hs|rewrite Hc]; intuition congruence.
  - apply elig_gone; [done..| |by apply not_claimable]. by intros [-> _]%claimable_pending.
  - rewrite (metrics_update _ id rec) by (done || (pose proof (co_size p Hp); lia)). by rewrite Hl, (co_metrics p Hp).
  - split; [apply (co_claim_index p Hp)|]. apply edits_keep. intros x. rewrite (claim_index_at p id rec) by done.
    unfold row_claim_index. cbn. destruct Hex as [[_ Hk]|[Hs _]]; [rewrite Hk|rewrite Hs]; set_solver.
  - by left.
Qed.

(** ** Gates *)

Definition gates_after (gate_keys : list string) (blocked : bool) (s : gset string) : gset string :=
  foldl (λ s key, if blocked then {[key]} ∪ s else s ∖ {[key]}) s gate_keys.

Lemma gates_after_other gate_keys blocked s g : g ∉ gate_keys → g ∈ gates_after gate_keys blocked s ↔ g ∈ s.
Proof.
  unfold gates_after. revert s; induction gate_keys as [|k l IH]; intros s Hg; [done|].
  apply not_elem_of_cons in Hg as [Hk Hg]. cbn. rewrite IH by done. destruct blocked; set_solver.
Qed.

Lemma gate_keys_blocked_ext s s' keys : (∀ g, g ∈ keys → g ∈ s ↔ g ∈ s') → gate_keys_blocked s keys = gate_keys_blocked s' keys.
Proof.
  unfold gate_keys_blocked. induction keys as [|k keys IH]; intros Hk; [done|]. cbn. rewrite IH by set_solver.
  f_equal. apply bool_decide_ext, Hk. set_solver.
Qed.

(** What the loop over the affected records does to the eligibility index. *)
Definition gate_toggle items (model : PriorityModel) (now : gset string) (e : EligibilityIndex) (x : ItemId.t * bool)
    : EligibilityIndex :=
  match items !! x.1 with
  | None => e
  | Some rec =>
      match x.2, gate_keys_blocked now (ir_gate_keys rec) with
      | false, true => elig_remove e (elig_token rec model)
      | true, false => elig_insert e rec items model
      | _, _ => e
      end
  end.

Definition affected_records p (gate_keys : list string) : list (ItemId.t * bool) :=
  omap (λ id, rec ← pd_items p !! id;
    if is_pending (ir_state rec) && negb (ir_superseded rec)
    then Some (id, gate_keys_blocked (pd_blocked_gates p) (ir_gate_keys rec)) else None)
    (elems (⋃ omap (λ key, pd_gate_members p !! key) gate_keys)).

Lemma elem_of_affected p gate_keys id was :
  (id, was) ∈ affected_records p gate_keys ↔
  ∃ rec, pd_items p !! id = Some rec ∧ ir_state rec = Pending ∧ live rec ∧
    was = gate_keys_blocked (pd_blocked_gates p) (ir_gate_keys rec) ∧ ∃ g, g ∈ gate_keys ∧ posted (pd_gate_members p) g id.
Proof.
  unfold affected_records, live. rewrite list_elem_of_omap. setoid_rewrite elem_of_elems. setoid_rewrite elem_of_union_list.
  setoid_rewrite list_elem_of_omap. unfold posted. split.
  - intros (j & (s & (g & Hg & Hs) & Hj) & Hx). destruct (pd_items p !! j) as [rec|] eqn:Hrec; [|done]. cbn in Hx.
    destruct (is_pending (ir_state rec) && negb (ir_superseded rec)) eqn:Hb; [|done]. injection Hx as <- <-.
    apply andb_true_iff in Hb as [Hst%is_pending_spec Hl%negb_true_iff]. exists rec. split_and!; try done.
    exists g. rewrite Hs. done.
  - intros (rec & Hrec & Hst & Hl & -> & g & Hg & Hpo). destruct (pd_gate_members p !! g) as [s|] eqn:Hs; [|set_solver].
    exists id. split; [by exists s; split; [exists g|]|]. rewrite Hrec. cbn. by rewrite Hst, Hl.
Qed.

Lemma affected_nodup p gate_keys : NoDup (affected_records p gate_keys).*1.
Proof.
  unfold affected_records. assert (Hn : NoDup (elems (⋃ omap (λ key, pd_gate_members p !! key) gate_keys))).
  { rewrite elems_perm. apply NoDup_elements. }
  revert Hn. generalize (elems (⋃ omap (λ key, pd_gate_members p !! key) gate_keys)) as l.
  induction l as [|id l IH]; intros [Hid Hl]%NoDup_cons || intros Hl; cbn; [constructor|].
  case_match eqn:Hx; [|by apply IH]. cbn. apply NoDup_cons. split; [|by apply IH].
  destruct (pd_items p !! id); [|done]. cbn in Hx. case_match; [|done]. injection Hx as <-. cbn.
  intros (y & Hy & Hin)%list_elem_of_fmap. apply list_elem_of_omap in Hin as (j & Hj & Hin).
  destruct (pd_items p !! j); [|done]. cbn in Hin. case_match; [|done]. injection Hin as <-. cbn in Hy. congruence.
Qed.

Lemma gate_loop_run q (l : list (ItemId.t * bool)) :
  (∀ x, x ∈ l → is_Some (pd_items q !! x.1)) →
  for_each (λ '(id, was_blocked),
    rec ← get_item id;
    p ← get;
    match was_blocked, gate_keys_blocked (pd_blocked_gates p) (ir_gate_keys rec) with
    | false, true => elig_drop rec
    | true, false => elig_add rec
    | _, _ => mret tt
    end) l q =
  (Ok tt, on_eligible (λ e, foldl (gate_toggle (pd_items q) (pd_model q) (pd_blocked_gates q)) e l) q).
Proof.
  revert q. induction l as [|[id was] l IH]; intros q Hl; [by destruct q|].
  destruct (Hl (id, was)) as [rec Hrec]; [set_solver|]. cbn in Hrec. cbn [for_each]. run. rewrite Hrec. cbn. unfold gate_toggle at 2. cbn.
  rewrite Hrec. unfold elig_drop, elig_add.
  destruct was, (gate_keys_blocked (pd_blocked_gates q) (ir_gate_keys rec)); run; rewrite IH by set_solver; reflexivity.
Qed.

Lemma apply_gate_change_run p gate_keys blocked :
  let now := gates_after gate_keys blocked (pd_blocked_gates p) in
  apply_gate_change gate_keys blocked p =
  (Ok tt, on_eligible (λ e, foldl (gate_toggle (pd_items p) (pd_model p) now) e (affected_records p gate_keys))
     (on_blocked_gates (λ _, now) p)).
Proof.
  cbn zeta. unfold apply_gate_change. run. fold (affected_records p gate_keys).
  refine (gate_loop_run (on_blocked_gates (gates_after gate_keys blocked) p) (affected_records p gate_keys) _).
  intros [id was] (rec & Hrec & _)%elem_of_affected. by exists rec.
Qed.

Lemma gate_toggle_rows items (model : PriorityModel) (was_gates now : gset string) e (seen : gset ItemId.t) id rec :
  let cl (seen : gset ItemId.t) r := claimable (if bool_decide (ir_item_id r ∈ seen) then now else was_gates) r in
  (∀ id r, items !! id = Some r → ir_item_id r = id) → items !! id = Some rec → ir_state rec = Pending → live rec →
  id ∉ seen → tracks (has_elig e) items (row_when (cl seen) model) →
  tracks (has_elig (gate_toggle items model now e (id, gate_keys_blocked was_gates (ir_gate_keys rec)))) items
    (row_when (cl ({[id]} ∪ seen)) model).
Proof.
  intros cl Hids Hrec Hst Hl Hns Ht. pose proof (Hids _ _ Hrec) as Hid.
  assert (Hcl : cl seen rec = negb (gate_keys_blocked was_gates (ir_gate_keys rec))).
  { unfold cl. rewrite bool_decide_eq_false_2 by congruence. by rewrite claimable_live, Hst. }
  assert (Hcl' : cl ({[id]} ∪ seen) rec = negb (gate_keys_blocked now (ir_gate_keys rec))).
  { unfold cl. rewrite bool_decide_eq_true_2 by set_solver. by rewrite claimable_live, Hst. }
  assert (Hed : edits (has_elig e) (has_elig (gate_toggle items model now e (id, gate_keys_blocked was_gates (ir_gate_keys rec))))
    id (row_when (cl ({[id]} ∪ seen)) model rec)).
  { unfold gate_toggle. cbn. rewrite Hrec.
    destruct (gate_keys_blocked was_gates (ir_gate_keys rec)) eqn:Hw, (gate_keys_blocked now (ir_gate_keys rec)) eqn:Hn; cbn in Hcl, Hcl'.
    - apply edits_keep. intros k. rewrite (tracks_at _ _ _ _ _ k Ht Hrec). unfold row_when. by rewrite Hcl, Hcl'.
    - apply (elig_filled items _ _ _ Ht _ true); [done| |done|done].
      by apply (elig_cleared _ _ _ _ Ht Hids false id rec Hrec); rewrite Hcl.
    - pose proof (elig_cleared _ _ _ _ Ht Hids true id rec Hrec (λ _, eq_refl)) as He. unfold row_when. rewrite Hcl'.
      split; [intros k; rewrite He|intros j k Hne; rewrite He]; intuition congruence.
    - apply edits_keep. intros k. rewrite (tracks_at _ _ _ _ _ k Ht Hrec). unfold row_when. by rewrite Hcl, Hcl'. }
  destruct Hed as [He1 He2]. intros j k. destruct (decide (j = id)) as [->|Hne]; [rewrite He1; naive_solver|].
  rewrite He2, (Ht j k) by done. split; intros (r & Hr & Hrow); exists r; split; try done; revert Hrow; unfold row_when, cl;
    pose proof (Hids _ _ Hr) as Hj; rewrite (bool_decide_ext (ir_item_id r ∈ {[id]} ∪ seen) (ir_item_id r ∈ seen)) by set_solver; done.
Qed.

Lemma gate_loop_rows items (model : PriorityModel) (was_gates now : gset string) (l : list (ItemId.t * bool)) e (seen : gset ItemId.t) :
  let cl (seen : gset ItemId.t) r := claimable (if bool_decide (ir_item_id r ∈ seen) then now else was_gates) r in
  (∀ id r, items !! id = Some r → ir_item_id r = id) → NoDup l.*1 →
  (∀ x, x ∈ l → x.1 ∉ seen ∧ ∃ rec, items !! x.1 = Some rec ∧ ir_state rec = Pending ∧ live rec ∧
                x.2 = gate_keys_blocked was_gates (ir_gate_keys rec)) →
  tracks (has_elig e) items (row_when (cl seen) model) →
  tracks (has_elig (foldl (gate_toggle items model now) e l)) items (row_when (cl (list_to_set l.*1 ∪ seen)) model).
Proof.
  intros cl Hids. revert e seen. induction l as [|[id was] l IH]; intros e seen Hn Hl Ht.
  { cbn. by rewrite (left_id_L ∅ (∪)). }
  apply NoDup_cons in Hn as [Hid Hn]. destruct (Hl (id, was)) as (Hns & rec & Hrec & Hst & Hlv & Hw); [set_solver|].
  cbn in Hns, Hrec, Hw. subst was. cbn [foldl]. cbn [fmap list_fmap list_to_set fst].
  rewrite <-(assoc_L (∪)), (comm_L (∪) {[id]}), <-(assoc_L (∪)), (comm_L (∪) seen).
  apply (IH _ ({[id]} ∪ seen)); [done| |by apply gate_toggle_rows].
  intros [j w] Hx. destruct (Hl (j, w)) as [Hj Hr]; [set_solver|]. split; [|done]. cbn in *.
  apply not_elem_of_union. split; [|done]. apply not_elem_of_singleton. intros ->. apply Hid.
  apply list_elem_of_fmap. by exists (id, w).
Qed.

(** A record the loop does not visit is claimable as before. *)
Lemma unaffected_claimable p gate_keys blocked id r :
  consistent p → pd_items p !! id = Some r → id ∉ (affected_records p gate_keys).*1 →
  claimable (pd_blocked_gates p) r = claimable (gates_after gate_keys blocked (pd_blocked_gates p)) r.
Proof.
  intros Hp Hr Hna. unfold claimable. destruct (is_pending (ir_state r)) eqn:Hst; [|done]. apply is_pending_spec in Hst.
  destruct (ir_superseded r) eqn:Hl; [done|]. cbn. f_equal. apply gate_keys_blocked_ext. intros g Hg.
  rewrite gates_after_other; [done|]. intros Hk. apply Hna, list_elem_of_fmap. eexists (id, _). split; [done|].
  apply elem_of_affected. exists r. split_and!; try done. exists g. split; [done|]. by apply (gates_at p id r).
Qed.

Lemma apply_gate_change_consistent p gate_keys blocked :
  consistent p →
  ∃ p', apply_gate_change gate_keys blocked p = (Ok tt, p') ∧ consistent p' ∧ pd_config p' = pd_config p ∧
    pd_items p' = pd_items p ∧ pd_blocked_gates p' = gates_after gate_keys blocked (pd_blocked_gates p) ∧ same_rest p p'.
Proof.
  intros Hp. eexists. split; [apply apply_gate_change_run|]. split; [|done].
  set (now := gates_after gate_keys blocked (pd_blocked_gates p)). set (l := affected_records p gate_keys).
  assert (Ht : tracks (has_elig (foldl (gate_toggle (pd_items p) (pd_model p) now) (pd_eligible p) l)) (pd_items p)
    (row_when (λ r, claimable (if bool_decide (ir_item_id r ∈ (list_to_set l.*1 ∪ ∅ : gset ItemId.t)) then now else pd_blocked_gates p) r)
       (pd_model p))).
  { apply (gate_loop_rows (pd_items p) (pd_model p) (pd_blocked_gates p) now l (pd_eligible p) ∅);
      [apply (co_ids p Hp)|apply affected_nodup| |intros j x; by rewrite (co_elig p Hp j x)].
    intros [j w] (rec & Hrec & Hst & Hl & Hw & _)%elem_of_affected. split; [set_solver|]. by exists rec. }
  constructor; try apply Hp. cbn. intros id k. rewrite (Ht id k).
  assert (Hcl : ∀ r, pd_items p !! id = Some r →
    claimable (if bool_decide (ir_item_id r ∈ (list_to_set l.*1 ∪ ∅ : gset ItemId.t)) then now else pd_blocked_gates p) r = claimable now r).
  { intros r Hr. rewrite (co_ids p Hp _ _ Hr). case_bool_decide as Hin; [done|].
    apply (unaffected_claimable p gate_keys blocked id r Hp Hr). set_solver. }
  split; intros (r & Hr & Hrow); exists r; (split; [done|]); revert Hrow; unfold row_elig, row_when; by rewrite (Hcl r Hr).
Qed.
End edits.
