(* ===== verification/ProjectionRefines.v ===== *)
(** The projection against its abstract queue: a map of records, with no index at all.
    Every valid command runs without error, does to the records what the abstract queue
    says, and leaves every index exact. *)
From S2P Require Import Prelude Identity Priority Metadata Lifecycle CreateQueue Engine JsonEquality Ordered IndexFields Eligibility Projection ProjectionFacts ProjectionSamples ProjectionSteps ProjectionEdits.

Implicit Types (id : ItemId.t) (r rec old : ItemRecord) (items : gmap ItemId.t ItemRecord).

#[local] Arguments finalize_record : simpl never.
#[local] Arguments pending_record : simpl never.
#[local] Arguments explicit_client_item_key : simpl never.

(** ** The abstract queue *)

Record QueueView := mkQueueView {
  qv_items : gmap ItemId.t ItemRecord;
  qv_next_seq : Z;
  qv_blocked : gset string;
  qv_paused : bool;
  qv_drain_intake : bool;
  qv_side_records : gmap bytes bytes;
  qv_fences : gmap bytes Z;
}.
Implicit Types (v : QueueView).

Definition view_items f v : QueueView :=
  mkQueueView (f (qv_items v)) (qv_next_seq v) (qv_blocked v) (qv_paused v) (qv_drain_intake v) (qv_side_records v) (qv_fences v).
Definition view_blocked f v : QueueView :=
  mkQueueView (qv_items v) (qv_next_seq v) (f (qv_blocked v)) (qv_paused v) (qv_drain_intake v) (qv_side_records v) (qv_fences v).
Definition view_pause paused drain v : QueueView :=
  mkQueueView (qv_items v) (qv_next_seq v) (qv_blocked v) paused drain (qv_side_records v) (qv_fences v).
Definition view_side f v : QueueView :=
  mkQueueView (qv_items v) (qv_next_seq v) (qv_blocked v) (qv_paused v) (qv_drain_intake v) (f (qv_side_records v)) (qv_fences v).
Definition view_fences f v : QueueView :=
  mkQueueView (qv_items v) (qv_next_seq v) (qv_blocked v) (qv_paused v) (qv_drain_intake v) (qv_side_records v) (f (qv_fences v)).

Definition each {A} (f : A → QueueView → QueueView) (l : list A) v : QueueView := foldl (λ v a, f a v) v l.
Definition on_record (f : ItemRecord → ItemRecord) id : QueueView → QueueView := view_items (alter f id).

Section refines.
Context {N : Type} `{JsonNumber N, AxonIndex N, JsonBuild N, EntityCodecLaws N}.
Implicit Types (p q : ProjectionData) (c : ProjectionConfig).

Definition view (p : ProjectionData) : QueueView :=
  mkQueueView (pd_items p) (pd_next_seq p) (pd_blocked_gates p) (pd_paused p) (pd_pause_drain_intake p)
    (pd_side_records p) (pd_instance_fences p).

Definition spec_push (ta : option UtcTimestamp) (item : PushItem (N:=N)) v : QueueView :=
  mkQueueView (<[pi_item_id item := pending_record item (qv_next_seq v) ta]> (qv_items v)) (qv_next_seq v + 1)
    (qv_blocked v) (qv_paused v) (qv_drain_intake v) (qv_side_records v) (qv_fences v).

Definition spec_update c ta (u : UpdateFieldsCommand (N:=N)) : QueueView → QueueView :=
  on_record (λ rec, match update_target c ta u rec with Ok r => r | Err _ => rec end) (uf_item_id u).

Definition spec_mutate ta tp (m : ResolvedItemMutation (N:=N)) : QueueView → QueueView :=
  match rm_action m with
  | MPurge => view_items (delete (rm_item_id m))
  | MReplace values => on_record (mutate_target values false ta tp) (rm_item_id m)
  | MReplaceKeepingPayload values => on_record (mutate_target values true ta tp) (rm_item_id m)
  end.

Definition spec_gates (gate_keys : list string) (blocked : bool) : QueueView → QueueView :=
  view_blocked (gates_after gate_keys blocked).

Definition spec_command c ta tp (cmd : QueueCommand (N:=N)) : QueueView → QueueView :=
  match cmd with
  | CmdCreateQueue _ | CmdCohortRenewLease _ _ | CmdCohortFinalize _ _ _ => λ v, v
  | CmdPush items => each (spec_push ta) items
  | CmdClaim ids token expires worker _ => each (on_record (claimed_record token expires worker)) ids
  | CmdCohortClaim _ ids token expires => each (on_record (cohort_claimed_record token expires)) ids
  | CmdRenewLease ids expires => each (on_record (renewed_record expires)) ids
  | CmdReassignLease ids token expires => each (on_record (reassigned_record token expires)) ids
  | CmdFinalize outcomes => each (λ o, on_record (finalize_record c ta tp o) (fo_item_id o)) outcomes
  | CmdReplacePending _ superseded replacement =>
      λ v, spec_push ta replacement (on_record (set_superseded true) superseded v)
  | CmdUpdateFields u => spec_update c ta u
  | CmdUpdateFieldsBatch updates => each (spec_update c ta) updates
  | CmdMutateItems items gate_changes =>
      λ v, each (λ g, spec_gates (gc_gate_keys g) (gc_blocked g)) gate_changes (each (spec_mutate ta tp) items v)
  | CmdLeaseExpired ids => each (on_record (λ rec, cleared_record (transition_record rec Pending None None))) ids
  | CmdCohortExpired group_key =>
      view_items (fmap (λ rec, if in_open_group group_key rec then expired_record ta tp rec else rec))
  | CmdFenceLease ids => each (on_record (set_fenced true)) ids
  | CmdUnfenceLease ids => each (on_record (set_fenced false)) ids
  | CmdPauseQueue drain_intake => view_pause true drain_intake
  | CmdResumeQueue => view_pause false false
  | CmdSetGates gate_keys blocked => spec_gates gate_keys blocked
  | CmdWriteSideRecords records => each (λ s : SideRecord, view_side (<[sr_key s := sr_payload s]>)) records
  | CmdAdvanceInstanceFence key _ next => view_fences (<[key := next]>)
  | CmdPurgeItems ids _ => each (λ id, view_items (delete id)) ids
  end.

(** ** Running a step *)

Definition runs (m : M unit) p (f : QueueView → QueueView) : Prop :=
  ∃ p', m p = (Ok tt, p') ∧ consistent p' ∧ pd_config p' = pd_config p ∧ view p' = f (view p).

Lemma alter_insert items f id rec : items !! id = Some rec → alter f id items = <[id := f rec]> items.
Proof.
  intros Hrec. apply map_eq. intros j. destruct (decide (j = id)) as [->|Hne].
  - by rewrite lookup_alter_eq, lookup_insert_eq, Hrec.
  - by rewrite lookup_alter_ne, lookup_insert_ne.
Qed.

Lemma puts_runs m p id rec f :
  consistent p → pd_items p !! id = Some rec → puts m p id (f rec) → runs m p (on_record f id).
Proof.
  intros Hp Hrec (p' & Hm & Hput & (Hseq & Hpa & Hdr & Hsd & Hfe)). exists p'.
  split_and!; [done|by eapply consistent_put|apply (pu_config _ _ _ _ Hput)|].
  unfold view, on_record, view_items. cbn. rewrite (alter_insert _ _ _ rec) by done.
  by rewrite (pu_items _ _ _ _ Hput), (pu_blocked _ _ _ _ Hput), Hseq, Hpa, Hdr, Hsd, Hfe.
Qed.

(** What each step of a sequence must satisfy when its turn comes. *)
Fixpoint in_turn {A} (f : A → M unit) (ok : ProjectionData → A → Prop) (l : list A) p : Prop :=
  match l with
  | [] => True
  | a :: l => ok p a ∧ ∀ p', f a p = (Ok tt, p') → in_turn f ok l p'
  end.

Lemma for_each_runs {A} (f : A → M unit) (g : A → QueueView → QueueView) (ok : ProjectionData → A → Prop) l p :
  (∀ q a, consistent q → pd_config q = pd_config p → ok q a → runs (f a) q (g a)) →
  consistent p → in_turn f ok l p → runs (for_each f l) p (each g l).
Proof.
  intros Hstep. remember (pd_config p) as c eqn:Hc. revert p Hc. induction l as [|a l IH]; intros p Hc Hp Hok.
  { exists p. done. }
  destruct Hok as [Ha Hl]. destruct (Hstep p a Hp) as (p1 & Hf & Hp1 & Hc1 & Hv1); [done..|].
  destruct (IH p1) as (p2 & Hf2 & Hp2 & Hc2 & Hv2); [congruence|done|by apply Hl|].
  exists p2. split_and!; [|done|congruence|by rewrite Hv2, Hv1].
  cbn. unfold mbind, M_bind. by rewrite Hf.
Qed.

(** Steps on distinct records: what holds of each record at the start holds in its turn. *)
Lemma in_turn_distinct {A} (f : A → M unit) (key : A → ItemId.t) (g : A → ItemRecord → ItemRecord)
    (ok : ItemRecord → A → Prop) l p :
  (∀ q a rec, consistent q → pd_config q = pd_config p → pd_items q !! key a = Some rec → ok rec a →
     puts (f a) q (key a) (g a rec)) →
  consistent p → NoDup (key <$> l) → (∀ a, a ∈ l → ∃ rec, pd_items p !! key a = Some rec ∧ ok rec a) →
  in_turn f (λ q a, ∃ rec, pd_items q !! key a = Some rec ∧ ok rec a) l p.
Proof.
  intros Hstep. remember (pd_config p) as c eqn:Hc. revert p Hc. induction l as [|a l IH]; intros p Hc Hp Hn Hl; [done|].
  cbn in Hn. apply NoDup_cons in Hn as [Ha Hn]. destruct (Hl a) as (rec & Hrec & Hok); [set_solver|].
  split; [by exists rec|]. intros p' Hf. destruct (Hstep p a rec) as (p1 & Hf1 & Hput & _); [done..|].
  assert (p1 = p') as -> by congruence. apply IH; [by rewrite (pu_config _ _ _ _ Hput)|by eapply consistent_put|done|].
  intros b Hb. rewrite (pu_items _ _ _ _ Hput), lookup_insert_ne; [apply Hl; set_solver|].
  intros Heq. apply Ha. rewrite Heq. by apply list_elem_of_fmap_2.
Qed.

Lemma distinct_runs {A} (f : A → M unit) (key : A → ItemId.t) (g : A → ItemRecord → ItemRecord)
    (ok : ItemRecord → A → Prop) l p :
  (∀ q a rec, consistent q → pd_config q = pd_config p → pd_items q !! key a = Some rec → ok rec a →
     puts (f a) q (key a) (g a rec)) →
  consistent p → NoDup (key <$> l) → (∀ a, a ∈ l → ∃ rec, pd_items p !! key a = Some rec ∧ ok rec a) →
  runs (for_each f l) p (each (λ a, on_record (g a) (key a)) l).
Proof.
  intros Hstep Hp Hn Hl. eapply for_each_runs; [|done|by eapply in_turn_distinct].
  intros q a Hq Hc (rec & Hrec & Hok). eapply puts_runs; [done..|]. by apply Hstep.
Qed.

(** ** A validated push *)

Definition item_keys c (item : PushItem (N:=N)) : EngineResult (list (string * bytes)) :=
  record_index_keys c (pi_fields item) (pi_index_fields item) (pi_entity_document item).
Definition explicit_key (item : PushItem (N:=N)) : option string :=
  explicit_client_item_key (pi_item_id item) (pi_client_item_key item).

Lemma pending_record_keys c item seq ta : record_entity_index_keys c (pending_record item seq ta) = item_keys c item.
Proof.
  unfold record_entity_index_keys, item_keys, entity_value, pending_record. cbn.
  by rewrite entity_value_pack, <-record_index_keys_entity.
Qed.

Definition unique_in c (x : string * bytes) : Prop := is_unique_name (empty_indexes c) x.1 = true.

Lemma unique_in_index c indexes x : shaped c indexes → is_unique_name indexes x.1 = true ↔ unique_in c x.
Proof. intros [Hk _]. unfold unique_in. by rewrite (kind_unique _ _ _ Hk). Qed.

(** No stored item and no earlier item of the batch holds a unique key of the item. *)
Fixpoint batch_free p (seen : list (ItemId.t * (string * bytes))) (items : list (PushItem (N:=N))) : Prop :=
  match items with
  | [] => True
  | item :: items =>
      ∃ keys, item_keys (pd_config p) item = Ok keys ∧ keys_free (pd_indexes p) (pi_item_id item) keys ∧
        (∀ x id, x ∈ keys → unique_in (pd_config p) x → (id, x) ∈ seen → id = pi_item_id item) ∧
        batch_free p (((λ x, (pi_item_id item, x)) <$> keys) ++ seen) items
  end.

Lemma push_key_step_Ok p id batch x batch' :
  shaped (pd_config p) (pd_indexes p) → push_key_step p id batch x = Ok batch' →
  (unique_in (pd_config p) x → (∀ j, has_key (pd_indexes p) j x → j = id) ∧ (∀ j, batch !! x = Some j → j = id) ∧
    batch' = <[x := id]> batch) ∧
  (¬ unique_in (pd_config p) x → batch' = batch).
Proof.
  intros Hs. rewrite <-(unique_in_index _ _ _ Hs). unfold push_key_step, is_unique_name, has_key.
  destruct (pd_indexes p !! x.1) as [[m|m]|]; [|intros [= <-]; by split..].
  intros Hst. split; [|by intros []]. intros _. split_and!.
  - intros j Hj. rewrite Hj in Hst. case_bool_decide; [done|]. by cbn in Hst.
  - intros j Hj. rewrite Hj in Hst. destruct (m !! x.2) as [h|]; [case_bool_decide; cbn in Hst; [|done]|];
      by (case_bool_decide; cbn in Hst).
  - destruct (m !! x.2) as [h|]; [case_bool_decide; cbn in Hst; [|done]|]; destruct (batch !! x) as [i|];
      try case_bool_decide; cbn in Hst; congruence.
Qed.

(** [batch] holds the unique keys of [seen]. *)
Definition batch_of c (batch : gmap (string * bytes) ItemId.t) (seen : list (ItemId.t * (string * bytes))) : Prop :=
  ∀ x id, unique_in c x → (id, x) ∈ seen → batch !! x = Some id.

Lemma push_keys_Ok p id batch keys batch' seen :
  shaped (pd_config p) (pd_indexes p) → try_fold (push_key_step p id) batch keys = Ok batch' → batch_of (pd_config p) batch seen →
  keys_free (pd_indexes p) id keys ∧ (∀ x j, x ∈ keys → unique_in (pd_config p) x → (j, x) ∈ seen → j = id) ∧
  batch_of (pd_config p) batch' (((λ x, (id, x)) <$> keys) ++ seen).
Proof.
  intros Hs. revert batch seen. induction keys as [|x keys IH]; intros batch seen Hf Hb.
  { injection Hf as <-. split_and!; [intros x j Hx; set_solver|set_solver|done]. }
  rewrite try_fold_cons in Hf. apply bind_Ok in Hf as (b1 & Hst & Hf).
  destruct (push_key_step_Ok _ _ _ _ _ Hs Hst) as [Hu Hnu].
  destruct (IH b1 ((id, x) :: seen) Hf) as (Hfree & Hseen & Hb').
  { intros y j Hy [[= -> ->]|Hin]%elem_of_cons.
    - destruct (Hu Hy) as (_ & _ & ->). by rewrite lookup_insert_eq.
    - destruct (decide (is_unique_name (empty_indexes (pd_config p)) x.1 = true)) as [Hx|Hx]; [|rewrite Hnu by done; by apply Hb].
      destruct (Hu Hx) as (_ & Hbx & ->). destruct (decide (x = y)) as [->|Hne]; [|by rewrite lookup_insert_ne; auto].
      rewrite lookup_insert_eq. f_equal. symmetry. by apply Hbx, Hb. }
  split_and!.
  - intros y j [->|Hy]%elem_of_cons Hun Hj; [|by apply (Hfree y)]. 
    apply (unique_in_index _ _ _ Hs) in Hun. destruct (Hu Hun) as [Hh _]. by apply Hh.
  - intros y j [->|Hy]%elem_of_cons Hun Hin; [destruct (Hu Hun) as (_ & Hbx & _); by apply Hbx, Hb|].
    apply (Hseen y); [done..|set_solver].
  - intros y j Hy Hin. apply Hb'; [done|]. set_solver.
Qed.

Lemma index_validate_push_free p pushes :
  consistent p → index_validate_push p pushes = Ok tt → batch_free p [] pushes.
Proof.
  intros Hp. destruct (co_index p Hp) as [Hs _]. unfold index_validate_push.
  assert (Hgen : ∀ batch seen b', batch_of (pd_config p) batch seen →
    try_fold (λ batch item, keys ← record_index_keys (pd_config p) (pi_fields item) (pi_index_fields item) (pi_entity_document item);
      try_fold (push_key_step p (pi_item_id item)) batch keys) batch pushes = Ok b' → batch_free p seen pushes).
  { induction pushes as [|item pushes IH]; intros batch seen b' Hb Hf; [done|].
    rewrite try_fold_cons in Hf. apply bind_Ok in Hf as (b1 & (keys & Hk & Hst)%bind_Ok & Hf).
    destruct (push_keys_Ok _ _ _ _ _ _ Hs Hst Hb) as (Hfree & Hseen & Hb1). exists keys. split_and!; [done..|]. by eapply IH. }
  destruct (try_fold _ _ _) as [b'|] eqn:Hf; [|done]. intros _. eapply Hgen; [|done]. intros x id _ Hin. set_solver.
Qed.

Lemma batch_free_weaken p q seen seen' pushes :
  pd_config q = pd_config p → shaped (pd_config p) (pd_indexes p) → shaped (pd_config q) (pd_indexes q) →
  (∀ j x, unique_in (pd_config p) x → has_key (pd_indexes q) j x → has_key (pd_indexes p) j x ∨ (j, x) ∈ seen) →
  (∀ y, y ∈ seen' → y ∈ seen) → batch_free p seen pushes → batch_free q seen' pushes.
Proof.
  intros Hc Hs Hsq. revert seen seen'. induction pushes as [|item pushes IH]; intros seen seen' Hh Hin Hb; [done|].
  destruct Hb as (keys & Hk & Hf & Hseen & Hb). exists keys. rewrite Hc in *. split_and!; [done| | |].
  - intros x j Hx Hu Hj. apply (unique_in_index _ _ _ Hsq) in Hu as Hux.
    destruct (Hh j x Hux Hj) as [Hold|Hold]; [|by apply (Hseen x)].
    apply (Hf x); [done|by apply (unique_in_index _ _ _ Hs)|done].
  - intros x id Hx Hu ?%Hin. by apply (Hseen x).
  - eapply IH; [| |exact Hb].
    + intros j x Hx Hj. destruct (Hh j x Hx Hj); set_solver.
    + intros y. rewrite !elem_of_app. intros [?|?%Hin]; auto.
Qed.

(** What makes a batch of pushes valid. *)
Record valid_push p (pushes : list (PushItem (N:=N))) : Prop := mkValidPush {
  vp_distinct : NoDup (pi_item_id <$> pushes);
  vp_fresh item : item ∈ pushes → pd_items p !! pi_item_id item = None;
  vp_key_distinct : NoDup (omap explicit_key pushes);
  vp_key_free item k : item ∈ pushes → explicit_key item = Some k → pd_by_key p !! k = None;
  vp_index : index_validate_push p pushes = Ok tt;
  vp_room : pd_next_seq p + Z.of_nat (length pushes) ≤ u64_max;
}.

Lemma keys_of_item c item seq ta keys : item_keys c item = Ok keys → keys_of c (pending_record item seq ta) = keys.
Proof. intros Hk. apply keys_of_Ok. by rewrite pending_record_keys. Qed.

Lemma push_in_turn p pushes ta :
  consistent p → NoDup (pi_item_id <$> pushes) → (∀ item, item ∈ pushes → pd_items p !! pi_item_id item = None) →
  NoDup (omap explicit_key pushes) → (∀ item k, item ∈ pushes → explicit_key item = Some k → pd_by_key p !! k = None) →
  batch_free p [] pushes → pd_next_seq p + Z.of_nat (length pushes) ≤ u64_max →
  in_turn (λ it, insert_pending it ta) (λ q it, pushable q it ta) pushes p.
Proof.
  revert p. induction pushes as [|item pushes IH]; intros p Hp Hn Hfr Hkn Hkf Hb Hroom; [done|].
  destruct Hb as (keys & Hk & Hf & _ & Hb). cbn [length] in Hroom. cbn in Hn. apply NoDup_cons in Hn as [Hni Hn].
  assert (Hpush : pushable p item ta).
  { constructor; [apply Hfr; set_solver| | |intros k; apply Hkf; set_solver|lia].
    - exists keys. by rewrite pending_record_keys.
    - by rewrite (keys_of_item _ _ _ _ keys Hk). }
  split; [done|]. intros p' Hp'. rewrite (insert_pending_run p item ta Hpush) in Hp'. injection Hp' as <-.
  pose proof (insert_pending_put p item ta Hp Hpush) as Hput. pose proof (consistent_put _ _ _ _ Hp Hput) as Hp1.
  pose proof (co_size p Hp) as Hsize. apply IH; try done.
  - intros it Hit. rewrite (pu_items _ _ _ _ Hput), lookup_insert_ne; [apply Hfr; set_solver|].
    intros Heq. apply Hni. rewrite Heq. by apply list_elem_of_fmap_2.
  - cbn in Hkn. case_match; [by apply NoDup_cons in Hkn as [_ ?]|done].
  - intros it k Hit Hek. cbn. change (ir_explicit_key _) with (explicit_key item). cbn in Hkn. destruct (explicit_key item) as [k0|] eqn:Hk0.
    + apply NoDup_cons in Hkn as [Hkn _]. rewrite lookup_insert_ne; [apply (Hkf it); set_solver|].
      intros ->. apply Hkn, list_elem_of_omap. by exists it.
    + apply (Hkf it); [set_solver|done].
  - eapply batch_free_weaken; [| | | | |exact Hb]; [done|apply (co_index p Hp)|apply (co_index _ Hp1)| |set_solver].
    intros j x Hx Hj. rewrite app_nil_r. cbn in Hj. rewrite (keys_of_item _ _ _ _ keys Hk) in Hj.
    rewrite (has_key_insert (pd_indexes p) _ keys) in Hj by done. destruct Hj as [(-> & Hin & _)|Hj]; [right|by left].
    by apply list_elem_of_fmap_2.
  - cbn. rewrite wrapping_succ_u64_small by lia. lia.
Qed.

Lemma insert_pending_runs p item ta : consistent p → pushable p item ta → runs (insert_pending item ta) p (spec_push ta item).
Proof.
  intros Hp Hpush. pose proof (insert_pending_put p item ta Hp Hpush) as Hput. pose proof (pb_room _ _ _ Hpush).
  pose proof (co_size p Hp). exists (pushed_state p item ta).
  split_and!; [by apply insert_pending_run|by eapply consistent_put|done|].
  unfold view, spec_push. cbn. by rewrite wrapping_succ_u64_small by lia.
Qed.

(** ** Valid commands *)

Definition pending_all p (ids : list ItemId.t) : Prop :=
  NoDup ids ∧ ∀ id, id ∈ ids → ∃ rec, pd_items p !! id = Some rec ∧ ir_state rec = Pending ∧ live rec.

Definition valid_update ta p (u : UpdateFieldsCommand (N:=N)) : Prop :=
  ∃ rec r, pd_items p !! uf_item_id u = Some rec ∧ live rec ∧ update_target (pd_config p) ta u rec = Ok r ∧
    keys_ok (pd_config p) r ∧ keys_free (pd_indexes p) (uf_item_id u) (keys_of (pd_config p) r).

(** A live record, or a superseded one whose client key nobody took over. *)
Definition purgeable p id : Prop :=
  ∀ rec, pd_items p !! id = Some rec → live rec ∨ ∀ k, ir_explicit_key rec = Some k → pd_by_key p !! k = None.

Definition replaceable_values ta tp p id (values : ResolvedItemValues (N:=N)) (keeps : bool) : Prop :=
  ∃ old, pd_items p !! id = Some old ∧ live old ∧ (rv_state values = Leased → ir_state old = Leased) ∧
    keys_ok (pd_config p) (mutate_target values keeps ta tp old) ∧
    keys_free (pd_indexes p) id (keys_of (pd_config p) (mutate_target values keeps ta tp old)).

Definition valid_mutation ta tp p (m : ResolvedItemMutation (N:=N)) : Prop :=
  match rm_action m with
  | MPurge => purgeable p (rm_item_id m)
  | MReplace values => replaceable_values ta tp p (rm_item_id m) values false
  | MReplaceKeepingPayload values => replaceable_values ta tp p (rm_item_id m) values true
  end.

Definition ordinary_all p (ids : list ItemId.t) : Prop :=
  NoDup ids ∧ ∀ id rec, id ∈ ids → pd_items p !! id = Some rec →
    ir_lease_is_cohort rec = false ∧ is_Some (ir_lease_token rec).

Definition valid p ta tp (cmd : QueueCommand (N:=N)) : Prop :=
  match cmd with
  | CmdPush pushes => valid_push p pushes
  | CmdClaim ids _ _ _ _ | CmdCohortClaim _ ids _ _ => pending_all p ids
  | CmdRenewLease ids _ => renew_validate p ids = Ok tt ∧ ordinary_all p ids
  | CmdReassignLease ids _ _ => reassign_validate p ids = Ok tt ∧ ordinary_all p ids
  | CmdFinalize outcomes => finalize_validate p outcomes = Ok tt ∧ NoDup (fo_item_id <$> outcomes)
  | CmdReplacePending client_key superseded replacement =>
      ∃ rec, pd_items p !! superseded = Some rec ∧ ir_state rec = Pending ∧ live rec ∧
        owns_key p client_key superseded rec ∧ replaceable p client_key superseded replacement ta
  | CmdUpdateFields u => valid_update ta p u
  | CmdUpdateFieldsBatch updates => in_turn (apply_update_fields ta) (valid_update ta) updates p
  | CmdMutateItems items _ => in_turn (mutate_one ta tp) (valid_mutation ta tp) items p
  | CmdLeaseExpired ids => NoDup ids ∧ ∀ id, id ∈ ids → ∃ rec, pd_items p !! id = Some rec ∧ held rec
  | CmdCohortExpired group_key =>
      ∀ id rec, pd_items p !! id = Some rec → in_open_group group_key rec = true → expirable (pd_config p) rec
  | CmdPurgeItems ids _ => in_turn purge_item purgeable ids p
  | _ => True
  end.

Lemma validate_leased_held p ids :
  validate_leased p ids = Ok tt → ∀ id, id ∈ ids → ∃ rec, pd_items p !! id = Some rec ∧ held rec.
Proof.
  unfold validate_leased. intros Hv id Hid.
  apply try_for_each_Ok in Hv. pose proof (proj1 (Forall_forall _ _) Hv id Hid) as Hr. cbn in Hr. unfold validate_leased_record in Hr.
  destruct (pd_items p !! id) as [rec|]; [|done]. exists rec. split; [done|].
  destruct (ir_fenced rec), (is_terminal (ir_state rec)), (ir_superseded rec) eqn:Hl, (is_leased (ir_state rec)) eqn:Hs; try done.
  split; [by apply is_leased_spec|done].
Qed.

(** ** Refinement *)

Lemma claims_run p ids (f : ItemId.t → M unit) (g : ItemRecord → ItemRecord) :
  (∀ q id rec, consistent q → pd_items q !! id = Some rec → ir_state rec = Pending → live rec → puts (f id) q id (g rec)) →
  consistent p → pending_all p ids → runs (for_each f ids) p (each (on_record g) ids).
Proof.
  intros Hf Hp [Hn Hall].
  apply (distinct_runs f (λ id, id) (λ _, g) (λ rec _, ir_state rec = Pending ∧ live rec)); [|done|by rewrite list_fmap_id|].
  - intros q id rec Hq _ Hrec [Hst Hl]. by apply Hf.
  - done.
Qed.

Lemma leases_run p ids (f : ItemId.t → M unit) (g : ItemRecord → ItemRecord) :
  (∀ q id rec, consistent q → pd_items q !! id = Some rec → held rec → ir_lease_is_cohort rec = false →
     is_Some (ir_lease_token rec) → puts (f id) q id (g rec)) →
  consistent p → validate_leased p ids = Ok tt → ordinary_all p ids → runs (for_each f ids) p (each (on_record g) ids).
Proof.
  intros Hf Hp Hv [Hn Hall].
  apply (distinct_runs f (λ id, id) (λ _, g) (λ rec _, held rec ∧ ir_lease_is_cohort rec = false ∧ is_Some (ir_lease_token rec)));
    [|done|by rewrite list_fmap_id|].
  - intros q id rec Hq _ Hrec (Hh & Hco & Ht). by apply Hf.
  - intros id Hid. destruct (validate_leased_held p ids Hv id Hid) as (rec & Hrec & Hh). exists rec. split; [done|].
    split; [done|]. by apply (Hall id).
Qed.

Lemma set_fence_runs p fenced id : consistent p → runs (set_fence fenced id) p (on_record (set_fenced fenced) id).
Proof.
  intros Hp. destruct (pd_items p !! id) as [rec|] eqn:Hrec; [by eapply puts_runs; [..|apply set_fence_put]|].
  assert (Ha : alter (set_fenced fenced) id (pd_items p) = pd_items p).
  { apply map_eq. intros j. destruct (decide (j = id)) as [->|Hne]; [by rewrite lookup_alter_eq, Hrec|by rewrite lookup_alter_ne]. }
  exists p. split_and!; [|done|done|].
  - unfold set_fence, modify, on_items. rewrite Ha. by destruct p.
  - unfold on_record, view_items, view. cbn. by rewrite Ha.
Qed.

Lemma purge_item_runs p id : consistent p → purgeable p id → runs (purge_item id) p (view_items (delete id)).
Proof.
  intros Hp Hpu. destruct (pd_items p !! id) as [rec|] eqn:Hrec.
  - exists (purged_state p rec). pose proof (co_ids p Hp id rec Hrec) as Hid.
    split_and!; [by apply purge_item_run| |done|by unfold view, view_items; cbn; rewrite Hid].
    apply (consistent_dropped p _ id Hp), purge_item_dropped; [done..|]. intros k j Hk Hj.
    destruct (Hpu rec Hrec) as [Hl|Hf]; [|by rewrite (Hf k Hk) in Hj].
    assert (Hh : has_name (pd_by_key p) id k) by (by apply (tracks_at _ _ _ _ _ k (co_key p Hp) Hrec)).
    unfold has_name in Hh. congruence.
  - exists p. split_and!; [|done|done|].
    + unfold purge_item. cbn. unfold mbind, M_bind, get. by rewrite Hrec.
    + unfold view, view_items. cbn. by rewrite delete_id.
Qed.

Lemma update_runs p ta u :
  consistent p → valid_update ta p u → runs (apply_update_fields ta u) p (spec_update (pd_config p) ta u).
Proof.
  intros Hp (rec & r & Hrec & Hl & Hu & Hk & Hf). unfold spec_update. eapply puts_runs; [done..|]. cbn. rewrite Hu.
  by apply (apply_update_fields_put p ta u rec r).
Qed.

Lemma mutate_runs p ta tp m : consistent p → valid_mutation ta tp p m → runs (mutate_one ta tp m) p (spec_mutate ta tp m).
Proof.
  intros Hp. unfold valid_mutation, mutate_one, spec_mutate. destruct (rm_action m); [apply purge_item_runs; done|..];
    intros (old & Hold & Hl & Hs & Hk & Hf); eapply puts_runs; [done..| |done|done|]; by apply replace_values_put.
Qed.

Lemma gates_run p gate_keys blocked : consistent p → runs (apply_gate_change gate_keys blocked) p (spec_gates gate_keys blocked).
Proof.
  intros Hp. destruct (apply_gate_change_consistent p gate_keys blocked Hp) as (p' & Hr & Hp' & Hc & Hi & Hb & Hs & Hpa & Hd & Hsi & Hfe).
  exists p'. split_and!; [done..|]. unfold view, spec_gates, view_blocked. cbn. by rewrite Hi, Hb, Hs, Hpa, Hd, Hsi, Hfe.
Qed.

Lemma in_turn_any {A} (f : A → M unit) l p : in_turn f (λ _ _, True) l p.
Proof. revert p. induction l as [|a l IH]; intros p; [done|]. by split; [|intros p' _; apply IH]. Qed.

Lemma replace_runs p client_key id rec replacement ta :
  consistent p → pd_items p !! id = Some rec → ir_state rec = Pending → live rec → owns_key p client_key id rec →
  replaceable p client_key id replacement ta →
  runs (replace_pending client_key id replacement ta) p (λ v, spec_push ta replacement (on_record (set_superseded true) id v)).
Proof.
  intros Hp Hrec Hst Hl Hown Hre. pose proof (supersede_put p client_key id rec Hp Hrec Hst Hl Hown) as Hput.
  pose proof (consistent_put _ _ _ _ Hp Hput) as Hp1.
  destruct (insert_pending_runs (superseded_state p client_key id rec) replacement ta Hp1) as (p' & Hr & Hp' & Hc & Hv);
    [by apply replacement_pushable|].
  exists p'. split_and!; [by rewrite (replace_pending_run p client_key id rec)|done..|]. rewrite Hv. f_equal.
  unfold view, on_record, view_items. cbn. by rewrite (alter_insert _ _ _ rec).
Qed.

Lemma each_alter_lookup f (ids : list ItemId.t) v j :
  NoDup ids → qv_items (each (on_record f) ids v) !! j = if decide (j ∈ ids) then f <$> qv_items v !! j else qv_items v !! j.
Proof.
  unfold each. revert v. induction ids as [|id ids IH]; intros v Hn; [done|]. apply NoDup_cons in Hn as [Hid Hn]. cbn [foldl].
  rewrite IH by done. unfold on_record. cbn. destruct (decide (j = id)) as [->|Hne].
  - rewrite decide_False, decide_True by set_solver. by rewrite lookup_alter_eq.
  - rewrite lookup_alter_ne by done. case_decide; [rewrite decide_True by set_solver|rewrite decide_False by set_solver]; done.
Qed.

Lemma each_alter_rest f (ids : list ItemId.t) v : each (on_record f) ids v = view_items (λ _, qv_items (each (on_record f) ids v)) v.
Proof. unfold each. revert v. induction ids as [|id ids IH]; intros v; [by destruct v|]. cbn. by rewrite IH. Qed.

Lemma cohort_expired_runs p ta tp group_key :
  consistent p → (∀ id rec, pd_items p !! id = Some rec → in_open_group group_key rec = true → expirable (pd_config p) rec) →
  runs (for_each (expire_member ta tp) (map_to_list (filter (λ e, in_open_group group_key e.2 = true) (pd_items p))).*1) p
    (view_items (fmap (λ rec, if in_open_group group_key rec then expired_record ta tp rec else rec))).
Proof.
  intros Hp Hex. set (members := filter (λ e, in_open_group group_key e.2 = true) (pd_items p)).
  set (ids := (map_to_list members).*1).
  assert (Hin : ∀ id, id ∈ ids ↔ ∃ rec, pd_items p !! id = Some rec ∧ in_open_group group_key rec = true).
  { intros id. unfold ids. rewrite list_elem_of_fmap. split.
    - intros ([j rec] & -> & Hj%elem_of_map_to_list). apply map_lookup_filter_Some in Hj as [? ?]. by exists rec.
    - intros (rec & Hrec & Hg). exists (id, rec). split; [done|]. by apply elem_of_map_to_list, map_lookup_filter_Some. }
  destruct (distinct_runs (expire_member ta tp) (λ id, id) (λ _, expired_record ta tp) (λ rec _, expirable (pd_config p) rec) ids p)
    as (p' & Hr & Hp' & Hc & Hv); [|done|rewrite list_fmap_id; apply NoDup_fst_map_to_list| |].
  - intros q id rec Hq Hcq Hrec He. apply expire_member_put; [done..|]. by rewrite Hcq.
  - intros id (rec & Hrec & Hg)%Hin. exists rec. split; [done|]. by apply (Hex id).
  - exists p'. split_and!; [done..|]. rewrite Hv. change (λ a, on_record _ a) with (on_record (expired_record ta tp)).
    rewrite each_alter_rest. unfold view_items. f_equal. apply map_eq. intros j.
    rewrite each_alter_lookup, lookup_fmap by apply NoDup_fst_map_to_list. cbn.
    case_decide as Hj.
    + apply Hin in Hj as (rec & Hrec & Hg). rewrite Hrec. cbn. by rewrite Hg.
    + destruct (pd_items p !! j) as [rec|] eqn:Hrec; [|done]. cbn. case_match eqn:Hg; [|done]. exfalso. apply Hj, Hin. by exists rec.
Qed.

Lemma runs_bind m1 m2 p f1 f2 :
  runs m1 p f1 → (∀ q, consistent q → runs m2 q f2) → runs (m1 ≫= λ _, m2) p (λ v, f2 (f1 v)).
Proof.
  intros (p1 & H1' & Hp1 & Hc1 & Hv1) Hm2. destruct (Hm2 p1 Hp1) as (p2 & H2' & Hp2 & Hc2 & Hv2).
  exists p2. split_and!; [|done|congruence|by rewrite Hv2, Hv1]. unfold mbind, M_bind. by rewrite H1'.
Qed.

Lemma gate_changes_run p (l : list GateChange) :
  consistent p → runs (for_each (λ g, apply_gate_change (gc_gate_keys g) (gc_blocked g)) l) p
    (each (λ g, spec_gates (gc_gate_keys g) (gc_blocked g)) l).
Proof.
  intros Hp. apply (for_each_runs _ _ (λ _ _, True)); [|done|apply in_turn_any]. intros q g Hq _ _. by apply gates_run.
Qed.

Lemma command_runs p ta tp cmd :
  consistent p → valid p ta tp cmd → runs (apply_command_at ta tp cmd) p (spec_command (pd_config p) ta tp cmd).
Proof.
  intros Hp Hv.
  destruct cmd; cbn [apply_command_at spec_command]; cbn [valid] in Hv; try (by exists p).
  - destruct Hv as [Hd Hf Hkd Hkf Hi Hr]. eapply for_each_runs; [|done|apply push_in_turn; try done].
    + intros q a Hq _ Ha. by apply insert_pending_runs.
    + by apply index_validate_push_free.
  - apply claims_run; [|done..]. intros. by apply claim_one_put.
  - apply claims_run; [|done..]. intros. by apply cohort_claim_one_put.
  - destruct Hv. apply leases_run; [|done..]. intros. by apply renew_one_put.
  - destruct Hv. apply leases_run; [|done..]. intros. by apply reassign_one_put.
  - destruct Hv as [Hv Hn].
    apply (distinct_runs _ fo_item_id (λ o, finalize_record (pd_config p) ta tp o) (λ rec _, held rec)); [|done|done|].
    + intros q o rec Hq Hc Hrec Hh. rewrite <-Hc. by apply finalize_one_put.
    + intros o Ho. apply (validate_leased_held p _ Hv). by apply list_elem_of_fmap_2.
  - destruct Hv as (rec & Hrec & Hst & Hl & Hown & Hre). by eapply replace_runs.
  - by apply update_runs.
  - eapply for_each_runs; [|done|done]. intros q u Hq Hc Hu. rewrite <-Hc. by apply update_runs.
  - apply (runs_bind _ _ p (each (spec_mutate ta tp) _)).
    + eapply for_each_runs; [|done|done]. intros q m Hq _ Hm. by apply mutate_runs.
    + intros q Hq. by apply gate_changes_run.
  - destruct Hv as [Hn Hall].
    apply (distinct_runs _ (λ id, id) (λ _ rec, cleared_record (transition_record rec Pending None None)) (λ rec _, held rec));
      [|done|by rewrite list_fmap_id|done]. intros q id rec Hq _ Hrec Hh. by apply lease_expired_one_put.
  - by apply cohort_expired_runs.
  - apply (for_each_runs _ _ (λ _ _, True)); [|done|apply in_turn_any]. intros q id Hq _ _. by apply set_fence_runs.
  - apply (for_each_runs _ _ (λ _ _, True)); [|done|apply in_turn_any]. intros q id Hq _ _. by apply set_fence_runs.
  - eexists. split; [reflexivity|]. split; [|done]. constructor; apply Hp.
  - eexists. split; [reflexivity|]. split; [|done]. constructor; apply Hp.
  - eapply for_each_runs; [|done|done]. intros q id Hq _ Hpu. by apply purge_item_runs.
  - by apply gates_run.
  - apply (for_each_runs _ _ (λ _ _, True)); [|done|apply in_turn_any]. intros q s Hq _ _.
    eexists. split; [reflexivity|]. split; [|done]. constructor; apply Hq.
  - eexists. split; [reflexivity|]. split; [|done]. constructor; apply Hp.
Qed.

End refines.

(** ** A concrete history *)

Lemma runs_to {N} `{JsonNumber N, AxonIndex N, JsonBuild N, EntityCodecLaws N} p ta tp (cmd : QueueCommand (N:=N)) :
  consistent p → valid p ta tp cmd → consistent (apply_command_at ta tp cmd p).2.
Proof. intros Hp Hv. by destruct (command_runs p ta tp cmd Hp Hv) as (p' & -> & ? & _). Qed.

Lemma sample_push_valid : valid (projection_new sample_config) None None (CmdPush sample_pushes).
Proof.
  constructor.
  - apply (bool_decide_eq_true_1 _). vm_compute. reflexivity.
  - intros item _. done.
  - apply (bool_decide_eq_true_1 _). vm_compute. reflexivity.
  - intros item k _ _. done.
  - vm_compute. reflexivity.
  - vm_compute. discriminate.
Qed.

Lemma sample_claim_valid : valid sample_pushed None None sample_claim.
Proof.
  split; [apply (bool_decide_eq_true_1 _); reflexivity|]. intros id ->%list_elem_of_singleton.
  eexists. split_and!; [vm_compute; reflexivity|reflexivity..].
Qed.

Lemma sample_pushed_consistent : consistent sample_pushed.
Proof. apply runs_to; [apply consistent_new|apply sample_push_valid]. Qed.

Lemma sample_leased_consistent : consistent sample_leased.
Proof. apply runs_to; [apply sample_pushed_consistent|apply sample_claim_valid]. Qed.

