(* ===== verification/ProjectionReads.v ===== *)
(** The reads of the queue projection: claim selection, lease and key lookups, paging,
    point classification and side records. *)
From S2P Require Import Prelude Identity Priority Metadata Lifecycle CreateQueue Engine JsonEquality Ordered IndexFields Eligibility Projection.

(** ** Views *)

Record LeaseView := mkLeaseView {
  lv_item_id : ItemId.t;
  lv_lease_token : string;
  lv_lease_expires_at : UtcTimestamp;
  lv_attempt_count : Z;
}.

Record ItemView := mkItemView {
  iv_item_id : ItemId.t;
  iv_client_item_key : string;
  iv_priority : option PriorityValue;
  iv_item_version : Z;
}.

Record LiveItemView := mkLiveItemView {
  lw_item_id : ItemId.t;
  lw_client_item_key : string;
  lw_item_version : Z;
  lw_lifecycle_state : ItemState;
  lw_priority : option PriorityValue;
  lw_group_key : option string;
  lw_not_before : option UtcTimestamp;
  lw_attempt_count : Z;
  lw_payload : option bytes;
  lw_fields : gmap string bytes;
}.

Record RetainedItemView := mkRetainedItemView {
  rw_item_id : ItemId.t;
  rw_client_item_key : string;
  rw_item_version : Z;
  rw_lifecycle_state : ItemState;
  rw_priority : option PriorityValue;
  rw_not_before : option UtcTimestamp;
  rw_attempt_count : Z;
  rw_payload : option bytes;
  rw_metadata : Metadata;
}.

Record PendingSummary := mkPendingSummary {
  ps_count : Z;
  ps_min_id : option ItemId.t;
  ps_max_id : option ItemId.t;
  ps_consumers : list (string * Z);
}.

Record PendingPage := mkPendingPage { pp_entries : list LeaseView; pp_next : option ItemId.t }.

Record IndexHit := mkIndexHit { ih_client_item_key : string; ih_item_id : ItemId.t; ih_item_version : Z }.

Record SideRecordPage := mkSideRecordPage { sp_entries : list (bytes * bytes); sp_next_cursor : option bytes }.

Record TerminalEmissionMetrics := mkTerminalEmissionMetrics {
  te_resident_terminal_count : Z;
  te_emission_lag_commands : Z;
  te_emission_oldest_unemitted_age_ms : Z;
}.

Inductive ClaimByItemIdClass := Claimable | ClassNotFound | NotEligible | ClassLeased | ClassTerminal.

Inductive BatchUpdateItemRef :=
| RefItemId (item_id : ItemId.t)
| RefClientItemKey (client_item_key : string)
| RefBoth (item_id : ItemId.t) (client_item_key : string).

Record BatchUpdateSnapshotItem := mkBatchUpdateSnapshotItem {
  bs_item_id : ItemId.t;
  bs_client_item_key : string;
  bs_state : ItemState;
  bs_item_version : Z;
  bs_fenced : bool;
  bs_superseded : bool;
}.

Definition item_view (rec : ItemRecord) : ItemView :=
  mkItemView (ir_item_id rec) (client_item_key rec) (ir_priority rec) (ir_item_version rec).

Definition open_lease (rec : ItemRecord) : option LeaseView :=
  token ← ir_lease_token rec; expires ← ir_lease_expires_at rec;
  Some (mkLeaseView (ir_item_id rec) token expires (ir_attempt_count rec)).

Definition lease_view (rec : ItemRecord) : option LeaseView :=
  if negb (is_leased (ir_state rec)) || ir_superseded rec then None else open_lease rec.

Definition to_live (rec : ItemRecord) : option LiveItemView :=
  if ir_superseded rec || is_terminal (ir_state rec) then None
  else Some (mkLiveItemView (ir_item_id rec) (client_item_key rec) (ir_item_version rec) (ir_state rec)
               (ir_priority rec) (ir_group_key rec) (ir_not_before rec) (ir_attempt_count rec) (ir_payload rec)
               (ir_fields rec)).

Definition retained_view (rec : ItemRecord) : RetainedItemView :=
  mkRetainedItemView (ir_item_id rec) (client_item_key rec) (ir_item_version rec) (ir_state rec) (ir_priority rec)
    (ir_not_before rec) (ir_attempt_count rec) (ir_payload rec) (ir_metadata rec).

(** ** The default reads of the port, over the list of leases *)

Definition opt_with {A} (f : A → A → A) (o : option A) (x : A) : option A := Some (match o with Some y => f y x | None => x end).
Definition id_min (a b : ItemId.t) : ItemId.t := if decide (compare b a = Lt) then b else a.
Definition id_max (a b : ItemId.t) : ItemId.t := if decide (compare b a = Lt) then a else b.

Definition summarize_pending (leases : list LeaseView) : PendingSummary :=
  let '(consumers, min_id, max_id) := foldl (λ '(consumers, min_id, max_id) lease,
    (partial_alter (λ n, Some (default 0 n + 1)) (lv_lease_token lease) consumers,
     opt_with id_min min_id (lv_item_id lease), opt_with id_max max_id (lv_item_id lease)))
    ((∅ : gmap string Z), None, None) leases in
  mkPendingSummary (Z.of_nat (length leases)) min_id max_id (btree_list consumers).

Definition page_pending (leases : list LeaseView) (start : option ItemId.t) (limit : nat) : PendingPage :=
  let start := default 0 (ItemId.as_u64 <$> start) in
  let selected := take (S limit)
    (filter (λ lease, (start <=? ItemId.as_u64 (lv_item_id lease)) = true) (stable_sort lv_item_id leases)) in
  mkPendingPage (take limit selected) (lv_item_id <$> head (drop limit selected)).

Definition default_pending_range (leases : list LeaseView) (start stop : option ItemId.t) (consumer : option string)
    (limit : nat) : list LeaseView :=
  let start := default 0 (ItemId.as_u64 <$> start) in
  let stop := default u64_max (ItemId.as_u64 <$> stop) in
  take limit (filter (λ lease,
    (start <=? ItemId.as_u64 (lv_item_id lease)) && (ItemId.as_u64 (lv_item_id lease) <=? stop) &&
    match consumer with None => true | Some token => bool_decide (token = lv_lease_token lease) end = true)
    (stable_sort lv_item_id leases)).

(** The map keeps the last lease of an id. *)
Definition default_pending_by_ids (leases : list LeaseView) (ids : list ItemId.t) : list LeaseView :=
  let by_id : gmap ItemId.t LeaseView :=
    foldl (λ m lease, if bool_decide (lv_item_id lease ∈ ids) then <[lv_item_id lease := lease]> m else m) ∅ leases in
  omap (λ id, by_id !! id) ids.

(** [BTreeSet::range] and [BTreeMap::range] with inclusive bounds. *)
Definition at_least {A} `{Compare A} (start : option A) (x : A) : bool :=
  match start with Some s => negb (bool_decide (compare x s = Lt)) | None => true end.
Definition at_most {A} `{Compare A} (stop : option A) (x : A) : bool :=
  match stop with Some e => negb (bool_decide (compare x e = Gt)) | None => true end.

Fixpoint bytes_start_with (key prefix : bytes) : bool :=
  match prefix, key with
  | [], _ => true
  | b :: prefix, c :: key => bool_decide (b = c) && bytes_start_with key prefix
  | _, [] => false
  end.

Section reads.
Context {N : Type} `{JsonNumber N, AxonIndex N, JsonBuild N, EntityCodec N}.
Implicit Types (p : ProjectionData) (now : UtcTimestamp).

Record ClaimedItem := mkClaimedItem {
  ci_item_id : ItemId.t;
  ci_client_item_key : string;
  ci_item_version : Z;
  ci_priority : option PriorityValue;
  ci_group_key : option string;
  ci_not_before : option UtcTimestamp;
  ci_lease_token : option string;
  ci_lease_expires_at : UtcTimestamp;
  ci_attempt_count : Z;
  ci_max_attempts : Z;
  ci_payload : option bytes;
  ci_fields : gmap string bytes;
  ci_metadata : Metadata;
  ci_gate_keys : list string;
  ci_entity : option (Value N);
}.

Definition to_claimed (rec : ItemRecord) : option ClaimedItem :=
  token ← ir_lease_token rec; expires ← ir_lease_expires_at rec;
  Some (mkClaimedItem (ir_item_id rec) (client_item_key rec) (ir_item_version rec) (ir_priority rec)
          (ir_group_key rec) (ir_not_before rec) (Some token) expires (ir_attempt_count rec) (ir_max_attempts rec)
          (ir_payload rec) (ir_fields rec) (ir_metadata rec) (ir_gate_keys rec) (query_entity rec)).

Definition render_claimed p (ids : list ItemId.t) : list ClaimedItem :=
  omap (λ id, pd_items p !! id ≫= to_claimed) ids.

(** ** Claim selection *)

Definition is_intake_blocked p : bool := pd_paused p && pd_pause_drain_intake p.

Definition rank_bound p : Z :=
  match pc_ordering_mode (pd_config p) with BoundedRelaxed => pc_max_rank_error (pd_config p) | Strict => 0 end.

Definition eligible_candidates p now (max : nat) : list ItemId.t :=
  if pd_paused p then []
  else if rank_bound p =? 0 then strict_candidates (pd_eligible p) now max
  else if (max =? 0)%nat then []
  else Eligibility.relaxed_candidates (pd_eligible p) now max (Z.to_nat (rank_bound p)).

Definition visit_eligible_candidates {S} p now (visit : S → ItemId.t → bool * S) (s : S) : S :=
  if pd_paused p then s else visit_due (pd_eligible p) now visit s.

Definition eligible_candidates_after p now (after : option ItemId.t) (max : nat) : list ItemId.t :=
  if pd_paused p || (max =? 0)%nat then []
  else if negb (rank_bound p =? 0) then eligible_candidates p now max
  else match after with
       | None => eligible_candidates p now max
       | Some id =>
           match pd_items p !! id with
           | None => eligible_candidates p now max
           | Some rec => strict_candidates_after (pd_eligible p) now rec (pd_model p) max
           end
       end.

Definition shown (rec : ItemRecord) : bool := is_pending (ir_state rec) && negb (ir_superseded rec).

Definition peek p (limit : nat) : list ItemView :=
  omap (λ id, rec ← pd_items p !! id; if shown rec then Some (item_view rec) else None)
    (ordered_items (pd_eligible p) limit).

Definition peek_page p (after : option ItemId.t) (limit : nat) : list ItemView :=
  omap (λ id, rec ← pd_items p !! id; if shown rec then Some (item_view rec) else None)
    (ordered_items_after (pd_eligible p) (after ≫= λ id, pd_items p !! id) (pd_model p) limit).

Definition classify_claim_by_item_id p (id : ItemId.t) now : ClaimByItemIdClass :=
  match pd_items p !! id with
  | None => ClassNotFound
  | Some rec =>
      if ir_superseded rec then ClassNotFound
      else if is_terminal (ir_state rec) then ClassTerminal
      else if is_leased (ir_state rec) then ClassLeased
      else if negb (is_pending (ir_state rec)) then NotEligible
      else if pd_paused p then NotEligible
      else if match ir_not_before rec with Some nb => timestamp_gt nb now | None => false end then NotEligible
      else if gate_keys_blocked (pd_blocked_gates p) (ir_gate_keys rec) then NotEligible
      else Claimable
  end.

(** ** Leases *)

Definition lease_of p (id : ItemId.t) : option LeaseView := pd_items p !! id ≫= lease_view.

Definition pending_leases p : list LeaseView := omap (λ id, pd_items p !! id ≫= open_lease) (elems (pd_leased_ids p)).

Definition pending_summary p : PendingSummary := {|
  ps_count := Z.of_nat (size (pd_leased_ids p));
  ps_min_id := head (elems (pd_leased_ids p));
  ps_max_id := last (elems (pd_leased_ids p));
  ps_consumers := (λ e, (e.1, Z.of_nat (size e.2))) <$> btree_list (pd_leased_by_consumer p);
|}.

Definition pending_page p (start : option ItemId.t) (limit : nat) : PendingPage :=
  let leases := take (S limit) (omap (lease_of p) (filter (λ id, at_least start id = true) (elems (pd_leased_ids p)))) in
  mkPendingPage (take limit leases) (lv_item_id <$> head (drop limit leases)).

Definition pending_range p (start stop : option ItemId.t) (consumer : option string) (limit : nat) : list LeaseView :=
  let ids := default (pd_leased_ids p) (consumer ≫= λ token, pd_leased_by_consumer p !! token) in
  take limit (omap (lease_of p) (filter (λ id, at_least start id && at_most stop id = true) (elems ids))).

Definition pending_by_ids p (ids : list ItemId.t) : list LeaseView :=
  omap (lease_of p) (filter (λ id, id ∈ pd_leased_ids p) ids).

(** The expiry buckets in ascending order. *)
Definition expiry_buckets p : list (UtcTimestamp * list ItemId.t) :=
  (λ e, (e, elems (default ∅ (pd_ordinary_leases_by_expiry p !! e)))) <$> elems (dom (pd_ordinary_leases_by_expiry p)).

Definition timestamp_lt (a b : UtcTimestamp) : bool := bool_decide (cmp_timestamp a b = Lt).

Definition expired_leases p now : list ItemId.t :=
  concat (snd <$> filter (λ b, timestamp_lt b.1 now = true) (expiry_buckets p)).

(** The cursor of a page: an expiry, how this queue compares with the cursor's, an item. *)
Fixpoint expired_walk (after_ : option (UtcTimestamp * comparison * ItemId.t)) (limit : nat)
    (buckets : list (UtcTimestamp * list ItemId.t)) (rows : list (UtcTimestamp * ItemId.t)) (visited : nat)
    : list (UtcTimestamp * ItemId.t) * nat :=
  match buckets with
  | [] => (rows, visited)
  | (expires, ids) :: buckets =>
      match after_ with
      | Some (cursor_expiry, Lt, _) =>
          if bool_decide (expires = cursor_expiry) then expired_walk after_ limit buckets rows visited
          else
            let taken := take (limit - length rows) ids in
            let rows := rows ++ ((λ id, (expires, id)) <$> taken) in
            if (length rows =? limit)%nat then (rows, (visited + length taken)%nat)
            else expired_walk after_ limit buckets rows (visited + length taken)
      | _ =>
          let ids := match after_ with
                     | Some (cursor_expiry, Eq, cursor_id) =>
                         if bool_decide (expires = cursor_expiry) then after cursor_id ids else ids
                     | _ => ids
                     end in
          let taken := take (limit - length rows) ids in
          let rows := rows ++ ((λ id, (expires, id)) <$> taken) in
          if (length rows =? limit)%nat then (rows, (visited + length taken)%nat)
          else expired_walk after_ limit buckets rows (visited + length taken)
      end
  end.

Definition expired_leases_after p now (after_ : option (UtcTimestamp * comparison * ItemId.t)) (limit : nat)
    : list (UtcTimestamp * ItemId.t) * nat :=
  expired_walk after_ limit
    (filter (λ b, at_least ((λ a, a.1.1) <$> after_) b.1 && timestamp_lt b.1 now = true) (expiry_buckets p)) [] 0.

(** ** Client keys *)

Definition item_id_for_client_key p (key : string) : option ItemId.t :=
  match pd_by_key p !! key with
  | Some id => Some id
  | None =>
      match ItemId.new key with
      | Ok id => rec ← pd_items p !! id; if ir_superseded rec then None else Some id
      | Err _ => None
      end
  end.

Definition lookup_by_key := item_id_for_client_key.

Definition live_items_by_key p (keys : list string) : list (option LiveItemView) :=
  (λ key, id ← item_id_for_client_key p key; rec ← pd_items p !! id; to_live rec) <$> keys.

Definition ref_ids p (r : BatchUpdateItemRef) : list ItemId.t :=
  match r with
  | RefItemId id => [id]
  | RefClientItemKey key => option_list (item_id_for_client_key p key)
  | RefBoth id key => id :: option_list (item_id_for_client_key p key)
  end.

Definition batch_update_snapshot p (refs : list BatchUpdateItemRef) : list BatchUpdateSnapshotItem :=
  omap (λ id, (λ rec, mkBatchUpdateSnapshotItem id (client_item_key rec) (ir_state rec) (ir_item_version rec)
                        (ir_fenced rec) (ir_superseded rec)) <$> pd_items p !! id)
    (elems (list_to_set (refs ≫= ref_ids p) : gset ItemId.t)).

(** ** Retained items *)

Definition retained_items p (after_ : option ItemId.t) (limit : Z) : EngineResult (list RetainedItemView) :=
  if negb ((1 <=? limit) && (limit <=? 1000)) then Err (Invalid "retained page size must be 1..1000")
  else
    let ids := match after_ with Some id => after id (elems (pd_retained_ids p)) | None => elems (pd_retained_ids p) end in
    try_fold (λ out id,
      rec ← ok_or (pd_items p !! id) (Storage "retained item index references a missing row");
      Ok (out ++ [retained_view rec])) [] (take (Z.to_nat limit) ids).

(** ** Secondary-index lookups *)

Definition index_hit p (id : ItemId.t) : option IndexHit :=
  (λ rec, mkIndexHit (client_item_key rec) (ir_item_id rec) (ir_item_version rec)) <$> pd_items p !! id.

(** [serde_json::from_slice] and [str::from_utf8] on a lookup slice. *)
Context (from_slice : bytes → option (Value N)) (utf8 : bytes → bool).

Definition lookup_bytes_to_typed (ty : IndexType) (b : bytes) : EngineResult TypedValue :=
  let text := if utf8 b then Ok (String.string_of_list_byte b) else Err (Invalid "lookup key is not valid UTF-8") in
  match ty with
  | IString => TVString <$> text
  | IInteger | IFloat =>
      n ← ok_or (from_slice b) (Invalid "lookup key is not a valid JSON number"); json_to_typed_value n ty
  | IBoolean =>
      n ← ok_or (from_slice b) (Invalid "lookup key is not a valid JSON boolean"); json_to_typed_value n ty
  | IDatetime =>
      match from_slice b with
      | Some (VNumber n) =>
          nanos ← ok_or (as_i64 n) (Invalid "lookup datetime number is not an i64 epoch-nanos");
          TVDateTime <$> timestamp_of_nanos nanos
      | _ => s ← text; json_to_typed_value (VString s) ty
      end
  end.

Definition typed_lookup_key (d : IndexDeclaration) (key_values : list bytes) : EngineResult bytes :=
  fields ← try_fold (λ fields (e : (string * IndexType) * bytes),
             value ← lookup_bytes_to_typed e.1.2 e.2; Ok (<[e.1.1 := value]> fields)) ∅
             (zip (index_columns d) key_values);
  key ← IndexFields.typed_index_key d fields;
  ok_or key (Storage "missing lookup key").

Inductive IndexLookupSpec := Legacy (spec : IndexSpec) | Typed (spec : QueueIndex).

Definition lookup_unique (s : IndexLookupSpec) : bool :=
  match s with Legacy spec => is_unique spec | Typed spec => declared_unique (declaration spec) end.

Definition lookup_key (s : IndexLookupSpec) (key_values : list bytes) : EngineResult bytes :=
  match s with
  | Legacy _ => Ok (legacy_raw_key key_values)
  | Typed spec => typed_lookup_key (declaration spec) key_values
  end.

Definition arity_mismatch : EngineError := Invalid "secondary index key arity mismatch".

Definition index_spec p (name : string) (arity : nat) : EngineResult IndexLookupSpec :=
  match List.find (λ s, String.eqb (is_name s) name) (pc_index_specs (pd_config p)) with
  | Some spec => if (arity =? length (is_fields spec))%nat then Ok (Legacy spec) else Err arity_mismatch
  | None =>
      match List.find (λ q, String.eqb (qi_name q) name) (pc_typed_index_specs (pd_config p)) with
      | Some spec => if (arity =? length (index_columns (declaration spec)))%nat then Ok (Typed spec) else Err arity_mismatch
      | None => Err (Invalid "unknown secondary index")
      end
  end.

Definition not_unique : EngineError := Invalid "secondary index is not unique".

Definition index_get_unique p (name : string) (key_values : list bytes) : EngineResult (option IndexHit) :=
  info ← index_spec p name (length key_values);
  if negb (lookup_unique info) then Err not_unique
  else match pd_indexes p !! name with
       | Some (Unique map) => key ← lookup_key info key_values; Ok (map !! key ≫= index_hit p)
       | _ => Err not_unique
       end.

Definition index_lookup p (name : string) (key_values : list bytes) : EngineResult (list IndexHit) :=
  info ← index_spec p name (length key_values);
  key ← lookup_key info key_values;
  let ids := match pd_indexes p !! name with
             | Some (Unique map) => option_list (map !! key)
             | Some (NonUnique map) => elems (default ∅ (map !! key))
             | None => []
             end in
  Ok (omap (index_hit p) ids).

(** ** Side records *)

(** The loop over [range(start..)]: stop at the first key outside the prefix, or at the
    page size with that key as the cursor. *)
Fixpoint side_page (prefix : bytes) (page_size : nat) (rows : list (bytes * bytes)) (entries : list (bytes * bytes))
    : SideRecordPage :=
  match rows with
  | [] => mkSideRecordPage entries None
  | (key, payload) :: rows =>
      if negb (bytes_start_with key prefix) then mkSideRecordPage entries None
      else if (length entries =? page_size)%nat then mkSideRecordPage entries (Some key)
      else side_page prefix page_size rows (entries ++ [(key, payload)])
  end.

Definition side_rows (records : gmap bytes bytes) : list (bytes * bytes) :=
  omap (λ k, (λ v, (k, v)) <$> records !! k) (elems (dom records)).

Definition side_records_by_prefix p (prefix : bytes) (page_size : nat) (cursor : option bytes) : SideRecordPage :=
  let page_size := Nat.min page_size 1000 in
  let start := default prefix cursor in
  side_page prefix page_size (filter (λ e, at_least (Some start) e.1 = true) (side_rows (pd_side_records p))) [].

(** ** Terminal records *)

Definition terminal_records p : list ItemRecord :=
  filter (λ rec, is_terminal_record rec = true) (map_to_list (pd_items p)).*2.

Definition behind (cursor : option CommandPosition) (rec : ItemRecord) : bool :=
  match ir_terminal_position rec with
  | None => false
  | Some position => match cursor with None => true | Some cursor => precedes cursor position end
  end.

Definition unemitted_age now (rec : ItemRecord) : Z :=
  match ir_terminal_at rec with
  | Some terminal_at =>
      if timestamp_to_ms terminal_at <? timestamp_to_ms now
      then (timestamp_to_ms now - timestamp_to_ms terminal_at) mod 2 ^ 64 else 0
  | None => 0
  end.

Definition terminal_emission_metrics p now (emit : bool) (cursor : option CommandPosition) : TerminalEmissionMetrics :=
  let resident := Z.of_nat (length (terminal_records p)) in
  if negb emit then mkTerminalEmissionMetrics resident 0 0
  else
    let lagging := filter (λ rec, behind cursor rec = true) (terminal_records p) in
    mkTerminalEmissionMetrics resident (Z.of_nat (length lagging))
      (foldl (λ age rec, Z.max age (unemitted_age now rec)) 0 lagging).
End reads.
