(* ===== verification/ProjectionReadFacts.v ===== *)
(** What the reads of a consistent projection return: exactly what the records say. *)
From S2P Require Import Prelude Identity Priority Metadata Lifecycle CreateQueue Engine JsonEquality Ordered IndexFields Eligibility Projection ProjectionFacts ProjectionSamples ProjectionSteps ProjectionEdits ProjectionRefines ProjectionReads.

Implicit Types (id : ItemId.t) (r rec : ItemRecord).

Lemma StronglySorted_fmap_elem {A B} (R : A → A → Prop) (S : B → B → Prop) (f : A → B) l :
  (∀ x y, x ∈ l → y ∈ l → R x y → S (f x) (f y)) → StronglySorted R l → StronglySorted S (f <$> l).
Proof.
  intros Hf Hl. induction Hl as [|x l Hl IH Hx]; cbn; constructor.
  - apply IH. intros y z Hy Hz. apply Hf; set_solver.
  - apply Forall_fmap, Forall_forall. intros y Hy. cbn. apply Hf; [set_solver..|].
    rewrite Forall_forall in Hx. by apply Hx.
Qed.

Lemma lt_prod {A B} `{CompareLaws A, Compare B} (a c : A) (b d : B) :
  lt_cmp (a, b) (c, d) ↔ lt_cmp a c ∨ (a = c ∧ lt_cmp b d).
Proof.
  unfold lt_cmp. cbn. unfold compare at 1, prod_compare. cbn. destruct (compare a c) eqn:Hac.
  - apply compare_Eq in Hac as ->. naive_solver.
  - naive_solver.
  - split; [done|]. intros [?|[-> _]]; [done|]. by rewrite (proj2 (compare_Eq c c)) in Hac.
Qed.

Lemma filter_none {A} (P : A → Prop) `{∀ x, Decision (P x)} l : (∀ x, x ∈ l → ¬ P x) → filter P l = [].
Proof.
  induction l as [|x l IH]; intros Hn; [done|]. rewrite filter_cons, decide_False by (apply Hn; set_solver). apply IH. set_solver.
Qed.

Lemma filter_every {A} (P : A → Prop) `{∀ x, Decision (P x)} (l : list A) : (∀ x, x ∈ l → P x) → filter P l = l.
Proof.
  induction l as [|x l IH]; intros Hall; [done|]. rewrite filter_cons, decide_True, IH; [done| |]; intros; apply Hall; set_solver.
Qed.

Section read_facts.
Context {N : Type} `{JsonNumber N, AxonIndex N, JsonBuild N, EntityCodecLaws N}.
Implicit Types (p : ProjectionData) (now : UtcTimestamp).

(** ** Claim selection *)

(** [a] is delivered before [b]. *)
Definition claim_before p (a b : ItemId.t) : Prop :=
  ∃ ra rb, pd_items p !! a = Some ra ∧ pd_items p !! b = Some rb ∧
    lt_cmp (elig_key ra (pd_model p)) (elig_key rb (pd_model p)).

Lemma elig_key_backed p k :
  consistent p → k ∈ elig_keys (pd_eligible p) ↔
  ∃ rec, pd_items p !! ek_item k = Some rec ∧ claimable (pd_blocked_gates p) rec = true ∧ k = elig_key rec (pd_model p).
Proof.
  intros Hp. rewrite <-(co_elig p Hp (ek_item k) k). unfold has_elig. tauto.
Qed.

Lemma classify_claimable p id now :
  classify_claim_by_item_id p id now = Claimable ↔
  pd_paused p = false ∧ ∃ rec, pd_items p !! id = Some rec ∧ claimable (pd_blocked_gates p) rec = true ∧
    due_at now (elig_key rec (pd_model p)) = true.
Proof.
  unfold classify_claim_by_item_id, claimable, due_at, timestamp_gt. destruct (pd_items p !! id) as [rec|]; [|naive_solver].
  split.
  - destruct (ir_superseded rec) eqn:Hs; [done|]. destruct (ir_state rec) eqn:Hst; cbn; try done.
    destruct (pd_paused p); [done|]. intros Hc. split; [done|]. exists rec. rewrite Hst, Hs. cbn.
    destruct (ir_not_before rec); [case_bool_decide; [done|]|];
      (destruct (gate_keys_blocked _ _); [done|]); split_and!; try done. by case_bool_decide.
  - intros (-> & r & [= <-] & Hc & Hd). destruct (is_pending (ir_state rec)) eqn:Hst; [|done]. cbn in Hc.
    apply is_pending_spec in Hst. rewrite Hst. destruct (ir_superseded rec); [done|]. cbn in Hc |- *.
    apply negb_true_iff in Hc. rewrite Hc. cbn in Hd. destruct (ir_not_before rec); [|done].
    apply bool_decide_eq_true in Hd. by rewrite bool_decide_eq_false_2.
Qed.

(** The due items of the eligibility index in its order. *)
Definition claim_order p now : list ItemId.t :=
  if pd_paused p then [] else ek_item <$> due_keys now (elig_keys (pd_eligible p)).

Lemma claim_order_exact p now max :
  consistent p →
  ∃ order : list ItemId.t, order = claim_order p now ∧
    StronglySorted (claim_before p) order ∧
    (∀ id, id ∈ order ↔ classify_claim_by_item_id p id now = Claimable) ∧
    eligible_candidates p now max ≡ₚ take max order ∧
    (rank_bound p = 0 → eligible_candidates p now max = take max order) ∧
    (∀ i id, eligible_candidates p now max !! i = Some id →
       ∃ j, order !! j = Some id ∧ (i ≤ j + Z.to_nat (rank_bound p))%nat ∧ (j ≤ i + Z.to_nat (rank_bound p))%nat) ∧
    (length order ≤ size (elig_keys (pd_eligible p)))%nat.
Proof.
  intros Hp. unfold eligible_candidates, claim_order. destruct (pd_paused p) eqn:Hpause.
  { exists []. rewrite take_nil. split_and!; try done; [constructor| |cbn; lia].
    intros id. rewrite classify_claimable, Hpause. set_solver. }
  set (keys := due_keys now (elig_keys (pd_eligible p))). exists (ek_item <$> keys).
  assert (Hsort : StronglySorted lt_cmp keys) by apply StronglySorted_filter, elems_ascending.
  assert (Hin : ∀ k, k ∈ keys ↔ due_at now k = true ∧ k ∈ elig_keys (pd_eligible p))
    by (intros k; unfold keys, due_keys; by rewrite list_elem_of_filter, elem_of_elems).
  split_and!; [done|..].
  - eapply StronglySorted_fmap_elem; [|exact Hsort]. intros k k' [_ Hk]%Hin [_ Hk']%Hin Hlt.
    apply (elig_key_backed p k Hp) in Hk as (r & Hr & _ & Hkr). apply (elig_key_backed p k' Hp) in Hk' as (r' & Hr' & _ & Hkr').
    exists r, r'. split_and!; [done..|]. by rewrite <-Hkr, <-Hkr'.
  - intros id. rewrite classify_claimable, list_elem_of_fmap. setoid_rewrite Hin. setoid_rewrite (elig_key_backed p _ Hp). split.
    + intros (k & -> & Hd & r & Hr & Hc & ->). split; [done|]. by exists r.
    + intros (_ & r & Hr & Hc & Hd). exists (elig_key r (pd_model p)). cbn. rewrite (co_ids p Hp _ _ Hr).
      split_and!; [done..|]. by exists r.
  - destruct (Z.eqb_spec (rank_bound p) 0); [by rewrite strict_candidates_keys, fmap_take|].
    destruct max; [by rewrite take_0|]. cbn [Nat.eqb]. by rewrite relaxed_candidates_keys, relaxed_order_perm, fmap_take.
  - intros ->. cbn. by rewrite strict_candidates_keys, fmap_take.
  - intros i id. destruct (Z.eqb_spec (rank_bound p) 0) as [Hb|Hb].
    + rewrite strict_candidates_keys, fmap_take, lookup_take_Some. intros [Hi _]. exists i. split; [done|lia].
    + destruct max; [cbn; by rewrite lookup_nil|]. cbn [Nat.eqb]. rewrite relaxed_candidates_keys, list_lookup_fmap.
      intros (k & Hk & ->)%fmap_Some_1. apply blocks_rank in Hk as (j & Hj & Hij); [|done].
      apply lookup_take_Some in Hj as [Hj _]. exists j. unfold keys. rewrite list_lookup_fmap, Hj. done.
  - rewrite length_fmap. unfold keys, due_keys. etransitivity; [apply length_filter|]. by rewrite elems_perm.
Qed.

(** C10. The candidates of a claim are the claimable items, read from the eligibility index
    and from the point classification alike, in claim order: the first [max] of that order
    are delivered and no other, in that very order when no rank error is allowed, and
    otherwise within the queue's rank-error bound of their place in it. *)
Theorem claim_selection_exact p now max :
  consistent p →
  ∃ order : list ItemId.t,
    StronglySorted (claim_before p) order ∧
    (∀ id, id ∈ order ↔ classify_claim_by_item_id p id now = Claimable) ∧
    eligible_candidates p now max ≡ₚ take max order ∧
    (rank_bound p = 0 → eligible_candidates p now max = take max order) ∧
    (∀ i id, eligible_candidates p now max !! i = Some id →
       ∃ j, order !! j = Some id ∧ (i ≤ j + Z.to_nat (rank_bound p))%nat ∧ (j ≤ i + Z.to_nat (rank_bound p))%nat).
Proof. intros Hp. destruct (claim_order_exact p now max Hp) as (order & _ & Hs & Hin & Hperm & Hz & Hi & _). by exists order. Qed.

(** ** Expired leases *)

(** The ordinary leases of the queue with their expiry, in expiry order. *)
Definition bucket_rows (buckets : list (UtcTimestamp * list ItemId.t)) : list (UtcTimestamp * ItemId.t) :=
  buckets ≫= λ b, (λ id, (b.1, id)) <$> b.2.
Definition expired_rows p now : list (UtcTimestamp * ItemId.t) :=
  bucket_rows (filter (λ b, timestamp_lt b.1 now = true) (expiry_buckets p)).

(** The row comes after the cursor in (expiry, queue, item) order. *)
Definition row_after (cursor : option (UtcTimestamp * comparison * ItemId.t)) (row : UtcTimestamp * ItemId.t) : Prop :=
  match cursor with
  | None => True
  | Some (expiry, queue_order, id) =>
      lt_cmp expiry row.1 ∨ (row.1 = expiry ∧ (queue_order = Gt ∨ (queue_order = Eq ∧ lt_cmp id row.2)))
  end.
#[global] Instance row_after_dec cursor row : Decision (row_after cursor row).
Proof. destruct cursor as [[[e o] id]|]; cbn; apply _. Defined.

Lemma bucket_rows_cons b buckets : bucket_rows (b :: buckets) = ((λ id, (b.1, id)) <$> b.2) ++ bucket_rows buckets.
Proof. done. Qed.

Lemma expired_leases_rows p now : expired_leases p now = (expired_rows p now).*2.
Proof.
  unfold expired_leases, expired_rows. induction (filter _ _) as [|b l IH]; [done|].
  rewrite bucket_rows_cons, fmap_app. cbn. rewrite IH. f_equal. rewrite <-list_fmap_compose.
  symmetry. apply list_fmap_id.
Qed.

Lemma bucket_rows_sorted buckets :
  StronglySorted lt_cmp buckets.*1 → Forall (λ b, StronglySorted lt_cmp b.2) buckets →
  StronglySorted lt_cmp (bucket_rows buckets).
Proof.
  induction buckets as [|[e ids] l IH]; intros Hs Hi; [constructor|]. rewrite bucket_rows_cons. cbn in Hs |- *.
  inversion_clear Hs as [|?? Hl He]. inversion_clear Hi as [|?? Hids Hi']. cbn in Hids. specialize (IH Hl Hi').
  induction Hids as [|id ids Hids IHids Hid]; [done|]. cbn. constructor; [done|]. apply Forall_app. split.
  - apply Forall_fmap, Forall_forall. intros id' Hid'. rewrite Forall_forall in Hid. specialize (Hid id' Hid').
    apply lt_prod. by right.
  - apply Forall_forall. intros [e' id'] Hin. unfold bucket_rows in Hin. apply list_elem_of_bind in Hin as (b & Hin & Hb).
    apply list_elem_of_fmap in Hin as (id'' & [= -> ->] & _). rewrite Forall_forall in He.
    specialize (He b.1 (list_elem_of_fmap_2 fst _ _ Hb)). apply lt_prod. by left.
Qed.

Lemma expiry_buckets_sorted p : StronglySorted lt_cmp (expiry_buckets p).*1 ∧ Forall (λ b, StronglySorted lt_cmp b.2) (expiry_buckets p).
Proof.
  unfold expiry_buckets. split.
  - rewrite <-list_fmap_compose. erewrite list_fmap_id. apply elems_ascending.
  - apply Forall_fmap, Forall_forall. intros e _. apply elems_ascending.
Qed.

Lemma elem_of_expired_rows p now e id :
  (e, id) ∈ expired_rows p now ↔ posted (pd_ordinary_leases_by_expiry p) e id ∧ lt_cmp e now.
Proof.
  unfold expired_rows, bucket_rows. rewrite list_elem_of_bind. setoid_rewrite list_elem_of_filter. unfold timestamp_lt.
  setoid_rewrite bool_decide_eq_true. unfold expiry_buckets. split.
  - intros ([e' ids] & Hin & Hlt & Hb). apply list_elem_of_fmap in Hin as (id' & [= -> ->] & Hin).
    apply list_elem_of_fmap in Hb as (e2 & [= -> ->] & _). split; [|done]. by apply elem_of_elems.
  - intros [Hpo Hlt]. exists (e, elems (default ∅ (pd_ordinary_leases_by_expiry p !! e))). split; [|split; [done|]].
    + apply list_elem_of_fmap. exists id. split; [done|]. by apply elem_of_elems.
    + apply list_elem_of_fmap. exists e. split; [done|]. apply elem_of_elems, elem_of_dom. unfold posted in Hpo.
      destruct (pd_ordinary_leases_by_expiry p !! e); [done|]. set_solver.
Qed.

(** The rows of one bucket the cursor lets through. *)
Lemma bucket_after cursor e ids :
  (∀ ce o cid, cursor = Some (ce, o, cid) → compare e ce ≠ Lt) →
  filter (row_after cursor) ((λ id, (e, id)) <$> ids) =
  (λ id, (e, id)) <$> match cursor with
                      | Some (ce, Lt, _) => if decide (e = ce) then [] else ids
                      | Some (ce, Eq, cid) => if decide (e = ce) then after cid ids else ids
                      | _ => ids
                      end.
Proof.
  intros Hge. assert (Hall : (∀ id, row_after cursor (e, id)) → filter (row_after cursor) ((λ id, (e, id)) <$> ids) = (λ id, (e, id)) <$> ids).
  { intros Hr. induction ids as [|id ids IH]; [done|]. cbn [fmap list_fmap]. rewrite filter_cons, decide_True by apply Hr. by rewrite IH. }
  destruct cursor as [[[ce o] cid]|]; [|by apply Hall].
  assert (Hgt : e ≠ ce → lt_cmp ce e).
  { intros Hne. specialize (Hge ce o cid eq_refl). unfold lt_cmp. rewrite compare_antisym.
    destruct (compare e ce) eqn:Hc; [|done|done]. by apply compare_Eq in Hc. }
  destruct o; [destruct (decide (e = ce)) as [->|Hne]; [|apply Hall; intros id; left; auto]..|].
  - clear Hall Hgt Hge. unfold after. induction ids as [|id ids IH]; [done|]. cbn [fmap list_fmap].
    rewrite !filter_cons, IH. unfold row_after at 1. cbn. unfold lt_cmp.
    rewrite (decide_ext (compare ce ce = Lt ∨ ce = ce ∧ (Eq = Gt ∨ Eq = Eq ∧ compare cid id = Lt)) (compare cid id = Lt)).
    + by case_decide.
    + rewrite (proj2 (compare_Eq ce ce)) by done. naive_solver.
  - clear Hall Hgt Hge. induction ids as [|id ids IH]; [done|]. cbn [fmap list_fmap].
    rewrite filter_cons, decide_False; [by rewrite IH|]. cbn. unfold lt_cmp. rewrite (proj2 (compare_Eq ce ce)) by done. naive_solver.
  - apply Hall. intros id. cbn. destruct (decide (e = ce)) as [->|Hne]; [right; auto|left; auto].
Qed.

Lemma expired_walk_rows cursor limit buckets rows visited :
  (∀ b ce o cid, b ∈ buckets → cursor = Some (ce, o, cid) → compare b.1 ce ≠ Lt) → (length rows ≤ limit)%nat →
  (expired_walk cursor limit buckets rows visited).1 = take limit (rows ++ filter (row_after cursor) (bucket_rows buckets)).
Proof.
  revert rows visited. induction buckets as [|[e ids] buckets IH]; intros rows visited Hge Hlen.
  { cbn. rewrite app_nil_r, take_ge by lia. done. }
  rewrite bucket_rows_cons, filter_app. cbn [fst snd].
  rewrite (bucket_after cursor e ids) by (intros; by eapply (Hge (e, ids)); [left|]).
  assert (Hstep : ∀ kept visited', (if (length (rows ++ ((λ id, (e, id)) <$> take (limit - length rows) kept)) =? limit)%nat
      then (rows ++ ((λ id, (e, id)) <$> take (limit - length rows) kept), visited')
      else expired_walk cursor limit buckets (rows ++ ((λ id, (e, id)) <$> take (limit - length rows) kept)) visited').1 =
    take limit (rows ++ ((λ id, (e, id)) <$> kept) ++ filter (row_after cursor) (bucket_rows buckets))).
  { intros kept visited'. rewrite length_app, length_fmap, length_take.
    destruct (Nat.eqb_spec (length rows + (limit - length rows) `min` length kept) limit) as [Heq|Hne]; cbn [fst].
    - rewrite app_assoc, take_app_le by (rewrite length_app, length_fmap; lia).
      rewrite take_app_ge, fmap_take by lia. f_equal.
    - rewrite IH; [|by intros; eapply Hge; [right|]|rewrite length_app, length_fmap, length_take; lia].
      rewrite (take_ge kept) by lia. by rewrite app_assoc. }
  destruct cursor as [[[ce []] cid]|]; cbn [expired_walk].
  - rewrite bool_decide_decide. destruct (decide (e = ce)); apply Hstep.
  - rewrite bool_decide_decide. destruct (decide (e = ce)); [|apply Hstep]. rewrite IH; [done|by intros; eapply Hge; [right|]|done].
  - apply Hstep.
  - apply Hstep.
Qed.

Lemma expired_rows_exact p now e id :
  consistent p → (e, id) ∈ expired_rows p now ↔ lt_cmp e now ∧ ∃ rec, pd_items p !! id = Some rec ∧ row_expiry rec e.
Proof.
  intros Hp. rewrite elem_of_expired_rows. pose proof (proj2 (co_expiry p Hp) id e) as Ht. unfold has_row in Ht. tauto.
Qed.

Lemma expired_rows_sorted p now : StronglySorted lt_cmp (expired_rows p now).
Proof.
  destruct (expiry_buckets_sorted p) as [H1' H2']. apply bucket_rows_sorted.
  - revert H1'. induction (expiry_buckets p) as [|b l IH]; [constructor|]. cbn [fmap list_fmap]. intros Hs.
    inversion_clear Hs as [|?? Hl Hb]. inversion_clear H2' as [|?? ? Hl2]. rewrite filter_cons. case_decide; [|by apply IH].
    cbn. constructor; [by apply IH|]. apply Forall_forall. intros e (b' & -> & [_ Hin]%list_elem_of_filter)%list_elem_of_fmap.
    rewrite Forall_forall in Hb. by apply Hb, list_elem_of_fmap_2.
  - apply Forall_forall. intros b [_ Hb]%list_elem_of_filter. rewrite Forall_forall in H2'. by apply H2'.
Qed.

(** The buckets before the cursor's expiry hold no row after the cursor. *)
Lemma rows_from_cursor cursor now buckets :
  filter (row_after cursor) (bucket_rows (filter (λ b, at_least ((λ a, a.1.1) <$> cursor) b.1 && timestamp_lt b.1 now = true) buckets)) =
  filter (row_after cursor) (bucket_rows (filter (λ b, timestamp_lt b.1 now = true) buckets)).
Proof.
  induction buckets as [|[e ids] l IH]; [done|]. rewrite !filter_cons. cbn [fst].
  destruct (timestamp_lt e now); [|rewrite andb_false_r; by rewrite !decide_False].
  rewrite andb_true_r, (decide_True (P := true = true)) by done.
  rewrite (bucket_rows_cons (e, ids) (filter (λ b, timestamp_lt b.1 now = true) l)), filter_app, <-IH. cbn [fst snd].
  destruct (at_least _ e) eqn:Hal; [by rewrite decide_True, bucket_rows_cons, filter_app|rewrite decide_False by done].
  rewrite (filter_none _ ((λ id, (e, id)) <$> ids)); [done|]. intros x (id & -> & _)%list_elem_of_fmap.
  destruct cursor as [[[ce o] cid]|]; [|done]. cbn in Hal |- *. apply negb_false_iff, bool_decide_eq_true in Hal.
  unfold lt_cmp. rewrite compare_antisym, Hal. cbn. intros [?|[-> _]]; [done|]. by rewrite (proj2 (compare_Eq ce ce)) in Hal.
Qed.

Lemma expired_after_rows p now cursor limit :
  (expired_leases_after p now cursor limit).1 = take limit (filter (row_after cursor) (expired_rows p now)).
Proof.
  unfold expired_leases_after. rewrite expired_walk_rows; [by rewrite rows_from_cursor| |cbn; lia].
  intros b ce o cid [Hb _]%list_elem_of_filter ->. cbn in Hb. apply andb_true_iff in Hb as [Hb _].
  by apply negb_true_iff, bool_decide_eq_false in Hb.
Qed.

(** The expired leases of a consistent projection are the held ordinary leases whose
    expiry has passed, each once, in (expiry, item) order; a page after a cursor holds the
    next rows of that order. *)
Theorem expired_leases_exact p now :
  consistent p →
  ∃ rows : list (UtcTimestamp * ItemId.t),
    StronglySorted lt_cmp rows ∧
    (∀ e id, (e, id) ∈ rows ↔ lt_cmp e now ∧ ∃ rec, pd_items p !! id = Some rec ∧ row_expiry rec e) ∧
    expired_leases p now = rows.*2 ∧
    ∀ cursor limit, (expired_leases_after p now cursor limit).1 = take limit (filter (row_after cursor) rows).
Proof.
  intros Hp. exists (expired_rows p now). split_and!.
  - apply expired_rows_sorted.
  - intros e id. by apply expired_rows_exact.
  - apply expired_leases_rows.
  - intros cursor limit. apply expired_after_rows.
Qed.

(** ** Ticks *)

Lemma sorted_nodup {A} (R : A → A → Prop) l : (∀ x, ¬ R x x) → StronglySorted R l → NoDup l.
Proof.
  intros Hirr. induction 1 as [|x l Hl IH Hx]; [constructor|]. apply NoDup_cons. split; [|done].
  intros Hin. rewrite Forall_forall in Hx. by apply (Hirr x), Hx.
Qed.

Lemma lt_cmp_irrefl {A} `{CompareLaws A} (x : A) : ¬ lt_cmp x x.
Proof. unfold lt_cmp. by rewrite (proj2 (compare_Eq x x)). Qed.

Lemma expired_leases_spec p now id :
  consistent p → id ∈ expired_leases p now ↔
  ∃ rec e, pd_items p !! id = Some rec ∧ row_expiry rec e ∧ lt_cmp e now.
Proof.
  intros Hp. rewrite expired_leases_rows, list_elem_of_fmap. split.
  - intros ([e j] & -> & Hin). apply expired_rows_exact in Hin as (Hlt & rec & Hrec & Hrow); [|done]. by exists rec, e.
  - intros (rec & e & Hrec & Hrow & Hlt). exists (e, id). split; [done|]. apply expired_rows_exact; [done|]. split; [done|]. by exists rec.
Qed.

Lemma expired_leases_nodup p now : consistent p → NoDup (expired_leases p now).
Proof.
  intros Hp. rewrite expired_leases_rows. apply NoDup_fmap_2_strong.
  - intros [e1 i1] [e2 i2] Hin1 Hin2 Heq. cbn in Heq. subst i2. f_equal.
    apply expired_rows_exact in Hin1 as (_ & r1 & Hr1 & _ & _ & He1); [|done].
    apply expired_rows_exact in Hin2 as (_ & r2 & Hr2 & _ & _ & He2); [|done]. congruence.
  - eapply sorted_nodup; [apply lt_cmp_irrefl|apply expired_rows_sorted].
Qed.

Lemma each_record_items f (ids : list ItemId.t) p p' j :
  NoDup ids → view p' = each (on_record f) ids (view p) →
  pd_items p' !! j = if decide (j ∈ ids) then f <$> pd_items p !! j else pd_items p !! j.
Proof. intros Hn Hv. change (pd_items p') with (qv_items (view p')). rewrite Hv. by rewrite each_alter_lookup. Qed.

(** C15. A reclaim tick, the [LeaseExpired] command on the expired leases, always applies:
    it returns exactly those items to pending with their leases gone, touches no other
    record, and leaves no lease expired at that instant. *)
Theorem reclaim_tick_drains p now ta tp :
  consistent p →
  ∃ p', apply_command_at ta tp (CmdLeaseExpired (expired_leases p now)) p = (Ok tt, p') ∧ consistent p' ∧
    expired_leases p' now = [] ∧
    (∀ id, id ∈ expired_leases p now → ∃ r, pd_items p' !! id = Some r ∧ ir_state r = Pending ∧ ir_lease_token r = None) ∧
    (∀ id, id ∉ expired_leases p now → pd_items p' !! id = pd_items p !! id).
Proof.
  intros Hp. pose proof (expired_leases_nodup p now Hp) as Hn.
  destruct (command_runs p ta tp (CmdLeaseExpired (expired_leases p now)) Hp) as (p' & Hr & Hp' & _ & Hv).
  { split; [done|]. intros id (rec & e & Hrec & (Hh & _) & _)%expired_leases_spec; [|done]. by exists rec. }
  exists p'. cbn [spec_command] in Hv.
  pose proof (λ j, each_record_items _ _ p p' j Hn Hv) as Hi. cbn beta in Hi.
  split_and!; [done..| | |].
  - destruct (expired_leases p' now) as [|id l] eqn:He; [done|]. exfalso.
    assert (Hin : id ∈ expired_leases p' now) by (rewrite He; set_solver).
    apply expired_leases_spec in Hin as (rec & e & Hrec & Hrow & Hlt); [|done]. rewrite Hi in Hrec. case_decide as Hd.
    + apply fmap_Some_1 in Hrec as (r & Hrr & ->). destruct Hrow as ([Hst _] & _).
      pose proof (transition_record_state r Pending None None) as Hpe. change (ir_state (transition_record r Pending None None) = Leased) in Hst.
      congruence.
    + apply Hd, expired_leases_spec; [done|]. by exists rec, e.
  - intros id Hid. rewrite Hi, decide_True by done. apply expired_leases_spec in Hid as (rec & e & Hrec & _ & _); [|done].
    rewrite Hrec. eexists. split; [done|]. split; [|done]. exact (transition_record_state _ _ _ _).
  - intros id Hid. by rewrite Hi, decide_False.
Qed.

Lemma candidates_claimable p now max :
  consistent p → NoDup (eligible_candidates p now max) ∧
  ∀ id, id ∈ eligible_candidates p now max → ∃ rec, pd_items p !! id = Some rec ∧ ir_state rec = Pending ∧ live rec.
Proof.
  intros Hp. destruct (claim_order_exact p now max Hp) as (order & _ & Hs & Hin & Hperm & _). split.
  - rewrite Hperm. eapply sublist_NoDup; [|apply sublist_take]. eapply sorted_nodup; [|exact Hs].
    intros id (r & r' & Hr & Hr' & Hlt). replace r' with r in Hlt by congruence. by apply lt_cmp_irrefl in Hlt.
  - intros id. rewrite Hperm. intros Hid. assert (Ho : id ∈ order) by (by eapply elem_of_sublist; [|apply sublist_take]).
    apply Hin, classify_claimable in Ho as (_ & rec & Hrec & Hc & _). exists rec. split; [done|]. by eapply claimable_pending.
Qed.

Lemma leased_not_candidate p now max id rec :
  consistent p → pd_items p !! id = Some rec → ir_state rec = Leased → id ∉ eligible_candidates p now max.
Proof.
  intros Hp Hrec Hst Hin. destruct (candidates_claimable p now max Hp) as [_ Hc].
  destruct (Hc id Hin) as (r & Hr & Hs & _). congruence.
Qed.

Lemma claimed_record_state token expires worker rec : ir_state (claimed_record token expires worker rec) = Leased.
Proof. exact (transition_record_state rec Leased None None). Qed.

Lemma claimed_record_renders token expires worker rec : is_Some (to_claimed (claimed_record token expires worker rec)).
Proof.
  assert (Ht : ir_lease_token (claimed_record token expires worker rec) = Some token) by done.
  assert (He : ir_lease_expires_at (claimed_record token expires worker rec) = Some expires) by done.
  unfold to_claimed. rewrite Ht, He. eexists. reflexivity.
Qed.

Lemma render_claimed_ids p (ids : list ItemId.t) :
  (∀ id, id ∈ ids → ∃ r, pd_items p !! id = Some r ∧ ir_item_id r = id ∧ is_Some (to_claimed r)) →
  ci_item_id <$> render_claimed p ids = ids.
Proof.
  unfold render_claimed. induction ids as [|id ids IH]; intros Hall; [done|]. cbn.
  destruct (Hall id) as (r & Hr & Hid & [c Hc]); [set_solver|]. rewrite Hr. cbn. rewrite Hc. cbn.
  rewrite IH by (intros; apply Hall; set_solver). f_equal. rewrite <-Hid. revert Hc. unfold to_claimed.
  destruct (ir_lease_token r), (ir_lease_expires_at r); try done. by intros [= <-].
Qed.

(** C11. A claim tick, the [Claim] command on the candidates, always applies: each
    candidate gets the one new lease with its attempt counted, no other record is
    touched, the claim renders exactly the candidates, and none of them is a candidate
    again while it stays leased. *)
Theorem claim_tick_exclusive p now max token expires worker authority_first ta tp :
  consistent p →
  let ids := eligible_candidates p now max in
  ∃ p', apply_command_at ta tp (CmdClaim ids token expires worker authority_first) p = (Ok tt, p') ∧ consistent p' ∧
    (∀ id, id ∈ ids → ∃ rec, pd_items p !! id = Some rec ∧ pd_items p' !! id = Some (claimed_record token expires worker rec)) ∧
    (∀ id, id ∉ ids → pd_items p' !! id = pd_items p !! id) ∧
    ci_item_id <$> render_claimed p' ids = ids ∧
    (∀ id later max', id ∈ ids → id ∉ eligible_candidates p' later max').
Proof.
  intros Hp ids. destruct (candidates_claimable p now max Hp) as [Hn Hc].
  destruct (command_runs p ta tp (CmdClaim ids token expires worker authority_first) Hp) as (p' & Hr & Hp' & _ & Hv); [done|].
  exists p'. cbn [spec_command] in Hv.
  pose proof (λ j, each_record_items _ _ p p' j Hn Hv) as Hi. cbn beta in Hi.
  assert (Hgot : ∀ id, id ∈ ids → ∃ rec, pd_items p !! id = Some rec ∧ pd_items p' !! id = Some (claimed_record token expires worker rec)).
  { intros id Hid. destruct (Hc id Hid) as (rec & Hrec & _). exists rec. split; [done|]. by rewrite Hi, decide_True, Hrec. }
  split_and!; [done..| | |].
  - intros id Hid. by rewrite Hi, decide_False.
  - apply render_claimed_ids. intros id Hid. destruct (Hgot id Hid) as (rec & Hrec & Hrec'). eexists. split; [done|].
    split; [by apply (co_ids p' Hp')|apply claimed_record_renders].
  - intros id later max' Hid. destruct (Hgot id Hid) as (rec & _ & Hrec'). eapply leased_not_candidate; [done..|].
    apply claimed_record_state.
Qed.
End read_facts.

(** ** Instances *)

Lemma claim_selection_exact_witness :
  consistent sample_pushed ∧ eligible_candidates sample_pushed (at_second 30) 5 = [ItemId.mk 2; ItemId.mk 1] ∧
  classify_claim_by_item_id sample_pushed (ItemId.mk 1) (at_second 30) = Claimable.
Proof.
  destruct (claim_selection_exact sample_pushed (at_second 30) 5 sample_pushed_consistent) as (order & _ & Hin & _ & Hs & _).
  specialize (Hs eq_refl). split; [apply sample_pushed_consistent|]. split; [vm_compute; reflexivity|].
  apply Hin. apply (list_elem_of_lookup_2 _ 1). assert (Ht : take 5 order !! 1%nat = Some (ItemId.mk 1)) by (rewrite <-Hs; vm_compute; reflexivity).
  by apply lookup_take_Some in Ht as [Ht _].
Defined.

Lemma expired_leases_exact_witness :
  consistent sample_leased ∧ expired_leases sample_leased (at_second 51) = [ItemId.mk 2] ∧
  (expired_leases_after sample_leased (at_second 51) None 1).1 = [(at_second 50, ItemId.mk 2)].
Proof.
  destruct (expired_leases_exact sample_leased (at_second 51) sample_leased_consistent) as (rows & Hs & Hin & He & Hp).
  split; [apply sample_leased_consistent|]. split; [vm_compute; reflexivity|]. rewrite Hp. rewrite <-(Hp None 1%nat). vm_compute. reflexivity.
Defined.

Lemma reclaim_tick_drains_witness :
  consistent sample_leased ∧ ∃ p', apply_command_at None None (CmdLeaseExpired [ItemId.mk 2]) sample_leased = (Ok tt, p') ∧
    expired_leases p' (at_second 51) = [].
Proof.
  split; [apply sample_leased_consistent|].
  destruct (reclaim_tick_drains sample_leased (at_second 51) None None sample_leased_consistent) as (p' & Hr & _ & He & _).
  exists p'. split; [|exact He]. rewrite <-Hr. reflexivity.
Defined.

Lemma claim_tick_exclusive_witness :
  consistent sample_pushed ∧ ∃ p', apply_command_at None None (CmdClaim [ItemId.mk 2] "lease" (at_second 50) None false) sample_pushed = (Ok tt, p') ∧
    ItemId.mk 2 ∉ eligible_candidates p' (at_second 60) 10.
Proof.
  split; [apply sample_pushed_consistent|].
  destruct (claim_tick_exclusive sample_pushed (at_second 30) 1 "lease" (at_second 50) None false None None sample_pushed_consistent)
    as (p' & Hr & _ & _ & _ & _ & Hex).
  exists p'. split; [rewrite <-Hr; reflexivity|]. apply Hex. vm_compute. left.
Defined.
