(* ===== verification/ProjectionLeases.v ===== *)
(** The index-backed lease reads of the projection against the port's default reads over
    the list of leases. *)
From S2P Require Import Prelude Identity Priority Metadata Lifecycle CreateQueue Engine JsonEquality Ordered IndexFields Eligibility Projection ProjectionFacts ProjectionSamples ProjectionSteps ProjectionEdits ProjectionRefines ProjectionReads ProjectionReadFacts.

Implicit Types (id : ItemId.t) (r rec : ItemRecord).

(** ** Lists *)

Lemma omap_filter {A B} (f : A → option B) (P : A → Prop) (Q : B → Prop) `{∀ x, Decision (P x), ∀ y, Decision (Q y)} (l : list A) :
  (∀ x y, x ∈ l → f x = Some y → P x ↔ Q y) → omap f (filter P l) = filter Q (omap f l).
Proof.
  induction l as [|x l IH]; intros Hf; [done|]. rewrite filter_cons. cbn. specialize (IH (λ y z Hy, Hf y z (list_elem_of_further _ _ _ Hy))).
  destruct (f x) as [y|] eqn:Hx.
  - pose proof (Hf x y ltac:(set_solver) Hx) as Hpq. rewrite filter_cons. case_decide.
    + rewrite decide_True by tauto. cbn. by rewrite Hx, IH.
    + by rewrite decide_False by tauto.
  - case_decide; [cbn; by rewrite Hx|done].
Qed.

Lemma stable_sort_id {A B} `{CompareLaws B} (f : A → B) (l : list A) : StronglySorted lt_cmp (f <$> l) → stable_sort f l = l.
Proof.
  induction l as [|x l IH]; intros Hs; [done|]. inversion_clear Hs as [|?? Hl Hx]. cbn. fold (stable_sort f l). rewrite IH by done.
  destruct l as [|y l]; [done|]. cbn. inversion_clear Hx as [|?? Hxy _]. rewrite decide_False; [done|].
  unfold lt_cmp in Hxy. rewrite compare_antisym, Hxy. done.
Qed.

Lemma btree_list_fmap {A B} (f : A → B) (m : gmap string A) :
  btree_list (f <$> m) = (λ e, (e.1, f e.2)) <$> btree_list m.
Proof.
  assert (Hsort : ∀ {C} (n : gmap string C), StronglySorted (λ x y : string * C, String.le x.1 y.1) (btree_list n)).
  { intros C n. apply StronglySorted_merge_sort.
    - intros x y z Hxy Hyz. by transitivity y.1.
    - intros x y. apply (total String.le). }
  eapply (StronglySorted_unique_strong (λ x y : string * B, String.le x.1 y.1)).
  - intros [k1 v1] [k2 v2] Hin1 Hin2 Hle1 Hle2. cbn in *. assert (k1 = k2) as -> by (by apply (anti_symm String.le)).
    apply elem_of_btree_list in Hin1. apply list_elem_of_fmap in Hin2 as ([k v] & [= -> ->] & Hin2).
    apply elem_of_btree_list in Hin2. rewrite lookup_fmap, Hin2 in Hin1. cbn in *. congruence.
  - apply Hsort.
  - eapply StronglySorted_fmap_elem; [|apply Hsort]. done.
  - rewrite !btree_list_perm, map_to_list_fmap. by apply Permutation_refl'; apply list_fmap_ext; intros ? [].
Qed.

Section leases.
Context {N : Type} `{JsonNumber N, AxonIndex N, JsonBuild N, EntityCodecLaws N}.
Implicit Types (p : ProjectionData).

(** A held lease has an expiry, and item ids are machine words. *)
Definition leases_complete p : Prop :=
  ∀ id rec, pd_items p !! id = Some rec → held rec → is_Some (ir_lease_token rec) → is_Some (ir_lease_expires_at rec).
Definition ids_ok p : Prop := ∀ id rec, pd_items p !! id = Some rec → 0 ≤ ItemId.raw id ≤ u64_max.

(** ** The list of leases *)

Lemma leased_lease p id :
  consistent p → leases_complete p → id ∈ pd_leased_ids p →
  ∃ rec v, pd_items p !! id = Some rec ∧ held rec ∧ ir_lease_token rec = Some (lv_lease_token v) ∧
    open_lease rec = Some v ∧ lease_of p id = Some v ∧ lv_item_id v = id.
Proof.
  intros Hp Hc Hid. apply (co_leased p Hp id tt) in Hid as (rec & Hrec & Hh & [t Ht]).
  destruct (Hc id rec Hrec Hh) as [e He]; [by eexists|]. exists rec.
  eexists (mkLeaseView (ir_item_id rec) t e (ir_attempt_count rec)). unfold lease_of, lease_view, open_lease. rewrite Hrec. cbn.
  destruct Hh as [Hst Hl]. rewrite Hst, Hl, Ht, He. split_and!; try done. by apply (co_ids p Hp).
Qed.

Lemma lease_unheld p id : consistent p → id ∉ pd_leased_ids p → lease_of p id = None.
Proof.
  intros Hp Hid. unfold lease_of. destruct (pd_items p !! id) as [rec|] eqn:Hrec; [|done]. cbn. unfold lease_view, open_lease.
  destruct (is_leased (ir_state rec)) eqn:Hs; [|done]. destruct (ir_superseded rec) eqn:Hl; [done|]. cbn.
  destruct (ir_lease_token rec) eqn:Ht; [|done]. exfalso. apply Hid, (co_leased p Hp id tt). exists rec.
  split; [done|]. split; [split; [by apply is_leased_spec|done]|by eexists].
Qed.

Lemma pending_leases_all p :
  consistent p → leases_complete p →
  pending_leases p = omap (lease_of p) (elems (pd_leased_ids p)) ∧
  lv_item_id <$> pending_leases p = elems (pd_leased_ids p).
Proof.
  intros Hp Hc. unfold pending_leases.
  assert (Hin : ∀ id, id ∈ elems (pd_leased_ids p) → id ∈ pd_leased_ids p) by (intros id; by rewrite elem_of_elems).
  induction (elems (pd_leased_ids p)) as [|id l IH]; [done|]. destruct IH as [IH1 IH2]; [set_solver|].
  destruct (leased_lease p id Hp Hc) as (rec & v & Hrec & _ & _ & Ho & Hv & Hid); [set_solver|]. cbn.
  rewrite Hrec. cbn. rewrite Ho, Hv. cbn. rewrite IH2, Hid. split; [by rewrite IH1|done].
Qed.

Lemma pending_leases_sorted p :
  consistent p → leases_complete p → stable_sort lv_item_id (pending_leases p) = pending_leases p.
Proof.
  intros Hp Hc. apply stable_sort_id. rewrite (proj2 (pending_leases_all p Hp Hc)). apply elems_ascending.
Qed.

Lemma at_least_u64 (start : option ItemId.t) id :
  at_least start id = true ↔ (default (ItemId.raw id) (ItemId.as_u64 <$> start) <=? ItemId.raw id) = true.
Proof.
  destruct start as [s|]; cbn; [|split; [intros _; lia|done]]. unfold compare, ItemId_compare, ItemId.cmp, ItemId.as_u64.
  rewrite negb_true_iff, bool_decide_eq_false. destruct (Z.compare_spec (ItemId.raw id) (ItemId.raw s)); split; intros; try done; lia.
Qed.

Lemma at_least_from_zero start id :
  0 ≤ ItemId.raw id → at_least start id = true ↔ (default 0 (ItemId.as_u64 <$> start) <=? ItemId.as_u64 id) = true.
Proof. intros Hid. rewrite at_least_u64. unfold ItemId.as_u64. destruct start; cbn; [done|lia]. Qed.

Lemma at_most_u64 stop id :
  ItemId.raw id ≤ u64_max → at_most stop id = true ↔ (ItemId.as_u64 id <=? default u64_max (ItemId.as_u64 <$> stop)) = true.
Proof.
  intros Hid. unfold ItemId.as_u64. destruct stop as [s|]; cbn; [|split; [intros _; lia|done]]. unfold compare, ItemId_compare, ItemId.cmp.
  rewrite negb_true_iff, bool_decide_eq_false. destruct (Z.compare_spec (ItemId.raw id) (ItemId.raw s)); split; intros; try done; lia.
Qed.

(** ** Pages and ranges *)

Lemma leased_raw p id : consistent p → ids_ok p → id ∈ pd_leased_ids p → 0 ≤ ItemId.raw id ≤ u64_max.
Proof. intros Hp Hi Hid. apply (co_leased p Hp id tt) in Hid as (rec & Hrec & _). by apply (Hi id rec). Qed.

Lemma lease_of_id p id v : consistent p → lease_of p id = Some v → lv_item_id v = id.
Proof.
  intros Hp. unfold lease_of. destruct (pd_items p !! id) as [rec|] eqn:Hrec; [|done]. cbn. unfold lease_view, open_lease.
  case_match; [done|]. destruct (ir_lease_token rec), (ir_lease_expires_at rec); try done. intros [= <-]. by apply (co_ids p Hp).
Qed.

Lemma pending_page_default p start limit :
  consistent p → leases_complete p → ids_ok p → pending_page p start limit = page_pending (pending_leases p) start limit.
Proof.
  intros Hp Hc Hi. unfold pending_page, page_pending. rewrite pending_leases_sorted by done.
  rewrite (proj1 (pending_leases_all p Hp Hc)).
  rewrite (omap_filter (lease_of p) (λ id, at_least start id = true)
    (λ lease, (default 0 (ItemId.as_u64 <$> start) <=? ItemId.as_u64 (lv_item_id lease)) = true)); [done|].
  intros id v Hid%elem_of_elems Hv. rewrite (lease_of_id p id v Hp Hv). apply at_least_from_zero. by apply (leased_raw p).
Qed.

(** The leases of one token are those its posting list names. *)
Lemma consumer_leases p token (ids : gset ItemId.t) :
  consistent p → leases_complete p → pd_leased_by_consumer p !! token = Some ids →
  elems ids = filter (λ id, (lv_lease_token <$> lease_of p id) = Some token) (elems (pd_leased_ids p)).
Proof.
  intros Hp Hc Hids. apply elems_eq; [apply StronglySorted_filter, elems_ascending|]. intros id.
  rewrite list_elem_of_filter, elem_of_elems.
  assert (Hpo : id ∈ ids ↔ has_row (pd_leased_by_consumer p) id token) by (unfold has_row, posted; by rewrite Hids).
  rewrite Hpo, (proj2 (co_consumer p Hp) id token). split.
  - intros [Ht Hid]. destruct (leased_lease p id Hp Hc Hid) as (rec & v & Hrec & Hh & Htok & _ & Hv & _).
    rewrite Hv in Ht. injection Ht as <-. by exists rec.
  - intros (rec & Hrec & Hh & Ht).
    assert (Hid : id ∈ pd_leased_ids p) by (apply (co_leased p Hp id tt); exists rec; split; [done|]; split; [done|by eexists]).
    split; [|done]. destruct (leased_lease p id Hp Hc Hid) as (r & v & Hr & _ & Htok & _ & Hv & _).
    rewrite Hv. cbn. f_equal. congruence.
Qed.

Lemma filter_and {A} (P Q R : A → Prop) `{∀ x, Decision (P x), ∀ x, Decision (Q x), ∀ x, Decision (R x)} (l : list A) :
  (∀ x, x ∈ l → R x ↔ P x ∧ Q x) → filter P (filter Q l) = filter R l.
Proof.
  induction l as [|x l IH]; intros Hr; [done|]. rewrite !filter_cons. pose proof (Hr x ltac:(set_solver)) as Hx.
  specialize (IH (λ y Hy, Hr y (list_elem_of_further _ _ _ Hy))).
  destruct (decide (Q x)); [rewrite filter_cons|]; repeat case_decide; try tauto; by rewrite IH.
Qed.

Lemma pending_range_default p start stop consumer limit :
  consistent p → leases_complete p → ids_ok p →
  (∀ token, consumer = Some token → is_Some (pd_leased_by_consumer p !! token)) →
  pending_range p start stop consumer limit = default_pending_range (pending_leases p) start stop consumer limit.
Proof.
  intros Hp Hc Hi Hcons. unfold pending_range, default_pending_range. rewrite pending_leases_sorted by done. f_equal.
  rewrite (proj1 (pending_leases_all p Hp Hc)).
  set (Q := λ lease, (default 0 (ItemId.as_u64 <$> start) <=? ItemId.as_u64 (lv_item_id lease)) &&
    (ItemId.as_u64 (lv_item_id lease) <=? default u64_max (ItemId.as_u64 <$> stop)) &&
    match consumer with None => true | Some token => bool_decide (token = lv_lease_token lease) end = true).
  assert (Hrange : ∀ id v, id ∈ pd_leased_ids p → lease_of p id = Some v →
    Q v ↔ (at_least start id && at_most stop id = true) ∧ (∀ token, consumer = Some token → lv_lease_token v = token)).
  { intros id v Hid Hv. unfold Q. rewrite (lease_of_id p id v Hp Hv). destruct (leased_raw p id Hp Hi Hid) as [Hlo Hhi].
    rewrite !andb_true_iff, <-at_least_from_zero, <-at_most_u64 by done.
    destruct consumer; [rewrite bool_decide_eq_true|]; naive_solver. }
  destruct consumer as [token|]; cbn [mbind option_bind]; cbv beta.
  - destruct (Hcons token eq_refl) as [ids Hids]. rewrite Hids. change (default _ (Some ids)) with ids. rewrite (consumer_leases p token ids) by done.
    rewrite (filter_and _ _ (λ id, (at_least start id && at_most stop id = true) ∧ (lv_lease_token <$> lease_of p id) = Some token)) by tauto.
    apply omap_filter. intros id v Hid%elem_of_elems Hv. rewrite (Hrange id v Hid Hv), Hv. cbn. naive_solver.
  - change (default (pd_leased_ids p) None) with (pd_leased_ids p). apply omap_filter. intros id v Hid%elem_of_elems Hv. rewrite (Hrange id v Hid Hv). naive_solver.
Qed.

Lemma by_id_lookup (ids : list ItemId.t) (leases : list LeaseView) (m : gmap ItemId.t LeaseView) id :
  NoDup (lv_item_id <$> leases) → id ∈ ids →
  foldl (λ m lease, if bool_decide (lv_item_id lease ∈ ids) then <[lv_item_id lease := lease]> m else m) m leases !! id =
  match List.find (λ v, bool_decide (lv_item_id v = id)) leases with Some v => Some v | None => m !! id end.
Proof.
  intros Hn Hid. revert m. induction leases as [|v l IH]; intros m; [done|]. cbn in Hn |- *. apply NoDup_cons in Hn as [Hv Hn].
  rewrite IH by done. destruct (decide (lv_item_id v = id)) as [Hd|Hd].
  - rewrite !bool_decide_eq_true_2 by congruence. subst id. rewrite lookup_insert_eq. destruct (List.find _ l) as [w|] eqn:Hw; [|done].
    apply find_some in Hw as [Hin Heq]. apply bool_decide_eq_true in Heq. exfalso. apply Hv. rewrite <-Heq.
    apply list_elem_of_fmap_2, list_elem_of_In, Hin.
  - rewrite (bool_decide_eq_false_2 (lv_item_id v = id)) by done. destruct (List.find _ l); [done|].
    case_bool_decide; [by rewrite lookup_insert_ne|done].
Qed.

Lemma find_lease p id (l : list ItemId.t) :
  consistent p → leases_complete p → (∀ j, j ∈ l → j ∈ pd_leased_ids p) →
  List.find (λ v, bool_decide (lv_item_id v = id)) (omap (lease_of p) l) = if decide (id ∈ l) then lease_of p id else None.
Proof.
  intros Hp Hc. induction l as [|j l IH]; intros Hl; [done|].
  destruct (leased_lease p j Hp Hc) as (rec & v & _ & _ & _ & _ & Hv & Hj); [set_solver|]. cbn. rewrite Hv. cbn. rewrite Hj.
  case_bool_decide as Hd; [subst j; rewrite decide_True by set_solver; congruence|]. rewrite IH by set_solver.
  destruct (decide (id ∈ l)); [rewrite decide_True by set_solver|rewrite decide_False by set_solver]; done.
Qed.

Lemma pending_by_ids_default p (ids : list ItemId.t) :
  consistent p → leases_complete p → pending_by_ids p ids = default_pending_by_ids (pending_leases p) ids.
Proof.
  intros Hp Hc. destruct (pending_leases_all p Hp Hc) as [Hall Hids]. unfold pending_by_ids, default_pending_by_ids.
  assert (Hg : ∀ id, id ∈ ids →
    foldl (λ m lease, if bool_decide (lv_item_id lease ∈ ids) then <[lv_item_id lease := lease]> m else m) (∅ : gmap ItemId.t LeaseView)
      (pending_leases p) !! id = if decide (id ∈ pd_leased_ids p) then lease_of p id else None).
  { intros id Hid. rewrite by_id_lookup; [|rewrite Hids, elems_perm; apply NoDup_elements|done].
    rewrite Hall, find_lease by (done || (intros j; by rewrite elem_of_elems)).
    rewrite (decide_ext (id ∈ elems (pd_leased_ids p)) (id ∈ pd_leased_ids p)) by apply elem_of_elems.
    case_decide; [|by rewrite lookup_empty]. by destruct (lease_of p id). }
  revert Hg. generalize (foldl (λ m lease, if bool_decide (lv_item_id lease ∈ ids) then <[lv_item_id lease := lease]> m else m)
    (∅ : gmap ItemId.t LeaseView) (pending_leases p)) as by_id. intros by_id.
  induction ids as [|id ids IH]; intros Hg; [done|]. rewrite filter_cons. cbn. rewrite Hg by set_solver. case_decide.
  - cbn. rewrite IH by (intros; apply Hg; set_solver). done.
  - apply IH. intros; apply Hg; set_solver.
Qed.

(** ** Summaries *)

Lemma fold_min_ascending (l : list ItemId.t) a :
  StronglySorted lt_cmp (a :: l) → foldl (λ o x, opt_with id_min o x) (Some a) l = Some a.
Proof.
  revert a. induction l as [|x l IH]; intros a Hs; [done|]. inversion_clear Hs as [|?? Hl Ha]. inversion_clear Ha as [|?? Hax Ha'].
  assert (Hm : opt_with id_min (Some a) x = Some a).
  { unfold opt_with, id_min. rewrite decide_False; [done|]. unfold lt_cmp in Hax. by rewrite compare_antisym, Hax. }
  cbn [foldl]. rewrite Hm. apply IH. constructor; [by inversion Hl|done].
Qed.

Lemma fold_max_ascending (l : list ItemId.t) a :
  StronglySorted lt_cmp (a :: l) → foldl (λ o x, opt_with id_max o x) (Some a) l = last (a :: l).
Proof.
  revert a. induction l as [|x l IH]; intros a Hs; [done|]. inversion_clear Hs as [|?? Hl Ha]. inversion_clear Ha as [|?? Hax Ha'].
  assert (Hm : opt_with id_max (Some a) x = Some x).
  { unfold opt_with, id_max. rewrite decide_False; [done|]. unfold lt_cmp in Hax. by rewrite compare_antisym, Hax. }
  cbn [foldl]. rewrite Hm. by rewrite IH.
Qed.

(** What the fold of [summarize_pending] accumulates. *)
Definition token_counts (leases : list LeaseView) : gmap string Z :=
  foldl (λ m lease, partial_alter (λ n, Some (default 0 n + 1)) (lv_lease_token lease) m) ∅ leases.

Lemma summarize_parts leases :
  summarize_pending leases =
  mkPendingSummary (Z.of_nat (length leases)) (foldl (λ o x, opt_with id_min o x) None (lv_item_id <$> leases))
    (foldl (λ o x, opt_with id_max o x) None (lv_item_id <$> leases)) (btree_list (token_counts leases)).
Proof.
  unfold summarize_pending, token_counts.
  assert (Hgen : ∀ m lo hi, foldl (λ '(consumers, min_id, max_id) lease,
      (partial_alter (λ n, Some (default 0 n + 1)) (lv_lease_token lease) consumers,
       opt_with id_min min_id (lv_item_id lease), opt_with id_max max_id (lv_item_id lease))) (m : gmap string Z, lo, hi) leases =
    (foldl (λ m lease, partial_alter (λ n, Some (default 0 n + 1)) (lv_lease_token lease) m) m leases,
     foldl (λ o x, opt_with id_min o x) lo (lv_item_id <$> leases), foldl (λ o x, opt_with id_max o x) hi (lv_item_id <$> leases))).
  { induction leases as [|v l IH]; intros m lo hi; [done|]. cbn [foldl fmap list_fmap]. by rewrite IH. }
  by rewrite Hgen.
Qed.

Lemma token_counts_lookup leases token :
  token_counts leases !! token =
  let n := length (filter (λ v, lv_lease_token v = token) leases) in if decide (n = 0%nat) then None else Some (Z.of_nat n).
Proof.
  unfold token_counts.
  assert (Hgen : ∀ m : gmap string Z, foldl (λ m lease, partial_alter (λ n, Some (default 0 n + 1)) (lv_lease_token lease) m) m leases !! token =
    let n := length (filter (λ v, lv_lease_token v = token) leases) in
    if decide (n = 0%nat) then m !! token else Some (default 0 (m !! token) + Z.of_nat n)).
  { induction leases as [|v l IH]; intros m; [done|]. cbn [foldl]. rewrite IH. cbn zeta. rewrite filter_cons.
    destruct (decide (lv_lease_token v = token)) as [Ht|Ht].
    - rewrite Ht, lookup_partial_alter_eq. cbn [length]. rewrite (decide_False (P := S _ = 0%nat)) by lia.
      case_decide as Hz; [rewrite Hz; done|]. cbn. f_equal. lia.
    - by rewrite lookup_partial_alter_ne. }
  rewrite Hgen. cbn zeta. case_decide; [apply lookup_empty|]. by rewrite lookup_empty.
Qed.

Lemma omap_all_length {A B} (f : A → option B) (l : list A) : (∀ x, x ∈ l → is_Some (f x)) → length (omap f l) = length l.
Proof.
  induction l as [|x l IH]; intros Hf; [done|]. cbn. destruct (Hf x) as [y Hy]; [set_solver|]. rewrite Hy. cbn.
  rewrite IH; [done|]. intros; apply Hf; set_solver.
Qed.

Lemma length_elems (s : gset ItemId.t) : length (elems s) = size s.
Proof. by rewrite elems_perm. Qed.

Lemma token_counts_sizes p :
  consistent p → leases_complete p →
  token_counts (pending_leases p) = (λ ids : gset ItemId.t, Z.of_nat (size ids)) <$> pd_leased_by_consumer p.
Proof.
  intros Hp Hc. apply map_eq. intros token. rewrite token_counts_lookup, lookup_fmap. cbn zeta.
  rewrite (proj1 (pending_leases_all p Hp Hc)).
  rewrite <-(omap_filter (lease_of p) (λ id, (lv_lease_token <$> lease_of p id) = Some token) (λ v, lv_lease_token v = token))
    by (intros id v _ Hv; rewrite Hv; cbn; naive_solver).
  destruct (pd_leased_by_consumer p !! token) as [ids|] eqn:Hids.
  - rewrite <-(consumer_leases p token ids) by done. rewrite omap_all_length, length_elems.
    + cbn. rewrite decide_False; [done|]. intros Hz. apply size_empty_inv in Hz. apply (proj1 (co_consumer p Hp) token ids Hids).
      by apply leibniz_equiv.
    + intros id. rewrite (consumer_leases p token ids), list_elem_of_filter by done. intros [Hv _].
      destruct (lease_of p id); [by eexists|done].
  - rewrite decide_True; [done|]. rewrite filter_none; [done|]. intros id Hid%elem_of_elems Ht.
    destruct (leased_lease p id Hp Hc Hid) as (rec & v & Hrec & Hh & Htok & _ & Hv & _). rewrite Hv in Ht. injection Ht as Ht.
    assert (Hrow : has_row (pd_leased_by_consumer p) id token).
    { apply (proj2 (co_consumer p Hp)). exists rec. split; [done|]. split; [done|]. by rewrite Htok, Ht. }
    unfold has_row, posted in Hrow. rewrite Hids in Hrow. set_solver.
Qed.

Lemma pending_summary_default p : consistent p → leases_complete p → pending_summary p = summarize_pending (pending_leases p).
Proof.
  intros Hp Hc. rewrite summarize_parts, token_counts_sizes, (proj2 (pending_leases_all p Hp Hc)) by done.
  unfold pending_summary. f_equal.
  - rewrite <-length_elems, <-(proj2 (pending_leases_all p Hp Hc)). by rewrite length_fmap.
  - pose proof (elems_ascending (pd_leased_ids p)) as Hs. destruct (elems (pd_leased_ids p)) as [|a l]; [done|].
    exact (eq_sym (fold_min_ascending l a Hs)).
  - pose proof (elems_ascending (pd_leased_ids p)) as Hs. destruct (elems (pd_leased_ids p)) as [|a l]; [done|].
    exact (eq_sym (fold_max_ascending l a Hs)).
  - by rewrite btree_list_fmap.
Qed.


(** C37. A range for a consumer that holds no lease is not empty: it is the range over
    every consumer's leases. *)
Theorem pending_range_unknown_consumer p start stop token limit :
  pd_leased_by_consumer p !! token = None →
  pending_range p start stop (Some token) limit = pending_range p start stop None limit ∧
  (consistent p → default_pending_range (pending_leases p) start stop (Some token) limit = []).
Proof.
  intros Hn. split; [unfold pending_range; cbn; by rewrite Hn|]. intros Hp. unfold default_pending_range.
  rewrite filter_none; [apply take_nil|]. intros v Hv Ht. rewrite stable_sort_perm in Hv.
  apply andb_true_iff in Ht as [_ Ht]. apply bool_decide_eq_true in Ht.
  unfold pending_leases in Hv. apply list_elem_of_omap in Hv as (id & Hid%elem_of_elems & Hv).
  apply (co_leased p Hp id tt) in Hid as (rec & Hrec & Hh & _). rewrite Hrec in Hv. cbn in Hv. unfold open_lease in Hv.
  destruct (ir_lease_token rec) as [t|] eqn:Htok; [|done]. destruct (ir_lease_expires_at rec); [|done]. injection Hv as <-. cbn in Ht.
  assert (Hrow : has_row (pd_leased_by_consumer p) id token).
  { apply (proj2 (co_consumer p Hp)). exists rec. split; [done|]. split; [done|]. congruence. }
  unfold has_row, posted in Hrow. rewrite Hn in Hrow. set_solver.
Qed.
End leases.

(** ** Instances *)

Lemma sample_leases_complete : leases_complete sample_leased.
Proof.
  intros id rec Hrec _. revert id rec Hrec.
  apply (bool_decide_eq_true_1 (map_Forall (λ _ rec, is_Some (ir_lease_token rec) → is_Some (ir_lease_expires_at rec)) (pd_items sample_leased))).
  vm_compute. reflexivity.
Qed.

Lemma sample_ids_ok : ids_ok sample_leased.
Proof.
  apply (bool_decide_eq_true_1 (map_Forall (λ id _, 0 ≤ ItemId.raw id ≤ u64_max) (pd_items sample_leased))). vm_compute. reflexivity.
Qed.


Lemma pending_range_unknown_consumer_witness :
  pd_leased_by_consumer sample_leased !! "other" = None ∧
  length (pending_range sample_leased None (Some (ItemId.mk 9)) (Some "other") 5) = 1%nat ∧
  default_pending_range (pending_leases sample_leased) None (Some (ItemId.mk 9)) (Some "other") 5 = [].
Proof.
  assert (Hn : pd_leased_by_consumer sample_leased !! "other" = None) by (vm_compute; reflexivity).
  destruct (pending_range_unknown_consumer sample_leased None (Some (ItemId.mk 9)) "other" 5 Hn) as [Hr Hd].
  split; [exact Hn|]. split; [rewrite Hr; vm_compute; reflexivity|]. exact (Hd sample_leased_consistent).
Defined.
