(* ===== verification/ProjectionSide.v ===== *)
(** Reading side records by prefix, page by page. *)
From S2P Require Import Prelude Identity Priority Metadata Lifecycle CreateQueue Engine JsonEquality Ordered IndexFields Eligibility Projection ProjectionFacts ProjectionSamples ProjectionSteps ProjectionEdits ProjectionRefines ProjectionReads ProjectionReadFacts.

Section side.
Context {N : Type} `{JsonNumber N, AxonIndex N, JsonBuild N, EntityCodec N}.
Implicit Types (p : ProjectionData) (prefix key : bytes) (rows : list (bytes * bytes)).

(** A caller that follows the cursors. *)
Fixpoint read_side_pages (fuel : nat) p prefix (page_size : nat) (cursor : option bytes) : option (list (bytes * bytes)) :=
  match fuel with
  | O => None
  | S fuel =>
      let page := side_records_by_prefix p prefix page_size cursor in
      match sp_next_cursor page with
      | None => Some (sp_entries page)
      | Some next => rest ← read_side_pages fuel p prefix page_size (Some next); Some (sp_entries page ++ rest)
      end
  end.

Lemma prefix_not_below key prefix : bytes_start_with key prefix = true → bytes_cmp key prefix ≠ Lt.
Proof.
  revert key. induction prefix as [|b prefix IH]; intros [|c key]; cbn; try done.
  intros [Hb Hs]%andb_true_iff. apply bool_decide_eq_true in Hb as ->. rewrite Z.compare_refl. by apply IH.
Qed.

(** Past the first key at or above the prefix that does not start with it, none does. *)
Lemma prefix_block key key' prefix :
  bytes_cmp key prefix ≠ Lt → bytes_start_with key prefix = false → bytes_cmp key key' = Lt →
  bytes_start_with key' prefix = false.
Proof.
  revert key key'. induction prefix as [|b prefix IH]; intros [|c key] [|c' key']; cbn; try done.
  destruct (Z.compare_spec (Z_of_byte c) (Z_of_byte b)) as [Hcb|Hcb|Hcb]; try done.
  - apply Z_of_byte_inj in Hcb as ->. rewrite bool_decide_eq_true_2 by done. cbn. intros Hge Hns.
    destruct (Z.compare_spec (Z_of_byte b) (Z_of_byte c')) as [Hbc|Hbc|Hbc]; try done.
    + apply Z_of_byte_inj in Hbc as ->. rewrite bool_decide_eq_true_2 by done. cbn. by apply IH.
    + intros _. rewrite bool_decide_eq_false_2; [done|]. intros ->. lia.
  - intros _ _. destruct (Z.compare_spec (Z_of_byte c) (Z_of_byte c')) as [Hcc|Hcc|Hcc]; try done;
      intros _; rewrite bool_decide_eq_false_2; try done; intros ->; lia.
Qed.

Definition side_matching p prefix : list (bytes * bytes) :=
  filter (λ e, bytes_start_with e.1 prefix = true) (side_rows (pd_side_records p)).

Lemma side_rows_sorted (m : gmap bytes bytes) : StronglySorted (λ x y, lt_cmp x.1 y.1) (side_rows m).
Proof.
  unfold side_rows. pose proof (elems_ascending (dom m)) as Hs. revert Hs.
  induction (elems (dom m)) as [|k l IH]; intros Hs; [constructor|]. inversion_clear Hs as [|?? Hl Hk]. cbn.
  destruct (m !! k); cbn; [|by apply IH]. constructor; [by apply IH|]. apply Forall_forall. intros [k' v'] Hin.
  apply list_elem_of_omap in Hin as (k2 & Hk2 & Hv). apply fmap_Some_1 in Hv as (v2 & _ & [= -> ->]).
  rewrite Forall_forall in Hk. by apply Hk.
Qed.

Lemma elem_of_side_rows (m : gmap bytes bytes) k v : (k, v) ∈ side_rows m ↔ m !! k = Some v.
Proof.
  unfold side_rows. rewrite list_elem_of_omap. setoid_rewrite elem_of_elems. split.
  - intros (k2 & _ & Hv). apply fmap_Some_1 in Hv as (v2 & Hm & [= -> ->]). done.
  - intros Hk. exists k. rewrite Hk. split; [|done]. apply elem_of_dom. by eexists.
Qed.

(** One page of rows sorted from the prefix on. *)
Lemma side_page_rows prefix page_size rows entries :
  StronglySorted (λ x y, lt_cmp x.1 y.1) rows → (∀ e, e ∈ rows → bytes_cmp e.1 prefix ≠ Lt) →
  (length entries ≤ page_size)%nat →
  let matching := filter (λ e, bytes_start_with e.1 prefix = true) rows in
  side_page prefix page_size rows entries =
  mkSideRecordPage (entries ++ take (page_size - length entries) matching)
    (fst <$> head (drop (page_size - length entries) matching)).
Proof.
  cbn zeta. revert entries. induction rows as [|[key payload] rows IH]; intros entries Hs Hge Hlen.
  { cbn. by rewrite take_nil, drop_nil, app_nil_r. }
  inversion_clear Hs as [|?? Hl Hk]. rewrite filter_cons. cbn [side_page fst].
  destruct (bytes_start_with key prefix) eqn:Hst; cbn [negb].
  - rewrite (decide_True (P := true = true)) by done. destruct (Nat.eqb_spec (length entries) page_size) as [Heq|Hne].
    + rewrite Heq, Nat.sub_diag. cbn. by rewrite app_nil_r.
    + rewrite IH; [|done|set_solver|rewrite length_app; cbn; lia]. rewrite length_app. cbn [length].
      replace (page_size - length entries)%nat with (S (page_size - (length entries + 1))) by lia. cbn [take drop]. by rewrite <-app_assoc.
  - rewrite (decide_False (P := false = true)) by done. rewrite filter_none.
    + by rewrite take_nil, drop_nil, app_nil_r.
    + intros e He. rewrite Forall_forall in Hk. specialize (Hk e He). intros Ht.
      assert (Hf : bytes_start_with e.1 prefix = false); [|congruence].
      eapply prefix_block; [|exact Hst|exact Hk]. apply (Hge (key, payload)). set_solver.
Qed.
Lemma at_least_spec (start : bytes) (k : bytes) : at_least (Some start) k = true ↔ bytes_cmp k start ≠ Lt.
Proof. unfold at_least. rewrite negb_true_iff, bool_decide_eq_false. done. Qed.

Lemma side_matching_sorted p prefix : StronglySorted (λ x y, lt_cmp x.1 y.1) (side_matching p prefix).
Proof. apply StronglySorted_filter, side_rows_sorted. Qed.

(** Rows at or above the first key of a suffix of a sorted list are that suffix. *)
Lemma suffix_from (start : bytes) (v : bytes) before rest :
  StronglySorted (λ x y, lt_cmp x.1 y.1) (before ++ (start, v) :: rest) →
  filter (λ e, at_least (Some start) e.1 = true) (before ++ (start, v) :: rest) = (start, v) :: rest.
Proof.
  intros Hs. rewrite filter_app, filter_none, app_nil_l.
  - apply filter_every. intros e Hin. apply at_least_spec.
    apply StronglySorted_app_1_r in Hs. inversion_clear Hs as [|?? _ Hk]. rewrite Forall_forall in Hk.
    apply elem_of_cons in Hin as [-> | Hin]; cbn.
    + by rewrite (proj2 (compare_Eq start start) eq_refl : bytes_cmp start start = Eq).
    + rewrite (bytes_cmp_antisym start e.1). specialize (Hk e Hin : bytes_cmp start e.1 = Lt). by rewrite Hk.
  - intros e Hin Hge%at_least_spec. apply Hge. apply (StronglySorted_app_1_elem_of _ _ _ e (start, v) Hs); set_solver.
Qed.

Lemma side_records_suffix p prefix page_size cursor before rest :
  side_matching p prefix = before ++ rest →
  match cursor with None => before = [] | Some key => fst <$> head rest = Some key end →
  let n := Nat.min page_size 1000 in
  side_records_by_prefix p prefix page_size cursor =
  mkSideRecordPage (take n rest) (fst <$> head (drop n rest)).
Proof.
  intros Hall Hc. cbn zeta. unfold side_records_by_prefix.
  assert (Hp : ∀ e, e ∈ side_matching p prefix → bytes_cmp e.1 prefix ≠ Lt).
  { intros e [Hpre _]%list_elem_of_filter. by apply prefix_not_below. }
  rewrite side_page_rows.
  - assert (Hr : filter (λ e, bytes_start_with e.1 prefix = true)
      (filter (λ e, at_least (Some (default prefix cursor)) e.1 = true) (side_rows (pd_side_records p))) = rest).
    { rewrite list_filter_filter, (list_filter_iff _ (λ e, at_least (Some (default prefix cursor)) e.1 = true ∧ bytes_start_with e.1 prefix = true)) by tauto.
      rewrite <-list_filter_filter. fold (side_matching p prefix). destruct cursor as [key|]; cbn [default].
      - destruct rest as [|[k v] rest]; [done|]. injection Hc as ->. rewrite Hall. apply suffix_from. rewrite <-Hall. apply side_matching_sorted.
      - subst before. rewrite Hall in Hp |- *. apply filter_every. intros e Hin. apply at_least_spec. by apply Hp. }
    rewrite Hr. by rewrite Nat.sub_0_r.
  - apply StronglySorted_filter, side_rows_sorted.
  - intros e [Hge%at_least_spec _]%list_elem_of_filter. destruct cursor as [key|]; [|done]. cbn in Hge.
    destruct rest as [|[k v] rest]; [done|]. injection Hc as ->. specialize (Hp (key, v) ltac:(rewrite Hall; set_solver)). cbn in Hp.
    intros Hlt. apply Hge. destruct (bytes_cmp prefix key) eqn:Hpk.
    + apply bytes_cmp_Eq in Hpk as ->. done.
    + by eapply bytes_cmp_Lt_trans.
    + by rewrite (bytes_cmp_antisym prefix key), Hpk in Hp.
  - cbn. lia.
Qed.
Lemma read_side_suffix fuel p prefix page_size cursor before rest :
  side_matching p prefix = before ++ rest →
  match cursor with None => before = [] | Some key => fst <$> head rest = Some key end →
  (1 ≤ page_size)%nat → (length rest < fuel)%nat → read_side_pages fuel p prefix page_size cursor = Some rest.
Proof.
  revert cursor before rest. induction fuel as [|fuel IH]; intros cursor before rest Hall Hc Hn Hf; [lia|]. cbn [read_side_pages].
  rewrite (side_records_suffix p prefix page_size cursor before rest Hall Hc). cbn [sp_entries sp_next_cursor].
  set (n := Nat.min page_size 1000). destruct (drop n rest) as [|[k v] tail] eqn:Hd; cbn [head fmap option_fmap option_map fst].
  - f_equal. apply take_ge. apply (f_equal length) in Hd. rewrite length_drop in Hd. cbn in Hd. lia.
  - assert (Hlen : length (drop n rest) = (length rest - n)%nat) by apply length_drop. rewrite Hd in Hlen. cbn in Hlen.
    rewrite (IH (Some k) (before ++ take n rest) ((k, v) :: tail)); try done.
    + cbn. by rewrite <-Hd, take_drop.
    + by rewrite <-app_assoc, <-Hd, take_drop.
    + cbn. lia.
Qed.

Lemma read_side_stuck fuel p prefix cursor before rest :
  side_matching p prefix = before ++ rest → rest ≠ [] →
  match cursor with None => before = [] | Some key => fst <$> head rest = Some key end →
  read_side_pages fuel p prefix 0 cursor = None.
Proof.
  revert cursor. induction fuel as [|fuel IH]; intros cursor Hall Hne Hc; [done|]. cbn [read_side_pages].
  rewrite (side_records_suffix p prefix 0 cursor before rest Hall Hc). destruct rest as [|[k v] rest]; [done|]. cbn.
  by rewrite (IH (Some k)).
Qed.

(** Following the cursors of the side records of a prefix ends: with a page size of at
    least one, as many calls as there are matching records and one more return every
    record whose key starts with the prefix, each once and in ascending key order.  With a
    page size of zero and a matching record every page is empty and names the first match
    again, so no number of calls is enough. *)
Theorem side_paging_terminates p prefix page_size fuel :
  (length (side_matching p prefix) < fuel)%nat →
  (if (page_size =? 0)%nat
   then side_matching p prefix ≠ [] → read_side_pages fuel p prefix page_size None = None
   else read_side_pages fuel p prefix page_size None = Some (side_matching p prefix)) ∧
  (∀ key payload, (key, payload) ∈ side_matching p prefix ↔
     pd_side_records p !! key = Some payload ∧ bytes_start_with key prefix = true) ∧
  StronglySorted (λ x y, lt_cmp x.1 y.1) (side_matching p prefix).
Proof.
  intros Hf. split_and!; [| |apply side_matching_sorted].
  - destruct (Nat.eqb_spec page_size 0) as [-> | Hn].
    + intros Hne. by apply (read_side_stuck _ _ _ _ [] (side_matching p prefix)).
    + apply (read_side_suffix _ _ _ _ _ []); (done || lia).
  - intros key payload. unfold side_matching. rewrite list_elem_of_filter, elem_of_side_rows. cbn. tauto.
Qed.
End side.

(** ** An instance *)

Definition sample_side : ProjectionData :=
  (apply_command_at None None
     (CmdWriteSideRecords [mkSideRecord (as_bytes "a/1") []; mkSideRecord (as_bytes "b/1") []; mkSideRecord (as_bytes "a/2") []])
     (projection_new sample_config)).2.

Lemma side_paging_terminates_witness :
  (length (side_matching sample_side (as_bytes "a/")) < 3)%nat ∧
  read_side_pages 3 sample_side (as_bytes "a/") 1 None = Some [(as_bytes "a/1", []); (as_bytes "a/2", [])].
Proof.
  assert (Hf : (length (side_matching sample_side (as_bytes "a/")) < 3)%nat) by (vm_compute; lia).
  split; [exact Hf|]. destruct (side_paging_terminates sample_side (as_bytes "a/") 1 3 Hf) as [Hr _].
  cbn [Nat.eqb] in Hr. rewrite Hr. vm_compute. reflexivity.
Defined.
