(* ===== verification/RichClaim.v ===== *)
(** Claims in units other than the item: the checks of a claim's compatibility options
    ([fireweed-engine/src/claim_validation.rs]), the selection of whole groups, of one
    group and of whole cohorts ([fireweed-projection/src/compose_impls.rs]), and the one
    command a claim plan commits ([fireweed-engine/src/async_claim_planner.rs]). *)
From Stdlib Require Import Strings.Ascii.
From S2P Require Import Prelude Identity Priority Metadata Lifecycle CreateQueue Engine JsonEquality Ordered IndexFields Eligibility Projection ProjectionFacts ProjectionSamples ProjectionSteps ProjectionEdits ProjectionRefines ProjectionReads ProjectionReadFacts.

Implicit Types (id : ItemId.t) (r rec : ItemRecord).

(** ** Compatibility options *)

Inductive ClaimUnit := UnitItem | SameGroupKey | WholeGroup | WholeCohort.

Record ClaimCompatibility := mkClaimCompatibility {
  cc_group_key : option string;
  cc_same_group_key : bool;
  cc_metadata_equals : gmap string MetadataValue;
  cc_group_batching : option Z;  (* max_groups *)
  cc_whole_cohort : bool;
}.

Definition group_key_char (c : ascii) : bool :=
  let n := Z.of_N (N_of_ascii c) in
  ((48 <=? n) && (n <=? 57)) || ((65 <=? n) && (n <=? 90)) || ((97 <=? n) && (n <=? 122)) ||
  bool_decide (n ∈ [46; 95; 58; 45]).

Definition group_key_is_valid (key : string) : bool :=
  negb (bool_decide (key = EmptyString)) && (String.length key <=? 256)%nat &&
  forallb group_key_char (String.list_ascii_of_string key).

Section validation.
Context `{AxonEsf}.

Definition validate_claim_compatibility (compat : ClaimCompatibility) (max_items : Z) (queue : QueueDefinition)
    : EngineResult ClaimUnit :=
  if match cc_group_key compat with Some gk => negb (group_key_is_valid gk) | None => false end
  then Err (Invalid "group_key must match ^[A-Za-z0-9._:-]{1,256}$")
  else match cc_group_batching compat with
  | Some max_groups =>
      if cc_same_group_key compat || bool_decide (is_Some (cc_group_key compat)) || cc_whole_cohort compat
      then Err (Invalid "group_batching cannot be combined with same_group_key, group_key, or whole_cohort")
      else if max_groups =? 0 then Err (Invalid "group_batching.max_groups must be greater than zero")
      else match qd_max_eligible_group_size queue with
      | None => Err (Invalid "group_batching requires max_eligible_group_size")
      | Some max_group_size => if max_items <? max_group_size then Err BatchTooLarge else Ok WholeGroup
      end
  | None =>
      if cc_whole_cohort compat then
        if cc_same_group_key compat || bool_decide (is_Some (cc_group_key compat))
        then Err (Invalid "whole_cohort cannot be combined with same_group_key, group_key, or group_batching")
        else if negb (default false (enabled <$> qd_cohort_policy queue))
        then Err (Invalid "whole_cohort requires cohort_policy.enabled=true")
        else match qd_cohort_policy queue ≫= completion_bound_ms with
        | None => Err (Invalid "whole_cohort requires cohort completion_bound_ms")
        | Some bound =>
            if qd_progress_bound_ms queue <? bound
            then Err (Invalid "cohort completion_bound_ms must be <= progress_bound_ms")
            else Ok WholeCohort
        end
      else if cc_same_group_key compat then Ok SameGroupKey else Ok UnitItem
  end.

Definition require_item_level_claim (compat : ClaimCompatibility) (max_items : Z) (queue : QueueDefinition) : EngineResult unit :=
  unit_ ← validate_claim_compatibility compat max_items queue;
  match unit_ with UnitItem => Ok tt | SameGroupKey | WholeGroup | WholeCohort => Err Unavailable end.
End validation.

Record RichClaimSelection := mkRichClaimSelection { rs_item_ids : list ItemId.t; rs_cohort_id : option string }.

Definition nothing_selected : RichClaimSelection := mkRichClaimSelection [] None.

(** A call fails with an engine error or panics in an [expect]. *)
Inductive Fault := Panicked | Failed (e : EngineError).

Definition expect {A} (o : option A) : result Fault A := ok_or o Panicked.

(** ** Selection *)

Section selection.
Context {N : Type} `{JsonNumber N, AxonIndex N, JsonBuild N, EntityCodec N}.
Implicit Types (p : ProjectionData) (now : UtcTimestamp) (compat : ClaimCompatibility).

(** [eligible_candidates(now, usize::MAX)]: the index has no more rows than its size. *)
Definition all_eligible p now : list ItemId.t := eligible_candidates p now (size (elig_keys (pd_eligible p))).

Definition metadata_equal (required : gmap string MetadataValue) (item : ItemRecord) : bool :=
  forallb (λ e, bool_decide (Metadata_get (ir_metadata item) e.1 = Some e.2)) (btree_list required).

Definition metadata_matches p id (required : gmap string MetadataValue) : bool :=
  match pd_items p !! id with Some item => metadata_equal required item | None => false end.

Definition in_cohort (item : ItemRecord) : bool := match ir_cohort_size item with Some _ => true | None => false end.

(** *** Whole groups *)

Definition group_is_leased p (group_key : string) : bool :=
  existsb (λ member, bool_decide (ir_group_key member = Some group_key) && negb (in_cohort member) &&
    negb (ir_superseded member) && is_leased (ir_state member)) (map_to_list (pd_items p)).*2.

Fixpoint add_group (group_key : string) id (groups : list (string * list ItemId.t)) : list (string * list ItemId.t) :=
  match groups with
  | [] => [(group_key, [id])]
  | (group, items) :: groups =>
      if bool_decide (group = group_key) then (group, items ++ [id]) :: groups
      else (group, items) :: add_group group_key id groups
  end.

Definition batching_step p compat (groups : list (string * list ItemId.t)) id : result Fault (list (string * list ItemId.t)) :=
  item ← expect (pd_items p !! id);
  match ir_group_key item with
  | None => Ok groups
  | Some group_key =>
      if in_cohort item || negb (metadata_matches p id (cc_metadata_equals compat)) then Ok groups
      else if group_is_leased p group_key then Ok groups
      else Ok (add_group group_key id groups)
  end.

Fixpoint pick_groups (max_items : nat) (groups : list (string * list ItemId.t)) (selected : list ItemId.t)
    : result Fault (list ItemId.t) :=
  match groups with
  | [] => Ok selected
  | (_, group) :: groups =>
      if (max_items <? length group)%nat then Err (Failed BatchTooLarge)
      else if (max_items <? length selected + length group)%nat then Ok selected
      else pick_groups max_items groups (selected ++ group)
  end.

Definition select_group_batching p compat now (max_items : nat) : result Fault (list ItemId.t) :=
  let max_groups := default 0 (cc_group_batching compat) in
  if (max_groups =? 0) || (max_items =? 0)%nat then Ok []
  else groups ← try_fold (batching_step p compat) [] (all_eligible p now);
       pick_groups max_items (take (Z.to_nat max_groups) groups) [].

(** *** One group *)

Fixpoint same_group_walk p compat (max_items : nat) (ids : list ItemId.t) (selected_group : option string)
    (selected : list ItemId.t) : result Fault (list ItemId.t) :=
  match ids with
  | [] => Ok selected
  | id :: ids =>
      item ← expect (pd_items p !! id);
      match ir_group_key item with
      | None => same_group_walk p compat max_items ids selected_group selected
      | Some group_key =>
          if in_cohort item || match cc_group_key compat with Some required => negb (bool_decide (required = group_key)) | None => false end ||
             negb (metadata_matches p id (cc_metadata_equals compat)) ||
             match selected_group with Some group => negb (bool_decide (group = group_key)) | None => false end
          then same_group_walk p compat max_items ids selected_group selected
          else let selected := selected ++ [id] in
               if (length selected =? max_items)%nat then Ok selected
               else same_group_walk p compat max_items ids (Some group_key) selected
      end
  end.

Definition select_same_group p compat now (max_items : nat) : result Fault (list ItemId.t) :=
  same_group_walk p compat max_items (all_eligible p now) None [].

(** *** Whole cohorts *)

Definition cohort_open (item : ItemRecord) : bool :=
  negb (ir_superseded item) && negb (is_terminal (ir_state item)) && in_cohort item.

Definition open_records p : list ItemRecord := filter (λ item, cohort_open item = true) (map_to_list (pd_items p)).*2.

(** The keys of the [BTreeMap] of cohorts and the members of one, oldest first. *)
Definition cohort_groups p : list string := elems (list_to_set (omap ir_group_key (open_records p)) : gset string).
Definition cohort_members p (group : string) : list ItemRecord :=
  stable_sort ir_created_seq (filter (λ item, ir_group_key item = Some group) (open_records p)).

Definition complete_cohort p compat (eligible : gset ItemId.t) (group : string) : option (Z * string * list ItemRecord) :=
  let members := cohort_members p group in
  first ← head members; declared ← ir_cohort_size first;
  if (Z.of_nat (length members) =? declared) &&
     forallb (λ item, bool_decide (ir_cohort_size item = Some declared) && bool_decide (ir_item_id item ∈ eligible) &&
       metadata_matches p (ir_item_id item) (cc_metadata_equals compat)) members
  then Some (ir_created_seq first, group, members) else None.

Definition select_whole_cohort p compat now (max_items : nat) : EngineResult RichClaimSelection :=
  if pd_paused p then Ok nothing_selected
  else
    let eligible := list_to_set (all_eligible p now) in
    match head (stable_sort fst (omap (complete_cohort p compat eligible) (cohort_groups p))) with
    | None => Ok nothing_selected
    | Some (created_seq, group, members) =>
        if (max_items <? length members)%nat then Err BatchTooLarge
        else cohort_id ← map_err Storage (Identifier.new "CohortId" ("coh:" +:+ group +:+ ":" +:+ ItemId.Display (ItemId.mk created_seq)));
             Ok (mkRichClaimSelection (filter (λ id, id ∈ ir_item_id <$> members) (all_eligible p now)) (Some cohort_id))
    end.
(** *** Items *)

Definition item_visit p compat (max : nat) (s : result Fault (list ItemId.t)) id : bool * result Fault (list ItemId.t) :=
  match s with
  | Err f => (false, Err f)
  | Ok selected =>
      match pd_items p !! id with
      | None => (false, Err Panicked)
      | Some item =>
          if in_cohort item then (true, Ok selected)
          else if match cc_group_key compat with Some required => negb (bool_decide (ir_group_key item = Some required)) | None => false end
          then (true, Ok selected)
          else if negb (metadata_matches p id (cc_metadata_equals compat)) then (true, Ok selected)
          else ((length (selected ++ [id]) <? max)%nat, Ok (selected ++ [id]))
      end
  end.

Definition select_item_claim p compat now (max : nat) : result Fault (list ItemId.t) :=
  if (max =? 0)%nat then Ok []
  else if bool_decide (cc_group_key compat = None) && bool_decide (cc_metadata_equals compat = ∅)
  then Ok (eligible_candidates p now max)
  else visit_eligible_candidates p now (item_visit p compat max) (Ok []).

Definition select_rich_claim p (unit_ : ClaimUnit) compat now (max_items : nat) : result Fault RichClaimSelection :=
  match unit_ with
  | UnitItem => Err (Failed Unavailable)
  | WholeGroup => ids ← select_group_batching p compat now max_items; Ok (mkRichClaimSelection ids None)
  | SameGroupKey => ids ← select_same_group p compat now max_items; Ok (mkRichClaimSelection ids None)
  | WholeCohort => map_err Failed (select_whole_cohort p compat now max_items)
  end.

(** ** Planning *)

Record ClaimRequest := mkClaimRequest {
  cr_worker_id : string;
  cr_max_items : nat;
  cr_lease_token : string;
  cr_lease_expires_at : UtcTimestamp;
  cr_now : UtcTimestamp;
  cr_eligibility_time : option UtcTimestamp;
  cr_compatibility : ClaimCompatibility;
  cr_expected_epoch : option Z;
}.

Definition eligibility_at (request : ClaimRequest) : UtcTimestamp := default (cr_now request) (cr_eligibility_time request).

Definition select_claim p (request : ClaimRequest) (unit_ : ClaimUnit) : result Fault RichClaimSelection :=
  match unit_ with
  | UnitItem =>
      ids ← select_item_claim p (cr_compatibility request) (eligibility_at request) (cr_max_items request);
      Ok (mkRichClaimSelection ids None)
  | _ => select_rich_claim p unit_ (cr_compatibility request) (eligibility_at request) (cr_max_items request)
  end.

Definition claim_command (request : ClaimRequest) (selection : RichClaimSelection) : QueueCommand (N:=N) :=
  match rs_cohort_id selection with
  | Some cohort_id =>
      CmdCohortClaim cohort_id (rs_item_ids selection) (cr_lease_token request) (cr_lease_expires_at request)
  | None =>
      CmdClaim (rs_item_ids selection) (cr_lease_token request) (cr_lease_expires_at request) (Some (cr_worker_id request)) false
  end.

Inductive AsyncClaimPlan :=
| PlanEmpty
| PlanCommit (command : QueueCommand (N:=N)) (epoch : Z) (item_ids : list ItemId.t) (cohort_id : option string).

(** [admitted] is what the projection's [admit_mutation] answers, [current_epoch] what the
    log does. *)
Definition plan_claim p (request : ClaimRequest) (unit_ : ClaimUnit) (admitted : EngineResult unit)
    (current_epoch : EngineResult Z) : result Fault AsyncClaimPlan :=
  selection ← select_claim p request unit_;
  match rs_item_ids selection with
  | [] => Ok PlanEmpty
  | _ =>
      _ ← map_err Failed admitted;
      epoch ← map_err Failed (resolve_write_epoch_sync (cr_expected_epoch request) current_epoch);
      Ok (PlanCommit (claim_command request selection) epoch (rs_item_ids selection) (rs_cohort_id selection))
  end.
End selection.
