(* ===== verification/RichClaimFacts.v ===== *)
(** What the claim units select: whole groups, one group, one complete cohort, and that
    the planned command always applies. *)
From S2P Require Import Prelude Identity Priority Metadata Lifecycle CreateQueue Engine JsonEquality Ordered IndexFields Eligibility Projection ProjectionFacts ProjectionSamples ProjectionSteps ProjectionEdits ProjectionRefines ProjectionReads ProjectionReadFacts RichClaim.

Implicit Types (id : ItemId.t) (r rec : ItemRecord).

(** ** Grouping in order of first appearance *)

Fixpoint firsts (l : list string) : list string :=
  match l with [] => [] | g :: l => g :: filter (λ h, h ≠ g) (firsts l) end.

(** The ids of each key, the keys in order of first appearance. *)
Definition grouped (l : list (string * ItemId.t)) : list (string * list ItemId.t) :=
  (λ g, (g, (filter (λ e, e.1 = g) l).*2)) <$> firsts l.*1.

Lemma elem_of_firsts l g : g ∈ firsts l ↔ g ∈ l.
Proof.
  induction l as [|h l IH]; [done|]. cbn. rewrite !elem_of_cons, list_elem_of_filter, IH. destruct (decide (g = h)); tauto.
Qed.

Lemma NoDup_firsts l : NoDup (firsts l).
Proof.
  induction l as [|h l IH]; cbn; constructor; [|by apply NoDup_filter]. rewrite list_elem_of_filter. tauto.
Qed.

Lemma firsts_snoc l g : firsts (l ++ [g]) = if decide (g ∈ l) then firsts l else firsts l ++ [g].
Proof.
  induction l as [|h l IH]; [done|]. cbn [firsts app]. rewrite IH. destruct (decide (g ∈ h :: l)) as [Hin|Hn].
  - case_decide as Hl; [done|]. rewrite filter_app. apply elem_of_cons in Hin as [->|]; [|done].
    rewrite (filter_none _ [h]); [by rewrite app_nil_r|]. set_solver.
  - rewrite decide_False by set_solver. rewrite filter_app. f_equal. f_equal. rewrite filter_cons, decide_True by set_solver. done.
Qed.

Lemma add_group_new g id groups : g ∉ groups.*1 → add_group g id groups = groups ++ [(g, [id])].
Proof.
  induction groups as [|[h ids] groups IH]; intros Hn; [done|]. cbn in *. rewrite bool_decide_eq_false_2 by set_solver.
  rewrite IH; set_solver.
Qed.

Lemma add_group_known g id (f : string → list ItemId.t) names :
  g ∈ names → NoDup names →
  add_group g id ((λ h, (h, f h)) <$> names) = (λ h, (h, if decide (h = g) then f h ++ [id] else f h)) <$> names.
Proof.
  induction names as [|h names IH]; [set_solver|]. intros Hin [Hh Hn]%NoDup_cons. cbn. case_bool_decide as Hhg.
  - rewrite decide_True by done. f_equal. apply list_fmap_ext. intros i k Hk%list_elem_of_lookup_2.
    rewrite decide_False; [done|]. intros ->. subst. done.
  - rewrite decide_False by done. f_equal. apply IH; set_solver.
Qed.

Lemma foldl_add_group l : foldl (λ groups e, add_group e.1 e.2 groups) [] l = grouped l.
Proof.
  induction l as [|[g id] l IH] using rev_ind; [done|]. rewrite foldl_app, IH. cbn. unfold grouped.
  rewrite fmap_app. change ([(g, id)].*1) with [g]. rewrite firsts_snoc. case_decide as Hg.
  - rewrite add_group_known; [|by apply elem_of_firsts|apply NoDup_firsts]. apply list_fmap_ext. intros i h _.
    rewrite filter_app, fmap_app, filter_cons. cbn. repeat case_decide; (congruence || by rewrite ?app_nil_r).
  - rewrite add_group_new.
    + rewrite fmap_app. cbn. f_equal.
      * apply list_fmap_ext. intros i h Hh%list_elem_of_lookup_2. rewrite filter_app, fmap_app, filter_cons. cbn.
        rewrite decide_False; [by rewrite app_nil_r|]. intros Hgh. apply Hg. cbn in Hgh. rewrite Hgh. by apply elem_of_firsts.
      * rewrite filter_app, fmap_app, filter_none; [|intros [h i] Hin Hh; cbn in Hh; subst; apply Hg, list_elem_of_fmap; by exists (g, i)].
        rewrite filter_cons, decide_True by done. done.
    + rewrite <-list_fmap_compose, list_fmap_id. by rewrite elem_of_firsts.
Qed.

Definition members (l : list (string * ItemId.t)) (g : string) : list ItemId.t := (filter (λ e, e.1 = g) l).*2.

Lemma grouped_members l : grouped l = (λ g, (g, members l g)) <$> firsts l.*1.
Proof. done. Qed.

Lemma elem_of_members l g id : id ∈ members l g ↔ (g, id) ∈ l.
Proof.
  unfold members. rewrite list_elem_of_fmap. split.
  - intros ([h j] & -> & [Hh Hin]%list_elem_of_filter). cbn in Hh. by subst.
  - intros Hin. exists (g, id). by rewrite list_elem_of_filter.
Qed.

Lemma NoDup_snd_inj (l : list (string * ItemId.t)) g h id : NoDup l.*2 → (g, id) ∈ l → (h, id) ∈ l → g = h.
Proof.
  intros Hn (i & Hi)%list_elem_of_lookup (j & Hj)%list_elem_of_lookup.
  assert (i = j) as ->; [|congruence]. apply (NoDup_lookup l.*2 i j id Hn); by rewrite list_lookup_fmap, ?Hi, ?Hj.
Qed.

Lemma members_NoDup l names : NoDup names → NoDup l.*2 → NoDup (concat (members l <$> names)).
Proof.
  intros Hnames Hl. induction Hnames as [|g names Hg Hnames IH]; cbn; [constructor|]. apply NoDup_app. split_and!; [| |done].
  - eapply sublist_NoDup; [exact Hl|]. apply fmap_sublist, sublist_filter.
  - intros id Hid%elem_of_members Hin. apply list_elem_of_In, in_concat in Hin as (ids & Hids & Hid').
    apply list_elem_of_In, list_elem_of_fmap in Hids as (h & -> & Hh). apply list_elem_of_In, elem_of_members in Hid'.
    by rewrite (NoDup_snd_inj l g h id) in Hg.
Qed.

Lemma elem_of_concat_members l names id : id ∈ concat (members l <$> names) ↔ ∃ g, g ∈ names ∧ (g, id) ∈ l.
Proof.
  rewrite list_elem_of_In, in_concat. setoid_rewrite <-list_elem_of_In. split.
  - intros (ids & (g & -> & Hg)%list_elem_of_fmap & Hid%elem_of_members). by exists g.
  - intros (g & Hg & Hid). exists (members l g). split; [apply list_elem_of_fmap; by exists g|by apply elem_of_members].
Qed.

(** The first element of a stable sort is a least one. *)
Lemma stable_sort_head {A B} `{CompareLaws B} (f : A → B) (l : list A) x :
  head (stable_sort f l) = Some x → x ∈ l ∧ ∀ y, y ∈ l → compare (f y) (f x) ≠ Lt.
Proof.
  revert x. induction l as [|a l IH]; intros x; [done|]. cbn. fold (stable_sort f l).
  assert (Hrefl : compare (f a) (f a) ≠ Lt) by (by rewrite (proj2 (compare_Eq (f a) (f a)) eq_refl)).
  destruct (stable_sort f l) as [|b k] eqn:Hs; cbn.
  - intros [= <-]. split; [set_solver|]. intros y Hy. pose proof (stable_sort_perm f l) as Hp. rewrite Hs in Hp.
    rewrite <-Hp in Hy. apply list_elem_of_singleton in Hy as ->. done.
  - destruct (IH b eq_refl) as [Hb Hmin]. case_decide as Hba; intros [= <-].
    + split; [set_solver|]. intros y [->|Hy]%elem_of_cons; [|by apply Hmin]. by rewrite compare_antisym, Hba.
    + split; [set_solver|]. intros y [->|Hy]%elem_of_cons; [done|]. intros Hya. apply (Hmin y Hy).
      destruct (compare (f b) (f a)) eqn:Hc; [|done|].
      * apply compare_Eq in Hc as ->. done.
      * eapply compare_Lt_trans; [exact Hya|]. by rewrite compare_antisym, Hc.
Qed.

Section facts.
Context {N : Type} `{JsonNumber N, AxonIndex N, JsonBuild N, EntityCodecLaws N}.
Implicit Types (p : ProjectionData) (now : UtcTimestamp) (compat : ClaimCompatibility).

Lemma all_eligible_spec p now :
  consistent p → NoDup (all_eligible p now) ∧
  ∀ id, id ∈ all_eligible p now ↔ classify_claim_by_item_id p id now = Claimable.
Proof.
  intros Hp. split; [by apply candidates_claimable|]. intros id. unfold all_eligible.
  destruct (claim_order_exact p now (size (elig_keys (pd_eligible p))) Hp) as (order & _ & _ & Hin & Hperm & _ & _ & Hlen).
  rewrite Hperm, take_ge by done. apply Hin.
Qed.

Lemma claimable_record p id now : classify_claim_by_item_id p id now = Claimable → is_Some (pd_items p !! id).
Proof. unfold classify_claim_by_item_id. by destruct (pd_items p !! id). Qed.

(** ** Whole groups *)

Lemma group_is_leased_false p g :
  group_is_leased p g = false ↔
  ∀ id rec, pd_items p !! id = Some rec → ir_group_key rec = Some g → ir_cohort_size rec = None → ¬ held rec.
Proof.
  unfold group_is_leased. rewrite <-not_true_iff_false, existsb_exists. setoid_rewrite <-list_elem_of_In.
  setoid_rewrite andb_true_iff. setoid_rewrite andb_true_iff. setoid_rewrite andb_true_iff. setoid_rewrite bool_decide_eq_true.
  setoid_rewrite negb_true_iff. setoid_rewrite is_leased_spec. unfold held, live, in_cohort. split.
  - intros Hn id rec Hid Hg Hc [Hs Hl]. apply Hn. exists rec. rewrite Hc. split; [|done]. apply list_elem_of_fmap. by exists (id, rec); rewrite elem_of_map_to_list.
  - intros Hall (rec & ([id rec'] & -> & Hid%elem_of_map_to_list)%list_elem_of_fmap & ((Hg & Hc) & Hl) & Hs). apply (Hall id rec'); try done. cbn in Hc. by destruct (ir_cohort_size rec').
Qed.

(** The group an eligible item may be batched in. *)
Definition batch_group p compat id : option string :=
  item ← pd_items p !! id; group ← ir_group_key item;
  if negb (in_cohort item) && metadata_equal (cc_metadata_equals compat) item && negb (group_is_leased p group)
  then Some group else None.

Definition batched p compat (ids : list ItemId.t) : list (string * ItemId.t) :=
  omap (λ id, (λ g, (g, id)) <$> batch_group p compat id) ids.

Definition whole_groups p compat now : list (string * list ItemId.t) := grouped (batched p compat (all_eligible p now)).

Lemma elem_of_batched p compat ids g id : (g, id) ∈ batched p compat ids ↔ id ∈ ids ∧ batch_group p compat id = Some g.
Proof.
  unfold batched. rewrite list_elem_of_omap. split.
  - intros (j & Hj & Hg). apply fmap_Some_1 in Hg as (h & Hh & [= -> ->]). done.
  - intros [Hid Hg]. exists id. by rewrite Hg.
Qed.

Lemma batching_fold p compat ids groups :
  (∀ id, id ∈ ids → is_Some (pd_items p !! id)) →
  try_fold (batching_step p compat) groups ids = Ok (foldl (λ groups e, add_group e.1 e.2 groups) groups (batched p compat ids)).
Proof.
  revert groups. induction ids as [|id ids IH]; intros groups Hall; [done|]. rewrite try_fold_cons.
  destruct (Hall id) as [item Hitem]; [set_solver|]. unfold batching_step, batched, batch_group, metadata_matches. cbn.
  rewrite Hitem. cbn. destruct (ir_group_key item) as [g|]; cbn; [|apply IH; set_solver].
  destruct (in_cohort item); cbn; [apply IH; set_solver|].
  destruct (metadata_equal _ item); cbn; [|apply IH; set_solver].
  destruct (group_is_leased p g); cbn; apply IH; set_solver.
Qed.

Lemma pick_groups_spec max groups selected :
  (length selected ≤ max)%nat →
  match pick_groups max groups selected with
  | Ok out => (length out ≤ max)%nat ∧ ∃ k, out = selected ++ concat (take k groups).*2 ∧
      ∀ next, groups !! k = Some next → (length next.2 ≤ max < length out + length next.2)%nat
  | Err f => f = Failed BatchTooLarge ∧ ∃ group, group ∈ groups ∧ (max < length group.2)%nat
  end.
Proof.
  revert selected. induction groups as [|[g ids] groups IH]; intros selected Hlen; cbn [pick_groups].
  - split; [done|]. exists 0%nat. by rewrite app_nil_r.
  - destruct (Nat.ltb_spec max (length ids)) as [Hbig|Hfit].
    { split; [done|]. exists (g, ids). split; [set_solver|done]. }
    destruct (Nat.ltb_spec max (length selected + length ids)) as [Hover|Hok].
    { split; [done|]. exists 0%nat. rewrite app_nil_r. split; [done|]. by intros next [= <-]. }
    specialize (IH (selected ++ ids)). rewrite length_app in IH. specialize (IH Hok).
    destruct (pick_groups max groups (selected ++ ids)) as [out|f].
    + destruct IH as (Hl & k & -> & Hnext). split; [done|]. exists (S k). cbn. by rewrite <-app_assoc in *.
    + destruct IH as (-> & group & Hin & Hbig). split; [done|]. exists group. split; [set_solver|done].
Qed.
Lemma batched_NoDup p compat ids : NoDup ids → NoDup (batched p compat ids).*2.
Proof.
  intros Hn. eapply sublist_NoDup; [exact Hn|]. clear Hn. induction ids as [|id ids IH]; [done|]. unfold batched. cbn.
  destruct (batch_group p compat id); cbn; [by apply sublist_skip|by apply sublist_cons].
Qed.

Lemma batch_group_free p compat id g :
  batch_group p compat id = Some g →
  ∀ j rec, pd_items p !! j = Some rec → ir_group_key rec = Some g → ir_cohort_size rec = None → ¬ held rec.
Proof.
  unfold batch_group. destruct (pd_items p !! id) as [item|]; [|done]. cbn. destruct (ir_group_key item) as [h|]; [|done]. cbn.
  destruct (group_is_leased p h) eqn:Hl; [by rewrite andb_false_r|]. destruct (_ && _); [|done]. intros [= <-].
  by apply group_is_leased_false.
Qed.

Lemma taken_groups l n k : (take k (take n (grouped l))).*2 = members l <$> take k (take n (firsts l.*1)).
Proof. rewrite grouped_members, <-!fmap_take, <-list_fmap_compose. done. Qed.

Lemma select_group_batching_run p compat now max_items :
  consistent p → 
  select_group_batching p compat now max_items =
  let max_groups := default 0 (cc_group_batching compat) in
  if (max_groups =? 0) || (max_items =? 0)%nat then Ok []
  else pick_groups max_items (take (Z.to_nat max_groups) (whole_groups p compat now)) [].
Proof.
  intros Hp. unfold select_group_batching. cbn zeta. destruct (_ || _); [done|].
  rewrite batching_fold, foldl_add_group; [done|]. intros id Hid%all_eligible_spec; [|done]. by eapply claimable_record.
Qed.

Lemma elem_of_eligible_batched p compat now g id :
  consistent p → (g, id) ∈ batched p compat (all_eligible p now) ↔
  classify_claim_by_item_id p id now = Claimable ∧ batch_group p compat id = Some g.
Proof. intros Hp. rewrite elem_of_batched. by rewrite (proj2 (all_eligible_spec p now Hp)). Qed.

Lemma picked_NoDup p compat now n k : consistent p → NoDup (concat (take k (take n (whole_groups p compat now))).*2).
Proof.
  intros Hp. unfold whole_groups. rewrite taken_groups. apply members_NoDup; [|by apply batched_NoDup, all_eligible_spec].
  eapply sublist_NoDup; [apply NoDup_firsts|]. etransitivity; apply sublist_take.
Qed.

(** C9. A whole-group claim takes groups of claimable items whole, in order of their first
    claimable member, until the next one does not fit: a selected item comes with every
    claimable, matching item of its group, no item of the group is leased, at most
    [max_items] items of at most [max_groups] groups are taken, nothing is selected only
    when no item could be, and the one error is a group larger than [max_items]. *)
Theorem whole_group_claim_exact p compat now max_groups max_items :
  consistent p → cc_group_batching compat = Some max_groups → 0 < max_groups → (0 < max_items)%nat →
  let groups := take (Z.to_nat max_groups) (whole_groups p compat now) in
  match select_group_batching p compat now max_items with
  | Ok selected =>
      (∃ k, selected = concat (take k groups).*2 ∧
         ∀ next, groups !! k = Some next → (length next.2 ≤ max_items < length selected + length next.2)%nat) ∧
      (length selected ≤ max_items)%nat ∧ NoDup selected ∧
      (∀ id, id ∈ selected → classify_claim_by_item_id p id now = Claimable ∧
         ∃ g, batch_group p compat id = Some g ∧
           (∀ j rec, pd_items p !! j = Some rec → ir_group_key rec = Some g → ir_cohort_size rec = None → ¬ held rec) ∧
           (∀ j, classify_claim_by_item_id p j now = Claimable → batch_group p compat j = Some g → j ∈ selected)) ∧
      (selected = [] ↔ ∀ id, classify_claim_by_item_id p id now = Claimable → batch_group p compat id = None)
  | Err f => f = Failed BatchTooLarge ∧ ∃ group, group ∈ groups ∧ (max_items < length group.2)%nat
  end.
Proof.
  intros Hp Hb Hg Hm groups. rewrite select_group_batching_run, Hb by done. cbn [default from_option id].
  rewrite (proj2 (Z.eqb_neq _ _)), (proj2 (Nat.eqb_neq _ _)) by lia. cbn [orb]. fold groups.
  pose proof (pick_groups_spec max_items groups [] ltac:(cbn; lia)) as Hpick.
  destruct (pick_groups max_items groups []) as [selected|f]; [|done]. cbn [app] in Hpick. destruct Hpick as (Hlen & k & Hsel & Hnext).
  set (l := batched p compat (all_eligible p now)) in *. set (names := take k (take (Z.to_nat max_groups) (firsts l.*1))).
  assert (Hl : ∀ g id, (g, id) ∈ l ↔ _) by (intros g id; apply (elem_of_eligible_batched p compat now g id Hp)).
  assert (Hs : selected = concat (members l <$> names)) by (rewrite Hsel; unfold groups, whole_groups; by rewrite taken_groups).
  split_and!; [by exists k|done| | |].
  - rewrite Hsel. by apply picked_NoDup.
  - intros id. rewrite Hs, elem_of_concat_members. intros (g & Hgn & [Hc Hbg]%Hl). split; [done|]. exists g.
    split_and!; [done|by eapply batch_group_free|]. intros j Hj Hbj. apply elem_of_concat_members. exists g. by rewrite Hl.
  - split.
    + intros He id Hc. destruct (batch_group p compat id) as [g|] eqn:Hbg; [|done]. exfalso.
      assert (Hgl : (g, id) ∈ l) by (by apply Hl). destruct l as [|[g0 id0] l'] eqn:El; [set_solver|].
      destruct k as [|k'].
      * destruct (Hnext (g0, members l g0)) as [Hfit Hover]; [|rewrite He in Hover; cbn in Hover, Hfit; lia].
        unfold groups. rewrite lookup_take_lt by lia. unfold whole_groups. fold l. by rewrite El.
      * assert (Hid : id0 ∈ selected); [|rewrite He in Hid; set_solver]. rewrite Hs, elem_of_concat_members. exists g0.
        split; [|set_solver]. unfold names. cbn. destruct (Z.to_nat max_groups) eqn:En; [lia|]. cbn. set_solver.
    + intros Hnone. destruct selected as [|id selected]; [done|]. exfalso.
      assert (Hid : id ∈ id :: selected) by set_solver. rewrite Hs in Hid.
      apply elem_of_concat_members in Hid as (g & _ & [Hc Hbg]%Hl). by rewrite Hnone in Hbg.
Qed.
(** ** Whole cohorts *)

(** [ids] is a complete cohort: all open members of the group, as many as each of them
    declares, all claimable and matching. *)
Definition cohort_complete p compat now (group : string) (ids : list ItemId.t) : Prop :=
  ids ≠ [] ∧ NoDup ids ∧
  (∀ id, id ∈ ids ↔ ∃ rec, pd_items p !! id = Some rec ∧ cohort_open rec = true ∧ ir_group_key rec = Some group) ∧
  (∀ id, id ∈ ids → classify_claim_by_item_id p id now = Claimable ∧
     ∃ rec, pd_items p !! id = Some rec ∧ ir_cohort_size rec = Some (Z.of_nat (length ids)) ∧
       metadata_equal (cc_metadata_equals compat) rec = true).

Lemma elem_of_open_records p rec :
  consistent p → rec ∈ open_records p ↔ pd_items p !! ir_item_id rec = Some rec ∧ cohort_open rec = true.
Proof.
  intros Hp. unfold open_records. rewrite list_elem_of_filter, list_elem_of_fmap. split.
  - intros [Ho ([id rec'] & -> & Hin%elem_of_map_to_list)]. cbn in *. by rewrite (co_ids p Hp _ _ Hin).
  - intros [Hin Ho]. split; [done|]. exists (ir_item_id rec, rec). by rewrite elem_of_map_to_list.
Qed.

Lemma elem_of_cohort_members p group rec :
  consistent p → rec ∈ cohort_members p group ↔
  pd_items p !! ir_item_id rec = Some rec ∧ cohort_open rec = true ∧ ir_group_key rec = Some group.
Proof.
  intros Hp. unfold cohort_members. rewrite stable_sort_perm, list_elem_of_filter, elem_of_open_records by done. tauto.
Qed.

Lemma cohort_members_NoDup p group : consistent p → NoDup (ir_item_id <$> cohort_members p group).
Proof.
  intros Hp. unfold cohort_members. rewrite stable_sort_perm. eapply sublist_NoDup; [apply (NoDup_fst_map_to_list (pd_items p))|].
  etransitivity; [apply fmap_sublist, sublist_filter|]. unfold open_records.
  etransitivity; [apply fmap_sublist, sublist_filter|]. rewrite <-list_fmap_compose.
  apply reflexive_eq, list_fmap_ext. intros i [id rec] Hin%list_elem_of_lookup_2%elem_of_map_to_list. by apply (co_ids p Hp).
Qed.

Lemma complete_cohort_ids p compat now group ids :
  consistent p → cohort_complete p compat now group ids → ids ≡ₚ ir_item_id <$> cohort_members p group.
Proof.
  intros Hp (_ & Hn & Hin & _). apply NoDup_Permutation; [done|by apply cohort_members_NoDup|]. intros id. rewrite Hin, list_elem_of_fmap. split.
  - intros (rec & Hrec & Ho & Hg). exists rec. rewrite elem_of_cohort_members by done. pose proof (co_ids p Hp _ _ Hrec) as <-. done.
  - intros (rec & -> & Hrec). exists rec. by apply elem_of_cohort_members.
Qed.

Lemma cohort_complete_members p compat now group :
  consistent p → cohort_members p group ≠ [] →
  let ms := cohort_members p group in
  cohort_complete p compat now group (ir_item_id <$> ms) ↔
  ∀ item, item ∈ ms → ir_cohort_size item = Some (Z.of_nat (length ms)) ∧ ir_item_id item ∈ all_eligible p now ∧
    metadata_matches p (ir_item_id item) (cc_metadata_equals compat) = true.
Proof.
  intros Hp Hne ms. destruct (all_eligible_spec p now Hp) as [_ Hel].
  assert (Hms : ∀ rec, rec ∈ ms ↔ _) by (intros rec; apply (elem_of_cohort_members p group rec Hp)).
  unfold cohort_complete, metadata_matches. rewrite length_fmap. split.
  - intros (_ & _ & _ & Hall) item Hitem. destruct (Hall (ir_item_id item)) as [Hc (rec & Hrec & Hsize & Hmeta)].
    { apply list_elem_of_fmap. by exists item. }
    pose proof (proj1 (proj1 (Hms item) Hitem)) as Hlook. rewrite Hlook in *. injection Hrec as <-. by rewrite Hel.
  - intros Hall. split_and!.
    + by intros He%fmap_nil_inv.
    + by apply cohort_members_NoDup.
    + intros id. rewrite list_elem_of_fmap. split.
      * intros (rec & -> & Hrec%Hms). by exists rec.
      * intros (rec & Hrec & Hr). exists rec. rewrite Hms. pose proof (co_ids p Hp _ _ Hrec) as <-. done.
    + intros id (item & -> & Hitem)%list_elem_of_fmap. destruct (Hall item Hitem) as (Hsize & Hid & Hmeta). rewrite Hel in Hid.
      split; [done|]. exists item. destruct (proj1 (Hms item) Hitem) as (Hlook & _). by rewrite Hlook in *.
Qed.

Lemma complete_cohort_spec p compat now group c :
  consistent p →
  complete_cohort p compat (list_to_set (all_eligible p now)) group = Some c ↔
  cohort_complete p compat now group (ir_item_id <$> cohort_members p group) ∧
  ∃ first, head (cohort_members p group) = Some first ∧ c = (ir_created_seq first, group, cohort_members p group).
Proof.
  intros Hp. unfold complete_cohort. destruct (head (cohort_members p group)) as [first|] eqn:Hf; cbn [mbind option_bind].
  2: { split; [done|]. by intros [_ (? & [=] & _)]. }
  assert (Hne : cohort_members p group ≠ []) by (by intros He; rewrite He in Hf).
  assert (Hfirst : first ∈ cohort_members p group) by (apply head_Some_elem_of; done).
  rewrite (cohort_complete_members p compat now group Hp Hne). set (ms := cohort_members p group) in *.
  destruct (ir_cohort_size first) as [declared|] eqn:Hd; cbn [mbind option_bind].
  2: { split; [done|]. intros [Hall _]. destruct (Hall first Hfirst) as [? _]. congruence. }
  destruct (Z.eqb_spec (Z.of_nat (length ms)) declared) as [<-|Hlen]; cbn [andb].
  2: { split; [done|]. intros [Hall _]. destruct (Hall first Hfirst) as [? _]. congruence. }
  assert (Hb : forallb (λ item, bool_decide (ir_cohort_size item = Some (Z.of_nat (length ms))) &&
      bool_decide (ir_item_id item ∈ (list_to_set (all_eligible p now) : gset ItemId.t)) &&
      metadata_matches p (ir_item_id item) (cc_metadata_equals compat)) ms = true ↔
    ∀ item, item ∈ ms → ir_cohort_size item = Some (Z.of_nat (length ms)) ∧ ir_item_id item ∈ all_eligible p now ∧
      metadata_matches p (ir_item_id item) (cc_metadata_equals compat) = true).
  { rewrite forallb_forall. setoid_rewrite <-list_elem_of_In. setoid_rewrite andb_true_iff. setoid_rewrite andb_true_iff.
    setoid_rewrite bool_decide_eq_true. setoid_rewrite elem_of_list_to_set. split; intros Hall item Hi; specialize (Hall item Hi); tauto. }
  destruct (forallb _ ms).
  - split; [|intros [_ (f & [= <-] & ->)]; done]. intros [= <-]. split; [by apply Hb|]. by exists first.
  - split; [done|]. intros [Hall _]. by apply Hb in Hall.
Qed.

Lemma cohort_complete_perm p compat now group ids ids' :
  ids ≡ₚ ids' → cohort_complete p compat now group ids → cohort_complete p compat now group ids'.
Proof.
  intros Hperm (Hne & Hn & Hin & Hall). split_and!.
  - intros ->. by apply Permutation_nil_r in Hperm.
  - by rewrite <-Hperm.
  - intros id. by rewrite <-Hperm.
  - intros id. rewrite <-Hperm, <-(Permutation_length Hperm). apply Hall.
Qed.

Lemma cohort_complete_group p compat now group ids :
  consistent p → cohort_complete p compat now group ids → group ∈ cohort_groups p.
Proof.
  intros Hp (Hne & _ & Hin & _). destruct ids as [|id ids]; [done|].
  destruct (proj1 (Hin id) ltac:(set_solver)) as (rec & Hrec & Ho & Hg).
  unfold cohort_groups. apply elem_of_elems, elem_of_list_to_set, list_elem_of_omap. exists rec.
  rewrite elem_of_open_records, (co_ids p Hp _ _ Hrec) by done. done.
Qed.

(** The cohorts the selection chooses from. *)
Lemma elem_of_complete_cohorts p compat now c :
  consistent p →
  c ∈ omap (complete_cohort p compat (list_to_set (all_eligible p now))) (cohort_groups p) ↔
  ∃ group first, cohort_complete p compat now group (ir_item_id <$> cohort_members p group) ∧
    head (cohort_members p group) = Some first ∧ c = (ir_created_seq first, group, cohort_members p group).
Proof.
  intros Hp. rewrite list_elem_of_omap. setoid_rewrite (complete_cohort_spec p compat now _ c Hp). split.
  - intros (group & _ & Hc & first & Hf & ->). by exists group, first.
  - intros (group & first & Hc & Hf & ->). exists group. split; [by eapply cohort_complete_group|]. split; [done|]. by exists first.
Qed.

Lemma cohort_first_oldest p group first rec :
  head (cohort_members p group) = Some first → rec ∈ cohort_members p group → ir_created_seq first ≤ ir_created_seq rec.
Proof.
  intros [_ Hmin]%stable_sort_head Hrec. unfold cohort_members in Hrec. rewrite stable_sort_perm in Hrec.
  specialize (Hmin rec Hrec). cbn in Hmin. unfold Z_compare in Hmin. by apply Z.nlt_ge.
Qed.

Lemma paused_incomplete p compat now group ids : pd_paused p = true → ¬ cohort_complete p compat now group ids.
Proof.
  intros Hp (Hne & _ & _ & Hall). destruct ids as [|id ids]; [done|].
  destruct (Hall id ltac:(set_solver)) as [Hc _]. apply classify_claimable in Hc as [Hp' _]. congruence.
Qed.

Lemma complete_listed p compat now group ids :
  consistent p → cohort_complete p compat now group ids →
  ∃ first, head (cohort_members p group) = Some first ∧
    (ir_created_seq first, group, cohort_members p group) ∈
      omap (complete_cohort p compat (list_to_set (all_eligible p now))) (cohort_groups p).
Proof.
  intros Hp Hc. pose proof (complete_cohort_ids p compat now group ids Hp Hc) as Hperm.
  apply (cohort_complete_perm _ _ _ _ _ _ Hperm) in Hc. pose proof Hc as (Hne & _).
  destruct (cohort_members p group) as [|first ms] eqn:Hms; [done|]. exists first. split; [done|].
  apply elem_of_complete_cohorts; [done|]. exists group, first. by rewrite Hms.
Qed.

Lemma cohort_id_new rest : Identifier.new "CohortId" ("coh:" +:+ rest) = Ok ("coh:" +:+ rest).
Proof. reflexivity. Qed.

Lemma selected_cohort p compat now group :
  consistent p → let ids := ir_item_id <$> cohort_members p group in
  cohort_complete p compat now group ids → filter (λ id, id ∈ ids) (all_eligible p now) ≡ₚ ids.
Proof.
  intros Hp ids Hc. destruct (all_eligible_spec p now Hp) as [Hn Hin]. apply NoDup_Permutation; [by apply NoDup_filter|apply Hc|].
  intros id. rewrite list_elem_of_filter, Hin. split; [tauto|]. intros Hid. split; [done|]. by apply Hc.
Qed.

(** C8. A whole-cohort claim takes one complete cohort or nothing: all open members of a
    group, exactly as many as each of them declares, every one claimable and matching, in
    claim order, and no complete cohort has an older first member. It selects nothing only
    when no cohort is complete, and its one error is a chosen cohort larger than
    [max_items]. *)
Theorem whole_cohort_claim_exact p compat now max_items :
  consistent p →
  match select_whole_cohort p compat now max_items with
  | Ok (mkRichClaimSelection ids (Some cohort_id)) =>
      ∃ group seq, cohort_complete p compat now group ids ∧ ids `sublist_of` all_eligible p now ∧
        (length ids ≤ max_items)%nat ∧ cohort_id = "coh:" +:+ group +:+ ":" +:+ ItemId.Display (ItemId.mk seq) ∧
        (∃ id rec, id ∈ ids ∧ pd_items p !! id = Some rec ∧ ir_created_seq rec = seq) ∧
        (∀ group' ids' id' rec', cohort_complete p compat now group' ids' → id' ∈ ids' → pd_items p !! id' = Some rec' →
           seq ≤ ir_created_seq rec')
  | Ok (mkRichClaimSelection ids None) => ids = [] ∧ ∀ group ids, ¬ cohort_complete p compat now group ids
  | Err e => e = BatchTooLarge ∧ ∃ group ids, cohort_complete p compat now group ids ∧ (max_items < length ids)%nat
  end.
Proof.
  intros Hp. unfold select_whole_cohort. destruct (pd_paused p) eqn:Hpause.
  { split; [done|]. intros group ids. by apply paused_incomplete. }
  destruct (head (stable_sort fst _)) as [[[seq group] ms]|] eqn:Hh.
  - apply stable_sort_head in Hh as [Hin Hmin]. pose proof Hin as Hin'.
    apply elem_of_complete_cohorts in Hin as (g & first & Hc & Hf & [= -> -> ->]); [|done].
    destruct (Nat.ltb_spec max_items (length (cohort_members p g))) as [Hbig|Hfit].
    { split; [done|]. exists g, (ir_item_id <$> cohort_members p g). by rewrite length_fmap. }
    rewrite cohort_id_new. cbn. pose proof (selected_cohort p compat now g Hp Hc) as Hperm. exists g, (ir_created_seq first).
    split_and!; [by eapply cohort_complete_perm|apply sublist_filter|by rewrite Hperm, length_fmap|done| |].
    + assert (Hfirst : first ∈ cohort_members p g) by (by apply head_Some_elem_of). exists (ir_item_id first), first.
      rewrite Hperm, list_elem_of_fmap. split; [by exists first|]. split; [|done]. by apply (elem_of_cohort_members p g).
    + intros g' ids' id' rec' Hc' Hid' Hrec'. destruct (complete_listed p compat now g' ids' Hp Hc') as (first' & Hf' & Hl').
      transitivity (ir_created_seq first').
      * apply Z.nlt_ge. intros Hlt%Z.compare_lt_iff. apply (Hmin _ Hl'). apply lt_prod. by left.
      * eapply cohort_first_oldest; [exact Hf'|]. apply elem_of_cohort_members; [done|]. rewrite (co_ids p Hp _ _ Hrec').
        destruct Hc' as (_ & _ & Hmem & _). apply Hmem in Hid' as (r & Hr & Hor). by rewrite Hrec' in Hr; injection Hr as ->.
  - split; [done|]. intros group ids Hc. destruct (complete_listed p compat now group ids Hp Hc) as (first & _ & Hl).
    rewrite <-(stable_sort_perm fst) in Hl. destruct (stable_sort _ _); [set_solver|done].
Qed.

(** ** One group, and single items *)

(** The group in which an item may be claimed together with others. *)
Definition shared_group p compat id : option string :=
  item ← pd_items p !! id; group ← ir_group_key item;
  if negb (in_cohort item) && match cc_group_key compat with Some required => bool_decide (required = group) | None => true end &&
     metadata_equal (cc_metadata_equals compat) item
  then Some group else None.

Definition shared p compat (ids : list ItemId.t) : list (string * ItemId.t) :=
  omap (λ id, (λ g, (g, id)) <$> shared_group p compat id) ids.

(** One step of the walk, on an item that has a record. *)
Lemma same_group_walk_cons p compat max id ids group selected :
  is_Some (pd_items p !! id) →
  same_group_walk p compat max (id :: ids) group selected =
  match shared_group p compat id with
  | Some g =>
      if match group with Some h => bool_decide (h = g) | None => true end then
        if (length (selected ++ [id]) =? max)%nat then Ok (selected ++ [id])
        else same_group_walk p compat max ids (Some g) (selected ++ [id])
      else same_group_walk p compat max ids group selected
  | None => same_group_walk p compat max ids group selected
  end.
Proof.
  intros [item Hitem]. cbn [same_group_walk]. unfold shared_group, metadata_matches. rewrite Hitem. cbn.
  destruct (ir_group_key item) as [g|]; cbn; [|done]. destruct (in_cohort item); cbn; [done|].
  destruct (cc_group_key compat) as [required|]; cbn; [destruct (bool_decide (required = g)); cbn; [|done]|];
    (destruct (metadata_equal _ item); cbn; [|done]); (destruct group as [h|]; cbn; [|done]); by destruct (bool_decide (h = g)).
Qed.

Lemma same_group_walk_one p compat max ids g selected :
  (∀ id, id ∈ ids → is_Some (pd_items p !! id)) → (length selected < max)%nat →
  same_group_walk p compat max ids (Some g) selected =
  Ok (selected ++ take (max - length selected) (members (shared p compat ids) g)).
Proof.
  revert selected. induction ids as [|id ids IH]; intros selected Hall Hlen.
  { cbn. by rewrite take_nil, app_nil_r. }
  rewrite same_group_walk_cons by (apply Hall; set_solver). unfold shared, members. cbn [omap list_omap].
  destruct (shared_group p compat id) as [h|]; cbn [fmap option_fmap option_map]; [|apply IH; set_solver].
  rewrite filter_cons. cbn [fst]. case_bool_decide as Hgh; subst.
  - rewrite decide_True by done. cbn [fmap list_fmap snd]. destruct (max - length selected)%nat as [|n] eqn:Hd; [lia|]. cbn [take].
    rewrite length_app. cbn [length]. destruct (Nat.eqb_spec (length selected + 1) max) as [Hm|Hm].
    + replace n with 0%nat by lia. done.
    + rewrite IH; [|set_solver|rewrite length_app; cbn; lia]. rewrite length_app. cbn [length].
      replace (max - (length selected + 1))%nat with n by lia. by rewrite <-app_assoc.
  - rewrite decide_False by done. apply IH; set_solver.
Qed.

Lemma select_same_group_spec p compat now max :
  consistent p → (0 < max)%nat →
  select_same_group p compat now max =
  Ok (match shared p compat (all_eligible p now) with
      | [] => []
      | (g, _) :: _ => take max (members (shared p compat (all_eligible p now)) g)
      end).
Proof.
  intros Hp Hm. unfold select_same_group. destruct (all_eligible_spec p now Hp) as [_ Hin].
  assert (Hall : ∀ id, id ∈ all_eligible p now → is_Some (pd_items p !! id)) by (intros id Hid%Hin; by eapply claimable_record).
  clear Hin. induction (all_eligible p now) as [|id ids IH]; [done|].
  rewrite same_group_walk_cons by (apply Hall; set_solver). unfold shared. cbn [omap list_omap].
  destruct (shared_group p compat id) as [g|]; cbn [fmap option_fmap option_map]; [|apply IH; set_solver].
  unfold members. rewrite filter_cons, decide_True by done. cbn [app length fmap list_fmap snd].
  destruct max as [|max]; [lia|]. cbn [take]. destruct (Nat.eqb_spec 1 (S max)) as [Heq|Hne].
  - replace max with 0%nat by lia. done.
  - rewrite same_group_walk_one; [|set_solver|cbn; lia]. cbn [length app]. by rewrite Nat.sub_succ, Nat.sub_0_r.
Qed.

Lemma same_group_walk_sublist p compat max ids group selected :
  (∀ id, id ∈ ids → is_Some (pd_items p !! id)) →
  ∃ out, same_group_walk p compat max ids group selected = Ok (selected ++ out) ∧ out `sublist_of` ids.
Proof.
  revert group selected. induction ids as [|id ids IH]; intros group selected Hall; [exists []; by rewrite app_nil_r|].
  assert (Hskip : ∃ out, same_group_walk p compat max ids group selected = Ok (selected ++ out) ∧ out `sublist_of` id :: ids).
  { destruct (IH group selected) as (out & -> & Hout); [set_solver|]. exists out. split; [done|]. by apply sublist_cons. }
  rewrite same_group_walk_cons by (apply Hall; set_solver). destruct (shared_group p compat id) as [g|]; [|done].
  destruct (match group with Some h => bool_decide (h = g) | None => true end); [|done]. destruct (_ =? max)%nat.
  - exists [id]. split; [done|]. apply sublist_skip, sublist_nil_l.
  - destruct (IH (Some g) (selected ++ [id])) as (out & -> & Hout); [set_solver|]. exists (id :: out). rewrite <-app_assoc.
    split; [done|]. by apply sublist_skip.
Qed.

(** A single item that passes the claim's predicates. *)
Definition item_passes p compat id : bool :=
  match pd_items p !! id with
  | Some item =>
      negb (in_cohort item) && match cc_group_key compat with Some required => bool_decide (ir_group_key item = Some required) | None => true end &&
      metadata_equal (cc_metadata_equals compat) item
  | None => false
  end.

Lemma item_visit_step p compat max selected id :
  is_Some (pd_items p !! id) →
  item_visit p compat max (Ok selected) id =
  if item_passes p compat id then ((length (selected ++ [id]) <? max)%nat, Ok (selected ++ [id])) else (true, Ok selected).
Proof.
  intros [item Hitem]. unfold item_visit, item_passes, metadata_matches. rewrite Hitem. destruct (in_cohort item); [done|].
  destruct (cc_group_key compat) as [required|]; cbn [negb andb]; [case_bool_decide; cbn [negb andb]; [|done]|];
    by destruct (metadata_equal _ item).
Qed.

Lemma visit_items_spec p compat max ids selected :
  (∀ id, id ∈ ids → is_Some (pd_items p !! id)) → (length selected < max)%nat →
  visit_items (item_visit p compat max) ids (Ok selected) =
  Ok (selected ++ take (max - length selected) (filter (λ id, item_passes p compat id = true) ids)).
Proof.
  revert selected. induction ids as [|id ids IH]; intros selected Hall Hlen.
  { cbn. by rewrite take_nil, app_nil_r. }
  cbn [visit_items]. rewrite item_visit_step by (apply Hall; set_solver). rewrite filter_cons.
  destruct (item_passes p compat id); [rewrite decide_True by done|rewrite decide_False by done; apply IH; set_solver].
  destruct (max - length selected)%nat as [|n] eqn:Hd; [lia|]. cbn [take]. rewrite length_app. cbn [length].
  destruct (Nat.ltb_spec (length selected + 1) max) as [Hm|Hm].
  - rewrite IH; [|set_solver|rewrite length_app; cbn; lia]. rewrite length_app. cbn [length].
    replace (max - (length selected + 1))%nat with n by lia. by rewrite <-app_assoc.
  - replace n with 0%nat by lia. done.
Qed.

Lemma select_item_claim_spec p compat now max :
  consistent p → cc_group_key compat ≠ None ∨ cc_metadata_equals compat ≠ ∅ →
  select_item_claim p compat now max = Ok (take max (filter (λ id, item_passes p compat id = true) (claim_order p now))).
Proof.
  intros Hp Hpred. unfold select_item_claim. destruct (Nat.eqb_spec max 0) as [->|Hm]; [done|].
  replace (bool_decide (cc_group_key compat = None) && bool_decide (cc_metadata_equals compat = ∅)) with false
    by (symmetry; apply andb_false_iff; rewrite !bool_decide_eq_false; tauto).
  unfold visit_eligible_candidates. pose proof (claim_order_exact p now max Hp) as (order & -> & _ & Hin & _).
  unfold claim_order in *. destruct (pd_paused p); [cbn; by rewrite take_nil|]. rewrite visit_due_keys, visit_items_spec.
  - cbn. by rewrite Nat.sub_0_r.
  - intros id Hid%Hin. by eapply claimable_record.
  - cbn. lia.
Qed.

Lemma elem_of_shared p compat ids g id : (g, id) ∈ shared p compat ids ↔ id ∈ ids ∧ shared_group p compat id = Some g.
Proof.
  unfold shared. rewrite list_elem_of_omap. split.
  - intros (j & Hj & Hg). apply fmap_Some_1 in Hg as (h & Hh & [= -> ->]). done.
  - intros [Hid Hg]. exists id. by rewrite Hg.
Qed.

(** A filtered item claim delivers the first [max] items of the claim order that pass
    the predicates. A same-group claim delivers items of one group, at most [max], each
    claimable and matching: fewer than [max] only when the group has no more of them, and
    none only when no item passes. *)
Theorem filtered_claim_exact p compat now max :
  consistent p → (0 < max)%nat →
  (∃ order, StronglySorted (claim_before p) order ∧ (∀ id, id ∈ order ↔ classify_claim_by_item_id p id now = Claimable) ∧
     (cc_group_key compat ≠ None ∨ cc_metadata_equals compat ≠ ∅ →
      select_item_claim p compat now max = Ok (take max (filter (λ id, item_passes p compat id = true) order)))) ∧
  ∃ selected, select_same_group p compat now max = Ok selected ∧ (length selected ≤ max)%nat ∧
    (selected = [] ↔ ∀ id, classify_claim_by_item_id p id now = Claimable → shared_group p compat id = None) ∧
    ∃ group,
      (∀ id, id ∈ selected → classify_claim_by_item_id p id now = Claimable ∧ shared_group p compat id = Some group) ∧
      (selected ≠ [] → (length selected < max)%nat → ∀ id, classify_claim_by_item_id p id now = Claimable →
         shared_group p compat id = Some group → id ∈ selected).
Proof.
  intros Hp Hm. split.
  { destruct (claim_order_exact p now max Hp) as (order & Ho & Hs & Hin & _). exists order. split_and!; [done..|].
    intros Hpred. by rewrite Ho, select_item_claim_spec. }
  rewrite select_same_group_spec by done. destruct (all_eligible_spec p now Hp) as [_ Hel].
  assert (Hin : ∀ g id, (g, id) ∈ shared p compat (all_eligible p now) ↔
    classify_claim_by_item_id p id now = Claimable ∧ shared_group p compat id = Some g) by (intros; by rewrite elem_of_shared, Hel).
  destruct (shared p compat (all_eligible p now)) as [|[g id0] l] eqn:Hl; (eexists; split; [done|]).
  - split; [cbn; lia|]. split; [|exists EmptyString; set_solver]. split; [|done]. intros _ id Hc.
    destruct (shared_group p compat id) as [g|] eqn:Hg; [|done]. exfalso. assert (Hbad : (g, id) ∈ []) by (by apply Hin). set_solver.
  - rewrite <-Hl in *. set (ms := members (shared p compat (all_eligible p now)) g).
    assert (Hms : ∀ id, id ∈ ms ↔ _) by (intros id; apply elem_of_members). split; [rewrite length_take; lia|].
    assert (Hid0 : id0 ∈ ms) by (apply Hms; rewrite Hl; set_solver). split.
    + split; [|intros Hnone; apply Hms, Hin in Hid0 as [Hc Hg]; by rewrite Hnone in Hg].
      intros He. destruct ms; [set_solver|]. destruct max; [lia|done].
    + exists g. split.
      * intros id Hid. apply Hin, Hms. eapply elem_of_sublist; [exact Hid|apply sublist_take].
      * intros _ Hlt id Hc Hg. rewrite length_take in Hlt. rewrite take_ge by lia. apply Hms. by apply Hin.
Qed.

(** ** Planning *)

Lemma take_groups_claimable p compat now max selected :
  consistent p → select_group_batching p compat now max = Ok selected →
  NoDup selected ∧ (∀ id, id ∈ selected → classify_claim_by_item_id p id now = Claimable) ∧ (length selected ≤ max)%nat.
Proof.
  intros Hp. rewrite select_group_batching_run by done. cbn zeta. destruct (_ || _).
  { intros [= <-]. split_and!; [constructor|set_solver|cbn; lia]. }
  intros Hr. pose proof (pick_groups_spec max (take (Z.to_nat (default 0 (cc_group_batching compat))) (whole_groups p compat now)) [] ltac:(cbn; lia)) as Hpick.
  rewrite Hr in Hpick. destruct Hpick as (Hlen & k & -> & _). cbn [app] in *. split_and!; [by apply picked_NoDup| |done].
  intros id. unfold whole_groups. rewrite taken_groups, elem_of_concat_members. intros (g & _ & Hin). by apply (elem_of_eligible_batched p compat now g id Hp).
Qed.

(** What every selection guarantees. *)
Definition sound_selection p now (max : nat) (r : result Fault RichClaimSelection) : Prop :=
  match r with
  | Ok selection => NoDup (rs_item_ids selection) ∧
      (∀ id, id ∈ rs_item_ids selection → classify_claim_by_item_id p id now = Claimable) ∧
      ((0 < max)%nat → (length (rs_item_ids selection) ≤ max)%nat)
  | Err Panicked => False
  | Err (Failed _) => True
  end.

Lemma sublist_sound p now (ids : list ItemId.t) cohort_id max :
  consistent p → ids `sublist_of` all_eligible p now → ((0 < max)%nat → (length ids ≤ max)%nat) →
  sound_selection p now max (Ok (mkRichClaimSelection ids cohort_id)).
Proof.
  intros Hp Hsub Hlen. destruct (all_eligible_spec p now Hp) as [Hn Hin]. split_and!; [by eapply sublist_NoDup| |done].
  intros id Hid. apply Hin. by eapply elem_of_sublist.
Qed.

Lemma select_item_sound p compat now max :
  consistent p → ∃ ids, select_item_claim p compat now max = Ok ids ∧ sound_selection p now max (Ok (mkRichClaimSelection ids None)).
Proof.
  intros Hp. destruct (claim_order_exact p now max Hp) as (order & Ho & Hs & Hin & Hperm & _).
  assert (Hn : NoDup order) by (eapply sorted_nodup; [|exact Hs]; intros id (r & r' & Hr & Hr' & Hlt); replace r' with r in Hlt by congruence; by apply lt_cmp_irrefl in Hlt).
  destruct (decide (cc_group_key compat ≠ None ∨ cc_metadata_equals compat ≠ ∅)) as [Hpred|Hpred].
  - rewrite select_item_claim_spec by done. rewrite <-Ho. eexists. split; [done|]. split_and!; cbn.
    + eapply sublist_NoDup; [exact Hn|]. etransitivity; [apply sublist_take|apply sublist_filter].
    + intros id Hid. apply Hin. eapply elem_of_sublist; [exact Hid|]. etransitivity; [apply sublist_take|apply sublist_filter].
    + intros _. rewrite length_take. lia.
  - unfold select_item_claim. destruct (max =? 0)%nat; [exists []; split; [done|]; split_and!; [constructor|set_solver|cbn; lia]|].
    rewrite !bool_decide_eq_true_2 by (apply dec_stable; tauto). cbn. eexists. split; [done|]. split_and!; cbn.
    + rewrite Hperm. eapply sublist_NoDup; [exact Hn|apply sublist_take].
    + intros id. rewrite Hperm. intros Hid. apply Hin. eapply elem_of_sublist; [exact Hid|apply sublist_take].
    + intros _. rewrite Hperm, length_take. lia.
Qed.

Lemma select_cohort_sound p compat now max :
  consistent p → sound_selection p now max (map_err Failed (select_whole_cohort p compat now max)).
Proof.
  intros Hp. unfold select_whole_cohort. destruct (pd_paused p); [by apply sublist_sound; [|apply sublist_nil_l|cbn; lia]|].
  destruct (head _) as [[[seq g] ms]|] eqn:Hh; [|by apply sublist_sound; [|apply sublist_nil_l|cbn; lia]].
  destruct (Nat.ltb_spec max (length ms)) as [|Hfit]; [done|]. rewrite cohort_id_new. cbn [mbind result_bind map_err].
  apply stable_sort_head in Hh as [Hin _]. apply elem_of_complete_cohorts in Hin as (g' & first & Hc & _ & [= -> -> ->]); [|done].
  apply sublist_sound; [done|apply sublist_filter|]. intros _. by rewrite (selected_cohort p compat now g' Hp Hc), length_fmap.
Qed.

Lemma select_claim_sound p request unit_ :
  consistent p → sound_selection p (eligibility_at request) (cr_max_items request) (select_claim p request unit_).
Proof.
  intros Hp. set (now := eligibility_at request). set (max := cr_max_items request). set (compat := cr_compatibility request).
  unfold select_claim. destruct unit_; fold now max compat; cbn [select_rich_claim].
  - destruct (select_item_sound p compat now max Hp) as (ids & -> & Hs). done.
  - destruct (same_group_walk_sublist p compat max (all_eligible p now) None []) as (out & Hr & Hsub).
    { intros id Hid%all_eligible_spec; [|done]. by eapply claimable_record. }
    fold (select_same_group p compat now max) in Hr. rewrite Hr. apply sublist_sound; [done..|]. intros Hm.
    rewrite select_same_group_spec in Hr by done. cbn [app] in Hr. injection Hr as Hr. rewrite <-Hr.
    destruct (shared _ _ _) as [|[]]; [cbn; lia|]. cbn [app]. rewrite length_take. lia.
  - pose proof (take_groups_claimable p compat now max) as Hg. rewrite select_group_batching_run in * by done. cbn zeta in *.
    destruct (_ || _); [by apply sublist_sound; [|apply sublist_nil_l|cbn; lia]|].
    pose proof (pick_groups_spec max (take (Z.to_nat (default 0 (cc_group_batching compat))) (whole_groups p compat now)) [] ltac:(cbn; lia)) as Hpick.
    destruct (pick_groups _ _ _) as [ids|f]; [|by destruct Hpick as [-> _]]. destruct (Hg ids Hp eq_refl) as (? & ? & ?). done.
  - by apply select_cohort_sound.
Qed.

Lemma leased_record_holds token expires rec :
  live rec → held (leased_record token expires rec) ∧ ir_lease_token (leased_record token expires rec) = Some token ∧
  ir_lease_expires_at (leased_record token expires rec) = Some expires.
Proof.
  intros Hl. split_and!; [|done..]. split; [exact (transition_record_state rec Leased None None)|].
  unfold live. change (ir_superseded (transition_record rec Leased None None) = false).
  unfold transition_record. by repeat case_match.
Qed.

Lemma planned_run p ta tp (request : ClaimRequest) selection :
  consistent p → NoDup (rs_item_ids selection) →
  (∀ id, id ∈ rs_item_ids selection → classify_claim_by_item_id p id (eligibility_at request) = Claimable) →
  ∃ p', apply_command_at ta tp (claim_command request selection) p = (Ok tt, p') ∧ consistent p' ∧
    ∀ id, pd_items p' !! id =
      if decide (id ∈ rs_item_ids selection)
      then match rs_cohort_id selection with
           | Some _ => cohort_claimed_record (cr_lease_token request) (cr_lease_expires_at request)
           | None => claimed_record (cr_lease_token request) (cr_lease_expires_at request) (Some (cr_worker_id request))
           end <$> pd_items p !! id
      else pd_items p !! id.
Proof.
  intros Hp Hn Hc.
  assert (Hpend : pending_all p (rs_item_ids selection)).
  { split; [done|]. intros id Hid. apply Hc, classify_claimable in Hid as (_ & rec & Hrec & Hcl & _). exists rec. split; [done|]. by eapply claimable_pending. }
  destruct (command_runs p ta tp (claim_command request selection) Hp) as (p' & Hr & Hp' & _ & Hv).
  { unfold claim_command. by destruct (rs_cohort_id selection). }
  exists p'. split_and!; [done..|]. intros id. unfold claim_command in Hv.
  destruct (rs_cohort_id selection); cbn [spec_command] in Hv; by apply (each_record_items _ _ p p' id Hn Hv).
Qed.

(** C6. Planning a claim never panics, and a plan always applies: its command leases
    exactly the selected items, all of them claimable at the eligibility instant and at
    most [max_items] of them, under the one new token, and touches no other record; the
    commit is stamped with the epoch the write fence resolved. *)
Theorem claim_plan_applies p request unit_ admitted current_epoch ta tp :
  consistent p →
  match plan_claim p request unit_ admitted current_epoch with
  | Ok (PlanCommit command epoch ids cohort_id) =>
      resolve_write_epoch_sync (cr_expected_epoch request) current_epoch = Ok epoch ∧ NoDup ids ∧ ids ≠ [] ∧
      ((0 < cr_max_items request)%nat → (length ids ≤ cr_max_items request)%nat) ∧
      ∃ p', apply_command_at ta tp command p = (Ok tt, p') ∧ consistent p' ∧
        (∀ id, id ∈ ids → classify_claim_by_item_id p id (eligibility_at request) = Claimable ∧
           ∃ rec, pd_items p' !! id = Some rec ∧ held rec ∧ ir_lease_token rec = Some (cr_lease_token request) ∧
             ir_lease_expires_at rec = Some (cr_lease_expires_at request)) ∧
        (∀ id, id ∉ ids → pd_items p' !! id = pd_items p !! id)
  | Ok PlanEmpty => ∃ cohort_id, select_claim p request unit_ = Ok (mkRichClaimSelection [] cohort_id)
  | Err f => f ≠ Panicked
  end.
Proof.
  intros Hp. pose proof (select_claim_sound p request unit_ Hp) as Hs. unfold plan_claim.
  destruct (select_claim p request unit_) as [[ids cohort_id]|[|e]]; cbn [mbind result_bind]; [|done..].
  destruct Hs as (Hn & Hc & Hlen). cbn [rs_item_ids rs_cohort_id] in *. destruct ids as [|id0 ids0] eqn:Hids; [by eexists|]. rewrite <-Hids in *.
  destruct admitted as [|e]; cbn [mbind result_bind map_err]; [|done].
  destruct (resolve_write_epoch_sync _ _) as [epoch|e] eqn:He; cbn [mbind result_bind map_err]; [|done].
  split_and!; [done|done|by rewrite Hids|done|].
  destruct (planned_run p ta tp request (mkRichClaimSelection ids cohort_id) Hp Hn Hc) as (p' & Hr & Hp' & Hi).
  cbn [rs_item_ids rs_cohort_id] in Hi. exists p'. split_and!; [done..| |].
  - intros id Hid. split; [by apply Hc|]. specialize (Hi id). rewrite decide_True in Hi by done.
    destruct (claimable_record p id _ (Hc id Hid)) as [rec Hrec]. rewrite Hrec in Hi. cbn in Hi. 
    assert (Hl : live rec) by (destruct (proj1 (classify_claimable p id _) (Hc id Hid)) as (_ & r & Hr' & Hcl & _); rewrite Hrec in Hr';
      injection Hr' as <-; by eapply claimable_pending).
    destruct (leased_record_holds (cr_lease_token request) (cr_lease_expires_at request) rec Hl) as (Hh & Ht & Hx).
    eexists. split; [exact Hi|]. by destruct cohort_id.
  - intros id Hid. by rewrite Hi, decide_False.
Qed.
End facts.

(** ** Instances *)

Definition grouped_push (id : Z) (key group : string) (cohort_size : option Z) : PushItem (N:=Z) :=
  mkPushItem key (ItemId.mk id) None None (Some group) 3 None {["sku" := as_bytes key]} Metadata_new cohort_size [] ∅ None.

Definition grouped_pushes : list (PushItem (N:=Z)) :=
  [grouped_push 1 "a" "red" None; grouped_push 2 "b" "blue" None; grouped_push 3 "c" "red" None;
   grouped_push 4 "d" "pair" (Some 2); grouped_push 5 "e" "pair" (Some 2)].

Definition sample_grouped : ProjectionData := (apply_command_at None None (CmdPush grouped_pushes) (projection_new sample_config)).2.

Lemma sample_grouped_consistent : consistent sample_grouped.
Proof.
  apply runs_to; [apply consistent_new|]. constructor.
  - apply (bool_decide_eq_true_1 _). vm_compute. reflexivity.
  - intros item _. done.
  - apply (bool_decide_eq_true_1 _). vm_compute. reflexivity.
  - intros item k _ _. done.
  - vm_compute. reflexivity.
  - vm_compute. discriminate.
Qed.

Definition any_claim : ClaimCompatibility := mkClaimCompatibility None false ∅ None false.
Definition batching_claim : ClaimCompatibility := mkClaimCompatibility None false ∅ (Some 1) false.

Lemma whole_group_claim_exact_witness :
  consistent sample_grouped ∧
  select_group_batching sample_grouped batching_claim (at_second 1) 2 = Ok [ItemId.mk 1; ItemId.mk 3] ∧
  ItemId.mk 3 ∈ [ItemId.mk 1; ItemId.mk 3].
Proof.
  split; [apply sample_grouped_consistent|].
  assert (Hr : select_group_batching sample_grouped batching_claim (at_second 1) 2 = Ok [ItemId.mk 1; ItemId.mk 3]) by (vm_compute; reflexivity).
  split; [exact Hr|].
  pose proof (whole_group_claim_exact sample_grouped batching_claim (at_second 1) 1 2 sample_grouped_consistent eq_refl
    ltac:(lia) ltac:(lia)) as Hw.
  cbn zeta in Hw. rewrite Hr in Hw. destruct Hw as (_ & _ & _ & Hall & _).
  destruct (Hall (ItemId.mk 1) ltac:(left)) as (_ & g & Hg & _ & Hmates). apply Hmates; [vm_compute; reflexivity|].
  rewrite <-Hg. vm_compute. reflexivity.
Defined.

Lemma whole_cohort_claim_exact_witness :
  consistent sample_grouped ∧
  ∃ ids cohort_id, select_whole_cohort sample_grouped any_claim (at_second 1) 5 = Ok (mkRichClaimSelection ids (Some cohort_id)) ∧
    cohort_id = "coh:pair:3" ∧ (length ids ≤ 5)%nat.
Proof.
  split; [apply sample_grouped_consistent|].
  pose proof (whole_cohort_claim_exact sample_grouped any_claim (at_second 1) 5 sample_grouped_consistent) as Hw.
  assert (Hr : select_whole_cohort sample_grouped any_claim (at_second 1) 5 =
    Ok (mkRichClaimSelection [ItemId.mk 4; ItemId.mk 5] (Some "coh:pair:3"))) by (vm_compute; reflexivity).
  rewrite Hr in Hw. destruct Hw as (g & seq & _ & _ & Hlen & _). eexists _, _. split; [exact Hr|]. split; [reflexivity|exact Hlen].
Defined.

Lemma filtered_claim_exact_witness :
  consistent sample_grouped ∧ ∃ selected, select_same_group sample_grouped any_claim (at_second 1) 3 = Ok selected ∧
    (length selected ≤ 3)%nat ∧ selected ≠ [].
Proof.
  split; [apply sample_grouped_consistent|].
  destruct (filtered_claim_exact sample_grouped any_claim (at_second 1) 3 sample_grouped_consistent ltac:(lia))
    as (_ & selected & Hr & Hlen & Hnil & _).
  exists selected. split; [exact Hr|]. split; [exact Hlen|]. intros He.
  assert (Hbad : shared_group sample_grouped any_claim (ItemId.mk 1) = None); [|vm_compute in Hbad; discriminate].
  apply (proj1 Hnil He). vm_compute. reflexivity.
Defined.

Definition sample_request : ClaimRequest :=
  mkClaimRequest "worker" 2 "lease" (at_second 60) (at_second 1) None batching_claim None.

Lemma claim_plan_applies_witness :
  consistent sample_grouped ∧
  ∃ p', apply_command_at None None (CmdClaim [ItemId.mk 1; ItemId.mk 3] "lease" (at_second 60) (Some "worker") false) sample_grouped = (Ok tt, p') ∧
    consistent p' ∧ pd_items p' !! ItemId.mk 2 = pd_items sample_grouped !! ItemId.mk 2.
Proof.
  split; [apply sample_grouped_consistent|].
  pose proof (claim_plan_applies sample_grouped sample_request WholeGroup (Ok tt) (Ok 7) None None sample_grouped_consistent) as Hw.
  assert (Hr : plan_claim (N:=Z) sample_grouped sample_request WholeGroup (Ok tt) (Ok 7) =
    Ok (PlanCommit (CmdClaim [ItemId.mk 1; ItemId.mk 3] "lease" (at_second 60) (Some "worker") false) 7 [ItemId.mk 1; ItemId.mk 3] None))
    by (vm_compute; reflexivity).
  rewrite Hr in Hw. destruct Hw as (_ & _ & _ & _ & p' & Happly & Hp' & _ & Hframe).
  exists p'. split; [exact Happly|]. split; [exact Hp'|]. apply Hframe. apply (bool_decide_eq_true_1 _). vm_compute. reflexivity.
Defined.
