(* ===== verification/ProjectionStore.v ===== *)
(** The in-memory projection of all queues ([InMemoryProjection] of
    [fireweed-projection/src/compose_impls.rs]): applying committed commands, installing a
    recovered queue, and the expired-lease pages over every queue. *)
From S2P Require Import Prelude Identity Priority Metadata Lifecycle CreateQueue Engine JsonEquality Ordered IndexFields Eligibility Projection ProjectionFacts ProjectionSamples ProjectionSteps ProjectionEdits ProjectionRefines ProjectionReads ProjectionReadFacts RichClaim.

Implicit Types (id : ItemId.t) (r rec : ItemRecord).

#[export] Instance QueueKey_compare : Compare QueueKey := compare_on (λ k, (tenant_id k, queue_id k)).
#[export] Instance QueueKey_compare_laws : CompareLaws QueueKey.
Proof. apply compare_on_laws. by intros [] [] [= -> ->]. Qed.

(** [ExpiredLeaseCursor]: the JSON text of the row it names. *)
Class CursorCodec := {
  cursor_to_string : Z * string * string * string → string;
  cursor_from_str : string → result string (Z * string * string * string);
}.
Class CursorCodecLaws `{CursorCodec} := cursor_roundtrip row : cursor_from_str (cursor_to_string row) = Ok row.

(** [DefaultHasher] of a queue key. *)
Class QueueHash := queue_hash : QueueKey → Z.

(** What [saturating_mul] and [saturating_add] return for an exact result. *)
Definition clamp_i64 (z : Z) : Z := Z.max i64_min (Z.min i64_max z).

(** [FxHashMap<QueueKey, ProjectionData>]. *)
Abbreviation Projections := (gmap QueueKey ProjectionData).

Section store.
Context {N : Type} `{JsonNumber N, AxonIndex N, JsonBuild N, EntityCodec N} `{CursorCodec, QueueHash}.
Implicit Types (p : ProjectionData) (now : UtcTimestamp) (queue : QueueKey).

(** What the projection reads of an envelope. *)
Record CommandEnvelope := mkCommandEnvelope {
  ce_command : QueueCommand (N:=N);
  ce_created_at : UtcTimestamp;
}.

Implicit Types (m : Projections).

Definition queue_of (definition : QueueDefinition) : QueueKey := mkQueueKey (qd_tenant_id definition) (qd_queue_id definition).

Definition ensure_shard (definition : QueueDefinition) m : Projections :=
  match m !! queue_of definition with
  | Some _ => m
  | None => <[queue_of definition := projection_new (config_of definition)]> m
  end.

(** Commands in log order; what was applied before an error stays. *)
Fixpoint apply_each (apply : option UtcTimestamp → option CommandPosition → QueueCommand (N:=N) → M unit)
    (log : list (CommandPosition * CommandEnvelope)) m : EngineResult unit * Projections :=
  match log with
  | [] => (Ok tt, m)
  | (position, envelope) :: log =>
      match m !! cp_queue position with
      | None => (Err NotFound, m)
      | Some p =>
          match apply (Some (ce_created_at envelope)) (Some position) (ce_command envelope) p with
          | (Ok _, p) => apply_each apply log (<[cp_queue position := p]> m)
          | (Err e, p) => (Err e, <[cp_queue position := p]> m)
          end
      end
  end.

Definition apply_borrowed (positions : list CommandPosition) (commands : list CommandEnvelope) m
    : EngineResult unit * Projections :=
  apply_each apply_command_at (zip positions commands) m.

Definition apply_live_owned (positions : list CommandPosition) (commands : list CommandEnvelope) m
    : EngineResult unit * Projections :=
  if negb (length positions =? length commands)%nat
  then (Err (Storage "apply_live_owned: positions/commands length mismatch"), m)
  else apply_each apply_command_owned_at (zip positions commands) m.

(** Materialization against a private replacement. *)
Definition replay_command (entry : CommandPosition * CommandEnvelope) : M unit :=
  apply_command_at (Some (ce_created_at entry.2)) (Some entry.1) (ce_command entry.2).

Definition install_recovery_shard (definition : QueueDefinition) (positions : list CommandPosition)
    (commands : list CommandEnvelope) m : EngineResult unit * Projections :=
  if negb (length positions =? length commands)%nat
  then (Err (Storage "recovery install positions/commands length mismatch"), m)
  else match for_each replay_command (zip positions commands) (projection_new (config_of definition)) with
       | (Ok _, replacement) => (Ok tt, <[queue_of definition := replacement]> m)
       | (Err e, _) => (Err e, m)
       end.

Definition hydrate_shard (definition : QueueDefinition) (image : ProjectionImage) m : EngineResult unit * Projections :=
  match hydrate (config_of definition) image with
  | Ok projection => (Ok tt, <[queue_of definition := projection]> m)
  | Err e => (Err e, m)
  end.

(** ** Expired leases of every queue *)

Definition queue_worker_partition queue (partitions : Z) : result Fault Z :=
  if 0 <? partitions then Ok (queue_hash queue mod partitions) else Err Panicked.

Definition LeaseRow : Type := UtcTimestamp * (QueueKey * ItemId.t).

Definition cursor_of_row (row : LeaseRow) : string :=
  let '(expiry, (queue, item)) := row in
  cursor_to_string
    (clamp_i64 (clamp_i64 (seconds expiry * 1000000000) + nanoseconds expiry),
     tenant_id queue, queue_id queue, ItemId.Display item).

(** [expiry.div_euclid(1e9)] and [rem_euclid]. *)
Definition row_of_cursor (cursor : string) : EngineResult (UtcTimestamp * QueueKey * ItemId.t) :=
  '(expiry, tenant, queue, item) ← map_err (λ error, Storage ("invalid expired lease cursor: " +:+ error)) (cursor_from_str cursor);
  t ← map_err Storage (UtcTimestamp_new (expiry / 1000000000) (expiry mod 1000000000));
  i ← map_err Storage (ItemId.new item);
  Ok (t, mkQueueKey tenant queue, i).

Definition queue_rows now (after : option (UtcTimestamp * QueueKey * ItemId.t)) (limit : nat) queue p : list LeaseRow :=
  let projection_after := (λ a : UtcTimestamp * QueueKey * ItemId.t, (a.1.1, compare queue a.1.2, a.2)) <$> after in
  (λ row, (row.1, (queue, row.2))) <$> (expired_leases_after p now projection_after limit).1.

Definition add_queue_rows now after (limit : nat) (worker_partition : option (Z * Z)) (rows : list LeaseRow)
    (shard : QueueKey * ProjectionData) : result Fault (list LeaseRow) :=
  skip ← match worker_partition with
         | Some (index, partitions) => at_index ← queue_worker_partition shard.1 partitions; Ok (negb (at_index =? index))
         | None => Ok false
         end;
  Ok (if (skip : bool) then rows
      else take (S limit) (stable_sort (λ row, row) (rows ++ queue_rows now after (S limit) shard.1 shard.2))).

Fixpoint group_rows (rows : list LeaseRow) (leases : list (QueueKey * list ItemId.t)) : list (QueueKey * list ItemId.t) :=
  match rows with
  | [] => leases
  | (_, (queue, item)) :: rows =>
      group_rows rows
        (match last leases with
         | Some (q, ids) => if bool_decide (q = queue) then removelast leases ++ [(q, ids ++ [item])] else leases ++ [(queue, [item])]
         | None => [(queue, [item])]
         end)
  end.

Record ExpiredLeasePage := mkExpiredLeasePage { ep_leases : list (QueueKey * list ItemId.t); ep_next : option string }.

Definition expired_leases_page m now (cursor : option string) (limit : nat) (worker_partition : option (Z * Z))
    : result Fault ExpiredLeasePage :=
  if (limit =? 0)%nat then Err (Failed (Invalid "expired lease page limit must be nonzero"))
  else
    after ← match cursor with None => Ok None | Some c => Some <$> map_err Failed (row_of_cursor c) end;
    rows ← try_fold (add_queue_rows now after limit worker_partition) [] (map_to_list m);
    let page := take limit rows in
    Ok (mkExpiredLeasePage (group_rows page []) (if (limit <? length rows)%nat then cursor_of_row <$> last page else None)).

Definition all_expired_leases m now : list (QueueKey * list ItemId.t) :=
  filter (λ e, e.2 ≠ []) ((λ e : QueueKey * ProjectionData, (e.1, expired_leases e.2 now)) <$> map_to_list m).
End store.
