(* ===== verification/ProjectionStoreFacts.v ===== *)
(** Recovery installs what live application built; following the expired-lease pages
    visits every lapsed lease of every queue once. *)
From S2P Require Import Prelude Identity Priority Metadata Lifecycle CreateQueue Engine JsonEquality Ordered IndexFields Eligibility Projection ProjectionFacts ProjectionSamples ProjectionSteps ProjectionEdits ProjectionRefines ProjectionReads ProjectionReadFacts RichClaim ProjectionStore.

Implicit Types (id : ItemId.t) (r rec : ItemRecord).

Section recovery.
Context {N : Type} `{JsonNumber N, AxonIndex N, JsonBuild N, EntityCodecLaws N}.
Implicit Types (p : ProjectionData) (m : Projections) (log : list (CommandPosition * CommandEnvelope (N:=N))).

Lemma apply_owned_same ta tp (cmd : QueueCommand (N:=N)) : apply_command_owned_at ta tp cmd = apply_command_at ta tp cmd.
Proof. by destruct cmd. Qed.

(** A log of one queue applied in the store is the log applied to its projection. *)
Lemma apply_each_one queue log m p :
  m !! queue = Some p → (∀ entry, entry ∈ log → cp_queue entry.1 = queue) →
  apply_each apply_command_owned_at log m =
  let '(r, p') := for_each replay_command log p in (r, <[queue := p']> m).
Proof.
  revert m p. induction log as [|[position envelope] log IH]; intros m p Hm Hq; [cbn; by rewrite insert_id|].
  pose proof (Hq (position, envelope) ltac:(set_solver)) as Hp. cbn in Hp. cbn [apply_each for_each]. rewrite Hp, Hm, apply_owned_same.
  unfold mbind, M_bind. change (apply_command_at _ _ _ p) with (replay_command (position, envelope) p).
  destruct (replay_command (position, envelope) p) as [[[]|e] p1]; [|done].
  rewrite (IH (<[queue := p1]> m) p1); [|by rewrite lookup_insert_eq|set_solver].
  destruct (for_each replay_command log p1). by rewrite insert_insert_eq.
Qed.

(** What a replayed command must satisfy when its turn comes, and what it does. *)
Definition replay_valid p (entry : CommandPosition * CommandEnvelope) : Prop :=
  valid p (Some (ce_created_at entry.2)) (Some entry.1) (ce_command entry.2).
Definition replay_spec (c : ProjectionConfig) (entry : CommandPosition * CommandEnvelope) : QueueView → QueueView :=
  spec_command c (Some (ce_created_at entry.2)) (Some entry.1) (ce_command entry.2).

Lemma replay_runs log p : consistent p → in_turn replay_command replay_valid log p → runs (for_each replay_command log) p (each (replay_spec (pd_config p)) log).
Proof.
  intros Hp Hv. apply (for_each_runs _ _ replay_valid); [|done..]. intros q entry Hq Hc Hok. rewrite <-Hc. by apply command_runs.
Qed.

End recovery.

(** ** Sorting with a bound *)

Section sorting.
Context {A : Type} `{CompareLaws A}.
Implicit Types (l k : list A).

Definition sorted_rows l : list A := stable_sort (λ x, x) l.

Lemma stable_insert_le x l : StronglySorted le_cmp l → StronglySorted le_cmp (stable_insert (λ x, x) x l).
Proof.
  induction 1 as [|y l Hl IH Hy]; [by repeat constructor|]. cbn. case_decide as Hc.
  - constructor; [done|]. rewrite stable_insert_perm. constructor; [|done]. unfold le_cmp. by rewrite Hc.
  - assert (Hxy : le_cmp x y) by (unfold le_cmp; rewrite compare_antisym; destruct (compare y x); done).
    constructor; [by constructor|]. constructor; [done|]. eapply Forall_impl; [exact Hy|]. intros z Hz. by transitivity y.
Qed.

Lemma sorted_rows_le l : StronglySorted le_cmp (sorted_rows l).
Proof. unfold sorted_rows. induction l as [|x l IH]; [constructor|]. cbn. by apply stable_insert_le. Qed.

Lemma sorted_rows_perm l : sorted_rows l ≡ₚ l.
Proof. apply stable_sort_perm. Qed.

Lemma sorted_rows_unique l k : StronglySorted le_cmp l → l ≡ₚ k → sorted_rows k = l.
Proof.
  intros Hl Hp. apply (StronglySorted_unique le_cmp); [apply sorted_rows_le|done|]. by rewrite sorted_rows_perm.
Qed.

Lemma sorted_rows_app_comm l k : sorted_rows (l ++ k) = sorted_rows (k ++ l).
Proof. apply sorted_rows_unique; [apply sorted_rows_le|]. rewrite sorted_rows_perm. apply Permutation_app_comm. Qed.

Lemma sorted_rows_filter (P : A → Prop) `{∀ x, Decision (P x)} l : sorted_rows (filter P l) = filter P (sorted_rows l).
Proof.
  apply sorted_rows_unique; [apply StronglySorted_filter, sorted_rows_le|]. by rewrite sorted_rows_perm.
Qed.

(** The first [n] of an insertion depend on the first [n] only. *)
Lemma take_stable_insert n x l : take n (stable_insert (λ x, x) x (take n l)) = take n (stable_insert (λ x, x) x l).
Proof.
  revert n. induction l as [|y l IH]; intros [|n]; try done. cbn. case_decide; cbn; [by rewrite IH|]. f_equal.
  destruct n as [|n]; [done|]. cbn. f_equal. by rewrite take_take, Nat.min_l by lia.
Qed.

Lemma take_insertions n l k : take n (foldr (stable_insert (λ x, x)) (take n k) l) = take n (foldr (stable_insert (λ x, x)) k l).
Proof. induction l as [|x l IH]; cbn; [by rewrite take_take, Nat.min_id|]. by rewrite <-take_stable_insert, IH, take_stable_insert. Qed.

(** Keeping the first [n] of a part keeps the first [n] of the whole. *)
Lemma take_sorted_part n l k :
  StronglySorted le_cmp k → take n (sorted_rows (l ++ take n k)) = take n (sorted_rows (l ++ k)).
Proof.
  intros Hk. unfold sorted_rows, stable_sort. rewrite !foldr_app, <-(take_insertions n l (foldr _ [] k)).
  change (foldr (stable_insert (λ x, x)) [] k) with (sorted_rows k).
  change (foldr (stable_insert (λ x, x)) [] (take n k)) with (sorted_rows (take n k)).
  assert (Ht : StronglySorted le_cmp (take n k)) by (eapply StronglySorted_app_1_l; by rewrite (take_drop n k)).
  by rewrite (sorted_rows_unique k k Hk), (sorted_rows_unique (take n k) (take n k) Ht).
Qed.

Lemma take_sorted_both n l k :
  StronglySorted le_cmp k → take n (sorted_rows (take n (sorted_rows l) ++ take n k)) = take n (sorted_rows (l ++ k)).
Proof.
  intros Hk. rewrite take_sorted_part by done. rewrite sorted_rows_app_comm, take_sorted_part by apply sorted_rows_le.
  f_equal. apply sorted_rows_unique; [apply sorted_rows_le|]. rewrite !sorted_rows_perm. apply Permutation_app_comm.
Qed.
End sorting.

(** ** Pages of expired leases *)

Section sweep.
Context {N : Type} `{JsonNumber N, AxonIndex N, JsonBuild N, EntityCodecLaws N} `{CursorCodecLaws, QueueHash}.
Implicit Types (p : ProjectionData) (m : Projections) (now : UtcTimestamp) (queue : QueueKey) (row : LeaseRow).

Definition served (part : option (Z * Z)) queue : bool :=
  match part with Some (index, partitions) => queue_hash queue mod partitions =? index | None => true end.
(** The number of partitions is not zero. *)
Definition partitioned (part : option (Z * Z)) : Prop := match part with Some (_, partitions) => 0 < partitions | None => True end.

(** The lapsed leases of one queue, and of every served queue, in page order. *)
Definition shard_rows now (shard : QueueKey * ProjectionData) : list LeaseRow :=
  (λ e : UtcTimestamp * ItemId.t, (e.1, (shard.1, e.2))) <$> expired_rows shard.2 now.
Definition store_rows m now part : list LeaseRow :=
  sorted_rows (concat (shard_rows now <$> filter (λ shard, served part shard.1 = true) (map_to_list m))).

Definition past (after : option (UtcTimestamp * QueueKey * ItemId.t)) row : Prop :=
  match after with None => True | Some (expiry, queue, id) => lt_cmp (expiry, (queue, id)) row end.
#[local] Instance past_dec after row : Decision (past after row).
Proof. destruct after as [[[e q] id]|]; cbn; apply _. Defined.

Lemma filter_fmap {A B} (f : A → B) (P : A → Prop) (Q : B → Prop) `{∀ x, Decision (P x), ∀ y, Decision (Q y)} (l : list A) :
  (∀ x, P x ↔ Q (f x)) → f <$> filter P l = filter Q (f <$> l).
Proof.
  intros Hpq. induction l as [|x l IH]; [done|]. rewrite fmap_cons, !filter_cons, <-IH. destruct (decide (P x)) as [Hp|Hp].
  - by rewrite decide_True by (by apply Hpq).
  - by rewrite decide_False by (by rewrite <-Hpq).
Qed.

Lemma filter_concat {A} (P : A → Prop) `{∀ x, Decision (P x)} (ll : list (list A)) : filter P (concat ll) = concat (filter P <$> ll).
Proof. induction ll as [|l ll IH]; [done|]. cbn. by rewrite filter_app, IH. Qed.

Lemma queue_rows_past now after limit queue p :
  queue_rows now after limit queue p = take limit (filter (past after) (shard_rows now (queue, p))).
Proof.
  unfold queue_rows, shard_rows. rewrite expired_after_rows, fmap_take. f_equal. apply filter_fmap. intros [e id].
  destruct after as [[[t k] i]|]; [|done]. cbn [fmap option_fmap option_map row_after past fst snd]. rewrite !lt_prod.
  assert (Hk : compare queue k = Gt ↔ lt_cmp k queue) by (unfold lt_cmp; rewrite (compare_antisym k queue); by destruct (compare k queue)).
  rewrite Hk, compare_Eq. intuition congruence.
Qed.

Lemma shard_rows_sorted now shard : StronglySorted lt_cmp (shard_rows now shard).
Proof.
  unfold shard_rows. eapply StronglySorted_fmap_elem; [|apply expired_rows_sorted]. intros [e i] [e' i'] _ _ Hlt.
  apply lt_prod in Hlt as [?|[-> ?]]; apply lt_prod; [by left|]. right. split; [done|]. apply lt_prod. by right.
Qed.

Lemma sorted_lt_le {A} `{CompareLaws A} (l : list A) : StronglySorted lt_cmp l → StronglySorted le_cmp l.
Proof. induction 1 as [|x l Hl IH Hx]; constructor; [done|]. eapply Forall_impl; [exact Hx|]. intros y Hy. apply le_cmp_alt. by left. Qed.

Lemma add_queue_rows_served now after limit part rows shard : partitioned part →
  add_queue_rows now after limit part rows shard =
  Ok (if served part shard.1 then take (S limit) (sorted_rows (rows ++ queue_rows now after (S limit) shard.1 shard.2)) else rows).
Proof.
  intros Hpart. unfold add_queue_rows, served, queue_worker_partition. destruct part as [[index partitions]|]; [|done]. cbn in Hpart.
  rewrite (proj2 (Z.ltb_lt 0 partitions)) by done. cbn [mbind result_bind]. by destruct (_ =? index).
Qed.

Lemma page_rows_fold now after limit part shards done : partitioned part →
  try_fold (add_queue_rows now after limit part) (take (S limit) (sorted_rows done)) shards =
  Ok (take (S limit) (sorted_rows (done ++ concat ((λ shard, filter (past after) (shard_rows now shard)) <$>
    filter (λ shard, served part shard.1 = true) shards)))).
Proof.
  intros Hpart. revert done. induction shards as [|[queue p] shards IH]; intros done; [cbn; by rewrite app_nil_r|].
  rewrite try_fold_cons, add_queue_rows_served, filter_cons by done. cbn [mbind result_bind fst snd].
  destruct (served part queue); [|rewrite decide_False by done; apply IH].
  rewrite decide_True, queue_rows_past by done.
  rewrite take_sorted_both by (apply StronglySorted_filter, sorted_lt_le, shard_rows_sorted). rewrite IH. cbn. by rewrite <-app_assoc.
Qed.

Lemma page_rows_spec m now after limit part : partitioned part →
  try_fold (add_queue_rows now after limit part) [] (map_to_list m) = Ok (take (S limit) (filter (past after) (store_rows m now part))).
Proof.
  intros Hpart. change [] with (take (S limit) (sorted_rows ([] : list LeaseRow))) at 1. rewrite page_rows_fold by done. cbn [app]. unfold store_rows.
  rewrite <-sorted_rows_filter, filter_concat, <-list_fmap_compose. done.
Qed.

Lemma elem_of_store_rows m now part e queue id :
  (e, (queue, id)) ∈ store_rows m now part ↔
  served part queue = true ∧ ∃ p, m !! queue = Some p ∧ (e, id) ∈ expired_rows p now.
Proof.
  unfold store_rows. rewrite sorted_rows_perm, list_elem_of_In, in_concat. setoid_rewrite <-list_elem_of_In. split.
  - intros (rows & ([q p] & -> & [Hs Hin%elem_of_map_to_list]%list_elem_of_filter)%list_elem_of_fmap & Hrow).
    unfold shard_rows in Hrow. apply list_elem_of_fmap in Hrow as ([e' i'] & [= -> -> ->] & Hrow). split; [done|]. by exists p.
  - intros (Hs & p & Hp & Hrow). exists (shard_rows now (queue, p)). split.
    + apply list_elem_of_fmap. exists (queue, p). split; [done|]. by rewrite list_elem_of_filter, elem_of_map_to_list.
    + apply list_elem_of_fmap. by exists (e, id).
Qed.

Lemma store_rows_NoDup m now part : NoDup (store_rows m now part).
Proof.
  unfold store_rows. rewrite sorted_rows_perm.
  assert (Hn : NoDup (filter (λ shard, served part shard.1 = true) (map_to_list m)).*1).
  { eapply sublist_NoDup; [apply (NoDup_fst_map_to_list m)|]. apply fmap_sublist, sublist_filter. }
  induction (filter _ (map_to_list m)) as [|[q p] shards IH]; cbn; [constructor|]. cbn in Hn. apply NoDup_cons in Hn as [Hq Hn].
  apply NoDup_app. split_and!; [| |by apply IH].
  - eapply sorted_nodup; [apply lt_cmp_irrefl|apply shard_rows_sorted].
  - intros x Hx Hin. apply list_elem_of_In, in_concat in Hin as (rows & Hrows & Hx'). apply list_elem_of_In in Hrows, Hx'.
    apply list_elem_of_fmap in Hrows as ([q' p'] & -> & Hshard). unfold shard_rows in Hx, Hx'.
    apply list_elem_of_fmap in Hx as ([e i] & -> & _). apply list_elem_of_fmap in Hx' as ([e' i'] & [= _ -> _] & _).
    apply Hq, list_elem_of_fmap. by exists (q', p').
Qed.

Lemma store_rows_sorted m now part : StronglySorted lt_cmp (store_rows m now part).
Proof. apply le_sorted_ascending; [apply sorted_rows_le|apply store_rows_NoDup]. Qed.

(** The rows past a row of a strictly sorted list are those behind it. *)
Lemma rows_behind {A} `{CompareLaws A} before (x : A) rest :
  StronglySorted lt_cmp (before ++ x :: rest) → filter (lt_cmp x) (before ++ x :: rest) = rest.
Proof.
  intros Hs. assert (Hirr : ¬ lt_cmp x x) by (intros Hx; by apply lt_cmp_irrefl in Hx).
  rewrite filter_app, (filter_none _ before), app_nil_l, filter_cons, decide_False; [|done|].
  - apply filter_every. apply StronglySorted_app_1_r in Hs. inversion_clear Hs as [|?? _ Hx]. by apply Forall_forall.
  - intros y Hy Hlt. pose proof (StronglySorted_app_1_elem_of _ _ _ y x Hs Hy ltac:(set_solver)) as Hyx.
    apply Hirr. by transitivity y.
Qed.

(** ** Cursors *)

(** A row a cursor can name: its expiry is within the [i64] nanoseconds and its id a [u64]. *)
Definition row_fits row : Prop :=
  is_i64 (seconds row.1 * 1000000000 + nanoseconds row.1) ∧ is_i64 (seconds row.1 * 1000000000) ∧
  0 ≤ nanoseconds row.1 < 1000000000 ∧ is_u64 (ItemId.raw row.2.2).

Lemma row_cursor_roundtrip row : row_fits row → row_of_cursor (cursor_of_row row) = Ok (row.1, row.2.1, row.2.2).
Proof.
  destruct row as [[s ns] [[tenant queue] item]]. unfold row_fits. cbn [fst snd seconds nanoseconds]. intros ((Hl & Hu) & (Hl' & Hu') & Hns & Hid).
  unfold row_of_cursor, cursor_of_row, clamp_i64. rewrite cursor_roundtrip. cbn [mbind result_bind map_err].
  cbn [seconds nanoseconds tenant_id queue_id]. rewrite (Z.min_r _ (s * 1000000000)), (Z.max_r _ (s * 1000000000)) by done.
  rewrite Z.min_r, Z.max_r by done. rewrite Z.div_add_l, Z.div_small, Z.add_0_r by lia.
  rewrite Z.add_comm, Z.mod_add, Z.mod_small by lia. unfold UtcTimestamp_new.
  rewrite (proj2 (Z.leb_gt _ _)) by lia. cbn [mbind result_bind map_err]. unfold ItemId.new, ItemId.from_str.
  rewrite ItemIdFacts.parse_u64_Display by done. by destruct item.
Qed.

(** The leases of a page, one by one. *)
Definition page_leases (leases : list (QueueKey * list ItemId.t)) : list (QueueKey * ItemId.t) :=
  leases ≫= λ e, (λ id, (e.1, id)) <$> e.2.

Lemma group_rows_leases rows leases : page_leases (group_rows rows leases) = page_leases leases ++ rows.*2.
Proof.
  revert leases. induction rows as [|[e [queue id]] rows IH]; intros leases; cbn [group_rows]; [by rewrite app_nil_r|].
  rewrite IH. trans ((page_leases leases ++ [(queue, id)]) ++ rows.*2); [|by rewrite <-app_assoc]. apply (f_equal (λ l, l ++ rows.*2)).
  destruct (last leases) as [[q ids]|] eqn:Hl.
  - apply last_Some in Hl as [init ->]. unfold page_leases. case_bool_decide as Hq; subst.
    + rewrite removelast_last, !bind_app. cbn. rewrite !app_nil_r, fmap_app. by rewrite app_assoc.
    + rewrite !bind_app. done.
  - by apply last_None in Hl as ->.
Qed.

(** A caller that follows the cursors. *)
Fixpoint sweep_expired (fuel : nat) m now (limit : nat) part (cursor : option string) : option (list (QueueKey * ItemId.t)) :=
  match fuel with
  | O => None
  | S fuel =>
      match expired_leases_page m now cursor limit part with
      | Err _ => None
      | Ok page =>
          match ep_next page with
          | None => Some (page_leases (ep_leases page))
          | Some next => rest ← sweep_expired fuel m now limit part (Some next); Some (page_leases (ep_leases page) ++ rest)
          end
      end
  end.

Definition cursor_at (before : list LeaseRow) : option string := cursor_of_row <$> last before.

Lemma expired_page_suffix m now limit part before rest :
  partitioned part → (∀ row, row ∈ store_rows m now part → row_fits row) → (0 < limit)%nat → store_rows m now part = before ++ rest →
  expired_leases_page m now (cursor_at before) limit part =
  Ok (mkExpiredLeasePage (group_rows (take limit rest) [])
        (if (limit <? length rest)%nat then cursor_at (before ++ take limit rest) else None)).
Proof.
  intros Hpart Hfit Hlim Hall. unfold expired_leases_page. rewrite (proj2 (Nat.eqb_neq limit 0)) by lia.
  assert (Hafter : ∃ after, match cursor_at before with None => Ok None | Some c => Some <$> map_err Failed (row_of_cursor c) end = Ok after ∧
    filter (past after) (store_rows m now part) = rest).
  { unfold cursor_at. destruct (last before) as [row|] eqn:Hl; cbn [fmap option_fmap option_map].
    - apply last_Some in Hl as [init ->]. rewrite row_cursor_roundtrip by (apply Hfit; rewrite Hall; set_solver). eexists. split; [done|].
      destruct row as [e [q i]]. cbn [past fst snd]. pose proof (store_rows_sorted m now part) as Hs. rewrite Hall, <-app_assoc in Hs |- *.
      by apply rows_behind.
    - apply last_None in Hl as ->. exists None. split; [done|]. rewrite Hall. by apply filter_every. }
  destruct Hafter as (after & -> & Hr). cbn [mbind result_bind]. rewrite page_rows_spec, Hr by done. cbn [mbind result_bind]. rewrite take_take, length_take.
  rewrite Nat.min_l by lia. f_equal. f_equal.
  destruct (Nat.ltb_spec limit (length rest)) as [Hlt|Hge].
  - rewrite (proj2 (Nat.ltb_lt _ _)) by lia. unfold cursor_at. f_equal. destruct limit as [|n]; [lia|]. destruct rest as [|x rest]; [cbn in Hlt; lia|].
    cbn [take]. rewrite last_app. by destruct (last (x :: take n rest)) eqn:Hx; [|apply last_None in Hx].
  - by rewrite (proj2 (Nat.ltb_ge _ _)) by lia.
Qed.

Lemma sweep_suffix fuel m now limit part before rest :
  partitioned part → (∀ row, row ∈ store_rows m now part → row_fits row) → (0 < limit)%nat → store_rows m now part = before ++ rest →
  (length rest < fuel)%nat → sweep_expired fuel m now limit part (cursor_at before) = Some rest.*2.
Proof.
  intros Hpart Hfit Hlim. revert before rest. induction fuel as [|fuel IH]; intros before rest Hall Hf; [lia|]. cbn [sweep_expired].
  rewrite (expired_page_suffix m now limit part before rest) by done. cbn [ep_leases ep_next]. rewrite group_rows_leases. cbn [page_leases app].
  destruct (Nat.ltb_spec limit (length rest)) as [Hlt|Hge]; [|by rewrite take_ge].
  assert (Hne : is_Some (cursor_at (before ++ take limit rest))).
  { unfold cursor_at. apply fmap_is_Some. destruct (last _) eqn:Hl; [done|]. apply last_None, app_nil in Hl as [_ Hl].
    apply (f_equal length) in Hl. rewrite length_take in Hl. cbn in Hl. lia. }
  destruct Hne as [c Hc]. rewrite Hc, <-Hc. rewrite (IH _ (drop limit rest)).
  - cbn. rewrite <-fmap_app, take_drop. done.
  - by rewrite <-app_assoc, take_drop.
  - rewrite length_drop. lia.
Qed.

(** C30. Following the pages of expired leases over all queues ends and visits, in
    (expiry, tenant, queue, item) order and each once, exactly the held ordinary leases of
    the served queues whose expiry has passed. The cursor names rows by nanoseconds, so
    expiries are within the [i64] nanoseconds. *)
Theorem expired_sweep_complete m now limit part fuel :
  (∀ queue p, m !! queue = Some p → consistent p) →
  partitioned part → (∀ row, row ∈ store_rows m now part → row_fits row) →
  (0 < limit)%nat → (length (store_rows m now part) < fuel)%nat →
  ∃ rows, sweep_expired fuel m now limit part None = Some rows.*2 ∧ StronglySorted lt_cmp rows ∧
    ∀ e queue id, (e, (queue, id)) ∈ rows ↔
      served part queue = true ∧ lt_cmp e now ∧
      ∃ p rec, m !! queue = Some p ∧ pd_items p !! id = Some rec ∧ row_expiry rec e.
Proof.
  intros Hm Hpart Hfit Hlim Hf. exists (store_rows m now part). split_and!.
  - by apply (sweep_suffix fuel m now limit part []).
  - apply store_rows_sorted.
  - intros e queue id. rewrite elem_of_store_rows. split.
    + intros (Hs & p & Hp & Hrow). apply expired_rows_exact in Hrow as (Hlt & rec & Hrec & He); [|by eapply Hm]. eauto 10.
    + intros (Hs & Hlt & p & rec & Hp & Hrec & He). split; [done|]. exists p. split; [done|]. apply expired_rows_exact; [by eapply Hm|]. eauto.
Qed.
End sweep.

(** ** Instances *)

Definition sample_cursor_codec : CursorCodec := {|
  cursor_to_string := λ row, pos_text (encode row);
  cursor_from_str := λ s, ok_or (decode (text_pos s)) "not a cursor"%string;
|}.
#[local] Existing Instance sample_cursor_codec.
#[local] Instance sample_cursor_laws : CursorCodecLaws.
Proof. intros row. cbn. rewrite text_pos_text. by rewrite countable.decode_encode. Qed.
#[local] Instance sample_hash : QueueHash := λ queue, Z.of_nat (String.length (queue_id queue)).

Definition sample_store : Projections := {[mkQueueKey "t" "a" := sample_leased; mkQueueKey "t" "b" := sample_leased]}.

Lemma sample_store_fits row : row ∈ store_rows sample_store (at_second 60) None → row_fits row.
Proof.
  revert row. apply Forall_forall. replace (store_rows sample_store (at_second 60) None) with
    [(at_second 50, (mkQueueKey "t" "a", ItemId.mk 2)); (at_second 50, (mkQueueKey "t" "b", ItemId.mk 2))] by (vm_compute; reflexivity).
  repeat constructor; cbn; int_lia.
Qed.

Lemma expired_sweep_complete_witness :
  (∀ queue p, sample_store !! queue = Some p → consistent p) ∧
  ∃ rows, sweep_expired 3 sample_store (at_second 60) 1 None None = Some rows.*2 ∧ StronglySorted lt_cmp rows ∧
    (at_second 50, (mkQueueKey "t" "b", ItemId.mk 2)) ∈ rows.
Proof.
  assert (Hc : ∀ queue p, sample_store !! queue = Some p → consistent p).
  { intros queue p. unfold sample_store.
    intros [[_ <-]|[_ [_ <-]%lookup_singleton_Some]]%lookup_insert_Some; apply sample_leased_consistent. }
  split; [exact Hc|].
  destruct (expired_sweep_complete sample_store (at_second 60) 1 None 3 Hc I sample_store_fits ltac:(lia)) as (rows & Hr & Hs & Hrows).
  { vm_compute. lia. }
  exists rows. split_and!; [exact Hr|exact Hs|]. apply Hrows. split_and!; [reflexivity|reflexivity|].
  exists sample_leased. eexists. split_and!; [reflexivity|vm_compute; reflexivity|]. unfold row_expiry, held, live. split_and!; reflexivity.
Defined.

Definition sample_definition : QueueDefinition :=
  mkQueueDefinition "t" "a" timestamp_ascending Strict 0 1000 EligibilityPolicy_default None RecurrencePolicy_default
    1000 1000 default_terminal_retention_ms 60000 (mkRetryPolicy 3) 100 100 None [mkIndexSpec "by_sku" ["sku"] true] None [] false.

Definition sample_positions : list CommandPosition :=
  [mkCommandPosition (mkQueueKey "t" "a") 1 1; mkCommandPosition (mkQueueKey "t" "a") 1 2].
Definition sample_log : list (CommandEnvelope (N:=Z)) :=
  [mkCommandEnvelope (CmdPush sample_pushes) (at_second 5); mkCommandEnvelope sample_claim (at_second 6)].

Lemma sample_log_valid : in_turn replay_command replay_valid (zip sample_positions sample_log) (projection_new (config_of sample_definition)).
Proof.
  split; [exact sample_push_valid|]. intros p [= <-]. split; [|done].
  split; [apply (bool_decide_eq_true_1 _); reflexivity|]. intros id ->%list_elem_of_singleton.
  eexists. split_and!; [vm_compute; reflexivity|reflexivity..].
Qed.

