(* ===== verification/Query.v ===== *)
(** Queries over declared indexes: the shapes and structural checks of
    [fireweed-core/src/query.rs], and the evaluators of [fireweed-projection/src/lib.rs]
    (range scan, grouped counts, buckets, lifecycle counts, claim by query). *)
From S2P Require Import Prelude Identity Priority Metadata Field Lifecycle CreateQueue Engine JsonEquality Ordered IndexFields Eligibility Projection ProjectionReads RichClaim.

Implicit Types (id : ItemId.t) (rec : ItemRecord).

(** ** Requests *)

Inductive FilterOp := FilterEq | FilterGte | FilterGt | FilterLte | FilterLt.
#[export] Instance FilterOp_eq_dec : EqDecision FilterOp.
Proof. solve_decision. Defined.

Record QueryFilter := mkQueryFilter { qf_field : string; qf_op : FilterOp; qf_value : TypedValue }.

Inductive SortDirection := SortAscending | SortDescending.
#[export] Instance SortDirection_eq_dec : EqDecision SortDirection.
Proof. solve_decision. Defined.

Record OrderField := mkOrderField { of_field : string; of_direction : SortDirection }.
#[export] Instance OrderField_eq_dec : EqDecision OrderField.
Proof. solve_decision. Defined.

Record RangeScanRequest := mkRangeScanRequest {
  rs_index : option string;
  rs_filters : list QueryFilter;
  rs_order_by : list OrderField;
  rs_page_size : Z;
  rs_cursor : option string;
}.

Inductive QueryRequestError :=
| UnindexedField (field : string)
| InvalidPageSize
| OverlappingBuckets
| TooManyBuckets
| MissingNullBucketLabel
| AggregateTooLarge.

Definition range_scan_validate (request : RangeScanRequest) (max_page_size : Z) : result QueryRequestError unit :=
  if (rs_page_size request =? 0) || (max_page_size <? rs_page_size request) then Err InvalidPageSize else Ok tt.

Record RangeScanRow := mkRangeScanRow { row_item_id : ItemId.t; row_fields : gmap string TypedValue }.

Record RangeScanResponse := mkRangeScanResponse { rr_rows : list RangeScanRow; rr_next_cursor : option string }.

Inductive TimeBucket := BucketHour | BucketDay.

Record GroupByField := mkGroupByField { gb_field : string; gb_time_bucket : option TimeBucket }.

Record GroupedAggregateRequest := mkGroupedAggregateRequest {
  ga_index : option string;
  ga_filters : list QueryFilter;
  ga_group_by : list GroupByField;
  ga_max_groups : Z;
}.

Record MetricsByQueryRequest := mkMetricsByQueryRequest { mq_index : option string; mq_filters : list QueryFilter }.

Record AggregateGroup := mkAggregateGroup { ag_key : gmap string TypedValue; ag_count : Z }.

(** *** Buckets *)

Record BucketRule := mkBucketRule {
  bk_label : string;
  bk_exact : option Z;
  bk_gt : option Z;
  bk_gte : option Z;
  bk_lt : option Z;
  bk_lte : option Z;
}.

Record BucketInterval := mkBucketInterval { lo : Z; lo_inclusive : bool; hi : Z; hi_inclusive : bool }.

Definition f64_infinity : Z := 2047 * 2 ^ 52.
Definition f64_neg_infinity : Z := 2 ^ 63 + f64_infinity.

(** [<] on [f64]. *)
Definition f64_ltb (a b : Z) : bool := negb (f64_is_nan a) && negb (f64_is_nan b) && (f64_value a <? f64_value b).
Definition f64_leb (a b : Z) : bool := f64_ltb a b || f64_eqb a b.

Definition to_interval (rule : BucketRule) : BucketInterval :=
  match bk_exact rule with
  | Some v => mkBucketInterval v true v true
  | None =>
      let '(lo, lo_inclusive) := match bk_gte rule, bk_gt rule with
                                 | Some v, _ => (v, true)
                                 | None, Some v => (v, false)
                                 | None, None => (f64_neg_infinity, false)
                                 end in
      let '(hi, hi_inclusive) := match bk_lte rule, bk_lt rule with
                                 | Some v, _ => (v, true)
                                 | None, Some v => (v, false)
                                 | None, None => (f64_infinity, false)
                                 end in
      mkBucketInterval lo lo_inclusive hi hi_inclusive
  end.

Definition bound_le (x : Z) (x_inclusive : bool) (y : Z) (y_inclusive : bool) : bool :=
  if f64_ltb x y then true else if f64_eqb x y then x_inclusive && y_inclusive else false.

Definition intervals_overlap (a b : BucketInterval) : bool :=
  bound_le (lo a) (lo_inclusive a) (hi b) (hi_inclusive b) && bound_le (lo b) (lo_inclusive b) (hi a) (hi_inclusive a).

Record DeclaredBucketSegmentRequest := mkDeclaredBucketSegmentRequest {
  db_index : option string;
  db_filters : list QueryFilter;
  db_field : string;
  db_buckets : list BucketRule;
  db_null_bucket_label : string;
}.

Fixpoint any_overlap (intervals : list BucketInterval) : bool :=
  match intervals with
  | [] => false
  | i :: rest => existsb (intervals_overlap i) rest || any_overlap rest
  end.

Definition bucket_validate (request : DeclaredBucketSegmentRequest) (max_buckets : Z) : result QueryRequestError unit :=
  if String.eqb (db_null_bucket_label request) EmptyString then Err MissingNullBucketLabel
  else if max_buckets <? Z.of_nat (length (db_buckets request)) mod 2 ^ 32 then Err TooManyBuckets
  else if any_overlap (to_interval <$> db_buckets request) then Err OverlappingBuckets
  else Ok tt.

Record BucketCount := mkBucketCount { bc_label : string; bc_count : Z }.

(** ** Values *)

(** [i64 as f64]: the nearest double, ties to even. *)
Definition f64_of_i64 (v : Z) : Z :=
  if v =? 0 then 0
  else
    let m := Z.abs v in
    let e := Z.log2 m in
    let mantissa :=
      if e <=? 52 then m * 2 ^ (52 - e)
      else
        let unit := 2 ^ (e - 52) in
        let q := m / unit in
        let r := m mod unit in
        if (unit <? 2 * r) || ((2 * r =? unit) && Z.odd q) then q + 1 else q in
    (if v <? 0 then 2 ^ 63 else 0) + (1022 + e) * 2 ^ 52 + mantissa.

Definition truncate_timestamp (t : UtcTimestamp) (bucket : TimeBucket) : UtcTimestamp :=
  let width := match bucket with BucketHour => 3600 | BucketDay => 86400 end in
  mkUtcTimestamp (seconds t / width * width) 0.

Definition value_matches_bucket (value : TypedValue) (rule : BucketRule) : bool :=
  match match value with TVInteger v => Some (f64_of_i64 v) | TVFloat v => Some v | _ => None end with
  | None => false
  | Some numeric =>
      match bk_exact rule with
      | Some exact => f64_eqb numeric exact
      | None =>
          negb (match bk_gt rule with Some gt => f64_leb numeric gt | None => false end) &&
          negb (match bk_gte rule with Some gte => f64_ltb numeric gte | None => false end) &&
          negb (match bk_lt rule with Some lt => f64_leb lt numeric | None => false end) &&
          negb (match bk_lte rule with Some lte => f64_ltb lte numeric | None => false end)
      end
  end.

Definition op_holds (op : FilterOp) (ord : comparison) : bool :=
  match op, ord with
  | FilterEq, Eq | FilterGte, (Eq | Gt) | FilterGt, Gt | FilterLte, (Eq | Lt) | FilterLt, Lt => true
  | _, _ => false
  end.

Definition unindexed_field : EngineError := Invalid "unindexed-field".
Definition unknown_index : EngineError := Invalid "unknown secondary index".

Definition compare_rows (lhs rhs : RangeScanRow) (order_by : list OrderField) : EngineResult comparison :=
  (fix go order_by :=
     match order_by with
     | [] => Ok (compare (row_item_id lhs) (row_item_id rhs))
     | field :: order_by =>
         left ← ok_or (row_fields lhs !! of_field field) unindexed_field;
         right ← ok_or (row_fields rhs !! of_field field) unindexed_field;
         ord ← typed_value_compare left right;
         match match of_direction field with SortAscending => ord | SortDescending => CompOpp ord end with
         | Eq => go order_by
         | ord => Ok ord
         end
     end) order_by.

(** The JSON text of a cursor and of a group key. *)
Record RangeScanCursorState := mkRangeScanCursorState {
  cs_index : string;
  cs_filters : list QueryFilter;
  cs_order_by : list OrderField;
  cs_anchor_item_id : ItemId.t;
  cs_anchor_values : list TypedValue;
  cs_anchor_index_key : option bytes;
}.

Class QueryText := {
  query_cursor_text : RangeScanCursorState → string;
  query_cursor_read : string → option RangeScanCursorState;
  group_key_text : gmap string TypedValue → string;
}.

(** Derived equality of filters: no NaN equals itself. *)
Definition filter_eqb (a b : QueryFilter) : bool :=
  String.eqb (qf_field a) (qf_field b) && bool_decide (qf_op a = qf_op b) && typed_value_matches_query (qf_value a) (qf_value b).

Fixpoint all2 {A} (eqb : A → A → bool) (l k : list A) : bool :=
  match l, k with
  | [], [] => true
  | a :: l, b :: k => eqb a b && all2 eqb l k
  | _, _ => false
  end.

Section queries.
Context {N : Type} `{JsonNumber N, AxonIndex N, JsonBuild N, EntityCodec N} `{QueryText}.
Implicit Types (p : ProjectionData) (spec : QueueIndex) (row : RangeScanRow) (entity : Value N).

Definition index_fields spec : list (string * IndexType) := index_columns (declaration spec).

Definition index_field_type spec (field : string) : option IndexType :=
  snd <$> List.find (λ column, String.eqb column.1 field) (index_fields spec).

Definition find_index (specs : list QueueIndex) (index_name : option string) : EngineResult QueueIndex :=
  match index_name with
  | Some name => ok_or (List.find (λ spec, String.eqb (qi_name spec) name) specs) unknown_index
  | None => ok_or (head specs) unknown_index
  end.

Definition typed_range_index p : option string → EngineResult QueueIndex := find_index (pc_typed_index_specs (pd_config p)).

(** ** Rows *)

Fixpoint row_columns (columns : list (string * IndexType)) entity (fields : gmap string TypedValue)
    : EngineResult (option (gmap string TypedValue)) :=
  match columns with
  | [] => Ok (Some fields)
  | (field, ty) :: columns =>
      value ← typed_value_for_field entity field ty;
      match value with
      | None => Ok None
      | Some value => row_columns columns entity (<[field := value]> fields)
      end
  end.

Definition range_scan_row spec id entity : EngineResult (option RangeScanRow) :=
  option_map (mkRangeScanRow id) <$> row_columns (index_fields spec) entity ∅.

(** The filter the map keeps for a field: the last one. *)
Definition last_filter (filters : list QueryFilter) (field : string) : option QueryFilter :=
  List.find (λ f, String.eqb (qf_field f) field) (rev filters).

(** The equality prefix; [None] when the row lacks a filtered column. *)
Fixpoint equality_prefix (columns : list (string * IndexType)) (filters : list QueryFilter) row (prefix_len : nat)
    : EngineResult (option nat) :=
  match columns with
  | [] => Ok (Some prefix_len)
  | (field, ty) :: columns =>
      match last_filter filters field with
      | None => Ok (Some prefix_len)
      | Some f =>
          typed ← typed_value_from_filter_value (qf_value f) ty;
          match row_fields row !! field with
          | None => Ok None
          | Some value =>
              if bool_decide (qf_op f = FilterEq) && typed_value_matches_query value typed
              then equality_prefix columns filters row (S prefix_len) else Ok (Some prefix_len)
          end
      end
  end.

Fixpoint filters_hold (columns : list (string * IndexType)) (prefix_len : nat) row (filters : list QueryFilter)
    : EngineResult bool :=
  match filters with
  | [] => Ok true
  | f :: filters =>
      '(idx, (_, ty)) ← ok_or (list_find (λ column : string * IndexType, column.1 = qf_field f) columns) unindexed_field;
      if (idx <? prefix_len)%nat then filters_hold columns prefix_len row filters
      else match row_fields row !! qf_field f with
           | None => Ok false
           | Some value =>
               typed ← typed_value_from_filter_value (qf_value f) ty;
               ord ← typed_value_compare value typed;
               if op_holds (qf_op f) ord then filters_hold columns prefix_len row filters else Ok false
           end
  end.

Definition range_scan_matches spec (filters : list QueryFilter) row : EngineResult bool :=
  prefix ← equality_prefix (index_fields spec) filters row 0;
  match prefix with
  | None => Ok false
  | Some prefix_len => filters_hold (index_fields spec) prefix_len row filters
  end.

Definition scan_rows p spec (filters : list QueryFilter) : EngineResult (list RangeScanRow) :=
  try_fold (λ rows e,
    match query_entity e.2 with
    | None => Ok rows
    | Some entity =>
        row ← range_scan_row spec (ir_item_id e.2) entity;
        match row with
        | None => Ok rows
        | Some row => ok ← range_scan_matches spec filters row; Ok (if (ok : bool) then rows ++ [row] else rows)
        end
    end) [] (map_to_list (pd_items p)).

(** ** Sorting with a comparison that can panic *)

Fixpoint insert_by {A} (cmp : A → A → result Fault comparison) (a : A) (l : list A) : result Fault (list A) :=
  match l with
  | [] => Ok [a]
  | b :: l =>
      ord ← cmp a b;
      match ord with Gt => (b ::.) <$> insert_by cmp a l | _ => Ok (a :: b :: l) end
  end.

Fixpoint sort_by {A} (cmp : A → A → result Fault comparison) (l : list A) : result Fault (list A) :=
  match l with
  | [] => Ok []
  | a :: l => l ← sort_by cmp l; insert_by cmp a l
  end.

(** ** Range scan *)

Definition cursor_invalidated : EngineError := Invalid "cursor-invalidated".

Definition order_values (order_by : list OrderField) row : EngineResult (list TypedValue) :=
  try_fold (λ values field,
    value ← ok_or (row_fields row !! of_field field) cursor_invalidated; Ok (values ++ [value])) [] order_by.

Definition scan_start (rows : list RangeScanRow) (order_by : list OrderField) (state : option RangeScanCursorState)
    : EngineResult nat :=
  match state with
  | None => Ok 0%nat
  | Some state =>
      '(anchor, current) ← ok_or (list_find (λ row, row_item_id row = cs_anchor_item_id state) rows) cursor_invalidated;
      current_values ← order_values order_by current;
      if negb (all2 typed_value_matches_query current_values (cs_anchor_values state)) then Err cursor_invalidated
      else Ok (S anchor)
  end.

Definition order_declared spec (order_by : list OrderField) : EngineResult unit :=
  match order_by with
  | [] => Err (Invalid "range-scan order_by required")
  | first :: _ =>
      if existsb (λ order, negb (existsb (λ column, String.eqb column.1 (of_field order)) (index_fields spec))) order_by
      then Err unindexed_field
      else if negb (forallb (λ order, bool_decide (of_direction order = of_direction first)) order_by)
           then Err (Invalid "mixed order directions are unsupported")
           else Ok tt
  end.

Definition read_cursor spec (request : RangeScanRequest) : EngineResult (option RangeScanCursorState) :=
  match rs_cursor request with
  | None => Ok None
  | Some cursor =>
      state ← ok_or (query_cursor_read cursor) cursor_invalidated;
      if negb (String.eqb (cs_index state) (qi_name spec)) || negb (all2 filter_eqb (cs_filters state) (rs_filters request))
         || negb (bool_decide (cs_order_by state = rs_order_by request))
      then Err cursor_invalidated else Ok (Some state)
  end.

Definition next_page spec (request : RangeScanRequest) (start : nat) (rows page : list RangeScanRow)
    : result Fault (option string) :=
  if (start + length page <? length rows)%nat then
    row ← expect (last page);
    values ← map_err Failed (order_values (rs_order_by request) row);
    Ok (Some (query_cursor_text
      (mkRangeScanCursorState (qi_name spec) (rs_filters request) (rs_order_by request) (row_item_id row) values None)))
  else Ok None.

Definition range_scan p (request : RangeScanRequest) : result Fault RangeScanResponse :=
  _ ← map_err (λ _, Failed (Invalid "invalid page size")) (range_scan_validate request 1000);
  spec ← map_err Failed (typed_range_index p (rs_index request));
  _ ← map_err Failed (order_declared spec (rs_order_by request));
  state ← map_err Failed (read_cursor spec request);
  rows ← map_err Failed (scan_rows p spec (rs_filters request));
  rows ← sort_by (λ lhs rhs, map_err (λ _, Panicked) (compare_rows lhs rhs (rs_order_by request))) rows;
  start ← map_err Failed (scan_start rows (rs_order_by request) state);
  let page := take (Z.to_nat (rs_page_size request)) (drop start rows) in
  next ← next_page spec request start rows page;
  Ok (mkRangeScanResponse page next).

(** ** Filters on an entity document *)

(** A value read with the type of the filter it is compared with. *)
Definition value_like (filter : TypedValue) (value : Value N) : EngineResult TypedValue :=
  match filter, value with
  | TVString _, VString s => Ok (TVString s)
  | TVInteger _, VNumber n => TVInteger <$> ok_or (as_i64 n) not_declared_type
  | TVFloat _, VNumber n => TVFloat <$> ok_or (as_f64 n) not_declared_type
  | TVBool _, VBool b => Ok (TVBool b)
  | TVDateTime _, VString s => TVDateTime <$> parse_utc_timestamp s
  | TVDateTime _, VNumber n =>
      seconds ← ok_or (as_i64 n) not_declared_type;
      TVDateTime <$> map_err (λ _, not_declared_type) (UtcTimestamp_new seconds 0)
  | _, _ => Err not_declared_type
  end.

Definition matches_filter_on_entity entity (filter : QueryFilter) : EngineResult bool :=
  match entity with
  | VObject map =>
      match assoc (qf_field filter) map with
      | None | Some VNull => Ok false
      | Some value =>
          typed ← value_like (qf_value filter) value;
          ord ← typed_value_compare typed (qf_value filter);
          Ok (op_holds (qf_op filter) ord)
      end
  | _ => Err (Invalid "typed index entity is not an object")
  end.

Fixpoint matches_filters_on_entity entity (filters : list QueryFilter) : EngineResult bool :=
  match filters with
  | [] => Ok true
  | filter :: filters =>
      ok ← matches_filter_on_entity entity filter;
      if (ok : bool) then matches_filters_on_entity entity filters else Ok false
  end.

(** ** Lifecycle counts *)

Definition count_state (state : ItemState) (m : QueueMetrics) : QueueMetrics :=
  let '(mkQueueMetrics p l c f r) := m in
  match state with
  | Pending => mkQueueMetrics (p + 1) l c f r
  | Leased => mkQueueMetrics p (l + 1) c f r
  | Complete => mkQueueMetrics p l (c + 1) f r
  | Lifecycle.Failed => mkQueueMetrics p l c (f + 1) r
  end.

Definition with_resident (m : QueueMetrics) : QueueMetrics :=
  mkQueueMetrics (qm_pending m) (qm_leased m) (qm_complete m) (qm_failed m) (qm_complete m + qm_failed m).

Definition filtered_lifecycle_metrics (typed_indexes : list QueueIndex) (request : MetricsByQueryRequest)
    (records : list (ItemState * bool * option (Value N))) : EngineResult QueueMetrics :=
  spec ← find_index typed_indexes (mq_index request);
  _ ← try_for_each (λ filter,
        ty ← ok_or (index_field_type spec (qf_field filter)) unindexed_field;
        _ ← typed_value_from_filter_value (qf_value filter) ty; Ok tt) (mq_filters request);
  with_resident <$> try_fold (λ metrics record,
    match record with
    | (_, true, _) | (_, _, None) => Ok metrics
    | (state, false, Some entity) =>
        ok ← matches_filters_on_entity entity (mq_filters request);
        Ok (if (ok : bool) then count_state state metrics else metrics)
    end) QueueMetrics_default records.

(** The filters as encoded components at their position in the key. *)
Definition encode_filters spec (filters : list QueryFilter) : EngineResult (list (nat * FilterOp * bytes)) :=
  try_fold (λ encoded filter,
    '(position, (_, ty)) ← ok_or (list_find (λ column : string * IndexType, column.1 = qf_field filter) (index_fields spec)) unindexed_field;
    _ ← typed_value_from_filter_value (qf_value filter) ty;
    bytes ← map_err (λ _, not_declared_type) (encode_typed_value (qf_value filter) ty);
    Ok (encoded ++ [(position, qf_op filter, bytes)])) [] filters.

Definition component_matches (components : list bytes) (filter : nat * FilterOp * bytes) : bool :=
  op_holds filter.1.2 (compare (A:=bytes) (default ([] : bytes) (components !! filter.1.1)) filter.2).

Definition filtered_lifecycle_metrics_by_index_key (typed_indexes : list QueueIndex) (request : MetricsByQueryRequest)
    (records : list (ItemState * bool * bytes)) : EngineResult QueueMetrics :=
  spec ← find_index typed_indexes (mq_index request);
  filters ← encode_filters spec (mq_filters request);
  with_resident <$> try_fold (λ metrics record,
    match record with
    | (_, true, _) => Ok metrics
    | (state, false, key) =>
        components ← split_key (index_fields spec) key;
        Ok (if forallb (component_matches components) filters then count_state state metrics else metrics)
    end) QueueMetrics_default records.

(** ** Grouped counts *)

Definition entity_index_value : Value N → string → IndexType → EngineResult (option TypedValue) := typed_value_for_field.

(** The key of a record, or [None] when it lacks a grouped column. *)
Fixpoint group_key spec entity (group_by : list GroupByField) (key : gmap string TypedValue)
    : EngineResult (option (gmap string TypedValue)) :=
  match group_by with
  | [] => Ok (Some key)
  | group :: group_by =>
      ty ← ok_or (index_field_type spec (gb_field group)) unindexed_field;
      value ← entity_index_value entity (gb_field group) ty;
      match value with
      | None => Ok None
      | Some value =>
          value ← match gb_time_bucket group, value with
                  | Some bucket, TVDateTime t => Ok (TVDateTime (truncate_timestamp t bucket))
                  | Some _, _ => Err (Invalid "unsupported time bucket")
                  | None, value => Ok value
                  end;
          group_key spec entity group_by (<[gb_field group := value]> key)
      end
  end.

Definition group_declared spec (group : GroupByField) : EngineResult unit :=
  ty ← ok_or (index_field_type spec (gb_field group)) unindexed_field;
  match gb_time_bucket group, ty with
  | None, _ | Some _, IDatetime => Ok tt
  | Some _, _ => Err (Invalid "unsupported time bucket")
  end.

Definition add_to_group (max_groups : Z) (key : gmap string TypedValue)
    (groups : gmap string (gmap string TypedValue * Z)) : EngineResult (gmap string (gmap string TypedValue * Z)) :=
  let text := group_key_text key in
  match groups !! text with
  | None =>
      if max_groups <=? Z.of_nat (size groups) mod 2 ^ 32 then Err (Invalid "aggregate-too-large")
      else Ok (<[text := (key, 1)]> groups)
  | Some (k, count) => Ok (<[text := (k, count + 1)]> groups)
  end.

Definition grouped_aggregate p (request : GroupedAggregateRequest) : EngineResult (list AggregateGroup) :=
  if bool_decide (ga_group_by request = []) then Err (Invalid "group-by required")
  else
    spec ← typed_range_index p (ga_index request);
    _ ← try_for_each (group_declared spec) (ga_group_by request);
    groups ← try_fold (λ groups e,
      match query_entity e.2 with
      | None => Ok groups
      | Some entity =>
          ok ← matches_filters_on_entity entity (ga_filters request);
          if negb ok then Ok groups
          else
            key ← group_key spec entity (ga_group_by request) ∅;
            match key with
            | None => Ok groups
            | Some key => add_to_group (ga_max_groups request) key groups
            end
      end) ∅ (map_to_list (pd_items p));
    Ok ((λ e, mkAggregateGroup e.2.1 e.2.2) <$> btree_list groups).

(** ** Buckets *)

(** The first bucket that takes the value gets one more. *)
Fixpoint count_bucket (value : TypedValue) (buckets : list BucketRule) (counts : list Z) : list Z :=
  match buckets, counts with
  | bucket :: buckets, n :: counts =>
      if value_matches_bucket value bucket then (n + 1) :: counts else n :: count_bucket value buckets counts
  | _, _ => counts
  end.

Definition declared_bucket_segment p (request : DeclaredBucketSegmentRequest) : EngineResult (list BucketCount) :=
  _ ← map_err (λ _, Invalid "invalid request") (bucket_validate request 1000);
  spec ← typed_range_index p (db_index request);
  ty ← ok_or (index_field_type spec (db_field request)) unindexed_field;
  _ ← match ty with IInteger | IFloat => Ok tt | _ => Err (Invalid "unsupported bucket field") end;
  '(counts, null_count) ← try_fold (λ acc e,
    match query_entity e.2 with
    | None => Ok acc
    | Some entity =>
        ok ← matches_filters_on_entity entity (db_filters request);
        if negb ok then Ok acc
        else
          value ← entity_index_value entity (db_field request) ty;
          Ok (match value with
              | None => (acc.1, acc.2 + 1)
              | Some value => (count_bucket value (db_buckets request) acc.1, acc.2)
              end)
    end) (replicate (length (db_buckets request)) 0, 0) (map_to_list (pd_items p));
  Ok (zip_with (λ bucket count, mkBucketCount (bk_label bucket) count) (db_buckets request) counts
      ++ [mkBucketCount (db_null_bucket_label request) null_count]).

(** ** Claim by query *)

Definition Predicate : Type := string * FilterOp * TypedValue.

Definition claim_predicates spec (filters : list QueryFilter) : EngineResult (list Predicate) :=
  try_fold (λ predicates filter,
    ty ← ok_or (index_field_type spec (qf_field filter)) unindexed_field;
    value ← typed_value_from_filter_value (qf_value filter) ty;
    Ok (predicates ++ [(qf_field filter, qf_op filter, value)])) [] filters.

(** The framed equality prefix the index is entered with. *)
Fixpoint claim_prefix (columns : list (string * IndexType)) (predicates : list Predicate) (prefix : bytes) : EngineResult bytes :=
  match columns with
  | [] => Ok prefix
  | (field, ty) :: columns =>
      match List.find (λ q : Predicate, String.eqb q.1.1 field && bool_decide (q.1.2 = FilterEq)) predicates with
      | None => Ok prefix
      | Some (_, _, value) => framed ← framed_typed_value value ty; claim_prefix columns predicates (prefix ++ framed)
      end
  end.

Fixpoint take_while {A} (f : A → bool) (l : list A) : list A :=
  match l with [] => [] | a :: l => if f a then a :: take_while f l else [] end.

(** [map.range(prefix..).take_while(starts_with(prefix))]. *)
Definition seek_prefix {A} (prefix : bytes) (map : gmap bytes A) : list (bytes * A) :=
  take_while (λ e, bool_decide (prefix `prefix_of` e.1))
    (omap (λ k, (λ v, (k, v)) <$> map !! k) (filter (λ k, le_cmp prefix k) (elems (dom map)))).

Definition seek_ids (prefix : bytes) (index : SecondaryIndex) : list ItemId.t :=
  match index with
  | Unique map => (seek_prefix prefix map).*2
  | NonUnique map => seek_prefix prefix map ≫= λ e, elems e.2
  end.

Definition query_claimable p (now : UtcTimestamp) rec : bool :=
  negb (negb (bool_decide (ir_state rec = Pending)) || ir_superseded rec || ir_fenced rec || bool_decide (is_Some (ir_cohort_size rec))
        || match ir_not_before rec with Some nb => timestamp_gt nb now | None => false end
        || gate_keys_blocked (pd_blocked_gates p) (ir_gate_keys rec)).

(** The native columns of a record, or those of its document. *)
Definition claim_values spec id rec : EngineResult (option (gmap string TypedValue)) :=
  if forallb (λ column : string * IndexType, bool_decide (is_Some (ir_index_fields rec !! column.1))) (index_fields spec)
  then Ok (Some (ir_index_fields rec))
  else match query_entity rec with
       | None => Ok None
       | Some entity => option_map row_fields <$> range_scan_row spec id entity
       end.

Fixpoint predicates_hold (predicates : list Predicate) (values : gmap string TypedValue) : EngineResult bool :=
  match predicates with
  | [] => Ok true
  | (field, op, expected) :: predicates =>
      match values !! field with
      | None => Ok false
      | Some value =>
          ord ← typed_value_compare value expected;
          if op_holds op ord then predicates_hold predicates values else Ok false
      end
  end.

Definition claim_candidate p spec (predicates : list Predicate) (order_by : OrderField) (now : UtcTimestamp)
    (candidates : list (ItemId.t * TypedValue)) id : result Fault (list (ItemId.t * TypedValue)) :=
  match pd_items p !! id with
  | None => Ok candidates
  | Some rec =>
      if negb (query_claimable p now rec) then Ok candidates
      else
        values ← map_err Failed (claim_values spec id rec);
        match values with
        | None => Ok candidates
        | Some values =>
            ok ← map_err Failed (predicates_hold predicates values);
            if negb ok then Ok candidates
            else order ← expect (values !! of_field order_by); Ok (candidates ++ [(id, order)])
        end
  end.

Definition compare_candidates (direction : SortDirection) (left right : ItemId.t * TypedValue) : result Fault comparison :=
  order ← map_err (λ _, Panicked) (typed_value_compare left.2 right.2);
  Ok (then_cmp (match direction with SortDescending => CompOpp order | SortAscending => order end) (compare left.1 right.1)).

(** [select_nth_unstable_by] and [truncate] keep the first [max_items] of the order. *)
Definition select_claim_by_query p (index_name : option string) (filters : list QueryFilter) (order_by : OrderField)
    (max_items : nat) (now : UtcTimestamp) : result Fault (list ItemId.t) :=
  if pd_paused p || (max_items =? 0)%nat then Ok []
  else
    spec ← map_err Failed (typed_range_index p index_name);
    if negb (existsb (λ column, String.eqb column.1 (of_field order_by)) (index_fields spec)) then Err (Failed unindexed_field)
    else
      predicates ← map_err Failed (claim_predicates spec filters);
      prefix ← map_err Failed (claim_prefix (index_fields spec) predicates []);
      match pd_claim_indexes p !! qi_name spec with
      | None => Ok []
      | Some index =>
          candidates ← try_fold (claim_candidate p spec predicates order_by now) [] (seek_ids prefix index);
          sorted ← sort_by (compare_candidates (of_direction order_by)) candidates;
          Ok (take max_items sorted).*1
      end.
End queries.
