(* ===== verification/QueryFacts.v ===== *)
(** Range scans: the scanned rows, their order, and paging with a cursor. *)
From S2P Require Import Prelude Identity Priority Metadata Field Lifecycle CreateQueue Engine JsonEquality Ordered IndexFields Eligibility Projection ProjectionFacts ProjectionSamples ProjectionRefines ProjectionReads RichClaim Query.

Implicit Types (id : ItemId.t) (rec : ItemRecord).

(** ** Lexicographic and directed order *)

Fixpoint list_cmp {A} `{Compare A} (l k : list A) : comparison :=
  match l, k with
  | [], [] => Eq
  | [], _ => Lt
  | _, [] => Gt
  | a :: l, b :: k => then_cmp (compare a b) (list_cmp l k)
  end.
#[export] Instance list_compare {A} `{Compare A} : Compare (list A) := list_cmp.

#[export] Instance list_compare_laws {A} `{CompareLaws A} : CompareLaws (list A).
Proof.
  split; unfold compare, list_compare.
  - intros l. induction l as [|a l IH]; intros [|b k]; cbn; try done. specialize (IH k).
    pose proof (compare_Eq a b). destruct (compare a b); cbn; naive_solver.
  - intros l. induction l as [|a l IH]; intros [|b k]; cbn; try done. rewrite (compare_antisym a b), IH. by destruct (compare a b).
  - intros l. induction l as [|a l IH]; intros [|b k] [|c m]; cbn; try done. intros L1 L2.
    pose proof (compare_Eq a b) as E1. pose proof (compare_Eq b c) as E2. pose proof (compare_Lt_trans a b c) as Tr.
    destruct (compare a b) eqn:C1; cbn in L1; try done; destruct (compare b c) eqn:C2; cbn in L2; try done.
    + assert (a = b) as -> by naive_solver. rewrite C2. cbn. eauto.
    + assert (a = b) as -> by naive_solver. by rewrite C2.
    + assert (b = c) as -> by naive_solver. by rewrite C1.
    + by rewrite Tr.
Qed.

(** Values compared in the direction of the query. *)
Record Directed (d : SortDirection) (A : Type) := directed { undirected : A }.
Arguments directed {d A}.
Arguments undirected {d A}.

Definition turn (d : SortDirection) (c : comparison) : comparison := match d with SortAscending => c | SortDescending => CompOpp c end.

#[export] Instance directed_compare {d A} `{Compare A} : Compare (Directed d A) := λ a b, turn d (compare (undirected a) (undirected b)).

#[export] Instance directed_compare_laws {d A} `{CompareLaws A} : CompareLaws (Directed d A).
Proof.
  split; unfold compare, directed_compare, turn.
  - intros [a] [b]. cbn. pose proof (compare_Eq a b). destruct d, (compare a b); cbn; naive_solver.
  - intros [a] [b]. cbn. rewrite (compare_antisym a b). by destruct d, (compare a b).
  - intros [a] [b] [c]. cbn. destruct d; [apply compare_Lt_trans|].
    rewrite <-!compare_antisym. intros Hba Hcb. by apply (compare_Lt_trans _ b).
Qed.

(** ** Sorting *)

Section sort.
Context {A K : Type} `{CompareLaws K} (key : A → K) (cmp : A → A → result Fault comparison).

(** Sorting by a comparison that is that of a key. *)
Definition key_le (a b : A) : Prop := le_cmp (key a) (key b).

Lemma insert_by_key a l :
  (∀ b, b ∈ l → cmp a b = Ok (compare (key a) (key b))) → StronglySorted key_le l →
  ∃ l', insert_by cmp a l = Ok l' ∧ l' ≡ₚ a :: l ∧ StronglySorted key_le l'.
Proof.
  induction l as [|b l IH]; intros Hc Hs; cbn [insert_by]; [by eexists; repeat constructor|].
  rewrite (Hc b) by set_solver. cbn [mbind result_bind]. inversion_clear Hs as [|?? Hl Hb].
  assert (Hfirst : compare (key a) (key b) ≠ Gt → ∃ l', Ok (E:=Fault) (a :: b :: l) = Ok l' ∧ l' ≡ₚ a :: b :: l ∧ StronglySorted key_le l').
  { intros Hab. eexists. split_and!; [done..|]. constructor; [by constructor|]. constructor; [done|].
    eapply Forall_impl; [exact Hb|]. intros c Hbc. unfold key_le in *. by transitivity (key b). }
  destruct (compare (key a) (key b)) eqn:Hab; [by apply Hfirst..|].
  destruct IH as (l' & Hi & Hp & Hs'); [set_solver|done|]. rewrite Hi. eexists. split_and!; [done| |].
  - rewrite Hp. constructor.
  - constructor; [done|]. rewrite Hp. constructor; [|done]. unfold key_le, le_cmp. rewrite (compare_antisym (key a) (key b)), Hab. done.
Qed.

Lemma sort_by_key l :
  (∀ a b, a ∈ l → b ∈ l → cmp a b = Ok (compare (key a) (key b))) →
  ∃ l', sort_by cmp l = Ok l' ∧ l' ≡ₚ l ∧ StronglySorted key_le l'.
Proof.
  induction l as [|a l IH]; intros Hc; cbn [sort_by]; [by eexists; repeat constructor|].
  destruct IH as (l' & -> & Hp & Hs); [set_solver|]. cbn [mbind result_bind].
  destruct (insert_by_key a l') as (l'' & -> & Hp' & Hs'); [|done|].
  - intros b. rewrite Hp. set_solver.
  - exists l''. split_and!; [done| |done]. by rewrite Hp', Hp.
Qed.
End sort.

(** ** Keys of values and rows *)

Definition value_kind (v : TypedValue) : IndexType :=
  match v with
  | TVString _ => IString
  | TVInteger _ => IInteger
  | TVFloat _ => IFloat
  | TVBool _ => IBoolean
  | TVDateTime _ => IDatetime
  end.

Definition ordinary (v : TypedValue) : Prop := match v with TVFloat b => f64_is_nan b = false | _ => True end.

Definition vkey (v : TypedValue) : string * (Z * Z) :=
  match v with
  | TVString s => (s, (0, 0))
  | TVInteger i => (EmptyString, (i, 0))
  | TVFloat b => (EmptyString, (f64_value b, 0))
  | TVBool b => (EmptyString, (Z.b2z b, 0))
  | TVDateTime t => (EmptyString, (seconds t, nanoseconds t))
  end.

Lemma typed_value_compare_key v w :
  value_kind v = value_kind w → ordinary v → ordinary w → typed_value_compare v w = Ok (compare (vkey v) (vkey w)).
Proof.
  assert (Hz : ∀ a b : Z, compare (EmptyString, (a, 0)) (EmptyString, (b, 0)) = (a ?= b))
    by (intros a b; unfold compare, prod_compare, compare, prod_compare, compare, Z_compare; cbn; by destruct (a ?= b)).
  destruct v as [s|i|b|b|t], w as [s'|i'|b'|b'|t']; try done; intros _ Hv Hw; cbn [typed_value_compare vkey ordinary] in *.
  - unfold compare at 2, prod_compare. cbn. by destruct (compare s s').
  - by rewrite Hz.
  - rewrite Hz. unfold f64_partial_cmp. by rewrite Hv, Hw.
  - rewrite Hz. by destruct b, b'.
Qed.

Lemma matches_query_refl v : value_kind v ≠ IFloat → typed_value_matches_query v v = true.
Proof.
  destruct v as [s|i| |b|t]; cbn; intros Hk; [apply String.eqb_refl|apply Z.eqb_refl|done|by destruct b|by apply bool_decide_eq_true].
Qed.

Definition rkey (d : SortDirection) (order_by : list OrderField) (row : RangeScanRow) : Directed d (list (string * (Z * Z))) * ItemId.t :=
  (directed ((λ f, vkey (default (TVBool false) (row_fields row !! of_field f))) <$> order_by), row_item_id row).

(** Two rows whose order columns are present and of one kind compare as their keys. *)
Lemma compare_rows_key d order_by lhs rhs :
  (∀ f, f ∈ order_by → of_direction f = d ∧ ∃ v w, row_fields lhs !! of_field f = Some v ∧ row_fields rhs !! of_field f = Some w ∧
     value_kind v = value_kind w ∧ ordinary v ∧ ordinary w) →
  compare_rows lhs rhs order_by = Ok (compare (rkey d order_by lhs) (rkey d order_by rhs)).
Proof.
  intros Hf. change (compare (rkey d order_by lhs) (rkey d order_by rhs)) with
    (then_cmp (turn d (list_cmp (undirected (rkey d order_by lhs).1) (undirected (rkey d order_by rhs).1))) (compare (row_item_id lhs) (row_item_id rhs))).
  revert Hf. unfold compare_rows. induction order_by as [|f order_by IH]; intros Hf; [by destruct d|].
  destruct (Hf f) as (Hd & v & w & Hv & Hw & Hk & Hov & How); [set_solver|]. rewrite Hv, Hw. cbn [ok_or mbind result_bind].
  rewrite typed_value_compare_key by done. cbn [mbind result_bind]. rewrite Hd, IH by set_solver. unfold rkey. rewrite !fmap_cons, Hv, Hw.
  cbn [fst undirected list_cmp default from_option Datatypes.id]. by destruct (compare (vkey v) (vkey w)), d.
Qed.

(** What reading back a cursor relies on: JSON keeps strings, integers, booleans and
    instants; floats may read back as a neighbour. *)
Definition float_free (v : TypedValue) : Prop := value_kind v ≠ IFloat.
Definition state_float_free (state : RangeScanCursorState) : Prop :=
  Forall (λ f, float_free (qf_value f)) (cs_filters state) ∧ Forall float_free (cs_anchor_values state).
Class QueryTextLaws `{QueryText} :=
  cursor_reads state : state_float_free state → query_cursor_read (query_cursor_text state) = Some state.

(** A loop that collects what each element yields. *)
Lemma try_fold_collect {E A B} (step : list B → A → result E (list B)) (f : A → result E (option B)) acc l out :
  (∀ acc a, step acc a = o ← f a; Ok (acc ++ option_list o)) → try_fold step acc l = Ok out →
  (∀ a, a ∈ l → ∃ o, f a = Ok o) ∧ out = acc ++ omap (λ a, match f a with Ok o => o | Err _ => None end) l.
Proof.
  intros Hstep. revert acc. induction l as [|a l IH]; intros acc Hf.
  { injection Hf as <-. split; [set_solver|by rewrite app_nil_r]. }
  rewrite try_fold_cons, Hstep in Hf. apply bind_Ok in Hf as (acc' & Ha & Hf). apply bind_Ok in Ha as (o & Ho & [= <-]).
  apply IH in Hf as [Hl ->]. split; [set_solver|]. cbn. rewrite Ho. destruct o; cbn; by rewrite <-app_assoc.
Qed.

Lemma omap_ids {A B K} (f : A → option B) (k : A → K) (k' : B → K) l :
  (∀ a b, a ∈ l → f a = Some b → k' b = k a) → NoDup (k <$> l) → NoDup (k' <$> omap f l).
Proof.
  intros Hk Hn. eapply sublist_NoDup; [exact Hn|]. clear Hn. induction l as [|a l IH]; [done|]. cbn.
  destruct (f a) as [b|] eqn:Hb; cbn; [rewrite (Hk a b) by set_solver|]; constructor; apply IH; set_solver.
Qed.

Section scan.
Context {N : Type} `{JsonNumber N, AxonIndex N, JsonBuild N, EntityCodec N} `{QueryTextLaws}.
Implicit Types (p : ProjectionData) (spec : QueueIndex) (row : RangeScanRow) (entity : Value N).

(** ** Rows *)

(** The type of each column: of two columns with one name the last. *)
Definition column_types (columns : list (string * IndexType)) (types : gmap string IndexType) : gmap string IndexType :=
  foldl (λ m column, <[column.1 := column.2]> m) types columns.

Definition fields_typed (types : gmap string IndexType) (fields : gmap string TypedValue) : Prop :=
  ∀ field ty, types !! field = Some ty → ∃ v, fields !! field = Some v ∧ value_kind v = ty.

Lemma typed_value_for_field_kind entity field ty v : typed_value_for_field entity field ty = Ok (Some v) → value_kind v = ty.
Proof.
  destruct entity as [| | | | |map]; cbn; try done. destruct (assoc field map) as [[]|]; try done; destruct ty; try done; cbn; intros Hv;
    repeat (res_step || (apply fmap_Ok in Hv as (? & Hv & ?); simplify_eq)); simplify_eq; done.
Qed.

Lemma row_columns_typed columns entity fields types out :
  row_columns columns entity fields = Ok (Some out) → fields_typed types fields → fields_typed (column_types columns types) out.
Proof.
  revert fields types. induction columns as [|[field ty] columns IH]; intros fields types Hr Ht; cbn in Hr |- *; [by injection Hr as <-|].
  apply bind_Ok in Hr as ([v|] & Hv & Hr); [|done]. apply (IH _ _ Hr). intros f t. cbn. destruct (decide (f = field)) as [-> |Hne].
  - rewrite !lookup_insert_eq. intros [= <-]. exists v. split; [done|]. by apply typed_value_for_field_kind in Hv.
  - rewrite !lookup_insert_ne by done. apply Ht.
Qed.

Lemma column_types_Some columns types field :
  is_Some (column_types columns types !! field) ↔ field ∈ columns.*1 ∨ is_Some (types !! field).
Proof.
  revert types. induction columns as [|[f t] columns IH]; intros types; [cbn; set_solver|].
  change (column_types ((f, t) :: columns) types) with (column_types columns (<[f := t]> types)). rewrite IH. cbn.
  destruct (decide (field = f)) as [-> |Hne]; [rewrite lookup_insert_eq|rewrite lookup_insert_ne by done]; set_solver.
Qed.

Definition scan_one spec (filters : list QueryFilter) (e : ItemId.t * ItemRecord) : EngineResult (option RangeScanRow) :=
  match query_entity e.2 with
  | None => Ok None
  | Some entity =>
      row ← range_scan_row spec (ir_item_id e.2) entity;
      match row with
      | None => Ok None
      | Some row => ok ← range_scan_matches spec filters row; Ok (if (ok : bool) then Some row else None)
      end
  end.

(** The rows of a scan: the documents with every column that pass the filters. *)
Definition scanned p spec (filters : list QueryFilter) row : Prop :=
  ∃ rec entity, pd_items p !! row_item_id row = Some rec ∧ query_entity rec = Some entity ∧
    range_scan_row spec (row_item_id row) entity = Ok (Some row) ∧ range_scan_matches spec filters row = Ok true.

Lemma scan_one_Some spec filters e row :
  scan_one spec filters e = Ok (Some row) ↔ ∃ entity, query_entity e.2 = Some entity ∧
    range_scan_row spec (ir_item_id e.2) entity = Ok (Some row) ∧ range_scan_matches spec filters row = Ok true.
Proof.
  unfold scan_one. destruct (query_entity e.2) as [entity|]; [|naive_solver]. split.
  - intros ([r|] & Hr & Hm)%bind_Ok; [|done]. apply bind_Ok in Hm as ([] & Hm & [= <-]). eauto.
  - intros (entity' & [= <-] & Hr & Hm). rewrite Hr. cbn [mbind result_bind]. by rewrite Hm.
Qed.

Lemma range_scan_row_id spec id entity row : range_scan_row spec id entity = Ok (Some row) →
  row_item_id row = id ∧ fields_typed (column_types (index_fields spec) ∅) (row_fields row).
Proof.
  unfold range_scan_row. intros ([fields|] & Hr & Hrow)%fmap_Ok; [|done]. injection Hrow as <-. split; [done|].
  eapply row_columns_typed; [exact Hr|]. intros f ty. by rewrite lookup_empty.
Qed.

Lemma scan_step spec filters rows e :
  match query_entity e.2 with
  | None => Ok rows
  | Some entity =>
      row ← range_scan_row spec (ir_item_id e.2) entity;
      match row with
      | None => Ok rows
      | Some row => ok ← range_scan_matches spec filters row; Ok (if (ok : bool) then rows ++ [row] else rows)
      end
  end = o ← scan_one spec filters e; Ok (rows ++ option_list o).
Proof.
  unfold scan_one. destruct (query_entity e.2) as [entity|]; [|cbn; by rewrite app_nil_r].
  destruct (range_scan_row _ _ _) as [[row|]|]; cbn [mbind result_bind]; [|cbn; by rewrite app_nil_r|done].
  destruct (range_scan_matches _ _ _) as [[]|]; cbn; by rewrite ?app_nil_r.
Qed.

Lemma scan_rows_each p spec filters rows : scan_rows p spec filters = Ok rows →
  ∀ e, e ∈ map_to_list (pd_items p) → ∃ o, scan_one spec filters e = Ok o.
Proof. intros [Hok _]%(try_fold_collect _ (scan_one spec filters)); [done|]. intros acc e. apply scan_step. Qed.

Lemma scan_rows_exact p spec filters rows :
  (∀ id rec, pd_items p !! id = Some rec → ir_item_id rec = id) → scan_rows p spec filters = Ok rows →
  NoDup (row_item_id <$> rows) ∧ ∀ row, row ∈ rows ↔ scanned p spec filters row.
Proof.
  intros Hids Hr. apply (try_fold_collect _ (scan_one spec filters)) in Hr as [Hok ->].
  2:{ intros acc e. apply scan_step. }
  assert (Hid : ∀ e row, e ∈ map_to_list (pd_items p) → scan_one spec filters e = Ok (Some row) → row_item_id row = e.1).
  { intros [id rec] row He%elem_of_map_to_list (entity & _ & Hrow & _)%scan_one_Some. apply range_scan_row_id in Hrow as [-> _]. by apply Hids. }
  split.
  - apply (omap_ids _ fst); [|apply NoDup_fst_map_to_list]. intros e row He Ho. destruct (Hok e He) as [o Hs]. rewrite Hs in Ho. subst o. by apply Hid.
  - intros row. rewrite app_nil_l, list_elem_of_omap. split.
    + intros (e & He & Ho). destruct (Hok e He) as [o Hs]. rewrite Hs in Ho. subst o. pose proof (Hid e row He Hs) as Hi.
      apply scan_one_Some in Hs as (entity & Hq & Hrow & Hm). destruct e as [id rec]. apply elem_of_map_to_list in He. cbn in *. subst id.
      exists rec, entity. by rewrite (Hids _ _ He) in Hrow.
    + intros (rec & entity & Hrec & Hq & Hrow & Hm). exists (row_item_id row, rec). split; [by apply elem_of_map_to_list|].
      rewrite (proj2 (scan_one_Some spec filters (row_item_id row, rec) row)); [done|]. exists entity. cbn. by rewrite (Hids _ _ Hrec).
Qed.

(** ** Order *)

Lemma order_declared_Ok spec order_by : order_declared spec order_by = Ok tt →
  ∃ d, ∀ f, f ∈ order_by → of_direction f = d ∧ of_field f ∈ (index_fields spec).*1.
Proof.
  destruct order_by as [|first order_by]; [done|]. unfold order_declared. intros Ho. res_inv. exists (of_direction first). intros f Hf. split.
  - apply negb_false_iff in E0. rewrite forallb_forall in E0. apply list_elem_of_In in Hf. apply E0 in Hf. by apply bool_decide_eq_true in Hf.
  - assert (Hx : ¬ Exists (λ o, negb (existsb (λ column, String.eqb column.1 (of_field o)) (index_fields spec)) = true) (first :: order_by)).
    { rewrite Exists_exists. setoid_rewrite list_elem_of_In. rewrite <-existsb_exists. by rewrite E. }
    apply not_Exists_Forall in Hx; [|intros o; apply _]. rewrite Forall_forall in Hx. specialize (Hx f Hf). cbn in Hx.
    apply not_true_iff_false, negb_false_iff, existsb_exists in Hx as ([name ty] & Hin%list_elem_of_In & Heq%String.eqb_eq). cbn in Heq. rewrite <-Heq. apply list_elem_of_fmap. by exists (name, ty).
Qed.

(** No order column is a float. *)
Definition order_exact spec (order_by : list OrderField) : Prop :=
  ∀ f, f ∈ order_by → column_types (index_fields spec) ∅ !! of_field f ≠ Some IFloat.

Lemma scanned_value p spec filters row f :
  scanned p spec filters row → of_field f ∈ (index_fields spec).*1 →
  ∃ v, row_fields row !! of_field f = Some v ∧ column_types (index_fields spec) ∅ !! of_field f = Some (value_kind v).
Proof.
  intros (rec & entity & _ & _ & Hrow & _) Hf. apply range_scan_row_id in Hrow as [_ Ht].
  destruct (proj2 (column_types_Some (index_fields spec) ∅ (of_field f)) (or_introl Hf)) as [ty Hty].
  destruct (Ht _ _ Hty) as (v & Hv & <-). eauto.
Qed.
End scan.

(** ** Pages *)

Section pages.
Context {N : Type} `{JsonNumber N, AxonIndex N, JsonBuild N, EntityCodec N} `{QueryTextLaws}.
Implicit Types (p : ProjectionData) (spec : QueueIndex) (row : RangeScanRow).

Definition with_cursor (request : RangeScanRequest) (cursor : option string) : RangeScanRequest :=
  mkRangeScanRequest (rs_index request) (rs_filters request) (rs_order_by request) (rs_page_size request) cursor.

(** A caller that follows the cursors. *)
Fixpoint scan_all (fuel : nat) p (request : RangeScanRequest) (cursor : option string) : option (list RangeScanRow) :=
  match fuel with
  | O => None
  | S fuel =>
      match range_scan p (with_cursor request cursor) with
      | Err _ => None
      | Ok response =>
          match rr_next_cursor response with
          | None => Some (rr_rows response)
          | Some next => rest ← scan_all fuel p request (Some next); Some (rr_rows response ++ rest)
          end
      end
  end.

Definition values_of (order_by : list OrderField) row : list TypedValue :=
  (λ f, default (TVBool false) (row_fields row !! of_field f)) <$> order_by.

Lemma order_values_acc order_by row acc :
  (∀ f, f ∈ order_by → is_Some (row_fields row !! of_field f)) →
  try_fold (λ values field, value ← ok_or (row_fields row !! of_field field) cursor_invalidated; Ok (values ++ [value])) acc order_by =
  Ok (acc ++ values_of order_by row).
Proof.
  revert acc.
  induction order_by as [|f order_by IH]; intros acc Hf; [cbn; by rewrite app_nil_r|].
  rewrite try_fold_cons. destruct (Hf f) as [v Hv]; [set_solver|]. unfold values_of. rewrite fmap_cons, Hv. cbn [ok_or mbind result_bind].
  rewrite IH by set_solver. cbn. by rewrite <-app_assoc.
Qed.

Lemma order_values_of order_by row :
  (∀ f, f ∈ order_by → is_Some (row_fields row !! of_field f)) → order_values order_by row = Ok (values_of order_by row).
Proof.
  intros Hf. apply (order_values_acc order_by row [] Hf).
Qed.

Lemma all2_refl {A} (eqb : A → A → bool) l : (∀ a, a ∈ l → eqb a a = true) → all2 eqb l l = true.
Proof. induction l as [|a l IH]; intros He; [done|]. cbn. rewrite (He a), IH by set_solver. done. Qed.

Context p (request : RangeScanRequest) spec (rows sorted : list RangeScanRow).
Hypothesis Hspec : typed_range_index p (rs_index request) = Ok spec.
Hypothesis Horder : order_declared spec (rs_order_by request) = Ok tt.
Hypothesis Hsize : 0 < rs_page_size request ≤ 1000.
Hypothesis Hrows : scan_rows p spec (rs_filters request) = Ok rows.
Hypothesis Hsorted : sort_by (λ lhs rhs, map_err (λ _, Panicked) (compare_rows lhs rhs (rs_order_by request))) rows = Ok sorted.
Hypothesis Hids : NoDup (row_item_id <$> sorted).
Hypothesis Hfilters : Forall (λ f, float_free (qf_value f)) (rs_filters request).
Hypothesis Hvalues : ∀ row f, row ∈ sorted → f ∈ rs_order_by request → ∃ v, row_fields row !! of_field f = Some v ∧ float_free v.

Definition state_at row : RangeScanCursorState :=
  mkRangeScanCursorState (qi_name spec) (rs_filters request) (rs_order_by request) (row_item_id row) (values_of (rs_order_by request) row) None.
Definition cursor_after (before : list RangeScanRow) : option string := query_cursor_text ∘ state_at <$> last before.

Lemma values_float_free row : row ∈ sorted → Forall float_free (values_of (rs_order_by request) row).
Proof.
  intros Hrow. apply Forall_fmap, Forall_forall. intros f Hf. destruct (Hvalues row f Hrow Hf) as (v & Hv & Hn). cbn. by rewrite Hv.
Qed.

Lemma read_cursor_after before rest : sorted = before ++ rest →
  read_cursor spec (with_cursor request (cursor_after before)) = Ok (state_at <$> last before).
Proof.
  intros Hall. unfold read_cursor, cursor_after. cbn [rs_cursor with_cursor]. destruct (last before) as [row|] eqn:Hl; [|done].
  apply last_Some in Hl as [init ->]. cbn [fmap option_fmap option_map compose]. unfold compose. rewrite cursor_reads.
  - cbn [ok_or mbind result_bind state_at cs_index cs_filters cs_order_by rs_filters rs_order_by with_cursor].
    rewrite String.eqb_refl, bool_decide_eq_true_2 by done. rewrite all2_refl; [done|]. intros f Hf. unfold filter_eqb.
    rewrite String.eqb_refl, bool_decide_eq_true_2 by done. apply matches_query_refl. rewrite Forall_forall in Hfilters. by apply Hfilters.
  - split; [done|]. apply values_float_free. rewrite Hall. set_solver.
Qed.

Lemma scan_start_after before rest : sorted = before ++ rest →
  scan_start sorted (rs_order_by request) (state_at <$> last before) = Ok (length before).
Proof.
  intros Hall. destruct (last before) as [row|] eqn:Hl; [|by apply last_None in Hl as ->].
  apply last_Some in Hl as [init ->]. cbn [fmap option_fmap option_map scan_start state_at cs_anchor_item_id].
  assert (Hrow : row ∈ sorted) by (rewrite Hall; set_solver).
  assert (Hfind : list_find (λ r, row_item_id r = row_item_id row) sorted = Some (length init, row)).
  { apply list_find_Some. rewrite Hall, <-app_assoc. cbn. split_and!; [by rewrite list_lookup_middle|done|].
    intros j y Hj Hlt Heq. rewrite lookup_app_l in Hj by done. rewrite Hall, <-app_assoc, fmap_app in Hids. cbn in Hids.
    apply NoDup_app in Hids as (_ & Hd & _). apply (Hd (row_item_id y)); [|rewrite Heq; set_solver].
    apply list_elem_of_fmap. exists y. split; [done|]. by eapply list_elem_of_lookup_2. }
  rewrite Hfind. cbn [ok_or mbind result_bind]. rewrite order_values_of by (intros f Hf; destruct (Hvalues row f Hrow Hf) as (v & -> & _); eauto).
  cbn [mbind result_bind cs_anchor_values state_at]. rewrite all2_refl; [cbn; by rewrite length_app, Nat.add_1_r|].
  intros v Hv. apply matches_query_refl. pose proof (values_float_free row Hrow) as Hff. rewrite Forall_forall in Hff. by apply Hff.
Qed.

Notation page_len := (Z.to_nat (rs_page_size request)).

Lemma range_scan_page before rest : sorted = before ++ rest →
  range_scan p (with_cursor request (cursor_after before)) =
  Ok (mkRangeScanResponse (take page_len rest)
        (if (page_len <? length rest)%nat then cursor_after (before ++ take page_len rest) else None)).
Proof.
  intros Hall. unfold range_scan, range_scan_validate. cbn [rs_page_size rs_index rs_filters rs_order_by with_cursor].
  rewrite (proj2 (Z.eqb_neq _ _)), (proj2 (Z.ltb_ge _ _)) by lia. cbn [orb map_err mbind result_bind].
  rewrite Hspec. cbn [map_err mbind result_bind]. rewrite Horder. cbn [map_err mbind result_bind]. rewrite (read_cursor_after before rest) by done.
  cbn [map_err mbind result_bind]. rewrite Hrows. cbn [map_err mbind result_bind]. rewrite Hsorted. cbn [mbind result_bind].
  rewrite (scan_start_after before rest) by done. cbn [map_err mbind result_bind]. rewrite Hall, drop_app_length. unfold next_page.
  rewrite length_app, length_take. destruct (Nat.ltb_spec page_len (length rest)) as [Hlt|Hge].
  2:{ rewrite (proj2 (Nat.ltb_ge _ _)) by lia. done. }
  rewrite (proj2 (Nat.ltb_lt _ _)) by lia. destruct (last (take page_len rest)) as [row|] eqn:Hl.
  2:{ apply last_None, (f_equal length) in Hl. rewrite length_take in Hl. cbn in Hl. lia. }
  assert (Hrow : row ∈ sorted). { apply last_Some in Hl as [l Hl]. rewrite Hall, <-(take_drop page_len rest), Hl. set_solver. }
  cbn [expect ok_or mbind result_bind rs_order_by with_cursor]. rewrite order_values_of by (intros f Hf; destruct (Hvalues row f Hrow Hf) as (v & -> & _); eauto).
  cbn [map_err mbind result_bind]. unfold cursor_after. rewrite last_app, Hl. done.
Qed.

Lemma scan_all_suffix fuel before rest : sorted = before ++ rest → (length rest < fuel)%nat →
  scan_all fuel p request (cursor_after before) = Some rest.
Proof.
  revert before rest. induction fuel as [|fuel IH]; intros before rest Hall Hf; [lia|]. cbn [scan_all].
  rewrite (range_scan_page before rest) by done. cbn [rr_next_cursor rr_rows].
  destruct (Nat.ltb_spec page_len (length rest)) as [Hlt|Hge]; [|by rewrite take_ge].
  destruct (cursor_after (before ++ take page_len rest)) as [c|] eqn:Hc.
  - rewrite <-Hc, (IH _ (drop page_len rest)); [cbn; by rewrite take_drop|by rewrite <-app_assoc, take_drop|rewrite length_drop; lia].
  - unfold cursor_after in Hc. apply fmap_None, last_None, (f_equal length) in Hc. rewrite length_app, length_take in Hc. cbn in Hc. lia.
Qed.
End pages.

(** ** Filters *)

Section filters.
Context {N : Type} `{JsonNumber N, AxonIndex N}.
Implicit Types (spec : QueueIndex) (row : RangeScanRow).

Definition passes row (f : QueryFilter) : Prop :=
  ∃ v ord, row_fields row !! qf_field f = Some v ∧ typed_value_compare v (qf_value f) = Ok ord ∧ op_holds (qf_op f) ord = true.

Lemma from_filter_value v ty w : typed_value_from_filter_value v ty = Ok w → w = v ∧ value_kind v = ty.
Proof. by destruct v, ty; cbn; intros [= <-]. Qed.

Lemma matches_compare v w : typed_value_matches_query v w = true → typed_value_compare v w = Ok Eq.
Proof.
  destruct v, w; cbn; try done.
  - intros ->%String.eqb_eq. by rewrite (proj2 (compare_Eq _ _)).
  - intros ->%Z.eqb_eq. by rewrite Z.compare_refl.
  - unfold f64_eqb, f64_partial_cmp. intros [[Ha%negb_true_iff Hb%negb_true_iff]%andb_true_iff Hv%Z.eqb_eq]%andb_true_iff.
    by rewrite Ha, Hb, Hv, Z.compare_refl.
  - intros ->%eqb_prop. by destruct b0.
  - intros ->%bool_decide_eq_true. by rewrite (proj2 (compare_Eq t0 t0) eq_refl : cmp_timestamp t0 t0 = Eq).
Qed.

Lemma last_filter_Some filters field f : last_filter filters field = Some f → f ∈ filters ∧ qf_field f = field.
Proof. unfold last_filter. intros [Hin Heq%String.eqb_eq]%find_some. apply in_rev, list_elem_of_In in Hin. done. Qed.

(** The prefix loop stops behind columns whose filter holds, or at a missing column. *)
Lemma equality_prefix_holds columns filters row k out : equality_prefix columns filters row k = Ok out →
  match out with
  | None => ∃ f, f ∈ filters ∧ row_fields row !! qf_field f = None
  | Some n => ∀ i column, columns !! i = Some column → (k + i < n)%nat → ∃ f, last_filter filters column.1 = Some f ∧ passes row f
  end.
Proof.
  revert k. induction columns as [|[field ty] columns IH]; intros k; cbn [equality_prefix]; [by intros [= <-]|].
  assert (Hstop : Ok (E:=EngineError) (Some k) = Ok out → match out with None => ∃ f, f ∈ filters ∧ row_fields row !! qf_field f = None | Some n =>
    ∀ i column, ((field, ty) :: columns) !! i = Some column → (k + i < n)%nat → ∃ f, last_filter filters column.1 = Some f ∧ passes row f end)
    by (intros [= <-] i column _ ?; lia).
  destruct (last_filter filters field) as [f|] eqn:Hf; [|done]. intros (w & [-> Hk]%from_filter_value & Hc)%bind_Ok.
  destruct (last_filter_Some _ _ _ Hf) as [Hin Hfield]. destruct (row_fields row !! field) as [v|] eqn:Hv.
  2:{ injection Hc as <-. exists f. by rewrite Hfield. }
  case_bool_decide as Hop; [|by apply Hstop]. cbn [andb] in Hc. destruct (typed_value_matches_query v (qf_value f)) eqn:Hm; [|by apply Hstop].
  apply IH in Hc. destruct out as [n|]; [|done]. intros [|i] column Hcol Hlt; [|apply (Hc i); [done|lia]].
  injection Hcol as <-. exists f. split; [done|]. exists v, Eq. rewrite Hfield, Hop. split_and!; [done|by apply matches_compare|done].
Qed.

Lemma filters_hold_iff columns n row filters b :
  (∀ f i column, f ∈ filters → columns !! i = Some column → column.1 = qf_field f → (i < n)%nat → passes row f) →
  filters_hold columns n row filters = Ok b → b = true ↔ Forall (passes row) filters.
Proof.
  induction filters as [|f filters IH]; intros Hpre Hb; cbn [filters_hold] in Hb; [by injection Hb as <-|].
  apply bind_Ok in Hb as ([i [name ty]] & Hfind & Hb). apply ok_or_Ok, list_find_Some in Hfind as (Hi & Hname & _). rewrite Forall_cons.
  destruct (Nat.ltb_spec i n) as [Hlt|_].
  { rewrite IH; [|set_solver|done]. split; [|tauto]. split; [|done]. eapply Hpre; [set_solver|done..]. }
  destruct (row_fields row !! qf_field f) as [v|] eqn:Hv.
  2:{ injection Hb as <-. split; [done|]. intros [(v & ord & Hv' & _) _]. congruence. }
  apply bind_Ok in Hb as (w & [-> _]%from_filter_value & Hb). apply bind_Ok in Hb as (ord & Hord & Hb).
  destruct (op_holds (qf_op f) ord) eqn:Hop.
  - rewrite IH; [|set_solver|done]. split; [|tauto]. split; [|done]. by exists v, ord.
  - injection Hb as <-. split; [done|]. intros [(v' & ord' & Hv' & Hord' & Hop') _]. congruence.
Qed.

(** With one filter per field a row matches when it passes every filter. *)
Lemma range_scan_matches_iff spec filters row b :
  NoDup (qf_field <$> filters) → range_scan_matches spec filters row = Ok b → b = true ↔ Forall (passes row) filters.
Proof.
  intros Hn (out & Hprefix & Hb)%bind_Ok. apply equality_prefix_holds in Hprefix. destruct out as [n|].
  - eapply filters_hold_iff; [|exact Hb]. intros f i column Hf Hi Hname Hlt. destruct (Hprefix i column Hi ltac:(lia)) as (f' & Hlast & Hp).
    apply last_filter_Some in Hlast as [Hin Heq]. rewrite Hname in Heq. apply list_elem_of_lookup in Hf as [a Ha], Hin as [a' Ha'].
    assert (a = a') as <-; [|congruence]. eapply NoDup_lookup; [exact Hn|by rewrite list_lookup_fmap, Ha|by rewrite list_lookup_fmap, Ha'; cbn; f_equal].
  - injection Hb as <-. split; [done|]. rewrite Forall_forall. destruct Hprefix as (f & Hf & Hmissing). intros Hall.
    destruct (Hall f Hf) as (v & _ & Hv & _). congruence.
Qed.

(** C40. With two filters on the leading column of an index, of which the last is an equality
    that holds, a range scan skips the other one: the row matches although it may fail it. *)
Theorem repeated_filter_ignored spec field ty columns row v op w :
  index_fields spec = (field, ty) :: columns → row_fields row !! field = Some v → value_kind v = ty → value_kind w = ty → float_free v →
  (∀ c, c ∈ columns → c.1 ≠ field) →
  range_scan_matches spec [mkQueryFilter field op w; mkQueryFilter field FilterEq v] row = Ok true.
Proof.
  intros Hspec Hv Hk Hw Hfree Hne. unfold range_scan_matches. rewrite Hspec. cbn [equality_prefix last_filter rev app List.find qf_field].
  rewrite String.eqb_refl. cbn [qf_value qf_op].
  assert (Hfrom : ∀ x, value_kind x = ty → typed_value_from_filter_value x ty = Ok x) by (intros [] <-; done).
  rewrite Hfrom by done. cbn [mbind result_bind]. rewrite Hv, bool_decide_eq_true_2, matches_query_refl by done. cbn [andb].
  assert (Hstop : equality_prefix columns [mkQueryFilter field op w; mkQueryFilter field FilterEq v] row 1 = Ok (Some 1%nat)).
  { destruct columns as [|[f t] columns]; [done|]. cbn [equality_prefix last_filter rev app List.find qf_field].
    assert (Hf : String.eqb field f = false). { apply String.eqb_neq. intros <-. by apply (Hne (field, t)); [set_solver|]. }
    by rewrite Hf. }
  rewrite Hstop. cbn [mbind result_bind filters_hold qf_field list_find fst]. rewrite decide_True by done. done.
Qed.
End filters.

(** Rows sorted by a key that ends in their distinct ids are strictly sorted. *)
Lemma rows_strict d order_by rows :
  StronglySorted (key_le (rkey d order_by)) rows → NoDup (row_item_id <$> rows) →
  StronglySorted (λ a b, lt_cmp (rkey d order_by a) (rkey d order_by b)) rows.
Proof.
  induction 1 as [|a rows Hs IH Ha]; [constructor|]. intros [Hn Hd]%NoDup_cons. constructor; [auto|].
  rewrite Forall_forall in Ha |- *. intros b Hb. destruct (proj1 (le_cmp_alt _ _) (Ha b Hb)) as [?|Heq]; [done|]. exfalso. apply Hn.
  injection Heq as _ Heq. rewrite Heq. by apply list_elem_of_fmap_2.
Qed.

Section scans.
Context {N : Type} `{JsonNumber N, AxonIndex N, JsonBuild N, EntityCodecLaws N} `{QueryTextLaws}.

(** The rows a scan is to return: of the documents that have every column of the index,
    those that pass every filter. *)
Definition answers p spec (filters : list QueryFilter) (row : RangeScanRow) : Prop :=
  ∃ rec entity, pd_items p !! row_item_id row = Some rec ∧ query_entity rec = Some entity ∧
    range_scan_row spec (row_item_id row) entity = Ok (Some row) ∧ Forall (passes row) filters.

Lemma scanned_answers p spec filters rows row :
  (∀ id rec, pd_items p !! id = Some rec → ir_item_id rec = id) → NoDup (qf_field <$> filters) → scan_rows p spec filters = Ok rows →
  scanned p spec filters row ↔ answers p spec filters row.
Proof.
  intros Hids Hn Hr. split; intros (rec & entity & Hrec & Hq & Hrow & Hm); exists rec, entity; split_and!; try done.
  - by apply (range_scan_matches_iff spec filters row true Hn Hm).
  - destruct (scan_rows_each _ _ _ _ Hr (row_item_id row, rec)) as [o Ho]; [by apply elem_of_map_to_list|]. unfold scan_one in Ho. cbn in Ho.
    rewrite Hq, (Hids _ _ Hrec), Hrow in Ho. cbn [mbind result_bind] in Ho. apply bind_Ok in Ho as (b & Hb & _).
    rewrite Hb. f_equal. by apply (range_scan_matches_iff spec filters row b Hn Hb).
Qed.

(** C13. Following the cursors of a range scan over an unchanged projection ends and returns,
    in the requested order and each once, exactly the rows whose document has every column
    of the index and passes every filter, with one filter per field. Float columns are excluded from filters and
    order: JSON text need not read a float back exactly. *)
Theorem range_scan_pages_exact p request spec rows fuel :
  consistent p → typed_range_index p (rs_index request) = Ok spec → order_declared spec (rs_order_by request) = Ok tt →
  0 < rs_page_size request ≤ 1000 → scan_rows p spec (rs_filters request) = Ok rows →
  NoDup (qf_field <$> rs_filters request) → Forall (λ f, float_free (qf_value f)) (rs_filters request) → order_exact spec (rs_order_by request) → (length rows < fuel)%nat →
  ∃ d sorted, scan_all fuel p request None = Some sorted ∧ (∀ f, f ∈ rs_order_by request → of_direction f = d) ∧
    StronglySorted (λ a b, lt_cmp (rkey d (rs_order_by request) a) (rkey d (rs_order_by request) b)) sorted ∧
    ∀ row, row ∈ sorted ↔ answers p spec (rs_filters request) row.
Proof.
  intros Hp Hspec Horder Hsize Hrows Hnames Hfilters Hexact Hfuel.
  destruct (scan_rows_exact p spec _ rows (co_ids p Hp) Hrows) as [Hids Hin]. destruct (order_declared_Ok _ _ Horder) as [d Hd].
  assert (Hval : ∀ row f, row ∈ rows → f ∈ rs_order_by request → ∃ v, row_fields row !! of_field f = Some v ∧ float_free v ∧
    column_types (index_fields spec) ∅ !! of_field f = Some (value_kind v)).
  { intros row f Hrow Hf. apply Hin in Hrow. destruct (scanned_value p spec _ row f Hrow (proj2 (Hd f Hf))) as (v & Hv & Ht).
    exists v. split_and!; [done| |done]. intros Hk. apply (Hexact f Hf). by rewrite Ht, Hk. }
  destruct (sort_by_key (rkey d (rs_order_by request)) (λ lhs rhs, map_err (λ _, Panicked) (compare_rows lhs rhs (rs_order_by request))) rows)
    as (sorted & Hs & Hperm & Hle).
  { intros a b Ha Hb. rewrite (compare_rows_key d); [done|]. intros f Hf. split; [by apply Hd|].
    destruct (Hval a f Ha Hf) as (v & Hv & Hfv & Htv), (Hval b f Hb Hf) as (w & Hw & Hfw & Htw).
    exists v, w. split_and!; [done..|congruence| |]; [by destruct v|by destruct w]. }
  exists d, sorted. split_and!.
  - apply (scan_all_suffix p request spec rows sorted Hspec Horder Hsize Hrows Hs) with (before := []); try done.
    + by rewrite Hperm.
    + intros row f Hrow Hf. rewrite Hperm in Hrow. destruct (Hval row f Hrow Hf) as (v & ? & ? & _). eauto.
    + by rewrite Hperm.
  - intros f Hf. by apply Hd.
  - apply rows_strict; [done|by rewrite Hperm].
  - intros row. rewrite Hperm, Hin. by apply (scanned_answers p spec _ rows row (co_ids p Hp)).
Qed.
End scans.

(** ** Instances *)

Definition value_code (v : TypedValue) : string + (Z + (Z + (bool + (Z * Z)))) :=
  match v with
  | TVString s => inl s
  | TVInteger i => inr (inl i)
  | TVFloat b => inr (inr (inl b))
  | TVBool b => inr (inr (inr (inl b)))
  | TVDateTime t => inr (inr (inr (inr (seconds t, nanoseconds t))))
  end.
Definition code_value (c : string + (Z + (Z + (bool + (Z * Z))))) : TypedValue :=
  match c with
  | inl s => TVString s
  | inr (inl i) => TVInteger i
  | inr (inr (inl b)) => TVFloat b
  | inr (inr (inr (inl b))) => TVBool b
  | inr (inr (inr (inr (s, n)))) => TVDateTime (mkUtcTimestamp s n)
  end.
Lemma code_value_code v : code_value (value_code v) = v.
Proof. by destruct v as [| | | |[]]. Qed.

Definition op_code (op : FilterOp) : nat :=
  match op with FilterEq => 0 | FilterGte => 1 | FilterGt => 2 | FilterLte => 3 | FilterLt => 4 end%nat.
Definition code_op (n : nat) : FilterOp :=
  match n with 0 => FilterEq | 1 => FilterGte | 2 => FilterGt | 3 => FilterLte | _ => FilterLt end%nat.

Definition filter_code (f : QueryFilter) := (qf_field f, op_code (qf_op f), value_code (qf_value f)).
Definition code_filter (c : string * nat * (string + (Z + (Z + (bool + (Z * Z)))))) : QueryFilter :=
  mkQueryFilter c.1.1 (code_op c.1.2) (code_value c.2).
Lemma code_filter_code f : code_filter (filter_code f) = f.
Proof. destruct f as [n op v]. unfold code_filter. cbn. rewrite code_value_code. by destruct op. Qed.

Definition order_code (o : OrderField) := (of_field o, bool_decide (of_direction o = SortAscending)).
Definition code_order (c : string * bool) : OrderField := mkOrderField c.1 (if c.2 then SortAscending else SortDescending).
Lemma code_order_code o : code_order (order_code o) = o.
Proof. by destruct o as [n []]. Qed.

Lemma fmap_inverse {A B} (f : A → B) (g : B → A) (l : list A) : (∀ a, g (f a) = a) → g <$> (f <$> l) = l.
Proof. intros Hg. induction l as [|a l IH]; [done|]. cbn. by rewrite Hg, IH. Qed.

Definition sample_text : QueryText := {|
  query_cursor_text := λ s, pos_text (encode (cs_index s, filter_code <$> cs_filters s, order_code <$> cs_order_by s,
    ItemId.raw (cs_anchor_item_id s), value_code <$> cs_anchor_values s, cs_anchor_index_key s));
  query_cursor_read := λ text,
    '(index, filters, order_by, anchor, values, key) ← decode (text_pos text);
    Some (mkRangeScanCursorState index (code_filter <$> filters) (code_order <$> order_by) (ItemId.mk anchor)
      (code_value <$> values) key);
  group_key_text := λ key, pos_text (encode (map_to_list (value_code <$> key)));
|}.
#[local] Existing Instance sample_text.
#[local] Instance sample_text_laws : QueryTextLaws.
Proof.
  intros [index filters order_by [anchor] values key] _. cbn. rewrite text_pos_text, countable.decode_encode. cbn.
  by rewrite (fmap_inverse filter_code), (fmap_inverse order_code), (fmap_inverse value_code)
    by auto using code_filter_code, code_order_code, code_value_code.
Qed.

Definition sample_index : QueueIndex := mkQueueIndex "by_rank" (Single ("rank", IInteger, false)).
Definition sample_query_config : ProjectionConfig :=
  mkProjectionConfig timestamp_ascending Strict 0 RecurrencePolicy_default GateNone None None [] [sample_index].
Definition ranked_push (id : Z) (key : string) (rank : Z) : PushItem (N:=Z) :=
  mkPushItem key (ItemId.mk id) (Some (Timestamp (mkUtcTimestamp 10 0))) None None 3 None ∅ Metadata_new None [] {["rank" := TVInteger rank]} None.
Definition ranked_pushes : list (PushItem (N:=Z)) := [ranked_push 1 "a" 3; ranked_push 2 "b" 1; ranked_push 3 "c" 2].
Definition sample_ranked : ProjectionData := (apply_command_at None None (CmdPush ranked_pushes) (projection_new sample_query_config)).2.

Lemma sample_ranked_consistent : consistent sample_ranked.
Proof.
  apply runs_to; [apply consistent_new|]. constructor.
  - apply (bool_decide_eq_true_1 _). vm_compute. reflexivity.
  - intros item _. done.
  - apply (bool_decide_eq_true_1 _). vm_compute. reflexivity.
  - intros item k _ _. done.
  - vm_compute. reflexivity.
  - vm_compute. discriminate.
Qed.

Definition ranked_row (id rank : Z) : RangeScanRow := mkRangeScanRow (ItemId.mk id) {["rank" := TVInteger rank]}.
Definition sample_scan : RangeScanRequest :=
  mkRangeScanRequest (Some "by_rank") [mkQueryFilter "rank" FilterGte (TVInteger 2)] [mkOrderField "rank" SortDescending] 1 None.

Lemma range_scan_pages_exact_witness :
  consistent sample_ranked ∧ ∃ sorted, scan_all 3 sample_ranked sample_scan None = Some sorted ∧
    ranked_row 3 2 ∈ sorted ∧ ranked_row 2 1 ∉ sorted.
Proof.
  split; [exact sample_ranked_consistent|].
  assert (Hrows : scan_rows sample_ranked sample_index (rs_filters sample_scan) = Ok [ranked_row 3 2; ranked_row 1 3]) by (vm_compute; reflexivity).
  assert (Hexact : order_exact sample_index (rs_order_by sample_scan)) by (intros f ->%list_elem_of_singleton; vm_compute; discriminate).
  destruct (range_scan_pages_exact sample_ranked sample_scan sample_index _ 3 sample_ranked_consistent eq_refl eq_refl ltac:(cbn; lia) Hrows
    ltac:(apply NoDup_singleton) ltac:(repeat constructor; discriminate) Hexact ltac:(cbn; lia)) as (d & sorted & Hs & _ & _ & Hin).
  exists sorted. split_and!; [exact Hs| |].
  - apply Hin. eexists _, _. split_and!; [vm_compute; reflexivity|vm_compute; reflexivity|vm_compute; reflexivity|].
    apply Forall_singleton. eexists _, _. split_and!; [vm_compute; reflexivity|vm_compute; reflexivity|reflexivity].
  - intros (rec & entity & _ & _ & _ & (v & ord & Hv & Hc & Ho)%Forall_singleton)%Hin. vm_compute in Hv. injection Hv as <-.
    vm_compute in Hc. injection Hc as <-. discriminate.
Defined.

Lemma repeated_filter_ignored_witness :
  range_scan_matches sample_index [mkQueryFilter "rank" FilterGte (TVInteger 5); mkQueryFilter "rank" FilterEq (TVInteger 3)] (ranked_row 1 3) = Ok true ∧
  ¬ passes (ranked_row 1 3) (mkQueryFilter "rank" FilterGte (TVInteger 5)).
Proof.
  split.
  - apply (repeated_filter_ignored sample_index "rank" IInteger []); [reflexivity..|discriminate|]. intros c Hc. apply not_elem_of_nil in Hc as [].
  - intros (v & ord & Hv & Hc & Ho). vm_compute in Hv. injection Hv as <-. vm_compute in Hc. injection Hc as <-. discriminate.
Defined.
