(* ===== verification/QueryClaims.v ===== *)
(** Claiming by query: entering the claim index at the equality prefix loses no candidate,
    and the selected items are the first of the eligible matches. *)
From S2P Require Import Prelude Identity Priority Metadata Field Lifecycle CreateQueue Engine JsonEquality Ordered IndexFields Eligibility Projection ProjectionFacts ProjectionSamples ProjectionRefines ProjectionReads ProjectionReadFacts RichClaim Query QueryFacts.

Implicit Types (id : ItemId.t) (rec : ItemRecord).

(** ** Seeking a prefix *)

Lemma take_while_elem {A} (R : A → A → Prop) (f : A → bool) l x :
  StronglySorted R l → (∀ a b, R a b → f b = true → f a = true) → x ∈ take_while f l ↔ x ∈ l ∧ f x = true.
Proof.
  intros Hs Hf. induction Hs as [|a l Hl IH Ha]; cbn [take_while]; [set_solver|]. destruct (f a) eqn:Hfa; [set_solver|].
  split; [set_solver|]. intros [[-> |Hx]%elem_of_cons Hfx]; [congruence|]. rewrite Forall_forall in Ha.
  rewrite (Hf a x) in Hfa by auto. done.
Qed.

Lemma take_while_sublist {A} (f : A → bool) l : take_while f l `sublist_of` l.
Proof. induction l as [|a l IH]; cbn; [done|]. destruct (f a); [by constructor|apply sublist_nil_l]. Qed.

Lemma StronglySorted_omap {A B} (R : A → A → Prop) (S : B → B → Prop) (f : A → option B) l :
  (∀ a a' b b', f a = Some b → f a' = Some b' → R a a' → S b b') → StronglySorted R l → StronglySorted S (omap f l).
Proof.
  intros Hf. induction 1 as [|a l Hl IH Ha]; cbn; [constructor|]. destruct (f a) as [b|] eqn:Hb; [|done]. constructor; [done|].
  apply Forall_forall. intros b' (a' & Hin & Hb')%list_elem_of_omap. rewrite Forall_forall in Ha. eauto.
Qed.

Lemma StronglySorted_with {A} (R : A → A → Prop) (P : A → Prop) l :
  StronglySorted R l → Forall P l → StronglySorted (λ a b, R a b ∧ P a ∧ P b) l.
Proof.
  induction 1 as [|a l Hl IH Ha]; intros HP; constructor; inversion_clear HP as [|?? Hp HP']; [auto|].
  rewrite Forall_forall in Ha, HP' |- *. auto.
Qed.

(** A key at or above a prefix it does not start with is above every key that does. *)
Lemma above_prefix (prefix k t : bytes) : le_cmp prefix k → ¬ prefix `prefix_of` k → lt_cmp k (prefix ++ t) → False.
Proof.
  unfold le_cmp, lt_cmp, compare, bytes_compare. revert k. induction prefix as [|b prefix IH]; intros k Hle Hn Hlt.
  { apply Hn, prefix_nil. }
  destruct k as [|c k]; cbn in Hle, Hlt; [done|]. rewrite (Z.compare_antisym (Z_of_byte b) (Z_of_byte c)) in Hlt.
  destruct (Z.compare_spec (Z_of_byte b) (Z_of_byte c)) as [Heq|Hbc|Hbc]; cbn in Hle, Hlt; try done.
  apply Z_of_byte_inj in Heq as <-. apply (IH k); [done| |done]. intros Hp. by apply Hn, prefix_cons.
Qed.

Lemma prefix_le (prefix k : bytes) : prefix `prefix_of` k → le_cmp prefix k.
Proof.
  intros [t ->]. unfold le_cmp, compare, bytes_compare. induction prefix as [|b prefix IH]; cbn; [by destruct t|]. by rewrite Z.compare_refl.
Qed.

Section seek.
Context {A : Type}.
Implicit Types (map : gmap bytes A).

Definition seek_rows (prefix : bytes) map : list (bytes * A) :=
  omap (λ k, (λ v, (k, v)) <$> map !! k) (filter (λ k, le_cmp prefix k) (elems (dom map))).

Lemma seek_rows_sorted prefix map : StronglySorted (λ a b, lt_cmp a.1 b.1 ∧ le_cmp prefix a.1 ∧ le_cmp prefix b.1) (seek_rows prefix map).
Proof.
  unfold seek_rows. eapply StronglySorted_omap with (R := λ a b, lt_cmp a b ∧ le_cmp prefix a ∧ le_cmp prefix b).
  - intros a a' b b' (v & _ & ->)%fmap_Some (v' & _ & ->)%fmap_Some. done.
  - apply StronglySorted_with; [apply StronglySorted_filter, elems_ascending|]. apply Forall_forall. by intros k [Hk _]%list_elem_of_filter.
Qed.

Lemma elem_of_seek (prefix : bytes) map (k : bytes) v : (k, v) ∈ seek_prefix prefix map ↔ map !! k = Some v ∧ prefix `prefix_of` k.
Proof.
  unfold seek_prefix. fold (seek_rows prefix map). rewrite (take_while_elem _ _ _ _ (seek_rows_sorted prefix map)).
  - rewrite bool_decide_eq_true. cbn. unfold seek_rows. rewrite list_elem_of_omap. split.
    + intros [(k' & _ & (w & Hw & [= -> ->])%fmap_Some) Hp]. done.
    + intros [Hv Hp]. split; [|done]. exists k. split; [|apply fmap_Some; eauto]. rewrite list_elem_of_filter, elem_of_elems, elem_of_dom.
      split; [by apply prefix_le|by eexists].
  - intros a b (Hlt & Hle & _). rewrite !bool_decide_eq_true. intros [t Ht]. destruct (decide (prefix `prefix_of` a.1)) as [|Hn]; [done|].
    exfalso. apply (above_prefix prefix a.1 t Hle Hn). by rewrite <-Ht.
Qed.

Lemma seek_keys_NoDup prefix map : NoDup (seek_prefix prefix map).*1.
Proof.
  eapply sublist_NoDup; [|apply fmap_sublist, take_while_sublist]. apply (omap_ids _ (λ k, k)).
  - by intros k [k' v] _ (w & _ & [= <- <-])%fmap_Some.
  - rewrite list_fmap_id. apply NoDup_filter. eapply sorted_nodup; [apply lt_cmp_irrefl|apply elems_ascending].
Qed.
End seek.

(** What an index holds, and what entering it at a prefix finds. *)
Definition index_has (index : SecondaryIndex) id (k : bytes) : Prop :=
  match index with Unique map => map !! k = Some id | NonUnique map => posted map k id end.

Lemma elem_of_seek_ids prefix index id : id ∈ seek_ids prefix index ↔ ∃ k, index_has index id k ∧ prefix `prefix_of` k.
Proof.
  destruct index as [map|map]; cbn [seek_ids index_has].
  - rewrite list_elem_of_fmap. split.
    + intros ([k i] & -> & [Hk Hp]%elem_of_seek). eauto.
    + intros (k & Hk & Hp). exists (k, id). split; [done|]. by apply elem_of_seek.
  - rewrite list_elem_of_bind. split.
    + intros ([k ids] & Hin & [Hk Hp]%elem_of_seek). exists k. split; [|done]. unfold posted. rewrite Hk. by apply elem_of_elems.
    + intros (k & Hk & Hp). unfold posted in Hk. destruct (map !! k) as [ids|] eqn:Hm; [|cbn in Hk; set_solver].
      exists (k, ids). split; [by apply elem_of_elems|by apply elem_of_seek].
Qed.

Lemma seek_ids_NoDup prefix index :
  (∀ id k k', index_has index id k → index_has index id k' → k = k') → NoDup (seek_ids prefix index).
Proof.
  intros Hone. destruct index as [map|map]; cbn [seek_ids index_has] in *.
  - apply NoDup_fmap_2_strong; [|apply NoDup_fmap_1 with fst, seek_keys_NoDup].
    intros [k i] [k' i'] [Hk _]%elem_of_seek [Hk' _]%elem_of_seek. cbn. intros <-. f_equal. by eapply Hone.
  - apply NoDup_bind; [|intros e _; eapply sorted_nodup; [apply lt_cmp_irrefl|apply elems_ascending]|apply NoDup_fmap_1 with fst, seek_keys_NoDup].
    intros [k ids] [k' ids'] i [Hk _]%elem_of_seek [Hk' _]%elem_of_seek Hi%elem_of_elems Hi'%elem_of_elems.
    assert (k = k') as <-; [|congruence]. apply (Hone i); unfold posted; [by rewrite Hk|by rewrite Hk'].
Qed.

(** ** Canonical values *)

(** Comparing equal is being equal, but for the two zeros of a float. *)
Definition canonical (v : TypedValue) : Prop :=
  match v with TVFloat b => is_u64 b ∧ f64_is_finite b = true ∧ b ≠ 2 ^ 63 | _ => True end.

Lemma finite_not_nan b : f64_is_finite b = true → f64_is_nan b = false.
Proof. unfold f64_is_finite, f64_is_nan. by destruct (_ =? 2047). Qed.

Lemma canonical_ordinary v : canonical v → ordinary v.
Proof. destruct v; cbn; try done. intros (_ & Hf & _). by apply finite_not_nan. Qed.

Lemma zero_bits b : is_u64 b → f64_value b = 0 → b = 0 ∨ b = 2 ^ 63.
Proof.
  intros Hb Hv. assert (Hm : f64_magnitude b = 0) by (revert Hv; unfold f64_value; destruct (f64_negative b); lia).
  unfold f64_magnitude, f64_exponent, f64_fraction in Hm.
  pose proof (Z.mod_pos_bound b (2 ^ 52) eq_refl). pose proof (Z.mod_pos_bound b (2 ^ 63) eq_refl).
  destruct (Z.eqb_spec (b mod 2 ^ 63 / 2 ^ 52) 0) as [He|He].
  - revert Hb He Hm. div_lia.
  - exfalso. assert (0 < 2 ^ (b mod 2 ^ 63 / 2 ^ 52 - 1)). { apply Z.pow_pos_nonneg; [lia|]. pose proof (Z.div_pos (b mod 2 ^ 63) (2 ^ 52)). lia. } nia.
Qed.

Lemma compare_Eq_canonical v w : canonical v → canonical w → typed_value_compare v w = Ok Eq → v = w.
Proof.
  destruct v as [s|i|b|b|t], w as [s'|i'|b'|b'|t']; cbn; try done; intros Hv Hw.
  - by intros [= ->%compare_Eq].
  - by intros [= ->%Z.compare_eq].
  - destruct Hv as (Hu & Hf & Hz), Hw as (Hu' & Hf' & Hz'). unfold f64_partial_cmp. rewrite !finite_not_nan by done. cbn.
    intros [= Heq%Z.compare_eq]. pose proof (f64_eqb_bits b b' Hu Hu' Hf Hf') as [Hbits _]. unfold f64_eqb in Hbits.
    rewrite !finite_not_nan, Heq, Z.eqb_refl in Hbits by done. specialize (Hbits eq_refl). destruct (Z.eqb_spec (f64_value b') 0) as [H0|H0]; [|by f_equal].
    destruct (zero_bits b Hu) as [-> | ->], (zero_bits b' Hu') as [-> | ->]; congruence.
  - by destruct b, b'.
  - by intros [= ->%(compare_Eq (A:=UtcTimestamp))].
Qed.

(** ** Keys of a record *)

Lemma try_fold_collect_Ok {E A B} (step : list B → A → result E (list B)) (f : A → result E (option B)) (g : A → option B) acc l :
  (∀ acc a, step acc a = o ← f a; Ok (acc ++ option_list o)) → (∀ a, a ∈ l → f a = Ok (g a)) →
  try_fold step acc l = Ok (acc ++ omap g l).
Proof.
  intros Hstep. revert acc. induction l as [|a l IH]; intros acc Hf; [cbn; by rewrite app_nil_r|].
  rewrite try_fold_cons, Hstep, (Hf a) by set_solver. cbn [mbind result_bind]. rewrite IH by set_solver. cbn.
  destruct (g a); cbn; by rewrite <-app_assoc.
Qed.

Section keys.
Context {N : Type} `{JsonNumber N, AxonIndex N, JsonBuild N, EntityCodec N}.
Implicit Types (c : ProjectionConfig) (spec : QueueIndex) (fields : gmap string TypedValue).

Definition names_distinct c : Prop := NoDup ((is_name <$> pc_index_specs c) ++ (qi_name <$> pc_typed_index_specs c)).

(** The keys an index loop collects: one per spec that yields one. *)
Lemma collected_keys (f : QueueIndex → EngineResult (option bytes)) specs keys :
  try_fold (λ out spec, key ← f spec; Ok (match key with Some k => out ++ [(qi_name spec, k)] | None => out end)) [] specs = Ok keys →
  (∀ spec, spec ∈ specs → ∃ o, f spec = Ok o) ∧
  keys = omap (λ spec, match f spec with Ok (Some k) => Some (qi_name spec, k) | _ => None end) specs.
Proof.
  intros [Hok ->]%(try_fold_collect _ (λ spec, option_map (pair (qi_name spec)) <$> f spec)).
  2:{ intros acc spec. destruct (f spec) as [[k|]|]; cbn; by rewrite ?app_nil_r. }
  split.
  - intros spec Hs. destruct (Hok spec Hs) as [o Ho]. apply fmap_Ok in Ho as (key & Hk & _). eauto.
  - cbn. clear. induction specs as [|spec specs IH]; [done|]. cbn. rewrite IH. by destruct (f spec) as [[]|].
Qed.

Definition typed_key_of rec (spec : QueueIndex) : EngineResult (option bytes) :=
  if bool_decide (ir_index_fields rec = ∅) then
    match entity_value rec with
    | None => Ok None
    | Some doc => fields ← extract_index_fields_from_entity [spec] doc; typed_index_key (declaration spec) fields
    end
  else typed_index_key (declaration spec) (ir_index_fields rec).

Lemma keys_of_collected c rec : keys_ok c rec →
  (∀ spec, spec ∈ pc_typed_index_specs c → ∃ o, typed_key_of rec spec = Ok o) ∧
  keys_of c rec = legacy_index_keys (pc_index_specs c) (ir_fields rec) ++
    omap (λ spec, match typed_key_of rec spec with Ok (Some k) => Some (qi_name spec, k) | _ => None end) (pc_typed_index_specs c).
Proof.
  intros (keys & Hk). rewrite (keys_of_Ok c rec keys Hk). unfold record_entity_index_keys, record_index_keys in Hk.
  apply bind_Ok in Hk as (typed & Ht & [= <-]). assert (Hc : try_fold (λ out spec, key ← typed_key_of rec spec;
    Ok (match key with Some k => out ++ [(qi_name spec, k)] | None => out end)) [] (pc_typed_index_specs c) = Ok typed).
  { rewrite <-Ht. unfold typed_key_of, typed_index_keys, entity_index_keys. by destruct (bool_decide (ir_index_fields rec = ∅)). }
  apply collected_keys in Hc as [Hok ->]. done.
Qed.

Lemma keys_of_names c rec : names_distinct c → keys_ok c rec → NoDup (keys_of c rec).*1.
Proof.
  intros Hn [_ ->]%keys_of_collected. rewrite fmap_app. eapply sublist_NoDup; [exact Hn|]. unfold legacy_index_keys.
  assert (Hsub : ∀ {A} (name : A → string) (f : A → option (string * bytes)) l, (∀ a x, f a = Some x → x.1 = name a) → (omap f l).*1 `sublist_of` name <$> l).
  { intros A name f l Hf. induction l as [|a l IH]; [done|]. cbn. destruct (f a) as [x|] eqn:Hx; cbn; [rewrite (Hf a x Hx)|]; by constructor. }
  apply sublist_app; apply Hsub.
  - by intros spec x (k & _ & ->)%fmap_Some.
  - intros spec x. by destruct (typed_key_of rec spec) as [[]|]; intros [= <-].
Qed.

Lemma one_key c rec name (k k' : bytes) : names_distinct c → keys_ok c rec → (name, k) ∈ keys_of c rec → (name, k') ∈ keys_of c rec → k = k'.
Proof.
  intros Hn Hk [i Hi]%list_elem_of_lookup [j Hj]%list_elem_of_lookup. pose proof (keys_of_names c rec Hn Hk) as Hd.
  assert (i = j) as <-; [|congruence]. eapply NoDup_lookup; [exact Hd|by rewrite list_lookup_fmap, Hi|by rewrite list_lookup_fmap, Hj].
Qed.

(** The key of a record that carries its columns natively. *)
Lemma native_key c rec spec (k : bytes) : names_distinct c → keys_ok c rec → spec ∈ pc_typed_index_specs c → ir_index_fields rec ≠ ∅ →
  (qi_name spec, k) ∈ keys_of c rec ↔ typed_index_key (declaration spec) (ir_index_fields rec) = Ok (Some k).
Proof.
  intros Hn Hk Hs Hne. assert (Hin : ∀ k : bytes, typed_index_key (declaration spec) (ir_index_fields rec) = Ok (Some k) → (qi_name spec, k) ∈ keys_of c rec).
  { intros k0 Hk0. rewrite (proj2 (keys_of_collected c rec Hk)). apply elem_of_app. right. apply list_elem_of_omap. exists spec. split; [done|].
    unfold typed_key_of. by rewrite bool_decide_eq_false_2, Hk0. }
  split; [|apply Hin]. intros Hkey. pose proof Hkey as Hall. rewrite (proj2 (keys_of_collected c rec Hk)) in Hkey.
  apply elem_of_app in Hkey as [(legacy & Hl & (k' & _ & [= Hname _])%fmap_Some)%list_elem_of_omap|(spec' & Hs' & Hk')%list_elem_of_omap].
  - exfalso. apply NoDup_app in Hn as (_ & Hd & _). apply (Hd (qi_name spec)); [rewrite Hname|]; by apply list_elem_of_fmap_2.
  - unfold typed_key_of in Hk'. rewrite bool_decide_eq_false_2 in Hk' by done.
    destruct (typed_index_key (declaration spec') _) as [[k'|]|] eqn:Hk2; try done. injection Hk' as Hname ->.
    assert (spec' = spec) as ->; [|done]. apply NoDup_app in Hn as (_ & _ & Hn). apply list_elem_of_lookup in Hs as [i Hi], Hs' as [j Hj].
    assert (i = j) as <-; [|congruence]. eapply NoDup_lookup; [exact Hn|by rewrite list_lookup_fmap, Hi|by rewrite list_lookup_fmap, Hj; cbn; f_equal].
Qed.

Lemma columns_key_present columns fields out o :
  (∀ column, column ∈ columns → is_Some (fields !! column.1)) → columns_key columns fields out = Ok o → is_Some o.
Proof.
  revert out. induction columns as [|[f ty] columns IH]; intros out Hp; cbn [columns_key]; [intros [= <-]; eauto|].
  destruct (Hp (f, ty)) as [v Hv]; [set_solver|]. cbn in Hv. rewrite Hv. intros (framed & _ & Hk)%bind_Ok. eapply IH; [|done]. set_solver.
Qed.

(** An entry whose columns equal the predicates starts with the prefix they seek. *)
Lemma claim_prefix_found columns predicates fields acc prefix parts :
  claim_prefix columns predicates acc = Ok prefix → Forall2 (column_part fields) columns parts →
  (∀ q, q ∈ predicates → q.1.2 = FilterEq → fields !! q.1.1 = Some q.2) → prefix `prefix_of` acc ++ concat (frame_value <$> parts).
Proof.
  intros Hprefix Hparts Heq. revert acc Hprefix. induction Hparts as [|[f ty] part columns parts (v & Hv & Hpart) _ IH]; intros acc; cbn [claim_prefix].
  { intros [= <-]. by apply prefix_app_r. }
  destruct (List.find _ predicates) as [[[name op] w]|] eqn:Hfind; [|intros [= <-]; by apply prefix_app_r].
  apply find_some in Hfind as [Hin [Hname%String.eqb_eq Hop%bool_decide_eq_true]%andb_true_iff]. apply list_elem_of_In in Hin.
  pose proof (Heq _ Hin Hop) as Hw. cbn in Hname, Hop, Hw, Hv, Hpart. subst name. assert (w = v) as -> by congruence.
  unfold framed_typed_value. rewrite Hpart. intros Hp%IH. rewrite fmap_cons. cbn [concat]. by rewrite app_assoc.
Qed.
End keys.

(** ** Candidates *)

Section claims.
Context {N : Type} `{JsonNumber N, AxonIndex N, JsonBuild N, EntityCodecLaws N} `{QueryText}.
Implicit Types (p : ProjectionData) (spec : QueueIndex) (filters : list QueryFilter) (order_by : OrderField) (now : UtcTimestamp).

(** An item to claim and the value it is ordered by: claimable, with every column of the
    index, passing every filter. *)
Definition claim_match p spec filters order_by now (x : ItemId.t * TypedValue) : Prop :=
  ∃ rec, pd_items p !! x.1 = Some rec ∧ query_claimable p now rec = true ∧
    (∀ column, column ∈ index_fields spec → is_Some (ir_index_fields rec !! column.1)) ∧
    Forall (passes (mkRangeScanRow x.1 (ir_index_fields rec))) filters ∧ ir_index_fields rec !! of_field order_by = Some x.2.

(** Claimable items carry their columns as native values, and floats are finite and not
    the negative zero. *)
Definition native_columns p now : Prop :=
  ∀ id rec, pd_items p !! id = Some rec → query_claimable p now rec = true →
    ir_index_fields rec ≠ ∅ ∧ ∀ field v, ir_index_fields rec !! field = Some v → canonical v.

Definition ckey (d : SortDirection) (x : ItemId.t * TypedValue) : Directed d (string * (Z * Z)) * ItemId.t := (directed (vkey x.2), x.1).

Lemma compare_candidates_key d a b :
  value_kind a.2 = value_kind b.2 → ordinary a.2 → ordinary b.2 → compare_candidates d a b = Ok (compare (ckey d a) (ckey d b)).
Proof. intros Hk Ha Hb. unfold compare_candidates. rewrite typed_value_compare_key by done. by destruct d. Qed.

Definition predicate_of (f : QueryFilter) : Predicate := (qf_field f, qf_op f, qf_value f).

Lemma claim_predicates_Ok spec filters predicates : claim_predicates spec filters = Ok predicates →
  predicates = predicate_of <$> filters ∧ ∀ f, f ∈ filters → (qf_field f, value_kind (qf_value f)) ∈ index_fields spec.
Proof.
  intros [Hok ->]%(try_fold_collect _ (λ f, ty ← ok_or (index_field_type spec (qf_field f)) unindexed_field;
    value ← typed_value_from_filter_value (qf_value f) ty; Ok (Some (qf_field f, qf_op f, value)))).
  2:{ intros acc f. destruct (ok_or _ _) as [ty|]; cbn; [|done]. by destruct (typed_value_from_filter_value _ _). }
  cbn [app]. split.
  - induction filters as [|f filters IH]; [done|]. destruct (Hok f) as [o Ho]; [set_solver|]. apply bind_Ok in Ho as (ty & Hty & Ho).
    apply bind_Ok in Ho as (w & Hw & [= <-]). cbn [omap list_omap]. rewrite Hty. cbn [mbind result_bind]. rewrite Hw. cbn [mbind result_bind].
    apply from_filter_value in Hw as [-> _]. rewrite fmap_cons. f_equal. apply IH. set_solver.
  - intros f Hf. destruct (Hok f Hf) as [o Ho]. apply bind_Ok in Ho as (ty & Hty & Ho). apply bind_Ok in Ho as (w & [_ <-]%from_filter_value & _).
    apply ok_or_Ok in Hty. unfold index_field_type in Hty. apply fmap_Some in Hty as ([name ty] & [Hin Hname%String.eqb_eq]%find_some & ->).
    cbn in Hname |- *. subst name. by apply list_elem_of_In in Hin.
Qed.

Lemma predicates_hold_iff filters id values :
  (∀ f, f ∈ filters → ∃ v, values !! qf_field f = Some v ∧ value_kind v = value_kind (qf_value f) ∧ ordinary v ∧ ordinary (qf_value f)) →
  ∃ b, predicates_hold (predicate_of <$> filters) values = Ok b ∧ (b = true ↔ Forall (passes (mkRangeScanRow id values)) filters).
Proof.
  induction filters as [|f filters IH]; intros Hf; [by exists true|]. destruct (Hf f) as (v & Hv & Hk & Ho & Ho'); [set_solver|].
  destruct IH as (b & Hb & Hiff); [set_solver|]. rewrite fmap_cons. cbn [predicates_hold predicate_of]. rewrite Hv, typed_value_compare_key by done.
  cbn [mbind result_bind]. destruct (op_holds (qf_op f) _) eqn:Hop.
  - exists b. split; [done|]. rewrite Forall_cons, Hiff. split; [|tauto]. split; [|done]. exists v. eexists. split_and!; [done|by apply typed_value_compare_key|done].
  - exists false. split; [done|]. split; [done|]. intros [(v' & ord & Hv' & Hord & Hop') _]%Forall_cons. cbn in Hv'. assert (v' = v) as -> by congruence.
    rewrite typed_value_compare_key in Hord by done. injection Hord as <-. congruence.
Qed.

(** What the loop adds for one item. *)
Definition candidate_of p spec (predicates : list Predicate) order_by now id : result Fault (option (ItemId.t * TypedValue)) :=
  match pd_items p !! id with
  | None => Ok None
  | Some rec =>
      if negb (query_claimable p now rec) then Ok None
      else
        values ← map_err Failed (claim_values spec id rec);
        match values with
        | None => Ok None
        | Some values =>
            ok ← map_err Failed (predicates_hold predicates values);
            if negb ok then Ok None else order ← expect (values !! of_field order_by); Ok (Some (id, order))
        end
  end.

Lemma candidate_step p spec predicates order_by now candidates id :
  claim_candidate p spec predicates order_by now candidates id =
  o ← candidate_of p spec predicates order_by now id; Ok (candidates ++ option_list o).
Proof.
  unfold claim_candidate, candidate_of. destruct (pd_items p !! id) as [rec|]; [|cbn; by rewrite app_nil_r].
  destruct (negb _); [cbn; by rewrite app_nil_r|]. destruct (map_err _ (claim_values _ _ _)) as [[values|]|]; cbn [mbind result_bind]; [|cbn; by rewrite app_nil_r|done].
  destruct (map_err _ (predicates_hold _ _)) as [[]|]; cbn [mbind result_bind negb]; [|cbn; by rewrite app_nil_r|done].
  by destruct (expect _).
Qed.

Lemma candidate_exact p spec filters order_by now id rec :
  pd_items p !! id = Some rec →
  (query_claimable p now rec = true → ∀ column, column ∈ index_fields spec →
     ∃ v, ir_index_fields rec !! column.1 = Some v ∧ value_kind v = column.2 ∧ canonical v) →
  (∀ f, f ∈ filters → (qf_field f, value_kind (qf_value f)) ∈ index_fields spec ∧ canonical (qf_value f)) →
  of_field order_by ∈ (index_fields spec).*1 →
  ∃ o, candidate_of p spec (predicate_of <$> filters) order_by now id = Ok o ∧ ∀ x, o = Some x ↔ x.1 = id ∧ claim_match p spec filters order_by now x.
Proof.
  intros Hrec Hcols Hfilters Horder. unfold candidate_of. rewrite Hrec. destruct (query_claimable p now rec) eqn:Hc; cbn [negb].
  2:{ exists None. split; [done|]. intros x. split; [done|]. intros [<- (rec' & Hrec' & Hc' & _)]. congruence. }
  specialize (Hcols eq_refl). unfold claim_values. rewrite (proj2 (forallb_forall _ _)).
  2:{ intros column Hin%list_elem_of_In. destruct (Hcols column Hin) as (v & Hv & _). apply bool_decide_eq_true. eauto. }
  cbn [map_err mbind result_bind]. destruct (predicates_hold_iff filters id (ir_index_fields rec)) as (b & Hb & Hiff).
  { intros f Hf. destruct (Hfilters f Hf) as [Hin Hcan]. destruct (Hcols _ Hin) as (v & Hv & Hk & Hv'). exists v.
    split_and!; [done..| |]; by apply canonical_ordinary. }
  rewrite Hb. cbn [map_err mbind result_bind]. destruct b; cbn [negb].
  - apply list_elem_of_fmap in Horder as (column & Hcol & Hin). destruct (Hcols column Hin) as (v & Hv & _). rewrite <-Hcol in Hv.
    rewrite Hv. exists (Some (id, v)). split; [done|]. intros [i w]. cbn. split.
    + intros [= <- <-]. split; [done|]. exists rec. cbn. split_and!; [done..| |by apply Hiff|done]. intros c' Hc'. destruct (Hcols c' Hc') as (u & Hu & _). eauto.
    + intros [-> (rec' & Hrec' & _ & _ & _ & Hw)]. cbn in *. congruence.
  - exists None. split; [done|]. intros x. split; [done|]. intros [<- (rec' & Hrec' & _ & _ & Hp & _)]. assert (rec' = rec) as -> by congruence.
    by apply Hiff in Hp.
Qed.

(** The claim index and what entering it at the prefix finds. *)
Lemma claim_index_entry p spec index id k : consistent p → pd_claim_indexes p !! qi_name spec = Some index →
  index_has index id k ↔ ∃ rec, pd_items p !! id = Some rec ∧ ir_state rec = Pending ∧ live rec ∧ (qi_name spec, k) ∈ keys_of (pd_config p) rec.
Proof.
  intros Hp Hindex. pose proof (proj2 (co_claim_index p Hp) id (qi_name spec, k)) as Ht. unfold has_key in Ht. cbn [fst snd] in Ht. rewrite Hindex in Ht.
  unfold index_has. exact Ht.
Qed.

Lemma claim_index_present p spec : consistent p → spec ∈ pc_typed_index_specs (pd_config p) → is_Some (pd_claim_indexes p !! qi_name spec).
Proof.
  intros Hp Hspec. destruct (empty_indexes_declared (pd_config p) (qi_name spec)) as [i Hi]; [right; by apply list_elem_of_fmap_2|].
  pose proof (proj1 (proj1 (co_claim_index p Hp))) as Hkind. apply (f_equal (.!! qi_name spec)) in Hkind. rewrite !lookup_fmap, Hi in Hkind.
  destruct (pd_claim_indexes p !! qi_name spec); [eauto|done].
Qed.

Lemma typed_range_index_elem p name spec : typed_range_index p name = Ok spec → spec ∈ pc_typed_index_specs (pd_config p).
Proof.
  unfold typed_range_index, find_index. destruct name as [name|]; intros Hs%ok_or_Ok.
  - apply find_some in Hs as [Hin _]. by apply list_elem_of_In.
  - destruct (pc_typed_index_specs (pd_config p)); cbn in Hs; [done|]. injection Hs as ->. set_solver.
Qed.

Lemma query_claimable_pending p now rec : query_claimable p now rec = true → ir_state rec = Pending ∧ live rec.
Proof.
  unfold query_claimable, live. intros Hc%negb_true_iff. rewrite !orb_false_iff in Hc. destruct Hc as [[[[[Hs Hl] _] _] _] _].
  apply negb_false_iff, bool_decide_eq_true in Hs. done.
Qed.

(** A key has a value of its type for each column, and full columns have a key. *)
Lemma native_typed spec fields k : typed_index_key (declaration spec) fields = Ok (Some k) →
  ∀ column, column ∈ index_fields spec → ∃ v, fields !! column.1 = Some v ∧ value_kind v = column.2.
Proof.
  intros (parts & _ & Hparts)%columns_key_Some column [i Hi]%list_elem_of_lookup.
  destruct (Forall2_lookup_l _ _ _ _ _ Hparts Hi) as (part & _ & v & Hv & Hpart). exists v. split; [done|]. by destruct v, column.2.
Qed.

Lemma native_full p spec now id rec : consistent p → native_columns p now → spec ∈ pc_typed_index_specs (pd_config p) →
  pd_items p !! id = Some rec → query_claimable p now rec = true →
  (∀ column, column ∈ index_fields spec → is_Some (ir_index_fields rec !! column.1)) →
  ∃ k, typed_index_key (declaration spec) (ir_index_fields rec) = Ok (Some k).
Proof.
  intros Hp Hnat Hspec Hrec Hc Hcols. destruct (proj1 (keys_of_collected _ _ (co_keys p Hp id rec Hrec)) spec Hspec) as [o Ho]. unfold typed_key_of in Ho.
  rewrite bool_decide_eq_false_2 in Ho by (by eapply Hnat). destruct (columns_key_present _ _ _ _ Hcols Ho) as [k ->]. by exists k.
Qed.

(** Entering the index at the prefix finds every match, and natively typed records only. *)
Lemma seek_matches p spec filters order_by now prefix index :
  consistent p → names_distinct (pd_config p) → native_columns p now → spec ∈ pc_typed_index_specs (pd_config p) →
  Forall (λ f, canonical (qf_value f)) filters → claim_prefix (index_fields spec) (predicate_of <$> filters) [] = Ok prefix →
  pd_claim_indexes p !! qi_name spec = Some index →
  (∀ id, id ∈ seek_ids prefix index → ∃ rec, pd_items p !! id = Some rec ∧ (query_claimable p now rec = true → ∀ column, column ∈ index_fields spec →
     ∃ v, ir_index_fields rec !! column.1 = Some v ∧ value_kind v = column.2 ∧ canonical v)) ∧
  (∀ x, claim_match p spec filters order_by now x → x.1 ∈ seek_ids prefix index).
Proof.
  intros Hp Hn Hnat Hspec Hcan Hprefix Hindex. split.
  - intros id (k & Hk & _)%elem_of_seek_ids. apply (claim_index_entry p spec index id k Hp Hindex) in Hk as (rec & Hrec & _ & _ & Hkey).
    exists rec. split; [done|]. intros Hc. destruct (Hnat id rec Hrec Hc) as [Hne Hfit].
    apply (native_key _ _ _ _ Hn (co_keys p Hp id rec Hrec) Hspec Hne) in Hkey. intros column Hcol. destruct (native_typed _ _ _ Hkey column Hcol) as (v & Hv & Hk).
    exists v. split_and!; [done..|by eapply Hfit].
  - intros [id v] (rec & Hrec & Hc & Hcols & Hpass & _). cbn in *. destruct (Hnat id rec Hrec Hc) as [Hne Hfit].
    destruct (native_full p spec now id rec Hp Hnat Hspec Hrec Hc Hcols) as [k Ho]. apply elem_of_seek_ids. exists k. destruct (query_claimable_pending p now rec Hc). split.
    + apply (claim_index_entry p spec index id k Hp Hindex). exists rec. split_and!; [done..|].
      by apply (native_key _ _ _ _ Hn (co_keys p Hp id rec Hrec) Hspec Hne).
    + apply columns_key_Some in Ho as (parts & -> & Hparts). apply (claim_prefix_found _ _ _ [] _ _ Hprefix Hparts).
      intros q (f & -> & Hf)%list_elem_of_fmap Hop. cbn in Hop |- *. rewrite Forall_forall in Hpass, Hcan.
      destruct (Hpass f Hf) as (w & ord & Hw & Hord & Hholds). rewrite Hop in Hholds. destruct ord; try done. cbn in Hw.
      apply compare_Eq_canonical in Hord as ->; [done|by eapply Hfit|by apply Hcan].
Qed.

(** Matches compare by their keys. *)
Lemma match_values p spec filters order_by now (l : list (ItemId.t * TypedValue)) : native_columns p now → consistent p → spec ∈ pc_typed_index_specs (pd_config p) →
  of_field order_by ∈ (index_fields spec).*1 → (∀ x, x ∈ l ↔ claim_match p spec filters order_by now x) →
  ∀ a b, a ∈ l → b ∈ l → compare_candidates (of_direction order_by) a b = Ok (compare (ckey (of_direction order_by) a) (ckey (of_direction order_by) b)).
Proof.
  intros Hnat Hp Hspec Horder Hin. apply list_elem_of_fmap in Horder as (column & Hcol & Hc).
  assert (Hval : ∀ x, x ∈ l → value_kind x.2 = column.2 ∧ ordinary x.2).
  { intros [id v] (rec & Hrec & Hclaim & Hcols & _ & Hv)%Hin. cbn in *. destruct (Hnat id rec Hrec Hclaim) as [Hne Hfit].
    split; [|apply canonical_ordinary; by eapply Hfit].
    destruct (native_full p spec now id rec Hp Hnat Hspec Hrec Hclaim Hcols) as [k Hk].
    destruct (native_typed _ _ _ Hk column Hc) as (w & Hw & <-). rewrite <-Hcol in Hw. congruence. }
  intros a b Ha Hb. destruct (Hval a Ha), (Hval b Hb). apply compare_candidates_key; [congruence|done..].
Qed.

Lemma candidates_strict d (l : list (ItemId.t * TypedValue)) :
  StronglySorted (key_le (ckey d)) l → NoDup l.*1 → StronglySorted (λ a b, lt_cmp (ckey d a) (ckey d b)) l.
Proof.
  induction 1 as [|a l Hs IH Ha]; [constructor|]. intros [Hn Hd]%NoDup_cons. constructor; [auto|].
  rewrite Forall_forall in Ha |- *. intros b Hb. destruct (proj1 (le_cmp_alt _ _) (Ha b Hb)) as [?|Heq]; [done|]. exfalso. apply Hn.
  injection Heq as _ Heq. rewrite Heq. by apply list_elem_of_fmap_2.
Qed.

End claims.

(** ** Instances and departures *)

Lemma sample_native : native_columns sample_ranked (at_second 60).
Proof.
  assert (Hall : map_Forall (λ _ rec, ir_index_fields rec ≠ ∅ ∧ map_Forall (λ _ v, match v with TVInteger _ => true | _ => false end = true) (ir_index_fields rec)) (pd_items sample_ranked)).
  { apply map_Forall_to_list, (bool_decide_eq_true_1 _). vm_compute. reflexivity. }
  intros id rec Hrec _. destruct (Hall id rec Hrec) as [Hne Hv]. split; [done|]. intros field v Hf. specialize (Hv field v Hf). by destruct v.
Qed.


Definition f64_nan : Z := f64_infinity + 2 ^ 51.
Definition float_index : QueueIndex := mkQueueIndex "by_score" (Single ("score", IFloat, false)).
Definition float_config : ProjectionConfig :=
  mkProjectionConfig timestamp_ascending Strict 0 RecurrencePolicy_default GateNone None None [] [float_index].
Definition scored_push (id : Z) (key : string) (score : Z) : PushItem (N:=Z) :=
  mkPushItem key (ItemId.mk id) (Some (Timestamp (mkUtcTimestamp 10 0))) None None 3 None ∅ Metadata_new None [] {["score" := TVFloat score]} None.
Definition scored (scores : list Z) : EngineResult unit * ProjectionData :=
  apply_command_at None None (CmdPush (imap (λ i score, scored_push (Z.of_nat i) (ItemId.Display (ItemId.mk (Z.of_nat i + 100))) score) scores))
    (projection_new float_config).


(** Claiming by an equality filter on a float column misses an item that passes the
    filter when its value is the other zero: the prefix is compared by bytes. *)
Theorem negative_zero_claim_missed :
  let zero := mkQueryFilter "score" FilterEq (TVFloat 0) in
  let claim filters := select_claim_by_query (scored [2 ^ 63]).2 (Some "by_score") filters (mkOrderField "score" SortAscending) 10 (at_second 60) in
  (∃ x, claim_match (scored [2 ^ 63]).2 float_index [zero] (mkOrderField "score" SortAscending) (at_second 60) x) ∧
  claim [zero] = Ok [] ∧ claim [mkQueryFilter "score" FilterGte (TVFloat 0); mkQueryFilter "score" FilterLte (TVFloat 0)] = Ok [ItemId.mk 0].
Proof.
  cbv zeta. split_and!; [|vm_compute; reflexivity|vm_compute; reflexivity].
  exists (ItemId.mk 0, TVFloat (2 ^ 63)). eexists. split_and!; [vm_compute; reflexivity|reflexivity| | |reflexivity].
  - intros column ->%list_elem_of_singleton. eexists. reflexivity.
  - apply Forall_singleton. eexists _, _. split_and!; reflexivity.
Qed.
