(* ===== verification/QueryCounts.v ===== *)
(** Counting queries: declared buckets are disjoint and their counts exact, grouped counts
    and lifecycle counts from index keys are those of the matching records. *)
From S2P Require Import Prelude Identity Priority Metadata Field Lifecycle CreateQueue Engine JsonEquality Ordered IndexFields Eligibility Projection ProjectionFacts ProjectionSamples ProjectionRefines ProjectionReads RichClaim Query QueryFacts QueryClaims.

Implicit Types (id : ItemId.t) (rec : ItemRecord).

(** ** Finite doubles *)

Lemma f64_exponent_range b : 0 ≤ f64_exponent b ≤ 2047.
Proof. unfold f64_exponent. div_lia. Qed.

Lemma finite_magnitude b : f64_is_finite b = true → 0 ≤ f64_magnitude b < 2 ^ 2098.
Proof.
  unfold f64_is_finite. intros Hf%negb_true_iff%Z.eqb_neq. pose proof (f64_exponent_range b). unfold f64_magnitude.
  assert (Hfrac : 0 ≤ f64_fraction b < 2 ^ 52) by (unfold f64_fraction; apply Z.mod_pos_bound; lia).
  destruct (Z.eqb_spec (f64_exponent b) 0) as [He|He].
  { split; [lia|]. etrans; [apply Hfrac|]. apply Z.pow_lt_mono_r; lia. }
  assert (Hp : 0 < 2 ^ (f64_exponent b - 1) ≤ 2 ^ 2045) by (split; [apply Z.pow_pos_nonneg; lia|apply Z.pow_le_mono_r; lia]).
  replace 2098 with (53 + 2045) by lia. rewrite Z.pow_add_r by lia. remember (2 ^ (f64_exponent b - 1)) as u eqn:Hu. remember (2 ^ 2045) as w eqn:Hw.
  clear Hu Hw. assert (2 ^ 53 = 2 * 2 ^ 52) as -> by lia. nia.
Qed.

Lemma infinity_values : f64_value f64_infinity = 2 ^ 2098 ∧ f64_value f64_neg_infinity = - 2 ^ 2098.
Proof. split; vm_compute; reflexivity. Qed.

Lemma finite_value b : f64_is_finite b = true → - 2 ^ 2098 < f64_value b < 2 ^ 2098.
Proof. intros Hf%finite_magnitude. unfold f64_value. destruct (f64_negative b); lia. Qed.

(** An [i64] is a finite double. *)
Lemma f64_of_i64_finite v : is_i64 v → f64_is_finite (f64_of_i64 v) = true.
Proof.
  intros Hv. unfold f64_of_i64. destruct (Z.eqb_spec v 0) as [->|Hz]; [done|].
  pose proof (Z.log2_spec (Z.abs v) ltac:(lia)) as Hlog. pose proof (Z.log2_nonneg (Z.abs v)) as He0.
  assert (He : Z.log2 (Z.abs v) ≤ 63). { change 63 with (Z.log2 (2 ^ 63)). apply Z.log2_le_mono. unfold is_i64, i64_min, i64_max in Hv. lia. }
  set (e := Z.log2 (Z.abs v)) in *. clearbody e. set (m := Z.abs v) in *.
  match goal with |- context [_ + ?mant] => match mant with if _ then _ else _ => set (mantissa := mant) end end.
  assert (Hm : 2 ^ 52 ≤ mantissa ≤ 2 ^ 53).
  { subst mantissa. rewrite Z.pow_succ_r in Hlog by done. destruct (Z.leb_spec e 52) as [Hs|Hs].
    - assert (2 ^ 52 = 2 ^ e * 2 ^ (52 - e)) as Hp by (rewrite <-Z.pow_add_r by lia; f_equal; lia).
      assert (0 < 2 ^ (52 - e)) by (apply Z.pow_pos_nonneg; lia). nia.
    - assert (2 ^ e = 2 ^ 52 * 2 ^ (e - 52)) as Hp by (rewrite <-Z.pow_add_r by lia; f_equal; lia).
      assert (Hu : 0 < 2 ^ (e - 52)) by (apply Z.pow_pos_nonneg; lia).
      assert (Hq : 2 ^ 52 ≤ m / 2 ^ (e - 52) < 2 ^ 53) by (split; [apply Z.div_le_lower_bound; lia|apply Z.div_lt_upper_bound; lia]).
      destruct (_ || _); lia. }
  clearbody mantissa. unfold f64_is_finite, f64_exponent. apply negb_true_iff, Z.eqb_neq.
  assert (Hmod : ((if v <? 0 then 2 ^ 63 else 0) + (1022 + e) * 2 ^ 52 + mantissa) mod 2 ^ 63 = (1022 + e) * 2 ^ 52 + mantissa).
  { symmetry. apply (Z.mod_unique_pos _ _ (if v <? 0 then 1 else 0)); [lia|]. destruct (v <? 0); lia. }
  rewrite Hmod. intros Heq. assert (2047 * 2 ^ 52 ≤ (1022 + e) * 2 ^ 52 + mantissa); [rewrite <-Heq; rewrite Z.mul_comm; apply Z.mul_div_le; lia|lia].
Qed.

(** ** Buckets *)

(** No bound is a NaN. *)
Definition bound_ordinary (bound : option Z) : Prop := match bound with Some b => f64_is_nan b = false | None => True end.
Definition rule_ordinary (rule : BucketRule) : Prop :=
  bound_ordinary (bk_exact rule) ∧ bound_ordinary (bk_gt rule) ∧ bound_ordinary (bk_gte rule) ∧ bound_ordinary (bk_lt rule) ∧ bound_ordinary (bk_lte rule).

Definition numeric_of (v : TypedValue) : option Z := match v with TVInteger i => Some (f64_of_i64 i) | TVFloat b => Some b | _ => None end.

Definition in_interval (x : Z) (i : BucketInterval) : Prop :=
  bound_le (lo i) (lo_inclusive i) x true = true ∧ bound_le x true (hi i) (hi_inclusive i) = true.

(** Comparing doubles that are not NaN is comparing their values. *)
Lemma bound_le_value x x_inclusive y y_inclusive : f64_is_nan x = false → f64_is_nan y = false →
  bound_le x x_inclusive y y_inclusive = true ↔ f64_value x < f64_value y ∨ (f64_value x = f64_value y ∧ x_inclusive = true ∧ y_inclusive = true).
Proof.
  intros Hx Hy. unfold bound_le, f64_ltb, f64_eqb. rewrite Hx, Hy. cbn [negb andb].
  destruct (Z.ltb_spec (f64_value x) (f64_value y)); [split; [by left|done]|].
  destruct (Z.eqb_spec (f64_value x) (f64_value y)); [rewrite andb_true_iff|]; intuition (lia || done).
Qed.

Lemma intervals_share x a b :
  f64_is_nan x = false → Forall (λ y, f64_is_nan y = false) [lo a; hi a; lo b; hi b] → in_interval x a → in_interval x b → intervals_overlap a b = true.
Proof.
  intros Hx Hn [Ha Ha'] [Hb Hb']. rewrite !Forall_cons in Hn. destruct Hn as (Hla & Hha & Hlb & Hhb & _).
  rewrite bound_le_value in Ha, Ha', Hb, Hb' by done. unfold intervals_overlap. apply andb_true_iff. rewrite !bound_le_value by done. intuition lia.
Qed.

Lemma to_interval_ordinary rule : rule_ordinary rule → f64_is_nan (lo (to_interval rule)) = false ∧ f64_is_nan (hi (to_interval rule)) = false.
Proof.
  destruct rule as [label exact gt gte lt lte]. unfold rule_ordinary, to_interval. cbn [bk_exact bk_gt bk_gte bk_lt bk_lte bound_ordinary].
  intros (He & Hgt & Hgte & Hlt & Hlte). destruct exact as [e|]; [done|].
  destruct gte as [a|], gt as [b|], lte as [c|], lt as [d|]; cbn [lo hi bound_ordinary] in *; split; first [assumption|vm_compute; reflexivity].
Qed.

(** A finite value a rule takes lies in the interval of the rule. *)
Lemma matches_in_interval v x rule : numeric_of v = Some x → f64_is_finite x = true → rule_ordinary rule →
  value_matches_bucket v rule = true → in_interval x (to_interval rule).
Proof.
  intros Hv Hfin Hord. pose proof (to_interval_ordinary rule Hord) as [Hlo Hhi]. pose proof (finite_not_nan x Hfin) as Hx. pose proof (finite_value x Hfin).
  destruct infinity_values as [Hinf Hninf]. unfold value_matches_bucket. fold (numeric_of v). rewrite Hv. unfold in_interval. rewrite !bound_le_value by done.
  revert Hord Hlo Hhi. destruct rule as [label exact gt gte lt lte]. unfold rule_ordinary, to_interval. cbn [bk_exact bk_gt bk_gte bk_lt bk_lte].
  intros (He & Hgt & Hgte & Hlt & Hlte) _ _. destruct exact as [e|]; cbn [lo hi lo_inclusive hi_inclusive].
  { unfold f64_eqb. rewrite !andb_true_iff, Z.eqb_eq. intuition lia. }
  unfold f64_leb, f64_ltb, f64_eqb. destruct gte as [a|], gt as [b|], lte as [c|], lt as [d|]; cbn [bound_ordinary] in *;
    rewrite ?Hx, ?Hgt, ?Hgte, ?Hlt, ?Hlte; cbn [negb andb lo hi lo_inclusive hi_inclusive];
    rewrite ?andb_true_iff, ?negb_true_iff, ?orb_false_iff, ?Z.ltb_ge, ?Z.eqb_neq, ?Hinf, ?Hninf; intuition lia.
Qed.

(** Buckets that do not overlap take a finite value at most once. *)
Lemma buckets_exclusive v x rules i j a b : numeric_of v = Some x → f64_is_finite x = true → Forall rule_ordinary rules →
  any_overlap (to_interval <$> rules) = false → rules !! i = Some a → rules !! j = Some b →
  value_matches_bucket v a = true → value_matches_bucket v b = true → i = j.
Proof.
  intros Hv Hfin Hord. pose proof (finite_not_nan x Hfin) as Hx. rewrite Forall_forall in Hord.
  assert (Hsh : ∀ a b, a ∈ rules → b ∈ rules → value_matches_bucket v a = true → value_matches_bucket v b = true → intervals_overlap (to_interval a) (to_interval b) = true).
  { intros a0 b0 Ha Hb Hma Hmb. destruct (to_interval_ordinary a0 (Hord _ Ha)), (to_interval_ordinary b0 (Hord _ Hb)).
    apply (intervals_share x); [done|by repeat constructor|apply (matches_in_interval v); auto..]. }
  clear Hord. revert i j. induction rules as [|r rules IH]; intros i j Hov Hi Hj Hma Hmb; [done|].
  cbn in Hov. apply orb_false_iff in Hov as [Hhd Htl].
  assert (Hno : ∀ c, c ∈ rules → value_matches_bucket v r = true → value_matches_bucket v c = true → False).
  { intros c Hc Hmr Hmc. assert (existsb (intervals_overlap (to_interval r)) (to_interval <$> rules) = true); [|unfold fmap, list_fmap in *; congruence].
    apply existsb_exists. exists (to_interval c). split; [apply list_elem_of_In; by apply list_elem_of_fmap_2|]. apply Hsh; set_solver. }
  destruct i as [|i], j as [|j]; cbn in Hi, Hj; [done| | |].
  - injection Hi as ->. exfalso. apply (Hno b); [by eapply list_elem_of_lookup_2|done..].
  - injection Hj as ->. exfalso. apply (Hno a); [by eapply list_elem_of_lookup_2|done..].
  - f_equal. apply IH; try done. intros a0 b0 Ha Hb. apply Hsh; set_solver.
Qed.

(** What the counts rely on of JSON numbers: integers are [i64]s, floats are finite. *)
Class JsonRange (N : Type) `{JsonNumber N} := {
  as_i64_fits n z : as_i64 n = Some z → is_i64 z;
  as_f64_finite n b : as_f64 n = Some b → f64_is_finite b = true;
}.

Section buckets.
Context {N : Type} `{JsonNumber N, AxonIndex N, JsonBuild N, EntityCodec N} `{!JsonRange N}.
Implicit Types (p : ProjectionData) (entity : Value N).

Lemma numeric_field entity field ty v : ty = IInteger ∨ ty = IFloat → typed_value_for_field entity field ty = Ok (Some v) →
  ∃ x, numeric_of v = Some x ∧ f64_is_finite x = true.
Proof.
  intros Hty. destruct entity as [| | | | |map]; cbn; try done. destruct (assoc field map) as [[]|]; try done; destruct Hty as [-> | ->]; try done;
    intros (x & (z & Hz%ok_or_Ok & <-)%fmap_Ok & [= <-])%fmap_Ok; cbn.
  - eexists. split; [done|]. by apply f64_of_i64_finite, (as_i64_fits n).
  - eexists. split; [done|]. by apply (as_f64_finite n).
Qed.

(** The bucketed field of a record: [None] for one the filters leave out. *)
Definition segment_value (filters : list QueryFilter) (field : string) (ty : IndexType) (e : ItemId.t * ItemRecord) : EngineResult (option (option TypedValue)) :=
  match query_entity e.2 with
  | None => Ok None
  | Some entity =>
      ok ← matches_filters_on_entity entity filters;
      if negb ok then Ok None else Some <$> entity_index_value entity field ty
  end.

Definition takes (rule : BucketRule) (o : option TypedValue) : bool := match o with Some v => value_matches_bucket v rule | None => false end.
Definition count_of {A} (f : A → bool) (l : list A) : Z := Z.of_nat (length (List.filter f l)).

Definition count_step (rules : list BucketRule) (acc : list Z * Z) (o : option TypedValue) : list Z * Z :=
  match o with None => (acc.1, acc.2 + 1) | Some v => (count_bucket v rules acc.1, acc.2) end.

Definition exclusive (rules : list BucketRule) (v : TypedValue) : Prop :=
  ∀ i j a b, rules !! i = Some a → rules !! j = Some b → value_matches_bucket v a = true → value_matches_bucket v b = true → i = j.

Lemma exclusive_tail rule rules v : exclusive (rule :: rules) v → exclusive rules v.
Proof. intros He i j a b Hi Hj Ha Hb. specialize (He (S i) (S j) a b Hi Hj Ha Hb). by injection He. Qed.

Lemma count_bucket_zip v rules counts : exclusive rules v → length counts = length rules →
  count_bucket v rules counts = zip_with (λ rule n, n + Z.b2z (value_matches_bucket v rule)) rules counts.
Proof.
  revert counts. induction rules as [|rule rules IH]; intros [|n counts] He Hl; try done. injection Hl as Hl. cbn [count_bucket zip_with].
  destruct (value_matches_bucket v rule) eqn:Hm; cbn [Z.b2z].
  2:{ rewrite IH by (done || by eapply exclusive_tail). by rewrite Z.add_0_r. }
  f_equal. assert (Hnone : ∀ b, b ∈ rules → value_matches_bucket v b = false).
  { intros b [j Hj]%list_elem_of_lookup. apply not_true_is_false. intros Hb. by specialize (He 0%nat (S j) rule b eq_refl Hj Hm Hb). }
  clear IH He Hm. revert counts Hl. induction rules as [|r rules IH]; intros [|m counts] Hl; try done. injection Hl as Hl. cbn.
  rewrite (Hnone r) by set_solver. cbn. rewrite Z.add_0_r, <-IH; [done|set_solver|done].
Qed.

Lemma count_steps rules values counts n : (∀ v, Some v ∈ values → exclusive rules v) → length counts = length rules →
  foldl (count_step rules) (counts, n) values =
  (zip_with (λ rule k, k + count_of (takes rule) values) rules counts, n + count_of (λ o, bool_decide (o = None)) values).
Proof.
  revert counts n. induction values as [|o values IH]; intros counts n He Hl.
  { cbn. rewrite Z.add_0_r. f_equal. clear He. revert rules Hl. induction counts as [|k counts IH]; intros [|r rules] Hl; try done. cbn. rewrite Z.add_0_r. f_equal. apply IH. by injection Hl. }
  cbn [foldl]. destruct o as [v|]; cbn [count_step fst snd].
  - rewrite count_bucket_zip by (try apply He; set_solver). rewrite IH; [|set_solver|rewrite length_zip_with; lia]. f_equal. clear IH He.
    revert counts Hl. induction rules as [|r rules IH]; intros [|k counts] Hl; try done. injection Hl as Hl. cbn [zip_with]. f_equal; [|by apply IH].
    unfold count_of. cbn. destruct (value_matches_bucket v r); cbn; lia.
  - rewrite IH; [|set_solver|done]. f_equal. unfold count_of. cbn. lia.
Qed.

(** A loop that folds what each element yields. *)
Lemma try_fold_omap {E A B S} (step : S → A → result E S) (f : A → result E (option B)) (g : S → B → S) s l out :
  (∀ s a, step s a = o ← f a; Ok (match o with Some b => g s b | None => s end)) → try_fold step s l = Ok out →
  (∀ a, a ∈ l → ∃ o, f a = Ok o) ∧ out = foldl g s (omap (λ a, match f a with Ok o => o | Err _ => None end) l).
Proof.
  intros Hstep. revert s. induction l as [|a l IH]; intros s Hf; [injection Hf as <-; split; [set_solver|done]|].
  rewrite try_fold_cons, Hstep in Hf. apply bind_Ok in Hf as (s' & Ha & Hf). apply bind_Ok in Ha as (o & Ho & [= <-]).
  apply IH in Hf as [Hl ->]. split; [set_solver|]. cbn. rewrite Ho. by destruct o.
Qed.

(** The bucketed fields of the records that pass the filters. *)
Definition segment_values p (filters : list QueryFilter) (field : string) (ty : IndexType) : list (option TypedValue) :=
  omap (λ e, match segment_value filters field ty e with Ok o => o | Err _ => None end) (map_to_list (pd_items p)).


(** A bucket without bounds takes every number and overlaps every other bucket that takes
    a finite number, where the contract says it takes none and overlaps nothing. *)
Theorem unbounded_bucket_takes_all label v x rule :
  let unbounded := mkBucketRule label None None None None None in
  numeric_of v = Some x → f64_is_finite x = true → rule_ordinary rule → value_matches_bucket v rule = true →
  value_matches_bucket v unbounded = true ∧ intervals_overlap (to_interval unbounded) (to_interval rule) = true.
Proof.
  cbv zeta. intros Hv Hfin Hrule Hm. assert (Hu : value_matches_bucket v (mkBucketRule label None None None None None) = true).
  { unfold value_matches_bucket. fold (numeric_of v). by rewrite Hv. }
  split; [done|]. pose proof (to_interval_ordinary rule Hrule) as [Hlo Hhi].
  apply (intervals_share x); [by apply finite_not_nan|by repeat constructor|by apply (matches_in_interval v)|by apply (matches_in_interval v)].
Qed.
End buckets.

(** ** Groups *)

Section groups.
Context {N : Type} `{JsonNumber N, AxonIndex N, JsonBuild N, EntityCodec N} `{QueryText}.
Implicit Types (p : ProjectionData).

(** The group key of a record: [None] for one the filters leave out or without a grouped column. *)
Definition record_group spec (request : GroupedAggregateRequest) (e : ItemId.t * ItemRecord) : EngineResult (option (gmap string TypedValue)) :=
  match query_entity e.2 with
  | None => Ok None
  | Some entity =>
      ok ← matches_filters_on_entity entity (ga_filters request);
      if negb ok then Ok None else group_key spec entity (ga_group_by request) ∅
  end.

Definition record_groups p spec request : list (gmap string TypedValue) :=
  omap (λ e, match record_group spec request e with Ok o => o | Err _ => None end) (map_to_list (pd_items p)).

Definition same_text (key key' : gmap string TypedValue) : bool := String.eqb (group_key_text key) (group_key_text key').

Lemma try_fold_ext {E A S} (f g : S → A → result E S) s l : (∀ s a, f s a = g s a) → try_fold f s l = try_fold g s l.
Proof. intros Hf. revert s. induction l as [|a l IH]; intros s; [done|]. rewrite !try_fold_cons, Hf. destruct (g s a); [apply IH|done]. Qed.

(** What the loop has counted after the keys [seen]. *)
Record counted (max_groups : Z) (seen : list (gmap string TypedValue)) (groups : gmap string (gmap string TypedValue * Z)) : Prop := {
  ct_text text key n : groups !! text = Some (key, n) → text = group_key_text key ∧ key ∈ seen ∧ n = count_of (same_text key) seen;
  ct_all key : key ∈ seen → is_Some (groups !! group_key_text key);
  ct_size : Z.of_nat (size groups) ≤ max_groups;
}.

Lemma count_of_app {A} (f : A → bool) l k : count_of f (l ++ k) = count_of f l + count_of f k.
Proof. unfold count_of. rewrite List.filter_app, length_app. lia. Qed.

Lemma count_of_ext {A} (f g : A → bool) l : (∀ a, f a = g a) → count_of f l = count_of g l.
Proof. intros Hf. unfold count_of. by rewrite (List.filter_ext f g). Qed.

Lemma count_of_none {A} (f : A → bool) l : (∀ a, a ∈ l → f a = false) → count_of f l = 0.
Proof. intros Hf. unfold count_of. induction l as [|a l IH]; [done|]. cbn. rewrite (Hf a) by set_solver. apply IH. set_solver. Qed.

Lemma counted_step max_groups seen groups key groups' : 0 ≤ max_groups < 2 ^ 32 → counted max_groups seen groups →
  add_to_group max_groups key groups = Ok groups' → counted max_groups (seen ++ [key]) groups'.
Proof.
  intros Hmax [Htext Hall Hsize] Hadd. unfold add_to_group in Hadd.
  assert (Hone : ∀ k, count_of (same_text k) (seen ++ [key]) = count_of (same_text k) seen + Z.b2z (same_text k key)).
  { intros k. rewrite count_of_app. f_equal. unfold count_of. cbn. by destruct (same_text k key). }
  assert (Hother : ∀ text k n, text ≠ group_key_text key → groups !! text = Some (k, n) →
    text = group_key_text k ∧ k ∈ seen ++ [key] ∧ n = count_of (same_text k) (seen ++ [key])).
  { intros text k n Hne Hk. destruct (Htext _ _ _ Hk) as (-> & Hin & ->). split_and!; [done|set_solver|]. rewrite Hone. unfold same_text at 3.
    rewrite (proj2 (String.eqb_neq _ _)) by done. cbn. lia. }
  destruct (groups !! group_key_text key) as [[k n]|] eqn:Hg.
  - injection Hadd as <-. destruct (Htext _ _ _ Hg) as (Hk & Hin & ->). split.
    + intros text k' n' [[<- [= <- <-]]|[Hne Hk']]%lookup_insert_Some; [|by apply Hother]. split_and!; [done|set_solver|].
      rewrite Hone. unfold same_text at 3. by rewrite Hk, String.eqb_refl.
    + intros k' [Hk'|Hk']%elem_of_app; apply lookup_insert_is_Some'; [right; by apply Hall|left]. by apply list_elem_of_singleton in Hk' as ->.
    + rewrite map_size_insert_Some by eauto. done.
  - rewrite Z.mod_small in Hadd by lia. destruct (Z.leb_spec max_groups (Z.of_nat (size groups))) as [|Hlt]; [done|]. injection Hadd as <-. split.
    + intros text k' n' [[<- [= <- <-]]|[Hne Hk']]%lookup_insert_Some; [|by apply Hother]. split_and!; [done|set_solver|].
      rewrite Hone. unfold same_text at 2. rewrite String.eqb_refl. cbn [Z.b2z]. rewrite count_of_none; [done|].
      intros k' Hk'. apply String.eqb_neq. intros Heq. destruct (Hall k' Hk') as [x Hx]. congruence.
    + intros k' [Hk'|Hk']%elem_of_app; apply lookup_insert_is_Some'; [right; by apply Hall|left]. by apply list_elem_of_singleton in Hk' as ->.
    + rewrite map_size_insert_None by done. lia.
Qed.

Lemma counted_fold spec request l : 0 ≤ ga_max_groups request < 2 ^ 32 → ∀ seen groups groups', counted (ga_max_groups request) seen groups →
  try_fold (λ groups e, o ← record_group spec request e; match o with None => Ok groups | Some key => add_to_group (ga_max_groups request) key groups end) groups l = Ok groups' →
  counted (ga_max_groups request) (seen ++ omap (λ e, match record_group spec request e with Ok o => o | Err _ => None end) l) groups'.
Proof.
  intros Hmax. induction l as [|e l IH]; intros seen groups groups' Hc; [intros [= <-]; by rewrite app_nil_r|].
  rewrite try_fold_cons. intros (groups1 & He & Hf)%bind_Ok. apply bind_Ok in He as (o & Ho & He). cbn. rewrite Ho. destruct o as [key|].
  - eapply (IH (seen ++ [key])) in Hf; [by rewrite <-app_assoc in Hf|]. by eapply counted_step.
  - injection He as <-. by eapply IH.
Qed.

(** Grouped counts are exact and within the bound: one group per key text among the keys
    of the records that pass the filters, with the number of records that have it. *)
Theorem group_counts_exact p request groups :
  grouped_aggregate p request = Ok groups → 0 ≤ ga_max_groups request < 2 ^ 32 →
  ∃ spec, typed_range_index p (ga_index request) = Ok spec ∧ let keys := record_groups p spec request in
    NoDup (group_key_text ∘ ag_key <$> groups) ∧ Z.of_nat (length groups) ≤ ga_max_groups request ∧
    (∀ g, g ∈ groups → ag_key g ∈ keys ∧ ag_count g = count_of (same_text (ag_key g)) keys) ∧
    (∀ key, key ∈ keys → ∃ g, g ∈ groups ∧ group_key_text (ag_key g) = group_key_text key).
Proof.
  unfold grouped_aggregate. case_bool_decide; [done|]. intros (spec & Hspec & Hout)%bind_Ok Hmax. apply bind_Ok in Hout as ([] & _ & Hout).
  apply bind_Ok in Hout as (table & Hfold & [= <-]). exists spec. split; [done|]. cbv zeta.
  assert (Hc : counted (ga_max_groups request) (record_groups p spec request) table).
  { apply (counted_fold spec request (map_to_list (pd_items p)) Hmax [] ∅).
    - split; [by intros ???; rewrite lookup_empty|set_solver|rewrite map_size_empty; lia].
    - rewrite <-Hfold. apply try_fold_ext. intros groups e. unfold record_group. destruct (query_entity e.2); [|done].
      destruct (matches_filters_on_entity _ _) as [[]|]; cbn [mbind result_bind negb]; [|done..]. by destruct (group_key _ _ _ _). }
  destruct Hc as [Htext Hall Hsize].
  assert (Hin : ∀ text key n, (text, (key, n)) ∈ btree_list table ↔ table !! text = Some (key, n)) by (intros; apply elem_of_btree_list).
  split_and!.
  - rewrite <-list_fmap_compose. assert (Heq : (group_key_text ∘ ag_key) ∘ (λ e : string * (gmap string TypedValue * Z), mkAggregateGroup e.2.1 e.2.2) <$> btree_list table = (btree_list table).*1).
    { apply list_fmap_ext. intros i [text [key n]] Hi. cbn. apply list_elem_of_lookup_2, Hin, Htext in Hi as (-> & _). done. }
    rewrite Heq. apply NoDup_btree_keys.
  - rewrite length_fmap, btree_list_perm, length_map_to_list. done.
  - intros g ([text [key n]] & -> & Hk%Hin%Htext)%list_elem_of_fmap. cbn. naive_solver.
  - intros key Hk. destruct (Hall key Hk) as [[k n] Hk']. exists (mkAggregateGroup k n). split; [|cbn; by apply Htext in Hk' as (-> & _)].
    apply list_elem_of_fmap. exists (group_key_text key, (k, n)). split; [done|]. by apply Hin.
Qed.
End groups.

(** ** Lifecycle counts from index keys *)

Section metrics.
Context {N : Type} `{JsonNumber N, AxonIndex N}.
Implicit Types (fields : gmap string TypedValue) (spec : QueueIndex).

Definition field_passes fields (f : QueryFilter) : bool :=
  match fields !! qf_field f with
  | Some v => match typed_value_compare v (qf_value f) with Ok ord => op_holds (qf_op f) ord | Err _ => false end
  | None => false
  end.

(** The counts of the records that are not superseded and pass every filter. *)
Definition metrics_of_records (filters : list QueryFilter) (records : list (ItemState * bool * gmap string TypedValue)) : QueueMetrics :=
  let n st := count_of (λ r, bool_decide (r.1.1 = st) && negb r.1.2 && forallb (field_passes r.2) filters) records in
  mkQueueMetrics (n Pending) (n Leased) (n Complete) (n Lifecycle.Failed) (n Complete + n Lifecycle.Failed).

(** A value that an index key orders as the queries do. *)
Definition value_ordered (utf8 : bytes → bool) (v : TypedValue) : Prop := value_fits utf8 v ∧ negative_zero v = false ∧ ordinary v.

Lemma split_key_frames {A} (columns : list A) (parts : list bytes) : length columns = length parts →
  Forall (λ part : bytes, Z.of_nat (length part) ≤ u32_max) parts → split_key columns (concat (frame_value <$> parts)) = Ok parts.
Proof.
  revert parts. induction columns as [|c columns IH]; intros [|part parts] Hl Hf; try done. injection Hl as Hl. rewrite Forall_cons in Hf. destruct Hf as [Hp Hf].
  rewrite fmap_cons. cbn [concat split_key]. rewrite take_component_frame by done. cbn [mbind result_bind]. by rewrite IH.
Qed.

Lemma encode_kind v ty part : encode_typed_value v ty = Ok part → value_kind v = ty.
Proof. by destruct v, ty. Qed.

(** A filter and its encoding at its column. *)
Definition filter_encoding spec (f : QueryFilter) (x : nat * FilterOp * bytes) : Prop :=
  ∃ name ty, index_fields spec !! x.1.1 = Some (name, ty) ∧ name = qf_field f ∧ x.1.2 = qf_op f ∧ encode_typed_value (qf_value f) ty = Ok x.2.

Lemma encode_filters_Ok spec filters encoded : encode_filters spec filters = Ok encoded → Forall2 (filter_encoding spec) filters encoded.
Proof.
  unfold encode_filters. assert (Hgen : ∀ acc done, Forall2 (filter_encoding spec) done acc →
    try_fold (λ encoded filter, '(position, (_, ty)) ← ok_or (list_find (λ column : string * IndexType, column.1 = qf_field filter) (index_fields spec)) unindexed_field;
      _ ← typed_value_from_filter_value (qf_value filter) ty;
      bytes ← map_err (λ _, not_declared_type) (encode_typed_value (qf_value filter) ty);
      Ok (encoded ++ [(position, qf_op filter, bytes)])) acc filters = Ok encoded → Forall2 (filter_encoding spec) (done ++ filters) encoded).
  2:{ by apply (Hgen [] []). }
  induction filters as [|f filters IH]; intros acc done Hd; [intros [= <-]; by rewrite app_nil_r|].
  rewrite try_fold_cons. intros (acc' & Ha & Hf)%bind_Ok. apply bind_Ok in Ha as ([i [name ty]] & Hfind%ok_or_Ok & Ha).
  apply bind_Ok in Ha as (w & _ & Ha). apply bind_Ok in Ha as (b & Hb & [= <-]). destruct (encode_typed_value (qf_value f) ty) as [b'|] eqn:Hb'; [|done].
  injection Hb as ->. apply list_find_Some in Hfind as (Hi & Hname & _). eapply (IH _ (done ++ [f])) in Hf; [by rewrite <-app_assoc in Hf|].
  apply Forall2_app; [done|]. constructor; [|constructor]. by exists name, ty.
Qed.

(** Comparing components is comparing values. *)
Lemma component_matches_passes utf8 spec fields (parts : list bytes) f x :
  Forall2 (column_part fields) (index_fields spec) parts → (∀ column v, column ∈ index_fields spec → fields !! column.1 = Some v → value_ordered utf8 v) →
  value_ordered utf8 (qf_value f) → filter_encoding spec f x → component_matches parts x = field_passes fields f.
Proof.
  destruct x as [[i op] enc]. intros Hparts Hfit (Hf & Hzf & Hof) (name & ty & Hcol & -> & Hop & Henc). cbn in Hcol, Hop, Henc. destruct (Forall2_lookup_l _ _ _ _ _ Hparts Hcol) as (part & Hpart & v & Hv & Hev).
  cbn in Hv, Hev. destruct (Hfit (qf_field f, ty) v) as (Hv' & Hzv & Hov); [by eapply list_elem_of_lookup_2|done|].
  unfold component_matches, field_passes. cbn [fst snd]. rewrite Hpart, Hop, Hv. cbn [default from_option Datatypes.id].
  pose proof (typed_value_compare_key v (qf_value f) ltac:(by rewrite (encode_kind _ _ _ Hev), (encode_kind _ _ _ Henc)) Hov Hof) as Hc. rewrite Hc. f_equal.
  by apply (encoded_value_cmp utf8 v (qf_value f) ty).
Qed.

(** Counting the selected states one by one. *)
Lemma count_states (select : ItemState * bool * gmap string TypedValue → bool) records m :
  let n st := count_of (λ r, bool_decide (r.1.1 = st) && select r) records in
  with_resident (foldl (λ m r, if select r then count_state r.1.1 m else m) m records) =
  mkQueueMetrics (qm_pending m + n Pending) (qm_leased m + n Leased) (qm_complete m + n Complete) (qm_failed m + n Lifecycle.Failed)
    (qm_complete m + n Complete + (qm_failed m + n Lifecycle.Failed)).
Proof.
  cbv zeta. revert m. induction records as [|[[st superseded] fields] records IH]; intros m; cbn [foldl]; [cbn; by rewrite !Z.add_0_r|]. rewrite IH.
  unfold count_of. cbn [List.filter fst snd]. destruct (select (st, superseded, fields)); [|by rewrite !andb_false_r].
  destruct m, st; repeat ((rewrite bool_decide_eq_true_2 by done) || (rewrite bool_decide_eq_false_2 by done)); cbn -[Z.of_nat bool_decide]; f_equal; lia.
Qed.

Definition keyed spec (r : ItemState * bool * gmap string TypedValue) (k : ItemState * bool * bytes) : Prop :=
  k.1 = r.1 ∧ typed_index_key (declaration spec) r.2 = Ok (Some k.2).

End metrics.

(** ** Instances *)

#[local] Instance sample_range : JsonRange Z.
Proof.
  split; [|done]. intros n z. cbn. destruct (_ && _) eqn:Hr; [|done]. intros [= <-]. apply andb_true_iff in Hr as [Hl%Z.leb_le Hu%Z.leb_le]. done.
Qed.

Definition f64_one : Z := 1023 * 2 ^ 52.
Definition f64_two : Z := 1024 * 2 ^ 52.
Definition rule_one : BucketRule := mkBucketRule "one" (Some f64_one) None None None None.
Definition rule_more : BucketRule := mkBucketRule "more" None None (Some f64_two) None None.
Definition sample_segment : DeclaredBucketSegmentRequest := mkDeclaredBucketSegmentRequest None [] "rank" [rule_one; rule_more] "none".

Lemma sample_segment_counts :
  declared_bucket_segment sample_ranked sample_segment = Ok [mkBucketCount "one" 1; mkBucketCount "more" 2; mkBucketCount "none" 0].
Proof. vm_compute. reflexivity. Qed.


Lemma unbounded_bucket_takes_all_witness :
  intervals_overlap (to_interval (mkBucketRule "all" None None None None None)) (to_interval rule_one) = true.
Proof. apply (unbounded_bucket_takes_all "all" (TVInteger 1) f64_one rule_one); [reflexivity..|repeat constructor|reflexivity]. Defined.

Definition rank_records : list (ItemState * bool * gmap string TypedValue) :=
  [(Pending, false, {["rank" := TVInteger 3]}); (Leased, false, {["rank" := TVInteger 1]}); (Complete, false, {["rank" := TVInteger 5]}); (Pending, true, {["rank" := TVInteger 9]})].
Definition rank_keys : list (ItemState * bool * bytes) :=
  (λ r, (r.1, frame_value (encode_i64 (match r.2 !! "rank" with Some (TVInteger i) => i | _ => 0 end)))) <$> rank_records.
Definition rank_query : MetricsByQueryRequest := mkMetricsByQueryRequest None [mkQueryFilter "rank" FilterGt (TVInteger 2)].


Definition rank_groups : GroupedAggregateRequest := mkGroupedAggregateRequest None [mkQueryFilter "rank" FilterGte (TVInteger 2)] [mkGroupByField "rank" None] 10.
#[local] Existing Instance sample_text.

Lemma group_counts_exact_witness :
  ∃ groups, grouped_aggregate sample_ranked rank_groups = Ok groups ∧ length groups = 2%nat ∧ NoDup (group_key_text ∘ ag_key <$> groups).
Proof.
  destruct (grouped_aggregate sample_ranked rank_groups) as [groups|] eqn:Hg; [|vm_compute in Hg; discriminate].
  destruct (group_counts_exact sample_ranked rank_groups groups Hg) as (spec & _ & Hn & _); [cbn; lia|].
  exists groups. split_and!; [reflexivity| |exact Hn]. vm_compute in Hg. injection Hg as <-. reflexivity.
Defined.
