(* ===== verification/BoundedMutation.v ===== *)
(** Bounded mutation ([plan_bounded_mutation] and [bounded_mutation] of
    [fireweed-projection/src/lib.rs]): one field update for every pending record that a query
    over a declared index matches. *)
From S2P Require Import Prelude Identity Priority Metadata Field Lifecycle CreateQueue Engine JsonEquality Ordered IndexFields Eligibility Projection ProjectionFacts ProjectionSamples ProjectionSteps ProjectionEdits ProjectionRefines ProjectionReads ProjectionReadFacts RichClaim Query QueryFacts.

Implicit Types (id : ItemId.t) (rec : ItemRecord).

(** [serde_json::to_vec] of a typed value. *)
Class TypedText := typed_to_vec : TypedValue → result string bytes.

Record BoundedMutationRequest := mkBoundedMutationRequest {
  bm_index : option string;
  bm_filters : list QueryFilter;
  bm_set_fields : gmap string TypedValue;
  bm_max_scan_rows : Z;
}.

Inductive MutationOutcome := OutcomeUpdated | OutcomeConflict | OutcomeNotFound.

Record MutationResult := mkMutationResult { mr_item_id : ItemId.t; mr_outcome : MutationOutcome }.

Section mutation.
Context {N : Type} `{JsonNumber N, AxonIndex N, JsonBuild N, EntityCodec N} `{TypedText}.
Implicit Types (p : ProjectionData) (spec : QueueIndex).

Record BoundedMutationUpdate := mkBoundedMutationUpdate {
  bu_command : UpdateFieldsCommand (N:=N);
  bu_expected_item_version : Z;
}.

Record BoundedMutationPlan := mkBoundedMutationPlan {
  bp_results : list MutationResult;
  bp_updates : list BoundedMutationUpdate;
}.

Definition typed_value_to_field_bytes (value : TypedValue) : EngineResult bytes :=
  match typed_to_vec value with Ok bytes => Ok bytes | Err why => Err (Storage why) end.

Definition merge_field_bytes (fields : gmap string bytes) (set_fields : gmap string TypedValue) : EngineResult (gmap string bytes) :=
  try_fold (λ merged e, bytes ← typed_value_to_field_bytes e.2; Ok (<[e.1 := bytes]> merged)) fields (btree_list set_fields).

Definition bounded_matches p spec (filters : list QueryFilter) : EngineResult (list (ItemId.t * Z)) :=
  try_fold (λ matches e,
    match query_entity e.2 with
    | None => Ok matches
    | Some entity =>
        row ← range_scan_row spec (ir_item_id e.2) entity;
        match row with
        | None => Ok matches
        | Some row =>
            ok ← range_scan_matches spec filters row;
            Ok (if (ok : bool) then matches ++ [(ir_item_id e.2, ir_item_version e.2)] else matches)
        end
    end) [] (map_to_list (pd_items p)).

Definition is_unique_index p (name : string) : bool := match pd_indexes p !! name with Some (Unique _) => true | _ => false end.

Definition reservation_conflict p (reservations : gmap (string * bytes) ItemId.t) id (keys : list (string * bytes)) : bool :=
  existsb (λ k, is_unique_index p k.1 && match reservations !! k with Some holder => negb (bool_decide (holder = id)) | None => false end) keys.

Definition reserve_keys p (reservations : gmap (string * bytes) ItemId.t) id (keys : list (string * bytes)) : gmap (string * bytes) ItemId.t :=
  foldl (λ reservations k, if is_unique_index p k.1 then <[k := id]> reservations else reservations) reservations keys.

Definition bounded_command id (entity : Value N) (fields : gmap string bytes) : UpdateFieldsCommand (N:=N) :=
  mkUpdateFieldsCommand id ∅ PayloadKeep SchedKeep SchedKeep (Some entity) (Some fields) None None false None None.

Definition plan_one p (set_fields : gmap string TypedValue)
    (acc : BoundedMutationPlan * gmap (string * bytes) ItemId.t) (matched : ItemId.t * Z)
    : EngineResult (BoundedMutationPlan * gmap (string * bytes) ItemId.t) :=
  let '(plan, reservations) := acc in
  let '(id, seen_version) := matched in
  let answer outcome := mkBoundedMutationPlan (bp_results plan ++ [mkMutationResult id outcome]) (bp_updates plan) in
  match pd_items p !! id with
  | None => Ok (answer OutcomeNotFound, reservations)
  | Some rec =>
      if negb (bool_decide (ir_state rec = Pending)) || ir_fenced rec || ir_superseded rec || is_terminal (ir_state rec)
      then Ok (answer OutcomeConflict, reservations)
      else if negb (ir_item_version rec =? seen_version) then Ok (answer OutcomeConflict, reservations)
      else
        new_entity ← merge_entity_document (query_entity rec) set_fields;
        new_fields ← merge_field_bytes (ir_fields rec) set_fields;
        _ ← index_validate_with_entity p id new_fields (Some new_entity) None;
        new_keys ← record_index_keys (pd_config p) new_fields (ir_index_fields rec) (Some new_entity);
        if reservation_conflict p reservations id new_keys then Ok (answer OutcomeConflict, reservations)
        else Ok (mkBoundedMutationPlan (bp_results plan ++ [mkMutationResult id OutcomeUpdated])
                   (bp_updates plan ++ [mkBoundedMutationUpdate (bounded_command id new_entity new_fields) seen_version]),
                 reserve_keys p reservations id new_keys)
  end.

Definition plan_bounded_mutation p (request : BoundedMutationRequest) : EngineResult BoundedMutationPlan :=
  if bm_max_scan_rows request =? 0 then Err (Invalid "invalid page size")
  else
    spec ← typed_range_index p (bm_index request);
    matches ← bounded_matches p spec (bm_filters request);
    fst <$> try_fold (plan_one p (bm_set_fields request)) (mkBoundedMutationPlan [] [], ∅) (stable_sort fst matches).

Definition bounded_mutation (request : BoundedMutationRequest) : M (list MutationResult) :=
  p ← get;
  plan ← lift (plan_bounded_mutation p request);
  _ ← for_each (λ update, apply_command_at None None (CmdUpdateFields (bu_command update))) (bp_updates plan);
  mret (bp_results plan).
End mutation.

(** ** Lemmas *)

Lemma stable_insert_keys {A B} `{CompareLaws B} (f : A → B) x l : StronglySorted le_cmp (f <$> l) → StronglySorted le_cmp (f <$> stable_insert f x l).
Proof.
  induction l as [|y l IH]; intros Hs; [by repeat constructor|]. rewrite fmap_cons in Hs. inversion_clear Hs as [|?? Hl Hy]. cbn [stable_insert]. case_decide as Hc.
  - rewrite fmap_cons. constructor; [by apply IH|]. rewrite stable_insert_perm, fmap_cons. constructor; [|done]. unfold le_cmp. by rewrite Hc.
  - assert (Hxy : le_cmp (f x) (f y)) by (unfold le_cmp; rewrite (compare_antisym (f y) (f x)); by destruct (compare (f y) (f x))).
    rewrite !fmap_cons. constructor; [by constructor|]. constructor; [done|]. eapply Forall_impl; [exact Hy|]. intros z Hz. by transitivity (f y).
Qed.

Lemma stable_sort_keys {A B} `{CompareLaws B} (f : A → B) l : StronglySorted le_cmp (f <$> stable_sort f l).
Proof. induction l as [|x l IH]; [constructor|]. cbn. by apply stable_insert_keys. Qed.

Section facts.
Context {N : Type} `{JsonNumber N, AxonIndex N, JsonBuild N, EntityCodecLaws N} `{TypedText}.
Implicit Types (p : ProjectionData) (spec : QueueIndex) (plan : BoundedMutationPlan (N:=N)).

(** The matched records, each once, at their versions. *)
Definition seen p (m : ItemId.t * Z) : Prop := ∃ rec, pd_items p !! m.1 = Some rec ∧ ir_item_version rec = m.2.

Lemma bounded_matches_exact p spec filters matches :
  (∀ id rec, pd_items p !! id = Some rec → ir_item_id rec = id) → bounded_matches p spec filters = Ok matches →
  NoDup matches.*1 ∧ (∀ id, id ∈ matches.*1 ↔ ∃ row, scanned p spec filters row ∧ row_item_id row = id) ∧ Forall (seen p) matches.
Proof.
  intros Hids Hm.
  apply (try_fold_collect _ (λ e, option_map (λ _, (ir_item_id e.2, ir_item_version e.2)) <$> scan_one spec filters e)) in Hm as [Hok ->].
  2:{ intros acc e. unfold scan_one. destruct (query_entity e.2) as [entity|]; [|cbn; by rewrite app_nil_r].
      destruct (range_scan_row _ _ _) as [[row|]|]; cbn [mbind result_bind]; [|cbn; by rewrite app_nil_r|done].
      destruct (range_scan_matches _ _ _) as [[]|]; cbn; by rewrite ?app_nil_r. }
  assert (Hone : ∀ e x, e ∈ map_to_list (pd_items p) →
    match option_map (λ _, (ir_item_id e.2, ir_item_version e.2)) <$> scan_one spec filters e with Ok o => o | Err _ => None end = Some x ↔
    x = (e.1, ir_item_version e.2) ∧ ∃ row, scan_one spec filters e = Ok (Some row)).
  { intros [id rec] x He%elem_of_map_to_list. cbn. rewrite (Hids id rec He). destruct (scan_one spec filters (id, rec)) as [[row|]|]; cbn; naive_solver. }
  split_and!.
  - apply (omap_ids _ fst); [|apply NoDup_fst_map_to_list]. intros e x He Hx. by apply Hone in Hx as [-> _].
  - intros id. rewrite app_nil_l, list_elem_of_fmap. setoid_rewrite list_elem_of_omap. split.
    + intros (x & -> & [i rec] & He & Hx). apply Hone in Hx as (-> & row & Hrow); [|done]. apply elem_of_map_to_list in He. exists row.
      apply scan_one_Some in Hrow as (entity & Hq & Hrow & Hok'). cbn in *. rewrite (Hids _ _ He) in Hrow. destruct (range_scan_row_id _ _ _ _ Hrow) as [-> _].
      split; [|done]. exists rec, entity. destruct (range_scan_row_id _ _ _ _ Hrow) as [-> _]. done.
    + intros (row & (rec & entity & Hrec & Hq & Hrow & Hok') & <-). exists (row_item_id row, ir_item_version rec). split; [done|].
      exists (row_item_id row, rec). apply elem_of_map_to_list in Hrec as He. split; [done|]. apply Hone; [done|]. split; [done|]. exists row.
      apply scan_one_Some. exists entity. cbn. by rewrite (Hids _ _ Hrec).
  - rewrite app_nil_l. apply Forall_forall. intros x ([i rec] & He & Hx)%list_elem_of_omap. apply Hone in Hx as [-> _]; [|done].
    apply elem_of_map_to_list in He. by exists rec.
Qed.

(** ** The plan *)

Definition updated_ids (results : list MutationResult) : list ItemId.t :=
  omap (λ r, match mr_outcome r with OutcomeUpdated => Some (mr_item_id r) | _ => None end) results.

(** Pending, unfenced and live: what the planner updates. *)
Definition open_record rec : Prop := ir_state rec = Pending ∧ ir_fenced rec = false ∧ live rec.

Definition good_update p (u : BoundedMutationUpdate (N:=N)) : Prop :=
  valid_update None p (bu_command u) ∧
  ∃ rec, pd_items p !! uf_item_id (bu_command u) = Some rec ∧ open_record rec ∧ ir_item_version rec = bu_expected_item_version u.

(** A result other than [Updated] is a conflict: on a record that is not open, or over a unique
    index. *)
Definition refused p (r : MutationResult) : Prop :=
  mr_outcome r = OutcomeUpdated ∨ mr_outcome r = OutcomeConflict ∧
  ∃ rec, pd_items p !! mr_item_id r = Some rec ∧ (¬ open_record rec ∨ ∃ name, is_unique_index p name = true).

Record planned p (ids : list ItemId.t) plan : Prop := {
  pl_ids : mr_item_id <$> bp_results plan = ids;
  pl_updates : (λ u, uf_item_id (bu_command u)) <$> bp_updates plan = updated_ids (bp_results plan);
  pl_good : Forall (good_update p) (bp_updates plan);
  pl_refused : Forall (refused p) (bp_results plan);
}.

Lemma planned_conflict p ids plan id rec :
  planned p ids plan → pd_items p !! id = Some rec → ¬ open_record rec ∨ (∃ name, is_unique_index p name = true) →
  planned p (ids ++ [id]) (mkBoundedMutationPlan (bp_results plan ++ [mkMutationResult id OutcomeConflict]) (bp_updates plan)).
Proof.
  intros [Hi Hu Hg Hr] Hrec Hwhy. split; cbn; [by rewrite fmap_app, Hi| |done|].
  - unfold updated_ids. rewrite omap_app, Hu. cbn. by rewrite app_nil_r.
  - apply Forall_app. split; [done|]. apply Forall_singleton. right. split; [done|]. by exists rec.
Qed.

(** Validation leaves the proposed unique keys to the item. *)
Lemma index_validate_valid p id rec entity fields :
  let u := bounded_command id entity fields in
  pd_items p !! id = Some rec → live rec → index_validate_with_entity p id fields (Some entity) None = Ok tt → valid_update None p u.
Proof.
  intros u Hrec Hl Hval. apply bind_Ok in Hval as (ix & Hix & Hval). apply bind_Ok in Hval as (keys & Hkeys & Hval).
  set (r := updated_record rec u None fields ix). assert (Hk : record_entity_index_keys (pd_config p) r = Ok keys).
  { rewrite <-Hkeys. symmetry. apply (update_keys (pd_config p) None u rec ix). }
  exists rec, r. split_and!; [done|done| |by exists keys|].
  - unfold update_target. cbn. by rewrite Hix.
  - rewrite (keys_of_Ok _ _ _ Hk). intros x j Hx Hq Hj. apply try_for_each_Ok in Hval. pose proof (proj1 (Forall_forall _ _) Hval x Hx) as Hv. cbn in Hv.
    unfold is_unique_name, has_key in *. destruct (pd_indexes p !! x.1) as [[map|]|]; try done. rewrite Hj in Hv. by case_bool_decide.
Qed.

Lemma reservation_conflict_unique p reservations id keys : reservation_conflict p reservations id keys = true → ∃ name, is_unique_index p name = true.
Proof. intros (k & _ & [Hk _]%andb_prop)%existsb_exists. by exists k.1. Qed.

Lemma plan_one_planned p set_fields ids plan reservations m plan' reservations' :
  planned p ids plan → seen p m → plan_one p set_fields (plan, reservations) m = Ok (plan', reservations') → planned p (ids ++ [m.1]) plan'.
Proof.
  destruct m as [id v]. intros Hpl (rec & Hrec & Hv). cbn in Hrec, Hv. unfold plan_one. cbn [fst]. rewrite Hrec, Hv, Z.eqb_refl. cbn [negb].
  destruct (negb _ || ir_fenced rec || ir_superseded rec || is_terminal (ir_state rec)) eqn:Hst.
  { intros [= <- <-]. eapply planned_conflict; [done..|]. left. intros (Hp & Hf & Hl). unfold live in Hl. by rewrite Hp, Hf, Hl in Hst. }
  rewrite !orb_false_iff, negb_false_iff, bool_decide_eq_true in Hst. destruct Hst as [[[Hpend Hfence] Hsup] _].
  intros (entity & _ & Hrest)%bind_Ok. apply bind_Ok in Hrest as (fields & _ & Hrest).
  apply bind_Ok in Hrest as ([] & Hval & Hrest). apply bind_Ok in Hrest as (keys & _ & Hrest).
  destruct (reservation_conflict _ _ _ _) eqn:Hres.
  { injection Hrest as <- <-. eapply planned_conflict; [done..|]. right. by eapply reservation_conflict_unique. }
  injection Hrest as <- <-. destruct Hpl as [Hi Hu Hg Hr]. split; cbn.
  - by rewrite fmap_app, Hi.
  - unfold updated_ids. by rewrite fmap_app, omap_app, Hu.
  - apply Forall_app. split; [done|]. apply Forall_singleton. split; [by eapply index_validate_valid|]. by exists rec.
  - apply Forall_app. split; [done|]. apply Forall_singleton. by left.
Qed.

Lemma plan_fold_planned p set_fields matches : ∀ ids plan reservations plan' reservations',
  planned p ids plan → Forall (seen p) matches → try_fold (plan_one p set_fields) (plan, reservations) matches = Ok (plan', reservations') →
  planned p (ids ++ matches.*1) plan'.
Proof.
  induction matches as [|m matches IH]; intros ids plan reservations plan' reservations' Hpl Hs Hf.
  { injection Hf as <- <-. by rewrite app_nil_r. }
  apply Forall_cons in Hs as [Hm Hs]. apply bind_Ok in Hf as ([plan1 res1] & H1' & Hf). rewrite fmap_cons, cons_middle, app_assoc.
  eapply IH; [|done|exact Hf]. by eapply plan_one_planned.
Qed.

Lemma plan_bounded_mutation_planned p request plan :
  consistent p → plan_bounded_mutation p request = Ok plan → ∃ spec ids,
  typed_range_index p (bm_index request) = Ok spec ∧ planned p ids plan ∧ NoDup ids ∧ StronglySorted le_cmp ids ∧
  ∀ id, id ∈ ids ↔ ∃ row, scanned p spec (bm_filters request) row ∧ row_item_id row = id.
Proof.
  intros Hp. unfold plan_bounded_mutation. destruct (_ =? 0); [done|]. intros (spec & Hspec & Hm)%bind_Ok. apply bind_Ok in Hm as (matches & Hm & Hplan).
  destruct (bounded_matches_exact p spec (bm_filters request) matches (co_ids p Hp) Hm) as (Hnd & Hin & Hseen).
  destruct (try_fold _ _ _) as [[plan' res]|] eqn:Hf; [|done]. injection Hplan as ->.
  pose proof (stable_sort_perm fst matches) as Hperm. exists spec, (stable_sort fst matches).*1. split_and!; [done| | | |].
  - apply (plan_fold_planned p (bm_set_fields request) (stable_sort fst matches) [] (mkBoundedMutationPlan [] []) ∅ plan res); [by split| |done]. by rewrite Hperm.
  - by rewrite Hperm.
  - apply stable_sort_keys.
  - intros id. by rewrite Hperm.
Qed.

(** ** Applying the plan *)

(** The keys a command would leave its record. *)
Definition target_keys p (u : UpdateFieldsCommand (N:=N)) : list (string * bytes) :=
  match pd_items p !! uf_item_id u with
  | Some rec => match update_target (pd_config p) None u rec with Ok r => keys_of (pd_config p) r | Err _ => [] end
  | None => []
  end.

(** No two of the updates leave the same unique key. *)
Definition keys_apart p (us : list (UpdateFieldsCommand (N:=N))) : Prop :=
  ∀ u u' x, u ∈ us → u' ∈ us → unique_in (pd_config p) x → x ∈ target_keys p u → x ∈ target_keys p u' → uf_item_id u = uf_item_id u'.

Lemma target_keys_valid p u rec r : pd_items p !! uf_item_id u = Some rec → update_target (pd_config p) None u rec = Ok r → target_keys p u = keys_of (pd_config p) r.
Proof. intros Hrec Hu. unfold target_keys. by rewrite Hrec, Hu. Qed.

Lemma target_keys_put p p' id r u : put p p' id r → uf_item_id u ≠ id → target_keys p' u = target_keys p u.
Proof. intros Hput Hne. unfold target_keys. by rewrite (pu_items _ _ _ _ Hput), (pu_config _ _ _ _ Hput), lookup_insert_ne. Qed.

(** An update of one record leaves the others' updates valid. *)
Lemma valid_update_put p p' id r u :
  put p p' id r → consistent p → consistent p' → uf_item_id u ≠ id →
  (∀ x, unique_in (pd_config p) x → x ∈ keys_of (pd_config p) r → x ∉ target_keys p u) → valid_update None p u → valid_update None p' u.
Proof.
  intros Hput Hp Hp' Hne Hapart (rec & ru & Hrec & Hl & Hu & Hk & Hf). pose proof (pu_config _ _ _ _ Hput) as Hc. pose proof (pu_items _ _ _ _ Hput) as Hi.
  exists rec, ru. rewrite Hc, Hi, lookup_insert_ne by done. split_and!; [done..|]. intros x j Hx Hq Hj.
  destruct (co_index p Hp) as [Hs Ht], (co_index p' Hp') as [Hs' Ht']. rewrite Hc in Hs', Ht'. apply (unique_in_index _ _ _ Hs') in Hq.
  apply Ht' in Hj as (rj & Hrj & Hlj & Hxj). rewrite Hi in Hrj. destruct (decide (id = j)) as [<-|Hj].
  - rewrite lookup_insert_eq in Hrj. injection Hrj as <-. exfalso. apply (Hapart x Hq Hxj). by rewrite (target_keys_valid _ _ _ _ Hrec Hu).
  - rewrite lookup_insert_ne in Hrj by done. apply (Hf x j Hx); [by apply (unique_in_index _ _ _ Hs)|]. apply Ht. by exists rj.
Qed.

Lemma updates_in_turn us : ∀ p, consistent p → NoDup (uf_item_id <$> us) → Forall (valid_update None p) us → keys_apart p us →
  in_turn (apply_update_fields None) (valid_update None) us p.
Proof.
  induction us as [|u us IH]; intros p Hp Hn Hv Hap; [done|]. apply Forall_cons in Hv as [Hu Hv]. apply NoDup_cons in Hn as [Hnu Hn]. split; [done|].
  intros p' Hrun. destruct Hu as (rec & r & Hrec & Hl & Ht & Hk & Hf).
  destruct (apply_update_fields_put p None u rec r) as (p1 & Hrun1 & Hput & _); [done..|]. assert (p1 = p') as -> by congruence.
  assert (Hp' : consistent p') by (by eapply consistent_put).
  assert (Hne : ∀ u', u' ∈ us → uf_item_id u' ≠ uf_item_id u) by (intros u' Hu' Heq; apply Hnu; rewrite <-Heq; by apply list_elem_of_fmap_2).
  apply IH; [done|done| |].
  - apply Forall_forall. intros u' Hu'. apply (valid_update_put p p' (uf_item_id u) r); [done..|by apply Hne| |by apply (proj1 (Forall_forall _ _) Hv)].
    intros x Hx Hxr Hxu. apply (Hne u' Hu'). symmetry. apply (Hap u u' x); [set_solver..|done| |done]. by rewrite (target_keys_valid _ _ _ _ Hrec Ht).
  - intros u1 u2 x H1' H2' Hx. rewrite (pu_config _ _ _ _ Hput) in Hx. rewrite !(target_keys_put _ _ _ _ _ Hput) by auto. apply Hap; [set_solver..|done].
Qed.

Lemma for_each_fmap {A B} (g : A → B) (f : B → M unit) l p : for_each (λ a, f (g a)) l p = for_each f (g <$> l) p.
Proof. revert p. induction l as [|a l IH]; intros p; [done|]. cbn. unfold mbind, M_bind. destruct (f (g a) p) as [[|] p1]; [apply IH|done]. Qed.

Lemma bounded_mutation_runs p request plan :
  consistent p → plan_bounded_mutation p request = Ok plan → keys_apart p (bu_command <$> bp_updates plan) → ∃ p',
  bounded_mutation request p = (Ok (bp_results plan), p') ∧ consistent p' ∧
  view p' = each (spec_update (pd_config p) None) (bu_command <$> bp_updates plan) (view p).
Proof.
  intros Hp Hplan Hap. destruct (plan_bounded_mutation_planned p request plan Hp Hplan) as (spec & ids & _ & [Hi Hu Hg _] & Hnd & _ & _).
  set (us := bu_command <$> bp_updates plan) in *.
  assert (Hturn : in_turn (apply_update_fields None) (valid_update None) us p).
  { apply updates_in_turn; [done| | |done].
    - subst us. rewrite <-list_fmap_compose. change (NoDup ((λ u, uf_item_id (bu_command u)) <$> bp_updates plan)). rewrite Hu.
      rewrite <-(list_fmap_id (updated_ids _)). apply (omap_ids _ mr_item_id); [|by rewrite Hi]. intros r x _. destruct (mr_outcome r); by intros [= <-].
    - apply Forall_fmap. eapply Forall_impl; [exact Hg|]. by intros u [Hv _]. }
  destruct (for_each_runs (apply_update_fields None) (spec_update (pd_config p) None) (valid_update None) us p) as (p' & Hrun & Hp' & _ & Hv); [|done..|].
  { intros q u Hq <- Hv. by apply update_runs. }
  exists p'. split_and!; [|done|done]. unfold bounded_mutation, mbind, M_bind, get, lift. rewrite Hplan.
  pose proof (for_each_fmap bu_command (apply_update_fields None) (bp_updates plan) p) as Hm. fold us in Hm. rewrite Hrun in Hm.
  cbn [apply_command_at]. unfold M. rewrite Hm. done.
Qed.

End facts.

(** ** A queue of two items under a unique index *)

Definition sku_config : ProjectionConfig :=
  mkProjectionConfig timestamp_ascending Strict 0 RecurrencePolicy_default GateNone None None [] [mkQueueIndex "by_sku" (Single ("sku", IString, true))].
Definition sku_push (id : Z) (sku : string) : PushItem (N:=Z) :=
  mkPushItem sku (ItemId.mk id) (Some (Timestamp (mkUtcTimestamp 10 0))) None None 3 None ∅ Metadata_new None [] {["sku" := TVString sku]} None.
Definition sku_pushes : list (PushItem (N:=Z)) := [sku_push 1 "a"; sku_push 2 "b"].
Definition sku_state : ProjectionData := (apply_command_at None None (CmdPush sku_pushes) (projection_new sku_config)).2.
#[local] Instance sample_typed_text : TypedText := λ v, match v with TVString s => Ok (as_bytes s) | _ => Ok [] end.
Definition set_sku (filters : list QueryFilter) (sku : string) : BoundedMutationRequest := mkBoundedMutationRequest None filters {["sku" := TVString sku]} 10.

Lemma sku_state_consistent : consistent sku_state.
Proof.
  apply runs_to; [apply consistent_new|]. constructor.
  - apply (bool_decide_eq_true_1 _). vm_compute. reflexivity.
  - intros item _. done.
  - apply (bool_decide_eq_true_1 _). vm_compute. reflexivity.
  - intros item k _ _. done.
  - vm_compute. reflexivity.
  - vm_compute. discriminate.
Qed.


(** C38. The planner reserves the unique keys of the fields a record had, not of
    those the update gives it. One request that sets the same value on two records of a unique
    index reports both updated, leaves both carrying the value, and the index with the second
    only: the projection is no longer consistent. *)
Theorem bounded_mutation_breaks_unique :
  consistent sku_state ∧
  let run := bounded_mutation (set_sku [] "c") sku_state in
  run.1 = Ok [mkMutationResult (ItemId.mk 1) OutcomeUpdated; mkMutationResult (ItemId.mk 2) OutcomeUpdated] ∧
  (∀ id, id = ItemId.mk 1 ∨ id = ItemId.mk 2 → ir_index_fields <$> pd_items run.2 !! id = Some {["sku" := TVString "c"]}) ∧
  (∃ map key, pd_indexes run.2 !! "by_sku" = Some (Unique map) ∧ map_to_list map = [(key, ItemId.mk 2)]) ∧ ¬ consistent run.2.
Proof.
  split; [exact sku_state_consistent|]. cbn zeta. split_and!.
  - vm_compute. reflexivity.
  - intros id [-> | ->]; vm_compute; reflexivity.
  - eexists _, _. split; vm_compute; reflexivity.
  - set (q := (bounded_mutation _ _).2). intros Hq. destruct (co_index q Hq) as [_ Ht].
    set (rec := default (pending_record (sku_push 1 "a") 0 None) (pd_items q !! ItemId.mk 1)).
    set (x := default ("", []) (head (keys_of (pd_config q) rec))).
    assert (Hx : has_key (pd_indexes q) (ItemId.mk 1) x).
    { apply Ht. exists rec. split_and!; [vm_compute; reflexivity..|]. apply (bool_decide_eq_true_1 _). vm_compute. reflexivity. }
    vm_compute in Hx. discriminate.
Qed.
